(* ===== verification/_CoqProject ===== *)
-Q . S2P
Prelude.v
Bytes.v
Sort.v
Log.v
LogPersist.v
LogAux.v
Message.v
Node.v
Cluster.v
Spec.v
SpecElection.v
SpecLog.v
SpecCommit.v
NodeFacts.v
Refine.v
NodeSpec.v
Network.v
Commit.v
Progress.v
Availability.v
ClusterSpec.v
Wiring.v
SplitBrain.v
Timer.v
Peers.v
Membership.v
Codec.v
Disk.v
Persist.v
Snapshot.v
Transport.v
Strconv.v
Utf8.v
Json.v
KV.v
Counter.v
Config.v
Anomalies.v
Driver.v
