(* ===== verification/Prelude.v ===== *)
(** * consensus-raft: a verification of the Raft core

    The program (Go, module consensus-raft) is a deterministic Raft: a replicated log, a
    node driven by [Tick], [Step] and [Propose], a simulated cluster with partitions, and
    the packages around them: serializers, durable files, transport, state machines.  This
    library models that code as executable definitions, one per function, with the names of
    the source, and proves what the components promise.

    ** Conventions (this file)

    A [uint64] is an [N] with the wrapping operations [+u] and [-u], a Go [int] a [Z].  A
    call returns in [go A]: [Ret] a value, [Throw] a returned error, or [Panic] (an index or
    an allocation out of range).  A method that mutates its receiver returns the new
    receiver; where an error can be returned after a mutation, the result is a pair with an
    [option error].  Slices are lists: entry slices are copied when they enter or leave a
    log or a batch, and nothing in the repository writes into the bytes of a command, so
    sharing is not observable.  Maps are [gmap]s; where the order in
    which Go visits a map matters, the order is an argument.  Byte strings are [list byte].

    ** Components

<<
    file                source under src/
    Log                 internal/log/log.go, lines 1-231
    LogPersist          internal/log/log.go, Serialize and Deserialize
    LogAux              internal/log/compact.go, iter.go, batch.go, stats.go
    Message             message types of internal/node/node.go, and node/message.go
    Node                internal/node/node.go
    Cluster             internal/cluster/cluster.go, partition.go
    Timer, Peers        internal/node/timer.go, peers.go
    Membership          internal/membership/membership.go
    Codec               internal/codec/codec.go
    Persist, Snapshot   internal/persist/persist.go, internal/snapshot/snapshot.go
    Transport           internal/transport/transport.go
    KV, Counter         internal/statemachine/kv.go, counter.go
    Config              internal/config/config.go
    Driver              main.go
    Bytes, Sort, Disk,  what these use of encoding/binary, io, sort, os and path/filepath,
    Strconv, Utf8, Json strconv, unicode/utf8 and encoding/json
>>

    A node keeps a [Log]; [Node.Restart] goes through [LogPersist]; [Cluster] keeps nodes
    and message queues; [Driver] runs a cluster.  Everything from Timer to Config is used by
    callers outside the repository and is verified on its own, with the links between
    components where they exist ([Peers] and [Membership] against the majority rule of the
    node).  Interfaces are typeclasses: [RNG] with its contract [LawfulRNG] (the random
    source of a node), [Writer] with [LawfulWriter] (io.Writer), [Transport] with
    [LawfulTransport], and [Codec] (a writer's bytes and a parser that are inverse to each
    other), which the wire formats of Codec, Persist and Snapshot instantiate.

    ** Abstract specifications and refinement

    [Spec] is Raft as a transition system: a node reduced to term, vote, role, votes and
    log, and the set of all messages ever sent.  [SpecElection] proves election safety and
    [SpecLog] log matching of it, each from an inductive invariant; [SpecCommit] adds the
    history of the leaders' logs and of acknowledgements and proves leader completeness.
    [Refine] shows that every method of the real [Node] performs steps of [Spec] and
    returns, given the invariant [node_ok] of [NodeFacts].  [Network] lifts this to
    executions: nodes with correct peer lists, a network that loses, delays, reorders and
    duplicates, crashes and restarts.  [Commit] relates what the nodes acknowledge and
    commit in an execution to the histories of [SpecCommit]; [Progress] and [Availability]
    construct executions and use the simulation for what holds in their states.  The other
    references are [reconcile] (conflict resolution, for [Log.Append]), the encodings of the
    formats as byte strings, [KVOp] (map updates), [Decimal] (what a number is) and
    [on_majority].

    ** What the theorems show

    - Executions ([Network]): they are executions of [Spec]; at most one leader per term over
      all time, log matching, one granted vote per term, monotone terms in logs, and that no
      schedule panics.
    - Commitment ([Commit]): state-machine safety and leader completeness of every execution
      in which no AppendEntries reply claims more than its message vouches for.  The code
      does send such replies, so this is the exact extent of the defect shown in
      [Anomalies]: nothing else can make committed entries differ.
    - Progress ([Progress]): a leader whose last entry is of its own term and whose followers
      are up and not longer than it brings all logs to its own and everybody to commit them
      in a bounded number of calls; and the follower with a longer log that is never repaired.
    - Availability ([Availability]): the election timers stay in bounds in every execution; a
      node with a majority of voters is elected by its own ticks, its requests and their
      answers alone ([campaign_calls]); and from every reachable state in which some
      member that does not lead has the best log, a command can be committed everywhere,
      by a schedule of bounded length in which nothing fails.
    - Single calls ([NodeSpec]): exact effect of elections, votes, replication, commitment,
      client commands, time-outs, crash and restart.
    - The simulator ([ClusterSpec]): no sequence of API calls, crashes and restarts included,
      panics; partitions block exactly what they should.
    - What the peer lists of the simulator, in which a node is its own peer, lead to: in every
      reachable state a leader is deposed in the round after a proposal it accepts ([Wiring]),
      and for every seed four nodes can be brought to two leaders of one term ([SplitBrain]).
    - The log: every operation on every branch, [Append] equal to [reconcile], exactness of
      the serializer, compaction, iteration, batches, statistics.
    - The other packages: round trips and exact acceptance of the binary and JSON formats,
      FIFO delivery, refinement of map updates, number parsing, quorum intersection.
    - What else goes wrong ([Anomalies], [Driver], and single theorems in [LogAux], [Persist],
      [Snapshot], [Codec], [Transport]): an execution in which a committed entry is lost, so
      that state-machine safety without the condition above is not a theorem of this code
      ([commit_safety_violated]); a cluster of one node, which never elects; a [Save] without
      room for the state, which destroys the old one; a run of the demonstration program that
      commits nothing.

    ** Bounds

    Terms and indices are unbounded in [Spec] and wrap at 2^64 in the code.  [node_ok k]
    bounds term and last index by the number [k] of ticks and proposals so far, and every
    theorem about executions of length [k] assumes [k + 3 <= 2^64], which no real execution
    reaches.  The theorems about compaction and iteration assume indices below 2^63, where
    the conversion to [int] is exact.  Fuel is used by [iterate] (the loop over an iterator, as
    many steps as the log has positions), by the loops of [Driver] (their bounds are the
    constants of main.go), by the loops over bytes in [Utf8] and [Json] (one unit per byte,
    proved enough) and by [FormatInt] (20 digits, enough for an [int64]).  The schedule of
    [network_commits] has at most [3 * (n + 2)] calls per member after an execution of
    length [n], which must leave the counters within 2^64.  The elapsed ticks of a node are a
    Go [int]; the theorems of [Availability] take executions of at most 2^62 steps
    ([ticks_max]), so that the count cannot wrap.

    ** Not modelled

    The generator behind NewSeededRNG (any [RNG] will do), the texts of the errors of
    encoding/json (one constant stands for them), flag parsing, goroutine scheduling inside
    a method (every method of the transport and of the state machines holds its mutex, so
    calls are atomic).

    ** Plan

    Still to do: conditions under which [Cluster.DeliverAll] does not depend on the order,
    and executions of [Cluster] in which commitment is safe. *)
From stdpp Require Export prelude gmap strings pretty.
From Stdlib Require Export NArith ZArith Lia.
From Stdlib Require Import Strings.Byte.

Declare Scope go_scope.
Delimit Scope go_scope with go.
Open Scope go_scope.

(** ** Machine integers

    A Go [uint64] is an [N] below [2^64]; arithmetic wraps.  A Go [int] is a [Z]
    (64-bit platforms); [wrap_i64] is its wrap-around, used where the code can overflow. *)

Definition u64_modulus : N := 18446744073709551616.

Definition wrap_u64 (x : N) : N := (x mod u64_modulus)%N.
Definition u64_add (a b : N) : N := wrap_u64 (a + b).
Definition u64_sub (a b : N) : N := wrap_u64 (a + (u64_modulus - wrap_u64 b)).
Definition is_u64 (x : N) : Prop := (x < u64_modulus)%N.
#[export] Instance is_u64_dec x : Decision (is_u64 x) := _.

Definition i64_min : Z := (-9223372036854775808)%Z.
Definition i64_max : Z := 9223372036854775807%Z.
Definition wrap_i64 (z : Z) : Z :=
  ((z + 9223372036854775808) mod 18446744073709551616 - 9223372036854775808)%Z.
Definition is_i64 (z : Z) : Prop := (i64_min ≤ z ≤ i64_max)%Z.
(** Conversions [int(x)] and [uint64(z)]: the same 64 bits read the other way. *)
Definition i64_of_u64 (x : N) : Z := wrap_i64 (Z.of_N x).
Definition u64_of_i64 (z : Z) : N := Z.to_N (z mod 18446744073709551616)%Z.

#[export] Instance byte_eq_dec : EqDecision byte := Byte.byte_eq_dec.

Notation "a +u b" := (u64_add a b) (at level 50, left associativity) : go_scope.
Notation "a -u b" := (u64_sub a b) (at level 50, left associativity) : go_scope.

(** ** Errors

    [errors.New text] is [NewError]; [fmt.Errorf("%w...", inner)] is [WrapError]: the
    wrapped error followed by the formatted suffix.  [errors_Is] walks the chain. *)

Inductive error :=
  | NewError (text : string)
  | WrapError (inner : error) (suffix : string).

#[export] Instance error_eq_dec : EqDecision error.
Proof. solve_decision. Defined.

Fixpoint errors_Is (err target : error) : bool :=
  bool_decide (err = target) ||
  match err with
  | NewError _ => false
  | WrapError inner _ => errors_Is inner target
  end.

Fixpoint error_text (err : error) : string :=
  match err with
  | NewError t => t
  | WrapError inner s => error_text inner +:+ s
  end.

(** ** Outcomes

    The result of a Go call: a value, a returned error, or a run-time panic. *)

Inductive go (A : Type) : Type :=
  | Ret (a : A)
  | Throw (e : error)
  | Panic.
Arguments Ret {A} _.
Arguments Throw {A} _.
Arguments Panic {A}.

#[export] Instance go_ret : MRet go := @Ret.
#[export] Instance go_bind : MBind go := λ A B f m,
  match m with Ret a => f a | Throw e => Throw e | Panic => Panic end.
#[export] Instance go_fmap : FMap go := λ A B f m,
  match m with Ret a => Ret (f a) | Throw e => Throw e | Panic => Panic end.

#[export] Instance go_eq_dec {A} `{EqDecision A} : EqDecision (go A).
Proof. solve_decision. Defined.

Lemma go_bind_Ret {A B} (m : go A) (k : A → go B) b :
  (m ≫= k) = Ret b → ∃ a, m = Ret a ∧ k a = Ret b.
Proof. destruct m; [eauto | done | done]. Qed.

(** Breaks a hypothesis [(x ← m; k x) = Ret b] into its steps. *)
Ltac go_inv H :=
  let a := fresh "a" in
  let Ha := fresh "Hret" in
  apply go_bind_Ret in H as (a & Ha & H).

(** ** Slices *)

Abbreviation lenN l := (N.of_nat (length l)).

(** [l[i]] with Go's bounds check. *)
Definition index {A} (l : list A) (i : N) : go A :=
  if (i <? lenN l)%N then
    match l !! N.to_nat i with Some x => Ret x | None => Panic end
  else Panic.

Lemma index_lookup {A} (l : list A) i x :
  index l i = Ret x ↔ l !! N.to_nat i = Some x.
Proof.
  unfold index. destruct (N.ltb_spec i (lenN l)) as [Hlt|Hge].
  - destruct (l !! N.to_nat i) eqn:E; [naive_solver|].
    apply lookup_ge_None in E. lia.
  - split; [done|]. intros Hx%lookup_lt_Some. lia.
Qed.

Lemma index_Some {A} (l : list A) (n : nat) x :
  l !! n = Some x → index l (N.of_nat n) = Ret x.
Proof. intros H. apply index_lookup. by rewrite Nat2N.id. Qed.

Lemma index_lt {A} (l : list A) i :
  (i < lenN l)%N → ∃ x, index l i = Ret x ∧ l !! N.to_nat i = Some x.
Proof.
  intros Hi. destruct (lookup_lt_is_Some_2 l (N.to_nat i)) as [x Hx]; [lia|].
  exists x. split; [by apply index_lookup | done].
Qed.

Lemma index_ge {A} (l : list A) i : (lenN l ≤ i)%N → index l i = Panic.
Proof. intros Hi. unfold index. by rewrite (proj2 (N.ltb_ge _ _) Hi). Qed.

(** [for _, x := range l { ... }] collecting one result per element. *)
Fixpoint go_map {A B} (f : A → go B) (l : list A) : go (list B) :=
  match l with
  | [] => Ret []
  | x :: tl => y ← f x; ys ← go_map f tl; Ret (y :: ys)
  end.

Lemma go_map_Ret {A B} (f : A → go B) (g : A → B) l :
  (∀ x, x ∈ l → f x = Ret (g x)) → go_map f l = Ret (map g l).
Proof.
  induction l as [|x l IH]; intros Hf; cbn; [done|].
  rewrite Hf by left. cbn. rewrite IH; [done|]. intros y Hy. apply Hf. by right.
Qed.

Lemma go_map_elem {A B} (f : A → go B) l ys y :
  go_map f l = Ret ys → y ∈ ys → ∃ x, x ∈ l ∧ f x = Ret y.
Proof.
  revert ys. induction l as [|x l IH]; intros ys Hm Hy; cbn in Hm.
  - injection Hm as <-. by apply not_elem_of_nil in Hy.
  - go_inv Hm. go_inv Hm. injection Hm as <-. apply elem_of_cons in Hy as [->|Hy].
    + exists x. split; [left|done].
    + destruct (IH _ Hret0 Hy) as (x' & ? & ?). exists x'. split; [by right|done].
Qed.

Lemma map_ext_elem {A B} (f g : A → B) l : (∀ x, x ∈ l → f x = g x) → map f l = map g l.
Proof.
  induction l as [|x l IH]; intros Hfg; cbn; [done|]. rewrite Hfg by left.
  f_equal. apply IH. intros y Hy. apply Hfg. by right.
Qed.

Lemma filter_id {A} (P : A → Prop) `{∀ x, Decision (P x)} l : Forall P l → filter P l = l.
Proof.
  induction 1 as [|x l Hx _ IH]; [done|]. by rewrite filter_cons, decide_True, IH.
Qed.

(** ** Record update: [r <| field := v |>] *)

Class Setter {R T : Type} (proj : R → T) := set_field : T → R → R.
Arguments set_field {R T} proj {_} _ _.
Notation "r <| f := v |>" := (set_field f v r)
  (at level 1, left associativity, f at level 200, v at level 200,
   format "r  <| f  :=  v |>") : go_scope.

(** ** Arithmetic facts *)

Lemma u64_add_small a b : (a + b < u64_modulus)%N → a +u b = (a + b)%N.
Proof. intros H. unfold u64_add, wrap_u64. by apply N.mod_small. Qed.

Lemma u64_sub_small a b : (b ≤ a)%N → is_u64 a → a -u b = (a - b)%N.
Proof.
  unfold u64_sub, wrap_u64, is_u64. intros Hle Ha.
  rewrite (N.mod_small b) by lia.
  replace (a + (u64_modulus - b))%N with (a - b + 1 * u64_modulus)%N by lia.
  rewrite N.Div0.mod_add. apply N.mod_small. lia.
Qed.

Lemma wrap_u64_is_u64 x : is_u64 (wrap_u64 x).
Proof. unfold is_u64, wrap_u64. apply N.mod_lt. by unfold u64_modulus. Qed.

Lemma wrap_i64_small z : is_i64 z → wrap_i64 z = z.
Proof. unfold is_i64, i64_min, i64_max, wrap_i64. intros H. rewrite Z.mod_small; lia. Qed.

Lemma wrap_i64_is_i64 z : is_i64 (wrap_i64 z).
Proof. unfold is_i64, i64_min, i64_max, wrap_i64. 
  pose proof (Z.mod_pos_bound (z + 9223372036854775808) 18446744073709551616). lia.
Qed.

Create HintDb go discriminated.
#[export] Hint Resolve index_Some wrap_u64_is_u64 wrap_i64_is_i64 : go.
