(* ===== verification/Bytes.v ===== *)
(** * Bytes: what the serializers use of encoding/binary, io and the Writer interface

    Fixed-width little- and big-endian integers ([binary.LittleEndian], [binary.BigEndian]),
    reading from a byte stream ([io.ReadFull]) as a parser monad, and [io.Writer] as a
    typeclass.  [Codec] is the interface between the wire formats of the codec, persist and
    snapshot packages and the loops that read and write sequences of them: a writer's bytes,
    a parser, and the two laws that make them inverse to each other; [truncated] says how a
    parser fails on a proper prefix of an encoding. *)
From S2P Require Import Prelude.
From Stdlib Require Import Strings.Byte.
Open Scope N_scope.

(** ** Bytes and fixed-width integers *)

Definition byte_of_N (n : N) : byte := default x00 (Byte.of_N (n mod 256)).

Fixpoint le_bytes (k : nat) (v : N) : list byte :=
  match k with
  | O => []
  | S k => byte_of_N v :: le_bytes k (v / 256)
  end.

Fixpoint le_value (bs : list byte) : N :=
  match bs with
  | [] => 0
  | b :: bs => Byte.to_N b + 256 * le_value bs
  end.

Definition be_bytes (k : nat) (v : N) : list byte := reverse (le_bytes k v).
Definition be_value (bs : list byte) : N := le_value (reverse bs).

Lemma byte_of_N_to_N b : byte_of_N (Byte.to_N b) = b.
Proof.
  unfold byte_of_N. pose proof (Byte.to_N_bounded b).
  rewrite N.mod_small by lia. by rewrite Byte.of_to_N.
Qed.

Lemma byte_to_N_of_N n : Byte.to_N (byte_of_N n) = n mod 256.
Proof.
  unfold byte_of_N. destruct (Byte.of_N (n mod 256)) as [b|] eqn:E; cbn.
  - by apply Byte.to_of_N.
  - apply Byte.of_N_None_iff in E. pose proof (N.mod_lt n 256). lia.
Qed.

Lemma length_le_bytes k v : length (le_bytes k v) = k.
Proof. revert v. induction k as [|k IH]; intros v; cbn; [done|]. by rewrite IH. Qed.

Lemma length_be_bytes k v : length (be_bytes k v) = k.
Proof. unfold be_bytes. by rewrite length_reverse, length_le_bytes. Qed.

Lemma le_value_bytes k v : v < 256 ^ N.of_nat k → le_value (le_bytes k v) = v.
Proof.
  revert v. induction k as [|k IH]; intros v Hv; cbn [le_bytes le_value].
  - cbn in Hv. lia.
  - rewrite byte_to_N_of_N. rewrite Nat2N.inj_succ, N.pow_succ_r' in Hv.
    rewrite IH by (apply N.Div0.div_lt_upper_bound; lia).
    pose proof (N.div_mod v 256). lia.
Qed.

Lemma le_value_bound bs : le_value bs < 256 ^ lenN bs.
Proof.
  induction bs as [|b bs IH]; cbn [le_value length]; [done|].
  rewrite Nat2N.inj_succ, N.pow_succ_r'. pose proof (Byte.to_N_bounded b). lia.
Qed.

Lemma le_bytes_value bs : le_bytes (length bs) (le_value bs) = bs.
Proof.
  induction bs as [|b bs IH]; cbn [le_bytes le_value length]; [done|].
  pose proof (Byte.to_N_bounded b) as Hb. f_equal.
  - unfold byte_of_N. rewrite N.mul_comm, N.Div0.mod_add, N.mod_small by lia.
    by rewrite Byte.of_to_N.
  - rewrite N.mul_comm, N.div_add, N.div_small by lia. by rewrite N.add_0_l.
Qed.

Lemma be_value_bytes k v : v < 256 ^ N.of_nat k → be_value (be_bytes k v) = v.
Proof. unfold be_value, be_bytes. rewrite reverse_involutive. apply le_value_bytes. Qed.

Lemma be_bytes_value bs : be_bytes (length bs) (be_value bs) = bs.
Proof.
  unfold be_value, be_bytes. rewrite <- (length_reverse bs), le_bytes_value.
  apply reverse_involutive.
Qed.

Lemma be_value_bound bs : be_value bs < 256 ^ lenN bs.
Proof. unfold be_value. rewrite <- (length_reverse bs). apply le_value_bound. Qed.

(** ** Reading *)

Definition io_EOF : error := NewError "EOF".
Definition io_ErrUnexpectedEOF : error := NewError "unexpected EOF".

(** A computation that consumes a prefix of the stream. *)
Definition Parser (A : Type) : Type := list byte → go (A * list byte).
#[export] Instance parser_ret : MRet Parser := λ A a r, Ret (a, r).
#[export] Instance parser_bind : MBind Parser := λ A B f m r,
  match m r with Ret (a, r') => f a r' | Throw e => Throw e | Panic => Panic end.
Definition parse_throw {A} (e : error) : Parser A := λ _, Throw e.
Definition parse_panic {A} : Parser A := λ _, Panic.

(** [io.ReadFull(r, buf)] for a buffer of [n] bytes. *)
Definition ReadFull (n : N) : Parser (list byte) := λ r,
  if n =? 0 then Ret ([], r)
  else if lenN r <? n then
    Throw (match r with [] => io_EOF | _ => io_ErrUnexpectedEOF end)
  else Ret (take (N.to_nat n) r, drop (N.to_nat n) r).

(** The size limit past which Go's [make] panics ("makeslice: len out of range"): the heap
    of the 64-bit run time ends at [2^48] bytes. *)
Definition max_alloc : N := 281474976710656.

(** [make([]T, n)] with elements of [size] bytes. *)
Definition make_ok (size n : N) : bool := size * n <=? max_alloc.

Lemma bind_parser {A B} (m : Parser A) (k : A → Parser B) r :
  (m ≫= k) r = match m r with Ret (a, r') => k a r' | Throw e => Throw e | Panic => Panic end.
Proof. done. Qed.

Lemma bind_parser_Ret {A B} (m : Parser A) (k : A → Parser B) r b r'' :
  (m ≫= k) r = Ret (b, r'') → ∃ a r', m r = Ret (a, r') ∧ k a r' = Ret (b, r'').
Proof. rewrite bind_parser. destruct (m r) as [[a r']| |]; [eauto|done|done]. Qed.

Ltac parser_inv H :=
  let a := fresh "a" in let r := fresh "r" in let Hm := fresh "Hparse" in
  apply bind_parser_Ret in H as (a & r & Hm & H).

Lemma ReadFull_app n bs rest : lenN bs = n → ReadFull n (bs ++ rest) = Ret (bs, rest).
Proof.
  intros <-. unfold ReadFull. destruct (N.eqb_spec (lenN bs) 0) as [E|E].
  - destruct bs; [done|]. cbn in E. lia.
  - rewrite (proj2 (N.ltb_ge _ _)) by (rewrite length_app; lia).
    by rewrite Nat2N.id, take_app_length, drop_app_length.
Qed.

Lemma ReadFull_inv n r bs rest :
  ReadFull n r = Ret (bs, rest) → r = bs ++ rest ∧ lenN bs = n.
Proof.
  unfold ReadFull. destruct (N.eqb_spec n 0) as [->|]; [naive_solver|].
  destruct (N.ltb_spec (lenN r) n); [done|]. intros [= <- <-].
  rewrite take_drop, length_take. split; [done|lia].
Qed.

Lemma ReadFull_no_panic n r : ReadFull n r ≠ Panic.
Proof. unfold ReadFull. by repeat case_match. Qed.

(** ** Codecs *)

Class Codec (A : Type) := {
  put : A → list byte;
  get : Parser A;
  codec_ok : A → Prop;
  get_put : ∀ a rest, codec_ok a → get (put a ++ rest) = Ret (a, rest);
  get_inv : ∀ r a rest, get r = Ret (a, rest) → r = put a ++ rest ∧ codec_ok a;
}.

(** A fixed-width big-endian integer of [k] bytes. *)
Definition get_be (k : nat) : Parser N :=
  buf ← ReadFull (N.of_nat k); mret (be_value buf).

Lemma get_be_put k v rest :
  v < 256 ^ N.of_nat k → get_be k (be_bytes k v ++ rest) = Ret (v, rest).
Proof.
  intros Hv. unfold get_be. rewrite bind_parser, ReadFull_app by (by rewrite length_be_bytes).
  unfold mret, parser_ret. by rewrite be_value_bytes.
Qed.

Lemma get_be_inv k r v rest :
  get_be k r = Ret (v, rest) → r = be_bytes k v ++ rest ∧ v < 256 ^ N.of_nat k.
Proof.
  intros H. unfold get_be in H. parser_inv H. injection H as <- <-.
  apply ReadFull_inv in Hparse as [-> Hlen]. rewrite <- Hlen.
  assert (length a = k) as <- by lia. rewrite be_bytes_value.
  split; [done|]. apply be_value_bound.
Qed.

Lemma pow_256_8 : 256 ^ N.of_nat 8 = u64_modulus.
Proof. by vm_compute. Qed.
Lemma pow_256_4 : 256 ^ N.of_nat 4 = 4294967296.
Proof. by vm_compute. Qed.

(** The two widths the formats use. *)
Lemma get_be8_put v rest : is_u64 v → get_be 8 (be_bytes 8 v ++ rest) = Ret (v, rest).
Proof. intros Hv. apply get_be_put. by rewrite pow_256_8. Qed.

Lemma get_be4_put v rest : v < 4294967296 → get_be 4 (be_bytes 4 v ++ rest) = Ret (v, rest).
Proof. intros Hv. apply get_be_put. by rewrite pow_256_4. Qed.

Lemma get_be8_inv r v rest :
  get_be 8 r = Ret (v, rest) → r = be_bytes 8 v ++ rest ∧ is_u64 v.
Proof. intros H%get_be_inv. by rewrite pow_256_8 in H. Qed.

Lemma get_be4_inv r v rest :
  get_be 4 r = Ret (v, rest) → r = be_bytes 4 v ++ rest ∧ v < 4294967296.
Proof. intros H%get_be_inv. by rewrite pow_256_4 in H. Qed.

(** [k] values in a row: the counted loops of the decoders. *)
Fixpoint get_list {A} (g : Parser A) (k : nat) : Parser (list A) :=
  match k with
  | O => mret []
  | S k => a ← g; tl ← get_list g k; mret (a :: tl)
  end.

Section codec_list.
  Context {A : Type} `{Codec A}.

Definition put_list (xs : list A) : list byte := concat (map put xs).

Lemma get_list_put xs rest :
  Forall codec_ok xs → get_list get (length xs) (put_list xs ++ rest) = Ret (xs, rest).
Proof.
  induction 1 as [|x xs Hx Hxs IH]; [done|].
  unfold put_list in *. cbn [map concat length get_list].
  rewrite <- app_assoc, bind_parser, get_put, bind_parser by done. by rewrite IH.
Qed.

Lemma get_list_inv k r xs rest :
  get_list get k r = Ret (xs, rest) →
  r = put_list xs ++ rest ∧ length xs = k ∧ Forall codec_ok xs.
Proof.
  revert r xs rest. induction k as [|k IH]; intros r xs rest Hg; cbn [get_list] in Hg.
  - injection Hg as <- <-. auto.
  - parser_inv Hg. apply get_inv in Hparse as [-> Ha].
    parser_inv Hg. apply IH in Hparse as (-> & <- & Hxs). injection Hg as <- <-.
    unfold put_list. cbn [map concat length]. rewrite <- app_assoc. auto.
Qed.
End codec_list.

(** ** Parsers that never panic *)

Definition safe {A} (p : Parser A) : Prop := ∀ r, p r ≠ Panic.

Lemma safe_ret {A} (a : A) : safe (mret a).
Proof. done. Qed.
Lemma safe_throw {A} e : safe (parse_throw (A:=A) e).
Proof. done. Qed.
Lemma safe_bind {A B} (m : Parser A) (k : A → Parser B) :
  safe m → (∀ a, safe (k a)) → safe (m ≫= k).
Proof.
  intros Hm Hk r. rewrite bind_parser. pose proof (Hm r).
  destruct (m r) as [[a r']| |]; [apply Hk|done|done].
Qed.
Lemma safe_ReadFull n : safe (ReadFull n).
Proof. intros r. apply ReadFull_no_panic. Qed.
Lemma safe_get_be k : safe (get_be k).
Proof. apply safe_bind; [apply safe_ReadFull|]. intros a. apply safe_ret. Qed.
Lemma safe_list {A} (g : Parser A) k : safe g → safe (get_list g k).
Proof.
  intros Hg. induction k as [|k IH]; [apply safe_ret|]. cbn [get_list].
  apply safe_bind; [done|]. intros a. apply safe_bind; [done|]. intros tl. apply safe_ret.
Qed.
Lemma safe_if {A} (b : bool) (p q : Parser A) : safe p → safe q → safe (if b then p else q).
Proof. by destruct b. Qed.

Ltac safe_tac :=
  repeat first
    [ apply safe_ret | apply safe_throw | apply safe_ReadFull | apply safe_get_be
    | apply safe_if | apply safe_list | (apply safe_bind; [|intros ?]) | assumption ].

(** ** Truncated input

    [p] reads [bs] to its end, and a proper prefix of [bs] makes it fail with the error of
    [io.ReadFull], unwrapped. *)
Definition eof (e : error) : Prop := e = io_EOF ∨ e = io_ErrUnexpectedEOF.

Definition truncated {A} (p : Parser A) (bs : list byte) : Prop :=
  ∀ k, (k < length bs)%nat → ∃ e, p (take k bs) = Throw e ∧ eof e.

Lemma truncated_ReadFull n bs : lenN bs = n → truncated (ReadFull n) bs.
Proof.
  intros <- k Hk. unfold ReadFull. rewrite (proj2 (N.eqb_neq _ _)) by lia.
  rewrite (proj2 (N.ltb_lt _ _)) by (rewrite length_take; lia).
  eexists. split; [done|]. destruct (take k bs); [by left|by right].
Qed.

Lemma truncated_nothing {A} (p : Parser A) : truncated p [].
Proof. intros k Hk. cbn in Hk. lia. Qed.

Lemma truncated_bind {A B} (m : Parser A) (k : A → Parser B) bs1 bs2 a :
  truncated m bs1 → (∀ rest, m (bs1 ++ rest) = Ret (a, rest)) → truncated (k a) bs2 →
  truncated (m ≫= k) (bs1 ++ bs2).
Proof.
  intros Hm Hok Hk j Hj. rewrite bind_parser. destruct (decide (j < length bs1)%nat) as [Hlt|Hge].
  - rewrite take_app_le by lia. destruct (Hm j Hlt) as (e & -> & He). by exists e.
  - rewrite take_app, take_ge, Hok by lia. apply Hk. rewrite length_app in Hj. lia.
Qed.

Lemma truncated_map {A B} (m : Parser A) (k : A → Parser B) bs :
  truncated m bs → truncated (m ≫= k) bs.
Proof. intros Hm j Hj. rewrite bind_parser. destruct (Hm j Hj) as (e & -> & He). by exists e. Qed.

Lemma truncated_get_be k v : truncated (get_be k) (be_bytes k v).
Proof. apply truncated_map, truncated_ReadFull. by rewrite length_be_bytes. Qed.

Lemma truncated_list {A} `{Codec A} xs :
  (∀ x, codec_ok x → truncated get (put x)) → Forall codec_ok xs →
  truncated (get_list get (length xs)) (put_list xs).
Proof.
  intros Ht. induction 1 as [|x xs Hx Hxs IH]; [apply truncated_nothing|].
  cbn [length get_list]. unfold put_list. cbn [map concat].
  apply (truncated_bind _ _ _ _ x); [by apply Ht|intros rest; by apply get_put|].
  by apply truncated_map.
Qed.

(** ** Writing *)

(** [io.Writer]: the byte count of [Write] is not used by the callers. *)
Class Writer (W : Type) := Write : W → list byte → W * option error.

(** What a client may rely on: a [Write] that returns no error appended its argument. *)
Class LawfulWriter (W : Type) `{Writer W} := {
  content : W → list byte;
  Write_ok : ∀ w bs w', Write w bs = (w', None) → content w' = content w ++ bs;
}.

(** Statement sequencing with [if err != nil { return err }] after each call. *)
Definition and_then {W} (m k : W → W * option error) : W → W * option error := λ w,
  match m w with
  | (w', None) => k w'
  | (w', Some err) => (w', Some err)
  end.
Notation "m >>> k" := (and_then m k) (at level 60, right associativity) : go_scope.

Fixpoint write_all {W A} (f : A → W → W * option error) (xs : list A) : W → W * option error :=
  match xs with
  | [] => λ w, (w, None)
  | x :: xs => f x >>> write_all f xs
  end.

(** [m] writes exactly [bs] whenever it reports success. *)
Definition writes {W} `{LawfulWriter W} (m : W → W * option error) (bs : list byte) : Prop :=
  ∀ w w', m w = (w', None) → content w' = content w ++ bs.

Section writes.
  Context {W : Type} `{LawfulWriter W}.

Lemma writes_Write bs : writes (λ w, Write w bs) bs.
Proof. intros w w'. apply Write_ok. Qed.

Lemma writes_nothing : writes (λ w, (w, None)) [].
Proof. intros w w' [= ->]. by rewrite app_nil_r. Qed.

Lemma writes_seq m k bs1 bs2 : writes m bs1 → writes k bs2 → writes (m >>> k) (bs1 ++ bs2).
Proof.
  intros Hm Hk w w' Hw. unfold and_then in Hw.
  destruct (m w) as [w1 [err|]] eqn:E; [done|].
  rewrite (Hk _ _ Hw), (Hm _ _ E). by rewrite app_assoc.
Qed.

Lemma writes_list {A} (f : A → W → W * option error) (p : A → list byte) xs :
  (∀ x, x ∈ xs → writes (f x) (p x)) → writes (write_all f xs) (concat (map p xs)).
Proof.
  induction xs as [|x xs IH]; intros Hf; cbn [write_all map concat].
  - apply writes_nothing.
  - apply writes_seq; [apply Hf; left|]. apply IH. intros y Hy. apply Hf. by right.
Qed.
End writes.

(** [bytes.Buffer]: a [Write] never fails. *)
#[export] Instance buffer_writer : Writer (list byte) := λ buf bs, (buf ++ bs, None).
#[export] Program Instance buffer_lawful : LawfulWriter (list byte) := {| content := id |}.
Next Obligation. by intros w bs w' [= <-]. Qed.

#[export] Hint Resolve writes_Write writes_nothing writes_seq writes_list : go.
