(* ===== verification/Sort.v ===== *)
(** * Sorting as the source uses it (package sort)

    [sort.Slice] and [sort.Strings] with a strict order on integers or strings: the result
    is the sorted permutation of the argument.  It is unique, so the algorithm (and the
    order in which a Go map delivered the elements) does not matter. *)
From S2P Require Import Prelude.
From stdpp Require Export sorting.
Open Scope N_scope.

(** [sort.Slice] with [<] on integers: any sorted permutation; it is unique. *)
Definition sort_Slice (l : list N) : list N := merge_sort N.le l.

#[local] Instance N_le_total : Total N.le.
Proof. intros x y. lia. Qed.
#[local] Instance N_le_trans : Transitive N.le.
Proof. intros x y z. lia. Qed.
#[local] Instance N_le_antisymm : AntiSymm (=) N.le.
Proof. intros x y. lia. Qed.

Lemma sort_Slice_perm l : sort_Slice l ≡ₚ l.
Proof. apply merge_sort_Permutation. Qed.

Lemma sort_Slice_sorted l : StronglySorted N.le (sort_Slice l).
Proof. apply (StronglySorted_merge_sort N.le). Qed.

(** Whatever algorithm [sort.Slice] uses, this is its result. *)
Lemma sort_unique l s : StronglySorted N.le s → s ≡ₚ l → s = sort_Slice l.
Proof.
  intros Hs Hp. apply (StronglySorted_unique N.le); [done|apply sort_Slice_sorted|].
  by rewrite sort_Slice_perm.
Qed.
