(* ===== verification/Log.v ===== *)
(** * The replicated log (internal/log/log.go, in-memory part)

    [Entry], [Log] and one definition per method, in the order of the file.  A method that
    can fail with an [error] after mutating the log returns the log and an
    [option error]; an out-of-range index is [Panic].  The well-formedness invariant [wf]
    says what the comment on [Log] says: [entries[0]] is the dummy and the entry of index
    [i] lives at position [i].  Proved here: the reads on a well-formed log, what
    [Truncate], [CommitTo] and [Append] do on every branch, that they preserve [wf], and
    that [Append] equals the reference conflict resolution [reconcile]. *)
From S2P Require Import Prelude.
From Stdlib Require Import Strings.Byte.
Open Scope N_scope.

(** ** Data *)

Record Entry := MkEntry { Term : N; Index : N; Command : list byte }.

#[export] Instance Entry_eq_dec : EqDecision Entry.
Proof. solve_decision. Defined.

Record Log := MkLog { entries : list Entry; commitIndex : N }.

#[export] Instance Log_eq_dec : EqDecision Log.
Proof. solve_decision. Defined.
#[export] Instance set_entries : Setter entries := λ v l, MkLog v (commitIndex l).
#[export] Instance set_commitIndex : Setter commitIndex := λ v l, MkLog (entries l) v.

Definition ErrIndexOutOfRange : error := NewError "log: index out of range".
Definition ErrCommitRegression : error := NewError "log: commit index cannot move backwards".

Definition dummy : Entry := MkEntry 0 0 [].

(** ** Operations *)

Definition New : Log := MkLog [dummy] 0.

Definition Len (l : Log) : Z := (Z.of_nat (length l.(entries)) - 1)%Z.

Definition Last (l : Log) : go (N * N) :=
  if decide (length l.(entries) = 1%nat) then Ret (0, 0)
  else
    last ← (match length l.(entries) with
            | O => Panic
            | S k => index l.(entries) (N.of_nat k)
            end);
    Ret (last.(Index), last.(Term)).

Definition At (l : Log) (i : N) : go Entry :=
  if lenN l.(entries) <=? i then Throw ErrIndexOutOfRange
  else index l.(entries) i.

Definition TermAt (l : Log) (i : N) : go N :=
  if lenN l.(entries) <=? i then Throw ErrIndexOutOfRange
  else e ← index l.(entries) i; Ret e.(Term).

(** The copying loop of [Slice]: [k] iterations from index [i]. *)
Fixpoint slice_from (es : list Entry) (i : N) (k : nat) : go (list Entry) :=
  match k with
  | O => Ret []
  | S k =>
    e ← index es i;
    out ← slice_from es (i + 1) k;
    Ret (e :: out)
  end.

Definition Slice (l : Log) (lo hi : N) : go (list Entry) :=
  let lo := if lo <? 1 then 1 else lo in
  '(lastIdx, _) ← Last l;
  let hi := if lastIdx +u 1 <? hi then lastIdx +u 1 else hi in
  if hi <=? lo then Ret []
  else slice_from l.(entries) lo (N.to_nat (hi - lo)).

Definition MatchesPrevLogTerm (l : Log) (prevIndex prevTerm : N) : go bool :=
  if prevIndex =? 0 then Ret true
  else if lenN l.(entries) <=? prevIndex then Ret false
  else e ← index l.(entries) prevIndex; Ret (e.(Term) =? prevTerm).

(** [cmd := make(...); copy(cmd, e.Command)]: the same bytes in a fresh slice. *)
Definition appendTail (l : Log) (es : list Entry) : Log :=
  l <| entries := l.(entries) ++
         map (λ e, MkEntry e.(Term) e.(Index) e.(Command)) es |>.

Definition errTruncateDummy : error :=
  NewError "log: cannot truncate the dummy index-0 entry".
Definition errTruncateGap (fromIndex lastIdx : N) : error :=
  NewError ("log: truncate at " +:+ pretty fromIndex +:+
            " leaves a gap (last index " +:+ pretty lastIdx +:+ ")").

(** [l.entries[:fromIndex]]; a bound past the length is a panic here (Go would look at the
    capacity, which no operation below relies on). *)
Definition slice_to {A} (l : list A) (k : N) : go (list A) :=
  if lenN l <? k then Panic else Ret (take (N.to_nat k) l).

Definition Truncate (l : Log) (fromIndex : N) : go (Log * option error) :=
  if fromIndex =? 0 then Ret (l, Some errTruncateDummy)
  else
    '(lastIdx, _) ← Last l;
    if lastIdx +u 1 <? fromIndex then Ret (l, Some (errTruncateGap fromIndex lastIdx))
    else
      kept ← slice_to l.(entries) fromIndex;
      let l := l <| entries := kept |> in
      let l := if lastIdx <? l.(commitIndex) then l <| commitIndex := lastIdx |> else l in
      let l := if fromIndex -u 1 <? l.(commitIndex)
               then l <| commitIndex := fromIndex -u 1 |> else l in
      Ret (l, None).

Definition errNonContiguous (i prev : N) : error :=
  NewError ("log: non-contiguous append at index " +:+ pretty i +:+
            " (previous " +:+ pretty prev +:+ ")").

(** The validation loop of [Append]: the first pair that is not contiguous. *)
Fixpoint check_contiguous (es : list Entry) : option error :=
  match es with
  | e :: ((e' :: _) as tl) =>
    if e'.(Index) =? e.(Index) +u 1 then check_contiguous tl
    else Some (errNonContiguous e'.(Index) e.(Index))
  | _ => None
  end.

(** The second loop of [Append]; the error of [Truncate] is dropped, as in the code. *)
Fixpoint append_loop (l : Log) (es : list Entry) : go Log :=
  match es with
  | [] => Ret l
  | e :: tl =>
    if lenN l.(entries) <=? e.(Index) then Ret (appendTail l es)
    else
      old ← index l.(entries) e.(Index);
      if old.(Term) =? e.(Term) then append_loop l tl
      else
        '(l', _) ← Truncate l e.(Index);
        Ret (appendTail l' es)
  end.

Definition Append (l : Log) (es : list Entry) : go (Log * option error) :=
  match es with
  | [] => Ret (l, None)
  | _ =>
    match check_contiguous es with
    | Some err => Ret (l, Some err)
    | None => l' ← append_loop l es; Ret (l', None)
    end
  end.

Definition CommitIndex (l : Log) : N := l.(commitIndex).

Definition errCommitBeyond (i lastIdx : N) : error :=
  NewError ("log: cannot commit index " +:+ pretty i +:+
            " (last index " +:+ pretty lastIdx +:+ ")").

Definition CommitTo (l : Log) (i : N) : go (Log * option error) :=
  '(lastIdx, _) ← Last l;
  if lastIdx <? i then Ret (l, Some (errCommitBeyond i lastIdx))
  else if i <? l.(commitIndex) then Ret (l, Some ErrCommitRegression)
  else if i =? l.(commitIndex) then Ret (l, None)
  else Ret (l <| commitIndex := i |>, None).

Definition CommittedEntries (l : Log) : go (list Entry) :=
  '(lastIdx, _) ← Last l;
  let hi := l.(commitIndex) in
  let hi := if lastIdx <? hi then lastIdx else hi in
  Slice l 1 (hi +u 1).

(** ** Reference definitions and the invariant *)

(** The entries carry consecutive indices from [lo] on. *)
Fixpoint contig (lo : N) (es : list Entry) : Prop :=
  match es with
  | [] => True
  | e :: tl => e.(Index) = lo ∧ contig (lo + 1) tl
  end.

#[export] Instance contig_dec es : ∀ lo, Decision (contig lo es).
Proof. induction es as [|e es IH]; intros lo; cbn; apply _. Defined.

(** Raft's conflict resolution on the suffix of a log: keep the stored entries while the
    terms agree, replace everything from the first disagreement on. *)
Fixpoint reconcile (old new : list Entry) : list Entry :=
  match new, old with
  | [], _ => old
  | _, [] => new
  | n :: ns, o :: os =>
    if o.(Term) =? n.(Term) then o :: reconcile os ns else n :: ns
  end.

(** What the same step does to a commit index [c]; [lo] is the index of the first entry. *)
Fixpoint reconcile_commit (lo : N) (old new : list Entry) (c : N) : N :=
  match new, old with
  | n :: ns, o :: os =>
    if o.(Term) =? n.(Term) then reconcile_commit (lo + 1) os ns c
    else N.min c (lo - 1)
  | _, _ => c
  end.

Definition reconcile_log (l : Log) (lo : N) (es : list Entry) : Log :=
  let old := drop (N.to_nat lo) l.(entries) in
  MkLog (take (N.to_nat lo) l.(entries) ++ reconcile old es)
        (reconcile_commit lo old es l.(commitIndex)).

(** [entries[lo:hi]]. *)
Definition sub (es : list Entry) (lo hi : N) : list Entry :=
  take (N.to_nat hi - N.to_nat lo) (drop (N.to_nat lo) es).

Definition lastIndex (l : Log) : N := lenN l.(entries) - 1.
Definition lastTerm (l : Log) : N := from_option Term 0 (last l.(entries)).

Record wf (l : Log) : Prop := {
  wf_head : l.(entries) !! 0%nat = Some dummy;
  wf_index : ∀ i e, l.(entries) !! i = Some e → e.(Index) = N.of_nat i;
  wf_commit : l.(commitIndex) < lenN l.(entries);
  wf_size : lenN l.(entries) < u64_modulus;
}.

(** ** Lemmas *)

Lemma wf_nonempty l : wf l → (0 < length l.(entries))%nat.
Proof. intros H. apply wf_head in H. by apply lookup_lt_Some in H. Qed.

Lemma New_wf : wf New.
Proof.
  split; cbn; [done| |done|done].
  intros [|[|i]] e; cbn; naive_solver.
Qed.

Lemma lastIndex_lt l : wf l → lastIndex l < lenN l.(entries).
Proof. intros H%wf_nonempty. unfold lastIndex. lia. Qed.

Lemma lastIndex_succ l : wf l → lastIndex l +u 1 = lenN l.(entries).
Proof.
  intros H. pose proof (wf_nonempty _ H). pose proof (wf_size _ H).
  unfold lastIndex. rewrite u64_add_small; lia.
Qed.

Lemma Last_wf l : wf l → Last l = Ret (lastIndex l, lastTerm l).
Proof.
  intros H. pose proof (wf_head _ H) as Hh. pose proof (wf_index _ H) as Hi.
  unfold Last, lastIndex, lastTerm. rewrite last_lookup.
  destruct (length (entries l)) as [|[|k]] eqn:E.
  - apply lookup_lt_Some in Hh. lia.
  - cbn. by rewrite Hh.
  - cbn [decide]. destruct (decide _) as [?|_]; [lia|].
    destruct (lookup_lt_is_Some_2 (entries l) (S k)) as [e He]; [lia|].
    rewrite (index_Some _ _ _ He). cbn. rewrite He. cbn.
    rewrite (Hi _ _ He). do 2 f_equal. lia.
Qed.

Lemma At_wf l i :
  i < lenN l.(entries) → ∃ e, At l i = Ret e ∧ l.(entries) !! N.to_nat i = Some e.
Proof.
  intros Hi. unfold At. rewrite (proj2 (N.leb_gt _ _) Hi). by apply index_lt.
Qed.

Lemma TermAt_in l i e :
  l.(entries) !! N.to_nat i = Some e → TermAt l i = Ret e.(Term).
Proof.
  intros He. unfold TermAt. pose proof (lookup_lt_Some _ _ _ He).
  rewrite (proj2 (N.leb_gt _ _)) by lia.
  by rewrite (proj2 (index_lookup _ _ _) He).
Qed.

Lemma TermAt_out l i : lenN l.(entries) ≤ i → TermAt l i = Throw ErrIndexOutOfRange.
Proof. intros Hi. unfold TermAt. by rewrite (proj2 (N.leb_le _ _) Hi). Qed.

Lemma slice_from_sub es i k :
  (N.to_nat i + k ≤ length es)%nat →
  slice_from es i k = Ret (take k (drop (N.to_nat i) es)).
Proof.
  revert i. induction k as [|k IH]; intros i Hle; cbn; [by rewrite take_0|].
  destruct (lookup_lt_is_Some_2 es (N.to_nat i)) as [e He]; [lia|].
  rewrite (proj2 (index_lookup _ _ _) He). cbn.
  rewrite IH by lia. cbn. rewrite (drop_S _ _ _ He). cbn.
  by replace (N.to_nat (i + 1)) with (S (N.to_nat i)) by lia.
Qed.

Lemma sub_clamp es lo hi : sub es lo (N.min hi (lenN es)) = sub es lo hi.
Proof.
  unfold sub. destruct (decide (hi ≤ lenN es)); [by rewrite N.min_l|].
  rewrite N.min_r by lia. rewrite !take_ge by (rewrite length_drop; lia). done.
Qed.

Lemma Slice_wf l lo hi : wf l → Slice l lo hi = Ret (sub l.(entries) (N.max 1 lo) hi).
Proof.
  intros H. unfold Slice. rewrite (Last_wf _ H). cbn -[N.ltb N.leb].
  rewrite (lastIndex_succ _ H), <- sub_clamp.
  replace (if lo <? 1 then 1 else lo) with (N.max 1 lo)
    by (destruct (N.ltb_spec lo 1); lia).
  replace (if lenN (entries l) <? hi then lenN (entries l) else hi)
    with (N.min hi (lenN (entries l)))
    by (destruct (N.ltb_spec (lenN (entries l)) hi); lia).
  set (h := N.min hi _). destruct (N.leb_spec h (N.max 1 lo)) as [Hle|Hlt]; unfold sub.
  - by replace (N.to_nat h - N.to_nat (N.max 1 lo))%nat with 0%nat by lia.
  - rewrite slice_from_sub by lia. do 2 f_equal. lia.
Qed.

Lemma MatchesPrevLogTerm_spec l i t :
  MatchesPrevLogTerm l i t =
    Ret (bool_decide (i = 0 ∨ Term <$> l.(entries) !! N.to_nat i = Some t)).
Proof.
  unfold MatchesPrevLogTerm.
  destruct (N.eqb_spec i 0) as [->|Hi]; [by rewrite bool_decide_eq_true_2 by auto|].
  destruct (N.leb_spec (lenN (entries l)) i) as [Hle|Hlt].
  - rewrite bool_decide_eq_false_2; [done|]. intros [|E]; [done|].
    rewrite lookup_ge_None_2 in E by lia. done.
  - destruct (index_lt (entries l) i Hlt) as (e & -> & ->). cbn. f_equal.
    destruct (N.eqb_spec (Term e) t).
    + rewrite bool_decide_eq_true_2; [done|]. right. by f_equal.
    + rewrite bool_decide_eq_false_2; [done|]. intros [?|[= ?]]; congruence.
Qed.

Lemma map_copy (es : list Entry) : map (λ e, MkEntry e.(Term) e.(Index) e.(Command)) es = es.
Proof. induction es as [|[] es IH]; cbn; [done|]. by rewrite IH. Qed.

Lemma Truncate_wf_eq l k :
  wf l → 1 ≤ k → k ≤ lenN l.(entries) →
  Truncate l k =
    Ret (MkLog (take (N.to_nat k) l.(entries)) (N.min l.(commitIndex) (k - 1)), None).
Proof.
  intros H Hk1 Hk. pose proof (wf_size _ H). pose proof (wf_commit _ H) as Hc.
  unfold Truncate. rewrite (proj2 (N.eqb_neq k 0)) by lia.
  rewrite (Last_wf _ H). cbn -[N.ltb N.leb].
  rewrite (lastIndex_succ _ H), (proj2 (N.ltb_ge _ _) Hk).
  unfold slice_to. rewrite (proj2 (N.ltb_ge _ _) Hk). cbn -[N.ltb N.leb].
  rewrite (u64_sub_small k 1) by (unfold is_u64; lia).
  assert ((lastIndex l <? commitIndex l) = false) as ->.
  { apply N.ltb_ge. unfold lastIndex. lia. }
  cbn -[N.ltb N.leb]. destruct (N.ltb_spec (k - 1) (commitIndex l)).
  - by rewrite N.min_r by lia.
  - by rewrite N.min_l by lia.
Qed.

Lemma contig_lookup lo es i e :
  contig lo es → es !! i = Some e → e.(Index) = lo + N.of_nat i.
Proof.
  revert lo i. induction es as [|e' es IH]; intros lo i Hc Hl; [done|].
  destruct Hc as [He Hc]. destruct i as [|i]; cbn in Hl.
  - injection Hl as ->. lia.
  - apply (IH _ _ Hc) in Hl. lia.
Qed.

Lemma contig_intro lo es :
  (∀ i e, es !! i = Some e → e.(Index) = lo + N.of_nat i) → contig lo es.
Proof.
  revert lo. induction es as [|e es IH]; intros lo H; cbn; [done|]. split.
  - rewrite (H 0%nat e); [lia|done].
  - apply IH. intros i e' Hl. rewrite (H (S i) e' Hl). lia.
Qed.

Lemma contig_app lo es1 es2 :
  contig lo (es1 ++ es2) ↔ contig lo es1 ∧ contig (lo + lenN es1) es2.
Proof.
  revert lo. induction es1 as [|e es1 IH]; intros lo; cbn [contig app length].
  - rewrite N.add_0_r. tauto.
  - rewrite IH. replace (lo + 1 + lenN es1) with (lo + N.of_nat (S (length es1))) by lia.
    tauto.
Qed.

Lemma contig_drop lo es k :
  contig lo es → contig (lo + N.of_nat k) (drop k es).
Proof.
  intros H. apply contig_intro. intros i e. rewrite lookup_drop. intros Hl.
  rewrite (contig_lookup _ _ _ _ H Hl). lia.
Qed.

Lemma contig_take lo es k : contig lo es → contig lo (take k es).
Proof.
  intros H. apply contig_intro. intros i e [Hl _]%lookup_take_Some.
  by apply (contig_lookup _ _ _ _ H).
Qed.

Lemma wf_contig l : wf l → contig 0 l.(entries).
Proof. intros H. apply contig_intro. intros i e Hl. rewrite (wf_index _ H _ _ Hl). lia. Qed.

Lemma check_contiguous_contig lo es :
  contig lo es → lo + lenN es < u64_modulus → check_contiguous es = None.
Proof.
  revert lo. induction es as [|e es IH]; intros lo Hc Hs; [done|].
  destruct Hc as [He Hc]. destruct es as [|e' es]; [done|].
  cbn [check_contiguous]. cbn [length] in Hs.
  rewrite (proj2 (N.eqb_eq _ _)); [apply (IH (lo + 1)); cbn [length]; [done|lia]|].
  rewrite u64_add_small by lia. destruct Hc as [-> _]. lia.
Qed.

(** The converse: what [Append] accepts is contiguous (modulo [2^64]). *)
Lemma check_contiguous_None e es :
  check_contiguous (e :: es) = None → e.(Index) + lenN es < u64_modulus →
  contig e.(Index) (e :: es).
Proof.
  revert e. induction es as [|e' es IH]; intros e Hc Hs; [done|].
  cbn [check_contiguous] in Hc. destruct (N.eqb_spec (Index e') (Index e +u 1)) as [E|];
    [|done]. cbn [length] in Hs. rewrite u64_add_small in E by lia.
  split; [done|]. rewrite <- E. apply IH; [done|lia].
Qed.

Lemma reconcile_nil_l new : reconcile [] new = new.
Proof. by destruct new. Qed.

Lemma reconcile_contig lo old new :
  contig lo old → contig lo new → contig lo (reconcile old new).
Proof.
  revert lo old. induction new as [|n ns IH]; intros lo old Ho Hn; [by destruct old|].
  destruct old as [|o os]; [done|]. cbn [reconcile].
  destruct (_ =? _); [|done]. destruct Ho as [? ?], Hn as [? ?]. by split; [|apply IH].
Qed.

Lemma reconcile_length old new :
  (length new ≤ length (reconcile old new) ≤ length old + length new)%nat.
Proof.
  revert old. induction new as [|n ns IH]; intros [|o os]; cbn; try lia.
  destruct (_ =? _); cbn; [specialize (IH os)|]; lia.
Qed.

Lemma reconcile_length_max old new :
  length (reconcile old new) = Nat.max (length old) (length new) ∨
  length (reconcile old new) = length new.
Proof.
  revert old. induction new as [|n ns IH]; intros [|o os]; cbn; try lia.
  destruct (_ =? _); cbn; [|by right]. destruct (IH os); lia.
Qed.

Lemma reconcile_Forall (P : Entry → Prop) old new :
  Forall P old → Forall P new → Forall P (reconcile old new).
Proof.
  intros Ho Hn. revert old Ho. induction Hn as [|n ns ? ? IH]; intros old Ho;
    destruct Ho as [|o os]; cbn; try by constructor.
  destruct (_ =? _); constructor; auto.
Qed.

Lemma reconcile_commit_bound lo old new c :
  reconcile_commit lo old new c ≤ c.
Proof.
  revert lo old. induction new as [|n ns IH]; intros lo [|o os]; cbn; try lia.
  destruct (_ =? _); [apply IH|lia].
Qed.

Lemma reconcile_commit_lt lo old new c :
  1 ≤ lo → c < lo + lenN old → reconcile_commit lo old new c < lo + lenN (reconcile old new).
Proof.
  revert lo old. induction new as [|n ns IH]; intros lo [|o os] Hlo Hc; cbn in Hc |- *;
    try lia.
  destruct (_ =? _); cbn [length]; [|lia].
  assert (reconcile_commit (lo + 1) os ns c < lo + 1 + lenN (reconcile os ns)); [|lia].
  apply IH; lia.
Qed.

Lemma take_lookup_S (es : list Entry) (i : N) e :
  es !! N.to_nat i = Some e → take (N.to_nat (i + 1)) es = take (N.to_nat i) es ++ [e].
Proof.
  intros He. replace (N.to_nat (i + 1)) with (S (N.to_nat i)) by lia.
  by apply take_S_r.
Qed.

Lemma drop_lookup_S (es : list Entry) (i : N) e :
  es !! N.to_nat i = Some e → drop (N.to_nat i) es = e :: drop (N.to_nat (i + 1)) es.
Proof.
  intros He. replace (N.to_nat (i + 1)) with (S (N.to_nat i)) by lia.
  by apply drop_S.
Qed.

Lemma append_loop_reconcile l lo es :
  wf l → 1 ≤ lo → lo ≤ lenN l.(entries) → contig lo es →
  append_loop l es = Ret (reconcile_log l lo es).
Proof.
  intros H. revert lo. induction es as [|e es IH]; intros lo Hlo Hle Hc.
  - cbn. unfold reconcile_log. destruct (drop _ _) eqn:E; cbn; rewrite <- E, take_drop;
      by destruct l.
  - destruct Hc as [He Hc]. cbn [append_loop]. rewrite He.
    destruct (N.leb_spec (lenN (entries l)) lo) as [Hge|Hlt].
    + unfold reconcile_log. rewrite drop_ge, take_ge by lia. cbn [reconcile reconcile_commit].
      unfold appendTail. by rewrite map_copy.
    + destruct (index_lt (entries l) lo Hlt) as (old & -> & Hold). cbn [mbind go_bind].
      unfold reconcile_log. rewrite (drop_lookup_S _ _ _ Hold).
      cbn [reconcile reconcile_commit]. destruct (Term old =? Term e).
      * rewrite (IH (lo + 1)) by (done || lia). unfold reconcile_log.
        rewrite (take_lookup_S _ _ _ Hold), <- app_assoc. done.
      * rewrite Truncate_wf_eq by (done || lia). cbn [mbind go_bind].
        unfold appendTail. by rewrite map_copy.
Qed.

(** [Append] equals the reference conflict resolution. *)
Lemma Append_reconcile l lo es :
  wf l → 1 ≤ lo → lo ≤ lenN l.(entries) → contig lo es →
  lo + lenN es < u64_modulus →
  Append l es = Ret (reconcile_log l lo es, None).
Proof.
  intros H Hlo Hle Hc Hs. destruct es as [|e es].
  - cbn. unfold reconcile_log. destruct (drop _ _) eqn:E; cbn; rewrite <- E, take_drop;
      by destruct l.
  - unfold Append. rewrite (check_contiguous_contig lo) by done.
    by rewrite (append_loop_reconcile l lo).
Qed.

Lemma reconcile_log_length l lo es :
  lo ≤ lenN l.(entries) →
  lenN (reconcile_log l lo es).(entries) ≤ N.max (lenN l.(entries)) (lo + lenN es).
Proof.
  intros Hle. unfold reconcile_log; cbn. rewrite length_app, length_take.
  pose proof (reconcile_length_max (drop (N.to_nat lo) (entries l)) es) as Hm.
  rewrite length_drop in Hm. lia.
Qed.

Lemma reconcile_log_wf l lo es :
  wf l → 1 ≤ lo → lo ≤ lenN l.(entries) → contig lo es →
  lo + lenN es < u64_modulus → wf (reconcile_log l lo es).
Proof.
  intros H Hlo Hle Hc Hs. pose proof (wf_commit _ H) as Hcm. pose proof (wf_size _ H) as Hsz.
  set (old := drop (N.to_nat lo) (entries l)).
  assert (Hlen : length (take (N.to_nat lo) (entries l)) = N.to_nat lo)
    by (rewrite length_take; lia).
  assert (Hold : length old = (length (entries l) - N.to_nat lo)%nat)
    by (unfold old; by rewrite length_drop).
  pose proof (reconcile_length old es) as Hr.
  split; cbn [reconcile_log entries commitIndex]; fold old.
  - rewrite lookup_app_l by lia. rewrite lookup_take_lt by lia. apply (wf_head _ H).
  - intros i e Hi.
    assert (contig 0 (take (N.to_nat lo) (entries l) ++ reconcile old es)) as Hcc.
    { rewrite contig_app. split; [apply contig_take, wf_contig, H|].
      rewrite Hlen, N2Nat.id. apply reconcile_contig; [|done].
      replace lo with (0 + N.of_nat (N.to_nat lo)) by lia.
      unfold old. apply contig_drop, wf_contig, H. }
    rewrite (contig_lookup _ _ _ _ Hcc Hi). lia.
  - rewrite length_app, Hlen.
    pose proof (reconcile_commit_lt lo old es (commitIndex l) Hlo) as Hlt. lia.
  - pose proof (reconcile_log_length l lo es Hle) as Hm. unfold reconcile_log in Hm.
    cbn [entries] in Hm. fold old in Hm. lia.
Qed.

(** When no new entry conflicts below the commit index, nothing committed is lost. *)
Lemma reconcile_log_commit l lo es :
  reconcile_commit lo (drop (N.to_nat lo) l.(entries)) es l.(commitIndex)
    ≤ l.(commitIndex).
Proof. apply reconcile_commit_bound. Qed.

Lemma CommitTo_wf l i :
  wf l →
  CommitTo l i = Ret
    (if lastIndex l <? i then (l, Some (errCommitBeyond i (lastIndex l)))
     else if i <? l.(commitIndex) then (l, Some ErrCommitRegression)
     else (l <| commitIndex := i |>, None)).
Proof.
  intros H. unfold CommitTo. rewrite (Last_wf _ H). cbn -[N.ltb N.eqb].
  destruct (N.ltb_spec (lastIndex l) i); [done|].
  destruct (N.ltb_spec i (commitIndex l)); [done|].
  destruct (N.eqb_spec i (commitIndex l)) as [->|]; [by destruct l|done].
Qed.

Lemma set_commit_wf l c : wf l → c ≤ lastIndex l → wf (l <| commitIndex := c |>).
Proof.
  intros H Hc. pose proof (wf_nonempty _ H). unfold lastIndex in Hc.
  split; cbn; [apply H|apply H|lia|apply H].
Qed.

Lemma CommittedEntries_wf l :
  wf l → CommittedEntries l = Ret (sub l.(entries) 1 (l.(commitIndex) + 1)).
Proof.
  intros H. unfold CommittedEntries. rewrite (Last_wf _ H). cbn -[N.ltb Slice].
  pose proof (wf_commit _ H). pose proof (wf_size _ H). unfold lastIndex.
  rewrite (proj2 (N.ltb_ge _ _)) by lia. rewrite Slice_wf by done.
  by rewrite u64_add_small by lia.
Qed.

#[export] Hint Resolve New_wf reconcile_log_wf set_commit_wf : go.

(** ** What the operations guarantee *)

Lemma reconcile_new_terms old new i e :
  new !! i = Some e → Term <$> reconcile old new !! i = Some e.(Term).
Proof.
  revert old i. induction new as [|n ns IH]; intros old i Hi; [done|].
  destruct old as [|o os]; [rewrite reconcile_nil_l; by rewrite Hi|].
  cbn [reconcile]. destruct (N.eqb_spec (Term o) (Term n)) as [E|E]; [|by rewrite Hi].
  destruct i as [|i]; cbn in *; [injection Hi as <-; by rewrite E|by apply IH].
Qed.

(** Entries that already agree in their terms change nothing. *)
Lemma reconcile_agree old new :
  (∀ i e, new !! i = Some e → Term <$> old !! i = Some e.(Term)) → reconcile old new = old.
Proof.
  revert old. induction new as [|n ns IH]; intros old Hag; [by destruct old|].
  destruct old as [|o os]; [by specialize (Hag 0%nat n eq_refl)|].
  cbn. pose proof (Hag 0%nat n eq_refl) as [= ->]. rewrite N.eqb_refl. f_equal.
  apply IH. intros i e Hi. by apply (Hag (S i)).
Qed.

Lemma reconcile_commit_agree lo old new c :
  (∀ i e, new !! i = Some e → Term <$> old !! i = Some e.(Term)) →
  reconcile_commit lo old new c = c.
Proof.
  revert lo old. induction new as [|n ns IH]; intros lo old Hag; [by destruct old|].
  destruct old as [|o os]; [done|].
  cbn. pose proof (Hag 0%nat n eq_refl) as [= ->]. rewrite N.eqb_refl.
  apply IH. intros i e Hi. by apply (Hag (S i)).
Qed.

Lemma reconcile_log_agree l lo es :
  (∀ i e, es !! i = Some e → Term <$> l.(entries) !! (N.to_nat lo + i)%nat = Some e.(Term)) →
  reconcile_log l lo es = l.
Proof.
  intros Hag. unfold reconcile_log.
  assert (∀ i e, es !! i = Some e →
    Term <$> drop (N.to_nat lo) (entries l) !! i = Some e.(Term)) as Hag'.
  { intros i e Hi. rewrite lookup_drop. by apply Hag. }
  rewrite reconcile_agree, reconcile_commit_agree, take_drop by done. by destruct l.
Qed.

Lemma reconcile_log_below l lo es i :
  (i < N.to_nat lo)%nat → lo ≤ lenN l.(entries) →
  (reconcile_log l lo es).(entries) !! i = l.(entries) !! i.
Proof.
  intros Hi Hle. unfold reconcile_log; cbn.
  rewrite lookup_app_l by (rewrite length_take; lia). by apply lookup_take_lt.
Qed.

Lemma reconcile_log_above l lo es i :
  lo ≤ lenN l.(entries) →
  (reconcile_log l lo es).(entries) !! (N.to_nat lo + i)%nat =
    reconcile (drop (N.to_nat lo) l.(entries)) es !! i.
Proof.
  intros Hle. unfold reconcile_log; cbn.
  rewrite lookup_app_r by (rewrite length_take; lia). f_equal. rewrite length_take. lia.
Qed.

(** The first pair of neighbours that are not consecutive. *)
Lemma check_contiguous_Some es err :
  check_contiguous es = Some err → ∃ i a b,
    es !! i = Some a ∧ es !! S i = Some b ∧ b.(Index) ≠ a.(Index) +u 1 ∧
    err = errNonContiguous b.(Index) a.(Index).
Proof.
  induction es as [|e [|e' es] IH]; intros Hc; [done|done|]. cbn [check_contiguous] in Hc.
  destruct (N.eqb_spec (Index e') (Index e +u 1)) as [|Hne].
  - destruct (IH Hc) as (i & a & b & ? & ? & ? & ?). by exists (S i), a, b.
  - injection Hc as <-. by exists 0%nat, e, e'.
Qed.

Lemma check_contiguous_pairs es :
  check_contiguous es = None → ∀ i a b,
    es !! i = Some a → es !! S i = Some b → b.(Index) = a.(Index) +u 1.
Proof.
  induction es as [|e [|e' es] IH]; intros Hc i a b Ha Hb; [done|by destruct i|].
  cbn [check_contiguous] in Hc. destruct (N.eqb_spec (Index e') (Index e +u 1)); [|done].
  destruct i as [|i]; [by cbn in *; simplify_eq|by apply (IH Hc i)].
Qed.

(** C20: Append_resolves_conflicts.  [Append] of consecutive entries that start inside the log
    or right after it is Raft's conflict resolution: entries before them stay, every new
    entry is in the log afterwards (as far as its term tells), the result is well formed
    again and no longer than needed. *)
Theorem Append_resolves_conflicts l lo es :
  wf l → 1 ≤ lo → lo ≤ lenN l.(entries) → contig lo es → lo + lenN es < u64_modulus →
  ∃ l', Append l es = Ret (l', None) ∧ l' = reconcile_log l lo es ∧ wf l' ∧
    take (N.to_nat lo) l'.(entries) = take (N.to_nat lo) l.(entries) ∧
    (∀ i e, es !! i = Some e →
      Term <$> l'.(entries) !! (N.to_nat lo + i)%nat = Some e.(Term)) ∧
    lenN l'.(entries) ≤ N.max (lenN l.(entries)) (lo + lenN es).
Proof.
  intros Hwf Hlo Hle Hc Hsz. exists (reconcile_log l lo es).
  split; [by apply Append_reconcile|]. split; [done|].
  split; [by apply reconcile_log_wf|]. split_and!.
  - unfold reconcile_log; cbn. rewrite take_app_le, take_take by (rewrite length_take; lia).
    f_equal. lia.
  - intros i e Hi. rewrite reconcile_log_above by done. by apply reconcile_new_terms.
  - by apply reconcile_log_length.
Qed.

(** Append_idempotent.  A retransmission is harmless: appending the same entries again
    changes nothing, neither entries nor commit index. *)
Theorem Append_idempotent l lo es l' :
  wf l → 1 ≤ lo → lo ≤ lenN l.(entries) → contig lo es → lo + lenN es < u64_modulus →
  Append l es = Ret (l', None) → Append l' es = Ret (l', None).
Proof.
  intros Hwf Hlo Hle Hc Hsz Ha. rewrite (Append_reconcile l lo) in Ha by done.
  injection Ha as <-.
  assert (lo ≤ lenN (reconcile_log l lo es).(entries)) as Hle'.
  { unfold reconcile_log; cbn. rewrite length_app, length_take. lia. }
  rewrite (Append_reconcile _ lo) by (try apply reconcile_log_wf; done).
  rewrite reconcile_log_agree; [done|]. intros i e Hi.
  rewrite reconcile_log_above by done. by apply reconcile_new_terms.
Qed.

(** Append_stale.  Entries the log already holds (same terms) never truncate it, so a
    delayed, shorter AppendEntries cannot remove later entries. *)
Theorem Append_stale l lo es :
  wf l → 1 ≤ lo → lo ≤ lenN l.(entries) → contig lo es → lo + lenN es < u64_modulus →
  (∀ i e, es !! i = Some e → Term <$> l.(entries) !! (N.to_nat lo + i)%nat = Some e.(Term)) →
  Append l es = Ret (l, None).
Proof.
  intros Hwf Hlo Hle Hc Hsz Hag. rewrite (Append_reconcile l lo) by done.
  by rewrite reconcile_log_agree.
Qed.

(** Append_validates.  [Append] fails exactly when two neighbours in the argument do not
    have consecutive indices, and then the log is unchanged. *)
Theorem Append_validates l es l' err :
  Append l es = Ret (l', err) →
  (err ≠ None ↔ ∃ i a b, es !! i = Some a ∧ es !! S i = Some b ∧ b.(Index) ≠ a.(Index) +u 1) ∧
  (err ≠ None → l' = l).
Proof.
  unfold Append. destruct es as [|e es].
  { intros [= <- <-]. split; [|done]. split; [done|]. by intros (i & a & b & ? & _). }
  destruct (check_contiguous (e :: es)) as [err'|] eqn:Hc; intros Hr.
  - injection Hr as <- <-. split; [|done]. split; [|done]. intros _.
    destruct (check_contiguous_Some _ _ Hc) as (i & a & b & ? & ? & ? & _). by exists i, a, b.
  - go_inv Hr. injection Hr as <- <-. split; [|done]. split; [done|].
    intros (i & x & y & Ha & Hb & Hne). destruct Hne. by eapply check_contiguous_pairs.
Qed.

(** Truncate_all_branches.  Index 0 and an index past the end + 1 are refused without
    effect; otherwise exactly the entries below the index stay and the commit index is
    clamped below it. *)
Theorem Truncate_all_branches l k :
  wf l → Truncate l k = Ret
    (if k =? 0 then (l, Some errTruncateDummy)
     else if lenN l.(entries) <? k then (l, Some (errTruncateGap k (lastIndex l)))
     else (MkLog (take (N.to_nat k) l.(entries)) (N.min l.(commitIndex) (k - 1)), None)).
Proof.
  intros Hwf. destruct (N.eqb_spec k 0) as [->|Hk]; [done|].
  destruct (N.ltb_spec (lenN (entries l)) k) as [Hlt|Hge].
  - unfold Truncate. rewrite (proj2 (N.eqb_neq _ _) Hk), (Last_wf _ Hwf).
    cbn [mbind go_bind]. rewrite (lastIndex_succ _ Hwf). by rewrite (proj2 (N.ltb_lt _ _) Hlt).
  - rewrite Truncate_wf_eq by (done || lia). done.
Qed.

(** CommitTo_all_branches.  The commit index only moves forward and only inside the log;
    otherwise the log is unchanged and the error says why. *)
Theorem CommitTo_all_branches l i :
  wf l → ∃ l' err, CommitTo l i = Ret (l', err) ∧ wf l' ∧ l'.(entries) = l.(entries) ∧
    (if lastIndex l <? i then l' = l ∧ err = Some (errCommitBeyond i (lastIndex l))
     else if i <? l.(commitIndex) then l' = l ∧ err = Some ErrCommitRegression
     else l'.(commitIndex) = i ∧ err = None) ∧
    l.(commitIndex) ≤ l'.(commitIndex).
Proof.
  intros Hwf. rewrite (CommitTo_wf _ _ Hwf).
  destruct (N.ltb_spec (lastIndex l) i); [by eexists _, _|].
  destruct (N.ltb_spec i (commitIndex l)); [by eexists _, _|].
  eexists _, _. split; [done|]. split; [by apply set_commit_wf|]. by split_and!.
Qed.

(** log_reads.  On a well-formed log [Slice] is the half-open range clamped to the log
    and to index 1, [CommittedEntries] is indices 1 to the commit index, and
    [MatchesPrevLogTerm] says whether the entry at an index has a term; none panics. *)
Theorem log_reads l lo hi i t :
  wf l →
  Slice l lo hi = Ret (sub l.(entries) (N.max 1 lo) hi) ∧
  CommittedEntries l = Ret (sub l.(entries) 1 (l.(commitIndex) + 1)) ∧
  MatchesPrevLogTerm l i t =
    Ret (bool_decide (i = 0 ∨ Term <$> l.(entries) !! N.to_nat i = Some t)).
Proof.
  intros Hwf. split_and!; [by apply Slice_wf|by apply CommittedEntries_wf|].
  apply MatchesPrevLogTerm_spec.
Qed.

(** ** Concrete logs *)

Definition ex_log : Log :=
  MkLog [dummy; MkEntry 1 1 [x61]; MkEntry 1 2 [x62]; MkEntry 2 3 [x63]] 1.
Definition ex_new : list Entry := [MkEntry 1 2 [x62]; MkEntry 3 3 [x64]].

Lemma ex_log_wf : wf ex_log.
Proof. split; [done| |done|done]. intros [|[|[|[|i]]]] e; cbn; naive_solver. Qed.

Lemma Append_resolves_conflicts_witness :
  let l' := reconcile_log ex_log 2 ex_new in
  l'.(entries) = [dummy; MkEntry 1 1 [x61]; MkEntry 1 2 [x62]; MkEntry 3 3 [x64]] ∧
  ∃ l', Append ex_log ex_new = Ret (l', None) ∧ l' = reconcile_log ex_log 2 ex_new ∧ wf l' ∧
    take 2 l'.(entries) = take 2 ex_log.(entries) ∧
    (∀ i e, ex_new !! i = Some e → Term <$> l'.(entries) !! (2 + i)%nat = Some e.(Term)) ∧
    lenN l'.(entries) ≤ N.max (lenN ex_log.(entries)) (2 + lenN ex_new).
Proof.
  split; [done|]. apply (Append_resolves_conflicts ex_log 2 ex_new); try done.
  apply ex_log_wf.
Defined.

Lemma Append_idempotent_witness :
  Append (reconcile_log ex_log 2 ex_new) ex_new = Ret (reconcile_log ex_log 2 ex_new, None).
Proof. by apply (Append_idempotent ex_log 2 ex_new); [apply ex_log_wf|..]. Defined.

Lemma Append_stale_witness : Append ex_log [MkEntry 1 1 [x61]] = Ret (ex_log, None).
Proof.
  apply (Append_stale ex_log 1 [MkEntry 1 1 [x61]]); [apply ex_log_wf|done..|].
  intros [|i] e Hi; [by injection Hi as <-|done].
Defined.

Lemma Append_validates_witness :
  let es := [MkEntry 2 4 []; MkEntry 2 6 []] in
  let err := Some (errNonContiguous 6 4) in
  (err ≠ None ↔ ∃ i a b, es !! i = Some a ∧ es !! S i = Some b ∧ b.(Index) ≠ a.(Index) +u 1) ∧
  (err ≠ None → ex_log = ex_log).
Proof. by apply (Append_validates ex_log [MkEntry 2 4 []; MkEntry 2 6 []]). Defined.

Lemma Truncate_all_branches_witness :
  Truncate ex_log 1 = Ret (MkLog [dummy] 0, None).
Proof. apply (Truncate_all_branches ex_log 1). apply ex_log_wf. Defined.

Lemma CommitTo_all_branches_witness :
  ∃ l' err, CommitTo ex_log 3 = Ret (l', err) ∧ wf l' ∧ l'.(entries) = ex_log.(entries) ∧
    (l'.(commitIndex) = 3 ∧ err = None) ∧ ex_log.(commitIndex) ≤ l'.(commitIndex).
Proof. apply (CommitTo_all_branches ex_log 3). apply ex_log_wf. Defined.

Lemma log_reads_witness :
  Slice ex_log 0 3 = Ret (sub ex_log.(entries) 1 3) ∧
  CommittedEntries ex_log = Ret (sub ex_log.(entries) 1 2) ∧
  MatchesPrevLogTerm ex_log 3 2 =
    Ret (bool_decide (3 = 0 ∨ Term <$> ex_log.(entries) !! 3%nat = Some 2)).
Proof. apply (log_reads ex_log 0 3 3 2). apply ex_log_wf. Defined.
