(* ===== verification/LogPersist.v ===== *)
(** * Persistent-state serialization (internal/log/log.go, lines 233-327)

    [Serialize] and [Deserialize] of [PersistedState].  The decoder's [pos] cursor is
    represented by the bytes from [pos] on.  A returned error carries no state: no caller
    reads the partial [PersistedState] that accompanies one. *)
From S2P Require Import Prelude Bytes Log.
From Stdlib Require Import Strings.Byte.
Open Scope N_scope.

Definition ErrCorruptState : error := NewError "log: corrupt persisted state".

Record PersistedState := MkPersistedState {
  CurrentTerm : N;
  VotedFor : N;
  Entries : list Entry;
}.

#[export] Instance PersistedState_eq_dec : EqDecision PersistedState.
Proof. solve_decision. Defined.

(** ** Serialize *)

(** [putU64]: eight little-endian bytes. *)
Definition putU64 (v : N) : list byte := le_bytes 8 v.

Definition serialize_entry (e : Entry) : list byte :=
  putU64 e.(Log.Term) ++ putU64 e.(Log.Index) ++
  putU64 (lenN e.(Command)) ++ e.(Command).

Definition Serialize (s : PersistedState) : list byte :=
  putU64 s.(CurrentTerm) ++ putU64 s.(VotedFor) ++ putU64 (lenN s.(Entries)) ++
  concat (map serialize_entry s.(Entries)).

(** ** Deserialize *)

(** The closure [readU64]: the value, [ok], and the remaining bytes. *)
Definition readU64 (rest : list byte) : N * bool * list byte :=
  if (length rest <? 8)%nat then (0, false, rest)
  else (le_value (take 8 rest), true, drop 8 rest).

Definition corrupt (what : string) : error := WrapError ErrCorruptState (": " +:+ what).

(** The entry loop: [k] iterations left, [i] done, [prevIndex] the last index read. *)
Fixpoint deserialize_entries (k : nat) (i prevIndex : N) (rest : list byte)
    : go (list Entry) :=
  match k with
  | O => Ret []
  | S k =>
    let '(term, ok1, rest) := readU64 rest in
    let '(idx, ok2, rest) := readU64 rest in
    let '(cmdLen, ok3, rest) := readU64 rest in
    if negb ok1 || negb ok2 || negb ok3 then
      Throw (corrupt ("truncated entry " +:+ pretty i))
    else if negb (idx =? prevIndex +u 1) then
      Throw (corrupt ("entry " +:+ pretty i +:+ " has non-contiguous index " +:+ pretty idx
                      +:+ " (expected " +:+ pretty (prevIndex +u 1) +:+ ")"))
    else if lenN rest <? cmdLen then
      Throw (corrupt ("truncated command for entry " +:+ pretty i))
    else
      let cmd := take (N.to_nat cmdLen) rest in
      tl ← deserialize_entries k (i + 1) idx (drop (N.to_nat cmdLen) rest);
      Ret (MkEntry term idx cmd :: tl)
  end.

Definition Deserialize (data : list byte) : go PersistedState :=
  let '(cur, ok, rest) := readU64 data in
  if negb ok then Throw (corrupt "truncated header (currentTerm)") else
  let '(vf, ok, rest) := readU64 rest in
  if negb ok then Throw (corrupt "truncated header (votedFor)") else
  let '(n, ok, rest) := readU64 rest in
  if negb ok then Throw (corrupt "truncated header (numEntries)") else
  if lenN data / 24 + 1 <? n then
    Throw (corrupt ("implausible entry count " +:+ pretty n))
  else
    es ← deserialize_entries (N.to_nat n) 0 0 rest;
    Ret (MkPersistedState cur vf es).

(** ** What can be persisted *)

Definition entry_ok (e : Entry) : Prop :=
  is_u64 e.(Log.Term) ∧ is_u64 e.(Log.Index) ∧ is_u64 (lenN e.(Command)).

(** The states [Deserialize] accepts: 64-bit fields, indices 1, 2, 3, ... *)
Record state_ok (s : PersistedState) : Prop := {
  ok_term : is_u64 s.(CurrentTerm);
  ok_vote : is_u64 s.(VotedFor);
  ok_count : is_u64 (lenN s.(Entries));
  ok_entries : Forall entry_ok s.(Entries);
  ok_contig : contig 1 s.(Entries);
}.

(** ** Lemmas *)

Lemma readU64_put v rest : is_u64 v → readU64 (putU64 v ++ rest) = (v, true, rest).
Proof.
  intros Hv. unfold readU64, putU64.
  pose proof (length_le_bytes 8 v) as Hl.
  rewrite (proj2 (Nat.ltb_ge _ _)) by (rewrite length_app; lia).
  rewrite take_app_length', drop_app_length' by done.
  by rewrite le_value_bytes.
Qed.

Lemma readU64_inv rest v rest' :
  readU64 rest = (v, true, rest') → rest = putU64 v ++ rest' ∧ is_u64 v.
Proof.
  unfold readU64. destruct (Nat.ltb_spec (length rest) 8) as [|Hle]; [done|].
  intros [= <- <-]. unfold putU64, is_u64.
  assert (length (take 8 rest) = 8%nat) as Hl by (rewrite length_take; lia).
  rewrite <- Hl at 1. rewrite le_bytes_value, take_drop. split; [done|].
  pose proof (le_value_bound (take 8 rest)) as Hb. by rewrite Hl in Hb.
Qed.

Lemma readU64_short rest : (length rest < 8)%nat → readU64 rest = (0, false, rest).
Proof. intros H. unfold readU64. by rewrite (proj2 (Nat.ltb_lt _ _)). Qed.

Lemma length_putU64 v : length (putU64 v) = 8%nat.
Proof. apply length_le_bytes. Qed.

Lemma length_serialize_entry e :
  length (serialize_entry e) = (24 + length e.(Command))%nat.
Proof. unfold serialize_entry. rewrite !length_app, !length_putU64. lia. Qed.

Lemma length_serialize_entries es :
  (24 * length es ≤ length (concat (map serialize_entry es)))%nat.
Proof.
  induction es as [|e es IH]; cbn [map concat length]; [lia|].
  rewrite length_app, length_serialize_entry. lia.
Qed.

Lemma deserialize_entries_serialize es i prev rest :
  Forall entry_ok es → contig (prev + 1) es → prev + lenN es < u64_modulus →
  deserialize_entries (length es) i prev (concat (map serialize_entry es) ++ rest) = Ret es.
Proof.
  intros Hok. revert i prev. induction Hok as [|e es (Ht & Hi & Hc) _ IH];
    intros i prev Hcont Hs; [done|].
  destruct Hcont as [Heq Hcont]. cbn [map concat length deserialize_entries] in *.
  unfold serialize_entry at 1. rewrite <- !app_assoc.
  rewrite !readU64_put by done. cbn [negb orb].
  rewrite u64_add_small by lia. rewrite Heq, N.eqb_refl. cbn [negb].
  rewrite (proj2 (N.ltb_ge _ _)) by (rewrite length_app; lia).
  rewrite Nat2N.id, take_app_length, drop_app_length.
  rewrite IH by (done || lia). cbn. by destruct e; cbn in Heq; subst.
Qed.

Lemma deserialize_entries_inv k i prev rest es :
  deserialize_entries k i prev rest = Ret es → prev + N.of_nat k < u64_modulus →
  ∃ rest', rest = concat (map serialize_entry es) ++ rest' ∧
    length es = k ∧ Forall entry_ok es ∧ contig (prev + 1) es.
Proof.
  revert i prev rest es. induction k as [|k IH]; intros i prev rest es H Hs;
    cbn [deserialize_entries] in H.
  { injection H as <-. exists rest. by repeat split. }
  destruct (readU64 rest) as [[term ok1] r1] eqn:E1.
  destruct (readU64 r1) as [[idx ok2] r2] eqn:E2.
  destruct (readU64 r2) as [[cmdLen ok3] r3] eqn:E3.
  destruct ok1, ok2, ok3; cbn [negb orb] in H; try done.
  destruct (N.eqb_spec idx (prev +u 1)) as [Hidx|]; cbn [negb] in H; [|done].
  destruct (N.ltb_spec (lenN r3) cmdLen) as [|Hlen]; [done|].
  go_inv H. injection H as <-. rewrite u64_add_small in Hidx by lia.
  apply IH in Hret as (rest' & Hrest & Hk & Hok & Hcont); [|lia].
  apply readU64_inv in E1 as [-> Ht], E2 as [-> Hi], E3 as [-> Hc].
  assert (lenN (take (N.to_nat cmdLen) r3) = cmdLen) as Hl by (rewrite length_take; lia).
  exists rest'. cbn [map concat length contig Log.Index]. unfold serialize_entry at 1.
  cbn [Log.Index Command Log.Term]. rewrite Hl. repeat split.
  - rewrite <- !app_assoc. do 3 f_equal. by rewrite <- Hrest, take_drop.
  - lia.
  - constructor; [|done]. unfold entry_ok; cbn. by rewrite Hl.
  - done.
  - by rewrite <- Hidx.
Qed.

Lemma deserialize_entries_total k i prev rest :
  (∃ es, deserialize_entries k i prev rest = Ret es) ∨
  (∃ what, deserialize_entries k i prev rest = Throw (corrupt what)).
Proof.
  revert i prev rest. induction k as [|k IH]; intros i prev rest; cbn [deserialize_entries];
    [by left; eexists|].
  destruct (readU64 rest) as [[term ok1] r1], (readU64 r1) as [[idx ok2] r2],
    (readU64 r2) as [[cmdLen ok3] r3].
  repeat (case_match; [by right; eexists|]).
  destruct (IH (i + 1) idx (drop (N.to_nat cmdLen) r3)) as [[es ->]|[w ->]];
    [left|right]; by eexists.
Qed.

Lemma Deserialize_app s rest : state_ok s → Deserialize (Serialize s ++ rest) = Ret s.
Proof.
  intros [Ht Hv Hn Hes Hc]. unfold Deserialize, Serialize. rewrite <- !app_assoc.
  rewrite !readU64_put by done. cbn [negb].
  pose proof (length_serialize_entries (Entries s)) as Hl.
  rewrite (proj2 (N.ltb_ge _ _)).
  - rewrite Nat2N.id, deserialize_entries_serialize.
    + by destruct s.
    + done.
    + done.
    + unfold is_u64 in Hn. lia.
  - rewrite !length_app, !length_putU64.
    transitivity ((24 * lenN (Entries s)) / 24 + 1).
    + rewrite N.mul_comm, N.div_mul by lia. lia.
    + apply N.add_le_mono_r, N.Div0.div_le_mono. lia.
Qed.

Lemma Deserialize_inv data s :
  Deserialize data = Ret s → is_u64 (lenN data) →
  ∃ rest, data = Serialize s ++ rest ∧ state_ok s.
Proof.
  intros H Hsz. unfold Deserialize in H.
  destruct (readU64 data) as [[cur ok1] r1] eqn:E1.
  destruct ok1; cbn [negb] in H; [|done].
  destruct (readU64 r1) as [[vf ok2] r2] eqn:E2.
  destruct ok2; cbn [negb] in H; [|done].
  destruct (readU64 r2) as [[n ok3] r3] eqn:E3.
  destruct ok3; cbn [negb] in H; [|done].
  destruct (N.ltb_spec (lenN data / 24 + 1) n) as [|Hn]; [done|].
  go_inv H. injection H as <-.
  assert (n < u64_modulus) as Hn'.
  { unfold is_u64, u64_modulus in *. pose proof (N.Div0.div_lt_upper_bound (lenN data) 24
      768614336404564651). lia. }
  apply deserialize_entries_inv in Hret as (rest & Hrest & Hk & Hok & Hc); [|lia].
  apply readU64_inv in E1 as [-> Ht], E2 as [-> Hv], E3 as [-> Hnu].
  exists rest. unfold Serialize. cbn [CurrentTerm VotedFor Entries].
  rewrite Hk, N2Nat.id. split.
  - by rewrite <- !app_assoc, <- Hrest.
  - split; cbn; [done|done| |done|done]. rewrite Hk. by rewrite N2Nat.id.
Qed.

Lemma Deserialize_total data :
  (∃ s, Deserialize data = Ret s) ∨ (∃ what, Deserialize data = Throw (corrupt what)).
Proof.
  unfold Deserialize.
  destruct (readU64 data) as [[cur ok1] r1], (readU64 r1) as [[vf ok2] r2],
    (readU64 r2) as [[n ok3] r3].
  repeat (case_match; [by right; eexists|]).
  destruct (deserialize_entries_total (N.to_nat n) 0 0 r3) as [[es ->]|[w ->]];
    [left|right]; by eexists.
Qed.

Lemma corrupt_is what : errors_Is (corrupt what) ErrCorruptState = true.
Proof. unfold corrupt. cbn. by rewrite orb_true_r. Qed.

(** ** What the serializer guarantees *)

(** C23: Deserialize_exact.  [Deserialize] accepts exactly the serializations of well-formed
    states (64-bit fields, indices 1, 2, 3, ...), followed by anything, and returns the
    state that was serialized; so the encoding is a round trip and is injective. *)
Theorem Deserialize_exact data s :
  is_u64 (lenN data) →
  Deserialize data = Ret s ↔ ∃ rest, data = Serialize s ++ rest ∧ state_ok s.
Proof.
  intros Hsz. split; [intros H; by apply Deserialize_inv|].
  intros (rest & -> & Hs). by apply Deserialize_app.
Qed.

(** Deserialize_reports_corruption.  Whatever the bytes, [Deserialize] returns: a state,
    or an error that [errors.Is] recognises as [ErrCorruptState]. *)
Theorem Deserialize_reports_corruption data :
  (∃ s, Deserialize data = Ret s) ∨
  ∃ err, Deserialize data = Throw err ∧ errors_Is err ErrCorruptState = true.
Proof.
  destruct (Deserialize_total data) as [[s E]|[what E]]; [left|right]; [by exists s|].
  exists (corrupt what). split; [done|apply corrupt_is].
Qed.

(** Deserialize_truncated.  Every proper prefix of a serialized state is rejected. *)
Theorem Deserialize_truncated s k :
  state_ok s → is_u64 (lenN (Serialize s)) → (k < length (Serialize s))%nat →
  ∃ what, Deserialize (take k (Serialize s)) = Throw (corrupt what).
Proof.
  intros Hs Hsz Hk. destruct (Deserialize_total (take k (Serialize s))) as [[s' E]|]; [|done].
  exfalso. apply Deserialize_inv in E as (rest & Hd & Hs').
  2: { unfold is_u64 in *. rewrite length_take. lia. }
  pose proof (take_drop k (Serialize s)) as Hsplit. rewrite Hd, <- app_assoc in Hsplit.
  pose proof (Deserialize_app s [] Hs) as E1.
  pose proof (Deserialize_app s' (rest ++ drop k (Serialize s)) Hs') as E2.
  rewrite app_nil_r in E1. rewrite Hsplit, E1 in E2. injection E2 as <-.
  apply (f_equal length) in Hd. rewrite length_take, length_app in Hd. lia.
Qed.

Definition ex_state : PersistedState := MkPersistedState 3 2 [MkEntry 1 1 [x61]; MkEntry 3 2 []].

Lemma ex_state_ok : state_ok ex_state.
Proof. split; try done. by repeat constructor. Qed.

Lemma Deserialize_exact_witness :
  Deserialize (Serialize ex_state ++ [x00]) = Ret ex_state ↔
  ∃ rest, Serialize ex_state ++ [x00] = Serialize ex_state ++ rest ∧ state_ok ex_state.
Proof. by apply (Deserialize_exact (Serialize ex_state ++ [x00]) ex_state). Defined.

Lemma Deserialize_truncated_witness :
  length (Serialize ex_state) = 73%nat ∧
  ∃ what, Deserialize (take 60 (Serialize ex_state)) = Throw (corrupt what).
Proof.
  split; [done|]. apply (Deserialize_truncated ex_state 60); [apply ex_state_ok|done|].
  vm_compute. lia.
Defined.
