(* ===== verification/LogAux.v ===== *)
(** * Compaction, iteration, batches and statistics of the log
    (internal/log/compact.go, iter.go, batch.go, stats.go)

    [compacted base l] is the invariant of a log whose first [base] entries were discarded:
    position 0 holds the sentinel of index [base].  Proved here: what [Compact] keeps, that
    [EntrySince] and [Seek] address a compacted log correctly, that the iterator visits
    every entry once, and what a batch and the statistics compute.  The operations of [Log]
    itself address entries by raw position; [compact_breaks_reads] in this file shows what
    that does to a compacted log. *)
From S2P Require Import Prelude Log.
From Stdlib Require Import Strings.Byte Floats.SpecFloat.
Open Scope N_scope.

(** ** compact.go *)

Definition Compact (l : Log) (compactIndex : N) : go (Log * option error) :=
  if l.(commitIndex) <? compactIndex then Ret (l, Some ErrIndexOutOfRange)
  else if compactIndex =? 0 then Ret (l, None)
  else
    head ← index l.(entries) 0;
    let pos := i64_of_u64 (compactIndex -u head.(Index)) in
    if (pos <=? 0)%Z || (Z.of_nat (length l.(entries)) <=? pos)%Z
    then Ret (l, Some ErrIndexOutOfRange)
    else
      e ← index l.(entries) (Z.to_N pos);
      let sentinel := MkEntry e.(Term) e.(Index) [] in
      Ret (l <| entries := sentinel :: drop (S (Z.to_nat pos)) l.(entries) |>, None).

Definition CompactedIndex (l : Log) : N :=
  match l.(entries) with [] => 0 | e :: _ => e.(Index) end.

Definition CompactedTerm (l : Log) : N :=
  match l.(entries) with [] => 0 | e :: _ => e.(Term) end.

Definition EntrySince (l : Log) (startIndex : N) : go (list Entry) :=
  head ← index l.(entries) 0;
  let base := head.(Index) in
  let startIndex := if startIndex <=? base then base +u 1 else startIndex in
  let pos := i64_of_u64 (startIndex -u base) in
  if (Z.of_nat (length l.(entries)) <=? pos)%Z then Ret []
  else if (pos <? 0)%Z then Panic
  else Ret (drop (Z.to_nat pos) l.(entries)).

(** ** iter.go

    An iterator points to its log; the log is an argument of the methods that read it. *)

Definition Iterator : Type := Z.   (* pos *)

Definition Iter : Iterator := 1%Z.
Definition Valid (l : Log) (it : Iterator) : bool := (it <? Z.of_nat (length l.(entries)))%Z.
Definition Next (it : Iterator) : Iterator := wrap_i64 (it + 1).

Definition at_pos (l : Log) (pos : Z) : go Entry :=
  if (pos <? 0)%Z then Panic else index l.(entries) (Z.to_N pos).

Definition iter_Entry (l : Log) (it : Iterator) : go Entry :=
  if negb (Valid l it) then Ret (MkEntry 0 0 []) else at_pos l it.

Definition iter_Index (l : Log) (it : Iterator) : go N :=
  if negb (Valid l it) then Ret 0 else e ← at_pos l it; Ret e.(Index).

Definition Rewind (it : Iterator) : Iterator := 1%Z.

Definition Seek (l : Log) (idx : N) : go Iterator :=
  head ← index l.(entries) 0;
  let pos := i64_of_u64 (idx -u head.(Index)) in
  Ret (if (pos <? 1)%Z then 1%Z else pos).

Definition Count (l : Log) : Z :=
  let n := (Z.of_nat (length l.(entries)) - 1)%Z in if (n <? 0)%Z then 0%Z else n.

(** [for it := ...; it.Valid(); it.Next() { ... it.Entry() ... }]: at most [fuel] entries. *)
Fixpoint iterate (fuel : nat) (l : Log) (it : Iterator) : go (list Entry) :=
  match fuel with
  | O => Ret []
  | S fuel =>
    if Valid l it then
      e ← iter_Entry l it;
      es ← iterate fuel l (Next it);
      Ret (e :: es)
    else Ret []
  end.

(** ** batch.go *)

Record Batch := MkBatch { b_entries : list Entry }.

Definition NewBatch : Batch := MkBatch [].
Definition Batch_Add (b : Batch) (e : Entry) : Batch := MkBatch (b.(b_entries) ++ [e]).
Definition Batch_Len (b : Batch) : Z := Z.of_nat (length b.(b_entries)).
Definition Batch_Entries (b : Batch) : list Entry := b.(b_entries).
Definition Batch_Apply (b : Batch) (l : Log) : go (Log * option error) :=
  if (length b.(b_entries) =? 0)%nat then Ret (l, None) else Append l b.(b_entries).
Definition Batch_Reset (b : Batch) : Batch := MkBatch [].

Definition sum_sizes (es : list Entry) : Z :=
  foldl (λ total e, (total + Z.of_nat (length e.(Command)))%Z) 0%Z es.

Definition Batch_TotalBytes (b : Batch) : Z := sum_sizes b.(b_entries).

(** ** stats.go *)

Record Stats := MkStats {
  EntryCount : Z;
  st_CommitIndex : N;
  LastIndex : N;
  LastTerm : N;
  TotalBytes : Z;
}.

(** [l.entries[1:]] *)
Definition slice_from1 (es : list Entry) : go (list Entry) :=
  match es with [] => Panic | _ :: tl => Ret tl end.

Definition ComputeStats (l : Log) : go Stats :=
  '(lastIdx, lastTerm) ← Last l;
  es ← slice_from1 l.(entries);
  Ret (MkStats (Z.of_nat (length l.(entries)) - 1) l.(commitIndex) lastIdx lastTerm
         (sum_sizes es)).

Definition TermDistribution (l : Log) : go (gmap N Z) :=
  es ← slice_from1 l.(entries);
  Ret (foldl (λ dist e, <[e.(Term) := (default 0%Z (dist !! e.(Term)) + 1)%Z]> dist) ∅ es).

(** [float64(z)] and float64 division: IEEE binary64, rounding to nearest even. *)
Definition float64_of_int (z : Z) : spec_float := binary_normalize 53 1024 z 0 false.

Definition AverageEntrySize (l : Log) : go spec_float :=
  let n := (Z.of_nat (length l.(entries)) - 1)%Z in
  if (n =? 0)%Z then Ret (S754_zero false)
  else
    es ← slice_from1 l.(entries);
    Ret (SFdiv 53 1024 (float64_of_int (sum_sizes es)) (float64_of_int n)).

(** ** The invariant of a compacted log *)

Record compacted (base : N) (l : Log) : Prop := {
  cmp_contig : contig base l.(entries);
  cmp_nonempty : l.(entries) ≠ [];
  cmp_commit : base ≤ l.(commitIndex) < base + lenN l.(entries);
  cmp_size : base + lenN l.(entries) < u64_modulus;
  cmp_slice : lenN l.(entries) < 9223372036854775808;   (* a Go slice length is an int *)
}.

Lemma wf_compacted l :
  wf l → lenN l.(entries) < 9223372036854775808 → compacted 0 l.
Proof.
  intros Hwf Hlen. pose proof (wf_nonempty _ Hwf). pose proof (wf_commit _ Hwf).
  pose proof (wf_size _ Hwf). split; try lia; [by apply wf_contig|].
  intros E. rewrite E in *. cbn in *. lia.
Qed.

Lemma i64_of_small n : n < 9223372036854775808 → i64_of_u64 n = Z.of_N n.
Proof. intros Hn. apply wrap_i64_small. unfold is_i64, i64_min, i64_max. lia. Qed.

Lemma compacted_head base l :
  compacted base l → ∃ e, index l.(entries) 0 = Ret e ∧ e.(Index) = base.
Proof.
  intros H. pose proof (cmp_contig _ _ H) as Hc. pose proof (cmp_nonempty _ _ H) as Hn.
  destruct (entries l) as [|e es]; [done|]. exists e. split; [|apply Hc].
  by apply (index_Some _ 0).
Qed.

Lemma compacted_lookup base l k :
  compacted base l → k < lenN l.(entries) →
  ∃ e, l.(entries) !! N.to_nat k = Some e ∧ e.(Index) = base + k.
Proof.
  intros H Hk. destruct (lookup_lt_is_Some_2 (entries l) (N.to_nat k)) as [e He]; [lia|].
  exists e. split; [done|].
  rewrite (contig_lookup _ _ _ _ (cmp_contig _ _ H) He). lia.
Qed.

Lemma Compact_spec base l ci :
  compacted base l → Compact l ci = Ret
    (if l.(commitIndex) <? ci then (l, Some ErrIndexOutOfRange)
     else if ci =? 0 then (l, None)
     else if ci <=? base then (l, Some ErrIndexOutOfRange)
     else (MkLog (MkEntry (from_option Term 0 (l.(entries) !! N.to_nat (ci - base))) ci [] ::
                  drop (S (N.to_nat (ci - base))) l.(entries)) l.(commitIndex), None)).
Proof.
  intros H. unfold Compact. destruct (N.ltb_spec (commitIndex l) ci) as [|Hci]; [done|].
  destruct (N.eqb_spec ci 0) as [|Hz]; [done|].
  destruct (compacted_head _ _ H) as (h & -> & Hh). cbn [mbind go_bind]. rewrite Hh.
  pose proof (cmp_commit _ _ H) as [Hb Hc]. pose proof (cmp_size _ _ H) as Hs.
  pose proof (cmp_slice _ _ H) as Hsl.
  destruct (N.leb_spec ci base) as [Hle|Hlt].
  - destruct (decide (ci = base)) as [->|Hne].
    + rewrite u64_sub_small by (unfold is_u64; lia). rewrite N.sub_diag. done.
    + (* the difference wraps: as an int it is not positive, or it is past the slice *)
      assert (ci -u base = u64_modulus - (base - ci)) as ->.
      { unfold u64_sub, wrap_u64. rewrite (N.mod_small base) by lia.
        rewrite N.mod_small; unfold u64_modulus in *; lia. }
      set (d := u64_modulus - (base - ci)).
      assert ((i64_of_u64 d <=? 0)%Z || (Z.of_nat (length (entries l)) <=? i64_of_u64 d)%Z = true)
        as ->; [|done].
      unfold i64_of_u64, wrap_i64. apply orb_true_iff. rewrite !Z.leb_le.
      unfold d, u64_modulus in *. destruct (decide (base - ci ≤ 9223372036854775808)).
      * left. replace (Z.of_N (18446744073709551616 - (base - ci)) + 9223372036854775808)%Z
          with (9223372036854775808 - Z.of_N (base - ci) + 1 * 18446744073709551616)%Z by lia.
        rewrite Z.mod_add by lia. rewrite Z.mod_small by lia. lia.
      * right. rewrite Z.mod_small by lia. lia.
  - rewrite u64_sub_small by (unfold is_u64; lia).
    rewrite i64_of_small by lia.
    rewrite (proj2 (Z.leb_gt _ 0)) by lia. rewrite (proj2 (Z.leb_gt _ _)) by lia. cbn [orb].
    destruct (compacted_lookup base l (ci - base) H) as (e & He & Hi); [lia|].
    rewrite N2Z.id, (proj2 (index_lookup _ _ _) He). cbn [mbind go_bind].
    rewrite He, Hi. replace (base + (ci - base)) with ci by lia.
    by replace (Z.to_nat (Z.of_N (ci - base))) with (N.to_nat (ci - base)) by lia.
Qed.

Lemma EntrySince_spec base l start :
  compacted base l → base + lenN l.(entries) < 9223372036854775808 → start < 9223372036854775808 →
  EntrySince l start = Ret (drop (N.to_nat (N.max start (base + 1) - base)) l.(entries)).
Proof.
  intros H Hs Hst. unfold EntrySince.
  destruct (compacted_head _ _ H) as (h & -> & Hh). cbn [mbind go_bind]. rewrite Hh.
  assert ((if start <=? base then base +u 1 else start) = N.max start (base + 1)) as ->.
  { destruct (N.leb_spec start base); [|lia]. rewrite u64_add_small; unfold u64_modulus; lia. }
  rewrite u64_sub_small by (unfold is_u64, u64_modulus; lia).
  rewrite i64_of_small by lia.
  destruct (Z.leb_spec (Z.of_nat (length (entries l))) (Z.of_N (N.max start (base + 1) - base))).
  - by rewrite drop_ge by lia.
  - rewrite (proj2 (Z.ltb_ge _ _)) by lia. do 2 f_equal. lia.
Qed.

(** The log after a compaction at [ci]. *)
Lemma compacted_Compact base l ci l' :
  compacted base l → Compact l ci = Ret (l', None) →
  compacted (CompactedIndex l') l' ∧ l'.(commitIndex) = l.(commitIndex) ∧
  (ci = 0 ∧ l' = l ∨ ci ≠ 0 ∧ CompactedIndex l' = ci ∧ base < ci ∧
   drop 1 l'.(entries) = drop (N.to_nat (ci + 1 - base)) l.(entries)).
Proof.
  intros H Hr. pose proof (cmp_commit _ _ H) as [Hb Hc]. pose proof (cmp_size _ _ H) as Hs.
  pose proof (cmp_slice _ _ H) as Hsl.
  assert (compacted (CompactedIndex l) l) as Hsame.
  { destruct (compacted_head _ _ H) as (h & Hh & Hi). unfold CompactedIndex.
    apply index_lookup in Hh. destruct (entries l) as [|e es] eqn:E; [done|].
    cbn in Hh. injection Hh as ->. by rewrite Hi. }
  rewrite (Compact_spec _ _ _ H) in Hr.
  destruct (N.ltb_spec (commitIndex l) ci) as [|Hci]; [done|].
  destruct (N.eqb_spec ci 0) as [->|Hz].
  { injection Hr as <-. split; [done|]. split; [done|]. by left. }
  destruct (N.leb_spec ci base) as [|Hlt]; [done|]. injection Hr as <-.
  unfold CompactedIndex; cbn [entries Index commitIndex].
  pose proof (length_drop (entries l) (S (N.to_nat (ci - base)))) as Hlen.
  split; [|split; [done|right; split_and!; [done|done|done|]]].
  - split; cbn [entries commitIndex contig Index length]; [|done|lia|lia|lia].
    split; [done|]. replace (ci + 1) with (base + N.of_nat (S (N.to_nat (ci - base)))) by lia.
    apply contig_drop, H.
  - cbn [drop]. replace (N.to_nat (ci + 1 - base)) with (S (N.to_nat (ci - base))) by lia.
    by rewrite drop_0.
Qed.

(** ** Iteration *)

Lemma iterate_from l k fuel :
  (length l.(entries) ≤ fuel + k)%nat → lenN l.(entries) < 9223372036854775807 →
  (k ≤ length l.(entries))%nat →
  iterate fuel l (Z.of_nat k) = Ret (drop k l.(entries)).
Proof.
  revert k. induction fuel as [|fuel IH]; intros k Hf Hmax Hk; cbn [iterate].
  { by rewrite drop_ge by lia. }
  unfold Valid. destruct (Z.ltb_spec (Z.of_nat k) (Z.of_nat (length (entries l)))) as [Hlt|Hge].
  2: { by rewrite drop_ge by lia. }
  unfold iter_Entry, Valid. rewrite (proj2 (Z.ltb_lt _ _) Hlt). cbn [negb].
  unfold at_pos. rewrite (proj2 (Z.ltb_ge _ _)) by lia.
  destruct (lookup_lt_is_Some_2 (entries l) k) as [e He]; [lia|].
  replace (Z.to_N (Z.of_nat k)) with (N.of_nat k) by lia.
  rewrite (index_Some _ _ _ He). cbn [mbind go_bind]. unfold Next.
  rewrite wrap_i64_small by (unfold is_i64, i64_min, i64_max; lia).
  replace (Z.of_nat k + 1)%Z with (Z.of_nat (S k)) by lia.
  rewrite IH by lia. cbn [mbind go_bind]. by rewrite (drop_S _ _ _ He).
Qed.

(** ** Sums and counts *)

Lemma sum_sizes_eq es :
  sum_sizes es = Z.of_nat (length (concat (map Command es))).
Proof.
  unfold sum_sizes.
  assert (∀ c, foldl (λ total e, (total + Z.of_nat (length (Command e)))%Z) c es =
    (c + Z.of_nat (length (concat (map Command es))))%Z) as Hall; [|by rewrite Hall].
  induction es as [|e es IH]; intros c; cbn [foldl map concat]; [cbn; lia|].
  rewrite IH, length_app. lia.
Qed.

Lemma distribution_count es (d : gmap N Z) t :
  default 0%Z (foldl (λ dist e, <[Term e := (default 0%Z (dist !! Term e) + 1)%Z]> dist) d es !! t) =
  (default 0%Z (d !! t) + Z.of_nat (length (filter (λ e, Term e = t) es)))%Z.
Proof.
  revert d. induction es as [|e es IH]; intros d; cbn [foldl]; [cbn; lia|].
  rewrite IH, filter_cons, lookup_insert. destruct (decide (Term e = t)) as [->|]; cbn; lia.
Qed.

(** ** What the operations guarantee *)

(** C40: Compact_keeps_suffix.  A successful compaction at [ci] (never past the commit index)
    leaves a log with base [ci] in which [EntrySince] returns the same entries as before for
    every start above [ci]; the commit index does not change. *)
Theorem Compact_keeps_suffix base l ci l' start :
  compacted base l → base + lenN l.(entries) < 9223372036854775808 →
  ci ≠ 0 → Compact l ci = Ret (l', None) →
  ci < start < 9223372036854775808 →
  compacted ci l' ∧ l'.(commitIndex) = l.(commitIndex) ∧ CompactedIndex l' = ci ∧
  ci ≤ l.(commitIndex) ∧ EntrySince l' start = EntrySince l start.
Proof.
  intros H Hs Hz Hr [Hlo Hhi]. pose proof (compacted_Compact _ _ _ _ H Hr) as (H' & Hc & Hcase).
  destruct Hcase as [[? _]|(_ & Hci & Hb & Hd)]; [done|]. rewrite Hci in H'.
  pose proof (cmp_commit _ _ H') as [Hcc _]. rewrite Hc in Hcc.
  assert (ci + lenN l'.(entries) ≤ base + lenN l.(entries)) as Hlen.
  { apply (f_equal length) in Hd. rewrite !length_drop in Hd.
    pose proof (cmp_commit _ _ H). pose proof (cmp_nonempty _ _ H').
    destruct (entries l'); [done|]. cbn [length] in *. lia. }
  split_and!; try done.
  rewrite (EntrySince_spec _ _ _ H' ltac:(lia) Hhi), (EntrySince_spec _ _ _ H Hs Hhi). f_equal.
  replace (N.to_nat (N.max start (ci + 1) - ci)) with (1 + N.to_nat (start - ci - 1))%nat by lia.
  rewrite <- drop_drop, Hd, drop_drop. f_equal. lia.
Qed.

(** Compact_refuses.  [Compact] refuses an index above the commit index or at or below
    the current base without touching the log, and never panics. *)
Theorem Compact_refuses base l ci :
  compacted base l → ci ≠ 0 →
  (l.(commitIndex) < ci ∨ ci ≤ base) ↔ Compact l ci = Ret (l, Some ErrIndexOutOfRange).
Proof.
  intros H Hz. rewrite (Compact_spec _ _ _ H), (proj2 (N.eqb_neq _ _) Hz).
  destruct (N.ltb_spec (commitIndex l) ci), (N.leb_spec ci base); naive_solver lia.
Qed.

(** iterator_visits_all.  The loop over an iterator visits the entries after position 0
    in order, each once, and terminates; after [Seek] it starts at the entry with the
    requested index, also on a compacted log. *)
Theorem iterator_visits_all base l idx :
  compacted base l → base + lenN l.(entries) < 9223372036854775807 →
  base < idx < base + lenN l.(entries) →
  iterate (length l.(entries)) l Iter = Ret (drop 1 l.(entries)) ∧
  ∃ it, Seek l idx = Ret it ∧ iter_Index l it = Ret idx ∧
    iterate (length l.(entries)) l it = Ret (drop (N.to_nat (idx - base)) l.(entries)).
Proof.
  intros H Hs Hidx. split.
  { apply (iterate_from l 1); lia. }
  unfold Seek. destruct (compacted_head _ _ H) as (h & -> & Hh). cbn [mbind go_bind]. rewrite Hh.
  rewrite u64_sub_small by (unfold is_u64, u64_modulus; lia). rewrite i64_of_small by lia.
  rewrite (proj2 (Z.ltb_ge _ _)) by lia. eexists. split; [done|].
  destruct (compacted_lookup base l (idx - base) H) as (e & He & Hi); [lia|].
  replace (Z.of_N (idx - base)) with (Z.of_nat (N.to_nat (idx - base))) by lia. split.
  - unfold iter_Index, Valid. rewrite (proj2 (Z.ltb_lt _ _)) by lia. cbn [negb].
    unfold at_pos. rewrite (proj2 (Z.ltb_ge _ _)) by lia.
    replace (Z.to_N (Z.of_nat (N.to_nat (idx - base)))) with (N.of_nat (N.to_nat (idx - base)))
      by lia.
    rewrite (index_Some _ _ _ He). cbn. f_equal. lia.
  - apply iterate_from; lia.
Qed.

(** batch_applies_all.  A batch built by adding entries one by one and then applied does
    what one [Append] of all of them does; an empty batch changes nothing. *)
Theorem batch_applies_all es l :
  Batch_Apply (foldl Batch_Add NewBatch es) l = Append l es ∧
  Batch_TotalBytes (foldl Batch_Add NewBatch es) =
    Z.of_nat (length (concat (map Command es))).
Proof.
  assert (∀ b, b_entries (foldl Batch_Add b es) = b_entries b ++ es) as Hall.
  { induction es as [|e es IH]; intros b; cbn [foldl]; [by rewrite app_nil_r|].
    rewrite IH. cbn. by rewrite <- app_assoc. }
  unfold Batch_Apply, Batch_TotalBytes. rewrite !Hall. cbn [b_entries NewBatch app].
  split; [by destruct es|apply sum_sizes_eq].
Qed.

(** stats_correct.  The statistics of a well-formed log: entry count, indices, the total
    number of command bytes, and per term the number of its entries. *)
Theorem stats_correct l :
  wf l → ∃ s d, ComputeStats l = Ret s ∧ TermDistribution l = Ret d ∧
    s.(EntryCount) = Len l ∧ s.(st_CommitIndex) = l.(commitIndex) ∧
    s.(LastIndex) = lastIndex l ∧ s.(LastTerm) = lastTerm l ∧
    s.(TotalBytes) = Z.of_nat (length (concat (map Command (drop 1 l.(entries))))) ∧
    ∀ t, default 0%Z (d !! t) =
      Z.of_nat (length (filter (λ e, Term e = t) (drop 1 l.(entries)))).
Proof.
  intros Hwf. unfold ComputeStats, TermDistribution. rewrite (Last_wf _ Hwf).
  cbn [mbind go_bind]. pose proof (wf_nonempty _ Hwf).
  destruct (entries l) as [|e es] eqn:E; [cbn in *; lia|]. cbn [slice_from1 mbind go_bind].
  eexists _, _. split; [done|]. split; [done|]. cbn. unfold Len. rewrite E, drop_0.
  split_and!; try done; [apply sum_sizes_eq|]. intros t. by rewrite distribution_count.
Qed.

(** compact_breaks_reads.  Compaction and the operations of [Log] do not fit together:
    after a legal [Compact] of a well-formed log, [Slice] and [CommittedEntries] read out
    of range (panic), [At] returns the entry of another index, and a fully compacted log
    reports [Last] as (0, 0). *)
Theorem compact_breaks_reads :
  let l := MkLog [dummy; MkEntry 1 1 [x61]; MkEntry 1 2 [x62]; MkEntry 2 3 [x63]] 3 in
  wf l ∧
  (∃ l2, Compact l 2 = Ret (l2, None) ∧ CommittedEntries l2 = Panic ∧ Slice l2 1 4 = Panic ∧
     At l2 1 = Ret (MkEntry 2 3 [x63])) ∧
  (∃ l3, Compact l 3 = Ret (l3, None) ∧ Last l3 = Ret (0, 0)).
Proof.
  intros l. split; [|split].
  - split; [done| |done|done]. intros [|[|[|[|i]]]] e; cbn; naive_solver.
  - eexists. split; [by vm_compute|]. split_and!; by vm_compute.
  - eexists. split; by vm_compute.
Qed.

(** ** Concrete logs *)

Lemma ex_log_compacted : compacted 0 (ex_log <| commitIndex := 2 |>).
Proof. split; done. Qed.

Lemma Compact_keeps_suffix_witness :
  let l := ex_log <| commitIndex := 2 |> in
  let l' := MkLog [MkEntry 1 2 []; MkEntry 2 3 [x63]] 2 in
  compacted 2 l' ∧ l'.(commitIndex) = l.(commitIndex) ∧ CompactedIndex l' = 2 ∧
  2 ≤ l.(commitIndex) ∧ EntrySince l' 3 = EntrySince l 3.
Proof. apply (Compact_keeps_suffix 0 _ 2 _ 3 ex_log_compacted); done. Defined.

Lemma Compact_refuses_witness :
  (2 < 3 ∨ 3 ≤ 0) ↔
  Compact (ex_log <| commitIndex := 2 |>) 3 =
    Ret (ex_log <| commitIndex := 2 |>, Some ErrIndexOutOfRange).
Proof. apply (Compact_refuses 0 _ 3 ex_log_compacted). done. Defined.

Lemma iterator_visits_all_witness :
  let l := ex_log <| commitIndex := 2 |> in
  iterate 4 l Iter = Ret (drop 1 l.(entries)) ∧
  ∃ it, Seek l 2 = Ret it ∧ iter_Index l it = Ret 2 ∧ iterate 4 l it = Ret (drop 2 l.(entries)).
Proof. apply (iterator_visits_all 0 _ 2 ex_log_compacted); done. Defined.

Lemma stats_correct_witness :
  ∃ s d, ComputeStats ex_log = Ret s ∧ TermDistribution ex_log = Ret d ∧
    s.(EntryCount) = Len ex_log ∧ s.(st_CommitIndex) = 1 ∧
    s.(LastIndex) = lastIndex ex_log ∧ s.(LastTerm) = lastTerm ex_log ∧
    s.(TotalBytes) = Z.of_nat (length (concat (map Command (drop 1 ex_log.(entries))))) ∧
    ∀ t, default 0%Z (d !! t) =
      Z.of_nat (length (filter (λ e, Term e = t) (drop 1 ex_log.(entries)))).
Proof. apply (stats_correct ex_log). apply ex_log_wf. Defined.
