(* ===== verification/Message.v ===== *)
(** * Raft messages (internal/node/node.go lines 57-118, internal/node/message.go)

    One record for the four RPCs, its constructors, printing and classification.
    [MsgOther] stands for the integers that are none of the four constants, which [Step]
    and [String] send to their default branch. *)
From S2P Require Import Prelude Log.
Open Scope N_scope.

Inductive MessageType :=
  | MsgRequestVote
  | MsgRequestVoteResp
  | MsgAppendEntries
  | MsgAppendEntriesResp
  | MsgOther (ty : Z).

#[export] Instance MessageType_eq_dec : EqDecision MessageType.
Proof. solve_decision. Defined.

Record Message := MkMessage {
  Type_ : MessageType;
  From : N;
  To : N;
  Term : N;
  LastLogIndex : N;
  LastLogTerm : N;
  Granted : bool;
  PrevLogIndex : N;
  PrevLogTerm : N;
  Entries : list Entry;
  LeaderCommit : N;
  Success : bool;
  MatchIndex : N;
}.

#[export] Instance Message_eq_dec : EqDecision Message.
Proof. solve_decision. Defined.

Definition NewRequestVote (from to term lastIndex lastTerm : N) : Message :=
  {| Type_ := MsgRequestVote; From := from; To := to; Term := term;
     LastLogIndex := lastIndex; LastLogTerm := lastTerm; Granted := false;
     PrevLogIndex := 0; PrevLogTerm := 0; Entries := []; LeaderCommit := 0;
     Success := false; MatchIndex := 0 |}.

Definition NewRequestVoteResp (from to term : N) (granted : bool) : Message :=
  {| Type_ := MsgRequestVoteResp; From := from; To := to; Term := term;
     LastLogIndex := 0; LastLogTerm := 0; Granted := granted;
     PrevLogIndex := 0; PrevLogTerm := 0; Entries := []; LeaderCommit := 0;
     Success := false; MatchIndex := 0 |}.

Definition NewAppendEntries (from to term prevIndex prevTerm leaderCommit : N)
    (es : list Entry) : Message :=
  {| Type_ := MsgAppendEntries; From := from; To := to; Term := term;
     LastLogIndex := 0; LastLogTerm := 0; Granted := false;
     PrevLogIndex := prevIndex; PrevLogTerm := prevTerm; Entries := es;
     LeaderCommit := leaderCommit; Success := false; MatchIndex := 0 |}.

Definition NewAppendEntriesResp (from to term : N) (success : bool) (matchIndex : N) : Message :=
  {| Type_ := MsgAppendEntriesResp; From := from; To := to; Term := term;
     LastLogIndex := 0; LastLogTerm := 0; Granted := false;
     PrevLogIndex := 0; PrevLogTerm := 0; Entries := []; LeaderCommit := 0;
     Success := success; MatchIndex := matchIndex |}.

(** ** message.go *)

(** [%v] of a [bool]. *)
Definition fmt_bool (b : bool) : string := if b then "true" else "false".

(** The integer behind a [MessageType], for the default branch of [String]. *)
Definition type_int (ty : MessageType) : Z :=
  match ty with
  | MsgRequestVote => 0
  | MsgRequestVoteResp => 1
  | MsgAppendEntries => 2
  | MsgAppendEntriesResp => 3
  | MsgOther z => z
  end.

Definition String_ (m : Message) : string :=
  match m.(Type_) with
  | MsgRequestVote =>
    "[RequestVote from=" +:+ pretty m.(From) +:+ " to=" +:+ pretty m.(To) +:+
    " term=" +:+ pretty m.(Term) +:+ " lastIdx=" +:+ pretty m.(LastLogIndex) +:+
    " lastTerm=" +:+ pretty m.(LastLogTerm) +:+ "]"
  | MsgRequestVoteResp =>
    "[RequestVoteResp from=" +:+ pretty m.(From) +:+ " to=" +:+ pretty m.(To) +:+
    " term=" +:+ pretty m.(Term) +:+ " granted=" +:+ fmt_bool m.(Granted) +:+ "]"
  | MsgAppendEntries =>
    "[AppendEntries from=" +:+ pretty m.(From) +:+ " to=" +:+ pretty m.(To) +:+
    " term=" +:+ pretty m.(Term) +:+ " prevIdx=" +:+ pretty m.(PrevLogIndex) +:+
    " entries=" +:+ pretty (lenN m.(Entries)) +:+ " commit=" +:+ pretty m.(LeaderCommit) +:+ "]"
  | MsgAppendEntriesResp =>
    "[AppendEntriesResp from=" +:+ pretty m.(From) +:+ " to=" +:+ pretty m.(To) +:+
    " term=" +:+ pretty m.(Term) +:+ " success=" +:+ fmt_bool m.(Success) +:+
    " match=" +:+ pretty m.(MatchIndex) +:+ "]"
  | MsgOther z =>
    "[Message type=" +:+ pretty z +:+ " from=" +:+ pretty m.(From) +:+
    " to=" +:+ pretty m.(To) +:+ "]"
  end.

Definition IsRequest (m : Message) : bool :=
  bool_decide (m.(Type_) = MsgRequestVote) || bool_decide (m.(Type_) = MsgAppendEntries).

Definition IsResponse (m : Message) : bool :=
  bool_decide (m.(Type_) = MsgRequestVoteResp) ||
  bool_decide (m.(Type_) = MsgAppendEntriesResp).

Definition IsHeartbeat (m : Message) : bool :=
  bool_decide (m.(Type_) = MsgAppendEntries) && (length m.(Entries) =? 0)%nat.
