(* ===== verification/Node.v ===== *)
(** * One Raft peer (internal/node/node.go)

    The [Node] record has the fields of the struct and one definition per method.  A method
    that mutates the node takes it and returns the new one next to its result; the result
    type [go] carries the panics of the slice accesses inside the log; [node_ok] in [NodeFacts]
    is the invariant under which [Refine] shows that none happens.  The [RNG] interface is a
    typeclass, and the contract of [Intn] is [LawfulRNG].  This file has definitions only:
    single calls are the subject of [NodeSpec], executions of [Network]. *)
From S2P Require Import Prelude Log LogPersist Message.
From Stdlib Require Import Strings.Byte.
Open Scope N_scope.

Definition ErrNotLeader : error := NewError "node: not leader".
Definition ErrNodeCrashed : error := NewError "node: node is crashed".

(** [StateOther] stands for the integers that are none of the three constants. *)
Inductive State :=
  | StateFollower
  | StateCandidate
  | StateLeader
  | StateOther (s : Z).

#[export] Instance State_eq_dec : EqDecision State.
Proof. solve_decision. Defined.

Definition State_String (s : State) : string :=
  match s with
  | StateFollower => "follower"
  | StateCandidate => "candidate"
  | StateLeader => "leader"
  | StateOther _ => "unknown"
  end.

Class RNG (R : Type) := Intn : R → Z → Z * R.

(** The documented contract of [Intn]: a value in [0, n) for a positive [n]. *)
Class LawfulRNG (R : Type) `{RNG R} :=
  Intn_range : ∀ (r : R) n, (0 < n)%Z → (0 ≤ fst (Intn r n) < n)%Z.

Record Node (R : Type) := MkNode {
  id : N;
  peers : list N;
  currentTerm : N;
  votedFor : N;
  raftLog : Log;
  state : State;
  leaderID : N;
  rng : R;
  electionTimeout : Z;
  electionElapsed : Z;
  heartbeatElapsed : Z;
  votesGranted : gmap N bool;
  nextIndex : gmap N N;
  matchIndex : gmap N N;
  crashed : bool;
  events : list string;
  electionTimeoutMin : Z;
  electionTimeoutMax : Z;
  heartbeatInterval : Z;
}.
Arguments id {R} _.
Arguments peers {R} _.
Arguments currentTerm {R} _.
Arguments votedFor {R} _.
Arguments raftLog {R} _.
Arguments state {R} _.
Arguments leaderID {R} _.
Arguments rng {R} _.
Arguments electionTimeout {R} _.
Arguments electionElapsed {R} _.
Arguments heartbeatElapsed {R} _.
Arguments votesGranted {R} _.
Arguments nextIndex {R} _.
Arguments matchIndex {R} _.
Arguments crashed {R} _.
Arguments events {R} _.
Arguments electionTimeoutMin {R} _.
Arguments electionTimeoutMax {R} _.
Arguments heartbeatInterval {R} _.
Arguments MkNode {R} _ _ _ _ _ _ _ _ _ _ _ _ _ _ _ _ _ _ _.

#[export] Instance set_currentTerm {R} : Setter (R:=Node R) currentTerm := λ v n,
  MkNode (id n) (peers n) v (votedFor n) (raftLog n) (state n) (leaderID n) (rng n)
    (electionTimeout n) (electionElapsed n) (heartbeatElapsed n) (votesGranted n)
    (nextIndex n) (matchIndex n) (crashed n) (events n) (electionTimeoutMin n)
    (electionTimeoutMax n) (heartbeatInterval n).
#[export] Instance set_votedFor {R} : Setter (R:=Node R) votedFor := λ v n,
  MkNode (id n) (peers n) (currentTerm n) v (raftLog n) (state n) (leaderID n) (rng n)
    (electionTimeout n) (electionElapsed n) (heartbeatElapsed n) (votesGranted n)
    (nextIndex n) (matchIndex n) (crashed n) (events n) (electionTimeoutMin n)
    (electionTimeoutMax n) (heartbeatInterval n).
#[export] Instance set_raftLog {R} : Setter (R:=Node R) raftLog := λ v n,
  MkNode (id n) (peers n) (currentTerm n) (votedFor n) v (state n) (leaderID n) (rng
    n) (electionTimeout n) (electionElapsed n) (heartbeatElapsed n) (votesGranted n)
    (nextIndex n) (matchIndex n) (crashed n) (events n) (electionTimeoutMin n)
    (electionTimeoutMax n) (heartbeatInterval n).
#[export] Instance set_state {R} : Setter (R:=Node R) state := λ v n,
  MkNode (id n) (peers n) (currentTerm n) (votedFor n) (raftLog n) v (leaderID n) (rng
    n) (electionTimeout n) (electionElapsed n) (heartbeatElapsed n) (votesGranted n)
    (nextIndex n) (matchIndex n) (crashed n) (events n) (electionTimeoutMin n)
    (electionTimeoutMax n) (heartbeatInterval n).
#[export] Instance set_leaderID {R} : Setter (R:=Node R) leaderID := λ v n,
  MkNode (id n) (peers n) (currentTerm n) (votedFor n) (raftLog n) (state n) v (rng n)
    (electionTimeout n) (electionElapsed n) (heartbeatElapsed n) (votesGranted n)
    (nextIndex n) (matchIndex n) (crashed n) (events n) (electionTimeoutMin n)
    (electionTimeoutMax n) (heartbeatInterval n).
#[export] Instance set_rng {R} : Setter (R:=Node R) rng := λ v n,
  MkNode (id n) (peers n) (currentTerm n) (votedFor n) (raftLog n) (state n) (leaderID
    n) v (electionTimeout n) (electionElapsed n) (heartbeatElapsed n) (votesGranted n)
    (nextIndex n) (matchIndex n) (crashed n) (events n) (electionTimeoutMin n)
    (electionTimeoutMax n) (heartbeatInterval n).
#[export] Instance set_electionTimeout {R} : Setter (R:=Node R) electionTimeout := λ v n,
  MkNode (id n) (peers n) (currentTerm n) (votedFor n) (raftLog n) (state n) (leaderID
    n) (rng n) v (electionElapsed n) (heartbeatElapsed n) (votesGranted n) (nextIndex
    n) (matchIndex n) (crashed n) (events n) (electionTimeoutMin n)
    (electionTimeoutMax n) (heartbeatInterval n).
#[export] Instance set_electionElapsed {R} : Setter (R:=Node R) electionElapsed := λ v n,
  MkNode (id n) (peers n) (currentTerm n) (votedFor n) (raftLog n) (state n) (leaderID
    n) (rng n) (electionTimeout n) v (heartbeatElapsed n) (votesGranted n) (nextIndex
    n) (matchIndex n) (crashed n) (events n) (electionTimeoutMin n)
    (electionTimeoutMax n) (heartbeatInterval n).
#[export] Instance set_heartbeatElapsed {R} : Setter (R:=Node R) heartbeatElapsed := λ v n,
  MkNode (id n) (peers n) (currentTerm n) (votedFor n) (raftLog n) (state n) (leaderID
    n) (rng n) (electionTimeout n) (electionElapsed n) v (votesGranted n) (nextIndex
    n) (matchIndex n) (crashed n) (events n) (electionTimeoutMin n)
    (electionTimeoutMax n) (heartbeatInterval n).
#[export] Instance set_votesGranted {R} : Setter (R:=Node R) votesGranted := λ v n,
  MkNode (id n) (peers n) (currentTerm n) (votedFor n) (raftLog n) (state n) (leaderID
    n) (rng n) (electionTimeout n) (electionElapsed n) (heartbeatElapsed n) v
    (nextIndex n) (matchIndex n) (crashed n) (events n) (electionTimeoutMin n)
    (electionTimeoutMax n) (heartbeatInterval n).
#[export] Instance set_nextIndex {R} : Setter (R:=Node R) nextIndex := λ v n,
  MkNode (id n) (peers n) (currentTerm n) (votedFor n) (raftLog n) (state n) (leaderID
    n) (rng n) (electionTimeout n) (electionElapsed n) (heartbeatElapsed n)
    (votesGranted n) v (matchIndex n) (crashed n) (events n) (electionTimeoutMin n)
    (electionTimeoutMax n) (heartbeatInterval n).
#[export] Instance set_matchIndex {R} : Setter (R:=Node R) matchIndex := λ v n,
  MkNode (id n) (peers n) (currentTerm n) (votedFor n) (raftLog n) (state n) (leaderID
    n) (rng n) (electionTimeout n) (electionElapsed n) (heartbeatElapsed n)
    (votesGranted n) (nextIndex n) v (crashed n) (events n) (electionTimeoutMin n)
    (electionTimeoutMax n) (heartbeatInterval n).
#[export] Instance set_crashed {R} : Setter (R:=Node R) crashed := λ v n,
  MkNode (id n) (peers n) (currentTerm n) (votedFor n) (raftLog n) (state n) (leaderID
    n) (rng n) (electionTimeout n) (electionElapsed n) (heartbeatElapsed n)
    (votesGranted n) (nextIndex n) (matchIndex n) v (events n) (electionTimeoutMin n)
    (electionTimeoutMax n) (heartbeatInterval n).
#[export] Instance set_events {R} : Setter (R:=Node R) events := λ v n,
  MkNode (id n) (peers n) (currentTerm n) (votedFor n) (raftLog n) (state n) (leaderID
    n) (rng n) (electionTimeout n) (electionElapsed n) (heartbeatElapsed n)
    (votesGranted n) (nextIndex n) (matchIndex n) (crashed n) v (electionTimeoutMin n)
    (electionTimeoutMax n) (heartbeatInterval n).

(** [m[k]] with the zero value for a missing key. *)
Definition get_vote (m : gmap N bool) (k : N) : bool := default false (m !! k).
Definition get_index (m : gmap N N) (k : N) : N := default 0 (m !! k).

Section node.
  Context {R : Type} `{RNG R}.
  Implicit Types (n : Node R) (m : Message).

(** ** Timers, events, quorum *)

Definition addEvent n (ev : string) : Node R := n <| events := n.(events) ++ [ev] |>.

Definition resetElectionTimer n : Node R :=
  let n := n <| electionElapsed := 0%Z |> in
  let span := wrap_i64 (n.(electionTimeoutMax) - n.(electionTimeoutMin) + 1) in
  let span := if (span <? 1)%Z then 1%Z else span in
  let '(v, r) := Intn n.(rng) span in
  let n := n <| rng := r |> in
  n <| electionTimeout := wrap_i64 (n.(electionTimeoutMin) + v) |>.

Definition New (id : N) (peers : list N) (r : R) : Node R :=
  resetElectionTimer
    {| id := id; peers := peers; currentTerm := 0; votedFor := 0; raftLog := Log.New;
       state := StateFollower; leaderID := 0; rng := r; electionTimeout := 0;
       electionElapsed := 0; heartbeatElapsed := 0; votesGranted := ∅; nextIndex := ∅;
       matchIndex := ∅; crashed := false; events := []; electionTimeoutMin := 10;
       electionTimeoutMax := 20; heartbeatInterval := 2 |}.

Definition majority n : Z :=
  let total := (Z.of_nat (length n.(peers)) + 1)%Z in (total / 2 + 1)%Z.

Definition countVotes n : Z :=
  let c := if get_vote n.(votesGranted) n.(id) then 1%Z else 0%Z in
  foldl (λ c p, if get_vote n.(votesGranted) p then (c + 1)%Z else c) c n.(peers).

Definition isUpToDate n (lastIndex lastTerm : N) : go bool :=
  '(myIdx, myTerm) ← Last n.(raftLog);
  if negb (lastTerm =? myTerm) then Ret (myTerm <? lastTerm)
  else Ret (myIdx <=? lastIndex).

(** ** Accessors *)

Definition CommitIndex n : N := Log.CommitIndex n.(raftLog).

Definition AllEntries n : go (list Entry) :=
  '(lastIdx, _) ← Last n.(raftLog);
  Slice n.(raftLog) 1 (lastIdx +u 1).

Definition CommittedEntries n : go (list Entry) := Log.CommittedEntries n.(raftLog).

Definition DrainEvents n : Node R * list string := (n <| events := [] |>, n.(events)).

(** ** Replication and elections *)

(** The body of the loop of [broadcastAppendEntries] for the peer [p]. *)
Definition appendEntriesFor n (lastIdx commit p : N) : go Message :=
  let ni := get_index n.(nextIndex) p in
  '(prevIndex, prevTerm) ←
    (if 1 <? ni then
       let prevIndex := ni -u 1 in
       match TermAt n.(raftLog) prevIndex with
       | Ret t => Ret (prevIndex, t)
       | Throw _ => Ret (0, 0)
       | Panic => Panic
       end
     else Ret (0, 0));
  es ← (if ni <=? lastIdx then Slice n.(raftLog) ni (lastIdx +u 1) else Ret []);
  Ret (NewAppendEntries n.(id) p n.(currentTerm) prevIndex prevTerm commit es).

Definition broadcastAppendEntries n : go (list Message) :=
  '(lastIdx, _) ← Last n.(raftLog);
  let commit := Log.CommitIndex n.(raftLog) in
  go_map (appendEntriesFor n lastIdx commit) n.(peers).

Definition startElection n : go (Node R * list Message) :=
  let n := n <| currentTerm := n.(currentTerm) +u 1 |> in
  let n := n <| state := StateCandidate |> in
  let n := n <| votedFor := n.(id) |> in
  let n := n <| votesGranted := {[n.(id) := true]} |> in
  let n := n <| leaderID := 0 |> in
  let n := resetElectionTimer n in
  let n := addEvent n ("node " +:+ pretty n.(id) +:+ " started election for term " +:+
                       pretty n.(currentTerm)) in
  '(lastIdx, lastTerm) ← Last n.(raftLog);
  Ret (n, map (λ p, NewRequestVote n.(id) p n.(currentTerm) lastIdx lastTerm) n.(peers)).

Definition becomeLeader n : go (Node R * list Message) :=
  let n := n <| state := StateLeader |> in
  let n := n <| leaderID := n.(id) |> in
  let n := resetElectionTimer n in
  let n := n <| heartbeatElapsed := 0%Z |> in
  '(lastIdx, _) ← Last n.(raftLog);
  let n := n <| nextIndex := ∅ |> in
  let n := n <| matchIndex := ∅ |> in
  let n := foldl (λ n p, n <| nextIndex := <[p := lastIdx +u 1]> n.(nextIndex) |>
                           <| matchIndex := <[p := 0]> n.(matchIndex) |>) n n.(peers) in
  let n := addEvent n ("node " +:+ pretty n.(id) +:+ " became leader for term " +:+
                       pretty n.(currentTerm)) in
  out ← broadcastAppendEntries n;
  Ret (n, out).

Definition Tick n : go (Node R * list Message) :=
  if n.(crashed) then Ret (n, [])
  else
    let n := n <| electionElapsed := wrap_i64 (n.(electionElapsed) + 1) |> in
    match n.(state) with
    | StateFollower | StateCandidate =>
      if (n.(electionTimeout) <=? n.(electionElapsed))%Z then startElection n
      else Ret (n, [])
    | StateLeader =>
      let n := n <| heartbeatElapsed := wrap_i64 (n.(heartbeatElapsed) + 1) |> in
      if (n.(heartbeatInterval) <=? n.(heartbeatElapsed))%Z then
        let n := n <| heartbeatElapsed := 0%Z |> in
        out ← broadcastAppendEntries n;
        Ret (n, out)
      else Ret (n, [])
    | StateOther _ => Ret (n, [])
    end.

Definition ReplicateNow n : go (list Message) :=
  if negb (bool_decide (n.(state) = StateLeader)) || n.(crashed) then Ret []
  else broadcastAppendEntries n.

Definition stepDown n (term : N) : Node R :=
  let n := n <| currentTerm := term |> in
  let n := n <| state := StateFollower |> in
  let n := n <| votedFor := 0 |> in
  let n := n <| leaderID := 0 |> in
  let n := n <| votesGranted := ∅ |> in
  let n := n <| nextIndex := ∅ |> in
  let n := n <| matchIndex := ∅ |> in
  let n := resetElectionTimer n in
  addEvent n ("node " +:+ pretty n.(id) +:+ " stepped down to follower (term " +:+
              pretty n.(currentTerm) +:+ ")").

Definition replicatedOnMajority n (idx : N) : bool :=
  let c := foldl (λ c p, if idx <=? get_index n.(matchIndex) p then (c + 1)%Z else c)
             1%Z n.(peers) in
  (majority n <=? c)%Z.

Definition committedEvent n (idx : N) : string :=
  "node " +:+ pretty n.(id) +:+ " committed index " +:+ pretty idx +:+ " (term " +:+
  pretty n.(currentTerm) +:+ ")".

(** The loop of [advanceCommit]: [idx] runs from the last index down, as long as it is
    above the commit index. *)
Fixpoint advanceCommit_from n (idx : nat) : go (Node R) :=
  match idx with
  | O => Ret n
  | S below =>
    let i := N.of_nat idx in
    if i <=? Log.CommitIndex n.(raftLog) then Ret n
    else
      match TermAt n.(raftLog) i with
      | Panic => Panic
      | Throw _ => Ret n
      | Ret term =>
        if negb (term =? n.(currentTerm)) then advanceCommit_from n below
        else if replicatedOnMajority n i then
          '(l, err) ← CommitTo n.(raftLog) i;
          let n := n <| raftLog := l |> in
          Ret (match err with
               | None => addEvent n (committedEvent n i)
               | Some _ => n
               end)
        else advanceCommit_from n below
      end
  end.

Definition advanceCommit n : go (Node R) :=
  '(lastIdx, _) ← Last n.(raftLog);
  advanceCommit_from n (N.to_nat lastIdx).

(** ** Message handlers *)

Definition handleRequestVote n m : go (Node R * list Message) :=
  if m.(Message.Term) <? n.(currentTerm) then
    Ret (n, [NewRequestVoteResp n.(id) m.(From) n.(currentTerm) false])
  else
    let n :=
      if n.(currentTerm) <? m.(Message.Term) then
        n <| currentTerm := m.(Message.Term) |> <| votedFor := 0 |>
          <| state := StateFollower |> <| leaderID := 0 |>
      else n in
    upToDate ←
      (if (n.(votedFor) =? 0) || (n.(votedFor) =? m.(From)) then
         isUpToDate n m.(LastLogIndex) m.(LastLogTerm)
       else Ret false);
    let '(n, grant) :=
      if upToDate : bool then (resetElectionTimer (n <| votedFor := m.(From) |>), true)
      else (n, false) in
    Ret (n, [NewRequestVoteResp n.(id) m.(From) n.(currentTerm) grant]).

Definition handleRequestVoteResp n m : go (Node R * list Message) :=
  if n.(currentTerm) <? m.(Message.Term) then Ret (stepDown n m.(Message.Term), [])
  else if (m.(Message.Term) =? n.(currentTerm)) && bool_decide (n.(state) = StateCandidate) then
    let n := if m.(Granted)
             then n <| votesGranted := <[m.(From) := true]> n.(votesGranted) |> else n in
    if (majority n <=? countVotes n)%Z then becomeLeader n
    else Ret (n, [])
  else Ret (n, []).

Definition deepCopyEntries (es : list Entry) : list Entry :=
  map (λ e, MkEntry e.(Log.Term) e.(Log.Index) e.(Command)) es.

(** The commit step at the end of [handleAppendEntries]. *)
Definition followerCommit n (leaderCommit lastIdx : N) : go (Node R) :=
  if Log.CommitIndex n.(raftLog) <? leaderCommit then
    let newCommit := if lastIdx <? leaderCommit then lastIdx else leaderCommit in
    '(l, err) ← CommitTo n.(raftLog) newCommit;
    let n := n <| raftLog := l |> in
    Ret (match err with
         | None => if 0 <? newCommit
                   then addEvent n (committedEvent n (Log.CommitIndex n.(raftLog))) else n
         | Some _ => n
         end)
  else Ret n.

Definition handleAppendEntries n m : go (Node R * list Message) :=
  if m.(Message.Term) <? n.(currentTerm) then
    Ret (n, [NewAppendEntriesResp n.(id) m.(From) n.(currentTerm) false 0])
  else
    let n :=
      if negb (bool_decide (n.(state) = StateFollower)) || (n.(currentTerm) <? m.(Message.Term))
      then n <| currentTerm := m.(Message.Term) |> <| state := StateFollower |>
             <| votedFor := 0 |>
      else n in
    let n := n <| leaderID := m.(From) |> in
    let n := resetElectionTimer n in
    matches ← MatchesPrevLogTerm n.(raftLog) m.(PrevLogIndex) m.(PrevLogTerm);
    if negb matches then
      '(lastIdx, _) ← Last n.(raftLog);
      Ret (n, [NewAppendEntriesResp n.(id) m.(From) n.(currentTerm) false lastIdx])
    else
      '(l, err) ←
        (if (0 <? length m.(Message.Entries))%nat
         then Append n.(raftLog) (deepCopyEntries m.(Message.Entries))
         else Ret (n.(raftLog), None));
      let n := n <| raftLog := l |> in
      '(lastIdx, _) ← Last n.(raftLog);
      match err with
      | Some _ =>
        Ret (n, [NewAppendEntriesResp n.(id) m.(From) n.(currentTerm) false lastIdx])
      | None =>
        n ← followerCommit n m.(LeaderCommit) lastIdx;
        Ret (n, [NewAppendEntriesResp n.(id) m.(From) n.(currentTerm) true lastIdx])
      end.

Definition handleAppendEntriesResp n m : go (Node R * list Message) :=
  if n.(currentTerm) <? m.(Message.Term) then Ret (stepDown n m.(Message.Term), [])
  else if (m.(Message.Term) =? n.(currentTerm)) && bool_decide (n.(state) = StateLeader) then
    if m.(Success) then
      let n := n <| matchIndex := <[m.(From) := m.(MatchIndex)]> n.(matchIndex) |> in
      let n := n <| nextIndex := <[m.(From) := m.(MatchIndex) +u 1]> n.(nextIndex) |> in
      n ← advanceCommit n;
      Ret (n, [])
    else if 1 <? get_index n.(nextIndex) m.(From) then
      Ret (n <| nextIndex :=
             <[m.(From) := get_index n.(nextIndex) m.(From) -u 1]> n.(nextIndex) |>, [])
    else Ret (n, [])
  else Ret (n, []).

Definition Step n m : go (Node R * list Message) :=
  if n.(crashed) then Ret (n, [])
  else
    match m.(Type_) with
    | MsgRequestVote => handleRequestVote n m
    | MsgRequestVoteResp => handleRequestVoteResp n m
    | MsgAppendEntries => handleAppendEntries n m
    | MsgAppendEntriesResp => handleAppendEntriesResp n m
    | MsgOther _ => Ret (n, [])
    end.

(** ** Client commands, crash and restart *)

Definition Propose n (cmd : list byte) : go (Node R * option error) :=
  if n.(crashed) then Ret (n, Some ErrNodeCrashed)
  else if negb (bool_decide (n.(state) = StateLeader)) then Ret (n, Some ErrNotLeader)
  else
    '(lastIdx, _) ← Last n.(raftLog);
    let e := MkEntry n.(currentTerm) (lastIdx +u 1) cmd in
    '(l, err) ← Append n.(raftLog) [e];
    let n := n <| raftLog := l |> in
    match err with
    | Some err => Ret (n, Some err)
    | None =>
      Ret (addEvent n ("node " +:+ pretty n.(id) +:+ " proposed command at index " +:+
                       pretty e.(Log.Index) +:+ " (term " +:+ pretty n.(currentTerm) +:+ ")"),
           None)
    end.

Definition Crash n : Node R * option error :=
  if n.(crashed) then (n, None)
  else
    (n <| crashed := true |> <| state := StateFollower |> <| leaderID := 0 |>
       <| votesGranted := ∅ |> <| nextIndex := ∅ |> <| matchIndex := ∅ |>
       <| electionElapsed := 0%Z |>, None).

Definition persisted n : go PersistedState :=
  es ← AllEntries n; Ret (MkPersistedState n.(currentTerm) n.(votedFor) es).

Definition Persist n : go (list byte) := s ← persisted n; Ret (Serialize s).

Definition Restart n : go (Node R * option error) :=
  if negb n.(crashed) then Ret (n, None)
  else
    s ← persisted n;
    match Deserialize (Serialize s) with
    | Panic => Panic
    | Throw err => Ret (n, Some err)
    | Ret restored =>
      let n := n <| raftLog := Log.New |> in
      '(l, err) ← Append n.(raftLog) restored.(LogPersist.Entries);
      let n := n <| raftLog := l |> in
      match err with
      | Some err => Ret (n, Some err)
      | None =>
        let n := n <| currentTerm := restored.(CurrentTerm) |>
                   <| votedFor := restored.(VotedFor) |>
                   <| state := StateFollower |> <| leaderID := 0 |>
                   <| votesGranted := ∅ |> <| nextIndex := ∅ |> <| matchIndex := ∅ |>
                   <| crashed := false |> <| electionElapsed := 0%Z |> in
        let n := resetElectionTimer n in
        Ret (addEvent n ("node " +:+ pretty n.(id) +:+ " restarted (term " +:+
                         pretty n.(currentTerm) +:+ ", log length " +:+
                         pretty (Len n.(raftLog)) +:+ ")"), None)
      end
    end.

End node.

(** Accessors with names of their own: [Get.Term n] is Go's [n.Term()]. *)
Module Get.

Definition ID {R} (n : Node R) : N := n.(id).
Definition State_ {R} (n : Node R) : State := n.(state).
Definition Term {R} (n : Node R) : N := n.(currentTerm).
Definition LeaderID {R} (n : Node R) : N := n.(leaderID).
Definition Crashed {R} (n : Node R) : bool := n.(crashed).
Definition RaftLog {R} (n : Node R) : Log := n.(raftLog).

End Get.

(** A random source for concrete runs: always the same value. *)
Definition constant_rng : RNG Z := λ r n, ((r mod n)%Z, r).
Lemma constant_rng_lawful : @LawfulRNG Z constant_rng.
Proof. intros r n Hn. cbn. by apply Z.mod_pos_bound. Qed.
