(* ===== verification/Cluster.v ===== *)
(** * The simulated cluster (internal/cluster/cluster.go, partition.go)

    [Cluster] has the nodes in order, a queue per node id and the size.  Go visits the
    keys of [c.queues] in an unspecified order: [DeliverAll] takes the visiting order as an
    argument and [visit_order] says which orders are possible.  A queue is read when it is
    visited and set to nil afterwards, so what a node sends to itself while its own queue
    is processed is lost, as in the code.  A pointer [*node.Node] is represented by the
    node's position in [nodes]; a call through it updates that position. *)
From S2P Require Import Prelude Log Message Node.
From Stdlib Require Import Strings.Byte.
Open Scope N_scope.

Record Cluster (R : Type) := MkCluster {
  nodes : list (Node R);
  queues : gmap N (list Message);
  size : Z;
}.
Arguments MkCluster {R} _ _ _.
Arguments nodes {R} _.
Arguments queues {R} _.
Arguments size {R} _.
#[export] Instance set_nodes {R} : Setter (R:=Cluster R) nodes :=
  λ v c, MkCluster v (queues c) (size c).
#[export] Instance set_queues {R} : Setter (R:=Cluster R) queues :=
  λ v c, MkCluster (nodes c) v (size c).

Definition queue_of (q : gmap N (list Message)) (i : N) : list Message := default [] (q !! i).

Section cluster.
  Context {R : Type} `{RNG R}.
  (** [node.NewSeededRNG]: the seeded source is supplied by the caller. *)
  Variable NewSeededRNG : Z → R.
  Implicit Types (c : Cluster R).

(** [peers[i] = uint64(i + 1)] for [i] below [n]. *)
Definition peer_ids (n : nat) : list N := map (λ i, N.of_nat (i + 1)) (seq 0 n).

Definition New (n : nat) (seed : Z) : Cluster R :=
  let peers := peer_ids n in
  {| nodes := map (λ i, Node.New (N.of_nat (i + 1)) peers
                          (NewSeededRNG (wrap_i64 (seed + Z.of_nat i)))) (seq 0 n);
     queues := list_to_map (map (λ id, (id, [])) peers);
     size := Z.of_nat n |}.

Definition route c (msgs : list Message) : Cluster R :=
  foldl (λ c m, c <| queues := <[m.(To) := queue_of c.(queues) m.(To) ++ [m]]> c.(queues) |>)
    c msgs.

(** [nodeByID]: the first position whose node has the id. *)
Definition nodeByID c (id : N) : option (nat * Node R) :=
  list_find (λ n, n.(Node.id) = id) c.(nodes).

Definition put_node c (pos : nat) (n : Node R) : Cluster R :=
  c <| nodes := <[pos := n]> c.(nodes) |>.

(** The loop of [TickAll] over the positions [0 .. len-1]. *)
Fixpoint tick_from c (pos k : nat) : go (Cluster R) :=
  match k with
  | O => Ret c
  | S k =>
    match c.(nodes) !! pos with
    | None => Panic
    | Some n =>
      '(n, msgs) ← Tick n;
      tick_from (route (put_node c pos n) msgs) (S pos) k
    end
  end.

Definition TickAll c : go (Cluster R) := tick_from c 0 (length c.(nodes)).

(** The inner loop of [DeliverAll]: the messages of one queue, in order. *)
Fixpoint deliver_msgs c (pos : nat) (msgs : list Message) : go (Cluster R) :=
  match msgs with
  | [] => Ret c
  | m :: msgs =>
    match c.(nodes) !! pos with
    | None => Panic
    | Some n =>
      '(n, replies) ← Step n m;
      deliver_msgs (route (put_node c pos n) replies) pos msgs
    end
  end.

(** The body of the outer loop for the key [id]. *)
Definition deliver_id c (id : N) : go (Cluster R) :=
  let msgs := queue_of c.(queues) id in
  match msgs with
  | [] => Ret c
  | _ =>
    match nodeByID c id with
    | None => Ret (c <| queues := <[id := []]> c.(queues) |>)
    | Some (pos, _) =>
      c ← deliver_msgs c pos msgs;
      Ret (c <| queues := <[id := []]> c.(queues) |>)
    end
  end.

Fixpoint DeliverAll c (order : list N) : go (Cluster R) :=
  match order with
  | [] => Ret c
  | id :: order => c ← deliver_id c id; DeliverAll c order
  end.

(** A possible order of [range c.queues]: every key once.  Routing only adds messages to
    keys of the cluster's own nodes, so no key appears during the loop. *)
Definition visit_order c (order : list N) : Prop :=
  NoDup order ∧ ∀ id, id ∈ order ↔ is_Some (c.(queues) !! id).

Definition Leader c : N :=
  match list_find (λ n, n.(state) = StateLeader) c.(nodes) with
  | Some (_, n) => n.(Node.id)
  | None => 0
  end.

Definition Propose c (cmd : list byte) : go (Cluster R * option error) :=
  let leader := Leader c in
  if leader =? 0 then Ret (c, Some ErrNotLeader)
  else
    match nodeByID c leader with
    | None => Panic
    | Some (pos, n) =>
      '(n, err) ← Node.Propose n cmd;
      let c := put_node c pos n in
      match err with
      | Some err => Ret (c, Some err)
      | None =>
        msgs ← ReplicateNow n;
        Ret (route c msgs, None)
      end
    end.

Definition CommittedEntries c (id : N) : go (list Entry) :=
  match nodeByID c id with
  | None => Ret []
  | Some (_, n) => Node.CommittedEntries n
  end.

Definition DrainAllEvents c : Cluster R * gmap N (list string) :=
  (c <| nodes := map (λ n, (DrainEvents n).1) c.(nodes) |>,
   foldl (λ evs n, let e := (DrainEvents n).2 in
                   if (0 <? length e)%nat then <[n.(Node.id) := e]> evs else evs)
     ∅ c.(nodes)).

Lemma route_nodes c out : (route c out).(nodes) = c.(nodes).
Proof. revert c. induction out as [|m out IH]; intros c; [done|]. by etrans; [apply IH|]. Qed.
End cluster.

(** Accessors with names of their own: [Get.Size c] is Go's [c.Size()]. *)
Module Get.

Definition Size {R} (c : Cluster R) : Z := c.(size).
Definition Node {R} (c : Cluster R) (id : N) : option (Node R) := snd <$> nodeByID c id.
Definition AllNodes {R} (c : Cluster R) : list (Node.Node R) := c.(nodes).

End Get.

(** ** partition.go *)

Record PartitionedCluster (R : Type) := MkPartitioned {
  base : Cluster R;
  partitions : gmap N (gmap N bool);   (* from -> to -> blocked *)
}.
Arguments MkPartitioned {R} _ _.
Arguments base {R} _.
Arguments partitions {R} _.
#[export] Instance set_base {R} : Setter (R:=PartitionedCluster R) base :=
  λ v pc, MkPartitioned v (partitions pc).
#[export] Instance set_partitions {R} : Setter (R:=PartitionedCluster R) partitions :=
  λ v pc, MkPartitioned (base pc) v.

Section partitioned.
  Context {R : Type} `{RNG R}.
  Implicit Types (pc : PartitionedCluster R).

Definition NewPartitioned (NewSeededRNG : Z → R) (n : nat) (seed : Z) : PartitionedCluster R :=
  MkPartitioned (New NewSeededRNG n seed) ∅.

(** [if partitions[id] == nil { partitions[id] = make(...) }] *)
Definition ensure (ps : gmap N (gmap N bool)) (id : N) : gmap N (gmap N bool) :=
  match ps !! id with Some _ => ps | None => <[id := ∅]> ps end.

Definition block (ps : gmap N (gmap N bool)) (src dst : N) : gmap N (gmap N bool) :=
  <[src := <[dst := true]> (default ∅ (ps !! src))]> ps.

Definition Partition pc (id : N) : PartitionedCluster R :=
  let ps := ensure pc.(partitions) id in
  let ps := foldl (λ ps n,
    if negb (n.(Node.id) =? id) then
      let ps := block ps id n.(Node.id) in
      let ps := ensure ps n.(Node.id) in
      block ps n.(Node.id) id
    else ps) ps pc.(base).(nodes) in
  pc <| partitions := ps |>.

Definition Heal pc (id : N) : PartitionedCluster R :=
  pc <| partitions := delete id <$> delete id pc.(partitions) |>.

Definition HealAll pc : PartitionedCluster R := pc <| partitions := ∅ |>.

Definition IsBlocked pc (src dst : N) : bool :=
  match pc.(partitions) !! src with
  | Some m => default false (m !! dst)
  | None => false
  end.

(** The inner loop of [DeliverAllFiltered]. *)
Fixpoint deliver_filtered pc (pos : nat) (msgs : list Message) : go (PartitionedCluster R) :=
  match msgs with
  | [] => Ret pc
  | m :: msgs =>
    if IsBlocked pc m.(From) m.(To) then deliver_filtered pc pos msgs
    else
      match pc.(base).(nodes) !! pos with
      | None => Panic
      | Some n =>
        '(n, replies) ← Step n m;
        let c := put_node pc.(base) pos n in
        let kept := filter (λ r, IsBlocked pc r.(From) r.(To) = false) replies in
        deliver_filtered (pc <| base := route c kept |>) pos msgs
      end
  end.

Definition deliver_filtered_id pc (id : N) : go (PartitionedCluster R) :=
  let msgs := queue_of pc.(base).(queues) id in
  let clear pc : PartitionedCluster R :=
    pc <| base := pc.(base) <| queues := <[id := []]> pc.(base).(queues) |> |> in
  match msgs with
  | [] => Ret pc
  | _ =>
    match nodeByID pc.(base) id with
    | None => Ret (clear pc)
    | Some (pos, _) => pc ← deliver_filtered pc pos msgs; Ret (clear pc)
    end
  end.

Fixpoint DeliverAllFiltered pc (order : list N) : go (PartitionedCluster R) :=
  match order with
  | [] => Ret pc
  | id :: order => pc ← deliver_filtered_id pc id; DeliverAllFiltered pc order
  end.
End partitioned.
