(* ===== verification/Spec.v ===== *)
(** * Abstract Raft: the protocol the node implements

    A node is reduced to what election safety and log matching depend on: term, vote, role,
    votes collected while a candidate, and the log.  The system has one such node per id,
    the set of all messages ever sent (a message may be delivered any number of times, in
    any order, or never), and the history of elections won.  [step] has one rule per atomic
    action of the code; a handler of [Node] performs one or more of them (file Refine). *)
From S2P Require Import Prelude Log Message Node.
From Stdlib Require Import Strings.Byte.
Open Scope N_scope.

Record ANode := MkANode {
  aterm : N;
  avote : N;
  arole : State;
  avotes : gset N;
  alog : list Entry;
}.

#[export] Instance set_aterm : Setter aterm := λ v a,
  MkANode v (avote a) (arole a) (avotes a) (alog a).
#[export] Instance set_avote : Setter avote := λ v a,
  MkANode (aterm a) v (arole a) (avotes a) (alog a).
#[export] Instance set_arole : Setter arole := λ v a,
  MkANode (aterm a) (avote a) v (avotes a) (alog a).
#[export] Instance set_avotes : Setter avotes := λ v a,
  MkANode (aterm a) (avote a) (arole a) v (alog a).
#[export] Instance set_alog : Setter alog := λ v a,
  MkANode (aterm a) (avote a) (arole a) (avotes a) v.

Record Sys := MkSys {
  anode : N → ANode;
  net : list Message;
  elected : list (N * N);   (* (term, leader), most recent first *)
}.

Definition upd (f : N → ANode) (i : N) (a : ANode) : N → ANode :=
  λ j, if decide (j = i) then a else f j.

Definition ainit : ANode := MkANode 0 0 StateFollower ∅ [dummy].
Definition init : Sys := MkSys (λ _, ainit) [] [].

(** ** Guards *)

Section spec.
  Context (members : gset N).
  Implicit Types (s : Sys) (m : Message) (a : ANode).

(** More than half of the members. *)
Definition quorum (Q : gset N) : Prop := (size members < 2 * size (Q ∩ members))%nat.

Definition log_last (log : list Entry) : N * N :=
  (lenN log - 1, from_option Log.Term 0 (last log)).

(** The candidate's log is at least as up to date (§5.4.1 of the Raft paper). *)
Definition up_to_date (log : list Entry) (idx term : N) : Prop :=
  (log_last log).2 < term ∨ (log_last log).2 = term ∧ (log_last log).1 ≤ idx.

Definition prev_matches (log : list Entry) (i t : N) : Prop :=
  i = 0 ∨ Log.Term <$> log !! N.to_nat i = Some t.

(** The log after accepting [m]: conflict resolution from [PrevLogIndex + 1] on. *)
Definition accept (log : list Entry) m : list Entry :=
  let lo := N.to_nat (m.(PrevLogIndex) + 1) in
  take lo log ++ reconcile (drop lo log) m.(Message.Entries).

(** What a node may send. *)
Definition from_log (log : list Entry) m : Prop :=
  Log.Term <$> log !! N.to_nat m.(PrevLogIndex) = Some m.(PrevLogTerm) ∧
  m.(Message.Entries) `prefix_of` drop (N.to_nat (m.(PrevLogIndex) + 1)) log.

Definition may_send a m : Prop :=
  match m.(Type_) with
  | MsgRequestVote =>
    m.(Message.Term) = a.(aterm) ∧ (m.(LastLogIndex), m.(LastLogTerm)) = log_last a.(alog)
  | MsgRequestVoteResp => m.(Granted) = false
  | MsgAppendEntries =>
    a.(arole) = StateLeader ∧ m.(Message.Term) = a.(aterm) ∧ from_log a.(alog) m
  | MsgAppendEntriesResp => True
  | MsgOther _ => False
  end.

(** [m] is in the network and addressed to [i]. *)
Definition deliverable s i m : Prop := m ∈ s.(net) ∧ m.(To) = i.

(** ** Steps *)

Inductive step s : Sys → Prop :=
  (* a message with a higher term turns the node into a follower of that term *)
  | step_bump i m :
    deliverable s i m → (s.(anode) i).(aterm) < m.(Message.Term) →
    step s (MkSys (upd s.(anode) i
              (MkANode m.(Message.Term) 0 StateFollower ∅ (s.(anode) i).(alog)))
              s.(net) s.(elected))
  (* election timeout *)
  | step_timeout i :
    i ∈ members → (s.(anode) i).(arole) ≠ StateLeader →
    step s (MkSys (upd s.(anode) i
              (MkANode ((s.(anode) i).(aterm) + 1) i StateCandidate {[i]} (s.(anode) i).(alog)))
              s.(net) s.(elected))
  (* grant a vote *)
  | step_vote i m :
    deliverable s i m → m.(Type_) = MsgRequestVote →
    m.(Message.Term) = (s.(anode) i).(aterm) →
    (s.(anode) i).(avote) = 0 ∨ (s.(anode) i).(avote) = m.(From) →
    up_to_date (s.(anode) i).(alog) m.(LastLogIndex) m.(LastLogTerm) →
    step s (MkSys (upd s.(anode) i ((s.(anode) i) <| avote := m.(From) |>))
              (NewRequestVoteResp i m.(From) m.(Message.Term) true :: s.(net)) s.(elected))
  (* count a granted vote *)
  | step_count i m :
    deliverable s i m → m.(Type_) = MsgRequestVoteResp → m.(Granted) = true →
    m.(Message.Term) = (s.(anode) i).(aterm) → (s.(anode) i).(arole) = StateCandidate →
    step s (MkSys (upd s.(anode) i
              ((s.(anode) i) <| avotes := {[m.(From)]} ∪ (s.(anode) i).(avotes) |>))
              s.(net) s.(elected))
  (* win the election *)
  | step_lead i :
    i ∈ members → (s.(anode) i).(arole) = StateCandidate → quorum (s.(anode) i).(avotes) →
    step s (MkSys (upd s.(anode) i
              ((s.(anode) i) <| arole := StateLeader |> <| avotes := ∅ |>))
              s.(net) (((s.(anode) i).(aterm), i) :: s.(elected)))
  (* recognise the leader of the current term: the vote of the term is forgotten *)
  | step_follow i m :
    deliverable s i m → m.(Type_) = MsgAppendEntries →
    m.(Message.Term) = (s.(anode) i).(aterm) → (s.(anode) i).(arole) ≠ StateFollower →
    step s (MkSys (upd s.(anode) i
              (MkANode (s.(anode) i).(aterm) 0 StateFollower ∅ (s.(anode) i).(alog)))
              s.(net) s.(elected))
  (* accept entries *)
  | step_append i m :
    deliverable s i m → m.(Type_) = MsgAppendEntries →
    m.(Message.Term) = (s.(anode) i).(aterm) → (s.(anode) i).(arole) = StateFollower →
    prev_matches (s.(anode) i).(alog) m.(PrevLogIndex) m.(PrevLogTerm) →
    step s (MkSys (upd s.(anode) i ((s.(anode) i) <| alog := accept (s.(anode) i).(alog) m |>))
              s.(net) s.(elected))
  (* a client command *)
  | step_propose i cmd :
    i ∈ members → (s.(anode) i).(arole) = StateLeader →
    step s (MkSys (upd s.(anode) i
              ((s.(anode) i) <| alog := (s.(anode) i).(alog) ++
                 [MkEntry (s.(anode) i).(aterm) (lenN (s.(anode) i).(alog)) cmd] |>))
              s.(net) s.(elected))
  (* send *)
  | step_send i m :
    i ∈ members → m.(From) = i → m.(To) ∈ members → m.(To) ≠ i → may_send (s.(anode) i) m →
    step s (MkSys s.(anode) (m :: s.(net)) s.(elected))
  (* crash: the volatile role is lost, term, vote and log persist *)
  | step_crash i :
    i ∈ members →
    step s (MkSys (upd s.(anode) i ((s.(anode) i) <| arole := StateFollower |> <| avotes := ∅ |>))
              s.(net) s.(elected)).

Definition reachable : Sys → Prop := rtc step init.

(** ** Quorums intersect *)

Lemma quorum_intersect Q1 Q2 :
  quorum Q1 → quorum Q2 → ∃ v, v ∈ Q1 ∧ v ∈ Q2 ∧ v ∈ members.
Proof.
  unfold quorum. intros H1 H2.
  destruct (decide ((Q1 ∩ members) ∩ (Q2 ∩ members) = ∅)) as [E|NE].
  - exfalso. assert (size ((Q1 ∩ members) ∪ (Q2 ∩ members)) ≤ size members)%nat as Hle.
    { apply subseteq_size. set_solver. }
    rewrite size_union in Hle by set_solver. lia.
  - apply set_choose_L in NE as [v Hv]. exists v. set_solver.
Qed.
End spec.

Arguments upd _ _ _ _ /.

Lemma upd_eq f i a : upd f i a i = a.
Proof. cbn. by rewrite decide_True. Qed.

Lemma upd_ne f i a j : j ≠ i → upd f i a j = f j.
Proof. intros. cbn. by rewrite decide_False. Qed.
