(* ===== verification/SpecElection.v ===== *)
(** * Election safety of the abstract protocol

    The inductive invariant [EInv] relates the votes on the wire, the nodes' current votes
    and the elections won, and [reachable_EInv] shows that it holds in every reachable
    state, for any member set without the id 0 (0 is "no vote" in the code).  Its last
    clause but one, [e_unique], is election safety: one winner per term, over the whole
    history. *)
From S2P Require Import Prelude Log Message Node Spec.
Open Scope N_scope.

Section election.
  Context (members : gset N).
  Hypothesis members_nonzero : 0 ∉ members.
  Implicit Types (s : Sys) (m : Message).

(** Voter [v] granted its vote of term [T] to candidate [c]. *)
Definition granted (ms : list Message) (v c T : N) : Prop :=
  ∃ m, m ∈ ms ∧ m.(Type_) = MsgRequestVoteResp ∧ m.(Granted) = true ∧
       m.(From) = v ∧ m.(To) = c ∧ m.(Message.Term) = T.

Record EInv s : Prop := {
  e_addr : ∀ m, m ∈ s.(net) →
    m.(From) ∈ members ∧ m.(To) ∈ members ∧ m.(From) ≠ m.(To);
  e_granted : ∀ v c T, granted s.(net) v c T →
    T ≤ aterm (s.(anode) v) ∧
    (T = aterm (s.(anode) v) →
     avote (s.(anode) v) = c ∧ arole (s.(anode) v) = StateFollower);
  e_granted_once : ∀ v c c' T,
    granted s.(net) v c T → granted s.(net) v c' T → c = c';
  e_role : ∀ i z, arole (s.(anode) i) ≠ StateOther z;
  e_cand : ∀ i, arole (s.(anode) i) = StateCandidate →
    avote (s.(anode) i) = i ∧
    ∀ v, v ∈ avotes (s.(anode) i) → v = i ∨ granted s.(net) v i (aterm (s.(anode) i));
  e_leader : ∀ i, arole (s.(anode) i) = StateLeader →
    (aterm (s.(anode) i), i) ∈ s.(elected);
  e_elected : ∀ T c, (T, c) ∈ s.(elected) →
    T ≤ aterm (s.(anode) c) ∧
    (T = aterm (s.(anode) c) →
     avote (s.(anode) c) = c ∧ arole (s.(anode) c) ≠ StateCandidate);
  e_quorum : ∀ T c, (T, c) ∈ s.(elected) →
    ∃ Q, quorum members Q ∧ ∀ v, v ∈ Q → v = c ∨ granted s.(net) v c T;
  e_no_grant : ∀ T c c', (T, c) ∈ s.(elected) → ¬ granted s.(net) c c' T;
  e_unique : ∀ T c c', (T, c) ∈ s.(elected) → (T, c') ∈ s.(elected) → c = c';
  e_append : ∀ m, m ∈ s.(net) → m.(Type_) = MsgAppendEntries →
    (m.(Message.Term), m.(From)) ∈ s.(elected);
}.

(** ** The votes on the wire *)

Lemma granted_mono ms m v c T : granted ms v c T → granted (m :: ms) v c T.
Proof. intros (m' & ? & ?). exists m'. split; [by right|done]. Qed.

Lemma granted_cons ms m v c T :
  granted (m :: ms) v c T →
  granted ms v c T ∨
  (m.(Type_) = MsgRequestVoteResp ∧ m.(Granted) = true ∧
   m.(From) = v ∧ m.(To) = c ∧ m.(Message.Term) = T).
Proof.
  intros (m' & [->|Hm]%elem_of_cons & Hrest); [by right|left]. by exists m'.
Qed.

Lemma granted_send ms m v c T :
  m.(Type_) ≠ MsgRequestVoteResp ∨ m.(Granted) = false →
  granted (m :: ms) v c T → granted ms v c T.
Proof. intros Hm [?|(? & ? & _)]%granted_cons; [done|]. destruct Hm; congruence. Qed.

(** ** Preservation *)

Lemma init_EInv : EInv init.
Proof.
  split; cbn; by (intros; set_solver).
Qed.

(** The invariant does not look at the logs. *)
Lemma EInv_ext s f :
  (∀ j, aterm (f j) = aterm (s.(anode) j) ∧ avote (f j) = avote (s.(anode) j) ∧
        arole (f j) = arole (s.(anode) j) ∧ avotes (f j) = avotes (s.(anode) j)) →
  EInv s → EInv (MkSys f s.(net) s.(elected)).
Proof.
  intros Heq [].
  assert (∀ j, aterm (f j) = aterm (s.(anode) j)) as Ht by apply Heq.
  assert (∀ j, avote (f j) = avote (s.(anode) j)) as Hv by apply Heq.
  assert (∀ j, arole (f j) = arole (s.(anode) j)) as Hr by apply Heq.
  assert (∀ j, avotes (f j) = avotes (s.(anode) j)) as Hvs by apply Heq.
  split; cbn; intros *; rewrite ?Ht, ?Hv, ?Hr, ?Hvs; eauto.
Qed.

Lemma granted_addr s v c T :
  EInv s → granted s.(net) v c T → v ∈ members ∧ c ∈ members ∧ v ≠ c ∧ c ≠ 0.
Proof.
  intros HI (m & Hm & _ & _ & <- & <- & _). destruct (e_addr _ HI _ Hm) as (? & ? & ?).
  split_and!; [done|done|done|]. intros E. by rewrite E in *.
Qed.

(** A node entering a higher term, as a follower or as a fresh candidate. *)
Lemma EInv_new_term s i a :
  EInv s → aterm (s.(anode) i) < aterm a →
  a.(arole) = StateFollower ∨
    a.(arole) = StateCandidate ∧ a.(avote) = i ∧ a.(avotes) = {[i]} →
  EInv (MkSys (upd s.(anode) i a) s.(net) s.(elected)).
Proof.
  intros [] Hlt Hrole. split; cbn; intros *; repeat case_decide; subst; eauto.
  - intros [? _]%e_granted0. split; [lia|]. lia.
  - destruct Hrole as [->|[-> _]]; done.
  - destruct Hrole as [->|(_ & -> & ->)]; [done|]. set_solver.
  - destruct Hrole as [->|[-> _]]; done.
  - intros [? _]%e_elected0. split; [lia|]. lia.
Qed.

(** Granting a vote: at the node's own term, to the candidate it is free to vote for. *)
Lemma EInv_vote s i m :
  EInv s → deliverable s i m → m.(Message.Term) = aterm (s.(anode) i) →
  avote (s.(anode) i) = 0 ∨ avote (s.(anode) i) = m.(From) →
  EInv (MkSys (upd s.(anode) i ((s.(anode) i) <| avote := m.(From) |>))
          (NewRequestVoteResp i m.(From) m.(Message.Term) true :: s.(net)) s.(elected)).
Proof.
  intros HI [Hm <-] Hterm Hfree. pose proof HI as [].
  destruct (e_addr0 _ Hm) as (Hfrom & Hto & Hne).
  assert (avote (s.(anode) m.(To)) ≠ m.(To)) as Hnoself.
  { intros E. rewrite E in Hfree. destruct Hfree as [E0|E0]; [|congruence].
    by rewrite E0 in Hto. }
  assert (arole (s.(anode) m.(To)) = StateFollower) as Hfol.
  { destruct (arole (s.(anode) m.(To))) eqn:E; [done| | |by apply e_role0 in E].
    - apply e_cand0 in E as [? _]. done.
    - apply e_leader0, e_elected0 in E as [_ E]. by destruct (E eq_refl). }
  assert (∀ c, granted s.(net) m.(To) c m.(Message.Term) → c = m.(From)) as Honce.
  { intros c Hg. rewrite Hterm in Hg. destruct (granted_addr _ _ _ _ HI Hg) as (_ & _ & _ & ?).
    apply e_granted0 in Hg as [_ Hg]. destruct (Hg eq_refl) as [E _].
    rewrite E in Hfree. by destruct Hfree. }
  set (f := upd _ _ _).
  assert (∀ j, aterm (f j) = aterm (s.(anode) j) ∧ arole (f j) = arole (s.(anode) j) ∧
               avotes (f j) = avotes (s.(anode) j)) as Hf.
  { intros j. unfold f, upd. by destruct (decide (j = m.(To))) as [->|]. }
  assert (∀ j, aterm (f j) = aterm (s.(anode) j)) as Ht by apply Hf.
  assert (∀ j, arole (f j) = arole (s.(anode) j)) as Hr by apply Hf.
  assert (∀ j, avotes (f j) = avotes (s.(anode) j)) as Hvs by apply Hf.
  assert (∀ j, j ≠ m.(To) → avote (f j) = avote (s.(anode) j)) as Hv.
  { intros j Hj. unfold f. by rewrite upd_ne. }
  assert (avote (f m.(To)) = m.(From)) as Hvi by (unfold f; by rewrite upd_eq).
  clearbody f. split; cbn -[NewRequestVoteResp]; intros *; rewrite ?Ht, ?Hr, ?Hvs; auto.
  - intros [->|Hin]%elem_of_cons; cbn; auto.
  - intros [Hg|(_ & _ & <- & <- & <-)]%granted_cons; cbn.
    + destruct (e_granted0 _ _ _ Hg) as [Hle Hat]. split; [done|]. intros ->.
      split; [|by apply Hat]. destruct (decide (v = m.(To))) as [->|Hvne].
      * rewrite Hvi. symmetry. apply Honce. by rewrite Hterm.
      * rewrite Hv by done. by apply Hat.
    + split; [by rewrite Hterm|]. done.
  - intros [Hg|(_ & _ & <- & <- & <-)]%granted_cons
      [Hg'|(_ & _ & E1 & <- & E2)]%granted_cons; cbn in *; subst; eauto.
    symmetry. auto.
  - intros Hc. pose proof (e_cand0 _ Hc) as [Hci Hcv]. split.
    + rewrite Hv; [done|]. intros ->. done.
    + intros v Hvi'. destruct (Hcv _ Hvi') as [?|?]; [by left|right]. by apply granted_mono.
  - intros Hel. destruct (e_elected0 _ _ Hel) as [Hle Hat]. split; [done|]. intros ->.
    split; [|by apply Hat]. destruct (decide (c = m.(To))) as [->|]; [|rewrite Hv by done; by apply Hat].
    destruct (Hat eq_refl) as [E _]. done.
  - intros Hel. destruct (e_quorum0 _ _ Hel) as (Q & HQ & Hvs'). exists Q. split; [done|].
    intros v Hvq. destruct (Hvs' _ Hvq); [by left|right; by apply granted_mono].
  - intros Hel [Hg|(_ & _ & <- & _ & <-)]%granted_cons; [by eapply e_no_grant0|]. cbn in Hel.
    rewrite Hterm in Hel. destruct (e_elected0 _ _ Hel) as [_ Hat]. by destruct (Hat eq_refl).
  - apply e_unique0.
  - intros [->|Hin]%elem_of_cons; [done|]. auto.
Qed.

(** Counting a vote that was granted. *)
Lemma EInv_count s i m :
  EInv s → deliverable s i m → m.(Type_) = MsgRequestVoteResp → m.(Granted) = true →
  m.(Message.Term) = aterm (s.(anode) i) →
  EInv (MkSys (upd s.(anode) i
          ((s.(anode) i) <| avotes := {[m.(From)]} ∪ avotes (s.(anode) i) |>))
          s.(net) s.(elected)).
Proof.
  intros [] [Hm Hto] Hty Hg Hterm.
  split; cbn; intros *; repeat case_decide; subst; cbn; try done; eauto.
  intros Hc. destruct (e_cand0 _ Hc) as [? Hv]. split; [done|].
  intros v [->%elem_of_singleton|Hin]%elem_of_union; [right|by apply Hv]. by exists m.
Qed.

(** Winning an election. *)
Lemma EInv_lead s i :
  EInv s → i ∈ members → arole (s.(anode) i) = StateCandidate →
  quorum members (avotes (s.(anode) i)) →
  EInv (MkSys (upd s.(anode) i ((s.(anode) i) <| arole := StateLeader |> <| avotes := ∅ |>))
          s.(net) ((aterm (s.(anode) i), i) :: s.(elected))).
Proof.
  intros HI Hi Hc HQ. pose proof HI as [].
  destruct (e_cand0 _ Hc) as [Hvi Hvotes].
  assert (∀ c T, granted s.(net) i c T → T = aterm (s.(anode) i) → False) as Hnog.
  { intros c T Hg ->. apply e_granted0 in Hg as [_ Hg]. destruct (Hg eq_refl). congruence. }
  assert (∀ c, (aterm (s.(anode) i), c) ∈ s.(elected) → c = i) as Huniq.
  { intros c Hel. destruct (e_quorum0 _ _ Hel) as (Q & HQ' & Hv').
    destruct (quorum_intersect _ _ _ HQ HQ') as (v & Hv1 & Hv2 & _).
    destruct (Hvotes _ Hv1) as [->|Hg1], (Hv' _ Hv2) as [E|Hg2]; [done| | |].
    - by destruct (Hnog _ _ Hg2).
    - subst. by destruct (e_no_grant0 _ _ _ Hel Hg1).
    - by apply (e_granted_once0 _ _ _ _ Hg2). }
  split; cbn; intros *; repeat case_decide; subst; cbn; try done; eauto.
  - intros Hg. destruct (e_granted0 _ _ _ Hg) as [Hle Hat]. split; [done|].
    intros ->. destruct (Hat eq_refl). congruence.
  - intros _. left.
  - intros ?. right. by apply e_leader0.
  - intros [?|Hel]%elem_of_cons; simplify_eq; [done|].
    destruct (e_elected0 _ _ Hel) as [? Hat]. split; [done|]. intros E. by apply Hat in E.
  - intros [?|Hel]%elem_of_cons; simplify_eq; auto.
  - intros [?|Hel]%elem_of_cons; simplify_eq; [by exists (avotes (s.(anode) i))|auto].
  - intros [?|Hel]%elem_of_cons Hg; simplify_eq; [by eapply Hnog|by eapply e_no_grant0].
  - intros [?|Hel]%elem_of_cons [?|Hel']%elem_of_cons; simplify_eq; eauto.
    symmetry. auto.
  - intros ? ?. right. auto.
Qed.

(** Forgetting the vote on an AppendEntries of the node's own term: the node is not the
    leader of that term, or the message would come from itself. *)
Lemma EInv_follow s i m :
  EInv s → deliverable s i m → m.(Type_) = MsgAppendEntries →
  m.(Message.Term) = aterm (s.(anode) i) → arole (s.(anode) i) ≠ StateFollower →
  EInv (MkSys (upd s.(anode) i
          (MkANode (aterm (s.(anode) i)) 0 StateFollower ∅ (alog (s.(anode) i))))
          s.(net) s.(elected)).
Proof.
  intros HI [Hm <-] Hty Hterm Hr. pose proof HI as [].
  split; cbn; intros *; repeat case_decide; subst; cbn; try done; eauto.
  - intros Hg. destruct (e_granted0 _ _ _ Hg) as [Hle Hat]. split; [done|].
    intros ->. by destruct (Hat eq_refl).
  - intros Hel. destruct (e_elected0 _ _ Hel) as [Hle _]. split; [done|]. intros ->.
    pose proof (e_append0 _ Hm Hty) as Hel'. rewrite Hterm in Hel'.
    destruct (e_addr0 _ Hm) as (_ & _ & []). by eapply e_unique0.
Qed.

Lemma EInv_send s i m :
  EInv s → i ∈ members → m.(From) = i → m.(To) ∈ members → m.(To) ≠ i →
  may_send (s.(anode) i) m → EInv (MkSys s.(anode) (m :: s.(net)) s.(elected)).
Proof.
  intros [] Hi Hfrom Hto Hne Hsend.
  assert (∀ v c T, granted (m :: s.(net)) v c T → granted s.(net) v c T) as Hback.
  { intros v c T. apply granted_send. unfold may_send in Hsend.
    destruct (Type_ m) eqn:E; (by left) || by right. }
  split; cbn; eauto.
  - intros m' [->|?]%elem_of_cons; [|auto]. subst. auto.
  - intros j Hj. destruct (e_cand0 _ Hj) as [? Hv]. split; [done|].
    intros v Hvj. destruct (Hv _ Hvj); [by left|right; by apply granted_mono].
  - intros T c Hel. destruct (e_quorum0 _ _ Hel) as (Q & HQ & Hv). exists Q. split; [done|].
    intros v Hvq. destruct (Hv _ Hvq); [by left|right; by apply granted_mono].
  - intros T c c' Hel ?%Hback. by eapply e_no_grant0.
  - intros m' [->|?]%elem_of_cons Hty; [|auto]. unfold may_send in Hsend.
    rewrite Hty in Hsend. destruct Hsend as (Hl & -> & _). subst. auto.
Qed.

Lemma EInv_crash s i :
  EInv s →
  EInv (MkSys (upd s.(anode) i ((s.(anode) i) <| arole := StateFollower |> <| avotes := ∅ |>))
          s.(net) s.(elected)).
Proof.
  intros []. split; cbn; intros *; repeat case_decide; subst; cbn; try done; eauto.
  - intros Hg. destruct (e_granted0 _ _ _ Hg) as [Hle Hat]. split; [done|].
    intros E. by destruct (Hat E).
  - intros Hel. destruct (e_elected0 _ _ Hel) as [Hle Hat]. split; [done|].
    intros E. by destruct (Hat E).
Qed.

Lemma step_EInv s s' : EInv s → step members s s' → EInv s'.
Proof.
  intros HI [| | | | | | | |i m ? ? ? ? ?|]; try (apply EInv_ext; [|done]; intros j; cbn; by case_decide; subst).
  - apply EInv_new_term; cbn; auto.
  - apply EInv_new_term; cbn; [done|lia|auto].
  - by apply EInv_vote.
  - by apply EInv_count.
  - by apply EInv_lead.
  - by eapply EInv_follow.
  - by apply (EInv_send s i m).
  - by apply EInv_crash.
Qed.

Lemma reachable_EInv s : reachable members s → EInv s.
Proof.
  revert s. apply (rtc_ind_r EInv init).
  - apply init_EInv.
  - intros s s' _ Hstep HI. by eapply step_EInv.
Qed.

(** The history only grows: a past winner is still recorded later. *)
Lemma step_elected s s' x : step members s s' → x ∈ s.(elected) → x ∈ s'.(elected).
Proof. intros [] Hx; cbn; try done. by right. Qed.

Lemma steps_elected s s' x : rtc (step members) s s' → x ∈ s.(elected) → x ∈ s'.(elected).
Proof. induction 1 as [|s1 s2 s3 Hs _ IH]; [done|]. intros Hx. eapply IH, step_elected; eauto. Qed.
End election.
