(* ===== verification/SpecLog.v ===== *)
(** * Log matching of the abstract protocol

    The unit of the argument is a link: an entry together with the term of the entry before
    it.  [LInv] says that the links occurring anywhere in the system, in a log or in an
    AppendEntries message on the wire, are determined by their index and term, and that a
    link of term [T] was made by the leader of [T] and is still in its log while it leads.
    Conflict resolution only recombines links ([links_reconcile]), so only [step_propose]
    makes new ones.  Log matching ([LInv_matching]) follows by walking two logs down from
    the entry they share. *)
From S2P Require Import Prelude Log Message Node Spec SpecElection.
Open Scope N_scope.

Fixpoint links (es : list Entry) : list (N * Entry) :=
  match es with
  | a :: ((b :: _) as tl) => (a.(Log.Term), b) :: links tl
  | _ => []
  end.

(** The entry before the first one of an AppendEntries message, as far as it is known. *)
Definition prev_entry (m : Message) : Entry := MkEntry m.(PrevLogTerm) m.(PrevLogIndex) [].
Definition mlinks (m : Message) : list (N * Entry) := links (prev_entry m :: m.(Message.Entries)).

(** ** Links under the list operations *)

Lemma links_cons2 a b tl : links (a :: b :: tl) = (Log.Term a, b) :: links (b :: tl).
Proof. done. Qed.

Lemma links_tail a tl x : x ∈ links tl → x ∈ links (a :: tl).
Proof. destruct tl; [by intros ?%not_elem_of_nil|]. intros. rewrite links_cons2. by right. Qed.

(** Only the term of the first element matters. *)
Lemma links_head a a' tl : Log.Term a = Log.Term a' → links (a :: tl) = links (a' :: tl).
Proof. intros E. destruct tl; [done|]. by rewrite !links_cons2, E. Qed.

Lemma links_app_r l1 l2 x : x ∈ links l2 → x ∈ links (l1 ++ l2).
Proof. induction l1 as [|a l1 IH]; [done|]. intros. by apply links_tail, IH. Qed.

Lemma links_app_l l1 l2 x : x ∈ links l1 → x ∈ links (l1 ++ l2).
Proof.
  induction l1 as [|a [|b l1] IH]; cbn [app]; [by intros ?%not_elem_of_nil..|].
  rewrite !links_cons2, !elem_of_cons. intros [?|Hx]; [by left|right]. by apply IH.
Qed.

Lemma links_split l1 e l2 x :
  x ∈ links (l1 ++ e :: l2) → x ∈ links (l1 ++ [e]) ∨ x ∈ links (e :: l2).
Proof.
  induction l1 as [|a [|b l1] IH]; cbn [app] in *.
  - by right.
  - rewrite links_cons2, elem_of_cons. intros [->|?]; [left|by right].
    rewrite links_cons2. by left.
  - rewrite !links_cons2, !elem_of_cons. intros [?|Hx]; [left; by left|].
    destruct (IH Hx); [left; by right|by right].
Qed.

Lemma links_prefix a l1 l2 x : l1 `prefix_of` l2 → x ∈ links (a :: l1) → x ∈ links (a :: l2).
Proof. intros [k ->]. apply (links_app_l (a :: l1) k). Qed.

(** Conflict resolution makes no link of its own. *)
Lemma links_reconcile ep v old new x :
  Log.Term v = Log.Term ep → x ∈ links (ep :: reconcile old new) →
  x ∈ links (ep :: old) ∨ x ∈ links (v :: new).
Proof.
  revert ep v old. induction new as [|n ns IH]; intros ep v old Hv Hx.
  { left. by destruct old. }
  destruct old as [|o os]; cbn [reconcile] in Hx.
  { right. by rewrite (links_head _ _ _ Hv). }
  destruct (N.eqb_spec (Log.Term o) (Log.Term n)) as [E|_].
  - rewrite links_cons2, elem_of_cons in Hx. destruct Hx as [->|Hx].
    + left. rewrite links_cons2. left.
    + destruct (IH o n os (eq_sym E) Hx) as [?|?]; [left|right]; by apply links_tail.
  - right. by rewrite (links_head _ _ _ Hv).
Qed.

Lemma links_lookup es k a b :
  es !! k = Some a → es !! S k = Some b → (Log.Term a, b) ∈ links es.
Proof.
  revert k. induction es as [|e [|e' es] IH]; intros k Ha Hb; [done|by destruct k|].
  rewrite links_cons2. destruct k as [|k].
  - injection Ha as ->. injection Hb as ->. left.
  - right. by apply (IH k).
Qed.

Lemma links_index es i x :
  contig i es → x ∈ links es → i < Index x.2 ∧ Index x.2 < i + lenN es.
Proof.
  revert i. induction es as [|a [|b es] IH]; intros i Hc Hx;
    [by apply not_elem_of_nil in Hx..|].
  rewrite links_cons2, elem_of_cons in Hx. destruct Hc as [_ Hc].
  destruct Hx as [->|Hx].
  - destruct Hc as [Hb _]. cbn [snd length]. lia.
  - apply (IH (i + 1)) in Hx; [|done]. cbn [length] in *. lia.
Qed.

Lemma log_split (log : list Entry) (p : N) e :
  log !! N.to_nat p = Some e →
  log = take (N.to_nat p) log ++ e :: drop (N.to_nat (p + 1)) log ∧
  take (N.to_nat (p + 1)) log = take (N.to_nat p) log ++ [e].
Proof.
  intros He. split; [|by apply take_lookup_S].
  by rewrite <- (drop_lookup_S _ _ _ He), take_drop.
Qed.

Lemma links_accept log m e x :
  log !! N.to_nat m.(PrevLogIndex) = Some e → Log.Term e = m.(PrevLogTerm) →
  x ∈ links (accept log m) → x ∈ links log ∨ x ∈ mlinks m.
Proof.
  intros He Ht Hx. destruct (log_split _ _ _ He) as [Hlog Htake].
  unfold accept in Hx. rewrite Htake, <- app_assoc in Hx. cbn [app] in Hx.
  apply links_split in Hx as [Hx|Hx].
  - left. rewrite Hlog. rewrite cons_middle, app_assoc. by apply links_app_l.
  - apply (links_reconcile _ (prev_entry m)) in Hx; [|by rewrite Ht].
    destruct Hx as [Hx|Hx]; [left|by right].
    rewrite Hlog. by apply links_app_r.
Qed.

Lemma links_from_log log m x : from_log log m → x ∈ mlinks m → x ∈ links log.
Proof.
  intros [Hprev Hpre] Hx.
  destruct (log !! N.to_nat (PrevLogIndex m)) as [e|] eqn:He; [|done].
  injection Hprev as Ht. destruct (log_split _ _ _ He) as [Hlog _].
  rewrite Hlog. apply links_app_r. unfold mlinks in Hx.
  rewrite (links_head _ e) in Hx by done. by eapply links_prefix.
Qed.

(** ** The invariant *)

Definition sys_link (s : Sys) (x : N * Entry) : Prop :=
  (∃ i, x ∈ links (alog (s.(anode) i))) ∨
  (∃ m, m ∈ s.(net) ∧ m.(Type_) = MsgAppendEntries ∧ x ∈ mlinks m).

Record LInv (s : Sys) : Prop := {
  l_head : ∀ i, alog (s.(anode) i) !! 0%nat = Some dummy;
  l_contig : ∀ i, contig 0 (alog (s.(anode) i));
  l_msg : ∀ m, m ∈ s.(net) → m.(Type_) = MsgAppendEntries →
    contig (m.(PrevLogIndex) + 1) m.(Message.Entries) ∧
    (m.(PrevLogIndex) = 0 → m.(PrevLogTerm) = 0);
  l_elected : ∀ x, sys_link s x →
    ∃ c, (Log.Term x.2, c) ∈ s.(elected) ∧
      (arole (s.(anode) c) = StateLeader → aterm (s.(anode) c) = Log.Term x.2 →
       x ∈ links (alog (s.(anode) c)));
  l_unique : ∀ x y, sys_link s x → sys_link s y →
    Index x.2 = Index y.2 → Log.Term x.2 = Log.Term y.2 → x = y;
  l_terms : ∀ i x, x ∈ links (alog (s.(anode) i)) →
    x.1 ≤ Log.Term x.2 ∧ Log.Term x.2 ≤ aterm (s.(anode) i);
  l_mterms : ∀ m x, m ∈ s.(net) → m.(Type_) = MsgAppendEntries → x ∈ mlinks m →
    x.1 ≤ Log.Term x.2 ∧ Log.Term x.2 ≤ m.(Message.Term);
}.

(** Log matching: two logs that have entries of equal index and term are equal up to it. *)
Lemma LInv_matching s i j k a b :
  LInv s →
  alog (s.(anode) i) !! k = Some a → alog (s.(anode) j) !! k = Some b →
  Log.Term a = Log.Term b →
  take (S k) (alog (s.(anode) i)) = take (S k) (alog (s.(anode) j)).
Proof.
  intros HI. revert a b. induction k as [|k IH]; intros a b Ha Hb Hab.
  - rewrite (l_head _ HI) in Ha, Hb. injection Ha as <-. injection Hb as <-.
    rewrite !(take_S_r _ _ dummy) by apply HI. by rewrite !take_0.
  - destruct (lookup_lt_is_Some_2 (alog (s.(anode) i)) k) as [a' Ha'].
    { apply lookup_lt_Some in Ha. lia. }
    destruct (lookup_lt_is_Some_2 (alog (s.(anode) j)) k) as [b' Hb'].
    { apply lookup_lt_Some in Hb. lia. }
    assert ((Log.Term a', a) = (Log.Term b', b)) as [= Ht ->].
    { apply (l_unique _ HI); cbn.
      - left. exists i. by eapply links_lookup.
      - left. exists j. by eapply links_lookup.
      - by rewrite (contig_lookup _ _ _ _ (l_contig _ HI i) Ha),
          (contig_lookup _ _ _ _ (l_contig _ HI j) Hb).
      - done. }
    rewrite (take_S_r (alog (s.(anode) i)) (S k) b), (take_S_r (alog (s.(anode) j)) (S k) b)
      by done.
    by rewrite (IH _ _ Ha' Hb' Ht).
Qed.

(** ** Preservation *)

Section preservation.
  Context (members : gset N).
  Hypothesis members_nonzero : 0 ∉ members.

Lemma init_LInv : LInv init.
Proof.
  assert (∀ x, sys_link init x → False) as Hno.
  { intros x [(i & Hx)|(m & Hm & _)]; [by apply not_elem_of_nil in Hx|].
    by apply not_elem_of_nil in Hm. }
  split; try (intros; exfalso; by eapply Hno).
  - done.
  - by intros i.
  - by intros m Hm%not_elem_of_nil.
  - intros i x Hx. destruct (Hno x). left. by exists i.
  - by intros m x Hm%not_elem_of_nil.
Qed.

(** Steps that neither change a log nor send an AppendEntries. *)
Lemma LInv_same_logs s s' :
  LInv s →
  (∀ j, alog (s'.(anode) j) = alog (s.(anode) j)) →
  (∀ j, aterm (s.(anode) j) ≤ aterm (s'.(anode) j)) →
  (∀ m, m ∈ s'.(net) → m.(Type_) = MsgAppendEntries → m ∈ s.(net)) →
  (∀ y, y ∈ s.(elected) → y ∈ s'.(elected)) →
  (∀ j x, sys_link s x → (Log.Term x.2, j) ∈ s.(elected) →
     arole (s'.(anode) j) = StateLeader → aterm (s'.(anode) j) = Log.Term x.2 →
     arole (s.(anode) j) = StateLeader ∧ aterm (s.(anode) j) = Log.Term x.2) →
  LInv s'.
Proof.
  intros [] Hlog Hterm Hnet Hel Hlead.
  assert (∀ x, sys_link s' x → sys_link s x) as Hback.
  { intros x [(j & Hx)|(m & Hm & Hty & Hx)].
    - left. exists j. by rewrite <- Hlog.
    - right. exists m. auto. }
  split.
  - intros i. by rewrite Hlog.
  - intros i. by rewrite Hlog.
  - auto.
  - intros x Hx%Hback. destruct (l_elected0 _ Hx) as (c & Hc & Hin). exists c.
    split; [auto|]. intros Hr Ht. rewrite Hlog.
    destruct (Hlead _ _ Hx Hc Hr Ht). auto.
  - auto.
  - intros i x. rewrite Hlog. intros Hx. destruct (l_terms0 _ _ Hx). specialize (Hterm i). lia.
  - auto.
Qed.

(** Steps at one node that leave the rest of the system alone. *)
Lemma LInv_upd s i a :
  LInv s → a.(alog) = alog (s.(anode) i) → aterm (s.(anode) i) ≤ a.(aterm) →
  (a.(arole) = StateLeader →
   arole (s.(anode) i) = StateLeader ∧ aterm (s.(anode) i) = a.(aterm)) →
  LInv (MkSys (upd s.(anode) i a) s.(net) s.(elected)).
Proof.
  intros HI Hlog Hterm Hrole. apply (LInv_same_logs s); cbn; try done.
  - intros j. by case_decide; subst.
  - intros j. by case_decide; subst.
  - intros j x Hx Hel. case_decide; [|done]. subst. intros Hr Ht.
    destruct (Hrole Hr). by rewrite <- Ht.
Qed.

Lemma LInv_lead s i :
  EInv members s → LInv s → i ∈ members → arole (s.(anode) i) = StateCandidate →
  quorum members (avotes (s.(anode) i)) →
  LInv (MkSys (upd s.(anode) i ((s.(anode) i) <| arole := StateLeader |> <| avotes := ∅ |>))
          s.(net) ((aterm (s.(anode) i), i) :: s.(elected))).
Proof.
  intros HE HI Hi Hc HQ.
  pose proof (EInv_lead members s i HE Hi Hc HQ) as HE'.
  apply (LInv_same_logs s); cbn; try done.
  - intros j. by case_decide; subst.
  - intros j. by case_decide; subst.
  - intros y. by right.
  - intros j x Hx Hel. case_decide; [|done]. subst. cbn. intros _ Ht.
    destruct (e_elected _ _ HE _ _ Hel) as [_ Hat]. destruct (Hat (eq_sym Ht)). done.
Qed.

Lemma LInv_append s i m :
  LInv s → deliverable s i m → m.(Type_) = MsgAppendEntries →
  m.(Message.Term) = aterm (s.(anode) i) → arole (s.(anode) i) = StateFollower →
  prev_matches (alog (s.(anode) i)) m.(PrevLogIndex) m.(PrevLogTerm) →
  LInv (MkSys (upd s.(anode) i ((s.(anode) i) <| alog := accept (alog (s.(anode) i)) m |>))
          s.(net) s.(elected)).
Proof.
  intros HI [Hm Hto] Hty Hterm Hrole Hprev. pose proof HI as [].
  destruct (l_msg0 _ Hm Hty) as [Hcm Hzero]. set (log := alog (s.(anode) i)) in *.
  assert (∃ e, log !! N.to_nat m.(PrevLogIndex) = Some e ∧ Log.Term e = m.(PrevLogTerm))
    as (e & He & Het).
  { destruct Hprev as [E|E].
    - exists dummy. rewrite E, Hzero by done. split; [apply l_head0|done].
    - destruct (log !! _) as [e|]; [|done]. injection E as E. by exists e. }
  destruct (log_split _ _ _ He) as [_ Htake].
  assert (∀ x, x ∈ links (accept log m) → x ∈ links log ∨ x ∈ mlinks m) as Hacc
    by (intros x; by eapply links_accept).
  assert (∀ x, sys_link (MkSys (upd s.(anode) i ((s.(anode) i) <| alog := accept log m |>))
          s.(net) s.(elected)) x → sys_link s x) as Hback.
  { intros x [(j & Hx)|?]; [|by right]. cbn in Hx. case_decide; [|left; by exists j].
    subst j. destruct (Hacc _ Hx); [left; by exists i|right; by exists m]. }
  split; cbn; auto.
  - intros j. case_decide; [|auto]. cbn. unfold accept. fold log. rewrite Htake.
    pose proof (l_head0 i) as Hh. fold log in Hh.
    destruct (N.to_nat (PrevLogIndex m)) as [|p]; [by rewrite Hh in He; injection He as <-|].
    rewrite <- app_assoc, lookup_app_l; [by rewrite lookup_take_lt by lia|].
    rewrite length_take. apply lookup_lt_Some in He. lia.
  - intros j. case_decide; [|auto]. cbn. unfold accept. fold log.
    pose proof (lookup_lt_Some _ _ _ He).
    rewrite contig_app. split; [apply contig_take, l_contig0|].
    rewrite length_take, Nat2N.inj_min, N2Nat.id, N.min_l by lia.
    apply reconcile_contig; [|done].
    replace (0 + (PrevLogIndex m + 1)) with (0 + N.of_nat (N.to_nat (PrevLogIndex m + 1))) by lia.
    apply contig_drop, l_contig0.
  - intros x Hx%Hback. destruct (l_elected0 _ Hx) as (c & Hc & Hin). exists c.
    split; [done|]. case_decide; [|done]. subst c. cbn. by rewrite Hrole.
  - intros j x. case_decide; [|auto]. cbn. fold log. intros [Hx|Hx]%Hacc.
    + by apply l_terms0.
    + rewrite <- Hterm. by apply l_mterms0.
Qed.

Lemma links_snoc log a e x :
  last log = Some a → x ∈ links (log ++ [e]) → x ∈ links log ∨ x = (Log.Term a, e).
Proof.
  intros [log' ->]%last_Some. rewrite <- app_assoc. cbn [app].
  intros [Hx|Hx]%links_split; [by left|right].
  rewrite links_cons2 in Hx. by apply list_elem_of_singleton in Hx.
Qed.

Lemma LInv_propose s i cmd :
  EInv members s → LInv s → arole (s.(anode) i) = StateLeader →
  LInv (MkSys (upd s.(anode) i ((s.(anode) i) <| alog := alog (s.(anode) i) ++
            [MkEntry (aterm (s.(anode) i)) (lenN (alog (s.(anode) i))) cmd] |>))
          s.(net) s.(elected)).
Proof.
  intros HE HI Hlead. pose proof HI as []. set (log := alog (s.(anode) i)) in *.
  set (e := MkEntry _ _ _).
  pose proof (e_leader _ _ HE _ Hlead) as Hel.
  destruct (last log) as [a|] eqn:Hlast.
  2:{ apply last_None in Hlast. pose proof (l_head0 i) as Hh. fold log in Hh.
      by rewrite Hlast in Hh. }
  assert (Log.Term a ≤ aterm (s.(anode) i)) as Hat.
  { destruct (decide (log = [a])) as [E|NE].
    - pose proof (l_head0 i) as Hh. fold log in Hh. rewrite E in Hh. injection Hh as ->. cbn. lia.
    - apply last_Some in Hlast as [log' E]. destruct (last log') as [b|] eqn:Hb.
      + apply last_Some in Hb as [log'' ->]. rewrite <- app_assoc in E.
        assert ((Log.Term b, a) ∈ links log) as Hx.
        { rewrite E. apply links_app_r. left. }
        by apply l_terms0 in Hx as [_ Hx].
      + apply last_None in Hb as ->. done. }
  set (new := (Log.Term a, e)).
  assert (∀ x, sys_link s x → Log.Term x.2 = aterm (s.(anode) i) → Index x.2 < lenN log) as Hold.
  { intros x Hx Ht. destruct (l_elected0 _ Hx) as (c & Hc & Hin). rewrite Ht in Hc.
    rewrite (e_unique _ _ HE _ _ _ Hc Hel) in Hin.
    pose proof (links_index _ _ _ (l_contig0 i) (Hin Hlead (eq_sym Ht))) as [_ Hlt].
    fold log in Hlt. lia. }
  assert (∀ x, sys_link (MkSys (upd s.(anode) i ((s.(anode) i) <| alog := log ++ [e] |>))
          s.(net) s.(elected)) x → sys_link s x ∨ x = new) as Hback.
  { intros x [(j & Hx)|?]; [|left; by right]. cbn in Hx.
    case_decide; [|left; left; by exists j]. subst j. cbn in Hx.
    apply (links_snoc _ a) in Hx as [Hx|Hx]; [left; left; by exists i|by right|done]. }
  assert (∀ x, sys_link s x → Index x.2 = lenN log → Log.Term x.2 = aterm (s.(anode) i) → False)
    as Hfresh by (intros x Hx Hidx Ht; pose proof (Hold x Hx Ht); lia).
  split; cbn; auto.
  - intros j. case_decide; [|auto]. cbn.
    rewrite lookup_app_l; [apply l_head0|]. pose proof (l_head0 i) as Hh.
    by apply lookup_lt_Some in Hh.
  - intros j. case_decide; [|auto]. cbn. rewrite contig_app. split; [apply l_contig0|].
    by split.
  - intros x [Hx| ->]%Hback.
    + destruct (l_elected0 _ Hx) as (c & Hc & Hin). exists c. split; [done|].
      case_decide; [|done]. subst c. cbn. intros ??. by apply links_app_l, Hin.
    + exists i. split; [done|]. rewrite decide_True by done. cbn. intros _ _.
      apply last_Some in Hlast as [log' E]. rewrite E, <- app_assoc.
      apply links_app_r. left.
  - intros x y [Hx| ->]%Hback [Hy| ->]%Hback; auto; cbn.
    + intros Hidx Ht. by destruct (Hfresh x Hx).
    + intros Hidx Ht. by destruct (Hfresh y Hy).
  - intros j x. case_decide; [|auto]. cbn. subst j.
    intros [Hx| ->]%(links_snoc _ a); [by apply l_terms0|unfold e; cbn; lia|done].
Qed.

Lemma LInv_send s i m :
  LInv s → i ∈ members → m.(From) = i → may_send (s.(anode) i) m →
  LInv (MkSys s.(anode) (m :: s.(net)) s.(elected)).
Proof.
  intros HI Hi Hfrom Hsend. pose proof HI as [].
  destruct (decide (m.(Type_) = MsgAppendEntries)) as [Hty|Hty].
  2:{ apply (LInv_same_logs s); cbn; try done.
      by intros m' [->|?]%elem_of_cons ?. }
  unfold may_send in Hsend. rewrite Hty in Hsend. destruct Hsend as (Hrole & Hterm & Hlog).
  pose proof (λ x, links_from_log _ _ x Hlog) as Hsub.
  assert (∀ x, sys_link (MkSys s.(anode) (m :: s.(net)) s.(elected)) x → sys_link s x) as Hback.
  { intros x [Hx|(m' & Hm' & Hty' & Hx)]; [by left|].
    cbn in Hm'. apply elem_of_cons in Hm' as [->|?]; [left; exists i; by apply Hsub|].
    right. by exists m'. }
  split; cbn; auto.
  - intros m' [->|?]%elem_of_cons ?; [|auto]. destruct Hlog as [Hprev [k Hk]].
    destruct (alog _ !! _) as [e|] eqn:He in Hprev; [|done]. injection Hprev as Het. split.
    + pose proof (contig_drop 0 (alog (s.(anode) i)) (N.to_nat (PrevLogIndex m + 1))
        (l_contig0 i)) as Hc.
      rewrite Hk, contig_app in Hc. destruct Hc as [Hc _].
      by replace (0 + N.of_nat (N.to_nat (PrevLogIndex m + 1))) with (PrevLogIndex m + 1)
        in Hc by lia.
    + intros E. rewrite E, l_head0 in He. injection He as <-. by rewrite <- Het.
  - intros m' x [->|?]%elem_of_cons ? Hx; [|auto]. rewrite Hterm.
    apply l_terms0. by apply Hsub.
Qed.

Lemma step_LInv s s' : EInv members s → LInv s → step members s s' → LInv s'.
Proof.
  intros HE HI [| | | | | | | |i m ? ? ? ? ?|].
  - apply LInv_upd; cbn; [done|done|lia|done].
  - apply LInv_upd; cbn; [done|done|lia|done].
  - apply (LInv_same_logs s); cbn; try done.
    + intros j. by case_decide; subst.
    + intros j. by case_decide; subst.
    + by intros m' [->|?]%elem_of_cons.
    + intros j x Hx Hel. by case_decide; subst.
  - by apply LInv_upd.
  - by apply LInv_lead.
  - by apply LInv_upd.
  - by apply LInv_append.
  - by apply LInv_propose.
  - by apply (LInv_send s i).
  - by apply LInv_upd.
Qed.

Lemma reachable_LInv s : reachable members s → LInv s.
Proof.
  intros Hr. assert (EInv members s ∧ LInv s) as [_ ?]; [|done].
  revert s Hr. apply (rtc_ind_r (λ s, EInv members s ∧ LInv s) init).
  - split; [by apply init_EInv|apply init_LInv].
  - intros s s' _ Hstep [HE HI]. split; [by eapply step_EInv|by eapply step_LInv].
Qed.
End preservation.
