(* ===== verification/SpecCommit.v ===== *)
(** * Committed entries of the abstract protocol

    Two histories are added to a state of [Spec] to say which entries are committed: [tl],
    the log of the leader of each term at the end of its leadership, and [acks], the
    acknowledgements "[v] holds the first [k] entries of the leader of [T]".  An
    acknowledgement may be added whenever it is true ([ack_ok]); what a node really replies
    is compared with that in the file Commit.

    An entry is committed in term [T] at index [j] if it is of term [T] and a quorum backs
    it.  [CInv] is the invariant behind leader completeness.  Its central notion is [kept]:
    what a node backed in term [T] is still in its log, unless a leader of a later term
    lacked it.  The exception is then excluded by induction on the term ([completeness]):
    the quorums of the commit and of the later election share a node. *)
From S2P Require Import Prelude Log Message Node Spec SpecElection.
From Stdlib Require Import Strings.Byte.
Open Scope N_scope.

Abbreviation history := (N → list Entry).

(** The log has an entry of term [T] at index [j]. *)
Definition has (T : N) (j : nat) (log : list Entry) : Prop := Log.Term <$> log !! j = Some T.
#[export] Instance has_dec T j log : Decision (has T j log).
Proof. unfold has. apply _. Defined.

(** Log matching against the leaders: up to an entry of term [T] a log is the log of the
    leader of [T]. *)
Definition log_ok (tl : history) (log : list Entry) : Prop :=
  log !! 0%nat = Some dummy ∧
  ∀ k e, log !! k = Some e → take (S k) log `prefix_of` tl (Log.Term e).

Definition has_leader (s : Sys) (T : N) : Prop := ∃ c, (T, c) ∈ s.(elected).
#[export] Instance has_leader_dec s T : Decision (has_leader s T).
Proof.
  destruct (decide (T ∈ s.(elected).*1)) as [H|H]; [left|right].
  - apply list_elem_of_fmap in H as ([T' c] & -> & H). by exists c.
  - intros [c Hc]. apply H. apply list_elem_of_fmap. by exists (T, c).
Defined.

(** ** Logs and histories *)

Lemma has_lookup T j log : has T j log ↔ ∃ e, log !! j = Some e ∧ Log.Term e = T.
Proof. unfold has. rewrite fmap_Some. naive_solver. Qed.

Lemma has_lt T j log : has T j log → (j < length log)%nat.
Proof. intros (e & He & _)%has_lookup. by apply lookup_lt_Some in He. Qed.

Lemma has_unique T T' j log : has T j log → has T' j log → T = T'.
Proof. unfold has. congruence. Qed.

Lemma has_prefix T j log log' : log `prefix_of` log' → has T j log → has T j log'.
Proof.
  intros Hp (e & He & Ht)%has_lookup. apply has_lookup. exists e. split; [|done].
  by eapply prefix_lookup_Some.
Qed.

Lemma has_take T j k log : (j < k)%nat → has T j (take k log) ↔ has T j log.
Proof. intros. unfold has. by rewrite lookup_take_lt. Qed.

Lemma take_prefix {A} (l l' : list A) k :
  (k ≤ length l)%nat → l `prefix_of` l' → take k l' = take k l.
Proof. intros Hk [r ->]. by rewrite take_app_le. Qed.

Lemma take_eq_le {A} (l l' : list A) k j : (j ≤ k)%nat → take k l = take k l' → take j l = take j l'.
Proof.
  intros Hj E. replace j with (j `min` k)%nat by lia. by rewrite <- !take_take, E.
Qed.

Lemma has_take_eq T j k log log' :
  (j < k)%nat → take k log = take k log' → has T j log → has T j log'.
Proof. intros Hj E. by rewrite <- (has_take _ _ _ log Hj), E, has_take. Qed.

Section logs.
  Implicit Types (tl : history) (log : list Entry).

Lemma log_ok_at tl log T j :
  log_ok tl log → has T j log → take (S j) log = take (S j) (tl T).
Proof.
  intros [_ Hok] (e & He & <-)%has_lookup. pose proof (Hok _ _ He) as Hp.
  apply lookup_lt_Some in He.
  assert (S j ≤ length (take (S j) log))%nat as Hlen by (rewrite length_take; lia).
  by rewrite (take_prefix _ _ _ Hlen Hp), take_take, Nat.min_id.
Qed.

Lemma log_ok_has tl log T j : log_ok tl log → has T j log → has T j (tl T).
Proof. intros Hok Hh. eapply (has_take_eq _ _ (S j)); [lia|by apply log_ok_at|done]. Qed.

Lemma log_ok_agree tl log log' T j :
  log_ok tl log → log_ok tl log' → has T j log → has T j log' →
  take (S j) log = take (S j) log'.
Proof. intros H1 H2 ??. by rewrite (log_ok_at tl log T), (log_ok_at tl log' T). Qed.

Lemma log_ok_mono tl tl' log :
  (∀ T, tl T `prefix_of` tl' T) → log_ok tl log → log_ok tl' log.
Proof. intros Hp [? Hok]. split; [done|]. intros k e He. by etrans; [apply Hok|]. Qed.

Lemma log_ok_prefix tl P log :
  P ≠ [] → P `prefix_of` log → log_ok tl log → log_ok tl P.
Proof.
  intros Hne Hp [H0 Hok]. split.
  - destruct P as [|e P]; [done|]. rewrite <- H0. apply (prefix_lookup_lt (e :: P)); cbn; [lia|done].
  - intros k e He. pose proof (prefix_lookup_Some _ _ _ _ He Hp) as He'.
    apply lookup_lt_Some in He. rewrite <- (take_prefix P log) by (done || lia). by apply Hok.
Qed.

Lemma log_ok_take tl log k : log_ok tl log → log_ok tl (take (S k) log).
Proof.
  intros Hok. apply (log_ok_prefix tl _ log); [|apply prefix_take|done].
  destruct Hok as [H0 _]. by destruct log.
Qed.

(** A log that ends with an entry of term [T] is part of the log of the leader of [T]. *)
Lemma log_ok_last tl log e : log_ok tl log → last log = Some e → log `prefix_of` tl (Log.Term e).
Proof.
  intros [_ Hok] Hl. rewrite last_lookup in Hl. pose proof (Hok _ _ Hl) as Hp.
  rewrite take_ge in Hp; [done|]. lia.
Qed.

Lemma log_ok_nonempty tl log : log_ok tl log → (0 < length log)%nat.
Proof. intros [H0 _]. by apply lookup_lt_Some in H0. Qed.

(** Conflict resolution against a message cut from [full]: either nothing changes, because
    the log has all of the message, or the log becomes [full] up to the end of the message,
    having disagreed with it or ended before. *)
Lemma reconcile_cases old es :
  (∀ k a b, old !! k = Some a → es !! k = Some b → Log.Term a = Log.Term b →
     take (S k) old = take (S k) es) →
  reconcile old es = old ∧ es `prefix_of` old ∨
  reconcile old es = es ∧
    (length old < length es ∨ ∃ k a b, old !! k = Some a ∧ es !! k = Some b ∧
       Log.Term a ≠ Log.Term b)%nat.
Proof.
  revert old. induction es as [|n ns IH]; intros old Hmatch.
  { left. split; [by destruct old|apply prefix_nil]. }
  destruct old as [|o os]; [right; cbn; split; [done|left; lia]|]. cbn [reconcile].
  destruct (N.eqb_spec (Log.Term o) (Log.Term n)) as [E|NE].
  - pose proof (Hmatch 0%nat o n eq_refl eq_refl E) as [= ->].
    destruct (IH os) as [[-> Hp]|[-> Hc]].
    + intros k a b Ha Hb Hab. by injection (Hmatch (S k) a b Ha Hb Hab).
    + left. split; [done|]. by apply prefix_cons.
    + right. split; [done|]. destruct Hc as [?|(k & a & b & ? & ? & ?)]; [left; cbn; lia|].
      right. by exists (S k), a, b.
  - right. split; [done|]. right. by exists 0%nat, o, n.
Qed.

(** Where the entries of a message end. *)
Definition msg_end (m : Message) : nat :=
  (N.to_nat (m.(PrevLogIndex) + 1) + length m.(Message.Entries))%nat.

Lemma from_log_take full m :
  from_log full m →
  has m.(PrevLogTerm) (N.to_nat m.(PrevLogIndex)) full ∧
  take (msg_end m) full = take (N.to_nat (m.(PrevLogIndex) + 1)) full ++ m.(Message.Entries) ∧
  (msg_end m ≤ length full)%nat.
Proof.
  intros [Hprev [r Hr]]. split; [done|]. unfold msg_end.
  pose proof (has_lt _ _ _ Hprev) as Hlt. set (lo := N.to_nat (PrevLogIndex m + 1)) in *.
  assert (full = take lo full ++ Message.Entries m ++ r) as E by by rewrite <- Hr, take_drop.
  assert (length (take lo full) = lo) as Hlen by (rewrite length_take; lia).
  split.
  - rewrite E at 1. rewrite app_assoc, take_app_length'; [done|].
    rewrite length_app. lia.
  - rewrite E, !length_app. lia.
Qed.

Lemma from_log_mono full full' m : full `prefix_of` full' → from_log full m → from_log full' m.
Proof.
  intros Hp [Hprev Hes]. pose proof (has_lt _ _ _ Hprev) as Hlt. split.
  - by apply (has_prefix _ _ full).
  - destruct Hp as [r ->]. rewrite drop_app_le by lia.
    destruct Hes as [r' ->]. exists (r' ++ r). by rewrite app_assoc.
Qed.

Lemma accept_cases tl log full m :
  log_ok tl log → log_ok tl full → from_log full m →
  prev_matches log m.(PrevLogIndex) m.(PrevLogTerm) →
  accept log m = log ∧ take (msg_end m) log = take (msg_end m) full ∨
  accept log m = take (msg_end m) full ∧
    (length log < msg_end m ∨ ∃ j a b, j < msg_end m ∧ log !! j = Some a ∧ full !! j = Some b ∧
       Log.Term a ≠ Log.Term b)%nat.
Proof.
  intros Hlog Hfull Hm Hprev. destruct (from_log_take _ _ Hm) as (Hpf & Hend & Hle).
  assert (has m.(PrevLogTerm) (N.to_nat m.(PrevLogIndex)) log) as Hpl.
  { destruct Hprev as [E|E]; [|done]. rewrite E in *. unfold has in *. change (N.to_nat 0) with 0%nat in *.
    destruct Hlog as [-> _], Hfull as [E0 _]. by rewrite E0 in Hpf. }
  pose proof (log_ok_agree _ _ _ _ _ Hlog Hfull Hpl Hpf) as HC.
  unfold accept. rewrite Hend. unfold msg_end in *.
  replace (N.to_nat (PrevLogIndex m + 1)) with (S (N.to_nat (PrevLogIndex m))) in * by lia.
  set (lo := S (N.to_nat (PrevLogIndex m))) in *. set (es := Message.Entries m) in *.
  assert (lo ≤ length log)%nat as Hlo by (apply has_lt in Hpl; unfold lo; lia).
  assert (length (take lo log) = lo) as Hlen by (rewrite length_take; lia).
  assert (∀ k, (k ≤ length es)%nat → take (lo + k) full = take lo log ++ take k es) as Htake.
  { intros k Hk. replace (lo + k)%nat with ((lo + k) `min` (lo + length es))%nat by lia.
    rewrite <- take_take, Hend, <- HC, take_app_ge by lia. by rewrite Hlen, Nat.add_sub_swap, Nat.sub_diag by lia. }
  assert (∀ k, take (lo + k) log = take lo log ++ take k (drop lo log)) as Htakel.
  { intros k. rewrite <- (take_drop lo log) at 1. rewrite take_app_ge by lia.
    by rewrite Hlen, Nat.add_sub_swap, Nat.sub_diag by lia. }
  assert (∀ k b, es !! k = Some b → full !! (lo + k)%nat = Some b) as Hat.
  { intros k b Hb. pose proof (lookup_lt_Some _ _ _ Hb).
    rewrite <- (lookup_take_lt full (lo + length es)), Hend, <- HC by lia.
    rewrite lookup_app_r by lia. by replace (lo + k - _)%nat with k by lia. }
  destruct (reconcile_cases (drop lo log) es) as [[-> Hp]|[-> Hc]].
  - intros k a b Ha Hb Hab. rewrite lookup_drop in Ha.
    assert (take (S (lo + k)) log = take (S (lo + k)) full) as E.
    { apply (log_ok_agree tl _ _ (Log.Term a)); [done..| |].
      - apply has_lookup. by exists a.
      - apply has_lookup. exists b. split; [by apply Hat|done]. }
    replace (S (lo + k)) with (lo + S k)%nat in E by lia.
    apply lookup_lt_Some in Hb. rewrite Htakel, Htake in E by lia.
    by apply app_inv_head in E.
  - left. split; [by rewrite take_drop|]. rewrite Htakel, HC. f_equal.
    destruct Hp as [r ->]. by rewrite take_app_length.
  - right. rewrite <- HC. split; [done|]. destruct Hc as [Hc|(k & a & b & Ha & Hb & Hab)].
    + left. rewrite length_drop in Hc. lia.
    + right. exists (lo + k)%nat, a, b. rewrite lookup_drop in Ha.
      pose proof (lookup_lt_Some _ _ _ Hb). split_and!; [lia|done|by apply Hat|done].
Qed.

End logs.

(** ** The invariant *)

Abbreviation ack := (N * N * nat)%type.   (* (node, term, length of the log) *)

(** What [v] backs in term [T]: as the leader of [T], or by an acknowledgement. *)
Definition backs (s : Sys) (acks : list ack) (v T : N) (j : nat) : Prop :=
  (T, v) ∈ s.(elected) ∨ ∃ k, (v, T, k) ∈ acks ∧ (j < k)%nat.

(** [log], seen at a term of at most [B], has the entry [j] of term [T], unless a leader
    after [T] lacked it. *)
Definition kept (s : Sys) (tl : history) (T : N) (j : nat) (B : N) (log : list Entry) : Prop :=
  has T j log ∨ ∃ T', has_leader s T' ∧ T < T' ∧ T' ≤ B ∧ ¬ has T j (tl T').

(** [vl] is a log of the voter [v] when it voted in term [T']. *)
Definition voted (s : Sys) (tl : history) (acks : list ack) (v T' B : N) (vl : list Entry) : Prop :=
  log_ok tl vl ∧
  ∀ T j, T < T' → backs s acks v T j → has T j (tl T) → kept s tl T j B vl.

Section commit.
  Context (members : gset N).
  Hypothesis members_nonzero : 0 ∉ members.
  Implicit Types (s : Sys) (tl : history) (acks : list ack) (m : Message).

Record CInv s tl acks : Prop := {
  c_zero : tl 0 = [dummy];
  c_none : ∀ T, T ≠ 0 → ¬ has_leader s T → tl T = [];
  c_pos : ∀ i, arole (s.(anode) i) ≠ StateFollower → 0 < aterm (s.(anode) i);
  c_leader : ∀ i, arole (s.(anode) i) = StateLeader →
    alog (s.(anode) i) = tl (aterm (s.(anode) i));
  c_logs : ∀ i, log_ok tl (alog (s.(anode) i));
  c_hist : ∀ T, has_leader s T → 0 < T ∧ log_ok tl (tl T);
  c_bound : ∀ T k e, tl T !! k = Some e → Log.Term e ≤ T;
  c_terms : ∀ i k e, alog (s.(anode) i) !! k = Some e → Log.Term e ≤ aterm (s.(anode) i);
  c_msgs : ∀ m, m ∈ s.(net) → m.(Type_) = MsgAppendEntries → from_log (tl m.(Message.Term)) m;
  c_requests : ∀ m, m ∈ s.(net) → m.(Type_) = MsgRequestVote →
    m.(Message.Term) ≤ aterm (s.(anode) m.(From)) ∧
    (arole (s.(anode) m.(From)) = StateCandidate →
     m.(Message.Term) = aterm (s.(anode) m.(From)) →
     (m.(LastLogIndex), m.(LastLogTerm)) = log_last (alog (s.(anode) m.(From))));
  c_acks : ∀ v T k, (v, T, k) ∈ acks →
    has_leader s T ∧ T ≤ aterm (s.(anode) v) ∧ (k ≤ length (tl T))%nat;
  c_kept : ∀ v T j, backs s acks v T j → has T j (tl T) →
    kept s tl T j (aterm (s.(anode) v)) (alog (s.(anode) v));
  c_votes : ∀ v c T, granted s.(net) v c T → ∃ vl m,
    voted s tl acks v T T vl ∧ m ∈ s.(net) ∧ m.(Type_) = MsgRequestVote ∧ m.(From) = c ∧
    m.(Message.Term) = T ∧ up_to_date vl m.(LastLogIndex) m.(LastLogTerm);
  c_elections : ∀ T l, (T, l) ∈ s.(elected) → ∃ E Q,
    E `prefix_of` tl T ∧ E ≠ [] ∧ (∀ k e, E !! k = Some e → Log.Term e < T) ∧
    quorum members Q ∧ ∀ v, v ∈ Q → T ≤ aterm (s.(anode) v) ∧
      ∃ vl, voted s tl acks v T (T - 1) vl ∧ up_to_date vl (log_last E).1 (log_last E).2;
}.

(** ** Leader completeness *)

(** Committed in term [T] at index [j]. *)
Definition committed s tl acks (T : N) (j : nat) : Prop :=
  has T j (tl T) ∧ ∃ Q, quorum members Q ∧ ∀ v, v ∈ Q → backs s acks v T j.

Lemma CInv_term s tl acks log T j :
  CInv s tl acks → log_ok tl log → has T j log → T = 0 ∨ has_leader s T.
Proof.
  intros HC Hok Hh. destruct (decide (T = 0)) as [->|HT]; [by left|right].
  apply dec_stable. intros Hn. apply (log_ok_has tl) in Hh; [|done].
  rewrite (c_none _ _ _ HC) in Hh by done. by apply has_lt in Hh; cbn in Hh; lia.
Qed.

(** Terms do not decrease along the log of a leader. *)
Lemma CInv_sorted s tl acks log T T' j k :
  CInv s tl acks → log_ok tl log → has T j log → has T' k log → (j ≤ k)%nat → T ≤ T'.
Proof.
  intros HC Hok Hj Hk Hle.
  pose proof (log_ok_at _ _ _ _ Hok Hk) as E.
  apply (has_take_eq _ _ _ _ _ (proj2 (Nat.lt_succ_r _ _) Hle) E) in Hj.
  apply has_lookup in Hj as (e & He & <-). by eapply (c_bound _ _ _ HC).
Qed.

Lemma log_last_has log e :
  last log = Some e → log_last log = (lenN log - 1, Log.Term e) ∧
  has (Log.Term e) (length log - 1) log.
Proof.
  intros He. unfold log_last. rewrite He. split; [done|]. apply has_lookup. exists e.
  split; [|done]. rewrite last_lookup in He. by rewrite <- Nat.sub_1_r in He.
Qed.

(** The step of the induction: what a voter kept, the winner it voted for has. *)
Lemma voter_to_leader s tl acks T T' j E vl :
  CInv s tl acks → (∀ T'', has_leader s T'' → T < T'' → T'' < T' → has T j (tl T'')) →
  T < T' → has T j (tl T) → E `prefix_of` tl T' → E ≠ [] → log_ok tl (tl T') →
  (∀ k e, E !! k = Some e → Log.Term e < T') →
  log_ok tl vl → up_to_date vl (log_last E).1 (log_last E).2 → has T j vl →
  has T j (tl T').
Proof.
  intros HC IH HT Hh Hp Hne Hok' Hlt Hvl Hup Hhv. apply (has_prefix _ _ E); [done|].
  pose proof (log_ok_prefix _ _ _ Hne Hp Hok') as HokE.
  destruct (last E) as [e|] eqn:He; [|by apply last_None in He].
  destruct (log_last_has _ _ He) as [HlE HhE]. rewrite HlE in Hup. cbn [fst snd] in Hup.
  destruct (last vl) as [v|] eqn:Hv.
  2: { apply last_None in Hv as ->. by apply has_lt in Hhv; cbn in Hhv; lia. }
  destruct (log_last_has _ _ Hv) as [Hlv Hhlv]. unfold up_to_date in Hup.
  rewrite Hlv in Hup. cbn [fst snd] in Hup.
  pose proof (has_lt _ _ _ Hhv) as Hjv. pose proof (has_lt _ _ _ HhE) as HjE.
  assert (T ≤ Log.Term v) as HTv.
  { eapply (CInv_sorted s tl acks vl _ _ j (length vl - 1)); try done. lia. }
  pose proof (log_ok_last _ _ _ HokE He) as HpE.
  destruct (decide (Log.Term e = T)) as [Heq|Hneq].
  - rewrite Heq in HpE. assert (j < length E)%nat as HjE' by lia.
    destruct HpE as [r Hr]. rewrite Hr in Hh. unfold has in *.
    by rewrite lookup_app_l in Hh.
  - assert (T < Log.Term e) as HTe by lia.
    assert (has_leader s (Log.Term e)) as Hel.
    { destruct (CInv_term _ _ _ _ _ _ HC HokE HhE); [lia|done]. }
    assert (has T j (tl (Log.Term e))) as Hhe.
    { apply IH; [done|done|]. apply has_lookup in HhE as (e' & He' & Ht').
      rewrite <- Ht'. by eapply Hlt. }
    pose proof (has_prefix _ _ _ _ HpE HhE) as HhE'.
    destruct (decide (j < length E)%nat) as [Hj|Hj].
    + destruct HpE as [r Hr]. rewrite Hr in Hhe. unfold has in *.
      by rewrite lookup_app_l in Hhe.
    + assert (Log.Term e ≤ T); [|lia].
      eapply (CInv_sorted s tl acks (tl (Log.Term e)) _ _ (length E - 1) j); try done; [|lia].
      by apply (c_hist _ _ _ HC).
Qed.

(** Leader completeness: an entry committed in term [T] is in the log of every leader of a
    later term. *)
Lemma completeness s tl acks T j T' :
  CInv s tl acks → committed s tl acks T j → has_leader s T' → T < T' → has T j (tl T').
Proof.
  intros HC [Hh (Q & HQ & Hbacks)].
  induction T' as [T' IH] using (well_founded_induction N.lt_wf_0). intros Hel HT.
  destruct Hel as [l Hl]. destruct (c_elections _ _ _ HC _ _ Hl) as (E & Q' & Hp & Hne & Hlt & HQ' & Hq).
  destruct (quorum_intersect _ _ _ HQ HQ') as (v & Hv & Hv' & _).
  destruct (Hq _ Hv') as (_ & vl & [Hvl Hkept] & Hup).
  assert (log_ok tl (tl T')) as Hok' by (apply (c_hist _ _ _ HC); by exists l).
  assert (∀ T'', has_leader s T'' → T < T'' → T'' < T' → has T j (tl T'')) as IH'.
  { intros T'' ? ? ?. by apply IH. }
  apply (voter_to_leader s tl acks T T' j E vl); try done.
  destruct (Hkept T j HT (Hbacks _ Hv) Hh) as [?|(T'' & ? & ? & ? & Hno)]; [done|].
  destruct Hno. apply IH'; [done|done|lia].
Qed.

(** Two committed prefixes agree. *)
Lemma committed_agree s tl acks T T' j j' k :
  CInv s tl acks → committed s tl acks T j → committed s tl acks T' j' →
  (k ≤ j)%nat → (k ≤ j')%nat → take (S k) (tl T) = take (S k) (tl T').
Proof.
  intros HC. revert T T' j j'.
  assert (∀ T T' j j', committed s tl acks T j → committed s tl acks T' j' →
    (k ≤ j)%nat → T < T' → take (S k) (tl T) = take (S k) (tl T')) as Hlt.
  { intros T T' j j' Hc Hc' Hk HT.
    assert (has_leader s T') as Hel.
    { destruct Hc' as [Hh' _]. destruct (decide (has_leader s T')) as [|Hn]; [done|].
      rewrite (c_none _ _ _ HC) in Hh' by (done || lia). by apply has_lt in Hh'; cbn in Hh'; lia. }
    apply (take_eq_le _ _ (S j)); [lia|]. symmetry. apply log_ok_at.
    - by apply (c_hist _ _ _ HC).
    - by eapply completeness. }
  intros T T' j j' Hc Hc' Hk Hk'. destruct (N.lt_trichotomy T T') as [?|[->|?]].
  - by eapply Hlt.
  - done.
  - symmetry. by eapply (Hlt T' T j' j).
Qed.

(** ** Evolution of the histories *)

(** What every step guarantees: leaders' logs grow by entries of their own term, and a node
    only takes on new backings in its current term. *)
Record evolves s tl acks s' tl' acks' : Prop := {
  ev_prefix : ∀ T, tl T `prefix_of` tl' T;
  ev_leader : ∀ T, has_leader s T → has_leader s' T;
  ev_own : ∀ T T' j, has_leader s T' → T < T' → has T j (tl' T') → has T j (tl T');
  ev_term : ∀ i, aterm (s.(anode) i) ≤ aterm (s'.(anode) i);
  ev_backs : ∀ v T j, backs s' acks' v T j → has T j (tl' T) →
    (backs s acks v T j ∧ has T j (tl T)) ∨ T = aterm (s.(anode) v);
}.

Lemma kept_evolves s tl acks s' tl' acks' T j B B' log :
  evolves s tl acks s' tl' acks' → B ≤ B' → kept s tl T j B log → kept s' tl' T j B' log.
Proof.
  intros [] HB [?|(T' & Hel & HT & HTB & Hno)]; [by left|right].
  exists T'. split_and!; [by apply ev_leader0|done|lia|]. intros Hh. by eapply Hno, ev_own0.
Qed.

Lemma voted_evolves s tl acks s' tl' acks' v T B vl :
  evolves s tl acks s' tl' acks' → T ≤ aterm (s.(anode) v) →
  voted s tl acks v T B vl → voted s' tl' acks' v T B vl.
Proof.
  intros Hev HT [Hok Hk]. split; [by apply (log_ok_mono tl); [apply Hev|]|].
  intros T' j HT' Hb Hh.
  destruct (ev_backs _ _ _ _ _ _ Hev _ _ _ Hb Hh) as [[Hb' Hh']|E]; [|lia].
  by eapply kept_evolves; [done| |apply Hk].
Qed.

(** The quorum behind an old election stays. *)
Lemma election_evolves s tl acks s' tl' acks' T l :
  evolves s tl acks s' tl' acks' → CInv s tl acks → (T, l) ∈ s.(elected) → ∃ E Q,
    E `prefix_of` tl' T ∧ E ≠ [] ∧ (∀ k e, E !! k = Some e → Log.Term e < T) ∧
    quorum members Q ∧ ∀ v, v ∈ Q → T ≤ aterm (s'.(anode) v) ∧
      ∃ vl, voted s' tl' acks' v T (T - 1) vl ∧ up_to_date vl (log_last E).1 (log_last E).2.
Proof.
  intros Hev HC Hl. destruct (c_elections _ _ _ HC _ _ Hl) as (E & Q & HE & ? & ? & ? & Hq).
  exists E, Q. split_and!; try done; [etrans; [done|apply Hev]|].
  intros v Hv. destruct (Hq _ Hv) as (HT & vl & Hvl & ?).
  pose proof (ev_term _ _ _ _ _ _ Hev v). split; [lia|]. exists vl. split; [|done].
  by eapply voted_evolves.
Qed.

Lemma vote_evolves s tl acks s' tl' acks' v c T :
  evolves s tl acks s' tl' acks' → EInv members s → CInv s tl acks →
  (∀ m, m ∈ s.(net) → m ∈ s'.(net)) → granted s.(net) v c T → ∃ vl m,
    voted s' tl' acks' v T T vl ∧ m ∈ s'.(net) ∧ m.(Type_) = MsgRequestVote ∧
    m.(From) = c ∧ m.(Message.Term) = T ∧ up_to_date vl m.(LastLogIndex) m.(LastLogTerm).
Proof.
  intros Hev HE HC Hnet Hg.
  destruct (c_votes _ _ _ HC _ _ _ Hg) as (vl & m & Hvl & Hm & ?). exists vl, m.
  split; [|by split; [apply Hnet|]]. eapply voted_evolves; [done| |done].
  by apply (e_granted _ _ HE v c).
Qed.

(** Histories and elections unchanged. *)
Lemma evolves_quiet s s' tl acks :
  s'.(elected) = s.(elected) → (∀ i, aterm (s.(anode) i) ≤ aterm (s'.(anode) i)) →
  evolves s tl acks s' tl acks.
Proof.
  intros Hel Ht. split; try done.
  - intros T. unfold has_leader. by rewrite Hel.
  - intros v T j. unfold backs. rewrite Hel. by left.
Qed.

(** ** Steps that leave the logs and the histories alone *)

Record calm (a b : ANode) : Prop := {
  calm_log : b.(alog) = a.(alog);
  calm_term : a.(aterm) ≤ b.(aterm);
  calm_pos : b.(arole) ≠ StateFollower → a.(aterm) < b.(aterm) ∨ a.(arole) ≠ StateFollower;
  calm_leader : b.(arole) = StateLeader → a.(arole) = StateLeader ∧ b.(aterm) = a.(aterm);
  calm_candidate : b.(arole) = StateCandidate →
    a.(aterm) < b.(aterm) ∨ a.(arole) = StateCandidate;
}.

(** Steps that change no log: nodes move calmly, and new messages are accounted for. *)
Lemma CInv_calm s s' tl acks :
  EInv members s → CInv s tl acks → s'.(elected) = s.(elected) →
  (∀ i, calm (s.(anode) i) (s'.(anode) i)) → (∀ m, m ∈ s.(net) → m ∈ s'.(net)) →
  (∀ m, m ∈ s'.(net) → m.(Type_) = MsgAppendEntries →
     m ∈ s.(net) ∨ from_log (tl m.(Message.Term)) m) →
  (∀ m, m ∈ s'.(net) → m.(Type_) = MsgRequestVote →
     m ∈ s.(net) ∨ m.(Message.Term) = aterm (s.(anode) m.(From)) ∧
       (m.(LastLogIndex), m.(LastLogTerm)) = log_last (alog (s.(anode) m.(From)))) →
  (∀ v c T, granted s'.(net) v c T → granted s.(net) v c T ∨ ∃ vl m,
     voted s tl acks v T T vl ∧ T ≤ aterm (s.(anode) v) ∧ m ∈ s.(net) ∧
     m.(Type_) = MsgRequestVote ∧ m.(From) = c ∧
     m.(Message.Term) = T ∧ up_to_date vl m.(LastLogIndex) m.(LastLogTerm)) →
  CInv s' tl acks.
Proof.
  intros HE HC Hel Hcalm Hnet Hmsgs Hreqs Hvotes. pose proof HC as [].
  assert (evolves s tl acks s' tl acks) as Hev.
  { apply evolves_quiet; [done|]. intros i. apply Hcalm. }
  assert (∀ T, has_leader s' T ↔ has_leader s T) as Hhl by (intros T; unfold has_leader; by rewrite Hel).
  split; try done.
  - intros T HT Hn. apply c_none0; [done|]. by rewrite <- Hhl.
  - intros i Hi. pose proof (calm_term _ _ (Hcalm i)).
    destruct (calm_pos _ _ (Hcalm i) Hi) as [?|?%c_pos0]; lia.
  - intros i Hi. destruct (calm_leader _ _ (Hcalm i) Hi) as [Hl ->].
    rewrite (calm_log _ _ (Hcalm i)). by apply c_leader0.
  - intros i. rewrite (calm_log _ _ (Hcalm i)). apply c_logs0.
  - intros T. rewrite Hhl. apply c_hist0.
  - intros i k e. rewrite (calm_log _ _ (Hcalm i)). intros He%c_terms0.
    pose proof (calm_term _ _ (Hcalm i)). lia.
  - intros m Hm Hty. destruct (Hmsgs m Hm Hty) as [?|?]; [by apply c_msgs0|done].
  - intros m Hm Hty. pose proof (calm_term _ _ (Hcalm (From m))) as Ht.
    rewrite (calm_log _ _ (Hcalm (From m))).
    destruct (Hreqs m Hm Hty) as [Hold|[E ?]]; [|split; [lia|done]].
    destruct (c_requests0 m Hold Hty) as [Hle Hlast]. split; [lia|]. intros Hc E.
    destruct (calm_candidate _ _ (Hcalm (From m)) Hc); [lia|]. apply Hlast; [done|lia].
  - intros v T k Hk. destruct (c_acks0 _ _ _ Hk) as (? & ? & ?).
    pose proof (calm_term _ _ (Hcalm v)). split_and!; [by apply Hhl|lia|done].
  - intros v T j Hb Hh. rewrite (calm_log _ _ (Hcalm v)).
    eapply kept_evolves; [done|apply Hcalm|]. apply c_kept0; [|done].
    unfold backs in *. by rewrite <- Hel.
  - intros v c T Hg. destruct (Hvotes _ _ _ Hg) as [Hold|(vl & m & Hvl & HT & Hm & ?)].
    + by eapply vote_evolves.
    + exists vl, m. split; [by eapply voted_evolves|]. split; [by apply Hnet|done].
  - intros T l. rewrite Hel. intros Hl. by eapply election_evolves.
Qed.

Lemma calm_refl a : calm a a.
Proof. by split; auto. Qed.

Lemma CInv_local s tl acks i a :
  EInv members s → CInv s tl acks → calm (s.(anode) i) a →
  CInv (MkSys (upd s.(anode) i a) s.(net) s.(elected)) tl acks.
Proof.
  intros HE HC Ha. apply (CInv_calm s); try done; cbn; auto.
  intros j. case_decide; [by subst|apply calm_refl].
Qed.

Lemma CInv_vote s tl acks i m :
  EInv members s → CInv s tl acks → deliverable s i m → m.(Type_) = MsgRequestVote →
  m.(Message.Term) = aterm (s.(anode) i) →
  up_to_date (alog (s.(anode) i)) m.(LastLogIndex) m.(LastLogTerm) →
  CInv (MkSys (upd s.(anode) i ((s.(anode) i) <| avote := m.(From) |>))
          (NewRequestVoteResp i m.(From) m.(Message.Term) true :: s.(net)) s.(elected)) tl acks.
Proof.
  intros HE HC [Hm _] Hty Hterm Hup. apply (CInv_calm s); try done; cbn -[NewRequestVoteResp].
  - intros j. case_decide; [subst; split; cbn; auto; lia|apply calm_refl].
  - intros m' ?. by right.
  - intros m' [->|?]%elem_of_cons ?; [done|by left].
  - intros m' [->|?]%elem_of_cons ?; [done|by left].
  - intros v c T [Hg|(_ & _ & <- & <- & <-)]%granted_cons; [by left|right].
    exists (alog (s.(anode) i)), m. split_and!; try done; [|by rewrite Hterm].
    split; [apply HC|]. intros T' j HT Hb Hh. rewrite Hterm. by apply (c_kept _ _ _ HC).
Qed.

Lemma CInv_send s tl acks i m :
  EInv members s → CInv s tl acks → m.(From) = i → may_send (s.(anode) i) m →
  CInv (MkSys s.(anode) (m :: s.(net)) s.(elected)) tl acks.
Proof.
  intros HE HC Hfrom Hsend. apply (CInv_calm s); try done; cbn.
  - intros j. apply calm_refl.
  - intros m' ?. by right.
  - intros m' [->|?]%elem_of_cons Hty; [right|by left]. unfold may_send in Hsend.
    rewrite Hty in Hsend. destruct Hsend as (Hl & -> & Hlog).
    by rewrite <- (c_leader _ _ _ HC).
  - intros m' [->|?]%elem_of_cons Hty; [right|by left]. unfold may_send in Hsend.
    rewrite Hty in Hsend. by rewrite Hfrom.
  - intros v c T Hg. left. eapply granted_send; [|done]. unfold may_send in Hsend.
    destruct (Type_ m) eqn:E; (by left) || by right.
Qed.

(** ** Accepting entries *)

(** Entries backed in earlier terms survive, or the leader that overwrote them lacked
    them. *)
Lemma kept_accept s tl acks i m T j :
  CInv s tl acks → m ∈ s.(net) → m.(Type_) = MsgAppendEntries →
  has_leader s m.(Message.Term) → m.(Message.Term) = aterm (s.(anode) i) →
  prev_matches (alog (s.(anode) i)) m.(PrevLogIndex) m.(PrevLogTerm) →
  T ≤ aterm (s.(anode) i) → has T j (tl T) →
  kept s tl T j (aterm (s.(anode) i)) (alog (s.(anode) i)) →
  kept s tl T j (aterm (s.(anode) i)) (accept (alog (s.(anode) i)) m).
Proof.
  intros HC Hm Hty Hel Hterm Hprev HT Hh [Hk|?]; [|by right].
  set (log := alog (s.(anode) i)) in *. set (full := tl (Message.Term m)).
  destruct (c_hist _ _ _ HC _ Hel) as [_ Hfull]. fold full in Hfull.
  pose proof (c_logs _ _ _ HC i) as Hlog. fold log in Hlog.
  pose proof (c_msgs _ _ _ HC _ Hm Hty) as Hmsg. fold full in Hmsg.
  destruct (accept_cases tl log full m Hlog Hfull Hmsg Hprev) as [[-> _]|[-> Hc]]; [by left|].
  destruct (decide (has T j full)) as [Hf|Hf].
  - left. apply has_take; [|done]. pose proof (log_ok_agree _ _ _ _ _ Hlog Hfull Hk Hf) as E.
    pose proof (has_lt _ _ _ Hk).
    destruct Hc as [?|(q & a & b & Hq & Ha & Hb & Hab)]; [lia|].
    destruct (decide (q ≤ j)%nat) as [Hqj|]; [|lia]. destruct Hab.
    rewrite <- (lookup_take_lt _ (S j)), E, lookup_take_lt in Ha by lia. congruence.
  - right. exists m.(Message.Term). split_and!; [done| |lia|done].
    destruct (decide (T = Message.Term m)) as [E|]; [|lia]. destruct Hf. unfold full.
    by rewrite <- E.
Qed.

Lemma accept_ok s tl acks i m :
  CInv s tl acks → m ∈ s.(net) → m.(Type_) = MsgAppendEntries →
  has_leader s m.(Message.Term) →
  prev_matches (alog (s.(anode) i)) m.(PrevLogIndex) m.(PrevLogTerm) →
  log_ok tl (accept (alog (s.(anode) i)) m).
Proof.
  intros HC Hm Hty Hel Hprev. destruct (c_hist _ _ _ HC _ Hel) as [_ Hfull].
  destruct (accept_cases tl _ _ m (c_logs _ _ _ HC i) Hfull (c_msgs _ _ _ HC _ Hm Hty) Hprev)
    as [[-> _]|[-> _]]; [apply HC|].
  unfold msg_end. replace (N.to_nat (PrevLogIndex m + 1) + _)%nat
    with (S (N.to_nat (PrevLogIndex m) + length m.(Message.Entries))) by lia.
  by apply log_ok_take.
Qed.

Lemma CInv_append s tl acks i m :
  EInv members s → CInv s tl acks → deliverable s i m → m.(Type_) = MsgAppendEntries →
  m.(Message.Term) = aterm (s.(anode) i) → arole (s.(anode) i) = StateFollower →
  prev_matches (alog (s.(anode) i)) m.(PrevLogIndex) m.(PrevLogTerm) →
  CInv (MkSys (upd s.(anode) i ((s.(anode) i) <| alog := accept (alog (s.(anode) i)) m |>))
          s.(net) s.(elected)) tl acks.
Proof.
  intros HE HC [Hm Hto] Hty Hterm Hrole Hprev. pose proof HC as [].
  assert (has_leader s (Message.Term m)) as Hel by (eexists; by apply (e_append _ _ HE)).
  set (a := (s.(anode) i) <| alog := _ |>).
  assert (∀ j, arole (upd s.(anode) i a j) = arole (s.(anode) j) ∧
    aterm (upd s.(anode) i a j) = aterm (s.(anode) j)) as Hsame
    by (intros j; cbn; by case_decide; subst).
  assert (∀ j, arole (s.(anode) j) ≠ StateFollower → upd s.(anode) i a j = s.(anode) j) as Hother.
  { intros j Hj. apply upd_ne. by intros ->. }
  set (s' := MkSys _ _ _).
  assert (evolves s tl acks s' tl acks) as Hev.
  { apply evolves_quiet; [done|]. intros j. apply N.eq_le_incl. symmetry. apply Hsame. }
  split; try done; cbn [anode s'].
  - intros j. rewrite (proj1 (Hsame j)), (proj2 (Hsame j)). apply c_pos0.
  - intros j. rewrite (proj1 (Hsame j)). intros Hj. rewrite Hother by congruence. by apply c_leader0.
  - intros j. cbn. case_decide; [|apply c_logs0]. cbn. by eapply accept_ok.
  - intros j k e. cbn. case_decide; [subst j; cbn|apply c_terms0].
    destruct (c_hist0 _ Hel) as [_ Hfull].
    destruct (accept_cases tl _ _ m (c_logs0 i) Hfull (c_msgs0 _ Hm Hty) Hprev)
      as [[-> _]|[-> _]]; [apply c_terms0|].
    intros He. rewrite <- Hterm. eapply c_bound0. by eapply prefix_lookup_Some, prefix_take.
  - intros m' Hm' Hty'. rewrite (proj1 (Hsame _)), (proj2 (Hsame _)).
    destruct (c_requests0 m' Hm' Hty') as [? Hlast]. split; [done|]. intros Hc.
    rewrite Hother by congruence. by apply Hlast.
  - intros v T k. rewrite (proj2 (Hsame _)). apply c_acks0.
  - intros v T j Hb Hh. rewrite (proj2 (Hsame _)).
    assert (T ≤ aterm (s.(anode) v)) as HT.
    { destruct Hb as [Hl|(k & Hk & _)]; [by apply (e_elected _ _ HE)|].
      by destruct (c_acks0 _ _ _ Hk) as (_ & ? & _). }
    eapply kept_evolves; [done|apply N.le_refl|]. pose proof (c_kept0 v T j Hb Hh) as Hk.
    cbn. case_decide; [subst v|done]. by eapply kept_accept.
  - intros T l Hl. exact (election_evolves _ _ _ _ _ _ T l Hev HC Hl).
Qed.

(** ** New leaders, new entries, new acknowledgements *)

Definition extend tl (T : N) (log : list Entry) : history :=
  λ T', if decide (T' = T) then log else tl T'.

Lemma extend_eq tl T log : extend tl T log T = log.
Proof. unfold extend. by rewrite decide_True. Qed.

Lemma extend_ne tl T log T' : T' ≠ T → extend tl T log T' = tl T'.
Proof. intros. unfold extend. by rewrite decide_False. Qed.

Lemma voted_strict s tl acks v T vl :
  ¬ has_leader s T → voted s tl acks v T T vl → voted s tl acks v T (T - 1) vl.
Proof.
  intros Hn [Hok Hk]. split; [done|]. intros T' j HT Hb Hh.
  destruct (Hk T' j HT Hb Hh) as [?|(T'' & Hel & ? & ? & ?)]; [by left|right].
  exists T''. split_and!; try done. destruct (decide (T'' = T)) as [->|]; [done|lia].
Qed.

(** The winner's votes, and its own log, are the records its election leaves. *)
Lemma winner_record s tl acks i v :
  EInv members s → CInv s tl acks → ¬ has_leader s (aterm (s.(anode) i)) →
  arole (s.(anode) i) = StateCandidate → v ∈ avotes (s.(anode) i) →
  let T := aterm (s.(anode) i) in
  T ≤ aterm (s.(anode) v) ∧ ∃ vl, voted s tl acks v T (T - 1) vl ∧
    up_to_date vl (log_last (alog (s.(anode) i))).1 (log_last (alog (s.(anode) i))).2.
Proof.
  intros HE HC Hno Hc Hv T. destruct (e_cand _ _ HE _ Hc) as [_ Hvotes].
  destruct (Hvotes _ Hv) as [->|Hg].
  - split; [done|]. exists (alog (s.(anode) i)). split; [|right; by split].
    apply voted_strict; [done|]. split; [apply HC|]. intros T' j HT Hb Hh.
    by apply (c_kept _ _ _ HC).
  - split; [by apply (e_granted _ _ HE v i)|].
    destruct (c_votes _ _ _ HC _ _ _ Hg) as (vl & m & Hvl & Hm & Hty & Hfrom & Ht & Hup).
    exists vl. split; [by apply voted_strict|].
    destruct (c_requests _ _ _ HC m Hm Hty) as [_ Hlast]. rewrite Hfrom in Hlast.
    by rewrite <- (Hlast Hc Ht).
Qed.

(** The state and the history after the election of [i]. *)
Definition lead_sys s i : Sys :=
  MkSys (upd s.(anode) i ((s.(anode) i) <| arole := StateLeader |> <| avotes := ∅ |>))
    s.(net) ((aterm (s.(anode) i), i) :: s.(elected)).
Definition lead_hist s tl i : history :=
  extend tl (aterm (s.(anode) i)) (alog (s.(anode) i)).

Section lead.
  Context (s : Sys) (tl : history) (acks : list ack) (i : N).
  Hypothesis HE : EInv members s.
  Hypothesis HC : CInv s tl acks.
  Hypothesis Hi : i ∈ members.
  Hypothesis Hc : arole (s.(anode) i) = StateCandidate.
  Hypothesis HQ : quorum members (avotes (s.(anode) i)).

Lemma lead_new : ¬ has_leader s (aterm (s.(anode) i)).
Proof.
  intros [c Hel]. pose proof (EInv_lead members s i HE Hi Hc HQ) as HE'.
  assert (c = i) as ->.
  { apply (e_unique _ _ HE' (aterm (s.(anode) i))); cbn; [by right|by left]. }
  destruct (e_elected _ _ HE _ _ Hel) as [_ Hat]. by destruct (Hat eq_refl).
Qed.

Lemma lead_old T : has_leader s T → lead_hist s tl i T = tl T.
Proof. intros Hel. apply extend_ne. intros ->. by apply lead_new. Qed.

Lemma lead_pos : 0 < aterm (s.(anode) i).
Proof. apply (c_pos _ _ _ HC). congruence. Qed.

Lemma lead_prefix T : tl T `prefix_of` lead_hist s tl i T.
Proof.
  unfold lead_hist, extend. case_decide as E; [|done]. subst T. pose proof lead_pos.
  rewrite (c_none _ _ _ HC); [apply prefix_nil|lia|apply lead_new].
Qed.

Lemma lead_same j :
  aterm ((lead_sys s i).(anode) j) = aterm (s.(anode) j) ∧
  alog ((lead_sys s i).(anode) j) = alog (s.(anode) j).
Proof. cbn. by case_decide; subst. Qed.

Lemma lead_backs v T j :
  backs (lead_sys s i) acks v T j →
  backs s acks v T j ∧ has_leader s T ∨ T = aterm (s.(anode) i) ∧ v = i.
Proof.
  intros [[?|Hel]%elem_of_cons|(k & Hk & Hj)]; simplify_eq.
  - by right.
  - left. split; [by left|by exists v].
  - left. split; [right; by exists k|]. by apply (c_acks _ _ _ HC) in Hk as [? _].
Qed.

Lemma lead_evolves : evolves s tl acks (lead_sys s i) (lead_hist s tl i) acks.
Proof.
  split; [apply lead_prefix| | | |].
  - intros T [c ?]. exists c. by right.
  - intros T T' j Hel _. by rewrite lead_old.
  - intros j. apply N.eq_le_incl. symmetry. apply lead_same.
  - intros v T j [[Hb Hel]|[-> ->]]%lead_backs Hh; [left|by right].
    by rewrite lead_old in Hh.
Qed.

Lemma lead_low k e :
  alog (s.(anode) i) !! k = Some e → Log.Term e < aterm (s.(anode) i).
Proof.
  intros He. pose proof (c_terms _ _ _ HC i k e He). pose proof lead_pos.
  destruct (CInv_term s tl acks (alog (s.(anode) i)) (Log.Term e) k HC) as [E|Hel];
    [apply HC| |lia|].
  - apply has_lookup. by exists e.
  - destruct (decide (Log.Term e = aterm (s.(anode) i))) as [E|]; [|lia].
    rewrite E in Hel. by destruct (lead_new Hel).
Qed.

Lemma lead_hist_ok T :
  has_leader (lead_sys s i) T → 0 < T ∧ log_ok (lead_hist s tl i) (lead_hist s tl i T).
Proof.
  intros [c [?|Hel]%elem_of_cons]; simplify_eq.
  - split; [apply lead_pos|]. unfold lead_hist at 2. rewrite extend_eq.
    apply (log_ok_mono tl); [apply lead_prefix|apply HC].
  - assert (has_leader s T) as Hl by by exists c.
    rewrite (lead_old T) by done. destruct (c_hist _ _ _ HC _ Hl). split; [done|].
    apply (log_ok_mono tl); [apply lead_prefix|done].
Qed.

Lemma lead_elections T l : (T, l) ∈ (lead_sys s i).(elected) → ∃ E Q,
  E `prefix_of` lead_hist s tl i T ∧ E ≠ [] ∧ (∀ k e, E !! k = Some e → Log.Term e < T) ∧
  quorum members Q ∧ ∀ v, v ∈ Q → T ≤ aterm ((lead_sys s i).(anode) v) ∧
    ∃ vl, voted (lead_sys s i) (lead_hist s tl i) acks v T (T - 1) vl ∧
      up_to_date vl (log_last E).1 (log_last E).2.
Proof.
  intros [[= -> ->]|Hel]%elem_of_cons.
  2: { by apply (election_evolves _ _ _ _ _ _ T l lead_evolves HC Hel). }
  exists (alog (s.(anode) i)), (avotes (s.(anode) i)). unfold lead_hist at 1.
  rewrite extend_eq. split_and!; try done.
  - intros E. pose proof (log_ok_nonempty _ _ (c_logs _ _ _ HC i)) as Hlen.
    rewrite E in Hlen. cbn in Hlen. lia.
  - apply lead_low.
  - intros v Hv. rewrite (proj1 (lead_same v)).
    destruct (winner_record s tl acks i v HE HC lead_new Hc Hv) as (HT & vl & Hvl & Hup).
    split; [done|]. exists vl. split; [|done].
    by apply (voted_evolves _ _ _ _ _ _ _ _ _ _ lead_evolves).
Qed.

Lemma CInv_lead : CInv (lead_sys s i) (lead_hist s tl i) acks.
Proof.
  pose proof HC as []. pose proof lead_pos as Hpos. split.
  - unfold lead_hist. by rewrite extend_ne by lia.
  - intros T HT Hn. unfold lead_hist, extend. case_decide as E.
    + subst T. destruct Hn. exists i. by left.
    + apply c_none0; [done|]. intros [c ?]. apply Hn. exists c. by right.
  - intros j. rewrite (proj1 (lead_same j)). cbn. case_decide; [by subst|apply c_pos0].
  - intros j. rewrite (proj1 (lead_same j)), (proj2 (lead_same j)). cbn.
    case_decide as E; [subst j; intros _; unfold lead_hist; by rewrite extend_eq|].
    intros Hl. rewrite lead_old; [by apply c_leader0|]. exists j. by apply (e_leader _ _ HE).
  - intros j. rewrite (proj2 (lead_same j)).
    apply (log_ok_mono tl); [apply lead_prefix|apply c_logs0].
  - apply lead_hist_ok.
  - intros T k e. unfold lead_hist, extend. case_decide; [subst T|apply c_bound0].
    intros He%lead_low. lia.
  - intros j k e. rewrite (proj1 (lead_same j)), (proj2 (lead_same j)). apply c_terms0.
  - intros m Hm Hty.
    apply (from_log_mono (tl (Message.Term m))); [apply lead_prefix|by apply c_msgs0].
  - intros m Hm Hty. rewrite (proj1 (lead_same _)), (proj2 (lead_same _)).
    destruct (c_requests0 m Hm Hty) as [? Hlast]. split; [done|]. cbn. by case_decide.
  - intros v T k Hk. rewrite (proj1 (lead_same _)). destruct (c_acks0 _ _ _ Hk) as (Hel & ? & ?).
    split_and!; [by apply lead_evolves|done|]. by rewrite lead_old.
  - intros v T j Hb Hh. rewrite (proj1 (lead_same _)), (proj2 (lead_same _)).
    destruct (lead_backs _ _ _ Hb) as [[Hb' Hel]|[-> ->]].
    + eapply kept_evolves; [apply lead_evolves|apply N.le_refl|].
      rewrite lead_old in Hh by done. by apply c_kept0.
    + left. unfold lead_hist in Hh. by rewrite extend_eq in Hh.
  - intros v c T Hg. by apply (vote_evolves _ _ _ _ _ _ _ _ _ lead_evolves HE HC).
  - apply lead_elections.
Qed.
End lead.

(** The state and the history after a client command at the leader [i]. *)
Definition proposed s i (cmd : list byte) : list Entry :=
  alog (s.(anode) i) ++ [MkEntry (aterm (s.(anode) i)) (lenN (alog (s.(anode) i))) cmd].
Definition propose_sys s i cmd : Sys :=
  MkSys (upd s.(anode) i ((s.(anode) i) <| alog := proposed s i cmd |>)) s.(net) s.(elected).
Definition propose_hist s tl i cmd : history :=
  extend tl (aterm (s.(anode) i)) (proposed s i cmd).

Section propose.
  Context (s : Sys) (tl : history) (acks : list ack) (i : N) (cmd : list byte).
  Hypothesis HE : EInv members s.
  Hypothesis HC : CInv s tl acks.
  Hypothesis Hlead : arole (s.(anode) i) = StateLeader.

Lemma propose_prefix T : tl T `prefix_of` propose_hist s tl i cmd T.
Proof.
  unfold propose_hist, extend. case_decide as E; [|done]. subst T.
  rewrite <- (c_leader _ _ _ HC) by done. by eexists.
Qed.

Lemma propose_same j :
  aterm ((propose_sys s i cmd).(anode) j) = aterm (s.(anode) j) ∧
  arole ((propose_sys s i cmd).(anode) j) = arole (s.(anode) j) ∧
  alog (s.(anode) j) `prefix_of` alog ((propose_sys s i cmd).(anode) j) ∧
  (j ≠ i → (propose_sys s i cmd).(anode) j = s.(anode) j).
Proof. cbn. case_decide; subst; cbn; split_and!; try done. by eexists. Qed.

(** The only new position is the last one of the leader's log. *)
Lemma propose_has T T' j :
  has T j (propose_hist s tl i cmd T') → has T j (tl T') ∨
  T' = aterm (s.(anode) i) ∧ T = aterm (s.(anode) i) ∧ j = length (alog (s.(anode) i)).
Proof.
  unfold propose_hist, extend. case_decide as E; [|by left]. subst T'. unfold proposed.
  rewrite <- (c_leader _ _ _ HC) by done. intros (e & He & <-)%has_lookup.
  apply lookup_app_Some in He as [He|[Hlen He]].
  - left. apply has_lookup. by exists e.
  - right. apply list_lookup_singleton_Some in He as [Hj <-]. split_and!; [done|done|lia].
Qed.

Lemma propose_backs v T j :
  backs s acks v T j → has T j (propose_hist s tl i cmd T) →
  has T j (tl T) ∨ v = i ∧ T = aterm (s.(anode) i) ∧ j = length (alog (s.(anode) i)).
Proof.
  intros Hb [?|(-> & _ & ->)]%propose_has; [by left|right]. split_and!; try done.
  destruct Hb as [Hel|(k & Hk & Hj)].
  - by apply (e_unique _ _ HE _ _ _ Hel), (e_leader _ _ HE).
  - destruct (c_acks _ _ _ HC _ _ _ Hk) as (_ & _ & Hlen).
    rewrite <- (c_leader _ _ _ HC) in Hlen by done. lia.
Qed.

Lemma propose_evolves :
  evolves s tl acks (propose_sys s i cmd) (propose_hist s tl i cmd) acks.
Proof.
  split; [apply propose_prefix|done| | |].
  - intros T T' j Hel HT [?|(-> & -> & _)]%propose_has; [done|lia].
  - intros j. apply N.eq_le_incl. symmetry. apply propose_same.
  - intros v T j Hb Hh. destruct (propose_backs _ _ _ Hb Hh) as [?|(-> & -> & _)]; [by left|by right].
Qed.

Lemma proposed_ok : log_ok (propose_hist s tl i cmd) (proposed s i cmd).
Proof.
  pose proof (log_ok_mono _ _ _ propose_prefix (c_logs _ _ _ HC i)) as [H0 Hok].
  unfold proposed. split; [by apply lookup_app_l_Some|].
  intros k e He. apply lookup_app_Some in He as [He|[Hlen He]].
  - rewrite take_app_le by (apply lookup_lt_Some in He; lia). by apply Hok.
  - apply list_lookup_singleton_Some in He as [Hk <-]. cbn [Log.Term].
    unfold propose_hist. rewrite extend_eq. apply prefix_take.
Qed.

Lemma CInv_propose : CInv (propose_sys s i cmd) (propose_hist s tl i cmd) acks.
Proof.
  pose proof HC as []. assert (has_leader s (aterm (s.(anode) i))) as Hel.
  { exists i. by apply (e_leader _ _ HE). }
  split.
  - unfold propose_hist. rewrite extend_ne; [done|]. destruct (c_hist0 _ Hel). lia.
  - intros T HT Hn. unfold propose_hist, extend. case_decide; [by subst|by apply c_none0].
  - intros j. destruct (propose_same j) as (-> & -> & _). apply c_pos0.
  - intros j. destruct (propose_same j) as (-> & -> & _ & Hj). intros Hl.
    destruct (decide (j = i)) as [->|Hne].
    + unfold propose_hist. rewrite extend_eq. cbn. by rewrite decide_True.
    + rewrite Hj by done. unfold propose_hist. rewrite extend_ne; [by apply c_leader0|].
      intros E. apply Hne. apply (e_unique _ _ HE (aterm (s.(anode) j))).
      * by apply (e_leader _ _ HE).
      * rewrite E. by apply (e_leader _ _ HE).
  - intros j. cbn. case_decide; [apply proposed_ok|].
    apply (log_ok_mono tl); [apply propose_prefix|apply c_logs0].
  - intros T HT. destruct (c_hist0 _ HT) as [? Hok]. split; [done|].
    unfold propose_hist at 2. unfold extend. case_decide; [apply proposed_ok|].
    apply (log_ok_mono tl); [apply propose_prefix|done].
  - intros T k e He. destruct (propose_has (Log.Term e) T k) as [Hh|(-> & -> & _)]; [| |done].
    + apply has_lookup. by exists e.
    + apply has_lookup in Hh as (e' & He' & <-). by eapply c_bound0.
  - intros j k e. cbn. case_decide; [|apply c_terms0]. cbn. subst j.
    intros [He|[_ He]]%lookup_app_Some; [by eapply c_terms0|].
    by apply list_lookup_singleton_Some in He as [_ <-].
  - intros m Hm Hty.
    apply (from_log_mono (tl (Message.Term m))); [apply propose_prefix|by apply c_msgs0].
  - intros m Hm Hty. destruct (propose_same (From m)) as (-> & -> & _ & Hj).
    destruct (c_requests0 m Hm Hty) as [? Hlast]. split; [done|]. intros Hc.
    rewrite Hj by congruence. by apply Hlast.
  - intros v T k Hk. destruct (propose_same v) as (-> & _). destruct (c_acks0 _ _ _ Hk) as (? & ? & ?).
    split_and!; [done|done|]. etrans; [done|apply prefix_length, propose_prefix].
  - intros v T j Hb Hh. destruct (propose_same v) as (-> & _ & Hpre & _).
    destruct (propose_backs _ _ _ Hb Hh) as [Hh'|(-> & -> & _)].
    + destruct (c_kept0 v T j Hb Hh') as [?|Hx]; [left; by eapply has_prefix|].
      eapply kept_evolves; [apply propose_evolves|apply N.le_refl|]. by right.
    + left. unfold propose_hist in Hh. rewrite extend_eq in Hh. cbn. by rewrite decide_True.
  - intros v c T Hg. by apply (vote_evolves _ _ _ _ _ _ _ _ _ propose_evolves HE HC).
  - intros T l Hl. by apply (election_evolves _ _ _ _ _ _ T l propose_evolves HC Hl).
Qed.
End propose.

(** A node whose log is part of the log of the leader of its term may acknowledge it. *)
Definition ack_ok s tl v : Prop :=
  has_leader s (aterm (s.(anode) v)) ∧ alog (s.(anode) v) `prefix_of` tl (aterm (s.(anode) v)).

Lemma CInv_ack s tl acks v k :
  EInv members s → CInv s tl acks → ack_ok s tl v → (k ≤ length (alog (s.(anode) v)))%nat →
  CInv s tl ((v, aterm (s.(anode) v), k) :: acks).
Proof.
  intros HE HC [Hel Hpre] Hk. pose proof HC as [].
  assert (∀ u T j, backs s ((v, aterm (s.(anode) v), k) :: acks) u T j →
    backs s acks u T j ∨ u = v ∧ T = aterm (s.(anode) v) ∧ (j < k)%nat) as Hbacks.
  { intros u T j [?|(k' & [?|?]%elem_of_cons & ?)]; [left; by left| |left; right; by exists k'].
    simplify_eq. by right. }
  assert (evolves s tl acks s tl ((v, aterm (s.(anode) v), k) :: acks)) as Hev.
  { split; try done. intros u T j [?|(-> & -> & _)]%Hbacks ?; [by left|by right]. }
  split; try done.
  - intros u T k' [?|?]%elem_of_cons; [simplify_eq|by apply c_acks0].
    split_and!; [done|done|]. etrans; [done|by apply prefix_length].
  - intros u T j [Hb|(-> & -> & Hj)]%Hbacks Hh; [by apply c_kept0|left].
    apply (has_take_eq _ _ k (tl (aterm (s.(anode) v)))); [done| |done].
    destruct Hpre as [r ->]. by rewrite take_app_le.
  - intros u c T Hg. by apply (vote_evolves _ _ _ _ _ _ _ _ _ Hev HE HC).
  - intros T l Hl. by apply (election_evolves _ _ _ _ _ _ T l Hev HC Hl).
Qed.

(** ** All steps *)

Lemma init_CInv : CInv init (λ T, if decide (T = 0) then [dummy] else []) [].
Proof.
  assert (∀ T, ¬ has_leader init T) as Hno by by intros T [c ?%not_elem_of_nil].
  split; cbn; try done.
  - intros T HT _. by rewrite decide_False.
  - intros i. split; [done|]. intros [|k] e; cbn; [|done]. by intros [= <-].
  - intros T HT. by destruct (Hno T).
  - intros T k e. case_decide; [|done]. destruct k; cbn; [|done]. intros [= <-]. cbn. lia.
  - intros i [|k] e; cbn; [|done]. by intros [= <-].
  - by intros m ?%not_elem_of_nil.
  - by intros m ?%not_elem_of_nil.
  - by intros v T k ?%not_elem_of_nil.
  - by intros v T j [?%not_elem_of_nil|(k & ?%not_elem_of_nil & _)].
  - by intros v c T (m & ?%not_elem_of_nil & _).
  - by intros T l ?%not_elem_of_nil.
Qed.

Lemma step_CInv s s' tl acks :
  EInv members s → CInv s tl acks → step members s s' →
  ∃ tl', (∀ T, tl T `prefix_of` tl' T) ∧ CInv s' tl' acks.
Proof.
  assert (∀ s', CInv s' tl acks → ∃ tl', (∀ T, tl T `prefix_of` tl' T) ∧ CInv s' tl' acks)
    as Hsame by (intros; by exists tl).
  intros HE HC [i m Hd Hlt|i Hi Hr|i m Hd Hty Ht Hv Hup|i m Hd Hty Hg Ht Hr|i Hi Hr HQ
    |i m Hd Hty Ht Hr|i m Hd Hty Ht Hr Hp|i cmd Hi Hr|i m Hi Hf ? ? Hs|i Hi].
  - apply Hsame, CInv_local; [done..|]. by split; cbn; try done; lia.
  - apply Hsame, CInv_local; [done..|]. split; cbn; try done; try (intros; left); lia.
  - by apply Hsame, CInv_vote.
  - apply Hsame, CInv_local; [done..|]. by split; cbn; auto.
  - exists (lead_hist s tl i). split; [|by apply CInv_lead]. intros T. by apply lead_prefix with acks.
  - apply Hsame, CInv_local; [done..|]. by split; cbn; try done; lia.
  - by apply Hsame, CInv_append.
  - exists (propose_hist s tl i cmd). split; [|by apply CInv_propose].
    intros T. by apply propose_prefix with acks.
  - by apply Hsame, (CInv_send s tl acks i).
  - apply Hsame, CInv_local; [done..|]. by split; cbn; try done; lia.
Qed.

Lemma steps_CInv s s' tl acks :
  EInv members s → CInv s tl acks → rtc (step members) s s' →
  ∃ tl', (∀ T, tl T `prefix_of` tl' T) ∧ CInv s' tl' acks.
Proof.
  intros HE HC Hs. revert tl HE HC. induction Hs as [s|s s1 s' Hstep _ IH]; intros tl HE HC.
  - by exists tl.
  - destruct (step_CInv _ _ _ _ HE HC Hstep) as (tl1 & Hp1 & HC1).
    destruct (IH tl1) as (tl' & Hp' & HC'); [by eapply step_EInv|done|].
    exists tl'. split; [|done]. intros T. etrans; [apply Hp1|apply Hp'].
Qed.

(** What is committed stays committed. *)
Lemma committed_mono s s' tl tl' acks acks' T j :
  (∀ T, tl T `prefix_of` tl' T) → (∀ x, x ∈ s.(elected) → x ∈ s'.(elected)) →
  (∀ a, a ∈ acks → a ∈ acks') → committed s tl acks T j → committed s' tl' acks' T j.
Proof.
  intros Hp Hel Ha [Hh (Q & HQ & Hb)]. split; [by apply (has_prefix _ _ (tl T))|].
  exists Q. split; [done|]. intros v Hv.
  destruct (Hb _ Hv) as [?|(k & ? & ?)]; [left; by apply Hel|right]. exists k. auto.
Qed.
End commit.
