(* ===== verification/NodeFacts.v ===== *)
(** * The node's invariant, and what its helpers return

    [node_ok k] bounds a node that took part in at most [k] steps: term and log length are
    at most [k], the log is well formed, everything fits in 64 bits.  [msg_ok k] is the same
    for messages.  Under [k + 1 < 2^64] no counter wraps and no slice access panics; the
    lemmas compute the helpers of [Node] under these hypotheses. *)
From S2P Require Import Prelude Log LogPersist Message Node Spec.
Open Scope N_scope.

Record node_ok {R} (k : N) (n : Node R) : Prop := {
  nok_wf : wf n.(raftLog);
  nok_len : lenN n.(raftLog).(entries) ≤ k + 1;
  nok_entries : Forall entry_ok n.(raftLog).(entries);
  nok_term : n.(currentTerm) ≤ k;
  nok_vote : is_u64 n.(votedFor);
  nok_id : is_u64 n.(id);
  nok_crashed : n.(crashed) = true → n.(state) = StateFollower;
}.

Record msg_ok (k : N) (m : Message) : Prop := {
  mok_term : m.(Message.Term) ≤ k;
  mok_from : is_u64 m.(From);
  mok_len : m.(PrevLogIndex) + lenN m.(Message.Entries) ≤ k;
  mok_contig : contig (m.(PrevLogIndex) + 1) m.(Message.Entries);
  mok_entries : Forall entry_ok m.(Message.Entries);
}.

Lemma msg_ok_mono k k' m : k ≤ k' → msg_ok k m → msg_ok k' m.
Proof. intros Hk []. split; [lia|done|lia|done|done]. Qed.

Lemma node_ok_mono {R} k k' (n : Node R) : k ≤ k' → node_ok k n → node_ok k' n.
Proof. intros Hk []. split; [done|lia|done|lia|done..]. Qed.

Lemma log_last_eq l : log_last l.(entries) = (lastIndex l, lastTerm l).
Proof. done. Qed.

Section facts.
  Context {R : Type} `{RNG R}.
  Implicit Types (n : Node R) (m : Message).

(** ** Field-preserving helpers *)

Lemma reset_eq n : ∃ t r,
  resetElectionTimer n =
    n <| electionElapsed := 0%Z |> <| rng := r |> <| electionTimeout := t |>.
Proof.
  unfold resetElectionTimer. cbn. destruct (Intn _ _) as [v r]. eauto.
Qed.

(** ** The log the node reads *)

Lemma isUpToDate_spec n i t :
  wf n.(raftLog) → ∃ b, isUpToDate n i t = Ret b ∧ (b = true ↔ up_to_date n.(raftLog).(entries) i t).
Proof.
  intros Hwf. unfold isUpToDate, up_to_date. rewrite (Last_wf _ Hwf), log_last_eq.
  cbn -[N.eqb N.ltb N.leb]. destruct (N.eqb_spec t (lastTerm (raftLog n))) as [->|Hne];
    cbn [negb]; eexists; split; try done.
  - rewrite N.leb_le. lia.
  - rewrite N.ltb_lt. split; [by left|]. intros [?|[? _]]; [done|congruence].
Qed.

Lemma AllEntries_wf n : wf n.(raftLog) → AllEntries n = Ret (drop 1 n.(raftLog).(entries)).
Proof.
  intros Hwf. unfold AllEntries. rewrite (Last_wf _ Hwf). cbn -[Slice].
  rewrite (Slice_wf _ _ _ Hwf), (lastIndex_succ _ Hwf). unfold sub. f_equal.
  apply take_ge. rewrite length_drop. cbn. lia.
Qed.

(** The AppendEntries message for one peer is read off the log. *)
Lemma appendEntriesFor_spec n p :
  wf n.(raftLog) → ∃ m,
  appendEntriesFor n (lastIndex n.(raftLog)) (Log.CommitIndex n.(raftLog)) p = Ret m ∧
  m.(Type_) = MsgAppendEntries ∧ m.(From) = n.(id) ∧ m.(To) = p ∧
  m.(Message.Term) = n.(currentTerm) ∧ from_log n.(raftLog).(entries) m.
Proof.
  intros Hwf. unfold appendEntriesFor. set (ni := get_index _ p).
  assert ((raftLog n).(entries) !! N.to_nat 0 = Some dummy) as Hhead by apply (wf_head _ Hwf).
  pose proof (wf_nonempty _ Hwf) as Hne.
  pose proof (wf_size _ Hwf) as Hsz.
  rewrite (lastIndex_succ _ Hwf). set (log := entries (raftLog n)) in *.
  assert (lastIndex (raftLog n) = lenN log - 1) as Hlast by done.
  assert (∀ prev t, Log.Term <$> log !! N.to_nat prev = Some t →
    N.max 1 ni = prev + 1 ∨ lastIndex (raftLog n) < ni →
    ∃ m, (es ← (if ni <=? lastIndex (raftLog n) then Slice (raftLog n) ni (lenN log)
                else Ret []);
          Ret (NewAppendEntries (id n) p (currentTerm n) prev t
                 (Log.CommitIndex (raftLog n)) es)) = Ret m ∧
    m.(Type_) = MsgAppendEntries ∧ m.(From) = n.(id) ∧ m.(To) = p ∧
    m.(Message.Term) = n.(currentTerm) ∧ from_log log m) as Hbuild.
  { intros prev t Hprev Hni. destruct (N.leb_spec ni (lastIndex (raftLog n))) as [Hle|Hgt].
    - rewrite (Slice_wf _ _ _ Hwf). eexists. split; [done|].
      destruct Hni as [Hni|?]; [|lia]. rewrite Hni.
      split_and!; try done. split; [done|]. cbn [NewAppendEntries Message.Entries PrevLogIndex].
      unfold sub. eexists. symmetry. apply take_drop.
    - eexists. split; [done|]. split_and!; try done. split; [done|]. apply prefix_nil. }
  destruct (N.ltb_spec 1 ni) as [Hgt|Hle].
  - assert (is_u64 ni ∨ u64_modulus ≤ ni) as Hu by (unfold is_u64; lia).
    destruct (decide (ni -u 1 < lenN log)) as [Hin|Hout].
    + destruct (index_lt log _ Hin) as (e & _ & He).
      rewrite (TermAt_in _ _ _ He). cbn [mbind go_bind]. apply Hbuild; [by rewrite He|].
      destruct Hu as [Hu|Hu]; [rewrite u64_sub_small by (done || lia)|]; lia.
    + rewrite TermAt_out by (fold log; lia). cbn [mbind go_bind].
      apply Hbuild; [by rewrite Hhead|]. right.
      destruct Hu as [Hu|Hu]; [rewrite u64_sub_small in Hout by (done || lia)|]; lia.
  - cbn [mbind go_bind]. apply Hbuild; [by rewrite Hhead|]. left. lia.
Qed.

Lemma broadcast_spec n :
  wf n.(raftLog) → ∃ out, broadcastAppendEntries n = Ret out ∧
  ∀ m, m ∈ out → m.(Type_) = MsgAppendEntries ∧ m.(From) = n.(id) ∧ m.(To) ∈ n.(peers) ∧
    m.(Message.Term) = n.(currentTerm) ∧ from_log n.(raftLog).(entries) m.
Proof.
  intros Hwf. unfold broadcastAppendEntries. rewrite (Last_wf _ Hwf). cbn [mbind go_bind].
  assert (∀ ps, ∃ out, go_map (appendEntriesFor n (lastIndex (raftLog n))
      (Log.CommitIndex (raftLog n))) ps = Ret out ∧ ∀ m, m ∈ out →
      m.(Type_) = MsgAppendEntries ∧ m.(From) = n.(id) ∧ m.(To) ∈ ps ∧
      m.(Message.Term) = n.(currentTerm) ∧ from_log n.(raftLog).(entries) m) as Hall; [|apply Hall].
  induction ps as [|p ps (out & Hout & IH)].
  - exists []. split; [done|]. by intros m ?%not_elem_of_nil.
  - destruct (appendEntriesFor_spec n p Hwf) as (m & Hm & ? & ? & Hto & ? & ?).
    exists (m :: out). cbn [go_map]. rewrite Hm. cbn [mbind go_bind]. rewrite Hout.
    split; [done|]. intros m' [->|Hin]%elem_of_cons.
    + rewrite Hto. split_and!; try done. left.
    + destruct (IH _ Hin) as (? & ? & ? & ? & ?). split_and!; try done. by right.
Qed.
End facts.
