(* ===== verification/Refine.v ===== *)
(** * The node refines the abstract protocol

    [anode_of] abstracts a node.  [run s i a out] says that the abstract system can go from
    [s], by steps of node [i], to a state where [i] is [a], nobody else moved and [out] was
    sent; the [run_*] rules compose it from the rules of [Spec.step].  The [_refines]
    lemmas give, for each method of the node that sends or changes the abstract state: it
    returns (no panic), the result satisfies the node invariant, and the abstract system
    can follow. *)
From S2P Require Import Prelude Log LogPersist Message Node Spec NodeFacts.
Open Scope N_scope.

Definition granted_set (m : gmap N bool) : gset N :=
  dom (filter (λ kv : N * bool, kv.2 = true) m).

Definition anode_of {R} (n : Node R) : ANode :=
  MkANode n.(currentTerm) n.(votedFor) n.(state)
    (if decide (n.(state) = StateCandidate) then granted_set n.(votesGranted) else ∅)
    n.(raftLog).(entries).

(** ** Runs of one abstract node *)

Section run.
  Context (members : gset N).

Definition ext (s : Sys) (i : N) (a : ANode) (out : list Message) (s' : Sys) : Prop :=
  s'.(anode) i = a ∧ (∀ j, j ≠ i → s'.(anode) j = s.(anode) j) ∧
  ∀ m, m ∈ s'.(net) ↔ m ∈ out ∨ m ∈ s.(net).

Definition run (s : Sys) (i : N) (a : ANode) (out : list Message) : Prop :=
  ∃ s', rtc (step members) s s' ∧ ext s i a out s'.

Lemma run_refl s i : run s i (s.(anode) i) [].
Proof.
  exists s. split; [done|]. split; [done|]. split; [done|].
  intros m. split; [by right|]. by intros [?%not_elem_of_nil|?].
Qed.

Lemma run_step s i a out b out' :
  run s i a out →
  (∀ s', s'.(anode) i = a → (∀ m, m ∈ s.(net) → m ∈ s'.(net)) →
     ∃ s'', step members s' s'' ∧ ext s' i b out' s'') →
  run s i b (out' ++ out).
Proof.
  intros (s1 & Hsteps & Ha & Hothers & Hnet) Hstep.
  destruct (Hstep s1 Ha) as (s2 & H2 & Hb & Hothers2 & Hnet2).
  { intros m Hm. apply Hnet. by right. }
  exists s2. split; [by eapply rtc_r|]. split; [done|]. split.
  - intros j Hj. by rewrite Hothers2, Hothers.
  - intros m. rewrite Hnet2, Hnet, elem_of_app. tauto.
Qed.

Lemma ext_upd s' i b es :
  ext s' i b [] (MkSys (upd s'.(anode) i b) s'.(net) es).
Proof.
  split; [apply upd_eq|]. split; [intros; by apply upd_ne|].
  intros m. cbn. split; [by right|]. by intros [?%not_elem_of_nil|?].
Qed.

(** Rules without output. *)
Lemma run_local s i a out b :
  run s i a out →
  (∀ s', s'.(anode) i = a → (∀ m, m ∈ s.(net) → m ∈ s'.(net)) →
     ∃ es, step members s' (MkSys (upd s'.(anode) i b) s'.(net) es)) →
  run s i b out.
Proof.
  intros Hr Hstep. change out with ([] ++ out). eapply run_step; [done|].
  intros s' Ha Hnet. destruct (Hstep s' Ha Hnet) as [es Hs]. eexists. split; [done|].
  apply ext_upd.
Qed.

Lemma run_bump s i a out m :
  run s i a out → deliverable s i m → a.(aterm) < m.(Message.Term) →
  run s i (MkANode m.(Message.Term) 0 StateFollower ∅ a.(alog)) out.
Proof.
  intros Hr [Hm Hto] Hlt. eapply run_local; [done|]. intros s' <- Hnet.
  eexists. apply step_bump; [by split; auto|done].
Qed.

Lemma run_timeout s i a out :
  run s i a out → i ∈ members → a.(arole) ≠ StateLeader →
  run s i (MkANode (a.(aterm) + 1) i StateCandidate {[i]} a.(alog)) out.
Proof.
  intros Hr Hi Hrole. eapply run_local; [done|]. intros s' <- Hnet.
  eexists. by apply step_timeout.
Qed.

Lemma run_count s i a out m :
  run s i a out → deliverable s i m → m.(Type_) = MsgRequestVoteResp →
  m.(Granted) = true → m.(Message.Term) = a.(aterm) → a.(arole) = StateCandidate →
  run s i (a <| avotes := {[m.(From)]} ∪ a.(avotes) |>) out.
Proof.
  intros Hr [Hm Hto] ? ? ? ?. eapply run_local; [done|]. intros s' <- Hnet.
  eexists. apply step_count; [by split; auto|done..].
Qed.

Lemma run_lead s i a out :
  run s i a out → i ∈ members → a.(arole) = StateCandidate → quorum members a.(avotes) →
  run s i (a <| arole := StateLeader |> <| avotes := ∅ |>) out.
Proof.
  intros Hr ? ? ?. eapply run_local; [done|]. intros s' <- Hnet.
  eexists. by apply step_lead.
Qed.

Lemma run_follow s i a out m :
  run s i a out → deliverable s i m → m.(Type_) = MsgAppendEntries →
  m.(Message.Term) = a.(aterm) → a.(arole) ≠ StateFollower →
  run s i (MkANode a.(aterm) 0 StateFollower ∅ a.(alog)) out.
Proof.
  intros Hr [Hm Hto] ? ? ?. eapply run_local; [done|]. intros s' <- Hnet.
  eexists. eapply (step_follow _ s' i m); [by split; auto|done..].
Qed.

Lemma run_append s i a out m :
  run s i a out → deliverable s i m → m.(Type_) = MsgAppendEntries →
  m.(Message.Term) = a.(aterm) → a.(arole) = StateFollower →
  prev_matches a.(alog) m.(PrevLogIndex) m.(PrevLogTerm) →
  run s i (a <| alog := accept a.(alog) m |>) out.
Proof.
  intros Hr [Hm Hto] ? ? ? ?. eapply run_local; [done|]. intros s' <- Hnet.
  eexists. apply (step_append _ s' i m); [by split; auto|done..].
Qed.

Lemma run_propose s i a out cmd :
  run s i a out → i ∈ members → a.(arole) = StateLeader →
  run s i (a <| alog := a.(alog) ++ [MkEntry a.(aterm) (lenN a.(alog)) cmd] |>) out.
Proof.
  intros Hr ? ?. eapply run_local; [done|]. intros s' <- Hnet.
  eexists. by apply step_propose.
Qed.

Lemma run_crash s i a out :
  run s i a out → i ∈ members →
  run s i (a <| arole := StateFollower |> <| avotes := ∅ |>) out.
Proof.
  intros Hr ?. eapply run_local; [done|]. intros s' <- Hnet.
  eexists. by apply step_crash.
Qed.

(** Rules with output. *)
Lemma run_vote s i a out m :
  run s i a out → deliverable s i m → m.(Type_) = MsgRequestVote →
  m.(Message.Term) = a.(aterm) → a.(avote) = 0 ∨ a.(avote) = m.(From) →
  up_to_date a.(alog) m.(LastLogIndex) m.(LastLogTerm) →
  run s i (a <| avote := m.(From) |>)
    (NewRequestVoteResp i m.(From) a.(aterm) true :: out).
Proof.
  intros Hr [Hm Hto] ? Hterm ? ?. rewrite <- Hterm.
  change (?x :: out) with ([x] ++ out). eapply run_step; [done|]. intros s' <- Hnet.
  eexists. split; [apply (step_vote _ s' i m); [by split; auto|done..]|].
  split; [apply upd_eq|]. split; [intros; by apply upd_ne|].
  intros m'. cbn -[NewRequestVoteResp]. by rewrite elem_of_cons, list_elem_of_singleton.
Qed.

Lemma run_send s i a out m :
  run s i a out → i ∈ members → m.(From) = i → m.(To) ∈ members → m.(To) ≠ i →
  may_send a m → run s i a (m :: out).
Proof.
  intros Hr ? ? ? ? ?. change (m :: out) with ([m] ++ out). eapply run_step; [done|].
  intros s' <- Hnet. eexists. split; [by apply (step_send _ s' i m)|].
  split; [done|]. split; [done|]. intros m'. cbn.
  by rewrite elem_of_cons, list_elem_of_singleton.
Qed.

Lemma run_sends s i a ms :
  run s i a [] → i ∈ members →
  (∀ m, m ∈ ms → m.(From) = i ∧ m.(To) ∈ members ∧ m.(To) ≠ i ∧ may_send a m) →
  run s i a ms.
Proof.
  intros Hr Hi. induction ms as [|m ms IH]; intros Hms; [done|].
  destruct (Hms m) as (? & ? & ? & ?); [left|].
  apply run_send; try done. apply IH. intros m' ?. apply Hms. by right.
Qed.
End run.

(** ** Counting votes *)

Lemma granted_set_elem m v : v ∈ granted_set m ↔ get_vote m v = true.
Proof.
  unfold granted_set, get_vote. rewrite elem_of_dom. split.
  - intros [b Hb%map_lookup_filter_Some]. destruct Hb as [-> Hb]. done.
  - destruct (m !! v) as [[]|] eqn:E; cbn; try done. intros _. exists true.
    by apply map_lookup_filter_Some.
Qed.

Lemma granted_set_insert m v : granted_set (<[v := true]> m) = {[v]} ∪ granted_set m.
Proof.
  apply set_eq. intros u. rewrite elem_of_union, elem_of_singleton, !granted_set_elem.
  unfold get_vote. rewrite lookup_insert. case_decide; subst; naive_solver.
Qed.

Lemma granted_set_singleton v : granted_set {[v := true]} = {[v]}.
Proof.
  apply set_eq. intros u. rewrite elem_of_singleton, granted_set_elem.
  unfold get_vote. rewrite lookup_singleton. case_decide; naive_solver.
Qed.

(** The counting loops of [countVotes] and [replicatedOnMajority]. *)
Lemma count_loop (f : N → bool) ps c :
  foldl (λ c p, if f p then (c + 1)%Z else c) c ps =
    (c + Z.of_nat (length (filter (λ p, f p = true) ps)))%Z.
Proof.
  revert c. induction ps as [|p ps IH]; intros c; cbn [foldl]; [cbn; lia|].
  rewrite IH, filter_cons. destruct (f p) eqn:E.
  - rewrite decide_True by done. cbn [length]. lia.
  - rewrite decide_False by done. done.
Qed.

(** The node's peers are the other members, each once. *)
Record peers_ok {R} (members : gset N) (n : Node R) : Prop := {
  p_self : n.(id) ∈ members;
  p_nodup : NoDup n.(peers);
  p_other : n.(id) ∉ n.(peers);
  p_members : list_to_set (n.(id) :: n.(peers)) = members;
}.

Lemma p_peer {R} members (n : Node R) p :
  peers_ok members n → p ∈ n.(peers) → p ∈ members ∧ p ≠ n.(id).
Proof. intros [_ _ Hne <-] Hp. split; [set_solver|]. by intros ->. Qed.

Lemma p_mem {R} members (n : Node R) j :
  peers_ok members n → j ∈ members ↔ j = n.(id) ∨ j ∈ n.(peers).
Proof. intros [_ _ _ <-]. by rewrite elem_of_list_to_set, elem_of_cons. Qed.

Lemma p_size {R} members (n : Node R) :
  peers_ok members n → size members = S (length n.(peers)).
Proof.
  intros [_ Hnd Hne <-]. rewrite size_list_to_set; [done|]. by constructor.
Qed.

Lemma countVotes_quorum {R} members (n : Node R) :
  peers_ok members n →
  ((majority n ≤ countVotes n)%Z ↔ quorum members (granted_set n.(votesGranted))).
Proof.
  intros [Hself Hnd Hne Hmem]. unfold majority, countVotes, quorum. rewrite count_loop.
  set (g := λ p, get_vote (votesGranted n) p = true) in *.
  assert (granted_set (votesGranted n) ∩ members =
    list_to_set (filter g (id n :: peers n))) as ->.
  { apply set_eq. intros v. rewrite elem_of_intersection, granted_set_elem, <- Hmem.
    rewrite !elem_of_list_to_set, list_elem_of_filter. done. }
  rewrite <- Hmem, !size_list_to_set by (try apply NoDup_filter; by constructor).
  cbn [length]. rewrite filter_cons.
  pose proof (Z.mul_succ_div_gt (Z.of_nat (length (peers n)) + 1) 2).
  pose proof (Z.mul_div_le (Z.of_nat (length (peers n)) + 1) 2).
  destruct (decide (g (id n))) as [Hg|Hg]; unfold g in Hg.
  - rewrite Hg. cbn [length]. lia.
  - apply not_true_is_false in Hg. rewrite Hg. lia.
Qed.

(** ** The handlers *)

Section handlers.
  Context {R : Type} `{RNG R} (members : gset N).
  Implicit Types (n : Node R) (m : Message).

(** What every method guarantees of the node and its output. *)
Record post (k : N) n n' (out : list Message) : Prop := {
  post_id : n'.(id) = n.(id);
  post_peers : n'.(peers) = n.(peers);
  post_ok : node_ok k n';
  post_out : ∀ m, m ∈ out → msg_ok k m;
}.

Lemma post_mono k k' n n' out : k ≤ k' → post k n n' out → post k' n n' out.
Proof.
  intros Hk [? ? Hok Ho]. split; [done|done|by apply (node_ok_mono k)|].
  intros m Hm. apply (msg_ok_mono k); [done|by apply Ho].
Qed.

Lemma post_peers_ok k n n' out : post k n n' out → peers_ok members n → peers_ok members n'.
Proof. intros [Hid Hps _ _] []. split; by rewrite ?Hid, ?Hps. Qed.

Lemma response_ok k m :
  m.(Message.Term) ≤ k → is_u64 m.(From) → m.(PrevLogIndex) = 0 →
  m.(Message.Entries) = [] → msg_ok k m.
Proof.
  intros ? ? Hp He. split; rewrite ?He; [done|done|cbn; lia|done|done].
Qed.

Lemma append_msg_ok k n m :
  node_ok k n → m.(From) = n.(id) → m.(Message.Term) = n.(currentTerm) →
  from_log n.(raftLog).(entries) m → msg_ok k m.
Proof.
  intros [Hwf Hloglen Hent Ht _ Hid _] Hfrom Hterm [Hprev [l Hl]].
  set (log := entries (raftLog n)) in *.
  assert (N.to_nat m.(PrevLogIndex) < length log)%nat as Hlt.
  { apply lookup_lt_is_Some. destruct (log !! _); [by eexists|done]. }
  apply (f_equal length) in Hl as Hlen. rewrite length_app, length_drop in Hlen.
  split; [by rewrite Hterm|by rewrite Hfrom|lia| |].
  - assert (contig (PrevLogIndex m + 1) (drop (N.to_nat (PrevLogIndex m + 1)) log)) as Hc.
    { replace (PrevLogIndex m + 1) with (0 + N.of_nat (N.to_nat (PrevLogIndex m + 1))) at 1
        by lia. by apply contig_drop, wf_contig. }
    rewrite Hl, contig_app in Hc. by destruct Hc.
  - apply (Forall_drop _ (N.to_nat (PrevLogIndex m + 1))) in Hent.
    rewrite Hl in Hent. by apply Forall_app in Hent as [??].
Qed.

(** A leader's broadcast. *)
Lemma broadcast_refines k n :
  node_ok k n → ∃ out, broadcastAppendEntries n = Ret out ∧
  (∀ m, m ∈ out → msg_ok k m) ∧
  ∀ s, peers_ok members n → n.(state) = StateLeader →
    run members s n.(id) (anode_of n) [] → run members s n.(id) (anode_of n) out.
Proof.
  intros Hok. destruct (broadcast_spec n (nok_wf _ _ Hok)) as (out & Hout & Hspec).
  exists out. split; [done|]. split.
  - intros m Hm. destruct (Hspec _ Hm) as (_ & ? & _ & ? & ?). by apply (append_msg_ok k n).
  - intros s Hp Hl Hr. apply run_sends; [done|apply Hp|]. intros m Hm.
    destruct (Hspec _ Hm) as (Hty & ? & Hto & ? & ?). split; [done|].
    destruct (p_peer _ _ _ Hp Hto). split; [done|]. split; [done|].
    unfold may_send. by rewrite Hty.
Qed.

(** The term update shared by the request handlers. *)
Definition bumped n m : Node R :=
  if n.(currentTerm) <? m.(Message.Term) then
    n <| currentTerm := m.(Message.Term) |> <| votedFor := 0 |>
      <| state := StateFollower |> <| leaderID := 0 |>
  else n.

Lemma bumped_refines k n m :
  node_ok k n → msg_ok k m → n.(currentTerm) ≤ m.(Message.Term) →
  node_ok k (bumped n m) ∧ id (bumped n m) = id n ∧ peers (bumped n m) = peers n ∧
  raftLog (bumped n m) = raftLog n ∧ currentTerm (bumped n m) = m.(Message.Term) ∧
  ∀ s, deliverable s n.(id) m → run members s n.(id) (anode_of n) [] →
    run members s n.(id) (anode_of (bumped n m)) [].
Proof.
  intros Hok Hm Hle. unfold bumped.
  destruct (N.ltb_spec (currentTerm n) (Message.Term m)) as [Hlt|Hge].
  - split; [destruct Hok, Hm; by split|]. split_and!; try done.
    intros s Hd Hr. apply (run_bump _ s (id n) (anode_of n) [] m); [done..|cbn; lia].
  - assert (currentTerm n = Message.Term m) as E by lia. by split_and!.
Qed.

Lemma handleRequestVote_refines k n m :
  node_ok k n → msg_ok k m →
  ∃ n' out, handleRequestVote n m = Ret (n', out) ∧ post k n n' out ∧
  ∀ s, peers_ok members n → m.(From) ∈ members → m.(From) ≠ n.(id) →
    m.(Type_) = MsgRequestVote → deliverable s n.(id) m →
    run members s n.(id) (anode_of n) [] → run members s n.(id) (anode_of n') out.
Proof.
  intros Hok Hm. unfold handleRequestVote.
  destruct (N.ltb_spec (Message.Term m) (currentTerm n)) as [Hlt|Hge].
  { eexists _, _. split; [done|]. split.
    - split; [done|done|done|]. intros m' ->%list_elem_of_singleton.
      apply response_ok; try done; apply Hok.
    - intros s Hp ? ? ? ? Hr. apply run_send; try done. apply Hp. }
  destruct (bumped_refines k n m Hok Hm Hge) as (Hok1 & Hid & Hps & Hlog & Hterm & Hrun).
  fold (bumped n m). set (n1 := bumped n m) in *. clearbody n1.
  assert (∃ b, (if (votedFor n1 =? 0) || (votedFor n1 =? From m)
    then isUpToDate n1 (LastLogIndex m) (LastLogTerm m) else Ret false) = Ret b ∧
    (b = true → (votedFor n1 = 0 ∨ votedFor n1 = From m) ∧
       up_to_date (entries (raftLog n1)) (LastLogIndex m) (LastLogTerm m))) as (b & Hb & Hbt).
  { destruct (isUpToDate_spec n1 (LastLogIndex m) (LastLogTerm m)) as (b & Hb & Hbt);
      [apply Hok1|].
    destruct (N.eqb_spec (votedFor n1) 0), (N.eqb_spec (votedFor n1) (From m)); cbn [orb];
      try (exists b; split; [done|]; intros ->; split; [tauto|by apply Hbt]).
    by exists false. }
  rewrite Hb. cbn [mbind go_bind]. destruct b.
  - destruct (Hbt eq_refl) as [Hfree Hup].
    destruct (reset_eq (n1 <| votedFor := From m |>)) as (t & r & ->).
    eexists _, _. split; [done|]. cbn. split.
    + split; [done|done| |].
      * destruct Hok1, Hm. by split.
      * intros m' ->%list_elem_of_singleton. apply response_ok; try done; apply Hok1.
    + intros s Hp ? ? ? Hd Hr. rewrite Hid.
      pose proof (run_vote members s (id n) (anode_of n1) [] m (Hrun _ Hd Hr) Hd) as Hv.
      by apply Hv.
  - eexists _, _. split; [done|]. split.
    + split; [done|done|done|].
      intros m' ->%list_elem_of_singleton. apply response_ok; try done; apply Hok1.
    + intros s Hp ? ? ? Hd Hr. rewrite Hid. apply run_send; try done; [by apply Hrun|apply Hp].
Qed.

(** ** Vote responses, leadership, step-down *)

Lemma stepDown_refines k n m :
  node_ok k n → msg_ok k m → n.(currentTerm) < m.(Message.Term) →
  post k n (stepDown n m.(Message.Term)) [] ∧
  ∀ s, deliverable s n.(id) m → run members s n.(id) (anode_of n) [] →
    run members s n.(id) (anode_of (stepDown n m.(Message.Term))) [].
Proof.
  intros Hok Hm Hlt. unfold stepDown.
  destruct (reset_eq (n <| currentTerm := m.(Message.Term) |> <| state := StateFollower |>
    <| votedFor := 0 |> <| leaderID := 0 |> <| votesGranted := ∅ |> <| nextIndex := ∅ |>
    <| matchIndex := ∅ |>)) as (t & r & ->).
  split.
  - split; cbn; [done|done| |by intros ? ?%not_elem_of_nil]. destruct Hok, Hm. by split.
  - intros s Hd Hr. by apply (run_bump _ s (id n) (anode_of n) [] m).
Qed.

(** The loop of [becomeLeader] fills [nextIndex] and [matchIndex] only. *)
Lemma leader_loop_eq i ps n : ∃ ni mi,
  foldl (λ n p, n <| nextIndex := <[p := i]> n.(nextIndex) |>
                  <| matchIndex := <[p := 0]> n.(matchIndex) |>) n ps =
  n <| nextIndex := ni |> <| matchIndex := mi |>.
Proof.
  revert n. induction ps as [|p ps IH]; intros n; cbn [foldl].
  - exists (nextIndex n), (matchIndex n). by destruct n.
  - destruct (IH (n <| nextIndex := <[p := i]> n.(nextIndex) |>
                    <| matchIndex := <[p := 0]> n.(matchIndex) |>)) as (ni & mi & ->).
    by exists ni, mi.
Qed.

Lemma becomeLeader_refines k n :
  node_ok k n → n.(crashed) = false → n.(state) = StateCandidate →
  ∃ n' out, becomeLeader n = Ret (n', out) ∧ post k n n' out ∧
  ∀ s, peers_ok members n → quorum members (granted_set n.(votesGranted)) →
    run members s n.(id) (anode_of n) [] → run members s n.(id) (anode_of n') out.
Proof.
  intros Hok Hcr Hst. unfold becomeLeader.
  match goal with |- context [resetElectionTimer ?x] =>
    destruct (reset_eq x) as (t & r & ->) end.
  cbn -[broadcastAppendEntries u64_add Last].
  rewrite (Last_wf _ (nok_wf _ _ Hok)). cbn -[broadcastAppendEntries u64_add].
  destruct (leader_loop_eq (lastIndex (raftLog n) +u 1) (peers n)
    (n <| state := StateLeader |> <| leaderID := id n |> <| electionElapsed := 0%Z |>
       <| rng := r |> <| electionTimeout := t |> <| heartbeatElapsed := 0%Z |>
       <| nextIndex := ∅ |> <| matchIndex := ∅ |>)) as (ni & mi & E).
  cbn -[broadcastAppendEntries u64_add] in E. rewrite E. clear E.
  set (n' := addEvent _ _).
  assert (node_ok k n') as Hok' by (destruct Hok; split; cbn; try done; by rewrite Hcr).
  destruct (broadcast_refines k n' Hok') as (out & Hout & Hmsgs & Hrun).
  rewrite Hout. cbn. eexists _, _. split; [done|]. split; [by split|].
  intros s Hp HQ Hr. apply (Hrun s); [|done|].
  - destruct Hp. by split.
  - pose proof (run_lead members s (id n) (anode_of n) [] Hr (p_self _ _ Hp)) as Hl.
    unfold anode_of in Hl. rewrite Hst in Hl. by apply Hl.
Qed.

Lemma handleRequestVoteResp_refines k n m :
  node_ok k n → msg_ok k m → n.(crashed) = false →
  ∃ n' out, handleRequestVoteResp n m = Ret (n', out) ∧ post k n n' out ∧
  ∀ s, peers_ok members n → m.(Type_) = MsgRequestVoteResp → deliverable s n.(id) m →
    run members s n.(id) (anode_of n) [] → run members s n.(id) (anode_of n') out.
Proof.
  intros Hok Hm Hcr. unfold handleRequestVoteResp.
  destruct (N.ltb_spec (currentTerm n) (Message.Term m)) as [Hlt|Hge].
  { destruct (stepDown_refines k n m Hok Hm Hlt) as [Hpost Hrun].
    eexists _, _. split; [done|]. split; [done|]. intros; by apply Hrun. }
  assert (post k n n []) as Hsame by (split; try done; by intros ? ?%not_elem_of_nil).
  destruct (N.eqb_spec (Message.Term m) (currentTerm n)) as [Heq|_]; cbn [andb];
    [|by eexists _, _].
  case_bool_decide as Hst; [|by eexists _, _].
  set (n1 := if Granted m then _ else n).
  assert (node_ok k n1 ∧ id n1 = id n ∧ peers n1 = peers n ∧ crashed n1 = crashed n ∧
    state n1 = StateCandidate ∧
    ∀ s, m.(Type_) = MsgRequestVoteResp → deliverable s n.(id) m →
      run members s n.(id) (anode_of n) [] → run members s n.(id) (anode_of n1) [])
    as (Hok1 & Hid & Hps & Hcr1 & Hst1 & Hrun1).
  { unfold n1. destruct (Granted m) eqn:Hg; [|by split_and!].
    split; [destruct Hok; by split|]. split_and!; try done.
    intros s Hty Hd Hr. unfold anode_of in *. cbn. rewrite Hst in *.
    rewrite decide_True in * by done. rewrite granted_set_insert.
    by apply (run_count members s (id n) _ [] m Hr). }
  clearbody n1. case_match eqn:Hmaj.
  - destruct (becomeLeader_refines k n1 Hok1) as (n' & out & -> & Hpost & Hrun); [congruence|done|].
    eexists _, _. split; [done|]. split.
    + destruct Hpost. split; congruence || done.
    + intros s Hp Hty Hd Hr. rewrite <- Hid. apply Hrun.
      * destruct Hp. split; by rewrite ?Hid, ?Hps.
      * apply countVotes_quorum; [|by apply Z.leb_le].
        destruct Hp. split; by rewrite ?Hid, ?Hps.
      * rewrite Hid. by apply Hrun1.
  - eexists _, _. split; [done|]. split; [by split; try done; intros ? ?%not_elem_of_nil|].
    intros s Hp Hty Hd Hr. by apply Hrun1.
Qed.

(** ** AppendEntries *)

(** A node that differs from [n] in its commit index and events only. *)
Definition same_view k n n' : Prop :=
  node_ok k n' ∧ n'.(id) = n.(id) ∧ n'.(peers) = n.(peers) ∧ anode_of n' = anode_of n.

Lemma same_view_post k n n' : same_view k n n' → post k n n' [].
Proof. intros (? & ? & ? & _). split; try done. by intros ? ?%not_elem_of_nil. Qed.

Lemma commit_view k n l err ev i :
  node_ok k n → CommitTo n.(raftLog) i = Ret (l, err) →
  same_view k n (n <| raftLog := l |>) ∧ same_view k n (addEvent (n <| raftLog := l |>) ev).
Proof.
  intros Hok Hc. pose proof (nok_wf _ _ Hok) as Hwf. rewrite (CommitTo_wf _ _ Hwf) in Hc.
  assert (wf l ∧ entries l = entries (raftLog n)) as [Hl He].
  { destruct (N.ltb_spec (lastIndex (raftLog n)) i); [by injection Hc as <- <-|].
    destruct (i <? _); injection Hc as <- <-; [done|]. split; [by apply set_commit_wf|done]. }
  assert (node_ok k (n <| raftLog := l |>)) as Hok'.
  { destruct Hok. split; cbn; rewrite ?He; done. }
  unfold same_view, anode_of. cbn. rewrite He. split; [by split_and!|].
  split_and!; try done. destruct Hok'. by split.
Qed.

Lemma followerCommit_view k n lc i :
  node_ok k n → ∃ n', followerCommit n lc i = Ret n' ∧ same_view k n n'.
Proof.
  intros Hok. unfold followerCommit.
  destruct (_ <? lc); [|by exists n].
  set (c := if i <? lc then i else lc).
  destruct (CommitTo (raftLog n) c) as [[l err]|e|] eqn:E;
    [|by rewrite (CommitTo_wf _ _ (nok_wf _ _ Hok)) in E..].
  cbn. destruct (commit_view k n l err (committedEvent (n <| raftLog := l |>)
    (Log.CommitIndex l)) c Hok E) as [Hv1 Hv2].
  destruct err; [by eexists|]. destruct (0 <? c); by eexists.
Qed.

(** The role update of [handleAppendEntries] (term already checked). *)
Definition followed n m : Node R :=
  if negb (bool_decide (n.(state) = StateFollower)) || (n.(currentTerm) <? m.(Message.Term))
  then n <| currentTerm := m.(Message.Term) |> <| state := StateFollower |> <| votedFor := 0 |>
  else n.

Lemma followed_refines k n m :
  node_ok k n → msg_ok k m → n.(currentTerm) ≤ m.(Message.Term) →
  node_ok k (followed n m) ∧ id (followed n m) = id n ∧ peers (followed n m) = peers n ∧
  raftLog (followed n m) = raftLog n ∧ currentTerm (followed n m) = m.(Message.Term) ∧
  state (followed n m) = StateFollower ∧
  ∀ s, m.(Type_) = MsgAppendEntries → deliverable s n.(id) m →
    run members s n.(id) (anode_of n) [] →
    run members s n.(id) (anode_of (followed n m)) [].
Proof.
  intros Hok Hm Hle. unfold followed.
  destruct (N.ltb_spec (currentTerm n) (Message.Term m)) as [Hlt|Hge].
  - rewrite orb_true_r. destruct Hok, Hm. split; [by split|]. split_and!; try done.
    intros s Hty Hd Hr. by apply (run_bump _ s (id n) (anode_of n) [] m).
  - assert (Message.Term m = currentTerm n) as E by lia.
    case_bool_decide as Hst; cbn [negb orb]; [by split_and!|].
    split; [destruct Hok, Hm; by split|]. split_and!; try done.
    intros s Hty Hd Hr. unfold anode_of; cbn. rewrite E.
    by apply (run_follow _ s (id n) (anode_of n) [] m).
Qed.

(** Accepting the entries of a matching message. *)
Lemma append_entries_refines k n m :
  node_ok k n → msg_ok k m → k + 1 < u64_modulus →
  n.(currentTerm) = m.(Message.Term) → n.(state) = StateFollower →
  prev_matches n.(raftLog).(entries) m.(PrevLogIndex) m.(PrevLogTerm) →
  ∃ l, (if (0 <? length m.(Message.Entries))%nat
        then Append n.(raftLog) (deepCopyEntries m.(Message.Entries))
        else Ret (n.(raftLog), None)) = Ret (l, None) ∧
  node_ok k (n <| raftLog := l |>) ∧
  ∀ s, m.(Type_) = MsgAppendEntries → deliverable s n.(id) m →
    run members s n.(id) (anode_of n) [] →
    run members s n.(id) (anode_of (n <| raftLog := l |>)) [].
Proof.
  intros Hok Hm Hk Hterm Hst Hprev. pose proof Hok as [Hwf Hlen Hent Ht Hv Hid Hcr].
  pose proof Hm as [Hmt Hmf Hml Hmc Hme].
  set (lo := PrevLogIndex m + 1).
  assert (lo ≤ lenN (entries (raftLog n))) as Hlo.
  { pose proof (wf_nonempty _ Hwf). unfold lo. destruct Hprev as [->|Hp]; [lia|].
    destruct (_ !! N.to_nat _) eqn:E in Hp; [|done]. apply lookup_lt_Some in E. lia. }
  assert (Append (raftLog n) (Message.Entries m) =
    Ret (reconcile_log (raftLog n) lo (Message.Entries m), None)) as Happ.
  { apply Append_reconcile; try done; lia. }
  exists (reconcile_log (raftLog n) lo (Message.Entries m)). split; [|split].
  - unfold deepCopyEntries. rewrite map_copy. destruct (Message.Entries m); [|done].
    cbn in Happ. injection Happ as Happ. cbn. by rewrite <- Happ.
  - split; cbn -[reconcile_log]; try done.
    + apply reconcile_log_wf; try done; lia.
    + pose proof (reconcile_log_length (raftLog n) lo (Message.Entries m) Hlo). lia.
    + unfold reconcile_log; cbn. apply Forall_app. split; [by apply Forall_take|].
      apply reconcile_Forall; [by apply Forall_drop|done].
  - intros s Hty Hd Hr.
    pose proof (run_append members s (id n) (anode_of n) [] m Hr Hd Hty) as Hra.
    unfold anode_of in *. cbn in *. rewrite Hst in *. by apply Hra.
Qed.

Lemma post_same_view k n n1 n2 out :
  post k n n1 out → same_view k n1 n2 → post k n n2 out.
Proof. intros [Hi Hp _ Ho] (Hk & Hi2 & Hp2 & _). split; congruence || done. Qed.

Lemma handleAppendEntries_refines k n m :
  node_ok k n → msg_ok k m → k + 1 < u64_modulus →
  ∃ n' out, handleAppendEntries n m = Ret (n', out) ∧ post k n n' out ∧
  ∀ s, peers_ok members n → m.(From) ∈ members → m.(From) ≠ n.(id) →
    m.(Type_) = MsgAppendEntries → deliverable s n.(id) m →
    run members s n.(id) (anode_of n) [] → run members s n.(id) (anode_of n') out.
Proof.
  intros Hok Hm Hk. unfold handleAppendEntries.
  destruct (N.ltb_spec (Message.Term m) (currentTerm n)) as [Hlt|Hge].
  { eexists _, _. split; [done|]. split.
    - split; [done|done|done|]. intros m' ->%list_elem_of_singleton.
      apply response_ok; try done; apply Hok.
    - intros s Hp ? ? ? ? Hr. apply run_send; try done. apply Hp. }
  destruct (followed_refines k n m Hok Hm Hge) as (Hok1 & Hid & Hps & Hlog & Hterm & Hst & Hrun).
  fold (followed n m). set (n1 := followed n m) in *. clearbody n1.
  destruct (reset_eq (n1 <| leaderID := From m |>)) as (t & r & ->).
  set (n2 := _ <| electionTimeout := t |>).
  assert (node_ok k n2) as Hok2 by (destruct Hok1; by split).
  rewrite MatchesPrevLogTerm_spec. cbn [mbind go_bind].
  case_bool_decide as Hprev; cbn [negb].
  - destruct (append_entries_refines k n2 m Hok2 Hm Hk Hterm Hst Hprev) as (l & -> & Hok3 & Hrun3).
    cbn [mbind go_bind]. set (n3 := n2 <| raftLog := l |>) in *.
    rewrite (Last_wf _ (nok_wf _ _ Hok3)). cbn [mbind go_bind].
    destruct (followerCommit_view k n3 (LeaderCommit m) (lastIndex (raftLog n3)) Hok3)
      as (n4 & -> & Hv). cbn [mbind go_bind].
    pose proof Hv as (Hok4 & Hid4 & Hps4 & Ha4).
    eexists _, _. split; [done|]. split.
    + cbn in Hid4, Hps4. split; [congruence..|done|]. intros m' ->%list_elem_of_singleton.
      apply response_ok; try done; apply Hok4.
    + intros s Hp ? ? Hty Hd Hr. rewrite Ha4. cbn in Hid4.
      apply run_send; try done; try (cbn; congruence); [|apply Hp].
      cbn in Hrun3. rewrite Hid in Hrun3. apply Hrun3; [done|done|by apply (Hrun s)].
  - rewrite (Last_wf _ (nok_wf _ _ Hok2)). cbn [mbind go_bind].
    eexists _, _. split; [done|]. split.
    + split; [done|done|done|]. intros m' ->%list_elem_of_singleton.
      apply response_ok; try done; apply Hok2.
    + intros s Hp ? ? Hty Hd Hr. apply run_send; try done; [by apply (Hrun s)|apply Hp].
Qed.

(** ** AppendEntries responses *)

Lemma advanceCommit_view k n i :
  node_ok k n → ∃ n', advanceCommit_from n i = Ret n' ∧ same_view k n n'.
Proof.
  intros Hok. assert (same_view k n n) as Hrefl by done.
  induction i as [|i IH]; [by exists n|]. cbn [advanceCommit_from].
  destruct (_ <=? _); [by exists n|].
  destruct (TermAt (raftLog n) _) as [t|e|] eqn:Et; [|by exists n|].
  - destruct (negb _); [done|]. destruct (replicatedOnMajority n _); [|done].
    destruct (CommitTo (raftLog n) (N.of_nat (S i))) as [[l err]|e|] eqn:E;
      [|by rewrite (CommitTo_wf _ _ (nok_wf _ _ Hok)) in E..].
    cbn [mbind go_bind].
    destruct (commit_view k n l err (committedEvent (n <| raftLog := l |>)
      (N.of_nat (S i))) _ Hok E) as [Hv1 Hv2].
    destruct err; by eexists.
  - exfalso. destruct (decide (N.of_nat (S i) < lenN (entries (raftLog n)))) as [Hlt|Hge].
    + destruct (index_lt _ _ Hlt) as (e & _ & He). by rewrite (TermAt_in _ _ _ He) in Et.
    + by rewrite TermAt_out in Et by lia.
Qed.

Lemma handleAppendEntriesResp_refines k n m :
  node_ok k n → msg_ok k m →
  ∃ n' out, handleAppendEntriesResp n m = Ret (n', out) ∧ post k n n' out ∧
  ∀ s, deliverable s n.(id) m →
    run members s n.(id) (anode_of n) [] → run members s n.(id) (anode_of n') out.
Proof.
  intros Hok Hm. unfold handleAppendEntriesResp.
  destruct (N.ltb_spec (currentTerm n) (Message.Term m)) as [Hlt|Hge].
  { destruct (stepDown_refines k n m Hok Hm Hlt) as [Hpost Hrun].
    eexists _, _. split; [done|]. split; [done|]. intros; by apply Hrun. }
  assert (∀ n', same_view k n n' → ∃ n'' out,
    @Ret (Node R * list Message) (n', []) = Ret (n'', out) ∧ post k n n'' out ∧
    ∀ s, deliverable s n.(id) m →
      run members s n.(id) (anode_of n) [] → run members s n.(id) (anode_of n'') out) as Hdone.
  { intros n' Hv. eexists _, _. split; [done|]. split; [by apply same_view_post|].
    intros s _ Hr. by destruct Hv as (_ & _ & _ & ->). }
  destruct (_ && _); [|by apply Hdone].
  destruct (Success m).
  - set (n1 := _ <| nextIndex := _ |>).
    assert (same_view k n n1) as (Hok1 & Hi1 & Hp1 & Ha1) by (split; [by destruct Hok|done]).
    unfold advanceCommit. rewrite (Last_wf _ (nok_wf _ _ Hok1)). cbn [mbind go_bind].
    destruct (advanceCommit_view k n1 (N.to_nat (lastIndex (raftLog n1))) Hok1)
      as (n2 & -> & Hok2 & Hi2 & Hp2 & Ha2). cbn [mbind go_bind].
    apply Hdone. split; [done|]. split_and!; congruence.
  - destruct (_ <? _); [|by apply Hdone]. apply Hdone. split; [by destruct Hok|done].
Qed.

(** ** Step *)

Lemma Step_refines k n m :
  node_ok k n → msg_ok k m → k + 1 < u64_modulus →
  ∃ n' out, Step n m = Ret (n', out) ∧ post k n n' out ∧
  ∀ s, peers_ok members n → m.(From) ∈ members → m.(From) ≠ n.(id) →
    deliverable s n.(id) m →
    run members s n.(id) (anode_of n) [] → run members s n.(id) (anode_of n') out.
Proof.
  intros Hok Hm Hk. unfold Step.
  assert (∃ n' out, @Ret (Node R * list Message) (n, []) = Ret (n', out) ∧ post k n n' out ∧
    ∀ s, peers_ok members n → m.(From) ∈ members → m.(From) ≠ n.(id) →
    deliverable s n.(id) m →
    run members s n.(id) (anode_of n) [] → run members s n.(id) (anode_of n') out) as Hnop.
  { eexists _, _. split; [done|]. split; [by apply same_view_post|done]. }
  destruct (crashed n) eqn:Hcr; [done|]. destruct (Type_ m) eqn:Hty; [| | | |done].
  - destruct (handleRequestVote_refines k n m Hok Hm) as (n' & out & ? & ? & Hr).
    exists n', out. split_and!; [done..|]. intros; by apply Hr.
  - destruct (handleRequestVoteResp_refines k n m Hok Hm Hcr) as (n' & out & ? & ? & Hr).
    exists n', out. split_and!; [done..|]. intros; by apply Hr.
  - destruct (handleAppendEntries_refines k n m Hok Hm Hk) as (n' & out & ? & ? & Hr).
    exists n', out. split_and!; [done..|]. intros; by apply Hr.
  - destruct (handleAppendEntriesResp_refines k n m Hok Hm) as (n' & out & ? & ? & Hr).
    exists n', out. split_and!; [done..|]. intros; by apply Hr.
Qed.

(** ** Tick *)

Lemma startElection_refines k n :
  node_ok k n → k + 1 < u64_modulus → n.(crashed) = false → n.(state) ≠ StateLeader →
  ∃ n' out, startElection n = Ret (n', out) ∧ post (k + 1) n n' out ∧
  ∀ s, peers_ok members n →
    run members s n.(id) (anode_of n) [] → run members s n.(id) (anode_of n') out.
Proof.
  intros Hok Hk Hcr Hst. pose proof Hok as [Hwf Hlen Hent Ht Hv Hid _].
  unfold startElection. match goal with |- context [resetElectionTimer ?x] =>
    destruct (reset_eq x) as (t & r & ->) end.
  cbn -[Last u64_add]. rewrite (Last_wf _ Hwf). cbn -[u64_add].
  rewrite u64_add_small by lia.
  eexists _, _. split; [done|]. split.
  - split; [done|done|split; cbn; try done; [lia|lia|congruence]|].
    intros m (p & -> & _)%list_elem_of_fmap. apply response_ok; cbn; try done; lia.
  - intros s Hp Hr. apply run_sends; [|apply Hp|].
    + pose proof (run_timeout members s (id n) (anode_of n) [] Hr (p_self _ _ Hp) Hst) as Hto.
      by rewrite <- granted_set_singleton in Hto.
    + intros m (p & -> & Hin)%list_elem_of_fmap. destruct (p_peer _ _ _ Hp Hin).
      split_and!; done.
Qed.

Lemma Tick_refines k n :
  node_ok k n → k + 1 < u64_modulus →
  ∃ n' out, Tick n = Ret (n', out) ∧ post (k + 1) n n' out ∧
  ∀ s, peers_ok members n →
    run members s n.(id) (anode_of n) [] → run members s n.(id) (anode_of n') out.
Proof.
  intros Hok Hk. unfold Tick.
  assert (∀ n', same_view k n n' → ∃ n'' out,
    @Ret (Node R * list Message) (n', []) = Ret (n'', out) ∧ post (k + 1) n n'' out ∧
    ∀ s, peers_ok members n →
      run members s n.(id) (anode_of n) [] → run members s n.(id) (anode_of n'') out) as Hnop.
  { intros n' (Hk' & Hi & Hp & Ha). eexists _, _. split; [done|]. split.
    - split; [done|done|apply (node_ok_mono k); [lia|done]|by intros ? ?%not_elem_of_nil].
    - intros s _. by rewrite Ha. }
  destruct (crashed n) eqn:Hcr; [by apply Hnop|].
  set (n1 := n <| electionElapsed := _ |>).
  assert (same_view k n n1) as Hv1 by (split; [by destruct Hok|done]).
  pose proof Hv1 as (Hok1 & _ & _ & Ha1).
  destruct (state n1) eqn:Hst; [| | |by apply Hnop].
  1,2: destruct (_ <=? _)%Z; [|by apply Hnop];
    destruct (startElection_refines k n1 Hok1 Hk Hcr) as (n' & out & -> & Hpost & Hrun);
    [congruence|]; exists n', out; split_and!; [done|by destruct Hpost|];
    intros s Hp Hr; rewrite <- Ha1 in Hr; apply (Hrun s); [by destruct Hp|done].
  set (n2 := n1 <| heartbeatElapsed := _ |>).
  assert (same_view k n n2) as Hv2 by (split; [by destruct Hok|done]).
  destruct (_ <=? _)%Z; [|by apply Hnop].
  set (n3 := n2 <| heartbeatElapsed := _ |>).
  assert (same_view k n n3) as Hv3 by (split; [by destruct Hok|done]).
  pose proof Hv3 as (Hok3 & _ & _ & Ha3).
  destruct (broadcast_refines k n3 Hok3) as (out & -> & Hmsgs & Hrun). cbn [mbind go_bind].
  exists n3, out. split; [done|]. split.
  - split; [done|done|apply (node_ok_mono k); [lia|done]|].
    intros m Hm. apply (msg_ok_mono k); [lia|by apply Hmsgs].
  - intros s Hp Hr. apply (Hrun s); [by destruct Hp|done|by rewrite Ha3].
Qed.

(** ** Client commands *)

Lemma ReplicateNow_refines k n :
  node_ok k n → ∃ out, ReplicateNow n = Ret out ∧ (∀ m, m ∈ out → msg_ok k m) ∧
  ∀ s, peers_ok members n →
    run members s n.(id) (anode_of n) [] → run members s n.(id) (anode_of n) out.
Proof.
  intros Hok. unfold ReplicateNow.
  case_bool_decide as Hst; cbn [negb orb];
    [|exists []; split_and!; [done|by intros ? ?%not_elem_of_nil|done]].
  destruct (crashed n);
    [exists []; split_and!; [done|by intros ? ?%not_elem_of_nil|done]|].
  destruct (broadcast_refines k n Hok) as (out & ? & ? & Hr).
  exists out. split_and!; [done..|]. intros; by apply Hr.
Qed.

Lemma Append_one l term cmd :
  wf l → lenN l.(entries) + 1 < u64_modulus →
  Append l [MkEntry term (lastIndex l +u 1) cmd] =
    Ret (MkLog (l.(entries) ++ [MkEntry term (lenN l.(entries)) cmd]) l.(commitIndex), None).
Proof.
  intros Hwf Hlen. pose proof (wf_nonempty _ Hwf). rewrite (lastIndex_succ _ Hwf).
  rewrite (Append_reconcile l (lenN (entries l))); cbn [length contig Log.Index]; try done;
    try lia.
  unfold reconcile_log. rewrite take_ge, drop_ge by lia. done.
Qed.

Lemma Propose_refines k n cmd :
  node_ok k n → k + 3 < u64_modulus → is_u64 (lenN cmd) →
  ∃ n' err, Propose n cmd = Ret (n', err) ∧ post (k + 1) n n' [] ∧
  ∀ s, peers_ok members n →
    run members s n.(id) (anode_of n) [] → run members s n.(id) (anode_of n') [].
Proof.
  intros Hok Hk Hcmd. unfold Propose.
  assert (post (k + 1) n n []) as Hsame.
  { split; [done|done|apply (node_ok_mono k); [lia|done]|by intros ? ?%not_elem_of_nil]. }
  destruct (crashed n) eqn:Hcr; [by eexists _, _|].
  case_bool_decide as Hst; cbn [negb]; [|by eexists _, _].
  pose proof Hok as [Hwf Hlen Hent Ht Hv Hid _].
  rewrite (Last_wf _ Hwf). cbn [mbind go_bind].
  rewrite (Append_one _ _ _ Hwf) by lia. cbn [mbind go_bind].
  eexists _, _. split; [done|]. split.
  - split; [done|done| |by intros ? ?%not_elem_of_nil].
    split; cbn; try done; try congruence; try lia.
    + pose proof (reconcile_log_wf (raftLog n) (lenN (entries (raftLog n)))
        [MkEntry (currentTerm n) (lenN (entries (raftLog n))) cmd] Hwf) as Hwf'.
      unfold reconcile_log in Hwf'. rewrite take_ge, drop_ge in Hwf' by lia.
      cbn in Hwf'. pose proof (wf_nonempty _ Hwf). apply Hwf'; try done; lia.
    + rewrite length_app. cbn. lia.
    + apply Forall_app. split; [done|]. constructor; [|done].
      unfold entry_ok, is_u64; cbn. split_and!; [lia|lia|done].
  - intros s Hp Hr. unfold anode_of in *. cbn. rewrite Hst in *.
    by apply (run_propose members s (id n) _ [] cmd Hr (p_self _ _ Hp)).
Qed.

(** ** Crash and restart *)

Lemma Crash_refines k n :
  node_ok k n → post k n (Crash n).1 [] ∧
  ∀ s, peers_ok members n →
    run members s n.(id) (anode_of n) [] → run members s n.(id) (anode_of (Crash n).1) [].
Proof.
  intros Hok. unfold Crash. destruct (crashed n) eqn:Hcr; [split; [by apply same_view_post|done]|].
  split.
  - split; [done|done| |by intros ? ?%not_elem_of_nil]. destruct Hok; by split.
  - intros s Hp Hr. by apply (run_crash members s (id n) (anode_of n) [] Hr (p_self _ _ Hp)).
Qed.

Lemma state_of_node_ok k n :
  node_ok k n → k + 1 < u64_modulus →
  state_ok (MkPersistedState n.(currentTerm) n.(votedFor) (drop 1 n.(raftLog).(entries))).
Proof.
  intros [Hwf Hlen Hent Ht Hv Hid _] Hk. unfold is_u64 in *.
  split; cbn [CurrentTerm VotedFor LogPersist.Entries]; unfold is_u64; try done; try lia.
  - rewrite length_drop. lia.
  - by apply Forall_drop.
  - apply (contig_drop 0 _ 1), wf_contig, Hwf.
Qed.

Lemma Append_to_new l :
  wf l → Append Log.New (drop 1 l.(entries)) = Ret (MkLog l.(entries) 0, None).
Proof.
  intros Hwf. pose proof (wf_size _ Hwf) as Hsz. pose proof (wf_head _ Hwf) as Hh.
  rewrite (Append_reconcile Log.New 1).
  - unfold reconcile_log. cbn. rewrite reconcile_nil_l.
    destruct (entries l) as [|e es]; [done|]. cbn in Hh. injection Hh as ->. cbn.
    rewrite drop_0. by destruct es.
  - apply New_wf.
  - lia.
  - cbn. lia.
  - apply (contig_drop 0 _ 1), wf_contig, Hwf.
  - rewrite length_drop. pose proof (wf_nonempty _ Hwf). lia.
Qed.

(** Restarting a crashed node gives back its term, vote and log. *)
Lemma Restart_spec k n :
  node_ok k n → k + 1 < u64_modulus → n.(crashed) = true →
  ∃ n', Restart n = Ret (n', None) ∧ post k n n' [] ∧
    n'.(currentTerm) = n.(currentTerm) ∧ n'.(votedFor) = n.(votedFor) ∧
    n'.(raftLog) = MkLog n.(raftLog).(entries) 0 ∧ n'.(state) = StateFollower ∧
    n'.(crashed) = false.
Proof.
  intros Hok Hk Hcr. pose proof Hok as [Hwf Hlen Hent Ht Hv Hid _].
  unfold Restart, persisted. rewrite Hcr, (AllEntries_wf _ Hwf). cbn [negb mbind go_bind].
  pose proof (Deserialize_app _ [] (state_of_node_ok k n Hok Hk)) as Hrt.
  rewrite app_nil_r in Hrt. rewrite Hrt. cbn [LogPersist.Entries].
  cbn [raftLog set_field set_raftLog]. rewrite (Append_to_new _ Hwf). cbn [mbind go_bind].
  match goal with |- context [resetElectionTimer ?x] =>
    destruct (reset_eq x) as (t & r & ->) end.
  eexists. split; [done|]. split_and!; try done.
  split; [done|done| |by intros ? ?%not_elem_of_nil]. split; cbn; try done.
  pose proof (wf_nonempty _ Hwf). destruct Hwf. split; cbn; try done. lia.
Qed.

Lemma Restart_refines k n :
  node_ok k n → k + 1 < u64_modulus →
  ∃ n' err, Restart n = Ret (n', err) ∧ post k n n' [] ∧
  ∀ s, run members s n.(id) (anode_of n) [] → run members s n.(id) (anode_of n') [].
Proof.
  intros Hok Hk. destruct (crashed n) eqn:Hcr.
  - destruct (Restart_spec k n Hok Hk Hcr) as (n' & -> & Hpost & Ht & Hv & Hl & Hst & _).
    exists n', None. split_and!; try done. intros s Hr.
    unfold anode_of in *. rewrite Ht, Hv, Hl, Hst in *. cbn.
    rewrite (nok_crashed _ _ Hok Hcr) in Hr. done.
  - unfold Restart. rewrite Hcr. eexists _, _. split; [done|].
    split; [by apply same_view_post|done].
Qed.
End handlers.
