(* ===== verification/NodeSpec.v ===== *)
(** * What each operation of a node does

    Functional theorems about single calls of [Node]'s methods on a node with a well-formed
    log: votes, leadership, replication, commitment, client commands, timers, crash and
    restart.  They hold for any peer list, so they also apply to the wiring of [Cluster];
    what follows for whole executions is in [Network]. *)
From S2P Require Import Prelude Log LogPersist Message Node Spec NodeFacts Refine.
From Stdlib Require Import Strings.Byte.
Open Scope N_scope.

Section nodespec.
  Context {R : Type} `{RNG R}.
  Implicit Types (n : Node R) (m : Message).

(** ** Commitment *)

(** Index [i] can be committed by the leader [n]: above the commit index, an entry of the
    current term, and on a majority as far as [matchIndex] says (the leader counts). *)
Definition committable n (i : N) : Prop :=
  n.(raftLog).(commitIndex) < i ∧
  Log.Term <$> n.(raftLog).(entries) !! N.to_nat i = Some n.(currentTerm) ∧
  (majority n ≤ 1 + Z.of_nat (length (filter (λ p, (i ≤ get_index n.(matchIndex) p)%N) n.(peers))))%Z.

Lemma replicatedOnMajority_spec n i :
  replicatedOnMajority n i = true ↔
  (majority n ≤ 1 + Z.of_nat (length (filter (λ p, (i ≤ get_index n.(matchIndex) p)%N) n.(peers))))%Z.
Proof.
  unfold replicatedOnMajority. rewrite count_loop, Z.leb_le.
  erewrite list_filter_iff; [done|]. intros p. apply N.leb_le.
Qed.

(** The result of the loop from [idx] down. *)
Definition committed_from n (idx : N) n' : Prop :=
  (∀ i, i ≤ idx → ¬ committable n i) ∧ n' = n ∨
  ∃ i, i ≤ idx ∧ committable n i ∧ (∀ j, j ≤ idx → committable n j → j ≤ i) ∧
    n' = addEvent (n <| raftLog := n.(raftLog) <| commitIndex := i |> |>) (committedEvent n i).

Lemma advanceCommit_from_spec n idx :
  wf n.(raftLog) → N.of_nat idx ≤ lastIndex n.(raftLog) →
  ∃ n', advanceCommit_from n idx = Ret n' ∧ committed_from n (N.of_nat idx) n'.
Proof.
  intros Hwf. induction idx as [|idx IH]; intros Hle.
  { exists n. split; [done|]. left. split; [|done]. intros i Hi (Hc & _). lia. }
  cbn [advanceCommit_from]. set (i := N.of_nat (S idx)) in *.
  unfold Log.CommitIndex. destruct (N.leb_spec i (commitIndex (raftLog n))) as [Hlow|Hhigh].
  { exists n. split; [done|]. left. split; [|done]. intros j Hj (Hc & _). lia. }
  pose proof (wf_nonempty _ Hwf) as Hne. unfold lastIndex in Hle.
  destruct (index_lt (entries (raftLog n)) i) as (e & _ & He); [lia|].
  rewrite (TermAt_in _ _ _ He).
  assert (∀ n', ¬ committable n i → committed_from n (N.of_nat idx) n' → committed_from n i n')
    as Hnext.
  { intros n' Hno [(Hnone & ->)|(j & Hj & Hcj & Hmax & ->)].
    - left. split; [|done]. intros j Hj Hcj. destruct (decide (j = i)) as [->|]; [done|].
      apply (Hnone j); [lia|done].
    - right. exists j. split_and!; [lia|done| |done]. intros j' Hj' Hcj'.
      destruct (decide (j' = i)) as [->|]; [done|]. apply Hmax; [lia|done]. }
  destruct IH as (n' & Hn' & Hspec); [unfold lastIndex, i in *; lia|].
  destruct (N.eqb_spec (Log.Term e) (currentTerm n)) as [Ht|Ht]; cbn [negb].
  2: { exists n'. split; [done|]. apply Hnext; [|done]. intros (_ & Hterm & _).
       rewrite He in Hterm. cbn in Hterm. congruence. }
  destruct (replicatedOnMajority n i) eqn:Hrep.
  - rewrite (CommitTo_wf _ _ Hwf). unfold lastIndex.
    rewrite (proj2 (N.ltb_ge _ _)), (proj2 (N.ltb_ge _ _)) by lia. cbn [mbind go_bind].
    eexists. split; [done|]. right. exists i. split_and!; [done| |done|done].
    split; [done|]. rewrite He. cbn. rewrite Ht. split; [done|].
    by apply replicatedOnMajority_spec.
  - exists n'. split; [done|]. apply Hnext; [|done]. intros (_ & _ & Hq).
    apply replicatedOnMajority_spec in Hq. congruence.
Qed.

Lemma committable_in_log n i :
  committable n i → i ≤ lastIndex n.(raftLog).
Proof.
  intros (_ & Ht & _). unfold lastIndex. destruct (_ !! N.to_nat i) eqn:E; [|done].
  apply lookup_lt_Some in E. lia.
Qed.

(** ** Commit index of a follower *)

Lemma followerCommit_spec n lc :
  wf n.(raftLog) →
  ∃ n', followerCommit n lc (lastIndex n.(raftLog)) = Ret n' ∧
    n'.(raftLog) = n.(raftLog) <| commitIndex :=
        N.max n.(raftLog).(commitIndex) (N.min lc (lastIndex n.(raftLog))) |> ∧
    n'.(state) = n.(state) ∧ n'.(currentTerm) = n.(currentTerm) ∧ n'.(id) = n.(id) ∧
    n'.(leaderID) = n.(leaderID) ∧ n'.(crashed) = n.(crashed).
Proof.
  intros Hwf. unfold followerCommit, Log.CommitIndex.
  set (c := commitIndex (raftLog n)). set (last := lastIndex (raftLog n)).
  assert (c ≤ last) as Hc by (pose proof (wf_commit _ Hwf); unfold last, lastIndex, c; lia).
  destruct (N.ltb_spec c lc) as [Hlt|Hge].
  - replace (if last <? lc then last else lc) with (N.min lc last)
      by (destruct (N.ltb_spec last lc); lia).
    rewrite (CommitTo_wf _ _ Hwf). fold last c.
    rewrite (proj2 (N.ltb_ge last _)), (proj2 (N.ltb_ge _ c)) by lia.
    cbn [mbind go_bind]. rewrite N.max_r by lia.
    destruct (0 <? N.min lc last); eexists; by split_and!.
  - exists n. split_and!; try done. rewrite N.max_l by lia. by destruct n as [? ? ? ? []].
Qed.

(** ** Leadership *)

(** [nextIndex] and [matchIndex] after the loop of [becomeLeader]. *)
Lemma leader_loop_index i ps n :
  let n' := foldl (λ n p, n <| nextIndex := <[p := i]> n.(nextIndex) |>
                            <| matchIndex := <[p := 0]> n.(matchIndex) |>) n ps in
  ∀ p, p ∈ ps ∨ get_index n.(nextIndex) p = i ∧ get_index n.(matchIndex) p = 0 →
    get_index n'.(nextIndex) p = i ∧ get_index n'.(matchIndex) p = 0.
Proof.
  revert n. induction ps as [|q ps IH]; intros n n' p Hp; unfold n'; cbn [foldl].
  - destruct Hp as [?%not_elem_of_nil|?]; done.
  - apply IH. unfold get_index. cbn. rewrite !lookup_insert.
    destruct (decide (q = p)) as [->|Hne]; [by right|].
    destruct Hp as [[->|?]%elem_of_cons|?]; [done|by left|by right].
Qed.

(** The message for one peer whose [nextIndex] is inside the log or just past it. *)
Lemma appendEntriesFor_exact n p :
  wf n.(raftLog) →
  1 ≤ get_index n.(nextIndex) p ≤ lastIndex n.(raftLog) + 1 →
  appendEntriesFor n (lastIndex n.(raftLog)) (Log.CommitIndex n.(raftLog)) p =
    let ni := get_index n.(nextIndex) p in
    Ret (NewAppendEntries n.(id) p n.(currentTerm) (ni - 1)
      (from_option Log.Term 0 (n.(raftLog).(entries) !! N.to_nat (ni - 1)))
      n.(raftLog).(commitIndex) (drop (N.to_nat ni) n.(raftLog).(entries))).
Proof.
  intros Hwf Hni. unfold appendEntriesFor. cbn zeta.
  set (ni := get_index _ p) in *.
  pose proof (wf_nonempty _ Hwf) as Hne. pose proof (wf_size _ Hwf) as Hsz.
  pose proof (wf_head _ Hwf) as Hh. rewrite (lastIndex_succ _ Hwf).
  assert ((if 1 <? ni then
       match TermAt n.(raftLog) (ni -u 1) with
       | Ret t => Ret (ni -u 1, t)
       | Throw _ => Ret (0, 0)
       | Panic => Panic
       end
     else Ret (0, 0)) =
    Ret (ni - 1, from_option Log.Term 0 (entries (raftLog n) !! N.to_nat (ni - 1)))) as ->.
  { destruct (N.ltb_spec 1 ni) as [Hlt|Hle].
    - unfold lastIndex in Hni.
      rewrite u64_sub_small by (unfold is_u64; lia).
      destruct (index_lt (entries (raftLog n)) (ni - 1)) as (e & _ & He); [lia|].
      by rewrite (TermAt_in _ _ _ He), He.
    - assert (ni = 1) as -> by lia. change (N.to_nat (1 - 1)) with 0%nat. by rewrite Hh. }
  cbn [mbind go_bind]. unfold Log.CommitIndex.
  destruct (N.leb_spec ni (lastIndex (raftLog n))) as [Hle|Hgt].
  - rewrite (Slice_wf _ _ _ Hwf), N.max_r by lia. cbn [mbind go_bind]. do 2 f_equal.
    unfold sub. apply take_ge. rewrite length_drop. lia.
  - cbn [mbind go_bind]. do 2 f_equal. symmetry. apply drop_ge. unfold lastIndex in *. lia.
Qed.

Lemma broadcast_exact n :
  wf n.(raftLog) →
  (∀ p, p ∈ n.(peers) → 1 ≤ get_index n.(nextIndex) p ≤ lastIndex n.(raftLog) + 1) →
  broadcastAppendEntries n = Ret (map (λ p,
    let ni := get_index n.(nextIndex) p in
    NewAppendEntries n.(id) p n.(currentTerm) (ni - 1)
      (from_option Log.Term 0 (n.(raftLog).(entries) !! N.to_nat (ni - 1)))
      n.(raftLog).(commitIndex) (drop (N.to_nat ni) n.(raftLog).(entries))) n.(peers)).
Proof.
  intros Hwf Hni. unfold broadcastAppendEntries. rewrite (Last_wf _ Hwf). cbn [mbind go_bind].
  apply go_map_Ret. intros p Hp. by apply (appendEntriesFor_exact n p Hwf (Hni p Hp)).
Qed.

Lemma becomeLeader_exact n :
  wf n.(raftLog) → ∃ n' , becomeLeader n = Ret (n',
      map (λ p, NewAppendEntries n.(id) p n.(currentTerm) (lastIndex n.(raftLog))
             (lastTerm n.(raftLog)) n.(raftLog).(commitIndex) []) n.(peers)) ∧
    n'.(state) = StateLeader ∧ n'.(leaderID) = n.(id) ∧ n'.(id) = n.(id) ∧
    n'.(currentTerm) = n.(currentTerm) ∧ n'.(raftLog) = n.(raftLog) ∧ n'.(peers) = n.(peers) ∧
    ∀ p, p ∈ n.(peers) → get_index n'.(nextIndex) p = lastIndex n.(raftLog) + 1 ∧
                          get_index n'.(matchIndex) p = 0.
Proof.
  intros Hwf. unfold becomeLeader.
  match goal with |- context [resetElectionTimer ?x] =>
    destruct (reset_eq x) as (t & r & ->) end.
  cbn -[broadcastAppendEntries u64_add Last]. rewrite (Last_wf _ Hwf).
  cbn -[broadcastAppendEntries u64_add].
  assert (lastIndex (raftLog n) +u 1 = lastIndex (raftLog n) + 1) as ->.
  { rewrite (lastIndex_succ _ Hwf). pose proof (wf_nonempty _ Hwf). unfold lastIndex. lia. }
  set (n0 := n <| state := StateLeader |> <| leaderID := id n |> <| electionElapsed := 0%Z |>
     <| rng := r |> <| electionTimeout := t |> <| heartbeatElapsed := 0%Z |>
     <| nextIndex := ∅ |> <| matchIndex := ∅ |>).
  pose proof (leader_loop_index (lastIndex (raftLog n) + 1) (peers n) n0) as Hidx.
  cbn zeta in Hidx.
  destruct (leader_loop_eq (lastIndex (raftLog n) + 1) (peers n) n0) as (ni & mi & E).
  rewrite E in Hidx |- *. clear E. set (n' := addEvent _ _).
  assert (∀ p, p ∈ n.(peers) → get_index n'.(nextIndex) p = lastIndex n.(raftLog) + 1 ∧
                          get_index n'.(matchIndex) p = 0) as Hni.
  { intros p Hp. apply Hidx. by left. }
  rewrite (broadcast_exact n' Hwf).
  2: { intros p Hp. destruct (Hni p Hp) as [-> _]. cbn. lia. }
  cbn [mbind go_bind]. exists n'. split; [|by split_and!].
  do 2 f_equal. apply map_ext_elem. intros p Hp. cbn zeta. destruct (Hni p Hp) as [-> _].
  pose proof (wf_nonempty _ Hwf). rewrite N.add_sub. cbn. f_equal.
  - unfold lastTerm, lastIndex. rewrite last_lookup.
    by replace (N.to_nat (lenN (entries (raftLog n)) - 1))
      with (pred (length (entries (raftLog n)))) by lia.
  - apply drop_ge. unfold lastIndex. lia.
Qed.

(** ** Timers *)

(** [k] ticks without any message in between; the outputs are concatenated. *)
Fixpoint ticks (k : nat) n : go (Node R * list Message) :=
  match k with
  | O => Ret (n, [])
  | S k => '(n, out) ← Tick n; '(n, out') ← ticks k n; Ret (n, out ++ out')
  end.

(** A tick below the timeout only counts. *)
Lemma Tick_waits n :
  n.(crashed) = false → n.(state) = StateFollower ∨ n.(state) = StateCandidate →
  is_i64 (n.(electionElapsed) + 1) → (n.(electionElapsed) + 1 < n.(electionTimeout))%Z →
  Tick n = Ret (n <| electionElapsed := (n.(electionElapsed) + 1)%Z |>, []).
Proof.
  intros Hcr Hst Hi Hlt. unfold Tick. rewrite Hcr. cbn -[wrap_i64 startElection].
  rewrite (wrap_i64_small _ Hi). destruct Hst as [-> | ->];
    by rewrite (proj2 (Z.leb_gt _ _) Hlt).
Qed.

Lemma Tick_elects n :
  wf n.(raftLog) →
  n.(crashed) = false → n.(state) = StateFollower ∨ n.(state) = StateCandidate →
  is_i64 (n.(electionElapsed) + 1) → (n.(electionTimeout) ≤ n.(electionElapsed) + 1)%Z →
  ∃ n', Tick n = Ret (n', map (λ p, NewRequestVote n.(id) p (n.(currentTerm) +u 1)
                    (lastIndex n.(raftLog)) (lastTerm n.(raftLog))) n.(peers)) ∧
    n'.(state) = StateCandidate ∧ n'.(currentTerm) = n.(currentTerm) +u 1 ∧
    n'.(votedFor) = n.(id) ∧ n'.(votesGranted) = {[n.(id) := true]} ∧
    n'.(raftLog) = n.(raftLog).
Proof.
  intros Hwf Hcr Hst Hi Hle. unfold Tick. rewrite Hcr.
  cbn -[wrap_i64 startElection u64_add]. rewrite (wrap_i64_small _ Hi).
  assert (∃ n', startElection (n <| electionElapsed := (n.(electionElapsed) + 1)%Z |>) =
    Ret (n', map (λ p, NewRequestVote n.(id) p (n.(currentTerm) +u 1)
                    (lastIndex n.(raftLog)) (lastTerm n.(raftLog))) n.(peers)) ∧
    n'.(state) = StateCandidate ∧ n'.(currentTerm) = n.(currentTerm) +u 1 ∧
    n'.(votedFor) = n.(id) ∧ n'.(votesGranted) = {[n.(id) := true]} ∧
    n'.(raftLog) = n.(raftLog)) as Hel.
  { unfold startElection. match goal with |- context [resetElectionTimer ?x] =>
      destruct (reset_eq x) as (t & r & ->) end.
    cbn -[Last u64_add]. rewrite (Last_wf _ Hwf). cbn -[u64_add].
    eexists. split; [done|]. by split_and!. }
  apply Z.leb_le in Hle. destruct Hst as [-> | ->]; by rewrite Hle.
Qed.

(** election_timeout_fires.  Progress without messages: a running follower or candidate
    that hears nothing starts an election after exactly [electionTimeout - electionElapsed]
    ticks, sending nothing before and then one RequestVote per peer for the next term. *)
Theorem election_timeout_fires n :
  wf n.(raftLog) →
  n.(crashed) = false → n.(state) = StateFollower ∨ n.(state) = StateCandidate →
  (0 ≤ n.(electionElapsed) < n.(electionTimeout))%Z → is_i64 n.(electionTimeout) →
  ∃ n', ticks (Z.to_nat (n.(electionTimeout) - n.(electionElapsed))) n =
      Ret (n', map (λ p, NewRequestVote n.(id) p (n.(currentTerm) +u 1)
                    (lastIndex n.(raftLog)) (lastTerm n.(raftLog))) n.(peers)) ∧
    n'.(state) = StateCandidate ∧ n'.(currentTerm) = n.(currentTerm) +u 1 ∧
    n'.(votedFor) = n.(id) ∧ n'.(votesGranted) = {[n.(id) := true]} ∧
    n'.(raftLog) = n.(raftLog).
Proof.
  intros Hwf Hcr Hst Hel Hto.
  remember (Z.to_nat (electionTimeout n - electionElapsed n)) as k eqn:Hk.
  revert n Hwf Hcr Hst Hel Hto Hk. induction k as [|k IH]; intros n Hwf Hcr Hst Hel Hto Hk; [lia|].
  assert (is_i64 (electionElapsed n + 1)) as Hi by (unfold is_i64, i64_min, i64_max in *; lia).
  cbn [ticks]. destruct k as [|k].
  - destruct (Tick_elects n) as (n' & -> & Hn'); [done..|lia|].
    cbn [mbind go_bind ticks]. exists n'. by rewrite app_nil_r.
  - rewrite Tick_waits by (done || lia). cbn [mbind go_bind].
    destruct (IH (n <| electionElapsed := (electionElapsed n + 1)%Z |>)) as (n' & E & Hn');
      [done|done|done|cbn; lia|done|cbn; lia|].
    exists n'. rewrite E. by split.
Qed.

Lemma reset_range `{!LawfulRNG R} n :
  (0 ≤ n.(electionTimeoutMin) ≤ n.(electionTimeoutMax))%Z →
  (n.(electionTimeoutMax) < i64_max)%Z →
  let n' := resetElectionTimer n in
  (n.(electionTimeoutMin) ≤ n'.(electionTimeout) ≤ n.(electionTimeoutMax))%Z ∧
  n'.(electionElapsed) = 0%Z.
Proof.
  intros Hmin Hmax n'. subst n'. unfold resetElectionTimer. cbn.
  unfold i64_max in *. rewrite wrap_i64_small by (unfold is_i64, i64_min, i64_max; lia).
  rewrite (proj2 (Z.ltb_ge _ _)) by lia.
  pose proof (Intn_range (rng n) (electionTimeoutMax n - electionTimeoutMin n + 1)) as Hr.
  destruct (Intn _ _) as [v r]. cbn in *. split; [|done].
  rewrite wrap_i64_small by (unfold is_i64, i64_min, i64_max; lia). lia.
Qed.

(** resetElectionTimer_range.  The election timeout is drawn from
    [electionTimeoutMin, electionTimeoutMax], whatever the random source yields. *)
Theorem resetElectionTimer_range `{!LawfulRNG R} n :
  (0 ≤ n.(electionTimeoutMin) ≤ n.(electionTimeoutMax))%Z →
  (n.(electionTimeoutMax) < i64_max)%Z →
  let n' := resetElectionTimer n in
  (n.(electionTimeoutMin) ≤ n'.(electionTimeout) ≤ n.(electionTimeoutMax))%Z ∧
  n'.(electionElapsed) = 0%Z.
Proof. apply reset_range. Qed.

(** ** Votes *)

Lemma request_vote_result n m :
  wf n.(raftLog) → ∃ n' g,
  handleRequestVote n m =
    Ret (n', [NewRequestVoteResp n.(id) m.(From) (N.max n.(currentTerm) m.(Message.Term)) g]) ∧
  (g = true ↔ n.(currentTerm) ≤ m.(Message.Term) ∧
     (n.(currentTerm) < m.(Message.Term) ∨ n.(votedFor) = 0 ∨ n.(votedFor) = m.(From)) ∧
     up_to_date n.(raftLog).(entries) m.(LastLogIndex) m.(LastLogTerm)) ∧
  n'.(currentTerm) = N.max n.(currentTerm) m.(Message.Term) ∧
  n'.(votedFor) = (if g then m.(From) else
                   if n.(currentTerm) <? m.(Message.Term) then 0 else n.(votedFor)) ∧
  n'.(raftLog) = n.(raftLog).
Proof.
  intros Hwf. unfold handleRequestVote.
  destruct (N.ltb_spec (Message.Term m) (currentTerm n)) as [Hlt|Hge].
  { rewrite N.max_l by lia. exists n, false. split_and!; try done.
    - split; [done|]. lia.
    - by rewrite (proj2 (N.ltb_ge _ _)) by lia. }
  rewrite N.max_r by lia. fold (bumped n m).
  assert (raftLog (bumped n m) = raftLog n ∧ currentTerm (bumped n m) = Message.Term m ∧
    id (bumped n m) = id n ∧
    votedFor (bumped n m) = (if currentTerm n <? Message.Term m then 0 else votedFor n))
    as (Hlog & Ht & Hid & Hv).
  { unfold bumped. destruct (N.ltb_spec (currentTerm n) (Message.Term m)); split_and!; try done. lia. }
  set (n1 := bumped n m) in *. clearbody n1.
  destruct (isUpToDate_spec n1 (LastLogIndex m) (LastLogTerm m)) as (b & Hb & Hup).
  { by rewrite Hlog. }
  rewrite Hb, Hlog in *. clear Hb.
  destruct ((votedFor n1 =? 0) || (votedFor n1 =? From m)) eqn:Hfree; cbn [mbind go_bind].
  2: { exists n1, false. split_and!; try done; [by rewrite Hid, Ht|].
       split; [done|]. intros (_ & Hf & _). apply orb_false_iff in Hfree as [H0 Hf0].
       apply N.eqb_neq in H0, Hf0. rewrite Hv in *. destruct (N.ltb_spec (currentTerm n) (Message.Term m)); [done|].
       naive_solver lia. }
  assert (currentTerm n < Message.Term m ∨ votedFor n = 0 ∨ votedFor n = From m) as Hok.
  { apply orb_true_iff in Hfree. rewrite !N.eqb_eq, Hv in Hfree.
    destruct (N.ltb_spec (currentTerm n) (Message.Term m)); [by left|tauto]. }
  destruct b.
  - destruct (reset_eq (n1 <| votedFor := From m |>)) as (t & r & ->).
    eexists _, true. split; [by cbn; rewrite Hid, Ht|]. split_and!; try done.
    split; [|done]. intros _. split_and!; [done|done|by apply Hup].
  - exists n1, false. split_and!; try done; [by rewrite Hid, Ht|].
    split; [done|]. intros (_ & _ & Hu). by apply Hup.
Qed.

(** C18: handleRequestVote_grants.  A vote is granted exactly when the request's term is not
    stale, the vote of that term is free (or already the candidate's) and the candidate's
    log is at least as up to date; the vote is recorded, the log untouched. *)
Theorem handleRequestVote_grants n m :
  wf n.(raftLog) → ∃ n' g,
  handleRequestVote n m =
    Ret (n', [NewRequestVoteResp n.(id) m.(From) (N.max n.(currentTerm) m.(Message.Term)) g]) ∧
  (g = true ↔ n.(currentTerm) ≤ m.(Message.Term) ∧
     (n.(currentTerm) < m.(Message.Term) ∨ n.(votedFor) = 0 ∨ n.(votedFor) = m.(From)) ∧
     up_to_date n.(raftLog).(entries) m.(LastLogIndex) m.(LastLogTerm)) ∧
  n'.(currentTerm) = N.max n.(currentTerm) m.(Message.Term) ∧
  n'.(votedFor) = (if g then m.(From) else
                   if n.(currentTerm) <? m.(Message.Term) then 0 else n.(votedFor)) ∧
  n'.(raftLog) = n.(raftLog).
Proof. apply request_vote_result. Qed.

Lemma vote_response_result n m :
  wf n.(raftLog) → NoDup (n.(id) :: n.(peers)) →
  n.(state) = StateCandidate → m.(Message.Term) = n.(currentTerm) →
  let votes := if m.(Granted) then {[m.(From)]} ∪ granted_set n.(votesGranted)
               else granted_set n.(votesGranted) in
  ∃ n' out, handleRequestVoteResp n m = Ret (n', out) ∧
    n'.(id) = n.(id) ∧ n'.(peers) = n.(peers) ∧ n'.(currentTerm) = n.(currentTerm) ∧
    n'.(raftLog) = n.(raftLog) ∧
    (quorum (list_to_set (n.(id) :: n.(peers))) votes ∧ n'.(state) = StateLeader ∧
       (∀ p, p ∈ n.(peers) → get_index n'.(nextIndex) p = lastIndex n.(raftLog) + 1) ∨
     ¬ quorum (list_to_set (n.(id) :: n.(peers))) votes ∧ n'.(state) = StateCandidate ∧
       granted_set n'.(votesGranted) = votes).
Proof.
  intros Hwf Hnd Hst Ht votes. unfold handleRequestVoteResp.
  rewrite Ht, N.ltb_irrefl, N.eqb_refl, Hst, bool_decide_eq_true_2 by done. cbn [andb].
  set (n1 := if Granted m then _ else n).
  assert (granted_set n1.(votesGranted) = votes ∧ n1.(id) = n.(id) ∧ n1.(peers) = n.(peers) ∧
    n1.(raftLog) = n.(raftLog) ∧ n1.(state) = StateCandidate ∧
    n1.(currentTerm) = n.(currentTerm)) as (Hvo & Hid & Hps & Hlog & Hst1 & Ht1).
  { unfold n1, votes. destruct (Granted m); split_and!; try done. apply granted_set_insert. }
  clearbody n1. clearbody votes. subst votes.
  assert (peers_ok (list_to_set (n.(id) :: n.(peers))) n1) as Hp.
  { apply NoDup_cons in Hnd as [Hnin Hnd].
    split; rewrite ?Hid, ?Hps; try done. set_solver. }
  pose proof (countVotes_quorum _ _ Hp) as Hq.
  destruct (Z.leb_spec (majority n1) (countVotes n1)) as [Hle|Hgt].
  - destruct (becomeLeader_exact n1) as (n' & -> & ? & _ & ? & ? & ? & ? & Hni); [by rewrite Hlog|].
    eexists _, _. split; [done|]. split_and!; [congruence..|]. left. split; [by apply Hq|].
    split; [done|]. intros p Hpp. rewrite <- Hlog. apply Hni. by rewrite Hps.
  - eexists _, _. split; [done|]. split_and!; [done..|]. right. split; [|done].
    intros Hqq. apply Hq in Hqq. lia.
Qed.

(** C19: vote_response_elects.  A candidate that receives a vote response of its term becomes
    leader exactly when the votes it then holds are a quorum of itself and its peers. *)
Theorem vote_response_elects n m :
  wf n.(raftLog) → NoDup (n.(id) :: n.(peers)) →
  n.(state) = StateCandidate → m.(Message.Term) = n.(currentTerm) →
  let votes := if m.(Granted) then {[m.(From)]} ∪ granted_set n.(votesGranted)
               else granted_set n.(votesGranted) in
  ∃ n' out, handleRequestVoteResp n m = Ret (n', out) ∧
    n'.(currentTerm) = n.(currentTerm) ∧
    (quorum (list_to_set (n.(id) :: n.(peers))) votes ∧ n'.(state) = StateLeader ∨
     ¬ quorum (list_to_set (n.(id) :: n.(peers))) votes ∧ n'.(state) = StateCandidate).
Proof.
  intros Hwf Hnd Hst Ht votes.
  destruct (vote_response_result n m Hwf Hnd Hst Ht) as (n' & out & E & _ & _ & ? & _ & Hres).
  exists n', out. split_and!; [done|done|]. destruct Hres as [(? & ? & _)|(? & ? & _)]; [by left|by right].
Qed.

(** becomeLeader_announces.  A new leader tells every peer at once: one empty
    AppendEntries each, at the end of its log, with [nextIndex] just past it and
    [matchIndex] 0; term and log do not change. *)
Theorem becomeLeader_announces n :
  wf n.(raftLog) → ∃ n', becomeLeader n = Ret (n',
      map (λ p, NewAppendEntries n.(id) p n.(currentTerm) (lastIndex n.(raftLog))
             (lastTerm n.(raftLog)) n.(raftLog).(commitIndex) []) n.(peers)) ∧
    n'.(state) = StateLeader ∧ n'.(leaderID) = n.(id) ∧
    n'.(currentTerm) = n.(currentTerm) ∧ n'.(raftLog) = n.(raftLog) ∧
    ∀ p, p ∈ n.(peers) → get_index n'.(nextIndex) p = lastIndex n.(raftLog) + 1 ∧
                          get_index n'.(matchIndex) p = 0.
Proof.
  intros Hwf. destruct (becomeLeader_exact n Hwf) as (n' & ? & ? & ? & _ & ? & ? & _ & ?).
  exists n'. by split_and!.
Qed.

(** ** Replication *)

(** broadcast_sends_suffixes.  A broadcast sends every peer, in order, exactly the log
    from its [nextIndex] on, with the index and term of the entry before. *)
Theorem broadcast_sends_suffixes n :
  wf n.(raftLog) →
  (∀ p, p ∈ n.(peers) → 1 ≤ get_index n.(nextIndex) p ≤ lastIndex n.(raftLog) + 1) →
  broadcastAppendEntries n = Ret (map (λ p,
    let ni := get_index n.(nextIndex) p in
    NewAppendEntries n.(id) p n.(currentTerm) (ni - 1)
      (from_option Log.Term 0 (n.(raftLog).(entries) !! N.to_nat (ni - 1)))
      n.(raftLog).(commitIndex) (drop (N.to_nat ni) n.(raftLog).(entries))) n.(peers)).
Proof. apply broadcast_exact. Qed.

(** The node after the term and role update of [handleAppendEntries]. *)
Lemma followed_fields n m :
  n.(currentTerm) ≤ m.(Message.Term) →
  raftLog (followed n m) = raftLog n ∧ currentTerm (followed n m) = m.(Message.Term) ∧
  state (followed n m) = StateFollower ∧ id (followed n m) = id n ∧
  crashed (followed n m) = crashed n.
Proof.
  intros Hle. unfold followed. case_bool_decide as Hst; cbn [negb orb]; [|done].
  destruct (N.ltb_spec (currentTerm n) (Message.Term m)); [done|]. split_and!; try done. lia.
Qed.

Lemma prev_matches_le n m :
  wf n.(raftLog) → prev_matches n.(raftLog).(entries) m.(PrevLogIndex) m.(PrevLogTerm) →
  m.(PrevLogIndex) + 1 ≤ lenN n.(raftLog).(entries).
Proof.
  intros Hwf Hprev. pose proof (wf_nonempty _ Hwf). destruct Hprev as [->|Hp]; [lia|].
  destruct (_ !! N.to_nat _) eqn:E in Hp; [|done]. apply lookup_lt_Some in E. lia.
Qed.

Lemma append_or_skip l prev es :
  wf l → prev + 1 ≤ lenN l.(entries) → contig (prev + 1) es →
  prev + 1 + lenN es < u64_modulus →
  (if (0 <? length es)%nat then Append l (deepCopyEntries es) else Ret (l, None)) =
    Ret (reconcile_log l (prev + 1) es, None).
Proof.
  intros Hwf Hle Hc Hsz. unfold deepCopyEntries. rewrite map_copy.
  pose proof (Append_reconcile l (prev + 1) es Hwf) as Ha.
  destruct es; [|by apply Ha; try done; lia].
  rewrite <- Ha by (done || lia). done.
Qed.

Lemma append_entries_accepted n m :
  wf n.(raftLog) → n.(currentTerm) ≤ m.(Message.Term) →
  prev_matches n.(raftLog).(entries) m.(PrevLogIndex) m.(PrevLogTerm) →
  contig (m.(PrevLogIndex) + 1) m.(Message.Entries) →
  m.(PrevLogIndex) + 1 + lenN m.(Message.Entries) < u64_modulus →
  let l := reconcile_log n.(raftLog) (m.(PrevLogIndex) + 1) m.(Message.Entries) in
  ∃ n', handleAppendEntries n m = Ret (n',
      [NewAppendEntriesResp n.(id) m.(From) m.(Message.Term) true (lastIndex l)]) ∧
    n'.(raftLog).(entries) = accept n.(raftLog).(entries) m ∧
    n'.(raftLog).(commitIndex) =
      N.max l.(commitIndex) (N.min m.(LeaderCommit) (lastIndex l)) ∧
    n'.(state) = StateFollower ∧ n'.(currentTerm) = m.(Message.Term) ∧
    n'.(leaderID) = m.(From) ∧ n'.(id) = n.(id) ∧ n'.(crashed) = n.(crashed).
Proof.
  intros Hwf Hge Hprev Hc Hsz l. unfold handleAppendEntries.
  rewrite (proj2 (N.ltb_ge _ _)) by lia. fold (followed n m).
  destruct (followed_fields n m Hge) as (Hlog & Ht & Hst & Hid & Hcr).
  set (n1 := followed n m) in *. clearbody n1.
  destruct (reset_eq (n1 <| leaderID := From m |>)) as (t & r & ->).
  set (n2 := _ <| electionTimeout := t |>).
  change (raftLog n2) with (raftLog n1). rewrite Hlog, MatchesPrevLogTerm_spec.
  rewrite bool_decide_eq_true_2 by done. cbn [mbind go_bind negb].
  pose proof (prev_matches_le n m Hwf Hprev) as Hle.
  rewrite (append_or_skip _ (PrevLogIndex m)) by done. fold l. cbn [mbind go_bind].
  assert (wf l) as Hwfl by (apply reconcile_log_wf; done || lia).
  set (n3' := n2 <| raftLog := l |>). change (raftLog n3') with l.
  rewrite (Last_wf _ Hwfl). cbn [mbind go_bind].
  destruct (followerCommit_spec n3' (LeaderCommit m) Hwfl)
    as (n3 & E & Hlog3 & Hst3 & Ht3 & Hid3 & Hl3 & Hcr3). change (raftLog n3') with l in E, Hlog3.
  rewrite E. cbn [mbind go_bind]. exists n3. cbn in Hlog3, Hst3, Ht3, Hid3, Hl3, Hcr3.
  split; [by rewrite Hid3, Ht3, Hid, Ht|]. rewrite Hlog3. cbn. split_and!; congruence || done.
Qed.

Lemma append_entries_rejected n m :
  wf n.(raftLog) → n.(currentTerm) ≤ m.(Message.Term) →
  ¬ prev_matches n.(raftLog).(entries) m.(PrevLogIndex) m.(PrevLogTerm) →
  ∃ n', handleAppendEntries n m = Ret (n',
      [NewAppendEntriesResp n.(id) m.(From) m.(Message.Term) false (lastIndex n.(raftLog))]) ∧
    n'.(raftLog) = n.(raftLog) ∧ n'.(state) = StateFollower ∧
    n'.(currentTerm) = m.(Message.Term) ∧ n'.(id) = n.(id) ∧ n'.(crashed) = n.(crashed).
Proof.
  intros Hwf Hge Hprev. unfold handleAppendEntries.
  rewrite (proj2 (N.ltb_ge _ _)) by lia. fold (followed n m).
  destruct (followed_fields n m Hge) as (Hlog & Ht & Hst & Hid & Hcr).
  set (n1 := followed n m) in *. clearbody n1.
  destruct (reset_eq (n1 <| leaderID := From m |>)) as (t & r & ->).
  set (n2 := _ <| electionTimeout := t |>).
  change (raftLog n2) with (raftLog n1). rewrite Hlog, MatchesPrevLogTerm_spec.
  rewrite bool_decide_eq_false_2 by done. cbn [mbind go_bind negb].
  rewrite (Last_wf _ Hwf). cbn [mbind go_bind]. exists n2. split_and!; try done.
  cbn. by rewrite Hid, Ht.
Qed.

(** C17: handleAppendEntries_accepts.  An AppendEntries of a current term whose previous
    entry matches: the node follows the sender, its log becomes the conflict resolution of
    the stored log with the sent entries, the commit index advances to the leader's as far
    as the log reaches, and the reply reports the last index of the whole log. *)
Theorem handleAppendEntries_accepts n m :
  wf n.(raftLog) → n.(currentTerm) ≤ m.(Message.Term) →
  prev_matches n.(raftLog).(entries) m.(PrevLogIndex) m.(PrevLogTerm) →
  contig (m.(PrevLogIndex) + 1) m.(Message.Entries) →
  m.(PrevLogIndex) + 1 + lenN m.(Message.Entries) < u64_modulus →
  let l := reconcile_log n.(raftLog) (m.(PrevLogIndex) + 1) m.(Message.Entries) in
  ∃ n', handleAppendEntries n m = Ret (n',
      [NewAppendEntriesResp n.(id) m.(From) m.(Message.Term) true (lastIndex l)]) ∧
    n'.(raftLog).(entries) = accept n.(raftLog).(entries) m ∧
    n'.(raftLog).(commitIndex) =
      N.max l.(commitIndex) (N.min m.(LeaderCommit) (lastIndex l)) ∧
    n'.(state) = StateFollower ∧ n'.(currentTerm) = m.(Message.Term) ∧
    n'.(leaderID) = m.(From).
Proof.
  intros ? ? ? ? ? l. destruct (append_entries_accepted n m) as (n' & ? & ? & ? & ? & ? & ? & _);
    [done..|]. by exists n'.
Qed.

(** handleAppendEntries_rejects.  If the previous entry does not match, the log is
    untouched and the reply is negative with the last index as a hint. *)
Theorem handleAppendEntries_rejects n m :
  wf n.(raftLog) → n.(currentTerm) ≤ m.(Message.Term) →
  ¬ prev_matches n.(raftLog).(entries) m.(PrevLogIndex) m.(PrevLogTerm) →
  ∃ n', handleAppendEntries n m = Ret (n',
      [NewAppendEntriesResp n.(id) m.(From) m.(Message.Term) false (lastIndex n.(raftLog))]) ∧
    n'.(raftLog) = n.(raftLog) ∧ n'.(state) = StateFollower ∧
    n'.(currentTerm) = m.(Message.Term).
Proof.
  intros ? ? ?. destruct (append_entries_rejected n m) as (n' & ? & ? & ? & ? & _);
    [done..|]. by exists n'.
Qed.

(** stale_message_ignored.  A message of an older term never changes a node: requests
    are answered negatively with the current term, responses are dropped. *)
Theorem stale_message_ignored n m :
  n.(crashed) = false → m.(Message.Term) < n.(currentTerm) →
  Step n m = Ret (n,
    match m.(Type_) with
    | MsgRequestVote => [NewRequestVoteResp n.(id) m.(From) n.(currentTerm) false]
    | MsgAppendEntries => [NewAppendEntriesResp n.(id) m.(From) n.(currentTerm) false 0]
    | _ => []
    end).
Proof.
  intros Hcr Hlt. unfold Step. rewrite Hcr.
  unfold handleRequestVote, handleRequestVoteResp, handleAppendEntries, handleAppendEntriesResp.
  rewrite (proj2 (N.ltb_lt _ _) Hlt), (proj2 (N.ltb_ge _ _)) by lia.
  rewrite (proj2 (N.eqb_neq (Message.Term m) (currentTerm n))) by lia. by destruct (Type_ m).
Qed.

Lemma advanceCommit_result n :
  wf n.(raftLog) → ∃ n', advanceCommit n = Ret n' ∧
  ((∀ i, ¬ committable n i) ∧ n' = n ∨
   ∃ i, committable n i ∧ (∀ j, committable n j → j ≤ i) ∧
     n' = addEvent (n <| raftLog := n.(raftLog) <| commitIndex := i |> |>) (committedEvent n i)).
Proof.
  intros Hwf. unfold advanceCommit. rewrite (Last_wf _ Hwf). cbn [mbind go_bind].
  destruct (advanceCommit_from_spec n (N.to_nat (lastIndex (raftLog n))) Hwf) as (n' & E & Hs);
    [lia|].
  exists n'. split; [done|]. rewrite N2Nat.id in Hs.
  destruct Hs as [(Hno & ->)|(i & _ & Hi & Hmax & ->)]; [left|right].
  - split; [|done]. intros i Hi. apply (Hno i); [by apply committable_in_log|done].
  - exists i. split_and!; try done. intros j Hj. apply Hmax; [by apply committable_in_log|done].
Qed.

(** C16: advanceCommit_spec.  A success response makes the leader commit exactly the highest
    index above the commit index that holds an entry of its own term and that [matchIndex]
    puts on a majority, or nothing when there is none; in particular it never commits an
    entry of an earlier term by counting and never moves the commit index back. *)
Theorem advanceCommit_spec n :
  wf n.(raftLog) → ∃ n', advanceCommit n = Ret n' ∧
  ((∀ i, ¬ committable n i) ∧ n' = n ∨
   ∃ i, committable n i ∧ (∀ j, committable n j → j ≤ i) ∧
     n' = addEvent (n <| raftLog := n.(raftLog) <| commitIndex := i |> |>) (committedEvent n i)).
Proof. apply advanceCommit_result. Qed.

(** ** Client commands *)

(** Propose_appends.  On a running leader a command becomes the next log entry, with
    the current term; on any other node nothing changes and the error says why. *)
Theorem Propose_appends n cmd :
  wf n.(raftLog) → lenN n.(raftLog).(entries) + 1 < u64_modulus →
  ∃ n' err, Propose n cmd = Ret (n', err) ∧
    (if n.(crashed) then n' = n ∧ err = Some ErrNodeCrashed
     else if decide (n.(state) = StateLeader) then
       err = None ∧ n'.(raftLog).(commitIndex) = n.(raftLog).(commitIndex) ∧
       n'.(raftLog).(entries) = n.(raftLog).(entries) ++
         [MkEntry n.(currentTerm) (lastIndex n.(raftLog) + 1) cmd] ∧
       n'.(state) = StateLeader ∧ n'.(currentTerm) = n.(currentTerm)
     else n' = n ∧ err = Some ErrNotLeader).
Proof.
  intros Hwf Hsz. unfold Propose. destruct (crashed n).
  { exists n, (Some ErrNodeCrashed). auto. }
  destruct (decide (state n = StateLeader)) as [Hst|Hst].
  2: { rewrite bool_decide_eq_false_2 by done. exists n, (Some ErrNotLeader). auto. }
  rewrite bool_decide_eq_true_2 by done. cbn [negb].
  rewrite (Last_wf _ Hwf). cbn [mbind go_bind].
  rewrite (Append_one _ _ _ Hwf Hsz). cbn [mbind go_bind]. eexists _, _. split; [done|].
  pose proof (wf_nonempty _ Hwf). split_and!; try done. cbn. do 3 f_equal. unfold lastIndex. lia.
Qed.

(** ** Crash and restart *)

(** C21: crash_restart.  Crash then Restart gives back the persisted term, vote and log
    entries (through the serializer), as a follower; only the commit index is lost. *)
Theorem crash_restart n k :
  node_ok k n → k + 1 < u64_modulus → n.(crashed) = false →
  ∃ n', Restart (Crash n).1 = Ret (n', None) ∧
    n'.(id) = n.(id) ∧ n'.(peers) = n.(peers) ∧
    n'.(currentTerm) = n.(currentTerm) ∧ n'.(votedFor) = n.(votedFor) ∧
    n'.(raftLog) = MkLog n.(raftLog).(entries) 0 ∧ n'.(state) = StateFollower ∧
    n'.(crashed) = false.
Proof.
  intros Hok Hk Hcr. unfold Crash. rewrite Hcr. cbn [fst].
  destruct (Restart_spec k (n <| crashed := true |> <| state := StateFollower |>
    <| leaderID := 0 |> <| votesGranted := ∅ |> <| nextIndex := ∅ |> <| matchIndex := ∅ |>
    <| electionElapsed := 0%Z |>)) as (n' & -> & [? ? _ _] & ? & ? & ? & ? & ?); [by destruct Hok|done|done|].
  exists n'. by split_and!.
Qed.

(** crashed_is_silent.  A crashed node reacts to nothing. *)
Theorem crashed_is_silent n m cmd :
  n.(crashed) = true →
  Step n m = Ret (n, []) ∧ Tick n = Ret (n, []) ∧ ReplicateNow n = Ret [] ∧
  Propose n cmd = Ret (n, Some ErrNodeCrashed) ∧ Crash n = (n, None).
Proof.
  intros Hcr. unfold Step, Tick, ReplicateNow, Propose, Crash. rewrite Hcr, orb_true_r. done.
Qed.

(** ** What no message can do *)

Lemma advanceCommit_from_keeps idx n n' :
  advanceCommit_from n idx = Ret n' →
  n'.(currentTerm) = n.(currentTerm) ∧ n'.(raftLog).(entries) = n.(raftLog).(entries).
Proof.
  revert n n'. induction idx as [|idx IH]; intros n n' Hr; cbn [advanceCommit_from] in Hr.
  { by injection Hr as <-. }
  destruct (_ <=? _); [by injection Hr as <-|].
  destruct (TermAt _ _) as [t|e|]; [|by injection Hr as <-|done].
  destruct (negb _); [by apply IH|]. destruct (replicatedOnMajority _ _); [|by apply IH].
  go_inv Hr. destruct a as [l err]. unfold CommitTo in Hret. go_inv Hret.
  assert (entries l = entries (raftLog n)) as Hl.
  { destruct a as [li lt]. by repeat case_match; simplify_eq. }
  by destruct err; injection Hr as <-.
Qed.

Lemma CommitTo_keeps l i l' err : CommitTo l i = Ret (l', err) → entries l' = entries l.
Proof.
  unfold CommitTo. intros Hr. go_inv Hr. destruct a as [li lt].
  by repeat case_match; simplify_eq.
Qed.

Lemma followerCommit_keeps n lc i n' :
  followerCommit n lc i = Ret n' → n'.(currentTerm) = n.(currentTerm) ∧ n'.(state) = n.(state).
Proof.
  unfold followerCommit. destruct (_ <? lc); [|by intros [= <-]]. intros Hr. go_inv Hr.
  destruct a as [l err]. repeat case_match; by injection Hr as <-.
Qed.

Lemma becomeLeader_keeps n n' out :
  becomeLeader n = Ret (n', out) → n'.(currentTerm) = n.(currentTerm).
Proof.
  unfold becomeLeader. match goal with |- context [resetElectionTimer ?x] =>
    destruct (reset_eq x) as (t & r & ->) end.
  cbv zeta. intros Hr. go_inv Hr. destruct a as [li lt]. go_inv Hr. injection Hr as <- _.
  match goal with |- context [foldl _ ?x ?ps] =>
    destruct (leader_loop_eq (li +u 1) ps x) as (ni & mi & E) end.
  by rewrite E.
Qed.

(** Any message leaves the term where it is or raises it. *)
Lemma handleRequestVote_term n m n' out :
  handleRequestVote n m = Ret (n', out) → n.(currentTerm) ≤ n'.(currentTerm).
Proof.
  unfold handleRequestVote.
  destruct (N.ltb_spec (Message.Term m) (currentTerm n)); [by intros [= <- _]|].
  fold (bumped n m). assert (currentTerm n ≤ currentTerm (bumped n m)) as Hb.
  { unfold bumped. destruct (N.ltb_spec (currentTerm n) (Message.Term m)); cbn; lia. }
  set (n1 := bumped n m) in *. clearbody n1. intros Hr. go_inv Hr. destruct a.
  - destruct (reset_eq (n1 <| votedFor := From m |>)) as (t & r & E). rewrite E in Hr.
    by injection Hr as <- _.
  - by injection Hr as <- _.
Qed.

Lemma stepDown_keeps n t :
  (stepDown n t).(currentTerm) = t ∧ (stepDown n t).(state) = StateFollower.
Proof.
  unfold stepDown. match goal with |- context [resetElectionTimer ?x] =>
    destruct (reset_eq x) as (t' & r & ->) end. done.
Qed.

Lemma handleRequestVoteResp_term n m n' out :
  handleRequestVoteResp n m = Ret (n', out) → n.(currentTerm) ≤ n'.(currentTerm).
Proof.
  unfold handleRequestVoteResp. destruct (N.ltb_spec (currentTerm n) (Message.Term m)).
  { intros [= <- _]. destruct (stepDown_keeps n (Message.Term m)) as [-> _]. lia. }
  destruct (_ && _); [|by intros [= <- _]].
  set (n1 := if Granted m then _ else n).
  assert (currentTerm n1 = currentTerm n) as <- by (unfold n1; by destruct (Granted m)).
  destruct (_ <=? _)%Z; [|by intros [= <- _]]. by intros ->%becomeLeader_keeps.
Qed.

(** A request that is not stale makes the node a follower of its term. *)
Lemma handleAppendEntries_role n m n' out :
  handleAppendEntries n m = Ret (n', out) → n.(currentTerm) ≤ m.(Message.Term) →
  n'.(currentTerm) = m.(Message.Term) ∧ n'.(state) = StateFollower.
Proof.
  intros Hr Hge. unfold handleAppendEntries in Hr. rewrite (proj2 (N.ltb_ge _ _)) in Hr by lia.
  fold (followed n m) in Hr. destruct (followed_fields n m Hge) as (_ & Ht & Hst & _).
  set (n1 := followed n m) in *. clearbody n1.
  destruct (reset_eq (n1 <| leaderID := From m |>)) as (t & r & E). rewrite E in Hr. clear E.
  go_inv Hr. destruct a; cbn [negb] in Hr.
  - go_inv Hr. destruct a as [l err]. go_inv Hr. destruct a as [li lt].
    destruct err; [by injection Hr as <- _|]. go_inv Hr.
    apply followerCommit_keeps in Hret2 as [Ht2 Hst2]. injection Hr as <- _.
    rewrite Ht2, Hst2. done.
  - go_inv Hr. destruct a as [li lt]. by injection Hr as <- _.
Qed.

Lemma handleAppendEntries_term n m n' out :
  handleAppendEntries n m = Ret (n', out) → n.(currentTerm) ≤ n'.(currentTerm).
Proof.
  intros Hr. destruct (N.lt_ge_cases (Message.Term m) (currentTerm n)) as [Hlt|Hge].
  - unfold handleAppendEntries in Hr. rewrite (proj2 (N.ltb_lt _ _)) in Hr by lia.
    by injection Hr as <- _.
  - by destruct (handleAppendEntries_role _ _ _ _ Hr Hge) as [-> _].
Qed.

Lemma handleAppendEntriesResp_term n m n' out :
  handleAppendEntriesResp n m = Ret (n', out) → n.(currentTerm) ≤ n'.(currentTerm).
Proof.
  unfold handleAppendEntriesResp. destruct (N.ltb_spec (currentTerm n) (Message.Term m)).
  { intros [= <- _]. destruct (stepDown_keeps n (Message.Term m)) as [-> _]. lia. }
  destruct (_ && _); [|by intros [= <- _]].
  destruct (Success m); [|destruct (_ <? _); by intros [= <- _]].
  intros Hr. go_inv Hr. injection Hr as <- _. unfold advanceCommit in Hret. go_inv Hret.
  destruct a0 as [li lt]. apply advanceCommit_from_keeps in Hret as [-> _]. done.
Qed.

(** term_monotone.  No message ever lowers a node's term. *)
Theorem term_monotone n m n' out :
  Step n m = Ret (n', out) → n.(currentTerm) ≤ n'.(currentTerm).
Proof.
  unfold Step. destruct (crashed n); [by intros [= <- _]|]. destruct (Type_ m).
  - apply handleRequestVote_term.
  - apply handleRequestVoteResp_term.
  - apply handleAppendEntries_term.
  - apply handleAppendEntriesResp_term.
  - by intros [= <- _].
Qed.

(** C22: leader_append_only.  Whatever message a leader handles, as long as it stays leader
    its log entries do not change and its commit index does not move back. *)
Theorem leader_append_only n m n' out :
  wf n.(raftLog) → Step n m = Ret (n', out) →
  n.(state) = StateLeader → n'.(state) = StateLeader →
  n'.(raftLog).(entries) = n.(raftLog).(entries) ∧
  n.(raftLog).(commitIndex) ≤ n'.(raftLog).(commitIndex).
Proof.
  intros Hwf Hr Hst Hst'. unfold Step in Hr.
  destruct (crashed n); [by injection Hr as <- _|]. destruct (Type_ m).
  - destruct (N.lt_ge_cases (currentTerm n) (Message.Term m)) as [Hlt|Hge].
    + unfold handleRequestVote in Hr. rewrite (proj2 (N.ltb_ge _ _)) in Hr by lia.
      rewrite (proj2 (N.ltb_lt _ _)) in Hr by lia. go_inv Hr. exfalso. destruct a.
      * match type of Hr with context [resetElectionTimer ?x] =>
          destruct (reset_eq x) as (t & r & E) end. rewrite E in Hr.
        injection Hr as <- _. done.
      * injection Hr as <- _. done.
    + unfold handleRequestVote in Hr. destruct (_ <? _); [by injection Hr as <- _|].
      rewrite (proj2 (N.ltb_ge _ _)) in Hr by lia. go_inv Hr. destruct a.
      * destruct (reset_eq (n <| votedFor := From m |>)) as (t & r & E). rewrite E in Hr.
        by injection Hr as <- _.
      * by injection Hr as <- _.
  - unfold handleRequestVoteResp in Hr. destruct (_ <? _).
    { injection Hr as <- _. destruct (stepDown_keeps n (Message.Term m)). congruence. }
    rewrite bool_decide_eq_false_2, andb_false_r in Hr by congruence. by injection Hr as <- _.
  - destruct (N.lt_ge_cases (Message.Term m) (currentTerm n)) as [Hlt|Hge].
    + unfold handleAppendEntries in Hr. rewrite (proj2 (N.ltb_lt _ _)) in Hr by lia.
      by injection Hr as <- _.
    + destruct (handleAppendEntries_role _ _ _ _ Hr Hge). congruence.
  - unfold handleAppendEntriesResp in Hr. destruct (_ <? _).
    { injection Hr as <- _. destruct (stepDown_keeps n (Message.Term m)). congruence. }
    destruct (_ && _); [|by injection Hr as <- _].
    destruct (Success m); [|destruct (_ <? _); by injection Hr as <- _].
    set (n1 := _ <| nextIndex := _ |>) in Hr. go_inv Hr. injection Hr as <- _.
    unfold advanceCommit in Hret. change (raftLog n1) with (raftLog n) in Hret.
    rewrite (Last_wf _ Hwf) in Hret. cbn [mbind go_bind] in Hret.
    destruct (advanceCommit_from_spec n1 (N.to_nat (lastIndex (raftLog n))) Hwf)
      as (n2 & E & Hs); [cbn; lia|]. rewrite Hret in E. injection E as <-.
    destruct Hs as [(_ & ->)|(i & _ & (Hc & _) & _ & ->)]; [done|].
    split; [done|]. cbn in *. lia.
  - by injection Hr as <- _.
Qed.
End nodespec.

(** ** Concrete nodes

    [follower] is a fresh node 1 with peers 2 and 3, [candidate] the same after ten ticks,
    [leader] after the vote of node 2, [busy] after one command. *)

#[local] Existing Instance constant_rng.

Definition node_of (r : go (Node Z * list Message)) : Node Z :=
  match r with Ret (n, _) => n | _ => Node.New 0 [] 0%Z end.
Definition follower : Node Z := Eval vm_compute in Node.New 1 [2; 3] 0%Z.
Definition follower2 : Node Z := Eval vm_compute in Node.New 2 [1; 3] 0%Z.
Definition candidate : Node Z := Eval vm_compute in node_of (ticks 10 follower).
Definition leader : Node Z :=
  Eval vm_compute in node_of (Step candidate (NewRequestVoteResp 2 1 1 true)).
Definition busy : Node Z := Eval vm_compute in
  match Propose leader [x61] with Ret (n, _) => n | _ => leader end.
Definition entry_a : Entry := MkEntry 1 1 [x61].

Lemma log_wf_new : wf Log.New.
Proof. apply New_wf. Qed.

Lemma log_wf_a : wf (MkLog [dummy; entry_a] 0).
Proof.
  split; [done| |done|done]. intros [|[|[|i]]] e; cbn; naive_solver.
Qed.

Lemma election_timeout_fires_witness :
  ticks 10 follower = Ret (candidate, [NewRequestVote 1 2 1 0 0; NewRequestVote 1 3 1 0 0]) ∧
  ∃ n', ticks 10 follower =
      Ret (n', map (λ p, NewRequestVote 1 p (0 +u 1) 0 0) [2; 3]) ∧
    n'.(state) = StateCandidate ∧ n'.(currentTerm) = 0 +u 1 ∧
    n'.(votedFor) = 1 ∧ n'.(votesGranted) = {[1 := true]} ∧ n'.(raftLog) = Log.New.
Proof.
  split; [by vm_compute|]. apply (election_timeout_fires follower).
  - apply log_wf_new.
  - done.
  - by left.
  - done.
  - done.
Defined.

Lemma resetElectionTimer_range_witness :
  let n' := resetElectionTimer follower in
  (10 ≤ n'.(electionTimeout) ≤ 20)%Z ∧ n'.(electionElapsed) = 0%Z.
Proof.
  apply (@resetElectionTimer_range Z constant_rng constant_rng_lawful follower); done.
Defined.

Lemma handleRequestVote_grants_witness :
  ∃ n' g,
  handleRequestVote follower (NewRequestVote 2 1 1 0 0) =
    Ret (n', [NewRequestVoteResp 1 2 1 g]) ∧
  (g = true ↔ 0 ≤ 1 ∧ (0 < 1 ∨ 0 = 0 ∨ 0 = 2) ∧ up_to_date [dummy] 0 0) ∧
  n'.(currentTerm) = 1 ∧ n'.(votedFor) = (if g : bool then 2 else if 0 <? 1 then 0 else 0) ∧
  n'.(raftLog) = Log.New.
Proof.
  apply (handleRequestVote_grants follower (NewRequestVote 2 1 1 0 0)). apply log_wf_new.
Defined.

Lemma vote_response_elects_witness :
  leader.(state) = StateLeader ∧
  let votes := {[2]} ∪ granted_set candidate.(votesGranted) in
  ∃ n' out, handleRequestVoteResp candidate (NewRequestVoteResp 2 1 1 true) = Ret (n', out) ∧
    n'.(currentTerm) = 1 ∧
    (quorum (list_to_set [1; 2; 3]) votes ∧ n'.(state) = StateLeader ∨
     ¬ quorum (list_to_set [1; 2; 3]) votes ∧ n'.(state) = StateCandidate).
Proof.
  split; [by vm_compute|].
  apply (vote_response_elects candidate (NewRequestVoteResp 2 1 1 true)).
  - apply log_wf_new.
  - by apply (bool_decide_unpack _).
  - by vm_compute.
  - by vm_compute.
Defined.

Lemma becomeLeader_announces_witness :
  ∃ n', becomeLeader candidate = Ret (n',
      map (λ p, NewAppendEntries 1 p 1 0 0 0 []) [2; 3]) ∧
    n'.(state) = StateLeader ∧ n'.(leaderID) = 1 ∧ n'.(currentTerm) = 1 ∧
    n'.(raftLog) = Log.New ∧
    ∀ p, p ∈ [2; 3] → get_index n'.(nextIndex) p = 0 + 1 ∧ get_index n'.(matchIndex) p = 0.
Proof. apply (becomeLeader_announces candidate). apply log_wf_new. Defined.

Lemma broadcast_sends_suffixes_witness :
  broadcastAppendEntries busy =
    Ret [NewAppendEntries 1 2 1 0 0 0 [entry_a]; NewAppendEntries 1 3 1 0 0 0 [entry_a]].
Proof.
  rewrite (broadcast_sends_suffixes busy).
  - by vm_compute.
  - apply log_wf_a.
  - intros p Hp. change (peers busy) with [2; 3] in Hp.
    repeat (apply elem_of_cons in Hp as [->|Hp]; [by vm_compute|]).
    by apply not_elem_of_nil in Hp.
Defined.

Lemma handleAppendEntries_accepts_witness :
  let m := NewAppendEntries 1 2 1 0 0 1 [entry_a] in
  ∃ n', handleAppendEntries follower2 m =
      Ret (n', [NewAppendEntriesResp 2 1 1 true 1]) ∧
    n'.(raftLog).(entries) = [dummy; entry_a] ∧ n'.(raftLog).(commitIndex) = 1 ∧
    n'.(state) = StateFollower ∧ n'.(currentTerm) = 1 ∧ n'.(leaderID) = 1.
Proof.
  destruct (handleAppendEntries_accepts follower2
    (NewAppendEntries 1 2 1 0 0 1 [entry_a])) as (n' & E & He & Hc & ? & ? & ?).
  - apply log_wf_new.
  - done.
  - by left.
  - done.
  - done.
  - exists n'. rewrite E, He, Hc. split_and!; by vm_compute.
Defined.

Lemma handleAppendEntries_rejects_witness :
  ∃ n', handleAppendEntries follower (NewAppendEntries 2 1 1 4 1 0 []) =
      Ret (n', [NewAppendEntriesResp 1 2 1 false 0]) ∧
    n'.(raftLog) = Log.New ∧ n'.(state) = StateFollower ∧ n'.(currentTerm) = 1.
Proof.
  apply (handleAppendEntries_rejects follower (NewAppendEntries 2 1 1 4 1 0 [])).
  - apply log_wf_new.
  - done.
  - intros [?|?]; done.
Defined.

Lemma stale_message_ignored_witness :
  Step candidate (NewAppendEntries 2 1 0 0 0 0 []) =
    Ret (candidate, [NewAppendEntriesResp 1 2 1 false 0]).
Proof.
  apply (stale_message_ignored candidate (NewAppendEntries 2 1 0 0 0 0 [])); by vm_compute.
Defined.

Lemma advanceCommit_spec_witness :
  let n := busy <| matchIndex := {[2 := 1]} |> in
  ∃ n', advanceCommit n = Ret n' ∧
  ((∀ i, ¬ committable n i) ∧ n' = n ∨
   ∃ i, committable n i ∧ (∀ j, committable n j → j ≤ i) ∧
     n' = addEvent (n <| raftLog := n.(raftLog) <| commitIndex := i |> |>) (committedEvent n i)).
Proof.
  apply (advanceCommit_spec (busy <| matchIndex := {[2 := 1]} |>)).
  apply log_wf_a.
Defined.

Lemma Propose_appends_witness :
  ∃ n' err, Propose leader [x61] = Ret (n', err) ∧
    err = None ∧ n'.(raftLog).(commitIndex) = 0 ∧
    n'.(raftLog).(entries) = [dummy] ++ [MkEntry 1 (0 + 1) [x61]] ∧
    n'.(state) = StateLeader ∧ n'.(currentTerm) = 1.
Proof. apply (Propose_appends leader [x61]); [apply log_wf_new|done]. Defined.

Lemma candidate_ok : node_ok 1 candidate.
Proof.
  split; [apply log_wf_new|done|by apply (bool_decide_unpack _)|done..].
Qed.

Lemma crash_restart_witness :
  ∃ n', Restart (Crash candidate).1 = Ret (n', None) ∧
    n'.(id) = 1 ∧ n'.(peers) = [2; 3] ∧ n'.(currentTerm) = 1 ∧ n'.(votedFor) = 1 ∧
    n'.(raftLog) = MkLog [dummy] 0 ∧ n'.(state) = StateFollower ∧ n'.(crashed) = false.
Proof. apply (crash_restart candidate 1); [apply candidate_ok|done|done]. Defined.

Lemma crashed_is_silent_witness :
  let n := (Crash leader).1 in
  Step n (NewAppendEntries 2 1 5 0 0 0 []) = Ret (n, []) ∧ Tick n = Ret (n, []) ∧
  ReplicateNow n = Ret [] ∧ Propose n [] = Ret (n, Some ErrNodeCrashed) ∧ Crash n = (n, None).
Proof. apply (crashed_is_silent (Crash leader).1). by vm_compute. Defined.

Lemma term_monotone_witness :
  candidate.(currentTerm) ≤
    (node_of (Step candidate (NewAppendEntries 2 1 5 0 0 0 []))).(currentTerm).
Proof.
  eapply (term_monotone candidate (NewAppendEntries 2 1 5 0 0 0 [])). by vm_compute.
Defined.

Lemma leader_append_only_witness :
  let m := NewAppendEntriesResp 2 1 1 true 1 in
  let n' := node_of (Step busy m) in
  n'.(raftLog).(commitIndex) = 1 ∧
  n'.(raftLog).(entries) = busy.(raftLog).(entries) ∧
  busy.(raftLog).(commitIndex) ≤ n'.(raftLog).(commitIndex).
Proof.
  split; [by vm_compute|].
  eapply (leader_append_only busy (NewAppendEntriesResp 2 1 1 true 1)); try by vm_compute.
  apply log_wf_a.
Defined.

