(* ===== verification/Network.v ===== *)
(** * Nodes over an asynchronous network

    The deployment [Node] is written for: every node's [peers] are the other members, and
    the network may lose, delay, reorder and duplicate messages.  A [Net] has the concrete
    nodes and every message sent so far; an [Action] is one call of a method of one node
    (a delivery picks any message ever sent), and a schedule is a list of actions.  [sim]
    relates a [Net] to a reachable state of [Spec]; the [_refines] lemmas make [exec]
    preserve it, so the invariants of [SpecElection] and [SpecLog] hold of the concrete
    nodes.  A schedule of length [k] keeps terms and last log indices at most [k], so with
    [k + 3 ≤ 2^64] no counter wraps. *)
From S2P Require Import Prelude Log LogPersist Message Node.
From S2P Require Import Spec SpecElection SpecLog NodeFacts Refine.
From Stdlib Require Import Strings.Byte.
Open Scope N_scope.

Record Net (R : Type) := MkNet { net_nodes : gmap N (Node R); sent : list Message }.
Arguments MkNet {R} _ _.
Arguments net_nodes {R} _.
Arguments sent {R} _.

Inductive Action :=
  | ATick (i : N)
  | ADeliver (m : Message)
  | APropose (i : N) (cmd : list byte)
  | AReplicate (i : N)
  | ACrash (i : N)
  | ARestart (i : N).

(** A Go slice has fewer than [2^63] elements; all that matters here is that the length of
    a command fits the serializer's length field. *)
Definition action_ok (a : Action) : Prop :=
  match a with APropose _ cmd => is_u64 (lenN cmd) | _ => True end.
#[export] Instance action_ok_dec a : Decision (action_ok a).
Proof. destruct a; apply _. Defined.

(** The same without crashes. *)
Definition friendly (a : Action) : Prop :=
  match a with ACrash _ => False | _ => action_ok a end.

Lemma friendly_ok acts : Forall friendly acts → Forall action_ok acts.
Proof. intros Hf. eapply Forall_impl; [done|]. by intros []. Qed.

Section network.
  Context {R : Type} `{RNG R}.

(** A method call on node [i]: its result replaces the node, its output is sent. *)
Definition on_node (nt : Net R) (i : N) (f : Node R → go (Node R * list Message)) : go (Net R) :=
  match nt.(net_nodes) !! i with
  | None => Ret nt
  | Some n => '(n, out) ← f n; Ret (MkNet (<[i := n]> nt.(net_nodes)) (out ++ nt.(sent)))
  end.

Definition exec (nt : Net R) (a : Action) : go (Net R) :=
  match a with
  | ATick i => on_node nt i Tick
  | ADeliver m =>
    if decide (m ∈ nt.(sent)) then on_node nt m.(To) (λ n, Step n m) else Ret nt
  | APropose i cmd => on_node nt i (λ n, '(n, _) ← Propose n cmd; Ret (n, []))
  | AReplicate i => on_node nt i (λ n, out ← ReplicateNow n; Ret (n, out))
  | ACrash i => on_node nt i (λ n, Ret ((Crash n).1, []))
  | ARestart i => on_node nt i (λ n, '(n, _) ← Restart n; Ret (n, []))
  end.

Fixpoint exec_all (nt : Net R) (acts : list Action) : go (Net R) :=
  match acts with
  | [] => Ret nt
  | a :: acts => nt ← exec nt a; exec_all nt acts
  end.

(** The members, each a fresh node whose peers are the others. *)
Definition start (members : list N) (rngs : N → R) : Net R :=
  MkNet (list_to_map
    (map (λ i, (i, Node.New i (filter (λ j, j ≠ i) members) (rngs i))) members)) [].

(** ** Simulation *)

Record sim (M : gset N) (k : N) (nt : Net R) (s : Sys) : Prop := {
  sim_reach : reachable M s;
  sim_node : ∀ i n, nt.(net_nodes) !! i = Some n →
    n.(id) = i ∧ peers_ok M n ∧ node_ok k n ∧ s.(anode) i = anode_of n;
  sim_net : ∀ m, m ∈ s.(net) ↔ m ∈ nt.(sent);
  sim_msg : ∀ m, m ∈ nt.(sent) → msg_ok k m;
}.

Lemma sim_mono M k k' nt s : k ≤ k' → sim M k nt s → sim M k' nt s.
Proof.
  intros Hk [Hr Hn Hnet Hmsg]. split; [done| |done|].
  - intros i n Hi. destruct (Hn _ _ Hi) as (? & ? & ? & ?). split_and!; try done.
    by apply (node_ok_mono k).
  - intros m Hm. apply (msg_ok_mono k); [done|]. by apply Hmsg.
Qed.

(** A call that refines, run in a simulated network. *)
Lemma on_node_sim M k nt s i f :
  sim M k nt s →
  (∀ n, nt.(net_nodes) !! i = Some n → n.(id) = i → peers_ok M n → node_ok k n →
    ∃ n' out, f n = Ret (n', out) ∧ post (k + 1) n n' out ∧
      run M s i (anode_of n') out) →
  ∃ nt' s', on_node nt i f = Ret nt' ∧ rtc (step M) s s' ∧ sim M (k + 1) nt' s'.
Proof.
  intros Hsim Hf. unfold on_node. destruct (net_nodes nt !! i) as [n|] eqn:Hi.
  2: { exists nt, s. split_and!; [done|done|]. apply (sim_mono M k); [lia|done]. }
  pose proof Hsim as [Hr Hn Hnet Hmsg]. destruct (Hn _ _ Hi) as (Hid & Hp & Hok & Ha).
  destruct (Hf n) as (n' & out & -> & Hpost & s' & Hsteps & Ha' & Hothers & Hnet');
    [done..|]. cbn [mbind go_bind].
  eexists _, s'. split_and!; [done|done|]. split; cbn.
  - unfold reachable in *. by etrans.
  - intros j nj Hj. destruct (decide (j = i)) as [->|Hne].
    + rewrite lookup_insert_eq in Hj. injection Hj as <-. destruct Hpost as [Hid' Hps' Hok' _].
      split_and!; try done; [congruence|]. destruct Hp. split; by rewrite ?Hid', ?Hps'.
    + rewrite lookup_insert_ne in Hj by done. destruct (Hn _ _ Hj) as (? & ? & ? & Haj).
      split_and!; try done; [by apply (node_ok_mono k); [lia|]|]. by rewrite Hothers.
  - intros m. rewrite Hnet', elem_of_app, Hnet. done.
  - intros m [Hm|Hm]%elem_of_app; [by apply Hpost|].
    apply (msg_ok_mono k); [lia|by apply Hmsg].
Qed.

Lemma run_here M s (n : Node R) : s.(anode) n.(id) = anode_of n → run M s n.(id) (anode_of n) [].
Proof. intros <-. apply run_refl. Qed.

Lemma exec_sim M k nt s a :
  (0 : N) ∉ M → sim M k nt s → k + 3 < u64_modulus → action_ok a →
  ∃ nt' s', exec nt a = Ret nt' ∧ rtc (step M) s s' ∧ sim M (k + 1) nt' s'.
Proof.
  intros H0 Hsim Hk Ha. assert (k + 1 < u64_modulus) as Hk1 by lia.
  assert (∀ i n, net_nodes nt !! i = Some n → run M s i (anode_of n) []) as Hhere.
  { intros i n Hi. destruct (sim_node _ _ _ _ Hsim _ _ Hi) as (<- & _ & _ & E).
    by apply run_here. }
  destruct a as [i|m|i cmd|i|i|i]; cbn [exec].
  - apply (on_node_sim M k _ _ _ _ Hsim). intros n Hi <- Hp Hok.
    destruct (Tick_refines M k n Hok Hk1) as (n' & out & -> & Hpost & Hrun).
    exists n', out. split_and!; auto.
  - case_decide as Hm.
    2: { exists nt, s. split_and!; [done|done|]. apply (sim_mono M k); [lia|done]. }
    apply (on_node_sim M k _ _ _ _ Hsim). intros n Hi Hid Hp Hok.
    pose proof (sim_msg _ _ _ _ Hsim _ Hm) as Hmok. apply (sim_net _ _ _ _ Hsim) in Hm.
    pose proof (reachable_EInv M H0 _ (sim_reach _ _ _ _ Hsim)) as HE.
    destruct (e_addr _ _ HE _ Hm) as (? & ? & ?).
    destruct (Step_refines M k n m Hok Hmok Hk1) as (n' & out & -> & Hpost & Hrun).
    exists n', out. split_and!; [done|by apply (post_mono k); [lia|]|].
    rewrite <- Hid in *. apply Hrun; auto. by split.
  - apply (on_node_sim M k _ _ _ _ Hsim). intros n Hi <- Hp Hok.
    destruct (Propose_refines M k n cmd Hok Hk Ha) as (n' & err & -> & Hpost & Hrun).
    exists n', []. split_and!; auto.
  - apply (on_node_sim M k _ _ _ _ Hsim). intros n Hi <- Hp Hok.
    destruct (ReplicateNow_refines M k n Hok) as (out & -> & Hmsgs & Hrun).
    exists n, out. split_and!; auto. apply (post_mono k); [lia|]. by split.
  - apply (on_node_sim M k _ _ _ _ Hsim). intros n Hi <- Hp Hok.
    destruct (Crash_refines M k n Hok) as (Hpost & Hrun).
    exists (Crash n).1, []. split_and!; auto. by apply (post_mono k); [lia|].
  - apply (on_node_sim M k _ _ _ _ Hsim). intros n Hi <- Hp Hok.
    destruct (Restart_refines M k n Hok Hk1) as (n' & err & -> & Hpost & Hrun).
    exists n', []. split_and!; auto. by apply (post_mono k); [lia|].
Qed.

Lemma exec_all_sim M k nt s acts :
  (0 : N) ∉ M → sim M k nt s → k + lenN acts + 3 ≤ u64_modulus → Forall action_ok acts →
  ∃ nt' s', exec_all nt acts = Ret nt' ∧ rtc (step M) s s' ∧ sim M (k + lenN acts) nt' s'.
Proof.
  intros H0 Hsim Hk Hacts. revert k nt s Hsim Hk.
  induction Hacts as [|a acts Ha _ IH]; intros k nt s Hsim Hk; cbn [exec_all length] in *.
  - exists nt, s. split_and!; [done|done|]. by rewrite N.add_0_r.
  - destruct (exec_sim M k nt s a H0 Hsim) as (nt1 & s1 & -> & Hs1 & Hsim1); [lia|done|].
    destruct (IH (k + 1) nt1 s1 Hsim1) as (nt2 & s2 & E & Hs2 & Hsim2); [lia|].
    cbn [mbind go_bind]. exists nt2, s2. split_and!; [done|by etrans|].
    by replace (k + N.of_nat (S (length acts))) with (k + 1 + lenN acts) by lia.
Qed.

(** ** The start state *)

Record members_ok (members : list N) : Prop := {
  mem_nodup : NoDup members;
  mem_zero : (0 : N) ∉ members;
  mem_u64 : Forall is_u64 members;
}.

Lemma New_ok i ps (r : R) : is_u64 i → node_ok 0 (Node.New i ps r) ∧
  id (Node.New i ps r) = i ∧ peers (Node.New i ps r) = ps ∧ anode_of (Node.New i ps r) = ainit.
Proof.
  intros Hi. unfold Node.New.
  match goal with |- context [resetElectionTimer ?x] =>
    destruct (reset_eq x) as (t & r' & ->) end.
  split_and!; try done. split; cbn; try done; [apply New_wf|].
  constructor; [|done]. by split_and!.
Qed.

Lemma start_sim members rngs :
  members_ok members → sim (list_to_set members) 0 (start members rngs) init.
Proof.
  intros [Hnd _ Hu]. split; [by constructor| |done|by intros ? ?%not_elem_of_nil].
  intros i n Hi. cbn in Hi. apply elem_of_list_to_map_2, list_elem_of_fmap in Hi.
  destruct Hi as (i' & [= -> ->] & Hin). rewrite Forall_forall in Hu.
  destruct (New_ok i' (filter (λ j, j ≠ i') members) (rngs i') (Hu _ Hin)) as (Hok & Hid & Hps & Ha).
  split_and!; [done| |done|done]. split; rewrite ?Hid, ?Hps.
  - by apply elem_of_list_to_set.
  - by apply NoDup_filter.
  - intros [? _]%list_elem_of_filter. done.
  - apply set_eq. intros j. rewrite !elem_of_list_to_set, elem_of_cons, list_elem_of_filter.
    destruct (decide (j = i')) as [->|]; naive_solver.
Qed.

(** No call adds or removes a node. *)
Lemma exec_dom nt a nt' i :
  exec nt a = Ret nt' → is_Some (net_nodes nt' !! i) ↔ is_Some (net_nodes nt !! i).
Proof.
  assert (∀ j f, on_node nt j f = Ret nt' →
    is_Some (net_nodes nt' !! i) ↔ is_Some (net_nodes nt !! i)) as Hon.
  { intros j f. unfold on_node. destruct (net_nodes nt !! j) as [n|] eqn:Hj.
    - intros Hf. go_inv Hf. destruct a0 as [n' out]. injection Hf as <-. cbn.
      destruct (decide (i = j)) as [->|]; [rewrite lookup_insert_eq, Hj|
        by rewrite lookup_insert_ne]. split; eauto.
    - by intros [= ->]. }
  destruct a as [j|m|j cmd|j|j|j]; cbn [exec]; try apply Hon.
  case_decide; [apply Hon|]. by intros [= ->].
Qed.

Lemma exec_all_dom nt acts nt' i :
  exec_all nt acts = Ret nt' → is_Some (net_nodes nt' !! i) ↔ is_Some (net_nodes nt !! i).
Proof.
  revert nt. induction acts as [|a acts IH]; intros nt Hrun; cbn in Hrun.
  - by injection Hrun as ->.
  - go_inv Hrun. rewrite (IH _ Hrun). by apply (exec_dom _ a).
Qed.

Lemma start_dom members rngs i : i ∈ members → is_Some (net_nodes (start members rngs) !! i).
Proof.
  intros Hi. cbn. apply not_eq_None_Some. intros Hn%not_elem_of_list_to_map_2.
  apply Hn, list_elem_of_fmap. eexists (i, _). split; [done|].
  apply list_elem_of_fmap. by exists i.
Qed.

Lemma mem_zero_set members : members_ok members → (0 : N) ∉ (list_to_set members : gset N).
Proof. intros Hm. rewrite elem_of_list_to_set. apply Hm. Qed.

(** Everything proved of a schedule: it runs, and an abstract execution follows it. *)
Lemma schedule_sim members rngs acts :
  members_ok members → lenN acts + 3 ≤ u64_modulus → Forall action_ok acts →
  ∃ nt s, exec_all (start members rngs) acts = Ret nt ∧
    sim (list_to_set members) (lenN acts) nt s.
Proof.
  intros Hm Hk Ha.
  destruct (exec_all_sim _ 0 _ _ acts (mem_zero_set _ Hm) (start_sim members rngs Hm))
    as (nt & s & ? & _ & ?); [lia|done|]. by exists nt, s.
Qed.

Lemma exec_all_app nt acts1 acts2 :
  exec_all nt (acts1 ++ acts2) = nt1 ← exec_all nt acts1; exec_all nt1 acts2.
Proof.
  revert nt. induction acts1 as [|a acts1 IH]; intros nt; [done|]. cbn [exec_all app].
  destruct (exec nt a); cbn; [apply IH|done|done].
Qed.
End network.

(** ** What the schedules guarantee *)

Section guarantees.
  Context {R : Type} `{RNG R}.
  Implicit Types (nt : Net R) (n : Node R).

(** Two states of one execution, with the abstract states that follow them. *)
Lemma two_states members rngs acts1 acts2 nt1 nt2 :
  members_ok members → lenN (acts1 ++ acts2) + 3 ≤ u64_modulus →
  Forall action_ok (acts1 ++ acts2) →
  exec_all (start members rngs) acts1 = Ret nt1 → exec_all nt1 acts2 = Ret nt2 →
  let M := list_to_set members in
  ∃ s1 s2 k, sim M k nt1 s1 ∧ sim M k nt2 s2 ∧ rtc (step M) s1 s2.
Proof.
  intros Hm Hk [Ha1 Ha2]%Forall_app H1 H2 M. rewrite length_app in Hk.
  destruct (schedule_sim members rngs acts1 Hm) as (nt1' & s1 & H1' & Hsim1); [lia|done|].
  rewrite H1 in H1'. injection H1' as <-.
  destruct (exec_all_sim M (lenN acts1) nt1 s1 acts2) as (nt2' & s2 & H2' & Hs & Hsim2);
    [by apply mem_zero_set|done|lia|done|].
  rewrite H2 in H2'. injection H2' as <-.
  exists s1, s2, (lenN acts1 + lenN acts2). split_and!; [|done|done].
  apply (sim_mono M (lenN acts1)); [lia|done].
Qed.

Lemma one_state members rngs acts nt :
  members_ok members → lenN acts + 3 ≤ u64_modulus → Forall action_ok acts →
  exec_all (start members rngs) acts = Ret nt →
  ∃ s k, sim (list_to_set members) k nt s ∧ EInv (list_to_set members) s ∧ LInv s ∧
    k ≤ lenN acts.
Proof.
  intros Hm Hk Ha Hrun.
  destruct (schedule_sim members rngs acts Hm Hk Ha) as (nt' & s & Hrun' & Hsim).
  rewrite Hrun in Hrun'. injection Hrun' as <-. exists s, (lenN acts). split_and!; [done| | |done].
  - apply reachable_EInv; [by apply mem_zero_set|apply Hsim].
  - eapply (reachable_LInv (list_to_set members)); [by apply mem_zero_set|apply Hsim].
Qed.

Lemma sim_leader M k nt s i n :
  sim M k nt s → EInv M s → net_nodes nt !! i = Some n → n.(state) = StateLeader →
  (n.(currentTerm), i) ∈ s.(elected).
Proof.
  intros Hsim HE Hi Hst. destruct (sim_node _ _ _ _ Hsim _ _ Hi) as (_ & _ & _ & Ha).
  pose proof (e_leader _ _ HE i) as Hl. rewrite Ha in Hl. by apply Hl.
Qed.

Lemma sim_log M k nt s i n :
  sim M k nt s → net_nodes nt !! i = Some n → alog (s.(anode) i) = n.(raftLog).(entries).
Proof. intros Hsim Hi. by destruct (sim_node _ _ _ _ Hsim _ _ Hi) as (_ & _ & _ & ->). Qed.

(** C1: network_election_safety.  Election safety.  In every execution of [Node]s whose
    peers are the other members, over a network that may lose, reorder and duplicate
    messages, with crashes and restarts: a leader of a term at one moment and a leader of
    the same term at the same or a later moment are the same node. *)
Theorem network_election_safety members rngs acts1 acts2 nt1 nt2 i j n1 n2 :
  members_ok members → lenN (acts1 ++ acts2) + 3 ≤ u64_modulus →
  Forall action_ok (acts1 ++ acts2) →
  exec_all (start members rngs) acts1 = Ret nt1 → exec_all nt1 acts2 = Ret nt2 →
  net_nodes nt1 !! i = Some n1 → n1.(state) = StateLeader →
  net_nodes nt2 !! j = Some n2 → n2.(state) = StateLeader →
  n1.(currentTerm) = n2.(currentTerm) → i = j.
Proof.
  intros Hm Hk Ha H1 H2 Hi Hl1 Hj Hl2 Ht.
  destruct (two_states _ _ _ _ _ _ Hm Hk Ha H1 H2) as (s1 & s2 & k & Hs1 & Hs2 & Hsteps).
  pose proof (mem_zero_set _ Hm) as H0.
  pose proof (reachable_EInv _ H0 _ (sim_reach _ _ _ _ Hs1)) as HE1.
  pose proof (reachable_EInv _ H0 _ (sim_reach _ _ _ _ Hs2)) as HE2.
  pose proof (sim_leader _ _ _ _ _ _ Hs1 HE1 Hi Hl1) as E1.
  pose proof (sim_leader _ _ _ _ _ _ Hs2 HE2 Hj Hl2) as E2.
  apply (steps_elected _ _ _ _ Hsteps) in E1. rewrite Ht in E1.
  by apply (e_unique _ _ HE2 _ _ _ E1 E2).
Qed.

(** C2: network_log_matching.  Log matching.  If the logs of two nodes have an entry with the
    same index and term, the logs are identical up to that index, commands included. *)
Theorem network_log_matching members rngs acts nt i j n1 n2 k e1 e2 :
  members_ok members → lenN acts + 3 ≤ u64_modulus → Forall action_ok acts →
  exec_all (start members rngs) acts = Ret nt →
  net_nodes nt !! i = Some n1 → net_nodes nt !! j = Some n2 →
  At n1.(raftLog) k = Ret e1 → At n2.(raftLog) k = Ret e2 →
  e1.(Log.Term) = e2.(Log.Term) →
  take (N.to_nat (k + 1)) n1.(raftLog).(entries) =
  take (N.to_nat (k + 1)) n2.(raftLog).(entries).
Proof.
  intros Hm Hk Ha Hrun Hi Hj H1 H2 Ht.
  destruct (one_state _ _ _ _ Hm Hk Ha Hrun) as (s & b & Hsim & _ & HL & _).
  assert (∀ l e, At l k = Ret e → l.(entries) !! N.to_nat k = Some e) as Hat.
  { intros l e. unfold At. destruct (_ <=? k); [done|]. apply index_lookup. }
  rewrite <- (sim_log _ _ _ _ _ _ Hsim Hi), <- (sim_log _ _ _ _ _ _ Hsim Hj) in *.
  apply Hat in H1, H2. rewrite <- (sim_log _ _ _ _ _ _ Hsim Hi) in H1.
  rewrite <- (sim_log _ _ _ _ _ _ Hsim Hj) in H2.
  replace (N.to_nat (k + 1)) with (S (N.to_nat k)) by lia.
  by apply (LInv_matching s i j _ e1 e2).
Qed.

(** C5: network_runs.  No execution panics: every schedule runs to its end, and then every
    member still has its node, whose log is well formed ([entries[0]] the dummy, index [i]
    at position [i], commit index inside the log). *)
Theorem network_runs members rngs acts :
  members_ok members → lenN acts + 3 ≤ u64_modulus → Forall action_ok acts →
  ∃ nt, exec_all (start members rngs) acts = Ret nt ∧
    ∀ i, i ∈ members → ∃ n, net_nodes nt !! i = Some n ∧
      wf n.(raftLog) ∧ n.(id) = i ∧ n.(currentTerm) ≤ lenN acts.
Proof.
  intros Hm Hk Ha.
  destruct (schedule_sim members rngs acts Hm Hk Ha) as (nt & s & Hrun & Hsim).
  exists nt. split; [done|]. intros i Hi.
  apply start_dom with (rngs := rngs) in Hi. rewrite <- (exec_all_dom _ _ _ i Hrun) in Hi.
  destruct Hi as [n Hi]. exists n.
  destruct (sim_node _ _ _ _ Hsim _ _ Hi) as (? & _ & Hok & _).
  split_and!; [done|apply Hok|done|apply Hok].
Qed.

(** C6: network_refines.  Refinement: whatever the nodes do, Raft as a transition system
    ([Spec.step]) can do.  Every execution continues under every schedule of calls, and there
    are abstract states before and after that agree with the nodes (same term, vote, role,
    votes and log at every member, same messages sent), the first reachable from the
    initial state of [Spec], the second reachable from the first. *)
Theorem network_refines members rngs acts1 acts2 nt1 :
  members_ok members → lenN (acts1 ++ acts2) + 3 ≤ u64_modulus →
  Forall action_ok (acts1 ++ acts2) → exec_all (start members rngs) acts1 = Ret nt1 →
  let M := list_to_set members in
  let agree nt s :=
    (∀ i n, net_nodes nt !! i = Some n → s.(anode) i = anode_of n) ∧
    ∀ m, m ∈ s.(net) ↔ m ∈ nt.(sent) in
  ∃ nt2 s1 s2, exec_all nt1 acts2 = Ret nt2 ∧ rtc (step M) init s1 ∧ agree nt1 s1 ∧
    rtc (step M) s1 s2 ∧ agree nt2 s2.
Proof.
  intros Hm Hk Ha H1 M agree.
  assert (∃ nt2, exec_all nt1 acts2 = Ret nt2) as [nt2 H2].
  { destruct (schedule_sim members rngs (acts1 ++ acts2) Hm Hk Ha) as (nt2 & _ & E & _).
    rewrite exec_all_app, H1 in E. by exists nt2. }
  destruct (two_states members rngs acts1 acts2 nt1 nt2 Hm Hk Ha H1 H2)
    as (s1 & s2 & k & Hs1 & Hs2 & Hsteps).
  assert (∀ nt s, sim M k nt s → agree nt s) as Hagree.
  { intros nt s Hsim. split; [|apply Hsim]. intros i n Hi. by apply (sim_node _ _ _ _ Hsim _ _ Hi). }
  exists nt2, s1, s2. split_and!; [done|apply Hs1|by apply Hagree|done|by apply Hagree].
Qed.

(** C7: network_votes_once.  Two granted vote responses of one node in one term, sent at any
    two moments of an execution (crashes and restarts included), go to the same candidate.
    (The vote a candidate gives itself is not a message: [candidate_forgets_vote].) *)
Theorem network_votes_once members rngs acts nt m1 m2 :
  members_ok members → lenN acts + 3 ≤ u64_modulus → Forall action_ok acts →
  exec_all (start members rngs) acts = Ret nt → m1 ∈ nt.(sent) → m2 ∈ nt.(sent) →
  m1.(Type_) = MsgRequestVoteResp → m2.(Type_) = MsgRequestVoteResp →
  m1.(Granted) = true → m2.(Granted) = true →
  m1.(From) = m2.(From) → m1.(Message.Term) = m2.(Message.Term) → m1.(To) = m2.(To).
Proof.
  intros Hm Hk Ha Hrun Hin1 Hin2 Hty1 Hty2 Hg1 Hg2 Hf Ht.
  destruct (one_state _ _ _ _ Hm Hk Ha Hrun) as (s & b & Hsim & HE & _).
  rewrite <- (sim_net _ _ _ _ Hsim) in Hin1, Hin2.
  apply (e_granted_once _ _ HE m1.(From) _ _ m1.(Message.Term)).
  - by exists m1.
  - by exists m2.
Qed.

(** C8: network_log_terms.  Terms never decrease along a log and never exceed the term of the
    node. *)
Theorem network_log_terms members rngs acts nt i n k a b :
  members_ok members → lenN acts + 3 ≤ u64_modulus → Forall action_ok acts →
  exec_all (start members rngs) acts = Ret nt → net_nodes nt !! i = Some n →
  n.(raftLog).(entries) !! k = Some a → n.(raftLog).(entries) !! S k = Some b →
  a.(Log.Term) ≤ b.(Log.Term) ≤ n.(currentTerm).
Proof.
  intros Hm Hk Ha Hrun Hi Hka Hkb.
  destruct (one_state _ _ _ _ Hm Hk Ha Hrun) as (s & c & Hsim & _ & HL & _).
  pose proof (l_terms _ HL i (a.(Log.Term), b)) as Hl.
  rewrite (sim_log _ _ _ _ _ _ Hsim Hi) in Hl.
  destruct (sim_node _ _ _ _ Hsim _ _ Hi) as (_ & _ & _ & E). rewrite E in Hl.
  destruct Hl as [? ?]; [by eapply links_lookup|done].
Qed.
End guarantees.

(** ** A concrete execution

    Three members, node 1 times out first, is elected with the vote of node 2, replicates
    one command to node 2, and node 2 crashes and restarts. *)

#[local] Existing Instance constant_rng.

Definition entry_a : Entry := MkEntry 1 1 [x61].

Definition demo_election : list Action :=
  repeat (ATick 1) 10 ++
  [ADeliver (NewRequestVote 1 2 1 0 0); ADeliver (NewRequestVoteResp 2 1 1 true)].

Definition demo_replication : list Action :=
  [APropose 1 [x61]; AReplicate 1; ADeliver (NewAppendEntries 1 2 1 0 0 0 [entry_a]);
   ADeliver (NewAppendEntriesResp 2 1 1 true 1); ACrash 2; ARestart 2].

Definition demo_start : Net Z := start [1; 2; 3] (λ _, 0%Z).

Definition net_of (r : go (Net Z)) : Net Z :=
  match r with Ret nt => nt | _ => MkNet ∅ [] end.
Definition demo_net1 : Net Z := net_of (exec_all demo_start demo_election).
Definition demo_net2 : Net Z := net_of (exec_all demo_net1 demo_replication).
Definition node_at (nt : Net Z) (i : N) : Node Z :=
  default (Node.New 0 [] 0%Z) (nt.(net_nodes) !! i).

Lemma demo_members : members_ok [1; 2; 3].
Proof. by split; apply (bool_decide_unpack _). Qed.

Lemma demo_ok : Forall action_ok (demo_election ++ demo_replication).
Proof. by apply (bool_decide_unpack _). Qed.

Ltac demo_start_tac := first [apply demo_members | apply demo_ok | by vm_compute].

Lemma network_election_safety_witness :
  exec_all demo_start demo_election = Ret demo_net1 ∧
  exec_all demo_net1 demo_replication = Ret demo_net2 ∧
  (node_at demo_net1 1).(state) = StateLeader ∧
  (node_at demo_net2 1).(state) = StateLeader ∧ (1 : N) = 1.
Proof.
  split_and!; [by vm_compute..|].
  apply (network_election_safety [1; 2; 3] (λ _, 0%Z) demo_election demo_replication
    demo_net1 demo_net2 1 1 (node_at demo_net1 1) (node_at demo_net2 1));
    demo_start_tac.
Defined.

Lemma network_log_matching_witness :
  (node_at demo_net2 1).(raftLog).(entries) !! 1%nat = Some entry_a ∧
  take 2 (node_at demo_net2 1).(raftLog).(entries) =
  take 2 (node_at demo_net2 2).(raftLog).(entries).
Proof.
  split; [by vm_compute|].
  apply (network_log_matching [1; 2; 3] (λ _, 0%Z) (demo_election ++ demo_replication)
    demo_net2 1 2 (node_at demo_net2 1) (node_at demo_net2 2) 1 entry_a entry_a);
    demo_start_tac.
Defined.

Lemma network_runs_witness :
  ∃ nt, exec_all demo_start (demo_election ++ demo_replication) = Ret nt ∧
    ∀ i, i ∈ [1; 2; 3] → ∃ n, net_nodes nt !! i = Some n ∧ wf n.(raftLog) ∧ n.(id) = i ∧
      n.(currentTerm) ≤ lenN (demo_election ++ demo_replication).
Proof.
  apply (network_runs [1; 2; 3] (λ _, 0%Z) (demo_election ++ demo_replication));
    demo_start_tac.
Defined.

Lemma network_refines_witness :
  ∃ nt2 s2, exec_all demo_net1 demo_replication = Ret nt2 ∧ reachable {[1; 2; 3]} s2 ∧
    ∀ i n, net_nodes nt2 !! i = Some n → s2.(anode) i = anode_of n.
Proof.
  destruct (network_refines [1; 2; 3] (λ _, 0%Z) demo_election demo_replication demo_net1)
    as (nt2 & s1 & s2 & H2 & Hs1 & _ & Hs2 & Ha2 & _); [demo_start_tac..|].
  exists nt2, s2. split; [exact H2|]. split; [|exact Ha2].
  replace ({[1; 2; 3]} : gset N) with (list_to_set [1; 2; 3] : gset N).
  - unfold reachable. etrans; [exact Hs1|exact Hs2].
  - by apply (bool_decide_unpack _).
Defined.

Lemma network_votes_once_witness :
  NewRequestVoteResp 2 1 1 true ∈ demo_net2.(sent) ∧
  To (NewRequestVoteResp 2 1 1 true) = To (NewRequestVoteResp 2 1 1 true).
Proof.
  assert (NewRequestVoteResp 2 1 1 true ∈ demo_net2.(sent)) as Hin
    by (apply (bool_decide_unpack _); vm_compute; exact I).
  split; [done|].
  apply (network_votes_once [1; 2; 3] (λ _, 0%Z) (demo_election ++ demo_replication)
    demo_net2 (NewRequestVoteResp 2 1 1 true) (NewRequestVoteResp 2 1 1 true));
    first [exact Hin | demo_start_tac].
Defined.

Lemma network_log_terms_witness :
  (node_at demo_net2 2).(raftLog).(entries) = [dummy; entry_a] ∧
  dummy.(Log.Term) ≤ entry_a.(Log.Term) ≤ (node_at demo_net2 2).(currentTerm).
Proof.
  split; [by vm_compute|].
  apply (network_log_terms [1; 2; 3] (λ _, 0%Z) (demo_election ++ demo_replication)
    demo_net2 2 (node_at demo_net2 2) 0 dummy entry_a); demo_start_tac.
Defined.
