(* ===== verification/Commit.v ===== *)
(** * Commitment in executions

    State-machine safety is not a theorem of this code ([Anomalies.commit_safety_violated]):
    a follower acknowledges its whole log, also entries the leader never sent.  This file
    proves that nothing else is wrong.  [overclaims] says that the reply of a node to a
    message acknowledges entries that neither the message nor an entry of the leader's own
    term vouches for; in every execution without such a reply ([honest_run]) committed
    entries agree at all nodes and all times, and every later leader has them.  [csim] ties
    the concrete network to the histories of [SpecCommit]. *)
From S2P Require Import Prelude Log LogPersist Message Node.
From S2P Require Import Spec SpecElection SpecCommit NodeFacts Refine NodeSpec Network.
From Stdlib Require Import Strings.Byte.
Open Scope N_scope.

Section commit.
  Context {R : Type} `{RNG R}.
  Implicit Types (n : Node R) (m : Message) (nt : Net R).

(** ** Replies that claim too much *)

Definition overclaims n m : bool :=
  match Step n m with
  | Ret (n', [r]) =>
    bool_decide (r.(Type_) = MsgAppendEntriesResp) && r.(Success) &&
    (m.(PrevLogIndex) + lenN m.(Message.Entries) <? r.(MatchIndex)) &&
    negb (lastTerm n'.(raftLog) =? n'.(currentTerm))
  | _ => false
  end.

Definition honest nt (a : Action) : bool :=
  match a with
  | ADeliver m =>
    if decide (m ∈ nt.(sent)) then
      match nt.(net_nodes) !! m.(To) with Some n => negb (overclaims n m) | None => true end
    else true
  | _ => true
  end.

Fixpoint honest_run nt (acts : list Action) : bool :=
  match acts with
  | [] => true
  | a :: acts => honest nt a &&
    match exec nt a with Ret nt => honest_run nt acts | _ => true end
  end.

(** ** Calls that neither accept entries nor commit *)

Record plain n n' (out : list Message) : Prop := {
  plain_commit : n'.(raftLog).(commitIndex) ≤ n.(raftLog).(commitIndex);
  plain_log : n.(raftLog).(entries) `prefix_of` n'.(raftLog).(entries);
  plain_term : n.(currentTerm) ≤ n'.(currentTerm);
  plain_match : n'.(state) = StateLeader →
    (∀ p, p ∈ n'.(peers) → get_index n'.(matchIndex) p = 0) ∨
    n.(state) = StateLeader ∧ n'.(currentTerm) = n.(currentTerm) ∧
    n'.(matchIndex) = n.(matchIndex);
  plain_out : ∀ r, r ∈ out →
    (r.(Type_) = MsgAppendEntries →
     r.(LeaderCommit) = n'.(raftLog).(commitIndex) ∧ r.(Message.Term) = n'.(currentTerm)) ∧
    (r.(Type_) = MsgAppendEntriesResp → r.(Success) = false);
}.

Lemma plain_refl n : plain n n [].
Proof. split; try done; [by right|]. by intros r ?%not_elem_of_nil. Qed.

(** Only these fields matter. *)
Definition same_fields n1 n2 : Prop :=
  raftLog n1 = raftLog n2 ∧ currentTerm n1 = currentTerm n2 ∧ peers n1 = peers n2 ∧
  state n1 = state n2 ∧ matchIndex n1 = matchIndex n2.

Lemma plain_fields n1 n2 n1' n2' out :
  same_fields n1 n2 → same_fields n1' n2' → plain n1 n1' out → plain n2 n2' out.
Proof.
  intros (El & Et & _ & Es & Em) (El' & Et' & Ep' & Es' & Em') [].
  rewrite <- ?El, <- ?Et, <- ?Es, <- ?Em in *. split; by rewrite <- ?El, <- ?Et, <- ?Es, <- ?Em,
    <- ?El', <- ?Et', <- ?Ep', <- ?Es', <- ?Em'.
Qed.

(** A node that is no leader and sends no AppendEntries, with its log. *)
Lemma plain_simple n n' out :
  n'.(raftLog) = n.(raftLog) → n.(currentTerm) ≤ n'.(currentTerm) →
  n'.(state) ≠ StateLeader →
  (∀ r, r ∈ out → r.(Type_) ≠ MsgAppendEntries ∧
     (r.(Type_) = MsgAppendEntriesResp → r.(Success) = false)) →
  plain n n' out.
Proof.
  intros Hlog Ht Hst Hout. split; rewrite ?Hlog; try done.
  intros r Hr. destruct (Hout r Hr). by split.
Qed.

(** Every broadcast carries the commit index, whatever [nextIndex] says. *)
Lemma broadcast_commit n out r :
  broadcastAppendEntries n = Ret out → r ∈ out →
  r.(Type_) = MsgAppendEntries ∧ r.(LeaderCommit) = n.(raftLog).(commitIndex) ∧
  r.(Message.Term) = n.(currentTerm).
Proof.
  unfold broadcastAppendEntries. intros Hb Hr. go_inv Hb. destruct a as [lastIdx lastT].
  destruct (go_map_elem _ _ _ _ Hb Hr) as (p & _ & Hp). unfold appendEntriesFor in Hp.
  go_inv Hp. destruct a as [pi pt]. go_inv Hp. by injection Hp as <-.
Qed.

Lemma broadcast_plain n n' out :
  n'.(raftLog) = n.(raftLog) → n'.(currentTerm) = n.(currentTerm) →
  n'.(matchIndex) = n.(matchIndex) → n'.(state) = n.(state) →
  broadcastAppendEntries n' = Ret out → plain n n' out.
Proof.
  intros Hlog Ht Hm Hst Hb. split; rewrite ?Hlog, ?Ht; try done; [rewrite Hst; by right|].
  intros r Hr. destruct (broadcast_commit _ _ _ Hb Hr) as (Hty & Hc & Hterm).
  rewrite Hlog, Ht in *. by rewrite Hty.
Qed.

(** ** Every method *)

Lemma startElection_plain n n' out :
  wf n.(raftLog) → n.(currentTerm) + 1 < u64_modulus →
  startElection n = Ret (n', out) → plain n n' out.
Proof.
  intros Hwf Hlt. unfold startElection. match goal with |- context [resetElectionTimer ?x] =>
    destruct (reset_eq x) as (t & r & ->) end.
  cbn -[Last u64_add]. rewrite (Last_wf _ Hwf). cbn -[u64_add]. intros [= <- <-].
  apply plain_simple; try done; cbn -[u64_add]; [rewrite u64_add_small by lia; lia|].
  by intros r' (p & -> & _)%list_elem_of_fmap.
Qed.

Lemma Tick_plain n n' out :
  wf n.(raftLog) → n.(currentTerm) + 1 < u64_modulus → Tick n = Ret (n', out) → plain n n' out.
Proof.
  intros Hwf Hlt. unfold Tick. destruct (crashed n); [intros [= <- <-]; apply plain_refl|].
  set (n1 := n <| electionElapsed := _ |>). change (state n1) with (state n).
  destruct (state n) eqn:Hst.
  1,2: destruct (_ <=? _)%Z; [intros E; apply (plain_fields n1 n n' n' out); [done..|by apply startElection_plain]|
    intros [= <- <-]; by apply (plain_fields n n n n1 []); [..|apply plain_refl]].
  - set (n2 := n1 <| heartbeatElapsed := _ |>).
    destruct (_ <=? _)%Z;
      [|intros [= <- <-]; by apply (plain_fields n n n n2 []); [..|apply plain_refl]].
    intros E. go_inv E. injection E as <- <-. by apply broadcast_plain.
  - intros [= <- <-]. by apply (plain_fields n n n n1 []); [..|apply plain_refl].
Qed.

Lemma stepDown_plain n t : n.(currentTerm) ≤ t → plain n (stepDown n t) [].
Proof.
  intros Ht. unfold stepDown. match goal with |- context [resetElectionTimer ?x] =>
    destruct (reset_eq x) as (t' & r & ->) end.
  apply plain_simple; try done. by intros r' ?%not_elem_of_nil.
Qed.

Lemma handleRequestVote_plain n m n' out :
  wf n.(raftLog) → handleRequestVote n m = Ret (n', out) → plain n n' out.
Proof.
  intros Hwf. unfold handleRequestVote.
  assert (∀ n1 n2 m', plain n n1 [] → same_fields n1 n2 →
    m'.(Type_) = MsgRequestVoteResp → plain n n2 [m']) as Hview.
  { intros n1 n2 m' Hp Hs Hty. apply (plain_fields n n n1 n2 []) in Hp as []; [|done..].
    split; try done. intros r ->%list_elem_of_singleton. by rewrite Hty. }
  destruct (N.ltb_spec (Message.Term m) (currentTerm n)) as [Hlt|Hge].
  { intros [= <- <-]. apply (Hview n); try done. apply plain_refl. }
  fold (bumped n m). assert (plain n (bumped n m) []) as Hb.
  { unfold bumped. destruct (N.ltb_spec (currentTerm n) (Message.Term m)); [|apply plain_refl].
    apply plain_simple; [done|cbn; lia|done|]. by intros r' ?%not_elem_of_nil. }
  set (n1 := bumped n m) in *. clearbody n1. intros E. go_inv E. destruct a.
  - destruct (reset_eq (n1 <| votedFor := From m |>)) as (t & r & Er). rewrite Er in E.
    injection E as <- <-. by apply (Hview n1).
  - injection E as <- <-. by apply (Hview n1).
Qed.

Lemma handleRequestVoteResp_plain n m n' out :
  wf n.(raftLog) → handleRequestVoteResp n m = Ret (n', out) → plain n n' out.
Proof.
  intros Hwf. unfold handleRequestVoteResp.
  destruct (N.ltb_spec (currentTerm n) (Message.Term m)) as [Hlt|Hge].
  { intros [= <- <-]. apply stepDown_plain. lia. }
  destruct (_ && _) eqn:Hc; [|intros [= <- <-]; apply plain_refl].
  apply andb_true_iff in Hc as [_ Hst%bool_decide_eq_true].
  set (n1 := if Granted m then _ else n).
  assert (raftLog n1 = raftLog n ∧ currentTerm n1 = currentTerm n ∧ peers n1 = peers n ∧
    state n1 = state n) as (Hlog & Ht & Hp & Hs) by (unfold n1; by destruct (Granted m)).
  clearbody n1. destruct (_ <=? _)%Z.
  - destruct (becomeLeader_exact n1) as (n2 & -> & Hl & _ & _ & Ht2 & Hlog2 & Hp2 & Hm);
      [by rewrite Hlog|]. intros [= <- <-].
    split; rewrite ?Hlog2, ?Hlog, ?Ht2, ?Ht, ?Hp2; try done.
    + intros _. left. intros p Hpp. by apply Hm.
    + by intros r (p & -> & _)%list_elem_of_fmap.
  - intros [= <- <-]. apply plain_simple; try done; [by rewrite Ht| |by intros r ?%not_elem_of_nil].
    rewrite Hs. by destruct (state n).
Qed.

Lemma Propose_plain n cmd n' err :
  wf n.(raftLog) → lenN n.(raftLog).(entries) + 1 < u64_modulus →
  Propose n cmd = Ret (n', err) → plain n n' [].
Proof.
  intros Hwf Hsz. unfold Propose. destruct (crashed n); [intros [= <- _]; apply plain_refl|].
  case_bool_decide as Hst; cbn [negb]; [|intros [= <- _]; apply plain_refl].
  rewrite (Last_wf _ Hwf). cbn [mbind go_bind]. rewrite (Append_one _ _ _ Hwf Hsz).
  cbn [mbind go_bind]. intros [= <- _]. split; try done; cbn.
  - by eexists.
  - by right.
  - by intros r ?%not_elem_of_nil.
Qed.

Lemma ReplicateNow_plain n out : ReplicateNow n = Ret out → plain n n out.
Proof.
  unfold ReplicateNow. destruct (_ || _); [intros [= <-]; apply plain_refl|].
  by apply broadcast_plain.
Qed.

Lemma Crash_plain k n : node_ok k n → plain n (Crash n).1 [].
Proof.
  intros Hok. unfold Crash. destruct (crashed n); [apply plain_refl|].
  apply plain_simple; try done. by intros r ?%not_elem_of_nil.
Qed.

Lemma Restart_plain k n n' err :
  node_ok k n → k + 1 < u64_modulus → Restart n = Ret (n', err) → plain n n' [].
Proof.
  intros Hok Hk. destruct (crashed n) eqn:Hcr.
  - destruct (Restart_spec k n Hok Hk Hcr) as (n1 & -> & Hpost & Ht & _ & Hl & Hst & _).
    intros [= <- _].
    split; rewrite ?Hl, ?Ht, ?Hst; try done; [cbn; lia|by intros r ?%not_elem_of_nil].
  - unfold Restart. rewrite Hcr. intros [= <- _]. apply plain_refl.
Qed.

(** A message that is not an accepted AppendEntries nor a success response to a leader. *)
Definition accepted n m : Prop :=
  m.(Type_) = MsgAppendEntries ∧ n.(currentTerm) ≤ m.(Message.Term) ∧
  prev_matches n.(raftLog).(entries) m.(PrevLogIndex) m.(PrevLogTerm).
Definition counted n m : Prop :=
  m.(Type_) = MsgAppendEntriesResp ∧ m.(Message.Term) = n.(currentTerm) ∧
  n.(state) = StateLeader ∧ m.(Success) = true.

#[local] Instance accepted_dec n m : Decision (accepted n m).
Proof. unfold accepted, prev_matches. apply _. Defined.
#[local] Instance counted_dec n m : Decision (counted n m).
Proof. unfold counted. apply _. Defined.

Lemma handleAppendEntries_plain n m n' out :
  wf n.(raftLog) → m.(Type_) = MsgAppendEntries → ¬ accepted n m →
  handleAppendEntries n m = Ret (n', out) → plain n n' out.
Proof.
  intros Hwf Hty Hno E. destruct (decide (currentTerm n ≤ Message.Term m)) as [Hle|Hlt].
  - destruct (append_entries_rejected n m Hwf Hle) as (n1 & E1 & Hlog & Hst & Ht & _).
    { intros ?. by apply Hno. }
    rewrite E in E1. injection E1 as <- ->.
    apply plain_simple; [done|by rewrite Ht|by rewrite Hst|].
    by intros r ->%list_elem_of_singleton.
  - revert E. unfold handleAppendEntries. rewrite (proj2 (N.ltb_lt _ _)) by lia.
    intros [= <- <-]. split; try done; [by right|]. by intros r ->%list_elem_of_singleton.
Qed.

Lemma handleAppendEntriesResp_plain n m n' out :
  wf n.(raftLog) → m.(Type_) = MsgAppendEntriesResp → ¬ counted n m →
  handleAppendEntriesResp n m = Ret (n', out) → plain n n' out.
Proof.
  intros Hwf Hty Hno. unfold handleAppendEntriesResp.
  destruct (N.ltb_spec (currentTerm n) (Message.Term m)) as [Hlt|Hge].
  { intros [= <- <-]. apply stepDown_plain. lia. }
  destruct (_ && _) eqn:Hc; [|intros [= <- <-]; apply plain_refl].
  apply andb_true_iff in Hc as [Ht%N.eqb_eq Hst%bool_decide_eq_true].
  destruct (Success m) eqn:Hs; [by destruct Hno|].
  destruct (_ <? _); intros [= <- <-]; [|apply plain_refl].
  split; try done; [by right|]. by intros r ?%not_elem_of_nil.
Qed.

Lemma Step_plain n m n' out :
  wf n.(raftLog) → ¬ accepted n m → ¬ counted n m →
  Step n m = Ret (n', out) → plain n n' out.
Proof.
  intros Hwf Ha Hc. unfold Step. destruct (crashed n); [intros [= <- <-]; apply plain_refl|].
  destruct (Type_ m) eqn:Hty.
  - by apply handleRequestVote_plain.
  - by apply handleRequestVoteResp_plain.
  - by apply handleAppendEntries_plain.
  - by apply handleAppendEntriesResp_plain.
  - intros [= <- <-]. apply plain_refl.
Qed.

(** ** The commit indices against the histories *)

Section simulation.
  Context (M : gset N).
  Hypothesis HM : (0 : N) ∉ M.
  Implicit Types (s : Sys) (tl : history) (acks : list ack).

(** Everything up to [c] was committed in a term up to [T]. *)
Definition covered s tl acks (T c : N) : Prop :=
  c = 0 ∨ ∃ T' j, committed M s tl acks T' j ∧ T' ≤ T ∧ (N.to_nat c ≤ j)%nat.

(** The first [c] entries of [log] are entries committed in a term up to [T]. *)
Definition safe s tl acks (T : N) (log : list Entry) (c : N) : Prop :=
  c = 0 ∨ ∃ T' j, committed M s tl acks T' j ∧ T' ≤ T ∧ (N.to_nat c ≤ j)%nat ∧
    take (S (N.to_nat c)) log = take (S (N.to_nat c)) (tl T').

Definition grows s tl acks s' tl' acks' : Prop :=
  (∀ T, tl T `prefix_of` tl' T) ∧ (∀ x, x ∈ s.(elected) → x ∈ s'.(elected)) ∧
  ∀ a, a ∈ acks → a ∈ acks'.

Lemma grows_trans s1 tl1 a1 s2 tl2 a2 s3 tl3 a3 :
  grows s1 tl1 a1 s2 tl2 a2 → grows s2 tl2 a2 s3 tl3 a3 → grows s1 tl1 a1 s3 tl3 a3.
Proof.
  intros (Hp & He & Ha) (Hp' & He' & Ha'). split_and!; auto.
  intros T. etrans; [apply Hp|apply Hp'].
Qed.

Lemma committed_grows s tl acks s' tl' acks' T j :
  grows s tl acks s' tl' acks' → committed M s tl acks T j → committed M s' tl' acks' T j.
Proof. intros (? & ? & ?). by apply committed_mono. Qed.

Lemma covered_grows s tl acks s' tl' acks' T T1 c :
  grows s tl acks s' tl' acks' → T ≤ T1 → covered s tl acks T c → covered s' tl' acks' T1 c.
Proof.
  intros Hg HT [?|(T' & j & ? & ? & ?)]; [by left|right]. exists T', j.
  split_and!; [by eapply committed_grows|lia|done].
Qed.

Lemma covered_le s tl acks T c c' : c' ≤ c → covered s tl acks T c → covered s tl acks T c'.
Proof. intros Hle [->|(T' & j & ? & ? & ?)]; [left; lia|right]. exists T', j. split_and!; [done..|lia]. Qed.

Lemma safe_covered s tl acks T log c : safe s tl acks T log c → covered s tl acks T c.
Proof. intros [?|(T' & j & ? & ? & ? & _)]; [by left|right]. by exists T', j. Qed.

(** Safety survives growth of the histories and of the log. *)
Lemma safe_grows s tl acks s' tl' acks' T T1 log log' c c' :
  grows s tl acks s' tl' acks' → T ≤ T1 → log `prefix_of` log' → c' ≤ c →
  c < lenN log → safe s tl acks T log c → safe s' tl' acks' T1 log' c'.
Proof.
  intros Hg HT Hlog Hc Hlen [->|(T' & j & Hcm & ? & ? & E)]; [left; lia|right].
  exists T', j. split_and!; [by eapply committed_grows|lia|lia|].
  destruct Hg as (Hp & _). destruct Hcm as [Hh _]. apply has_lt in Hh.
  rewrite (take_prefix log log') by (done || lia).
  rewrite (take_prefix (tl T') (tl' T')) by (done || lia).
  apply (take_eq_le _ _ (S (N.to_nat c))); [lia|done].
Qed.

(** What is committed in a term up to [T] is in the log of the leader of [T]. *)
Lemma committed_in_leader s tl acks T T' j k :
  CInv M s tl acks → committed M s tl acks T' j → has_leader s T → T' ≤ T → (k ≤ j)%nat →
  take (S k) (tl T) = take (S k) (tl T').
Proof.
  intros HC Hcm Hel HT Hk. destruct (decide (T' = T)) as [->|Hne]; [done|].
  apply (take_eq_le _ _ (S j)); [lia|]. apply log_ok_at.
  - by apply (c_hist _ _ _ _ HC).
  - eapply completeness; try done. lia.
Qed.

(** A log that is part of the leader's is safe as far as it is covered. *)
Lemma covered_safe s tl acks T log c :
  CInv M s tl acks → has_leader s T → log `prefix_of` tl T → c < lenN log →
  covered s tl acks T c → safe s tl acks T log c.
Proof.
  intros HC Hel Hp Hlen [?|(T' & j & Hcm & ? & ?)]; [by left|right].
  exists T', j. split_and!; try done.
  rewrite <- (take_prefix log (tl T)) by (done || lia).
  by eapply committed_in_leader.
Qed.

(** The acknowledgements the leader counts. *)
Definition matched acks n : Prop :=
  n.(state) = StateLeader → ∀ p, p ∈ n.(peers) → 0 < get_index n.(matchIndex) p →
  (p, n.(currentTerm), S (N.to_nat (get_index n.(matchIndex) p))) ∈ acks.

Record csim (k : N) nt s tl acks : Prop := {
  cs_sim : sim M k nt s;
  cs_inv : CInv M s tl acks;
  cs_replies : ∀ r, r ∈ nt.(sent) → r.(Type_) = MsgAppendEntriesResp → r.(Success) = true →
    (r.(From), r.(Message.Term), S (N.to_nat r.(MatchIndex))) ∈ acks;
  cs_match : ∀ i n, nt.(net_nodes) !! i = Some n → matched acks n;
  cs_commit : ∀ i n, nt.(net_nodes) !! i = Some n →
    safe s tl acks n.(currentTerm) n.(raftLog).(entries) n.(raftLog).(commitIndex);
  cs_leader_commit : ∀ m, m ∈ nt.(sent) → m.(Type_) = MsgAppendEntries →
    covered s tl acks m.(Message.Term) m.(LeaderCommit);
}.

(** One node moves: what it must show for itself. *)
Lemma csim_node k k' nt s tl acks i n n' out s' tl' acks' :
  csim k nt s tl acks → nt.(net_nodes) !! i = Some n →
  sim M k' (MkNet (<[i := n']> nt.(net_nodes)) (out ++ nt.(sent))) s' →
  CInv M s' tl' acks' → grows s tl acks s' tl' acks' →
  (∀ r, r ∈ out → r.(Type_) = MsgAppendEntriesResp → r.(Success) = true →
    (r.(From), r.(Message.Term), S (N.to_nat r.(MatchIndex))) ∈ acks') →
  matched acks' n' →
  safe s' tl' acks' n'.(currentTerm) n'.(raftLog).(entries) n'.(raftLog).(commitIndex) →
  (∀ m, m ∈ out → m.(Type_) = MsgAppendEntries →
    covered s' tl' acks' m.(Message.Term) m.(LeaderCommit)) →
  csim k' (MkNet (<[i := n']> nt.(net_nodes)) (out ++ nt.(sent))) s' tl' acks'.
Proof.
  intros [Hsim HC Hrep Hmatch Hcommit Hlc] Hi Hsim' HC' Hg Hout Hmatch' Hsafe Hlc'.
  pose proof Hg as (_ & _ & Hacks). split; try done; cbn.
  - intros r [?|?]%elem_of_app ? ?; [by apply Hout|by apply Hacks, Hrep].
  - intros j nj Hj. destruct (decide (j = i)) as [->|Hne].
    + rewrite lookup_insert_eq in Hj. by injection Hj as <-.
    + rewrite lookup_insert_ne in Hj by done. intros ? p ? ?. by eapply Hacks, Hmatch.
  - intros j nj Hj. destruct (decide (j = i)) as [->|Hne].
    + rewrite lookup_insert_eq in Hj. by injection Hj as <-.
    + rewrite lookup_insert_ne in Hj by done.
      destruct (sim_node _ _ _ _ Hsim _ _ Hj) as (_ & _ & Hok & _).
      eapply safe_grows; [done|done|done|done| |by eapply Hcommit].
      apply wf_commit, Hok.
  - intros m [?|?]%elem_of_app ?; [by apply Hlc'|]. eapply covered_grows; [done|done|by apply Hlc].
Qed.

Lemma csim_plain k nt s tl acks i n n' out s' tl' :
  csim k nt s tl acks → nt.(net_nodes) !! i = Some n → plain n n' out →
  sim M (k + 1) (MkNet (<[i := n']> nt.(net_nodes)) (out ++ nt.(sent))) s' →
  CInv M s' tl' acks → grows s tl acks s' tl' acks →
  csim (k + 1) (MkNet (<[i := n']> nt.(net_nodes)) (out ++ nt.(sent))) s' tl' acks.
Proof.
  intros Hcs Hi [Hc Hlog Ht Hm Hout] Hsim' HC' Hg.
  destruct (sim_node _ _ _ _ (cs_sim _ _ _ _ _ Hcs) _ _ Hi) as (_ & Hp & Hok & _).
  destruct (sim_node _ _ _ _ Hsim' i n' (lookup_insert_eq _ _ _)) as (_ & Hp' & _ & _).
  assert (safe s' tl' acks (currentTerm n') (entries (raftLog n')) (commitIndex (raftLog n')))
    as Hsafe.
  { eapply safe_grows; [done|done|done|done| |by eapply (cs_commit _ _ _ _ _ Hcs)].
    apply wf_commit, Hok. }
  apply (csim_node k _ nt s tl acks i n n' out s' tl' acks); try done.
  - intros r Hr Hty Hs. destruct (Hout r Hr) as [_ Hno]. by rewrite Hno in Hs.
  - intros Hst p Hpp Hpos. destruct (Hm Hst) as [Hz|(Hst0 & -> & E)]; [by rewrite Hz in Hpos|].
    rewrite E in *. apply (cs_match _ _ _ _ _ Hcs i n); try done.
    destruct (p_peer _ _ _ Hp' Hpp) as [Hin Hne]. destruct Hp as [_ _ _ Hmem].
    rewrite <- Hmem in Hin. apply elem_of_list_to_set, elem_of_cons in Hin as [->|]; [|done].
    destruct Hne. symmetry.
    destruct (sim_node _ _ _ _ Hsim' i n' (lookup_insert_eq _ _ _)) as (-> & _).
    by destruct (sim_node _ _ _ _ (cs_sim _ _ _ _ _ Hcs) _ _ Hi) as (-> & _).
  - intros m Hmm Hty. destruct (Hout m Hmm) as [Hae _]. destruct (Hae Hty) as [-> ->].
    by eapply safe_covered.
Qed.

(** An honest follower holds a part of the leader's log. *)
Lemma accepted_part k nt s tl acks i n m full log' :
  csim k nt s tl acks → nt.(net_nodes) !! i = Some n → m ∈ nt.(sent) → accepted n m →
  log' = accept n.(raftLog).(entries) m → tl m.(Message.Term) `prefix_of` full →
  (lenN log' ≤ m.(PrevLogIndex) + 1 + lenN m.(Message.Entries)) →
  log' `prefix_of` full.
Proof.
  intros [Hsim HC _ _ _ _] Hi Hm (Hty & _ & Hprev) -> Hfull Hlen.
  apply (sim_net _ _ _ _ Hsim) in Hm.
  pose proof (e_append _ _ (reachable_EInv _ HM _ (sim_reach _ _ _ _ Hsim)) _ Hm Hty) as Hel.
  assert (log_ok tl (tl (Message.Term m))) as Hok by (apply (c_hist _ _ _ _ HC); by eexists).
  pose proof (sim_log _ _ _ _ _ _ Hsim Hi) as Hlog. rewrite <- Hlog in *.
  etrans; [|exact Hfull].
  destruct (accept_cases tl _ _ m (c_logs _ _ _ _ HC i) Hok (c_msgs _ _ _ _ HC _ Hm Hty) Hprev)
    as [[E Htake]|[-> _]]; [|apply prefix_take].
  rewrite E in *. rewrite <- (take_ge (alog (anode s i)) (msg_end m)).
  - rewrite Htake. apply prefix_take.
  - unfold msg_end. lia.
Qed.

Lemma lastIndex_length l : wf l → S (N.to_nat (lastIndex l)) = length l.(entries).
Proof. intros Hwf. pose proof (wf_nonempty _ Hwf). unfold lastIndex. lia. Qed.

(** What accepting a message does, and what an honest reply means. *)
Lemma accepted_result k n m n' out :
  wf n.(raftLog) → msg_ok k m → k + 1 < u64_modulus → accepted n m → n.(crashed) = false →
  Step n m = Ret (n', out) →
  out = [NewAppendEntriesResp n.(id) m.(From) m.(Message.Term) true (lastIndex n'.(raftLog))] ∧
  n'.(raftLog).(entries) = accept n.(raftLog).(entries) m ∧
  n'.(raftLog).(commitIndex) ≤ N.max n.(raftLog).(commitIndex) m.(LeaderCommit) ∧
  n'.(state) = StateFollower ∧ n'.(currentTerm) = m.(Message.Term) ∧
  (overclaims n m = false →
   lastIndex n'.(raftLog) ≤ m.(PrevLogIndex) + lenN m.(Message.Entries) ∨
   lastTerm n'.(raftLog) = m.(Message.Term)).
Proof.
  intros Hwf [_ _ Hml Hmc _] Hk (Hty & Hle & Hprev) Hcr HStep. unfold overclaims.
  rewrite HStep. unfold Step in HStep. rewrite Hcr, Hty in HStep.
  destruct (append_entries_accepted n m Hwf Hle Hprev Hmc) as
    (n1 & E & Hent & Hci & Hst & Ht & _); [lia|].
  rewrite HStep in E. injection E as <- ->. cbn.
  set (l := reconcile_log (raftLog n) (PrevLogIndex m + 1) (Message.Entries m)) in *.
  assert (lastIndex l = lastIndex (raftLog n')) as Hlast by (unfold lastIndex; by rewrite Hent).
  rewrite Hlast in *. split_and!; try done.
  - pose proof (reconcile_commit_bound (PrevLogIndex m + 1)
      (drop (N.to_nat (PrevLogIndex m + 1)) (entries (raftLog n))) (Message.Entries m)
      (commitIndex (raftLog n))) as Hb.
    change (commitIndex l ≤ commitIndex (raftLog n)) in Hb. lia.
  - rewrite Ht. intros [Hs|Hs]%andb_false_iff; [left; by apply N.ltb_ge|right].
    by apply negb_false_iff, N.eqb_eq in Hs.
Qed.

(** After an honest reply the follower holds a part of the leader's log. *)
Lemma honest_part k nt s tl acks i n m n' s' tl' :
  csim k nt s tl acks → nt.(net_nodes) !! i = Some n → m ∈ nt.(sent) → accepted n m →
  CInv M s' tl' acks → (∀ T, tl T `prefix_of` tl' T) →
  s'.(anode) i = anode_of n' → wf n'.(raftLog) →
  n'.(raftLog).(entries) = accept n.(raftLog).(entries) m →
  lastIndex n'.(raftLog) ≤ m.(PrevLogIndex) + lenN m.(Message.Entries) ∨
    lastTerm n'.(raftLog) = m.(Message.Term) →
  n'.(raftLog).(entries) `prefix_of` tl' m.(Message.Term).
Proof.
  intros Hcs Hi Hm Hacc HC' Hpre Ha' Hwf' Hent [Hshort|<-].
  - eapply accepted_part; try done. pose proof (lastIndex_length _ Hwf'). lia.
  - pose proof (c_logs _ _ _ _ HC' i) as Hok. rewrite Ha' in Hok. cbn in Hok.
    destruct (last (entries (raftLog n'))) as [e|] eqn:He.
    + unfold lastTerm. rewrite He. by apply log_ok_last.
    + apply last_None in He. pose proof (wf_nonempty _ Hwf') as Hne. rewrite He in Hne.
      cbn in Hne. lia.
Qed.

Lemma csim_accepted k nt s tl acks i n m n' out s' tl' :
  csim k nt s tl acks → nt.(net_nodes) !! i = Some n → m ∈ nt.(sent) →
  k + 1 < u64_modulus → accepted n m → Step n m = Ret (n', out) → n.(crashed) = false →
  overclaims n m = false →
  sim M (k + 1) (MkNet (<[i := n']> nt.(net_nodes)) (out ++ nt.(sent))) s' →
  CInv M s' tl' acks → grows s tl acks s' tl' acks →
  ∃ acks', grows s' tl' acks s' tl' acks' ∧
    csim (k + 1) (MkNet (<[i := n']> nt.(net_nodes)) (out ++ nt.(sent))) s' tl' acks'.
Proof.
  intros Hcs Hi Hm Hk Hacc HStep Hcr Hhon Hsim' HC' Hg.
  pose proof Hcs as [Hsim _ _ _ Hcommit Hlc]. pose proof Hacc as (Hty & Hle & _).
  destruct (sim_node _ _ _ _ Hsim _ _ Hi) as (Hid & _ & Hok & _).
  destruct (sim_node _ _ _ _ Hsim' i n' (lookup_insert_eq _ _ _)) as (_ & _ & Hok' & Ha').
  pose proof (nok_wf _ _ Hok') as Hwf'.
  destruct (accepted_result k n m n' out (nok_wf _ _ Hok) (sim_msg _ _ _ _ Hsim _ Hm) Hk Hacc
    Hcr HStep) as (-> & Hent & Hci & Hst & Ht & Hclaim).
  assert (m ∈ net s') as Hm' by (apply (sim_net _ _ _ _ Hsim'); by right).
  pose proof (reachable_EInv _ HM _ (sim_reach _ _ _ _ Hsim')) as HE'.
  assert (has_leader s' (Message.Term m)) as Hel by (eexists; by apply (e_append _ _ HE')).
  pose proof (honest_part _ _ _ _ _ _ _ _ _ _ _ Hcs Hi Hm Hacc HC' (proj1 Hg) Ha' Hwf' Hent
    (Hclaim Hhon)) as Hpart.
  assert (ack_ok s' tl' i) as Hack by (unfold ack_ok; rewrite Ha'; cbn; by rewrite Ht).
  pose proof (CInv_ack M s' tl' acks i (length (entries (raftLog n'))) HE' HC' Hack) as HC2.
  rewrite Ha' in HC2. cbn in HC2. specialize (HC2 (le_n _)). rewrite Ht in HC2.
  set (acks' := _ :: acks) in HC2.
  assert (grows s' tl' acks s' tl' acks') as Hg2 by (split_and!; [done|done|]; intros a ?; by right).
  pose proof (grows_trans _ _ _ _ _ _ _ _ _ Hg Hg2) as Hg3.
  exists acks'. split; [done|].
  eapply csim_node; [done|done|done|exact HC2|done| | | |].
  - intros r ->%list_elem_of_singleton _ _. cbn. rewrite Hid, (lastIndex_length _ Hwf'). left.
  - intros Hl. congruence.
  - rewrite Ht. eapply covered_safe; [exact HC2|done|done|apply wf_commit, Hwf'|].
    eapply covered_le; [exact Hci|].
    destruct (N.max_spec (commitIndex (raftLog n)) (LeaderCommit m)) as [[_ ->]|[_ ->]].
    + eapply covered_grows; [exact Hg3|apply N.le_refl|by apply Hlc].
    + eapply covered_grows; [exact Hg3|exact Hle|]. by eapply safe_covered, Hcommit.
  - by intros r ->%list_elem_of_singleton.
Qed.

(** The leader and the peers it counts are a quorum. *)
Lemma counted_quorum n (P : N → Prop) `{∀ p, Decision (P p)} :
  peers_ok M n → (majority n ≤ 1 + Z.of_nat (length (filter P n.(peers))))%Z →
  quorum M (list_to_set (n.(id) :: filter P n.(peers))).
Proof.
  intros [_ Hnd Hne Hmem] Hmaj. unfold majority, quorum in *.
  assert (list_to_set (id n :: filter P (peers n)) ∩ M = list_to_set (id n :: filter P (peers n)))
    as ->.
  { apply set_eq. intros v. rewrite elem_of_intersection, <- Hmem, !elem_of_list_to_set,
      !elem_of_cons, list_elem_of_filter. tauto. }
  rewrite <- Hmem, !size_list_to_set.
  - cbn [length] in *. pose proof (Z.mul_succ_div_gt (Z.of_nat (length (peers n)) + 1) 2). lia.
  - constructor; [by intros [_ ?]%list_elem_of_filter|by apply NoDup_filter].
  - by constructor.
Qed.

(** An index the leader may commit is committed. *)
Lemma committable_safe s tl acks n c :
  EInv M s → CInv M s tl acks → s.(anode) n.(id) = anode_of n → peers_ok M n →
  n.(state) = StateLeader → matched acks n → committable n c →
  safe s tl acks n.(currentTerm) n.(raftLog).(entries) c.
Proof.
  intros HE HC Ha Hp Hst Hmatch (Hc & Hterm & Hmaj). right.
  pose proof (c_leader _ _ _ _ HC (id n)) as Hl. rewrite Ha in Hl. specialize (Hl Hst). cbn in Hl.
  exists n.(currentTerm), (N.to_nat c). split_and!; [|done|done|by rewrite Hl].
  split; [unfold has; by rewrite <- Hl|].
  exists (list_to_set (n.(id) :: filter (λ p, c ≤ get_index n.(matchIndex) p) n.(peers))).
  split; [by apply counted_quorum|].
  intros v [->|[Hv Hin]%list_elem_of_filter]%elem_of_list_to_set%elem_of_cons.
  - left. pose proof (e_leader _ _ HE (id n)) as Hel. rewrite Ha in Hel. by apply Hel.
  - right. eexists. split; [apply Hmatch; [done|done|lia]|lia].
Qed.

(** What a counted response does. *)
Lemma counted_result n m n' out :
  wf n.(raftLog) → n.(crashed) = false → counted n m → Step n m = Ret (n', out) →
  let n1 := n <| matchIndex := <[m.(From) := m.(MatchIndex)]> n.(matchIndex) |>
              <| nextIndex := <[m.(From) := m.(MatchIndex) +u 1]> n.(nextIndex) |> in
  out = [] ∧ (n' = n1 ∨ ∃ c, committable n1 c ∧
    n' = addEvent (n1 <| raftLog := n1.(raftLog) <| commitIndex := c |> |>) (committedEvent n1 c)).
Proof.
  intros Hwf Hcr (Hty & Ht & Hst & Hs) HStep n1. unfold Step in HStep.
  rewrite Hcr, Hty in HStep. unfold handleAppendEntriesResp in HStep.
  rewrite Ht, N.ltb_irrefl, N.eqb_refl, Hst, bool_decide_eq_true_2, Hs in HStep by done.
  cbn [andb] in HStep. change (_ <| nextIndex := _ |>) with n1 in HStep.
  destruct (advanceCommit_result n1 Hwf) as (n2 & E & Hres). rewrite E in HStep.
  cbn [mbind go_bind] in HStep. injection HStep as <- <-. split; [done|].
  destruct Hres as [[_ ->]|(c & Hc & _ & ->)]; [by left|right]. by exists c.
Qed.

Lemma csim_counted k nt s tl acks i n m n' out s' tl' :
  csim k nt s tl acks → nt.(net_nodes) !! i = Some n → m ∈ nt.(sent) →
  counted n m → Step n m = Ret (n', out) → n.(crashed) = false →
  sim M (k + 1) (MkNet (<[i := n']> nt.(net_nodes)) (out ++ nt.(sent))) s' →
  CInv M s' tl' acks → grows s tl acks s' tl' acks →
  csim (k + 1) (MkNet (<[i := n']> nt.(net_nodes)) (out ++ nt.(sent))) s' tl' acks.
Proof.
  intros Hcs Hi Hm Hcnt HStep Hcr Hsim' HC' Hg.
  pose proof Hcs as [Hsim HC Hrep Hmatch Hcommit _].
  destruct (sim_node _ _ _ _ Hsim _ _ Hi) as (Hid & Hp & [Hwf _ _ _ _ _ _] & _).
  destruct (sim_node _ _ _ _ Hsim' i n' (lookup_insert_eq _ _ _)) as (Hid' & Hp' & _ & Ha').
  destruct (counted_result n m n' out Hwf Hcr Hcnt HStep) as [-> Hres].
  pose proof Hcnt as (Hty & Ht & Hst & Hs). set (n1 := _ <| nextIndex := _ |>) in Hres.
  assert (matched acks n1) as Hm1.
  { intros _ p Hpp. unfold n1, get_index. cbn. rewrite lookup_insert. case_decide as E; cbn.
    - intros _. subst p. rewrite <- Ht. by apply Hrep.
    - intros ?. by apply (Hmatch i n). }
  assert (anode_of n' = anode_of n1 ∧ matched acks n' ∧ currentTerm n' = currentTerm n ∧
    entries (raftLog n') = entries (raftLog n)) as (Han & Hm' & Ht' & Hent).
  { destruct Hres as [->|(c & _ & ->)]; by split_and!. }
  eapply csim_node; try done.
  - by intros r ?%not_elem_of_nil.
  - rewrite Ht', Hent. destruct Hres as [->|(c & Hc & ->)].
    + eapply safe_grows; [exact Hg|apply N.le_refl|apply reflexivity| |apply wf_commit, Hwf|
        by eapply Hcommit]. done.
    + apply (committable_safe s' tl' acks n1 c); try done.
      * by apply reachable_EInv, Hsim'.
      * rewrite <- Han, <- Ha'. cbn. by rewrite <- Hid'.
      * destruct Hp. by split.
  - by intros r ?%not_elem_of_nil.
Qed.

(** ** Whole executions *)

(** A call leaves the network alone, or one node moves: plainly, or by one of the two kinds
    of messages that matter. *)
Lemma exec_cases k nt s a nt' :
  sim M k nt s → k + 3 < u64_modulus → action_ok a → exec nt a = Ret nt' →
  nt' = nt ∨ ∃ i n n' out, nt.(net_nodes) !! i = Some n ∧
    nt' = MkNet (<[i := n']> nt.(net_nodes)) (out ++ nt.(sent)) ∧
    (plain n n' out ∨ ∃ m, a = ADeliver m ∧ m ∈ nt.(sent) ∧ m.(To) = i ∧
      Step n m = Ret (n', out) ∧ n.(crashed) = false ∧ (accepted n m ∨ counted n m)).
Proof.
  intros Hsim Hk Ha.
  assert (∀ i f, (∀ n n' out, nt.(net_nodes) !! i = Some n → node_ok k n → f n = Ret (n', out) →
      plain n n' out ∨ ∃ m, a = ADeliver m ∧ m ∈ nt.(sent) ∧ m.(To) = i ∧
      Step n m = Ret (n', out) ∧ n.(crashed) = false ∧ (accepted n m ∨ counted n m)) →
    on_node nt i f = Ret nt' → nt' = nt ∨ ∃ i n n' out, nt.(net_nodes) !! i = Some n ∧
    nt' = MkNet (<[i := n']> nt.(net_nodes)) (out ++ nt.(sent)) ∧
    (plain n n' out ∨ ∃ m, a = ADeliver m ∧ m ∈ nt.(sent) ∧ m.(To) = i ∧
      Step n m = Ret (n', out) ∧ n.(crashed) = false ∧ (accepted n m ∨ counted n m))) as Hon.
  { intros i f Hf. unfold on_node. destruct (net_nodes nt !! i) as [n|] eqn:Hi.
    2: { intros [= <-]. by left. }
    intros E. go_inv E. destruct a0 as [n' out]. injection E as <-. right.
    destruct (sim_node _ _ _ _ Hsim _ _ Hi) as (_ & _ & Hok & _).
    exists i, n, n', out. split_and!; [done|done|]. by apply (Hf n). }
  destruct a as [i|m|i cmd|i|i|i]; cbn [exec]; [|case_decide as Hm; [|intros [= <-]; by left]|..];
    apply Hon; intros n n' out Hi Hok E; pose proof Hok as [Hwf Hlen _ Ht _ _ _].
  - left. apply Tick_plain; [done|lia|done].
  - destruct (crashed n) eqn:Hcr.
    { left. unfold Step in E. rewrite Hcr in E. injection E as <- <-. apply plain_refl. }
    destruct (decide (accepted n m)); [right; exists m; by auto 10|].
    destruct (decide (counted n m)); [right; exists m; by auto 10|].
    left. by apply (Step_plain n m).
  - go_inv E. destruct a as [n1 err]. injection E as <- <-. left.
    eapply Propose_plain; [done| |done]. lia.
  - go_inv E. injection E as <- <-. left. by apply ReplicateNow_plain.
  - injection E as <- <-. left. by apply (Crash_plain k).
  - go_inv E. destruct a as [n1 err]. injection E as <- <-. left.
    eapply Restart_plain; [done| |done]. lia.
Qed.

Lemma csim_mono k k' nt s tl acks s' tl' :
  csim k nt s tl acks → sim M k' nt s' → CInv M s' tl' acks → grows s tl acks s' tl' acks →
  csim k' nt s' tl' acks.
Proof.
  intros [Hsim HC Hrep Hmatch Hcommit Hlc] Hsim' HC' Hg. split; try done.
  - intros i n Hi. destruct (sim_node _ _ _ _ Hsim _ _ Hi) as (_ & _ & Hok & _).
    eapply safe_grows; [exact Hg|apply N.le_refl|apply reflexivity|apply N.le_refl|
      apply wf_commit, Hok|by eapply Hcommit].
  - intros m ? ?. eapply covered_grows; [exact Hg|apply N.le_refl|by apply Hlc].
Qed.

Lemma exec_csim k nt s tl acks a :
  csim k nt s tl acks → k + 3 < u64_modulus → action_ok a → honest nt a = true →
  ∃ nt' s' tl' acks', exec nt a = Ret nt' ∧ grows s tl acks s' tl' acks' ∧
    csim (k + 1) nt' s' tl' acks'.
Proof.
  intros Hcs Hk Ha Hhon. pose proof Hcs as [Hsim HC _ _ _ _].
  destruct (exec_sim M k nt s a HM Hsim Hk Ha) as (nt' & s' & E & Hsteps & Hsim').
  pose proof (reachable_EInv _ HM _ (sim_reach _ _ _ _ Hsim)) as HE.
  destruct (steps_CInv M HM s s' tl acks HE HC Hsteps) as (tl' & Hpre & HC').
  assert (grows s tl acks s' tl' acks) as Hg.
  { split_and!; [done| |done]. intros x. by apply (steps_elected M). }
  destruct (exec_cases k nt s a nt' Hsim Hk Ha E) as [->|(i & n & n' & out & Hi & -> & Hcase)].
  { exists nt, s', tl', acks. split_and!; [done|done|]. by apply (csim_mono k _ _ s tl). }
  destruct Hcase as [Hplain|(m & -> & Hm & Hto & HStep & Hcr & [Hacc|Hcnt])].
  - eexists _, s', tl', acks. split_and!; [done|done|]. by apply (csim_plain k nt s tl acks i n).
  - unfold honest in Hhon. rewrite decide_True, Hto, Hi in Hhon by done. apply negb_true_iff in Hhon.
    destruct (csim_accepted k nt s tl acks i n m n' out s' tl') as (acks' & Hg' & Hcs');
      [done|done|done|lia|done..|].
    eexists _, s', tl', acks'. split_and!; [done| |done]. by eapply grows_trans.
  - eexists _, s', tl', acks. split_and!; [done|done|].
    by apply (csim_counted k nt s tl acks i n m).
Qed.

Lemma grows_refl s tl acks : grows s tl acks s tl acks.
Proof. by split_and!. Qed.

Lemma exec_all_csim k nt s tl acks acts :
  csim k nt s tl acks → k + lenN acts + 3 ≤ u64_modulus → Forall action_ok acts →
  honest_run nt acts = true →
  ∃ nt' s' tl' acks', exec_all nt acts = Ret nt' ∧ grows s tl acks s' tl' acks' ∧
    csim (k + lenN acts) nt' s' tl' acks'.
Proof.
  intros Hcs Hk Hacts. revert k nt s tl acks Hcs Hk.
  induction Hacts as [|a acts Ha _ IH]; intros k nt s tl acks Hcs Hk Hhon;
    cbn [exec_all honest_run length] in *.
  - exists nt, s, tl, acks. split_and!; [done|apply grows_refl|]. by rewrite N.add_0_r.
  - apply andb_true_iff in Hhon as [Hh Hhon].
    destruct (exec_csim k nt s tl acks a Hcs) as (nt1 & s1 & tl1 & acks1 & E & Hg1 & Hcs1);
      [lia|done|done|]. rewrite E in Hhon |- *. cbn [mbind go_bind].
    destruct (IH (k + 1) nt1 s1 tl1 acks1 Hcs1) as (nt2 & s2 & tl2 & acks2 & E2 & Hg2 & Hcs2);
      [lia|done|].
    exists nt2, s2, tl2, acks2. split_and!; [done|by eapply grows_trans|].
    by replace (k + N.of_nat (S (length acts))) with (k + 1 + lenN acts) by lia.
Qed.
End simulation.

Lemma start_csim members rngs : members_ok members →
  csim (list_to_set members) 0 (start members rngs) init
    (λ T, if decide (T = 0) then [dummy] else []) [].
Proof.
  intros Hm. pose proof (start_sim members rngs Hm) as Hsim.
  assert (∀ i n, net_nodes (start members rngs) !! i = Some n →
    state n = StateFollower ∧ commitIndex (raftLog n) = 0) as Hnew.
  { intros i n Hi. cbn in Hi. apply elem_of_list_to_map_2, list_elem_of_fmap in Hi.
    destruct Hi as (i' & [= -> ->] & _). unfold Node.New.
    match goal with |- context [resetElectionTimer ?x] =>
      destruct (reset_eq x) as (t & r & ->) end. done. }
  split; try done.
  - apply init_CInv.
  - by intros r ?%not_elem_of_nil.
  - intros i n Hi Hst. by rewrite (proj1 (Hnew i n Hi)) in Hst.
  - intros i n Hi. left. apply (Hnew i n Hi).
  - by intros r ?%not_elem_of_nil.
Qed.

(** Two moments of one honest execution, seen from the later one. *)
Lemma honest_states members rngs acts1 acts2 nt1 nt2 :
  members_ok members → lenN (acts1 ++ acts2) + 3 ≤ u64_modulus →
  Forall action_ok (acts1 ++ acts2) →
  honest_run (start members rngs) (acts1 ++ acts2) = true →
  exec_all (start members rngs) acts1 = Ret nt1 → exec_all nt1 acts2 = Ret nt2 →
  let M := list_to_set members in
  ∃ k1 s1 tl1 acks1 k2 s2 tl2 acks2, csim M k1 nt1 s1 tl1 acks1 ∧ csim M k2 nt2 s2 tl2 acks2 ∧
    grows s1 tl1 acks1 s2 tl2 acks2.
Proof.
  intros Hm Hk [Ha1 Ha2]%Forall_app Hhon H1 H2 M. rewrite length_app in Hk.
  assert (∀ nt, honest_run nt (acts1 ++ acts2) = true → exec_all nt acts1 = Ret nt1 →
    honest_run nt acts1 = true ∧ honest_run nt1 acts2 = true) as Hsplit.
  { clear. induction acts1 as [|a acts1 IH]; intros nt; cbn [app honest_run exec_all].
    - by intros ? [= <-].
    - intros [Hh Hr]%andb_true_iff Hex. rewrite Hh. go_inv Hex. rewrite Hret in Hr |- *. by apply IH. }
  destruct (Hsplit _ Hhon H1) as [Hh1 Hh2]. pose proof (mem_zero_set _ Hm) as H0.
  destruct (exec_all_csim M H0 0 _ _ _ _ acts1 (start_csim members rngs Hm))
    as (nt1' & s1 & tl1 & acks1 & E1 & _ & Hcs1); [lia|done|done|].
  rewrite H1 in E1. injection E1 as <-.
  destruct (exec_all_csim M H0 _ _ _ _ _ acts2 Hcs1)
    as (nt2' & s2 & tl2 & acks2 & E2 & Hg & Hcs2); [lia|done|done|].
  rewrite H2 in E2. injection E2 as <-. by eauto 12.
Qed.

(** A node's commit index later, seen from a later state. *)
Lemma safe_later members k s1 tl1 acks1 nt1 s2 tl2 acks2 i n :
  let M := list_to_set members in
  csim M k nt1 s1 tl1 acks1 → grows s1 tl1 acks1 s2 tl2 acks2 →
  nt1.(net_nodes) !! i = Some n →
  safe M s2 tl2 acks2 n.(currentTerm) n.(raftLog).(entries) n.(raftLog).(commitIndex) ∧
  n.(raftLog).(commitIndex) < lenN n.(raftLog).(entries) ∧ wf n.(raftLog).
Proof.
  intros M Hcs Hg Hi.
  destruct (sim_node _ _ _ _ (cs_sim _ _ _ _ _ _ Hcs) _ _ Hi) as (_ & _ & Hok & _).
  split_and!; [|apply wf_commit, Hok|apply Hok].
  eapply safe_grows; [exact Hg|apply N.le_refl|apply reflexivity|apply N.le_refl|
    apply wf_commit, Hok|by apply (cs_commit _ _ _ _ _ _ Hcs i)].
Qed.

Lemma wf_take1 l l' : wf l → wf l' → take 1 l.(entries) = take 1 l'.(entries).
Proof.
  intros Hwf Hwf'. rewrite !(take_S_r _ _ dummy) by (by apply wf_head). by rewrite !take_0.
Qed.

Lemma safe_agree M s tl acks T1 T2 l1 l2 c1 c2 :
  CInv M s tl acks → wf l1 → wf l2 → c1 ≤ c2 →
  safe M s tl acks T1 l1.(entries) c1 → safe M s tl acks T2 l2.(entries) c2 →
  take (S (N.to_nat c1)) l1.(entries) = take (S (N.to_nat c1)) l2.(entries).
Proof.
  intros HC Hwf1 Hwf2 Hle [->|(T1' & j1 & Hc1 & _ & Hj1 & E1)] Hs2; [by apply wf_take1|].
  destruct Hs2 as [->|(T2' & j2 & Hc2 & _ & Hj2 & E2)].
  { assert (c1 = 0) as -> by lia. by apply wf_take1. }
  apply (take_eq_le _ _ _ (S (N.to_nat c1))) in E2; [|lia]. rewrite E1, E2.
  eapply committed_agree; try done. lia.
Qed.

Lemma safe_in_leader M s tl acks T T1 l1 l2 c1 :
  CInv M s tl acks → wf l1 → wf l2 → has_leader s T → l2.(entries) = tl T → T1 ≤ T →
  safe M s tl acks T1 l1.(entries) c1 →
  take (S (N.to_nat c1)) l1.(entries) = take (S (N.to_nat c1)) l2.(entries).
Proof.
  intros HC Hwf1 Hwf2 Hel Hlog HT [->|(T1' & j1 & Hc1 & ? & Hj1 & ->)]; [by apply wf_take1|].
  rewrite Hlog. symmetry. eapply committed_in_leader; try done. lia.
Qed.

Lemma committed_prefix l1 l2 c1 c2 :
  take (S (N.to_nat c1)) l1 = take (S (N.to_nat c1)) l2 → c1 ≤ c2 →
  sub l1 1 (c1 + 1) `prefix_of` sub l2 1 (c2 + 1).
Proof.
  intros E Hle. assert (∀ l c, sub l 1 (c + 1) = drop 1 (take (S (N.to_nat c)) l)) as Hsub.
  { intros l c. unfold sub. rewrite skipn_firstn_comm. do 2 f_equal; lia. }
  rewrite !Hsub, E. replace (S (N.to_nat c1)) with (S (N.to_nat c1) `min` S (N.to_nat c2))%nat by lia.
  rewrite <- take_take, !skipn_firstn_comm. apply prefix_take.
Qed.

(** C3: network_commit_safety.  State-machine safety of the honest executions.  If no reply
    in an execution claims more than its message vouches for, then the entries committed by
    any two nodes, at the same or at different moments, agree: one list of committed
    entries is a prefix of the other. *)
Theorem network_commit_safety members rngs acts1 acts2 nt1 nt2 i j n1 n2 :
  members_ok members → lenN (acts1 ++ acts2) + 3 ≤ u64_modulus →
  Forall action_ok (acts1 ++ acts2) →
  honest_run (start members rngs) (acts1 ++ acts2) = true →
  exec_all (start members rngs) acts1 = Ret nt1 → exec_all nt1 acts2 = Ret nt2 →
  net_nodes nt1 !! i = Some n1 → net_nodes nt2 !! j = Some n2 →
  ∃ es1 es2, Node.CommittedEntries n1 = Ret es1 ∧ Node.CommittedEntries n2 = Ret es2 ∧
    (es1 `prefix_of` es2 ∨ es2 `prefix_of` es1).
Proof.
  intros Hm Hk Ha Hhon H1 H2 Hi Hj.
  destruct (honest_states _ _ _ _ _ _ Hm Hk Ha Hhon H1 H2)
    as (k1 & s1 & tl1 & a1 & k2 & s2 & tl2 & a2 & Hcs1 & Hcs2 & Hg).
  destruct (safe_later _ _ _ _ _ _ _ _ _ _ _ Hcs1 Hg Hi) as (Hs1 & Hc1 & Hwf1).
  destruct (safe_later _ _ _ _ _ _ _ _ _ _ _ Hcs2 (grows_refl _ _ _) Hj) as (Hs2 & Hc2 & Hwf2).
  eexists _, _. split; [by apply CommittedEntries_wf|]. split; [by apply CommittedEntries_wf|].
  destruct (N.le_ge_cases (commitIndex (raftLog n1)) (commitIndex (raftLog n2))) as [Hle|Hle];
    [left|right]; apply committed_prefix; try done;
    by eapply safe_agree; [apply (cs_inv _ _ _ _ _ _ Hcs2)|..].
Qed.

(** C4: network_leader_completeness.  Leader completeness of the honest executions: what a
    node has committed is in the log, at the same positions, of every node that leads at
    that moment or later in a term not older than the node's. *)
Theorem network_leader_completeness members rngs acts1 acts2 nt1 nt2 i j n1 n2 k :
  members_ok members → lenN (acts1 ++ acts2) + 3 ≤ u64_modulus →
  Forall action_ok (acts1 ++ acts2) →
  honest_run (start members rngs) (acts1 ++ acts2) = true →
  exec_all (start members rngs) acts1 = Ret nt1 → exec_all nt1 acts2 = Ret nt2 →
  net_nodes nt1 !! i = Some n1 → net_nodes nt2 !! j = Some n2 →
  n2.(state) = StateLeader → n1.(currentTerm) ≤ n2.(currentTerm) →
  N.of_nat k ≤ Node.CommitIndex n1 →
  n1.(raftLog).(entries) !! k = n2.(raftLog).(entries) !! k ∧
  is_Some (n2.(raftLog).(entries) !! k).
Proof.
  intros Hm Hk Ha Hhon H1 H2 Hi Hj Hst HT Hc.
  destruct (honest_states _ _ _ _ _ _ Hm Hk Ha Hhon H1 H2)
    as (k1 & s1 & tl1 & a1 & k2 & s2 & tl2 & a2 & Hcs1 & Hcs2 & Hg).
  destruct (safe_later _ _ _ _ _ _ _ _ _ _ _ Hcs1 Hg Hi) as (Hs1 & Hc1 & Hwf1).
  pose proof Hcs2 as [Hsim2 HC2 _ _ _ _].
  destruct (sim_node _ _ _ _ Hsim2 _ _ Hj) as (_ & _ & Hok2 & Ha2).
  pose proof (reachable_EInv _ (mem_zero_set _ Hm) _ (sim_reach _ _ _ _ Hsim2)) as HE2.
  assert (has_leader s2 (currentTerm n2)) as Hel by (eexists; by eapply sim_leader).
  pose proof (c_leader _ _ _ _ HC2 j) as Hlog. rewrite Ha2 in Hlog. specialize (Hlog Hst).
  pose proof (safe_in_leader _ _ _ _ _ _ _ _ _ HC2 Hwf1 (nok_wf _ _ Hok2) Hel Hlog HT Hs1) as E.
  unfold Node.CommitIndex, Log.CommitIndex in Hc. set (c := commitIndex (raftLog n1)) in *.
  assert (entries (raftLog n1) !! k = entries (raftLog n2) !! k) as Ek.
  { rewrite <- (lookup_take_lt (entries (raftLog n1)) (S (N.to_nat c))), E by lia.
    by rewrite lookup_take_lt by lia. }
  split; [done|]. rewrite <- Ek. apply lookup_lt_is_Some. lia.
Qed.
End commit.

(** ** An honest execution with a change of leader

    Node 1 commits an entry with node 2 and crashes; node 2 takes over, finds node 3 behind,
    and commits an entry of its own with it. *)

#[local] Existing Instance constant_rng.

Definition entry_b : Entry := MkEntry 2 2 [x62].

Definition honest_acts1 : list Action :=
  demo_election ++
  [APropose 1 [x61]; AReplicate 1; ADeliver (NewAppendEntries 1 2 1 0 0 0 [entry_a]);
   ADeliver (NewAppendEntriesResp 2 1 1 true 1)].

Definition honest_acts2 : list Action :=
  ACrash 1 :: repeat (ATick 2) 10 ++
  [ADeliver (NewRequestVote 2 3 2 1 1); ADeliver (NewRequestVoteResp 3 2 2 true);
   APropose 2 [x62]; AReplicate 2; ADeliver (NewAppendEntries 2 3 2 1 1 0 [entry_b]);
   ADeliver (NewAppendEntriesResp 3 2 2 false 0); AReplicate 2;
   ADeliver (NewAppendEntries 2 3 2 0 0 0 [entry_a; entry_b]);
   ADeliver (NewAppendEntriesResp 3 2 2 true 2)].

Definition honest_net1 : Net Z := net_of (exec_all demo_start honest_acts1).
Definition honest_net2 : Net Z := net_of (exec_all honest_net1 honest_acts2).

Lemma honest_demo :
  Forall action_ok (honest_acts1 ++ honest_acts2) ∧
  honest_run demo_start (honest_acts1 ++ honest_acts2) = true ∧
  exec_all demo_start honest_acts1 = Ret honest_net1 ∧
  exec_all honest_net1 honest_acts2 = Ret honest_net2.
Proof. split; [by apply (bool_decide_unpack _)|]. split_and!; by vm_compute. Qed.

Lemma network_commit_safety_witness :
  Node.CommittedEntries (node_at honest_net1 1) = Ret [entry_a] ∧
  Node.CommittedEntries (node_at honest_net2 2) = Ret [entry_a; entry_b] ∧
  ∃ es1 es2, Node.CommittedEntries (node_at honest_net1 1) = Ret es1 ∧
    Node.CommittedEntries (node_at honest_net2 2) = Ret es2 ∧
    (es1 `prefix_of` es2 ∨ es2 `prefix_of` es1).
Proof.
  destruct honest_demo as (Hok & Hhon & H1 & H2).
  split; [by vm_compute|]. split; [by vm_compute|].
  apply (network_commit_safety [1; 2; 3] (λ _, 0%Z) honest_acts1 honest_acts2
    honest_net1 honest_net2 1 2); [apply demo_members|by vm_compute|exact Hok|exact Hhon|
    exact H1|exact H2|by vm_compute..].
Defined.

Lemma network_leader_completeness_witness :
  (node_at honest_net2 2).(state) = StateLeader ∧
  (node_at honest_net1 1).(raftLog).(entries) !! 1%nat =
    (node_at honest_net2 2).(raftLog).(entries) !! 1%nat ∧
  is_Some ((node_at honest_net2 2).(raftLog).(entries) !! 1%nat).
Proof.
  destruct honest_demo as (Hok & Hhon & H1 & H2). split; [by vm_compute|].
  apply (network_leader_completeness [1; 2; 3] (λ _, 0%Z) honest_acts1 honest_acts2
    honest_net1 honest_net2 1 2); [apply demo_members|by vm_compute|exact Hok|exact Hhon|
    exact H1|exact H2|by vm_compute..].
Defined.
