(* ===== verification/Progress.v ===== *)
(** * Progress: a leader brings its followers up to date and commits

    The theorems of [Network] say what cannot happen; this file shows what can be made to
    happen.  An exchange is one [ReplicateNow] of the leader, the delivery of its message to
    one follower, and the delivery of the reply.  A follower whose log is not longer than
    the leader's has the leader's log after at most [nextIndex] exchanges ([catch_up]): each
    rejected one lowers [nextIndex] by one, an accepted one completes the log.  Doing this
    for every follower commits the leader's log, and one more message to each lets the
    followers commit it too ([network_commits]).  The bound on the follower's log is needed: a follower that is too long is never repaired
    ([overrun_follower_stuck]). *)
From S2P Require Import Prelude Log LogPersist Message Node.
From S2P Require Import Spec SpecElection SpecLog NodeFacts Refine NodeSpec Network.
From Stdlib Require Import Strings.Byte.
Open Scope N_scope.

(** ** Conflict resolution against a longer log *)

Lemma reconcile_longer old new :
  (∀ k o e, old !! k = Some o → new !! k = Some e → o.(Log.Term) = e.(Log.Term) → o = e) →
  (length old ≤ length new)%nat → reconcile old new = new.
Proof.
  revert new. induction old as [|o os IH]; intros new Hag Hle; [by rewrite reconcile_nil_l|].
  destruct new as [|e es]; [cbn in Hle; lia|]. cbn [reconcile].
  destruct (N.eqb_spec o.(Log.Term) e.(Log.Term)) as [Ht|]; [|done].
  rewrite (Hag 0%nat o e) by done. f_equal. apply IH; [|cbn in Hle; lia].
  intros k o' e' Ho He. by apply (Hag (S k)).
Qed.

(** Log matching of two logs, as [Network] provides it. *)
Definition matching (l1 l2 : list Entry) : Prop :=
  ∀ k e1 e2, l1 !! k = Some e1 → l2 !! k = Some e2 → e1.(Log.Term) = e2.(Log.Term) →
    take (S k) l1 = take (S k) l2.

Lemma matching_entry l1 l2 k e1 e2 :
  matching l1 l2 → l1 !! k = Some e1 → l2 !! k = Some e2 →
  e1.(Log.Term) = e2.(Log.Term) → e1 = e2.
Proof.
  intros Hm H1 H2 Ht. pose proof (Hm _ _ _ H1 H2 Ht) as E.
  apply (f_equal (λ l, l !! k)) in E. rewrite !lookup_take_lt in E by lia. congruence.
Qed.

Section progress.
  Context {R : Type} `{RNG R}.
  Implicit Types (n l f : Node R) (m : Message).

(** ** One exchange between a leader and a follower *)

Lemma go_map_in {A B} (g : A → go B) xs ys x y :
  go_map g xs = Ret ys → x ∈ xs → g x = Ret y → y ∈ ys.
Proof.
  revert ys. induction xs as [|x' xs IH]; intros ys Hm Hin Hy; [by apply not_elem_of_nil in Hin|].
  cbn in Hm. go_inv Hm. go_inv Hm. injection Hm as <-.
  apply elem_of_cons in Hin as [->|Hin]; [rewrite Hret in Hy; injection Hy as ->; left|].
  right. by apply (IH _ Hret0).
Qed.

(** The message a leader sends to [j] when [j]'s [nextIndex] is in range. *)
Definition append_for l (j : N) : Message :=
  let ni := get_index l.(nextIndex) j in
  NewAppendEntries l.(id) j l.(currentTerm) (ni - 1)
    (from_option Log.Term 0 (l.(raftLog).(entries) !! N.to_nat (ni - 1)))
    l.(raftLog).(commitIndex) (drop (N.to_nat ni) l.(raftLog).(entries)).

Lemma replicate_sends l j :
  wf l.(raftLog) → l.(state) = StateLeader → l.(crashed) = false → j ∈ l.(peers) →
  1 ≤ get_index l.(nextIndex) j ≤ lastIndex l.(raftLog) + 1 →
  ∃ out, ReplicateNow l = Ret out ∧ append_for l j ∈ out.
Proof.
  intros Hwf Hst Hcr Hj Hni. unfold ReplicateNow.
  rewrite bool_decide_eq_true_2, Hcr by done. cbn [negb orb].
  destruct (broadcast_spec l Hwf) as (out & E & _). exists out. split; [done|].
  unfold broadcastAppendEntries in E. rewrite (Last_wf _ Hwf) in E. cbn [mbind go_bind] in E.
  by apply (go_map_in _ _ _ _ _ E Hj), appendEntriesFor_exact.
Qed.

(** What the exchanges keep of a leader, apart from its view of [j]. *)
Record same_leader (j : N) l l' : Prop := {
  sl_id : l'.(id) = l.(id);
  sl_peers : l'.(peers) = l.(peers);
  sl_state : l'.(state) = l.(state);
  sl_term : l'.(currentTerm) = l.(currentTerm);
  sl_crashed : l'.(crashed) = l.(crashed);
  sl_entries : l'.(raftLog).(entries) = l.(raftLog).(entries);
  sl_next : ∀ p, p ≠ j → get_index l'.(nextIndex) p = get_index l.(nextIndex) p;
  sl_match : ∀ p, p ≠ j → get_index l'.(matchIndex) p = get_index l.(matchIndex) p;
}.

Lemma same_leader_refl j l : same_leader j l l.
Proof. by split. Qed.

Lemma same_leader_trans j l1 l2 l3 :
  same_leader j l1 l2 → same_leader j l2 l3 → same_leader j l1 l3.
Proof.
  intros [] []. split; try congruence; intros p Hp;
    [rewrite sl_next1 by done|rewrite sl_match1 by done]; auto.
Qed.

(** Nothing is left to commit. *)
Definition settled l : Prop := ∀ i, ¬ committable l i.

Lemma advanceCommit_settles l :
  wf l.(raftLog) → ∃ l', advanceCommit l = Ret l' ∧ settled l' ∧
    (∀ j, same_leader j l l') ∧ l'.(nextIndex) = l.(nextIndex) ∧ l'.(matchIndex) = l.(matchIndex).
Proof.
  intros Hwf. destruct (advanceCommit_result l Hwf) as (l' & E & Hres). exists l'.
  split; [done|]. destruct Hres as [(Hno & ->)|(i & Hi & Hmax & ->)].
  - split; [done|]. split; [intros j; apply same_leader_refl|done].
  - split; [|split; [by split|done]]. intros i' (Hc & Hrest). cbn in Hc.
    assert (i' ≤ i); [|lia]. apply Hmax. split; [|done]. destruct Hi as (Hi & _). lia.
Qed.

Lemma success_response l j mi :
  wf l.(raftLog) → l.(state) = StateLeader → l.(crashed) = false → mi + 1 < u64_modulus →
  ∃ l', Step l (NewAppendEntriesResp j l.(id) l.(currentTerm) true mi) = Ret (l', []) ∧
    same_leader j l l' ∧ settled l' ∧
    get_index l'.(matchIndex) j = mi ∧ get_index l'.(nextIndex) j = mi + 1.
Proof.
  intros Hwf Hst Hcr Hmi. unfold Step. rewrite Hcr. cbn [NewAppendEntriesResp Type_].
  unfold handleAppendEntriesResp. cbn [NewAppendEntriesResp Message.Term Success From MatchIndex].
  rewrite N.ltb_irrefl, N.eqb_refl, bool_decide_eq_true_2 by done. cbn [andb].
  rewrite u64_add_small by done. set (l1 := _ <| nextIndex := _ |>).
  destruct (advanceCommit_settles l1 Hwf) as (l' & E & Hs & Hsl & Hni & Hmm).
  rewrite E. cbn [mbind go_bind]. exists l'. split_and!; [done| |done| |].
  - apply (same_leader_trans j l l1); [|done]. split; try done;
      intros p Hp; unfold get_index; cbn; by rewrite lookup_insert_ne.
  - rewrite Hmm. unfold get_index. cbn. by rewrite lookup_insert_eq.
  - rewrite Hni. unfold get_index. cbn. by rewrite lookup_insert_eq.
Qed.

Lemma failure_response l r j mi :
  l.(state) = StateLeader → l.(crashed) = false →
  1 < get_index l.(nextIndex) j < u64_modulus →
  r = NewAppendEntriesResp j l.(id) l.(currentTerm) false mi →
  ∃ l', Step l r = Ret (l', []) ∧ same_leader j l l' ∧
    get_index l'.(nextIndex) j = get_index l.(nextIndex) j - 1.
Proof.
  intros Hst Hcr Hni ->. unfold Step. rewrite Hcr. cbn [NewAppendEntriesResp Type_].
  unfold handleAppendEntriesResp. cbn [NewAppendEntriesResp Message.Term Success From].
  rewrite N.ltb_irrefl, N.eqb_refl, bool_decide_eq_true_2 by done. cbn [andb].
  rewrite (proj2 (N.ltb_lt _ _)) by lia. rewrite u64_sub_small by (unfold is_u64; lia).
  eexists. split; [done|]. split.
  - split; try done. intros p Hp. unfold get_index. cbn. by rewrite lookup_insert_ne.
  - unfold get_index at 1. cbn. by rewrite lookup_insert_eq.
Qed.

(** A follower [f] of the leader [l] that can be brought up to date. *)
Record behind l f : Prop := {
  bh_crashed : f.(crashed) = false;
  bh_term : f.(currentTerm) ≤ l.(currentTerm);
  bh_length : (length f.(raftLog).(entries) ≤ length l.(raftLog).(entries))%nat;
  bh_next : 1 ≤ get_index l.(nextIndex) f.(id) ≤ lastIndex l.(raftLog) + 1;
}.

(** The follower's side of an exchange. *)
Lemma follower_accepts l f :
  wf l.(raftLog) → wf f.(raftLog) → matching l.(raftLog).(entries) f.(raftLog).(entries) →
  behind l f →
  prev_matches f.(raftLog).(entries) (append_for l f.(id)).(PrevLogIndex)
    (append_for l f.(id)).(PrevLogTerm) →
  ∃ f', Step f (append_for l f.(id)) = Ret (f',
      [NewAppendEntriesResp f.(id) l.(id) l.(currentTerm) true (lastIndex l.(raftLog))]) ∧
    f'.(raftLog).(entries) = l.(raftLog).(entries) ∧
    l.(raftLog).(commitIndex) ≤ f'.(raftLog).(commitIndex) ≤ lastIndex l.(raftLog) ∧
    f'.(currentTerm) = l.(currentTerm) ∧ f'.(crashed) = false ∧ f'.(id) = f.(id).
Proof.
  intros Hwl Hwf Hm [Hcr Ht Hlen Hni] Hprev. unfold Step. rewrite Hcr.
  change (Type_ (append_for l (id f))) with MsgAppendEntries. cbv iota.
  set (msg := append_for l (id f)) in *. set (ni := get_index (nextIndex l) (id f)) in *.
  pose proof (wf_size _ Hwl) as Hsz. pose proof (wf_nonempty _ Hwl) as Hne.
  assert (Message.Entries msg = drop (N.to_nat ni) (entries (raftLog l))) as Hes by done.
  assert (PrevLogIndex msg = ni - 1) as Hpi by done. unfold lastIndex in Hni.
  assert (accept (entries (raftLog f)) msg = entries (raftLog l)) as Hacc.
  { unfold accept. rewrite Hes, Hpi. replace (ni - 1 + 1) with ni by lia.
    transitivity (take (N.to_nat ni) (entries (raftLog l)) ++
                  drop (N.to_nat ni) (entries (raftLog l))); [|apply take_drop]. f_equal.
    - unfold prev_matches in Hprev. rewrite Hpi in Hprev.
      replace (N.to_nat ni) with (S (N.to_nat (ni - 1))) by lia.
      destruct Hprev as [->|Hp].
      + by rewrite !(take_S_r _ _ dummy), !take_0 by (apply wf_head; done).
      + destruct (_ !! N.to_nat (ni - 1)) as [b|] eqn:Eb in Hp; [|done].
        destruct (lookup_lt_is_Some_2 (entries (raftLog l)) (N.to_nat (ni - 1))) as [a Ea]; [lia|].
        symmetry. apply (Hm _ a b); [done|done|]. cbn in Hp. unfold msg, append_for in Hp.
        fold ni in Hp. cbn in Hp. rewrite Ea in Hp. cbn in Hp. congruence.
    - apply reconcile_longer; [|rewrite !length_drop; lia].
      intros k o e Ho He Hoe. rewrite lookup_drop in Ho, He. symmetry.
      by apply (matching_entry _ _ _ _ _ Hm He Ho). }
  assert (contig (PrevLogIndex msg + 1) (Message.Entries msg)) as Hcon.
  { rewrite Hes, Hpi. replace (ni - 1 + 1) with (0 + N.of_nat (N.to_nat ni)) by lia.
    apply contig_drop, wf_contig, Hwl. }
  assert (PrevLogIndex msg + 1 + lenN (Message.Entries msg) < u64_modulus) as Hm64
    by (rewrite Hes, Hpi, length_drop; lia).
  destruct (append_entries_accepted f msg) as (f' & E & He & Hc & _ & Ht' & _ & Hid & Hcr');
    [done..|].
  set (rl := reconcile_log _ _ _) in E, Hc.
  assert (entries rl = entries (raftLog l)) as Hrl by (etrans; [|apply Hacc]; done).
  assert (wf rl) as Hwr%wf_commit.
  { apply reconcile_log_wf; [done|lia|by apply prev_matches_le|done|done]. }
  pose proof (wf_commit _ Hwl) as Hcl. unfold lastIndex in E, Hc |- *. rewrite Hrl in E, Hc, Hwr.
  exists f'. rewrite Hacc in He. split; [done|]. split; [done|].
  change (LeaderCommit msg) with (commitIndex (raftLog l)) in Hc.
  split; [lia|split_and!; congruence || done].
Qed.

Lemma follower_rejects l f :
  wf f.(raftLog) → behind l f →
  ¬ prev_matches f.(raftLog).(entries) (append_for l f.(id)).(PrevLogIndex)
    (append_for l f.(id)).(PrevLogTerm) →
  ∃ f', Step f (append_for l f.(id)) = Ret (f',
      [NewAppendEntriesResp f.(id) l.(id) l.(currentTerm) false (lastIndex f.(raftLog))]) ∧
    f'.(raftLog) = f.(raftLog) ∧
    f'.(currentTerm) = l.(currentTerm) ∧ f'.(crashed) = false ∧ f'.(id) = f.(id) ∧
    1 < get_index l.(nextIndex) f.(id).
Proof.
  intros Hwf [Hcr Ht Hlen Hni] Hprev. unfold Step. rewrite Hcr.
  change (Type_ (append_for l (id f))) with MsgAppendEntries. cbv iota.
  destruct (append_entries_rejected f (append_for l (id f)) Hwf Ht Hprev)
    as (f' & E & Hl & _ & Ht' & Hid & Hcr'). exists f'. rewrite E.
  split_and!; [done|done|done|congruence|done|].
  destruct (N.le_gt_cases (get_index (nextIndex l) (id f)) 1) as [Hle|]; [|done].
  destruct Hprev. left. change (get_index (nextIndex l) (id f) - 1 = 0). lia.
Qed.

(** ** The same in a network *)

Lemma exec_on nt i n g n' out :
  net_nodes nt !! i = Some n → g n = Ret (n', out) →
  on_node nt i g = Ret (MkNet (<[i := n']> (net_nodes nt)) (out ++ sent nt)).
Proof. intros Hi Hg. unfold on_node. by rewrite Hi, Hg. Qed.

Lemma sim_matching M k (nt : Net R) s i j l f :
  (0 : N) ∉ M → sim M k nt s → net_nodes nt !! i = Some l → net_nodes nt !! j = Some f →
  matching l.(raftLog).(entries) f.(raftLog).(entries).
Proof.
  intros H0 Hsim Hi Hj. intros p e1 e2.
  rewrite <- (sim_log _ _ _ _ _ _ Hsim Hi), <- (sim_log _ _ _ _ _ _ Hsim Hj).
  apply LInv_matching. eapply (reachable_LInv M); [done|apply Hsim].
Qed.

(** The outcome of bringing [f] closer to [l]: the new leader and follower in the new
    network, everybody else untouched. *)
Record exchanged (nt nt' : Net R) (i j : N) l l' f' : Prop := {
  ex_leader : net_nodes nt' !! i = Some l';
  ex_follower : net_nodes nt' !! j = Some f';
  ex_others : ∀ p, p ≠ i → p ≠ j → net_nodes nt' !! p = net_nodes nt !! p;
  ex_same : same_leader j l l';
  ex_crashed : f'.(crashed) = false;
  ex_term : f'.(currentTerm) = l.(currentTerm);
}.

(** The follower has caught up. *)
Definition caught_up (j : N) l l' f' : Prop :=
  f'.(raftLog).(entries) = l.(raftLog).(entries) ∧ settled l' ∧
  get_index l'.(matchIndex) j = lastIndex l.(raftLog) ∧
  get_index l'.(nextIndex) j = lastIndex l.(raftLog) + 1.

Lemma exchange_runs (nt : Net R) i j l f :
  net_nodes nt !! i = Some l → net_nodes nt !! j = Some f → i ≠ j →
  l.(id) = i → f.(id) = j → j ∈ l.(peers) →
  wf l.(raftLog) → wf f.(raftLog) → matching l.(raftLog).(entries) f.(raftLog).(entries) →
  l.(state) = StateLeader → l.(crashed) = false → behind l f →
  ∃ acts nt' l' f', length acts = 3%nat ∧ Forall friendly acts ∧
    exec_all nt acts = Ret nt' ∧ exchanged nt nt' i j l l' f' ∧
    (caught_up j l l' f' ∨
     f'.(raftLog) = f.(raftLog) ∧ 1 < get_index l.(nextIndex) j ∧
     get_index l'.(nextIndex) j = get_index l.(nextIndex) j - 1).
Proof.
  intros Hi Hj Hij Hidl Hidf Hpeer Hwl Hwf Hm Hst Hcr Hb.
  pose proof Hb as [Hcrf Htf Hlen Hni]. rewrite Hidf in Hni.
  destruct (replicate_sends l j Hwl Hst Hcr Hpeer Hni) as (out & Hout & Hin).
  pose proof (wf_size _ Hwl) as Hsz. pose proof (wf_nonempty _ Hwl) as Hne.
  assert (∃ f' l' r, Step f (append_for l j) = Ret (f', [r]) ∧ Step l r = Ret (l', []) ∧
    r.(To) = i ∧ same_leader j l l' ∧ f'.(currentTerm) = l.(currentTerm) ∧
    f'.(crashed) = false ∧
    (caught_up j l l' f' ∨
     f'.(raftLog) = f.(raftLog) ∧ 1 < get_index l.(nextIndex) j ∧
     get_index l'.(nextIndex) j = get_index l.(nextIndex) j - 1))
    as (f' & l' & r & Hf & Hl & Hto & Hsl & Htf' & Hcf' & Hres).
  { rewrite <- Hidf in Hni |- *.
    destruct (decide (prev_matches (entries (raftLog f)) (PrevLogIndex (append_for l (id f)))
      (PrevLogTerm (append_for l (id f))))) as [Hprev|Hprev].
    - destruct (follower_accepts l f Hwl Hwf Hm Hb Hprev) as (f' & E & He & _ & ? & ? & _).
      destruct (success_response l (id f) (lastIndex (raftLog l)) Hwl Hst Hcr)
        as (l' & El & Hsl & Hset & Hmi & Hni'); [unfold lastIndex; lia|].
      eexists f', l', _. split_and!; [done|done|done|done|done|done|]. left. by split_and!.
    - destruct (follower_rejects l f Hwf Hb Hprev) as (f' & E & Hlog & ? & ? & _ & Hgt).
      destruct (failure_response l _ (id f) (lastIndex (raftLog f)) Hst Hcr ltac:(unfold lastIndex in *; lia)
        eq_refl) as (l' & El & Hsl & Hdec).
      eexists f', l', _. split_and!; [done|done|done|done|done|done|]. right. by split_and!. }
  exists [AReplicate i; ADeliver (append_for l j); ADeliver r].
  eexists _, l', f'. split; [done|]. split; [by repeat constructor|]. split.
  - cbn [exec_all exec].
    rewrite (exec_on nt i l _ l out Hi) by (by rewrite Hout). cbn [mbind go_bind].
    rewrite decide_True by (cbn; set_solver). cbn [To append_for NewAppendEntries].
    rewrite (exec_on _ j f _ f' [r]);
      [|cbn; by rewrite lookup_insert_ne|done]. cbn [mbind go_bind].
    rewrite decide_True by (cbn; set_solver). rewrite Hto.
    rewrite (exec_on _ i l _ l' []);
      [|cbn; rewrite lookup_insert_ne by done; by rewrite lookup_insert_eq|done].
    done.
  - split; [|done]. split; cbn; try done.
    + by rewrite lookup_insert_eq.
    + rewrite lookup_insert_ne by done. by rewrite lookup_insert_eq.
    + intros p Hpi Hpj. by rewrite !lookup_insert_ne.
Qed.

Lemma exchanged_trans nt nt1 nt2 i j l l1 l2 f1 f2 :
  exchanged nt nt1 i j l l1 f1 → exchanged nt1 nt2 i j l1 l2 f2 →
  exchanged nt nt2 i j l l2 f2.
Proof.
  intros [] []. split; try done.
  - intros p ? ?. rewrite ex_others1 by done. auto.
  - by apply (same_leader_trans j l l1).
  - rewrite ex_term1. apply ex_same0.
Qed.

(** After at most [nextIndex] exchanges the follower has the leader's log. *)
Lemma catch_up M k (nt : Net R) s i j l f :
  (0 : N) ∉ M → sim M k nt s → net_nodes nt !! i = Some l → net_nodes nt !! j = Some f →
  i ≠ j → l.(state) = StateLeader → behind l f →
  k + 3 * get_index l.(nextIndex) j + 3 ≤ u64_modulus →
  ∃ acts nt' l' f', lenN acts ≤ 3 * get_index l.(nextIndex) j ∧ Forall friendly acts ∧
    exec_all nt acts = Ret nt' ∧ exchanged nt nt' i j l l' f' ∧ caught_up j l l' f'.
Proof.
  intros H0. remember (N.to_nat (get_index (nextIndex l) j)) as ni eqn:Hn.
  revert k nt s l f Hn. induction ni as [|ni IH]; intros k nt s l f Hn Hsim Hi Hj Hij Hst Hb Hk.
  all: destruct (sim_node _ _ _ _ Hsim _ _ Hi) as (Hidl & Hpl & Hokl & _).
  all: destruct (sim_node _ _ _ _ Hsim _ _ Hj) as (Hidf & Hpf & Hokf & _).
  all: pose proof Hb as [_ _ _ Hni]; rewrite Hidf in Hni; try lia.
  assert (crashed l = false) as Hcr.
  { destruct (crashed l) eqn:E; [|done]. apply (nok_crashed _ _ Hokl) in E. congruence. }
  assert (j ∈ peers l) as Hpeer.
  { pose proof (p_self _ _ Hpf) as Hself. rewrite Hidf, <- (p_members _ _ Hpl) in Hself.
    rewrite elem_of_list_to_set, elem_of_cons in Hself. destruct Hself; [congruence|done]. }
  destruct (exchange_runs nt i j l f Hi Hj Hij Hidl Hidf Hpeer) as
    (acts & nt1 & l1 & f1 & Hlen & Hacts & Hrun & Hex & Hres);
    [apply Hokl|apply Hokf|by apply (sim_matching M k nt s i j)|done..|].
  destruct Hres as [Hdone|(Hlog & Hgt & Hdec)].
  { exists acts, nt1, l1, f1. split_and!; [lia|done..]. }
  destruct (exec_all_sim M k nt s acts H0 Hsim ltac:(lia) (friendly_ok _ Hacts)) as (nt1' & s1 & Hrun' & _ & Hsim1).
  rewrite Hrun in Hrun'. injection Hrun' as <-.
  destruct Hex as [Hi1 Hj1 Hoth Hsl Hcf1 Htf1] eqn:Hex'. clear Hex'.
  pose proof (sl_entries _ _ _ Hsl) as Hent. pose proof (sl_term _ _ _ Hsl) as Hterm.
  destruct (sim_node _ _ _ _ Hsim1 _ _ Hj1) as (Hidf1 & _ & _ & _).
  destruct (IH (k + lenN acts) nt1 s1 l1 f1) as
    (acts2 & nt2 & l2 & f2 & Hlen2 & Hacts2 & Hrun2 & Hex2 & He2 & Hset2 & Hmi2 & Hni2).
  - lia.
  - done.
  - done.
  - done.
  - done.
  - by rewrite (sl_state _ _ _ Hsl).
  - split; [done|lia|rewrite Hlog, Hent; apply Hb|].
    rewrite Hidf1, Hdec. unfold lastIndex in *. rewrite Hent. lia.
  - lia.
  - exists (acts ++ acts2), nt2, l2, f2. rewrite length_app. split_and!; [lia| | | |].
    + by apply Forall_app.
    + rewrite exec_all_app, Hrun. done.
    + by apply (exchanged_trans nt nt1 nt2 i j l l1 l2 f1 f2).
    + unfold lastIndex in *. rewrite Hent in *. by split_and!.
Qed.

(** *** Every follower in turn *)

(** What is left of the leader when all its views may have changed. *)
Record same_core l l' : Prop := {
  sc_id : l'.(id) = l.(id);
  sc_peers : l'.(peers) = l.(peers);
  sc_state : l'.(state) = l.(state);
  sc_term : l'.(currentTerm) = l.(currentTerm);
  sc_entries : l'.(raftLog).(entries) = l.(raftLog).(entries);
}.

(** The follower [p] has the leader's log and the leader knows it. *)
Definition replicated (nt : Net R) l (p : N) : Prop :=
  get_index l.(matchIndex) p = lastIndex l.(raftLog) ∧
  ∃ f, net_nodes nt !! p = Some f ∧ f.(raftLog).(entries) = l.(raftLog).(entries) ∧
    behind l f.

Lemma behind_same j l l' f :
  same_leader j l l' → f.(id) ≠ j → behind l f → behind l' f.
Proof.
  intros Hsl Hid [? ? ? Hn]. pose proof (sl_entries _ _ _ Hsl) as He. unfold lastIndex in Hn.
  split; [done|by rewrite (sl_term _ _ _ Hsl)|by rewrite He|].
  unfold lastIndex. by rewrite He, (sl_next _ _ _ Hsl).
Qed.

Lemma lastIndex_entries l l' :
  l'.(raftLog).(entries) = l.(raftLog).(entries) → lastIndex l'.(raftLog) = lastIndex l.(raftLog).
Proof. unfold lastIndex. by intros ->. Qed.

Lemma catch_up_all M js k (nt : Net R) s i l :
  (0 : N) ∉ M → sim M k nt s → net_nodes nt !! i = Some l → l.(state) = StateLeader →
  NoDup js → i ∉ js →
  (∀ j, j ∈ js → ∃ f, net_nodes nt !! j = Some f ∧ behind l f) →
  (js = [] → settled l) →
  k + 3 * (lastIndex l.(raftLog) + 1) * lenN js + 3 ≤ u64_modulus →
  ∃ acts nt' l', lenN acts ≤ 3 * (lastIndex l.(raftLog) + 1) * lenN js ∧
    Forall friendly acts ∧ exec_all nt acts = Ret nt' ∧ net_nodes nt' !! i = Some l' ∧
    same_core l l' ∧ settled l' ∧ (∀ j, j ∈ js → replicated nt' l' j) ∧
    ∀ p, p ∉ js → replicated nt l p → p ≠ i → replicated nt' l' p.
Proof.
  intros H0. revert k nt s l. induction js as [|j js IH]; intros k nt s l Hsim Hi Hst Hnd Hni Hb Hset Hk.
  { exists [], nt, l. split_and!; [cbn; lia|done|done|done|by split|by apply Hset| |done].
    intros j Hj. by apply not_elem_of_nil in Hj. }
  apply NoDup_cons in Hnd as [Hnj Hnd]. apply not_elem_of_cons in Hni as [Hij Hni].
  destruct (Hb j) as (f & Hj & Hbj); [left|]. clear Hset.
  destruct (sim_node _ _ _ _ Hsim _ _ Hj) as (Hidf & _ & _ & _).
  pose proof (bh_next _ _ Hbj) as Hnx. rewrite Hidf in Hnx.
  cbn [length] in Hk. rewrite Nat2N.inj_succ, N.mul_succ_r in Hk.
  destruct (catch_up M k nt s i j l f H0 Hsim Hi Hj Hij Hst Hbj) as
    (acts & nt1 & l1 & f1 & Hlen & Hacts & Hrun & Hex & He & Hset & Hmi & Hnj'); [lia|].
  destruct (exec_all_sim M k nt s acts H0 Hsim ltac:(lia) (friendly_ok _ Hacts)) as (nt1' & s1 & Hrun' & _ & Hsim1).
  rewrite Hrun in Hrun'. injection Hrun' as <-. destruct Hex as [Hi1 Hj1 Hoth Hsl Hcf1 Htf1].
  pose proof (lastIndex_entries _ _ (sl_entries _ _ _ Hsl)) as Hlast.
  assert (∀ p, p ≠ i → p ≠ j → replicated nt l p → replicated nt1 l1 p) as Hkeep.
  { intros p Hpi Hpj (Hm & g & Hg & Hge & Hbg). split; [by rewrite (sl_match _ _ _ Hsl), Hlast|].
    destruct (sim_node _ _ _ _ Hsim _ _ Hg) as (Hidg & _).
    exists g. rewrite Hoth, (sl_entries _ _ _ Hsl) by done. split_and!; [done..|].
    apply (behind_same j l); [done|congruence|done]. }
  destruct (IH (k + lenN acts) nt1 s1 l1) as
    (acts2 & nt2 & l2 & Hlen2 & Hacts2 & Hrun2 & Hi2 & Hsc2 & Hset2 & Hrep2 & Hkeep2); try done.
  - by rewrite (sl_state _ _ _ Hsl).
  - intros p Hp. destruct (Hb p) as (g & Hg & Hbg); [by right|].
    assert (p ≠ j) by (by intros ->). assert (p ≠ i) by (by intros ->).
    destruct (sim_node _ _ _ _ Hsim _ _ Hg) as (Hidg & _).
    exists g. rewrite Hoth by done. split; [done|].
    apply (behind_same j l); [done|congruence|done].
  - rewrite Hlast. lia.
  - rewrite Hlast in Hlen2. exists (acts ++ acts2), nt2, l2. rewrite length_app.
    cbn [length]. rewrite Nat2N.inj_succ, N.mul_succ_r.
    split_and!; [lia|by apply Forall_app|by rewrite exec_all_app, Hrun|done| |done| |].
    + destruct Hsc2, Hsl. split; congruence.
    + intros p [->|Hp]%elem_of_cons; [|by apply Hrep2].
      apply Hkeep2; [done| |congruence]. split; [by rewrite Hlast|].
      exists f1. rewrite (sl_entries _ _ _ Hsl). split_and!; [done..|].
      destruct (sim_node _ _ _ _ Hsim1 _ _ Hj1) as (Hidf1 & _).
      split; [done|rewrite (sl_term _ _ _ Hsl); lia|by rewrite (sl_entries _ _ _ Hsl), He|].
      rewrite Hidf1, Hnj', Hlast. lia.
    + intros p [Hpj Hpjs]%not_elem_of_cons Hr Hpi. apply Hkeep2; [done| |done]. by apply Hkeep.
Qed.

(** A settled leader that has its whole log everywhere has committed it. *)
Lemma settled_committed (nt : Net R) l :
  wf l.(raftLog) → settled l → (∀ p, p ∈ l.(peers) → replicated nt l p) →
  lastTerm l.(raftLog) = l.(currentTerm) →
  l.(raftLog).(commitIndex) = lastIndex l.(raftLog).
Proof.
  intros Hwf Hset Hrep Ht. pose proof (wf_commit _ Hwf) as Hc. unfold lastIndex.
  destruct (decide (commitIndex (raftLog l) = lenN (entries (raftLog l)) - 1)) as [|Hne]; [done|].
  destruct (Hset (lastIndex (raftLog l))). split; [unfold lastIndex; lia|]. split.
  - unfold lastTerm in Ht. rewrite last_lookup in Ht. unfold lastIndex.
    replace (N.to_nat (lenN (entries (raftLog l)) - 1))
      with (pred (length (entries (raftLog l)))) by lia.
    destruct (lookup_lt_is_Some_2 (entries (raftLog l)) (pred (length (entries (raftLog l)))))
      as [e He]; [lia|].
    rewrite He in Ht |- *. cbn in *. congruence.
  - rewrite filter_id.
    + unfold majority. destruct (peers l); [done|]. cbn [length].
      pose proof (Z.div_le_upper_bound (Z.of_nat (S (length l0)) + 1) 2 (Z.of_nat (S (length l0)))).
      lia.
    + apply Forall_forall. intros p Hp. by destruct (Hrep p Hp) as [-> _].
Qed.

(** *** Telling the followers *)

(** [f] has the leader's log and commit index. *)
Definition informed l f : Prop :=
  f.(raftLog).(entries) = l.(raftLog).(entries) ∧
  f.(raftLog).(commitIndex) = l.(raftLog).(commitIndex).

Lemma told_follower l f :
  wf l.(raftLog) → wf f.(raftLog) → f.(raftLog).(entries) = l.(raftLog).(entries) →
  behind l f → l.(raftLog).(commitIndex) = lastIndex l.(raftLog) →
  ∃ f' r, Step f (append_for l f.(id)) = Ret (f', [r]) ∧ informed l f'.
Proof.
  intros Hwl Hwf He Hb Hc. pose proof (bh_next _ _ Hb) as Hni.
  pose proof (wf_nonempty _ Hwl) as Hne. unfold lastIndex in Hni.
  destruct (follower_accepts l f Hwl Hwf) as (f' & E & He' & Hc' & _); [|done| |].
  - rewrite He. intros k e1 e2. congruence.
  - right. cbn. rewrite He.
    destruct (lookup_lt_is_Some_2 (entries (raftLog l))
      (N.to_nat (get_index (nextIndex l) (id f) - 1))) as [e Hk]; [lia|]. by rewrite Hk.
  - eexists f', _. split; [done|]. split; [done|lia].
Qed.

Lemma told_all js (nt : Net R) l :
  wf l.(raftLog) → l.(raftLog).(commitIndex) = lastIndex l.(raftLog) → NoDup js →
  (∀ j, j ∈ js → append_for l j ∈ nt.(sent) ∧ ∃ f, net_nodes nt !! j = Some f ∧ f.(id) = j ∧
    wf f.(raftLog) ∧ f.(raftLog).(entries) = l.(raftLog).(entries) ∧ behind l f) →
  ∃ nt', exec_all nt (map (λ j, ADeliver (append_for l j)) js) = Ret nt' ∧
    (∀ p, p ∉ js → net_nodes nt' !! p = net_nodes nt !! p) ∧
    ∀ j, j ∈ js → ∃ f, net_nodes nt' !! j = Some f ∧ informed l f.
Proof.
  intros Hwl Hc. revert nt. induction js as [|j js IH]; intros nt Hnd Hjs.
  { exists nt. split_and!; [done|done|]. by intros j ?%not_elem_of_nil. }
  apply NoDup_cons in Hnd as [Hnj Hnd].
  destruct (Hjs j) as (Hin & f & Hf & Hid & Hwf & He & Hb); [left|].
  destruct (told_follower l f Hwl Hwf He Hb Hc) as (f' & r & E & Hinf). rewrite Hid in E.
  destruct (IH (MkNet (<[j := f']> (net_nodes nt)) (r :: sent nt)) Hnd) as (nt' & Hr & Ho & Hall).
  { intros p Hp. destruct (Hjs p) as (? & g & ? & ?); [by right|].
    split; [by right|]. exists g. cbn. rewrite lookup_insert_ne by (by intros ->). done. }
  exists nt'. split_and!.
  - cbn [map exec_all exec]. rewrite decide_True by done.
    cbn [append_for NewAppendEntries To]. by rewrite (exec_on nt j f _ f' [r] Hf E).
  - intros p [Hpj Hp]%not_elem_of_cons. rewrite Ho by done. cbn. by rewrite lookup_insert_ne.
  - intros p [->|Hp]%elem_of_cons; [|by apply Hall]. exists f'.
    rewrite Ho by done. cbn. by rewrite lookup_insert_eq.
Qed.

(** A leader that has committed its log lets every follower commit it. *)
Lemma leader_announces M k (nt : Net R) s i l :
  sim M k nt s → net_nodes nt !! i = Some l → l.(state) = StateLeader →
  l.(raftLog).(commitIndex) = lastIndex l.(raftLog) →
  (∀ p, p ∈ l.(peers) → replicated nt l p) →
  ∃ acts nt', length acts = S (length l.(peers)) ∧ Forall friendly acts ∧
    exec_all nt acts = Ret nt' ∧ net_nodes nt' !! i = Some l ∧
    ∀ j, j ∈ l.(peers) → ∃ f, net_nodes nt' !! j = Some f ∧ informed l f.
Proof.
  intros Hsim Hi Hst Hc Hrep. destruct (sim_node _ _ _ _ Hsim _ _ Hi) as (Hid & Hp & Hok & _).
  assert (crashed l = false) as Hcr.
  { destruct (crashed l) eqn:E; [|done]. apply (nok_crashed _ _ Hok) in E. congruence. }
  assert (∃ out, ReplicateNow l = Ret out ∧ ∀ j, j ∈ peers l → append_for l j ∈ out)
    as (out & E & Hout).
  { destruct (broadcast_spec l (nok_wf _ _ Hok)) as (out & E & _). exists out.
    assert (ReplicateNow l = Ret out) as HR.
    { unfold ReplicateNow. by rewrite bool_decide_eq_true_2, Hcr. }
    split; [done|]. intros j Hj. destruct (Hrep j Hj) as (_ & f & Hf & _ & Hb).
    destruct (sim_node _ _ _ _ Hsim _ _ Hf) as (Hidf & _). pose proof (bh_next _ _ Hb) as Hn.
    rewrite Hidf in Hn. destruct (replicate_sends l j (nok_wf _ _ Hok) Hst Hcr Hj Hn) as (o & Eo & ?).
    rewrite HR in Eo. by injection Eo as ->. }
  destruct (told_all (peers l) (MkNet (<[i := l]> (net_nodes nt)) (out ++ sent nt)) l) as
    (nt' & Hr & Ho & Hall); [apply Hok|done|apply (p_nodup _ _ Hp)| |].
  { intros j Hj. split; [apply elem_of_app; left; by apply Hout|].
    destruct (Hrep j Hj) as (_ & f & Hf & He & Hb).
    destruct (sim_node _ _ _ _ Hsim _ _ Hf) as (Hidf & _ & Hokf & _). exists f. cbn.
    rewrite lookup_insert_ne; [split_and!; [done|done|apply Hokf|done..]|].
    destruct (p_peer _ _ _ Hp Hj). congruence. }
  exists (AReplicate i :: map (λ j, ADeliver (append_for l j)) (peers l)), nt'.
  split; [cbn; by rewrite length_map|]. split.
  { constructor; [done|]. apply Forall_forall. intros a. rewrite list_elem_of_fmap.
    by intros (j & -> & _). }
  split; [|split; [|done]].
  - cbn [exec_all exec]. rewrite (exec_on nt i l _ l out Hi) by (by rewrite E). done.
  - rewrite Ho by (rewrite <- Hid; apply (p_other _ _ Hp)). cbn. by rewrite lookup_insert_eq.
Qed.

(** From any state reached: everything is replicated and the leader has committed it. *)
Lemma leader_replicates M k (nt : Net R) s i l :
  (0 : N) ∉ M → sim M k nt s → net_nodes nt !! i = Some l → l.(state) = StateLeader →
  lastTerm l.(raftLog) = l.(currentTerm) → peers l ≠ [] →
  (∀ j, j ∈ peers l → ∃ f, net_nodes nt !! j = Some f ∧ behind l f) →
  k + 3 * (lastIndex l.(raftLog) + 1) * lenN (peers l) + 3 ≤ u64_modulus →
  ∃ acts nt' l' s', lenN acts ≤ 3 * (lastIndex l.(raftLog) + 1) * lenN (peers l) ∧
    Forall friendly acts ∧ exec_all nt acts = Ret nt' ∧ sim M (k + lenN acts) nt' s' ∧
    net_nodes nt' !! i = Some l' ∧ same_core l l' ∧
    l'.(raftLog).(commitIndex) = lastIndex l'.(raftLog) ∧
    ∀ p, p ∈ l'.(peers) → replicated nt' l' p.
Proof.
  intros H0 Hsim Hi Hst Ht Hne Hb Hk.
  destruct (sim_node _ _ _ _ Hsim _ _ Hi) as (Hid & Hp & Hok & _).
  destruct (catch_up_all M (peers l) k nt s i l H0 Hsim Hi Hst) as
    (acts & nt' & l' & Hlen & Hacts & Hrun & Hi' & Hsc & Hset & Hrep & _).
  - apply (p_nodup _ _ Hp).
  - rewrite <- Hid. apply (p_other _ _ Hp).
  - done.
  - done.
  - done.
  - destruct (exec_all_sim M k nt s acts H0 Hsim ltac:(lia) (friendly_ok _ Hacts))
      as (nt2 & s2 & Hr2 & _ & Hsim2).
    rewrite Hrun in Hr2. injection Hr2 as <-.
    destruct (sim_node _ _ _ _ Hsim2 _ _ Hi') as (_ & _ & Hok' & _).
    assert (∀ p, p ∈ peers l' → replicated nt' l' p) as Hrep'
      by (intros p; rewrite (sc_peers _ _ Hsc); apply Hrep).
    exists acts, nt', l', s2. split_and!; try done.
    apply (settled_committed nt'); [apply Hok'|done|done|].
    unfold lastTerm. by rewrite (sc_entries _ _ Hsc), (sc_term _ _ Hsc).
Qed.

(** Then the followers are told. *)
Lemma leader_commits M k (nt : Net R) s i l :
  (0 : N) ∉ M → sim M k nt s → net_nodes nt !! i = Some l → l.(state) = StateLeader →
  lastTerm l.(raftLog) = l.(currentTerm) → (2 ≤ size M)%nat →
  (∀ j, j ∈ M → j ≠ i → ∃ f, net_nodes nt !! j = Some f ∧ behind l f) →
  k + 3 * (lastIndex l.(raftLog) + 2) * N.of_nat (size M) + 3 ≤ u64_modulus →
  ∃ acts nt' l', lenN acts ≤ 3 * (lastIndex l.(raftLog) + 2) * N.of_nat (size M) ∧
    Forall friendly acts ∧ exec_all nt acts = Ret nt' ∧
    net_nodes nt' !! i = Some l' ∧ same_core l l' ∧
    ∀ j, j ∈ M → ∃ f, net_nodes nt' !! j = Some f ∧ wf f.(raftLog) ∧
      f.(raftLog).(entries) = l.(raftLog).(entries) ∧
      f.(raftLog).(commitIndex) = lastIndex l.(raftLog).
Proof.
  intros H0 Hsim Hi Hst Ht H2 Hb Hk.
  destruct (sim_node _ _ _ _ Hsim _ _ Hi) as (Hid & Hp & _).
  pose proof (p_size _ _ Hp) as Hsize.
  destruct (leader_replicates M k nt s i l H0 Hsim Hi Hst Ht) as
    (acts1 & nt1 & l' & s1 & Hlen1 & Hf1 & Hr1 & Hsim1 & Hi1 & Hsc & Hc & Hrep);
    [intros E; rewrite E in Hsize; cbn in Hsize; lia| |nia|].
  { intros j Hj. destruct (p_peer _ _ _ Hp Hj) as [? Hji]. apply Hb; [done|congruence]. }
  pose proof Hsc as [_ Hps Hst' Ht' He']. rewrite Hst in Hst'.
  destruct (leader_announces M _ nt1 s1 i l' Hsim1 Hi1 Hst' Hc Hrep) as
    (acts2 & nt2 & Hlen2 & Hf2 & Hr2 & Hi2 & Hinf).
  rewrite (lastIndex_entries _ _ He') in Hc. rewrite Hps in Hlen2, Hinf.
  assert (lenN (acts1 ++ acts2) ≤ 3 * (lastIndex l.(raftLog) + 2) * N.of_nat (size M)) as Hlen
    by (rewrite length_app; nia).
  assert (Forall friendly (acts1 ++ acts2)) as Hf by by apply Forall_app.
  assert (exec_all nt (acts1 ++ acts2) = Ret nt2) as Hr by by rewrite exec_all_app, Hr1.
  exists (acts1 ++ acts2), nt2, l'. do 5 (split; [done|]).
  destruct (exec_all_sim M k nt s (acts1 ++ acts2) H0 Hsim ltac:(lia) (friendly_ok _ Hf))
    as (nt3 & s3 & Hr3 & _ & Hsim3).
  rewrite Hr in Hr3. injection Hr3 as <-. intros j Hj.
  assert (∃ f, net_nodes nt2 !! j = Some f ∧ informed l' f) as (f & Hfj & Hfe & Hfc).
  { apply (p_mem _ _ _ Hp) in Hj as [->|Hj]; [exists l'|by apply Hinf]. by rewrite Hid. }
  destruct (sim_node _ _ _ _ Hsim3 _ _ Hfj) as (_ & _ & Hokf & _).
  exists f. split_and!; [done|apply Hokf|congruence|congruence].
Qed.

(** C14: network_commits.  Replication and commitment make progress.  In any reachable state,
    let a leader's last entry be of its own term, and every other member run, in no later
    term, with a log that is not longer and a [nextIndex] inside the leader's log.  Then a
    schedule of at most [3 * (lastIndex + 2)] calls per member (replicate, deliver, deliver
    the reply) brings every log to be the leader's and every node to commit all of it. *)
Theorem network_commits members rngs acts (nt : Net R) i l :
  members_ok members → (2 ≤ length members)%nat →
  lenN acts + 3 * (lenN acts + 2) * lenN members + 3 ≤ u64_modulus → Forall action_ok acts →
  exec_all (start members rngs) acts = Ret nt →
  net_nodes nt !! i = Some l → l.(state) = StateLeader →
  lastTerm l.(raftLog) = l.(currentTerm) →
  (∀ j f, j ≠ i → net_nodes nt !! j = Some f → behind l f) →
  ∃ acts' nt' l', lenN acts' ≤ 3 * (lastIndex l.(raftLog) + 2) * lenN members ∧
    Forall friendly acts' ∧ exec_all nt acts' = Ret nt' ∧
    net_nodes nt' !! i = Some l' ∧ same_core l l' ∧
    ∀ j, j ∈ members → ∃ f', net_nodes nt' !! j = Some f' ∧
      f'.(raftLog).(entries) = l.(raftLog).(entries) ∧
      f'.(raftLog).(commitIndex) = lastIndex l.(raftLog).
Proof.
  intros Hm H2 Hk Ha Hrun Hi Hst Ht Hb. pose proof (mem_zero_set _ Hm) as H0.
  assert (lenN acts + 3 ≤ u64_modulus) as Hk0 by lia.
  destruct (one_state _ _ _ _ Hm Hk0 Ha Hrun) as (s & k & Hsim & _ & _ & Hkle).
  destruct (sim_node _ _ _ _ Hsim _ _ Hi) as (_ & _ & Hok & _).
  pose proof (nok_len _ _ Hok) as Hlen.
  assert (lastIndex (raftLog l) ≤ k) as Hlast by (unfold lastIndex; lia).
  assert (size (list_to_set members : gset N) = length members) as Hsize
    by (apply size_list_to_set, Hm).
  destruct (leader_commits _ k nt s i l H0 Hsim Hi Hst Ht) as
    (acts' & nt' & l' & Hlen' & ? & ? & ? & ? & Hall); rewrite ?Hsize; [lia| |nia|].
  - intros j Hj Hji. rewrite elem_of_list_to_set in Hj. apply start_dom with (rngs := rngs) in Hj.
    rewrite <- (exec_all_dom _ _ _ j Hrun) in Hj. destruct Hj as [f Hf].
    exists f. split; [done|]. by apply (Hb j).
  - rewrite Hsize in Hlen'. exists acts', nt', l'. do 5 (split; [done|]).
    intros j Hj. destruct (Hall j) as (f & ? & _ & ? & ?); [by apply elem_of_list_to_set|].
    by exists f.
Qed.

(** ** Followers that are too long *)

(** The leader believes that [f] holds everything up to the end of [f]'s own, longer log. *)
Record overrun l f : Prop := {
  ov_leader : l.(state) = StateLeader;
  ov_running : l.(crashed) = false ∧ f.(crashed) = false;
  ov_peer : f.(id) ∈ l.(peers);
  ov_term : f.(currentTerm) ≤ l.(currentTerm);
  ov_longer : lastIndex l.(raftLog) < lastIndex f.(raftLog);
  ov_next : get_index l.(nextIndex) f.(id) = lastIndex f.(raftLog) + 1;
}.

Lemma overrun_message l f :
  wf l.(raftLog) → wf f.(raftLog) → overrun l f →
  appendEntriesFor l (lastIndex l.(raftLog)) (Log.CommitIndex l.(raftLog)) f.(id) =
    Ret (NewAppendEntries l.(id) f.(id) l.(currentTerm) 0 0 l.(raftLog).(commitIndex) []).
Proof.
  intros Hwl Hwf [_ _ _ _ Hlong Hni]. unfold appendEntriesFor. rewrite Hni.
  pose proof (wf_nonempty _ Hwl). pose proof (wf_size _ Hwf). unfold lastIndex in *.
  rewrite (proj2 (N.ltb_lt _ _)) by lia. rewrite u64_sub_small by (unfold is_u64; lia).
  rewrite TermAt_out by lia. cbn [mbind go_bind].
  by rewrite (proj2 (N.leb_gt _ _)) by lia.
Qed.

(** C11: overrun_follower_stuck.  A follower that is too long is never repaired: the leader sends
    it nothing, it reports its own last index as replicated, and the situation is as before,
    although the leader now counts every entry of its log as replicated on the follower. *)
Theorem overrun_follower_stuck l f :
  wf l.(raftLog) → wf f.(raftLog) → overrun l f →
  ∃ out m f' r l', ReplicateNow l = Ret out ∧ m ∈ out ∧ m.(To) = f.(id) ∧
    m.(Message.Entries) = [] ∧ Step f m = Ret (f', [r]) ∧ Step l r = Ret (l', []) ∧
    f'.(raftLog).(entries) = f.(raftLog).(entries) ∧ overrun l' f' ∧
    lastIndex l'.(raftLog) < get_index l'.(matchIndex) f.(id).
Proof.
  intros Hwl Hwf Hov. pose proof (overrun_message l f Hwl Hwf Hov) as Hmsg.
  destruct Hov as [Hst [Hcrl Hcrf] Hpeer Ht Hlong Hni].
  pose proof (wf_nonempty _ Hwf) as Hne. pose proof (wf_size _ Hwf) as Hsz.
  destruct (broadcast_spec l Hwl) as (out & Hout & _).
  set (m := NewAppendEntries l.(id) f.(id) l.(currentTerm) 0 0 l.(raftLog).(commitIndex) []) in *.
  assert (m ∈ out) as Hin.
  { unfold broadcastAppendEntries in Hout. rewrite (Last_wf _ Hwl) in Hout.
    cbn [mbind go_bind] in Hout. by apply (go_map_in _ _ _ _ _ Hout Hpeer). }
  destruct (append_entries_accepted f m) as (f' & E & He & _ & _ & Htf & _ & Hidf & Hcf);
    [done|done|by left|done|cbn; lia|].
  assert (accept (entries (raftLog f)) m = entries (raftLog f)) as Hacc.
  { unfold accept. cbn [m NewAppendEntries Message.Entries PrevLogIndex].
    destruct (drop _ _) eqn:Ed; cbn [reconcile]; rewrite <- Ed; apply take_drop. }
  assert (lastIndex (reconcile_log (raftLog f) (PrevLogIndex m + 1) (Message.Entries m)) =
    lastIndex (raftLog f)) as Hl.
  { unfold lastIndex. do 3 f_equal. etrans; [|apply Hacc]. done. }
  rewrite Hl in E.
  destruct (success_response l (id f) (lastIndex (raftLog f)) Hwl Hst Hcrl)
    as (l' & El & Hsl & _ & Hmm & Hn); [unfold lastIndex; lia|].
  destruct Hsl as [Hid' Hps' Hst' Ht' Hcr' He' _ _].
  exists out, m, f', (NewAppendEntriesResp f.(id) l.(id) l.(currentTerm) true (lastIndex f.(raftLog))), l'.
  assert (lastIndex l'.(raftLog) = lastIndex l.(raftLog)) as Hll by (by apply lastIndex_entries).
  assert (lastIndex f'.(raftLog) = lastIndex f.(raftLog)) as Hlf
    by (apply lastIndex_entries; congruence).
  split_and!; try done.
  - unfold ReplicateNow. by rewrite bool_decide_eq_true_2, Hcrl.
  - unfold Step. by rewrite Hcrf.
  - congruence.
  - split; [by rewrite Hst'|split; [by rewrite Hcr'|congruence]|by rewrite Hidf, Hps'| | |].
    + rewrite Htf, Ht'. cbn. lia.
    + by rewrite Hll, Hlf.
    + by rewrite Hidf, Hn, Hlf.
  - by rewrite Hll, Hmm.
Qed.
End progress.

#[local] Existing Instance constant_rng.

Definition demo_proposed : list Action := demo_election ++ [APropose 1 [x61]].
Definition demo_net3 : Net Z := net_of (exec_all demo_start demo_proposed).

Lemma network_commits_witness :
  ∃ acts' nt' l', lenN acts' ≤ 27 ∧
    exec_all demo_net3 acts' = Ret nt' ∧ net_nodes nt' !! 3 = Some l' ∧
    l'.(raftLog).(entries) = [dummy; entry_a] ∧ l'.(raftLog).(commitIndex) = 1.
Proof.
  destruct (network_commits [1; 2; 3] (λ _, 0%Z) demo_proposed demo_net3 1 (node_at demo_net3 1))
    as (acts' & nt' & _ & Hlen & _ & Hrun & _ & _ & Hall).
  - apply demo_members.
  - cbn. lia.
  - by vm_compute.
  - by apply (bool_decide_unpack _).
  - by vm_compute.
  - by vm_compute.
  - by vm_compute.
  - by vm_compute.
  - intros j f Hne Hf. apply elem_of_map_to_list in Hf.
    assert ((j, f) ∈ map (λ i, (i, node_at demo_net3 i)) [1; 2; 3]) as Hin
      by (vm_compute in Hf |- *; set_solver).
    clear Hf. cbn [map] in Hin. rewrite !elem_of_cons, elem_of_nil in Hin.
    destruct Hin as [[-> ->]%pair_equal_spec|[[-> ->]%pair_equal_spec|
      [[-> ->]%pair_equal_spec|[]]]]; [by destruct Hne| |];
      split; vm_compute; first [reflexivity|lia|split; discriminate|discriminate].
  - destruct (Hall 3) as (f & Hf & He & Hc); [by apply (bool_decide_unpack _)|].
    exists acts', nt', f. split; [|split; [exact Hrun|split; [exact Hf|split]]].
    + vm_compute in Hlen |- *. exact Hlen.
    + rewrite He. vm_compute. reflexivity.
    + rewrite Hc. vm_compute. reflexivity.
Defined.

Definition long_follower : Node Z :=
  follower2 <| raftLog := MkLog [dummy; MkEntry 0 1 []] 0 |>.
Definition fooled_leader : Node Z := leader <| nextIndex := {[ 2 := 2 ]} |>.

Lemma overrun_follower_stuck_witness : ∃ f' l', overrun (R:=Z) l' f' ∧
  f'.(raftLog).(entries) = [dummy; MkEntry 0 1 []].
Proof.
  destruct (overrun_follower_stuck fooled_leader long_follower)
    as (out & m & f' & r & l' & _ & _ & _ & _ & _ & _ & He & Hov & _).
  - apply New_wf.
  - split; [done| |done|done]. intros [|[|i]] e He; cbn in He; simplify_eq; try done.
  - split; try by vm_compute. apply (bool_decide_unpack _). by vm_compute.
  - by exists f', l'.
Defined.
