(* ===== verification/Availability.v ===== *)
(** * Availability: elections can be won and commands committed

    What can be made to happen from a reachable state, without any fault: a running node
    whose log is up to date for a majority of running members gets elected by ticking it
    and delivering its requests and the answers ([network_elects]); if its log is also at
    least as long as every other, a command it is then given is committed everywhere
    ([network_serves]).  The number of ticks is bounded because the election timeout of
    every node stays between 10 and 20 in every execution ([network_timers]). *)
From S2P Require Import Prelude Log LogPersist Message Node.
From S2P Require Import Spec SpecElection SpecLog NodeFacts Refine NodeSpec Network Progress.
From Stdlib Require Import Strings.Byte.
Open Scope N_scope.

Section availability.
  Context {R : Type} `{LawfulRNG R}.
  Implicit Types (n : Node R) (m : Message) (nt : Net R).

(** ** Timers in every execution *)

Record timer_ok (k : N) n : Prop := {
  tm_min : n.(electionTimeoutMin) = 10%Z;
  tm_max : n.(electionTimeoutMax) = 20%Z;
  tm_timeout : (10 ≤ n.(electionTimeout) ≤ 20)%Z;
  tm_elapsed : (0 ≤ n.(electionElapsed) ≤ Z.of_N k)%Z;
}.

(** What handling a message does to the timer: nothing, or a reset; and it crashes
    nobody. *)
Record vitals n n' : Prop := {
  vt_min : n'.(electionTimeoutMin) = n.(electionTimeoutMin);
  vt_max : n'.(electionTimeoutMax) = n.(electionTimeoutMax);
  vt_crashed : n'.(crashed) = n.(crashed);
  vt_timer :
    n'.(electionTimeout) = n.(electionTimeout) ∧ n'.(electionElapsed) = n.(electionElapsed) ∨
    (n.(electionTimeoutMin) = 10%Z → n.(electionTimeoutMax) = 20%Z →
     (10 ≤ n'.(electionTimeout) ≤ 20)%Z ∧ n'.(electionElapsed) = 0%Z);
}.

Lemma vitals_same n n' :
  n'.(electionTimeoutMin) = n.(electionTimeoutMin) →
  n'.(electionTimeoutMax) = n.(electionTimeoutMax) → n'.(crashed) = n.(crashed) →
  n'.(electionTimeout) = n.(electionTimeout) → n'.(electionElapsed) = n.(electionElapsed) →
  vitals n n'.
Proof. intros. split; auto. Qed.

Lemma vitals_refl n : vitals n n.
Proof. by apply vitals_same. Qed.

Lemma vitals_trans n1 n2 n3 : vitals n1 n2 → vitals n2 n3 → vitals n1 n3.
Proof.
  intros [Emin Emax Ecr H1] [Emin' Emax' Ecr' H2]. split; try congruence.
  destruct H2 as [[-> ->]|H2]; [|right; intros; apply H2; congruence]. done.
Qed.

Lemma vitals_timer k n n' : vitals n n' → timer_ok k n → timer_ok k n'.
Proof.
  intros [Emin Emax _ Ht] [Hmin Hmax ? ?]. rewrite Hmin in Emin. rewrite Hmax in Emax.
  destruct Ht as [[E1 E2]|Ht]; [split; try done; by rewrite ?E1, ?E2|].
  destruct (Ht Hmin Hmax) as [? E]. split; try done. rewrite E. lia.
Qed.

(** A reset, wherever it is reached from. *)
Lemma vitals_reset n n' : vitals n n' → vitals n (resetElectionTimer n').
Proof.
  intros Hv. apply (vitals_trans _ n'); [done|]. destruct (reset_eq n') as (t & r & E).
  split; [by rewrite E..|]. right. intros Hmin Hmax. pose proof (reset_range n') as Hr.
  rewrite Hmin, Hmax in Hr. by apply Hr.
Qed.

Lemma stepDown_vitals n t : vitals n (stepDown n t).
Proof.
  unfold stepDown. match goal with |- context [resetElectionTimer ?x] => set (n1 := x) end.
  assert (vitals n n1) as Hv by by apply vitals_same.
  apply vitals_reset in Hv. eapply vitals_trans; [exact Hv|]. by apply vitals_same.
Qed.

Lemma becomeLeader_vitals n n' out : becomeLeader n = Ret (n', out) → vitals n n'.
Proof.
  unfold becomeLeader. match goal with |- context [resetElectionTimer ?x] => set (n1 := x) end.
  assert (vitals n n1) as Hv by by apply vitals_same. apply vitals_reset in Hv.
  generalize dependent (resetElectionTimer n1). intros n2 Hv. cbv zeta. intros Hr.
  go_inv Hr. destruct a as [li lt]. go_inv Hr. injection Hr as <- _.
  match goal with |- context [foldl _ ?x ?ps] =>
    destruct (leader_loop_eq (li +u 1) ps x) as (ni & mi & E) end.
  rewrite E. eapply vitals_trans; [exact Hv|]. by apply vitals_same.
Qed.

Lemma handleRequestVote_vitals n m n' out :
  handleRequestVote n m = Ret (n', out) → vitals n n'.
Proof.
  unfold handleRequestVote. destruct (_ <? _); [intros [= <- _]; apply vitals_refl|].
  fold (bumped n m). assert (vitals n (bumped n m)) as Hv.
  { unfold bumped. destruct (_ <? _); by apply vitals_same. }
  set (n1 := bumped n m) in *. clearbody n1. intros Hr. go_inv Hr.
  destruct a; injection Hr as <- _; [|done]. apply vitals_reset.
  eapply vitals_trans; [exact Hv|]. by apply vitals_same.
Qed.

Lemma handleRequestVoteResp_vitals n m n' out :
  handleRequestVoteResp n m = Ret (n', out) → vitals n n'.
Proof.
  unfold handleRequestVoteResp. destruct (_ <? _).
  { intros [= <- _]. apply stepDown_vitals. }
  destruct (_ && _); [|intros [= <- _]; apply vitals_refl].
  set (n1 := if Granted m then _ else n).
  assert (vitals n n1) as Hv by (unfold n1; destruct (Granted m); by apply vitals_same).
  clearbody n1. destruct (_ <=? _)%Z; [|by intros [= <- _]].
  intros Hr%becomeLeader_vitals. by eapply vitals_trans.
Qed.

Lemma followerCommit_vitals n lc i n' : followerCommit n lc i = Ret n' → vitals n n'.
Proof.
  unfold followerCommit. destruct (_ <? lc); [|intros [= <-]; apply vitals_refl].
  intros Hr. go_inv Hr. destruct a as [l err].
  destruct err; [injection Hr as <-; by apply vitals_same|].
  destruct (0 <? _); injection Hr as <-; by apply vitals_same.
Qed.

Lemma handleAppendEntries_vitals n m n' out :
  handleAppendEntries n m = Ret (n', out) → vitals n n'.
Proof.
  unfold handleAppendEntries. destruct (_ <? _); [intros [= <- _]; apply vitals_refl|].
  fold (followed n m). assert (vitals n ((followed n m) <| leaderID := From m |>)) as Hv.
  { unfold followed. destruct (_ || _); by apply vitals_same. }
  apply vitals_reset in Hv. set (n1 := resetElectionTimer _) in *. clearbody n1. intros Hr.
  go_inv Hr. destruct (negb a).
  { go_inv Hr. destruct a0. by injection Hr as <- _. }
  go_inv Hr. destruct a0 as [l err]. go_inv Hr. destruct a0 as [li lt].
  assert (vitals n (n1 <| raftLog := l |>)) as Hv2.
  { eapply vitals_trans; [exact Hv|]. by apply vitals_same. }
  destruct err; [by injection Hr as <- _|]. go_inv Hr. injection Hr as <- _.
  apply followerCommit_vitals in Hret2. by eapply vitals_trans.
Qed.

Lemma advanceCommit_from_vitals idx n n' : advanceCommit_from n idx = Ret n' → vitals n n'.
Proof.
  revert n n'. induction idx as [|idx IH]; intros n n' Hr; cbn [advanceCommit_from] in Hr.
  { injection Hr as <-. apply vitals_refl. }
  destruct (_ <=? _); [injection Hr as <-; apply vitals_refl|].
  destruct (TermAt _ _) as [t|e|]; [|injection Hr as <-; apply vitals_refl|done].
  destruct (negb _); [by apply IH|]. destruct (replicatedOnMajority _ _); [|by apply IH].
  go_inv Hr. destruct a as [l err]. destruct err; injection Hr as <-; by apply vitals_same.
Qed.

Lemma handleAppendEntriesResp_vitals n m n' out :
  handleAppendEntriesResp n m = Ret (n', out) → vitals n n'.
Proof.
  unfold handleAppendEntriesResp. destruct (_ <? _).
  { intros [= <- _]. apply stepDown_vitals. }
  destruct (_ && _); [|intros [= <- _]; apply vitals_refl]. destruct (Success m).
  - intros Hr. go_inv Hr. injection Hr as <- _. unfold advanceCommit in Hret. go_inv Hret.
    destruct a0 as [li lt]. apply advanceCommit_from_vitals in Hret.
    eapply vitals_trans; [|exact Hret]. by apply vitals_same.
  - destruct (_ <? _); intros [= <- _]; by apply vitals_same.
Qed.

Lemma Step_vitals n m n' out : Step n m = Ret (n', out) → vitals n n'.
Proof.
  unfold Step. destruct (crashed n); [intros [= <- _]; apply vitals_refl|].
  destruct (Type_ m).
  - apply handleRequestVote_vitals.
  - apply handleRequestVoteResp_vitals.
  - apply handleAppendEntries_vitals.
  - apply handleAppendEntriesResp_vitals.
  - intros [= <- _]. apply vitals_refl.
Qed.

Lemma startElection_vitals n n' out : startElection n = Ret (n', out) → vitals n n'.
Proof.
  unfold startElection. match goal with |- context [resetElectionTimer ?x] => set (n1 := x) end.
  assert (vitals n n1) as Hv by by apply vitals_same. apply vitals_reset in Hv.
  generalize dependent (resetElectionTimer n1). intros n2 Hv. cbv zeta. intros Hr.
  go_inv Hr. destruct a as [li lt]. injection Hr as <- _.
  eapply vitals_trans; [exact Hv|]. by apply vitals_same.
Qed.

(** A bound on the number of steps under which elapsed time does not overflow. *)
Definition ticks_max : N := 4611686018427387904.   (* 2^62 *)

Lemma timer_mono k k' n : k ≤ k' → timer_ok k n → timer_ok k' n.
Proof. intros Hk []. split; [done..|lia]. Qed.

Lemma Tick_timer k n n' out :
  timer_ok k n → k < ticks_max → Tick n = Ret (n', out) →
  timer_ok (k + 1) n' ∧ n'.(crashed) = n.(crashed).
Proof.
  intros Hok Hk. pose proof Hok as [Hmin Hmax Hto Hel]. unfold Tick.
  destruct (crashed n) eqn:Hcr; [intros [= <- _]; split; [by apply (timer_mono k); [lia|]|done]|].
  rewrite wrap_i64_small by (unfold is_i64, i64_min, i64_max, ticks_max in *; lia).
  set (n1 := n <| electionElapsed := _ |>). cbn zeta.
  assert (timer_ok (k + 1) n1) as Hok1 by (split; cbn; [done..|lia]).
  assert (∀ n2, vitals n1 n2 → timer_ok (k + 1) n2 ∧ crashed n2 = false) as Hv.
  { intros n2 Hv. split; [by eapply vitals_timer|]. by rewrite (vt_crashed _ _ Hv). }
  destruct (state n1).
  1,2: destruct (_ <=? _)%Z; [intros Hr%startElection_vitals; by apply Hv|
    intros [= <- _]; apply Hv, vitals_refl].
  - destruct (_ <=? _)%Z; [|intros [= <- _]; by apply Hv, vitals_same].
    intros Hr. go_inv Hr. injection Hr as <- _. by apply Hv, vitals_same.
  - intros [= <- _]. apply Hv, vitals_refl.
Qed.

Lemma Propose_vitals n cmd n' err : Propose n cmd = Ret (n', err) → vitals n n'.
Proof.
  unfold Propose. destruct (crashed n); [intros [= <- _]; apply vitals_refl|].
  destruct (negb _); [intros [= <- _]; apply vitals_refl|].
  intros Hr. go_inv Hr. destruct a as [li lt]. go_inv Hr. destruct a as [l e].
  destruct e; injection Hr as <- _; by apply vitals_same.
Qed.

Lemma Crash_timer k n : timer_ok k n → timer_ok k (Crash n).1.
Proof.
  intros Hok. unfold Crash. destruct (crashed n); [done|]. destruct Hok. split; cbn; try done. lia.
Qed.

Lemma Restart_timer k n n' err : timer_ok k n → Restart n = Ret (n', err) → timer_ok k n'.
Proof.
  intros Hok. unfold Restart. destruct (negb _); [by intros [= <- _]|].
  intros Hr. go_inv Hr. destruct (Deserialize _) as [st|e|]; [|by injection Hr as <- _|done].
  go_inv Hr. destruct a0 as [l e]. destruct e.
  { injection Hr as <- _. destruct Hok. by split. }
  injection Hr as <- _. match goal with |- context [resetElectionTimer ?x] => set (n1 := x) end.
  assert (timer_ok k n1) as Hok1 by (destruct Hok; split; cbn; try done; lia).
  apply (vitals_timer k n1); [|done]. eapply vitals_trans; [apply vitals_reset, vitals_refl|].
  by apply vitals_same.
Qed.

Definition timers (k : N) nt : Prop :=
  ∀ i n, nt.(net_nodes) !! i = Some n → timer_ok k n.

Lemma exec_timers k nt a nt' :
  timers k nt → k < ticks_max → exec nt a = Ret nt' → timers (k + 1) nt'.
Proof.
  intros Ht Hk.
  assert (timers (k + 1) nt) as Hsame.
  { intros i n Hi. apply (timer_mono k); [lia|by apply (Ht i)]. }
  assert (∀ i f, (∀ n n' out, timer_ok k n → f n = Ret (n', out) → timer_ok (k + 1) n') →
    on_node nt i f = Ret nt' → timers (k + 1) nt') as Hon.
  { intros i f Hf. unfold on_node. destruct (net_nodes nt !! i) as [n|] eqn:Hi.
    2: { by intros [= <-]. }
    intros Hr. go_inv Hr. destruct a0 as [n' out]. injection Hr as <-. intros j nj Hj. cbn in Hj.
    destruct (decide (j = i)) as [->|Hne].
    - rewrite lookup_insert_eq in Hj. injection Hj as <-. eapply Hf; [|done]. by apply (Ht i).
    - rewrite lookup_insert_ne in Hj by done. by apply (Hsame j). }
  assert (∀ n n', vitals n n' → timer_ok k n → timer_ok (k + 1) n') as Hv.
  { intros n n' Hv ?. apply (timer_mono k); [lia|by apply (vitals_timer k n)]. }
  destruct a as [i|m|i cmd|i|i|i]; cbn [exec]; [|case_decide; [|by intros [= <-]]|..];
    apply Hon; intros n n' out Hok Hr.
  - by apply (Tick_timer k n n' out Hok Hk) in Hr as [? _].
  - by eapply Hv; [eapply Step_vitals|].
  - go_inv Hr. destruct a as [n1 err]. injection Hr as <- _. by eapply Hv; [eapply Propose_vitals|].
  - go_inv Hr. injection Hr as <- _. eapply Hv; [apply vitals_refl|done].
  - injection Hr as <- _. apply (timer_mono k); [lia|by apply Crash_timer].
  - go_inv Hr. destruct a as [n1 err]. injection Hr as <- _. apply (timer_mono k); [lia|].
    by eapply Restart_timer.
Qed.

Lemma exec_all_timers k nt acts nt' :
  timers k nt → k + lenN acts ≤ ticks_max → exec_all nt acts = Ret nt' →
  timers (k + lenN acts) nt'.
Proof.
  revert k nt. induction acts as [|a acts IH]; intros k nt Ht Hk Hr; cbn [exec_all length] in *.
  - injection Hr as <-. by rewrite N.add_0_r.
  - go_inv Hr. replace (k + N.of_nat (S (length acts))) with (k + 1 + lenN acts) by lia.
    eapply IH; [eapply exec_timers; [done| |done]; lia|lia|done].
Qed.

Lemma New_timer i ps r : timer_ok 0 (Node.New (R:=R) i ps r).
Proof.
  unfold Node.New. match goal with |- context [resetElectionTimer ?x] => set (n1 := x) end.
  pose proof (reset_range n1) as Hr. cbn zeta in Hr. destruct Hr as [Hto Hel]; [done|done|].
  destruct (reset_eq n1) as (t & r' & E). split; [by rewrite E..|exact Hto|]. rewrite Hel. lia.
Qed.

Lemma start_timers members (rngs : N → R) : timers 0 (start members rngs).
Proof.
  intros i n Hi. cbn in Hi. apply elem_of_list_to_map_2, list_elem_of_fmap in Hi.
  destruct Hi as (j & [= -> ->] & _). apply New_timer.
Qed.

(** ** Campaigns *)

Section election.
  Context (M : gset N).
  Hypothesis HM : (0 : N) ∉ M.

(** A network reached in at most [k] steps. *)
Definition live (k : N) nt : Prop := (∃ s, sim M k nt s) ∧ timers k nt.

Lemma live_exec k nt acts nt' :
  live k nt → k + lenN acts + 3 ≤ ticks_max → Forall action_ok acts →
  exec_all nt acts = Ret nt' → live (k + lenN acts) nt'.
Proof.
  intros [[s Hsim] Ht] Hk Ha Hr. unfold ticks_max in *. split.
  - destruct (exec_all_sim M k nt s acts HM Hsim) as (nt1 & s1 & E & _ & Hsim1);
      [unfold u64_modulus; lia|done|].
    rewrite Hr in E. injection E as <-. by exists s1.
  - eapply exec_all_timers; [done| |done]. unfold ticks_max. lia.
Qed.

Lemma live_node k nt i n :
  live k nt → nt.(net_nodes) !! i = Some n →
  n.(id) = i ∧ peers_ok M n ∧ node_ok k n ∧ timer_ok k n ∧ ∀ z, n.(state) ≠ StateOther z.
Proof.
  intros [[s Hsim] Ht] Hi. destruct (sim_node _ _ _ _ Hsim _ _ Hi) as (? & ? & ? & Ha).
  split_and!; try done; [by apply (Ht i)|]. intros z Hz.
  pose proof (e_role _ _ (reachable_EInv _ HM _ (sim_reach _ _ _ _ Hsim)) i z) as Hno.
  by rewrite Ha in Hno.
Qed.

Lemma live_peer k nt i n p :
  live k nt → nt.(net_nodes) !! i = Some n → p ∈ n.(peers) ↔ p ∈ M ∧ p ≠ i.
Proof.
  intros Hl Hi. destruct (live_node _ _ _ _ Hl Hi) as (<- & Hp & _). split.
  - by apply p_peer.
  - intros [Hin Hne]. destruct Hp as [_ _ _ Hmem].
    rewrite <- Hmem, elem_of_list_to_set, elem_of_cons in Hin. by destruct Hin.
Qed.

(** The request of [i], campaigning in term [T] with the log [l]. *)
Definition request (i p T : N) (l : Log) : Message :=
  NewRequestVote i p T (lastIndex l) (lastTerm l).

(** [i] has become a candidate of term [T] and asked everybody; nobody else moved. *)
Record campaign nt nt' (i T : N) n n' : Prop := {
  cp_node : nt'.(net_nodes) !! i = Some n';
  cp_others : ∀ p, p ≠ i → nt'.(net_nodes) !! p = nt.(net_nodes) !! p;
  cp_crashed : n'.(crashed) = false;
  cp_state : n'.(state) = StateCandidate;
  cp_term : n'.(currentTerm) = T;
  cp_votes : n'.(votesGranted) = {[i := true]};
  cp_log : n'.(raftLog) = n.(raftLog);
  cp_sent : ∀ p, p ∈ M → p ≠ i → request i p T n.(raftLog) ∈ nt'.(sent);
}.

Lemma repeat_tick_ok i c : Forall action_ok (repeat (ATick i) c).
Proof. induction c; by constructor. Qed.

(** Ticking a running node that does not lead makes it a candidate of the next term within
    twenty ticks. *)
Lemma campaign_once k nt i n :
  live k nt → nt.(net_nodes) !! i = Some n → n.(crashed) = false → n.(state) ≠ StateLeader →
  k + 30 ≤ ticks_max →
  ∃ c nt' n', (c ≤ 20)%nat ∧ exec_all nt (repeat (ATick i) c) = Ret nt' ∧
    campaign nt nt' i (n.(currentTerm) + 1) n n'.
Proof.
  intros Hl Hi Hcr Hst Hk.
  assert (∃ c nt' n', (c ≤ Nat.max 1 (Z.to_nat (n.(electionTimeout) - n.(electionElapsed))))%nat ∧
    exec_all nt (repeat (ATick i) c) = Ret nt' ∧ campaign nt nt' i (n.(currentTerm) + 1) n n')
    as (c & nt' & n' & Hc & ?).
  2: { exists c, nt', n'. split; [|done]. destruct (live_node _ _ _ _ Hl Hi) as (_ & _ & _ & [] & _). lia. }
  assert (k + N.of_nat (Z.to_nat (n.(electionTimeout) - n.(electionElapsed))) + 3 ≤ ticks_max) as Hk'.
  { destruct (live_node _ _ _ _ Hl Hi) as (_ & _ & _ & [] & _). lia. }
  clear Hk. remember (Z.to_nat (electionTimeout n - electionElapsed n)) as w eqn:Hw.
  revert k nt n Hw Hl Hi Hcr Hst Hk'. induction w as [w IH] using lt_wf_ind.
  intros k nt n Hw Hl Hi Hcr Hst Hk.
  destruct (live_node _ _ _ _ Hl Hi) as (Hid & Hp & Hok & Htm & Hoth).
  pose proof Htm as [_ _ Hto Hel]. unfold ticks_max in Hk.
  assert (is_i64 (electionElapsed n + 1)) as Hi64 by (unfold is_i64, i64_min, i64_max; lia).
  assert (state n = StateFollower ∨ state n = StateCandidate) as Hst'.
  { destruct (state n) as [| | |z]; [by left|by right|done|by destruct (Hoth z)]. }
  destruct (Z.le_gt_cases (electionTimeout n) (electionElapsed n + 1)) as [Hle|Hgt].
  - destruct (Tick_elects n (nok_wf _ _ Hok) Hcr Hst' Hi64 Hle) as (n' & E & Hs & Ht & _ & Hv & Hlog).
    destruct (Tick_timer k n n' _ Htm ltac:(unfold ticks_max; lia) E) as [_ Hcr'].
    pose proof (nok_term _ _ Hok) as Htk. rewrite u64_add_small in Ht, E by (unfold u64_modulus; lia).
    eexists 1%nat, _, n'. split; [lia|]. split.
    { cbn [repeat exec_all exec]. by rewrite (exec_on nt i n Tick n' _ Hi E). }
    split; cbn; try done; [by rewrite lookup_insert_eq|by intros; rewrite lookup_insert_ne|
      congruence|by rewrite Hv, Hid|].
    intros p HpM Hpi. apply elem_of_app. left. apply list_elem_of_fmap. exists p.
    rewrite Hid. split; [done|]. by apply (live_peer _ _ _ _ _ Hl Hi).
  - pose proof (Tick_waits n Hcr Hst' Hi64 ltac:(lia)) as E.
    set (n1 := n <| electionElapsed := _ |>) in E.
    pose proof (exec_on nt i n Tick n1 [] Hi E) as Eon. cbn [app] in Eon.
    set (nt1 := MkNet _ _) in Eon.
    assert (live (k + 1) nt1) as Hl1.
    { apply (live_exec k nt [ATick i] nt1 Hl); [unfold ticks_max; cbn; lia|by constructor|].
      cbn [exec_all exec]. by rewrite Eon. }
    destruct (IH (Z.to_nat (electionTimeout n1 - electionElapsed n1)) ltac:(cbn; lia) (k + 1) nt1 n1)
      as (c & nt' & n' & Hc & Hr & [? Hothers]); try done.
    + cbn. by rewrite lookup_insert_eq.
    + unfold ticks_max. cbn. lia.
    + exists (S c), nt', n'. split; [cbn in Hc; lia|]. split.
      { cbn [repeat exec_all exec]. rewrite Eon. done. }
      split; try done. intros p Hpi. rewrite Hothers by done. cbn. by rewrite lookup_insert_ne.
Qed.

(** Campaigning again and again reaches any later term. *)
Lemma campaign_to k nt i n d :
  live k nt → nt.(net_nodes) !! i = Some n → n.(crashed) = false → n.(state) ≠ StateLeader →
  k + 20 * N.of_nat (S d) + 30 ≤ ticks_max →
  ∃ c nt' n', (c ≤ 20 * S d)%nat ∧ exec_all nt (repeat (ATick i) c) = Ret nt' ∧
    campaign nt nt' i (n.(currentTerm) + N.of_nat (S d)) n n'.
Proof.
  revert k nt n. induction d as [|d IH]; intros k nt n Hl Hi Hcr Hst Hk.
  { destruct (campaign_once k nt i n Hl Hi Hcr Hst ltac:(lia)) as (c & nt' & n' & ? & ? & ?).
    exists c, nt', n'. by split_and!. }
  destruct (campaign_once k nt i n Hl Hi Hcr Hst ltac:(lia)) as (c & nt1 & n1 & Hc & Hr & Hcp).
  assert (live (k + lenN (repeat (ATick i) c)) nt1) as Hl1.
  { apply (live_exec k nt); [done| |apply repeat_tick_ok|done]. rewrite repeat_length. lia. }
  rewrite repeat_length in Hl1. destruct Hcp as [Hi1 Ho1 Hcr1 Hst1 Ht1 _ Hlog1 _].
  destruct (IH (k + N.of_nat c) nt1 n1 Hl1 Hi1 Hcr1) as (c2 & nt2 & n2 & Hc2 & Hr2 & Hcp2);
    [congruence|lia|].
  exists (c + c2)%nat, nt2, n2. split; [lia|]. split.
  { by rewrite repeat_app, exec_all_app, Hr. }
  destruct Hcp2 as [Hi2 Ho2 ? ? Ht2 ? Hlog2 Hs2]. rewrite Ht1 in *.
  replace (currentTerm n + 1 + N.of_nat (S d)) with (currentTerm n + N.of_nat (S (S d))) in * by lia.
  split; try done.
  - intros p Hp. by rewrite Ho2, Ho1.
  - congruence.
  - by rewrite <- Hlog1.
Qed.

(** ** Gathering votes *)

(** [i] runs in term [T] with the log [l] and the votes [js], or has won. *)
Record race (i T : N) (l : Log) (js : list N) n : Prop := {
  rc_crashed : n.(crashed) = false;
  rc_term : n.(currentTerm) = T;
  rc_log : n.(raftLog) = l;
  rc_role :
    n.(state) = StateLeader ∧ (∀ p, p ∈ n.(peers) → get_index n.(nextIndex) p = lastIndex l + 1) ∨
    n.(state) = StateCandidate ∧ list_to_set (i :: js) ⊆ granted_set n.(votesGranted) ∧
      (js = [] ∨ ¬ quorum M (granted_set n.(votesGranted)));
}.

(** A running member that has not reached term [T] and accepts the log [l]. *)
Definition voter nt (T : N) (l : Log) (j : N) : Prop :=
  ∃ f, nt.(net_nodes) !! j = Some f ∧ f.(crashed) = false ∧ f.(currentTerm) < T ∧
    up_to_date f.(raftLog).(entries) (lastIndex l) (lastTerm l).

(** The same member later: in term [T] at most, with the log it had. *)
Definition unharmed nt nt' (T : N) (j : N) : Prop :=
  ∀ f, nt.(net_nodes) !! j = Some f → ∃ f', nt'.(net_nodes) !! j = Some f' ∧
    f'.(raftLog) = f.(raftLog) ∧ f'.(currentTerm) ≤ N.max f.(currentTerm) T ∧
    f'.(crashed) = f.(crashed).

Lemma unharmed_refl nt T j : unharmed nt nt T j.
Proof. intros f Hf. exists f. split_and!; try done. lia. Qed.

Lemma unharmed_eq nt nt' T j :
  nt'.(net_nodes) !! j = nt.(net_nodes) !! j → unharmed nt nt' T j.
Proof. intros E f Hf. exists f. rewrite E. split_and!; try done. lia. Qed.

Lemma unharmed_trans nt1 nt2 nt3 T j :
  unharmed nt1 nt2 T j → unharmed nt2 nt3 T j → unharmed nt1 nt3 T j.
Proof.
  intros H1 H2 f Hf. destruct (H1 f Hf) as (f2 & Hf2 & ? & ? & ?).
  destruct (H2 f2 Hf2) as (f3 & Hf3 & ? & ? & ?). exists f3. split_and!; try done; [congruence|lia|congruence].
Qed.

(** The voter's side. *)
Lemma vote_given k nt i j T l f :
  live k nt → nt.(net_nodes) !! j = Some f → i ∈ M →
  f.(crashed) = false → f.(currentTerm) < T →
  up_to_date f.(raftLog).(entries) (lastIndex l) (lastTerm l) →
  ∃ f', Step f (request i j T l) = Ret (f', [NewRequestVoteResp j i T true]) ∧
    f'.(raftLog) = f.(raftLog) ∧ f'.(currentTerm) = T ∧ f'.(crashed) = false.
Proof.
  intros Hl Hj Hi Hcr Hlt Hup. destruct (live_node _ _ _ _ Hl Hj) as (<- & _ & Hok & _).
  destruct (request_vote_result f (request i f.(id) T l) (nok_wf _ _ Hok))
    as (f' & g & E & Hg & Ht & _ & Hlog).
  assert (g = true) as ->.
  { apply Hg. cbn. split_and!; [lia|by left|done]. }
  assert (Step f (request i f.(id) T l) = handleRequestVote f (request i f.(id) T l)) as HS.
  { unfold Step. by rewrite Hcr. }
  rewrite E in HS. cbn in HS, Ht. rewrite N.max_r in HS, Ht by lia.
  exists f'. split_and!; [done|done|done|].
  rewrite (vt_crashed _ _ (Step_vitals _ _ _ _ HS)). done.
Qed.

(** The candidate's side. *)
Lemma vote_taken k nt i j T l js n :
  live k nt → nt.(net_nodes) !! i = Some n → race i T l js n →
  ∃ n' out, Step n (NewRequestVoteResp j i T true) = Ret (n', out) ∧ race i T l (j :: js) n'.
Proof.
  intros Hl Hi [Hcr Ht Hlog Hrole].
  destruct (live_node _ _ _ _ Hl Hi) as (Hid & Hp & Hok & _).
  unfold Step. rewrite Hcr. cbn [NewRequestVoteResp Type_].
  destruct Hrole as [[Hst Hni]|(Hst & Hsub & _)].
  { exists n, []. split; [|split; [done..|by left]]. unfold handleRequestVoteResp.
    cbn [NewRequestVoteResp Message.Term].
    rewrite Ht, N.ltb_irrefl, N.eqb_refl, bool_decide_eq_false_2 by congruence. done. }
  pose proof Hp as [_ Hnd Hne Hmem].
  destruct (vote_response_result n (NewRequestVoteResp j i T true) (nok_wf _ _ Hok))
    as (n' & out & E & Hid' & Hps' & Ht' & Hlog' & Hres); [by constructor|done|done|].
  cbn [NewRequestVoteResp Granted From] in Hres. rewrite Hmem in Hres.
  exists n', out. split; [done|]. split.
  - assert (Step n (NewRequestVoteResp j i T true) = Ret (n', out)) as HS.
    { unfold Step. by rewrite Hcr. }
    by rewrite (vt_crashed _ _ (Step_vitals _ _ _ _ HS)).
  - congruence.
  - congruence.
  - destruct Hres as [(_ & Hs & Hni)|(Hnq & Hs & Hv)].
    + left. split; [done|]. intros p. rewrite Hps', <- Hlog. apply Hni.
    + right. rewrite Hv. split_and!; [done| |by right]. cbn in Hsub |- *. set_solver.
Qed.

Definition ask (i T : N) (l : Log) (j : N) : list Action :=
  [ADeliver (request i j T l); ADeliver (NewRequestVoteResp j i T true)].

(** One member asked. *)
Lemma ask_runs k nt i j T l js n :
  live k nt → nt.(net_nodes) !! i = Some n → race i T l js n → i ∈ M → j ≠ i →
  request i j T l ∈ nt.(sent) → voter nt T l j →
  ∃ nt' n', exec_all nt (ask i T l j) = Ret nt' ∧ nt'.(net_nodes) !! i = Some n' ∧
    race i T l (j :: js) n' ∧ unharmed nt nt' T j ∧
    (∀ p, p ≠ i → p ≠ j → nt'.(net_nodes) !! p = nt.(net_nodes) !! p) ∧
    (∀ m, m ∈ nt.(sent) → m ∈ nt'.(sent)).
Proof.
  intros Hl Hi Hrace HiM Hji Hreq (f & Hj & Hcr & Hlt & Hup).
  destruct (vote_given k nt i j T l f Hl Hj HiM Hcr Hlt Hup) as (f' & Ef & Hflog & Hft & Hfcr).
  destruct (vote_taken k nt i j T l js n Hl Hi Hrace) as (n' & out & En & Hrace').
  eexists _, n'. split.
  { unfold ask. cbn [exec_all exec]. rewrite decide_True by done. cbn [request NewRequestVote To].
    rewrite (exec_on nt j f _ f' _ Hj Ef). cbn [mbind go_bind].
    rewrite decide_True by (cbn; left). cbn [NewRequestVoteResp To].
    rewrite (exec_on _ i n _ n' out); [done| |done]. cbn. by rewrite lookup_insert_ne. }
  cbn. split_and!.
  - by rewrite lookup_insert_eq.
  - done.
  - intros f0 Hf0. rewrite Hj in Hf0. injection Hf0 as <-. exists f'. cbn.
    rewrite lookup_insert_ne by done. rewrite lookup_insert_eq. split_and!; congruence || lia.
  - intros p Hpi Hpj. by rewrite !lookup_insert_ne.
  - intros m Hm. apply elem_of_app. right. by right.
Qed.

(** Every member of a list asked. *)
Lemma asks_run js k nt i T l js0 n :
  live k nt → nt.(net_nodes) !! i = Some n → race i T l js0 n → i ∈ M → NoDup js → i ∉ js →
  (∀ j, j ∈ js → request i j T l ∈ nt.(sent) ∧ voter nt T l j) →
  k + 2 * lenN js + 3 ≤ ticks_max →
  ∃ nt' n', exec_all nt (mjoin (map (ask i T l) js)) = Ret nt' ∧ nt'.(net_nodes) !! i = Some n' ∧
    race i T l (reverse js ++ js0) n' ∧ ∀ p, p ≠ i → unharmed nt nt' T p.
Proof.
  revert k nt js0 n. induction js as [|j js IH];
    intros k nt js0 n Hl Hi Hrace HiM Hnd Hni Hjs Hk.
  { exists nt, n. split_and!; try done. intros p _. apply unharmed_refl. }
  apply NoDup_cons in Hnd as [Hnj Hnd]. apply not_elem_of_cons in Hni as [Hij Hni].
  cbn [length] in Hk. destruct (Hjs j) as [Hreq Hv]; [left|].
  destruct (ask_runs k nt i j T l js0 n Hl Hi Hrace HiM) as
    (nt1 & n1 & E1 & Hi1 & Hrace1 & Hu1 & Ho1 & Hs1); [done..|].
  assert (live (k + 2) nt1) as Hl1.
  { apply (live_exec k nt (ask i T l j)); [done|cbn; lia|by repeat constructor|done]. }
  destruct (IH (k + 2) nt1 (j :: js0) n1 Hl1 Hi1 Hrace1 HiM Hnd Hni) as
    (nt' & n' & E' & Hi' & Hrace' & Hu'); [|lia|].
  { intros p Hp. destruct (Hjs p) as [Hreqp (f & Hf & ?)]; [by right|]. split; [by apply Hs1|].
    exists f. rewrite Ho1; [done|congruence|congruence]. }
  exists nt', n'. split; [|split; [done|split]].
  - cbn [map mjoin list_join]. rewrite exec_all_app, E1. done.
  - by rewrite reverse_cons, <- app_assoc.
  - intros p Hp. eapply unharmed_trans; [|by apply Hu'].
    destruct (decide (p = j)) as [->|]; [done|]. apply unharmed_eq. by apply Ho1.
Qed.

(** With a majority of voters the race is won. *)
Lemma race_won i T l js n :
  race i T l js n → js ≠ [] → quorum M (list_to_set (i :: js)) →
  n.(state) = StateLeader ∧ ∀ p, p ∈ n.(peers) → get_index n.(nextIndex) p = lastIndex l + 1.
Proof.
  intros [_ _ _ [?|(_ & Hsub & Hno)]] Hne Hq; [done|]. destruct Hno as [?|Hno]; [done|].
  destruct Hno. unfold quorum in *.
  assert (list_to_set (i :: js) ∩ M ⊆ granted_set (votesGranted n) ∩ M) as Hle by set_solver.
  apply subseteq_size in Hle. lia.
Qed.

Lemma friendly_app acts acts' : Forall friendly acts → Forall friendly acts' → Forall friendly (acts ++ acts').
Proof. intros. by apply Forall_app. Qed.

Lemma asks_friendly i T l js : Forall friendly (mjoin (map (ask i T l) js)).
Proof. induction js; [constructor|]. by repeat constructor. Qed.

Lemma asks_length i T l js : length (mjoin (map (ask i T l) js)) = (2 * length js)%nat.
Proof. induction js as [|j js IH]; [done|].
  change (length (ask i T l j ++ mjoin (map (ask i T l) js)) = (2 * S (length js))%nat).
  rewrite length_app, IH. cbn. lia.
Qed.

(** The calls of an election: [c] ticks of [i], then for each of [js] the delivery of the
    request of [i] and of the granted answer.  Nothing else happens. *)
Definition campaign_calls (i : N) (c : nat) (T : N) (l : Log) (js : list N) : list Action :=
  repeat (ATick i) c ++ mjoin (map (ask i T l) js).

Lemma campaign_calls_friendly i c T l js : Forall friendly (campaign_calls i c T l js).
Proof. apply friendly_app; [|apply asks_friendly]. induction c; by constructor. Qed.

Lemma campaign_calls_length i c T l js :
  lenN (campaign_calls i c T l js) = N.of_nat c + 2 * lenN js.
Proof. unfold campaign_calls. rewrite length_app, repeat_length, asks_length. lia. Qed.

(** A running node with enough voters is elected. *)
Lemma elects k nt i n js :
  live k nt → nt.(net_nodes) !! i = Some n → n.(crashed) = false → n.(state) ≠ StateLeader →
  NoDup js → i ∉ js → js ≠ [] → (∀ j, j ∈ js → j ∈ M) → quorum M (list_to_set (i :: js)) →
  (∀ j, j ∈ js → ∃ f, nt.(net_nodes) !! j = Some f ∧ f.(crashed) = false ∧
     up_to_date f.(raftLog).(entries) (lastIndex n.(raftLog)) (lastTerm n.(raftLog))) →
  k + 20 * (k + 1) + 2 * lenN js + 40 ≤ ticks_max →
  ∃ c nt' n', N.of_nat c ≤ 20 * (k + 1) ∧
    exec_all nt (campaign_calls i c n'.(currentTerm) n.(raftLog) js) = Ret nt' ∧
    nt'.(net_nodes) !! i = Some n' ∧
    n'.(state) = StateLeader ∧ n'.(crashed) = false ∧ n'.(raftLog) = n.(raftLog) ∧
    k < n'.(currentTerm) ∧
    (∀ p, p ∈ n'.(peers) → get_index n'.(nextIndex) p = lastIndex n.(raftLog) + 1) ∧
    ∀ p, p ≠ i → unharmed nt nt' n'.(currentTerm) p.
Proof.
  intros Hl Hi Hcr Hst Hnd Hni Hne HjM Hq Hjs Hk.
  destruct (live_node _ _ _ _ Hl Hi) as (Hid & Hp & _).
  assert (i ∈ M) as HiM by (rewrite <- Hid; apply (p_self _ _ Hp)).
  destruct (campaign_to k nt i n (N.to_nat k) Hl Hi Hcr Hst) as (c & nt1 & n1 & Hc & Hr1 & Hcp); [lia|].
  destruct Hcp as [Hi1 Ho1 Hcr1 Hst1 Ht1 Hv1 Hlog1 Hs1].
  set (T := currentTerm n + N.of_nat (S (N.to_nat k))) in *.
  assert (live (k + N.of_nat c) nt1) as Hl1.
  { pose proof (live_exec k nt (repeat (ATick i) c) nt1 Hl) as Hle.
    rewrite repeat_length in Hle. apply Hle; [lia|apply repeat_tick_ok|done]. }
  destruct (asks_run js (k + N.of_nat c) nt1 i T (raftLog n) [] n1 Hl1 Hi1) as
    (nt' & n' & Hr' & Hi' & Hrace & Hu); [|done..| |lia|].
  { split; [done|done|done|]. right. rewrite Hv1. split_and!; [done| |by left].
    rewrite granted_set_singleton. cbn. set_solver. }
  { intros j Hj. assert (j ≠ i) as Hji by by intros ->.
    split; [by apply Hs1; [apply HjM|]|]. destruct (Hjs j Hj) as (f & Hf & ? & ?).
    exists f. rewrite Ho1 by done. split_and!; try done.
    destruct (live_node _ _ _ _ Hl Hf) as (_ & _ & Hok & _).
    pose proof (nok_term _ _ Hok). unfold T. lia. }
  rewrite app_nil_r in Hrace. pose proof Hrace as [Hcr' Ht' Hlog' _].
  destruct (race_won _ _ _ _ _ Hrace) as [Hst' Hnx].
  { intros E. apply Hne. rewrite <- (reverse_involutive js), E. done. }
  { replace (list_to_set (i :: reverse js)) with (list_to_set (i :: js) : gset N); [done|].
    apply set_eq. intros v. rewrite !elem_of_list_to_set, !elem_of_cons, elem_of_reverse. done. }
  exists c, nt', n'. split_and!; try done.
  - lia.
  - unfold campaign_calls. by rewrite Ht', exec_all_app, Hr1.
  - rewrite Ht'. unfold T. lia.
  - intros p Hpi. rewrite Ht'. eapply unharmed_trans; [|by apply Hu]. apply unharmed_eq.
    by apply Ho1.
Qed.

(** ** Restarting the crashed members *)

Record revived (f f' : Node R) : Prop := {
  rv_log : f'.(raftLog).(entries) = f.(raftLog).(entries);
  rv_term : f'.(currentTerm) = f.(currentTerm);
  rv_state : f.(state) ≠ StateLeader → f'.(state) ≠ StateLeader;
}.

Lemma restart_one k nt i f :
  live k nt → nt.(net_nodes) !! i = Some f → k + 4 ≤ ticks_max →
  ∃ f', exec nt (ARestart i) = Ret (MkNet (<[i := f']> nt.(net_nodes)) nt.(sent)) ∧
    revived f f' ∧ f'.(crashed) = false.
Proof.
  intros Hl Hi Hk. destruct (live_node _ _ _ _ Hl Hi) as (_ & _ & Hok & _).
  unfold ticks_max in Hk. destruct (crashed f) eqn:Hcr.
  - destruct (Restart_spec k f Hok) as (f' & E & _ & Ht & _ & Hlog & Hst & Hcr');
      [unfold u64_modulus; lia|done|].
    exists f'. split; [|split; [split; [by rewrite Hlog|done|by rewrite Hst]|done]].
    cbn. unfold on_node. rewrite Hi, E. done.
  - exists f. split; [|by split]. cbn. unfold on_node, Restart. by rewrite Hi, Hcr.
Qed.

Lemma restarts_friendly js : Forall friendly (map ARestart js).
Proof. induction js; by constructor. Qed.

Lemma restart_all js k nt :
  live k nt → NoDup js → (∀ j, j ∈ js → is_Some (nt.(net_nodes) !! j)) →
  k + lenN js + 4 ≤ ticks_max →
  ∃ nt', exec_all nt (map ARestart js) = Ret nt' ∧
    (∀ p, p ∉ js → nt'.(net_nodes) !! p = nt.(net_nodes) !! p) ∧
    ∀ j f, j ∈ js → nt.(net_nodes) !! j = Some f →
      ∃ f', nt'.(net_nodes) !! j = Some f' ∧ revived f f' ∧ f'.(crashed) = false.
Proof.
  revert k nt. induction js as [|j js IH]; intros k nt Hl Hnd Hjs Hk.
  { exists nt. split_and!; try done. by intros j f ?%not_elem_of_nil. }
  apply NoDup_cons in Hnd as [Hnj Hnd]. destruct (Hjs j) as [f Hf]; [left|].
  cbn [length] in Hk. destruct (restart_one k nt j f Hl Hf) as (f' & E & Hrv & Hcr); [lia|].
  set (nt1 := MkNet _ _) in E.
  assert (live (k + 1) nt1) as Hl1.
  { apply (live_exec k nt [ARestart j] nt1 Hl); [cbn; lia|by constructor|]. cbn [exec_all]. by rewrite E. }
  destruct (IH (k + 1) nt1 Hl1 Hnd) as (nt' & Hr & Ho & Hall); [|lia|].
  { intros p Hp. cbn. rewrite lookup_insert_ne by (by intros ->). apply Hjs. by right. }
  exists nt'. split_and!.
  - cbn [map exec_all]. by rewrite E.
  - intros p [Hpj Hp]%not_elem_of_cons. rewrite Ho by done. cbn. by rewrite lookup_insert_ne.
  - intros p g [->|Hp]%elem_of_cons Hg.
    + rewrite Hf in Hg. injection Hg as <-. exists f'. rewrite Ho by done. cbn.
      by rewrite lookup_insert_eq.
    + apply Hall; [done|]. cbn. rewrite lookup_insert_ne; [done|]. by intros ->.
Qed.
(** ** Serving a command *)

(** What a proposal changes. *)
Lemma Propose_leads n cmd :
  wf n.(raftLog) → lenN n.(raftLog).(entries) + 1 < u64_modulus →
  n.(crashed) = false → n.(state) = StateLeader →
  ∃ n', Propose n cmd = Ret (n', None) ∧ n'.(state) = StateLeader ∧
    n'.(currentTerm) = n.(currentTerm) ∧ n'.(peers) = n.(peers) ∧ n'.(nextIndex) = n.(nextIndex) ∧
    n'.(raftLog).(entries) = n.(raftLog).(entries) ++
      [MkEntry n.(currentTerm) (lastIndex n.(raftLog) + 1) cmd].
Proof.
  intros Hwf Hsz Hcr Hst. unfold Propose. rewrite Hcr, bool_decide_eq_true_2 by done. cbn [negb].
  rewrite (Last_wf _ Hwf). cbn [mbind go_bind].
  rewrite (Append_one _ _ _ Hwf Hsz). cbn [mbind go_bind]. eexists. split; [done|].
  pose proof (wf_nonempty _ Hwf). split_and!; try done. cbn. do 3 f_equal. unfold lastIndex. lia.
Qed.

(** The same in a network. *)
Lemma propose_runs k nt i n cmd :
  live k nt → nt.(net_nodes) !! i = Some n → n.(crashed) = false → n.(state) = StateLeader →
  is_u64 (lenN cmd) → k + 4 ≤ ticks_max →
  ∃ nt' n', exec_all nt [APropose i cmd] = Ret nt' ∧ live (k + 1) nt' ∧
    nt'.(net_nodes) !! i = Some n' ∧
    (∀ p, p ≠ i → nt'.(net_nodes) !! p = nt.(net_nodes) !! p) ∧
    n'.(state) = StateLeader ∧ n'.(currentTerm) = n.(currentTerm) ∧
    n'.(peers) = n.(peers) ∧ n'.(nextIndex) = n.(nextIndex) ∧
    n'.(raftLog).(entries) = n.(raftLog).(entries) ++
      [MkEntry n.(currentTerm) (lastIndex n.(raftLog) + 1) cmd] ∧
    lastIndex n'.(raftLog) = lastIndex n.(raftLog) + 1.
Proof.
  intros Hl Hi Hcr Hst Hcmd Hk. destruct (live_node _ _ _ _ Hl Hi) as (_ & _ & Hok & _).
  pose proof (nok_len _ _ Hok) as Hlen. pose proof (wf_nonempty _ (nok_wf _ _ Hok)) as Hne.
  destruct (Propose_leads n cmd (nok_wf _ _ Hok)) as (n' & E & Hst' & Ht' & Hps' & Hnx' & Hlog');
    [unfold ticks_max, u64_modulus in *; lia|done|done|].
  exists (MkNet (<[i := n']> nt.(net_nodes)) nt.(sent)), n'.
  assert (exec_all nt [APropose i cmd] = Ret (MkNet (<[i := n']> nt.(net_nodes)) nt.(sent))) as Hr.
  { cbn [exec_all exec]. by rewrite (exec_on nt i n _ n' [] Hi) by (by rewrite E). }
  split; [done|]. split.
  { apply (live_exec k nt [APropose i cmd]); [done|cbn; lia|by constructor|done]. }
  cbn. split_and!; try done; [by rewrite lookup_insert_eq|by intros; rewrite lookup_insert_ne|].
  unfold lastIndex. rewrite Hlog', length_app. cbn [length]. lia.
Qed.

Lemma members_quorum i : i ∈ M → quorum M (list_to_set (i :: elements (M ∖ {[i]}))).
Proof.
  intros Hi. unfold quorum.
  replace (list_to_set (i :: elements (M ∖ {[i]})) ∩ M) with M.
  - assert ({[i]} ⊆ M) as Hsub%subseteq_size by set_solver. rewrite size_singleton in Hsub. lia.
  - apply set_eq. intros v. rewrite elem_of_intersection, elem_of_list_to_set, elem_of_cons,
      elem_of_elements. destruct (decide (v = i)); set_solver.
Qed.

Lemma other_members i :
  (2 ≤ size M)%nat → let js := elements (M ∖ {[i]}) in
  js ≠ [] ∧ (∀ j, j ∈ js ↔ j ∈ M ∧ j ≠ i) ∧ (length js ≤ size M)%nat.
Proof.
  intros H2 js. split_and!.
  - intros E. assert (M ⊆ {[i]}) as Hsub%subseteq_size; [|rewrite size_singleton in Hsub; lia].
    intros j Hj. destruct (decide (j = i)) as [->|Hji]; [by apply elem_of_singleton|].
    assert (j ∈ js) as Hin by (apply elem_of_elements; set_solver). rewrite E in Hin.
    by apply not_elem_of_nil in Hin.
  - intros j. unfold js. rewrite elem_of_elements. set_solver.
  - change (size (M ∖ {[i]}) ≤ size M)%nat. apply subseteq_size. set_solver.
Qed.

(** A member whose log is as long and as up to date as every other. *)
Definition best nt n : Prop :=
  ∀ j f, j ≠ n.(id) → nt.(net_nodes) !! j = Some f →
    up_to_date f.(raftLog).(entries) (lastIndex n.(raftLog)) (lastTerm n.(raftLog)) ∧
    (length f.(raftLog).(entries) ≤ length n.(raftLog).(entries))%nat.

(** Whatever has crashed, such a member can be made leader with everybody running. *)
Lemma best_leads k nt i n :
  live k nt → nt.(net_nodes) !! i = Some n → n.(state) ≠ StateLeader → best nt n →
  (∀ j, j ∈ M → is_Some (nt.(net_nodes) !! j)) → (2 ≤ size M)%nat →
  21 * k + 23 * N.of_nat (size M) + 70 ≤ ticks_max →
  ∃ acts nt' n', lenN acts ≤ 20 * (k + 1) + 23 * N.of_nat (size M) ∧ Forall friendly acts ∧
    exec_all nt acts = Ret nt' ∧ nt'.(net_nodes) !! i = Some n' ∧
    n'.(state) = StateLeader ∧ n'.(crashed) = false ∧
    n'.(raftLog).(entries) = n.(raftLog).(entries) ∧
    (∀ p, p ∈ n'.(peers) → get_index n'.(nextIndex) p = lastIndex n.(raftLog) + 1) ∧
    ∀ j, j ∈ M → j ≠ i → ∃ f, nt'.(net_nodes) !! j = Some f ∧ f.(crashed) = false ∧
      f.(currentTerm) ≤ n'.(currentTerm) ∧
      (length f.(raftLog).(entries) ≤ length n.(raftLog).(entries))%nat.
Proof.
  intros Hl Hi Hst Hbest Hdom H2 Hk.
  destruct (live_node _ _ _ _ Hl Hi) as (Hid & Hp & Hok & _).
  assert (i ∈ M) as HiM by (rewrite <- Hid; apply (p_self _ _ Hp)).
  set (ms := elements M).
  destruct (other_members i H2) as (Hne & Hmem & Hjs).
  assert (lenN ms = N.of_nat (size M)) as Hms by done.
  destruct (restart_all ms k nt Hl) as (nt1 & Hr1 & _ & Hall1);
    [apply NoDup_elements|intros j Hj; apply Hdom; by apply elem_of_elements|lia|].
  pose proof (restarts_friendly ms) as Hf1.
  assert (live (k + lenN ms) nt1) as Hl1.
  { rewrite <- (length_map ARestart ms). apply (live_exec k nt); [done| |by apply friendly_ok|done].
    rewrite length_map. lia. }
  destruct (Hall1 i n) as (n1 & Hi1 & [Hlog1 Ht1 Hst1] & Hcr1); [by apply elem_of_elements|done|].
  assert (lastIndex n1.(raftLog) = lastIndex n.(raftLog)) as Hli by by apply lastIndex_entries.
  assert (lastTerm n1.(raftLog) = lastTerm n.(raftLog)) as Hlt by (unfold lastTerm; by rewrite Hlog1).
  assert (∀ j, j ∈ M → j ≠ i → ∃ f, nt1.(net_nodes) !! j = Some f ∧ f.(crashed) = false ∧
    up_to_date f.(raftLog).(entries) (lastIndex n.(raftLog)) (lastTerm n.(raftLog)) ∧
    (length f.(raftLog).(entries) ≤ length n.(raftLog).(entries))%nat ∧ f.(currentTerm) ≤ k) as Hothers.
  { intros j Hj Hji. destruct (Hdom j Hj) as [f Hf].
    destruct (Hall1 j f) as (f1 & Hf1' & [E1 E2 _] & ?); [by apply elem_of_elements|done|].
    destruct (Hbest j f) as [? ?]; [congruence|done|]. exists f1.
    destruct (live_node _ _ _ _ Hl Hf) as (_ & _ & Hokf & _). pose proof (nok_term _ _ Hokf).
    rewrite E1, E2. by split_and!. }
  destruct (elects (k + lenN ms) nt1 i n1 (elements (M ∖ {[i]})) Hl1 Hi1 Hcr1 (Hst1 Hst)) as
    (ticks & nt' & n' & Hlen & Hr & Hi' & Hst' & Hcr' & Hlog' & Ht' & Hnx & Hu).
  - apply NoDup_elements.
  - by intros [_ ?]%Hmem.
  - done.
  - by intros j [? _]%Hmem.
  - by apply members_quorum.
  - intros j [Hj Hji]%Hmem.
    destruct (Hothers j Hj Hji) as (f & ? & ? & ? & _). exists f. by rewrite Hli, Hlt.
  - lia.
  - exists (map ARestart ms ++ campaign_calls i ticks n'.(currentTerm) n1.(raftLog)
      (elements (M ∖ {[i]}))), nt', n'.
    rewrite length_app, Nat2N.inj_add, length_map, campaign_calls_length.
    split; [lia|]. split; [apply friendly_app; [done|apply campaign_calls_friendly]|].
    split; [rewrite exec_all_app, Hr1; exact Hr|].
    split; [exact Hi'|]. split; [exact Hst'|]. split; [exact Hcr'|]. split; [congruence|]. split.
    + intros p Hpp. by rewrite Hnx, Hli.
    + intros j Hj Hji. destruct (Hothers j Hj Hji) as (f & Hfj & Hcrf & _ & Hle & Htf).
      destruct (Hu j Hji f Hfj) as (f' & Hf' & Elog & Hle' & Ecr). exists f'.
      rewrite Elog, Ecr. split_and!; try done. lia.
Qed.

Lemma all_committed n :
  wf n.(raftLog) → n.(raftLog).(commitIndex) = lastIndex n.(raftLog) →
  Node.CommittedEntries n = Ret (drop 1 n.(raftLog).(entries)).
Proof.
  intros Hwf Hc. unfold Node.CommittedEntries. rewrite CommittedEntries_wf by done.
  unfold sub. rewrite Hc. f_equal. apply take_ge. rewrite length_drop. unfold lastIndex. lia.
Qed.

(** Elect it, give it the command, replicate: everything is committed. *)
Lemma serves k nt i n cmd :
  live k nt → nt.(net_nodes) !! i = Some n → n.(state) ≠ StateLeader → best nt n →
  (∀ j, j ∈ M → is_Some (nt.(net_nodes) !! j)) → (2 ≤ size M)%nat → is_u64 (lenN cmd) →
  40 * (k + 2) * (N.of_nat (size M) + 1) ≤ ticks_max →
  ∃ acts nt' n', lenN acts ≤ 30 * (k + 2) * (N.of_nat (size M) + 1) ∧ Forall friendly acts ∧
    exec_all nt acts = Ret nt' ∧ nt'.(net_nodes) !! i = Some n' ∧
    n'.(state) = StateLeader ∧
    let es := n.(raftLog).(entries) ++ [MkEntry n'.(currentTerm) (lastIndex n.(raftLog) + 1) cmd] in
    ∀ j, j ∈ M → ∃ f, nt'.(net_nodes) !! j = Some f ∧ f.(raftLog).(entries) = es ∧
      Node.CommittedEntries f = Ret (drop 1 es).
Proof.
  intros Hl Hi Hst Hbest Hdom H2 Hcmd Hk.
  destruct (live_node _ _ _ _ Hl Hi) as (_ & _ & Hok & _).
  pose proof (nok_len _ _ Hok) as Hlen. pose proof (wf_nonempty _ (nok_wf _ _ Hok)) as Hne.
  assert (lastIndex n.(raftLog) ≤ k) as Hlast by (unfold lastIndex; lia).
  destruct (best_leads k nt i n Hl Hi Hst Hbest Hdom H2) as
    (acts & nt1 & n1 & Hlen1 & Hf1 & Hr1 & Hi1 & Hst1 & Hcr1 & Hlog1 & Hnx1 & Hoth1); [nia|].
  assert (live (k + lenN acts) nt1) as Hl1
    by (apply (live_exec k nt); [done|nia|by apply friendly_ok|done]).
  destruct (propose_runs _ nt1 i n1 cmd Hl1 Hi1 Hcr1 Hst1 Hcmd) as
    (nt2 & n2 & Hr2 & [[s Hsim] _] & Hi2 & Ho2 & Hst2 & Ht2 & Hps2 & Hnx2 & Hlog2 & Hlast2); [nia|].
  rewrite (lastIndex_entries _ _ Hlog1) in Hlog2, Hlast2. rewrite Hlog1, <- Ht2 in Hlog2.
  destruct (leader_commits M _ nt2 s i n2 HM Hsim) as
    (acts' & nt' & n' & Hlen' & Hf' & Hr' & Hi' & Hsc & Hall).
  - done.
  - done.
  - unfold lastTerm. rewrite Hlog2, last_snoc. done.
  - done.
  - intros j Hj Hji. destruct (Hoth1 j Hj Hji) as (f & Hf & Hcrf & Htf & Hlf). exists f.
    rewrite Ho2 by done. split; [done|].
    destruct (live_node _ _ _ _ Hl1 Hf) as (Hidf & _).
    split; [done|by rewrite Ht2|rewrite Hlog2, length_app; lia|].
    rewrite Hidf, Hnx2, Hnx1, Hlast2; [lia|]. by apply (live_peer _ _ _ _ _ Hl1 Hi1).
  - rewrite Hlast2. unfold ticks_max, u64_modulus in *. nia.
  - rewrite Hlast2 in Hlen'. exists (acts ++ [APropose i cmd] ++ acts'), nt', n'.
    rewrite !length_app. cbn [length]. destruct Hsc as [_ _ Hs' Ht' _].
    split; [nia|]. split; [by apply friendly_app; [|constructor]|].
    split; [by rewrite exec_all_app, Hr1; cbn [mbind go_bind]; rewrite exec_all_app, Hr2|].
    split; [done|]. split; [by rewrite Hs'|]. cbn zeta. rewrite Ht', <- Hlog2.
    intros j Hj. destruct (Hall j Hj) as (f & Hfj & Hwf & He & Hc). exists f.
    split; [done|]. split; [done|]. rewrite <- He. apply all_committed; [done|].
    by rewrite Hc, (lastIndex_entries f n2).
Qed.
End election.

(** ** What every execution guarantees *)

(** C39: network_timers.  In every execution, crashes and restarts included, every node keeps
    the bounds [New] gave its election timeout, the timeout drawn stays between them, and
    the elapsed ticks are counted without overflow. *)
Theorem network_timers members rngs acts nt i n :
  lenN acts ≤ ticks_max → exec_all (start members rngs) acts = Ret nt →
  nt.(net_nodes) !! i = Some n →
  n.(electionTimeoutMin) = 10%Z ∧ n.(electionTimeoutMax) = 20%Z ∧
  (10 ≤ n.(electionTimeout) ≤ 20)%Z ∧ (0 ≤ n.(electionElapsed) ≤ Z.of_nat (length acts))%Z.
Proof.
  intros Hk Hrun Hi.
  pose proof (exec_all_timers 0 _ _ _ (start_timers members rngs) Hk Hrun i n Hi) as [? ? ? Hel].
  split_and!; try done; lia.
Qed.

Lemma execution_live members rngs acts nt :
  members_ok members → lenN acts + 3 ≤ ticks_max → Forall action_ok acts →
  exec_all (start members rngs) acts = Ret nt → live (list_to_set members) (lenN acts) nt.
Proof.
  intros Hm Hk Ha Hrun. unfold ticks_max in Hk.
  apply (live_exec _ (mem_zero_set _ Hm) 0 (start members rngs)); [|done|done|done].
  split; [exists init; by apply start_sim|apply start_timers].
Qed.

(** C15: network_elects.  Elections can be won: in any reachable state a running member [i]
    that does not lead, with a majority of running members [js] beside it for whose logs
    its own is up to date, becomes the leader of a new term by exactly these calls: a bounded
    number of ticks of [i], then for each of [js] the delivery of the request of [i] and of
    its granted answer ([campaign_calls]).  No log changes, and the [nextIndex] of [i] for
    every peer is the end of its log. *)
Theorem network_elects members rngs acts nt i n js :
  members_ok members → 21 * lenN acts + 2 * lenN js + 60 ≤ ticks_max → Forall action_ok acts →
  exec_all (start members rngs) acts = Ret nt → nt.(net_nodes) !! i = Some n →
  n.(crashed) = false → n.(state) ≠ StateLeader →
  NoDup js → i ∉ js → js ≠ [] → (∀ j, j ∈ js → j ∈ members) →
  (length members < 2 * S (length js))%nat →
  (∀ j, j ∈ js → ∃ f, nt.(net_nodes) !! j = Some f ∧ f.(crashed) = false ∧
     up_to_date f.(raftLog).(entries) (lastIndex n.(raftLog)) (lastTerm n.(raftLog))) →
  ∃ c nt' n', N.of_nat c ≤ 20 * (lenN acts + 1) ∧
    exec_all nt (campaign_calls i c n'.(currentTerm) n.(raftLog) js) = Ret nt' ∧
    nt'.(net_nodes) !! i = Some n' ∧
    n'.(state) = StateLeader ∧ n'.(raftLog) = n.(raftLog) ∧ n.(currentTerm) < n'.(currentTerm) ∧
    (∀ p, p ∈ n'.(peers) → get_index n'.(nextIndex) p = lastIndex n.(raftLog) + 1) ∧
    ∀ j f, j ≠ i → nt.(net_nodes) !! j = Some f →
      ∃ f', nt'.(net_nodes) !! j = Some f' ∧ f'.(raftLog) = f.(raftLog).
Proof.
  intros Hm Hk Ha Hrun Hi Hcr Hst Hnd Hni Hne HjM Hmaj Hv.
  assert (lenN acts + 3 ≤ ticks_max) as Hk3 by lia.
  pose proof (execution_live _ _ _ _ Hm Hk3 Ha Hrun) as Hl.
  set (M := list_to_set members : gset N) in *. pose proof (mem_zero_set _ Hm) as Hz.
  destruct (live_node M Hz _ _ _ _ Hl Hi) as (Hid & Hp & Hok & _).
  assert (i ∈ M) as HiM by (rewrite <- Hid; apply (p_self _ _ Hp)).
  destruct (elects M Hz (lenN acts) nt i n js Hl Hi Hcr Hst Hnd Hni Hne) as
    (c & nt' & n' & ? & ? & ? & ? & _ & ? & Ht & ? & Hu); [| |done|lia|].
  - intros j Hj. apply elem_of_list_to_set, HjM, Hj.
  - unfold quorum, M. rewrite size_list_to_set by apply Hm.
    replace (list_to_set (i :: js) ∩ list_to_set members) with (list_to_set (i :: js) : gset N).
    + rewrite size_list_to_set; [done|by constructor].
    + apply set_eq. intros v. rewrite elem_of_intersection, !elem_of_list_to_set, elem_of_cons.
      split; [|by intros [? _]]. intros Hv'. split; [done|].
      destruct Hv' as [->|Hv']; [by apply elem_of_list_to_set in HiM|by apply HjM].
  - exists c, nt', n'. pose proof (nok_term _ _ Hok). split_and!; try done; [lia|].
    intros j f Hj Hf. destruct (Hu j Hj f Hf) as (f' & ? & ? & _). by exists f'.
Qed.

(** C13: network_serves.  The cluster can serve a command, whatever has happened to it: in any
    reachable state let the member [i] not lead and have a log that is at least as up to
    date and as long as every other member's (crashed or not).  Then a schedule without
    crashes restarts whoever crashed, elects [i], gives it the command and has it
    replicated: every log is [i]'s with the command appended, and every member has
    committed it all. *)
Theorem network_serves members rngs acts nt i n cmd :
  members_ok members → (2 ≤ length members)%nat →
  40 * (lenN acts + 2) * (lenN members + 1) ≤ ticks_max → Forall action_ok acts →
  exec_all (start members rngs) acts = Ret nt → nt.(net_nodes) !! i = Some n →
  n.(state) ≠ StateLeader → best nt n → is_u64 (lenN cmd) →
  ∃ acts' nt' n', lenN acts' ≤ 30 * (lenN acts + 2) * (lenN members + 1) ∧
    Forall friendly acts' ∧ exec_all nt acts' = Ret nt' ∧ nt'.(net_nodes) !! i = Some n' ∧
    n'.(state) = StateLeader ∧
    let es := n.(raftLog).(entries) ++ [MkEntry n'.(currentTerm) (lastIndex n.(raftLog) + 1) cmd] in
    ∀ j, j ∈ members → ∃ f, nt'.(net_nodes) !! j = Some f ∧ f.(raftLog).(entries) = es ∧
      Node.CommittedEntries f = Ret (drop 1 es).
Proof.
  intros Hm H2 Hk Ha Hrun Hi Hst Hbest Hcmd.
  assert (lenN acts + 3 ≤ ticks_max) as Hk3 by nia.
  pose proof (execution_live _ _ _ _ Hm Hk3 Ha Hrun) as Hl.
  assert (size (list_to_set members : gset N) = length members) as Hsize
    by (apply size_list_to_set, Hm).
  destruct (serves _ (mem_zero_set _ Hm) (lenN acts) nt i n cmd Hl Hi Hst Hbest) as
    (acts' & nt' & n' & Hlen & ? & ? & ? & ? & Hall); rewrite ?Hsize; try done.
  - intros j Hj. rewrite elem_of_list_to_set in Hj. apply start_dom with (rngs := rngs) in Hj.
    by rewrite (exec_all_dom _ _ _ j Hrun).
  - rewrite Hsize in Hlen. exists acts', nt', n'. do 5 (split; [done|]).
    intros es j Hj. apply Hall. by apply elem_of_list_to_set.
Qed.
End availability.

(** ** A leader that crashes

    Node 1 is elected, appends a command, replicates it to node 2 and crashes: node 2 can be
    elected with the vote of node 3, and serve the next command once node 1 is back. *)

#[local] Existing Instances constant_rng constant_rng_lawful.

Definition orphan_acts : list Action :=
  demo_election ++ [APropose 1 [x61]; AReplicate 1;
    ADeliver (NewAppendEntries 1 2 1 0 0 0 [entry_a]); ACrash 1].
Definition orphan_net : Net Z := net_of (exec_all demo_start orphan_acts).

Lemma orphan_run : exec_all demo_start orphan_acts = Ret orphan_net.
Proof. by vm_compute. Qed.

Lemma orphan_ok : Forall action_ok orphan_acts.
Proof. by apply (bool_decide_unpack _). Qed.

Lemma network_timers_witness :
  lenN orphan_acts ≤ ticks_max ∧ (10 ≤ (node_at orphan_net 1).(electionTimeout) ≤ 20)%Z ∧
  (0 ≤ (node_at orphan_net 1).(electionElapsed) ≤ 16)%Z.
Proof.
  split; [by vm_compute|].
  apply (network_timers [1; 2; 3] (λ _, 0%Z) orphan_acts orphan_net 1);
    [by vm_compute|apply orphan_run|by vm_compute].
Defined.

Lemma network_elects_witness :
  ∃ c nt' n', N.of_nat c ≤ 340 ∧ exec_all orphan_net
      (campaign_calls 2 c n'.(currentTerm) (node_at orphan_net 2).(raftLog) [3]) = Ret nt' ∧
    net_nodes nt' !! 2 = Some n' ∧ n'.(state) = StateLeader.
Proof.
  destruct (network_elects [1; 2; 3] (λ _, 0%Z) orphan_acts orphan_net 2
    (node_at orphan_net 2) [3]) as (c & nt' & n' & Hlen & Hr & Hi & Hst & _).
  - apply demo_members.
  - by vm_compute.
  - apply orphan_ok.
  - apply orphan_run.
  - by vm_compute.
  - by vm_compute.
  - by vm_compute.
  - apply NoDup_singleton.
  - by intros ?%list_elem_of_singleton.
  - done.
  - intros j ->%list_elem_of_singleton. by apply (bool_decide_unpack _).
  - by vm_compute.
  - intros j ->%list_elem_of_singleton. exists (node_at orphan_net 3).
    split; [by vm_compute|]. split; [by vm_compute|]. left. by vm_compute.
  - exists c, nt', n'. split; [|split; [exact Hr|split; [exact Hi|exact Hst]]]. exact Hlen.
Defined.

Lemma orphan_best : best orphan_net (node_at orphan_net 2).
Proof.
  intros j f Hne Hf. revert j f Hf Hne.
  change (map_Forall (λ j (f : Node Z), j ≠ (node_at orphan_net 2).(id) →
    ((log_last f.(raftLog).(entries)).2 < lastTerm (node_at orphan_net 2).(raftLog) ∨
     (log_last f.(raftLog).(entries)).2 = lastTerm (node_at orphan_net 2).(raftLog) ∧
     (log_last f.(raftLog).(entries)).1 ≤ lastIndex (node_at orphan_net 2).(raftLog)) ∧
    (length f.(raftLog).(entries) ≤ length (node_at orphan_net 2).(raftLog).(entries))%nat)
    (net_nodes orphan_net)).
  apply (bool_decide_unpack _). by vm_compute.
Qed.

Lemma network_serves_witness :
  ∃ acts' nt' f t, exec_all orphan_net acts' = Ret nt' ∧ net_nodes nt' !! 3 = Some f ∧
    Node.CommittedEntries f = Ret [entry_a; MkEntry t 2 [x62]].
Proof.
  destruct (network_serves [1; 2; 3] (λ _, 0%Z) orphan_acts orphan_net 2
    (node_at orphan_net 2) [x62]) as (acts' & nt' & n' & _ & _ & Hr & _ & _ & Hall).
  - apply demo_members.
  - cbn. lia.
  - by vm_compute.
  - apply orphan_ok.
  - apply orphan_run.
  - by vm_compute.
  - by vm_compute.
  - apply orphan_best.
  - by vm_compute.
  - destruct (Hall 3) as (f & Hf & _ & Hes); [by apply (bool_decide_unpack _)|].
    exists acts', nt', f, n'.(currentTerm). split; [exact Hr|]. split; [exact Hf|]. exact Hes.
Defined.
