(* ===== verification/ClusterSpec.v ===== *)
(** * What the simulated cluster guarantees

    [cluster_ok w k] is the invariant of a cluster after at most [k] ticks and proposals:
    ids and peer lists are those of [w], every node satisfies [node_ok k], every queued
    message [msg_ok k].  It holds for the wiring [Cluster] really has (nodes among their own
    peers), because the method lemmas of [Refine] need no assumption on the peer lists for
    it.  A [Command] is one call of the cluster API, or a crash or restart of the node that
    [Cluster.Node] returns; commands other than ticks and proposals do not raise [k], however
    many messages they deliver. *)
From S2P Require Import Prelude Log LogPersist Message Node Cluster Spec NodeFacts Refine.
From Stdlib Require Import Strings.Byte.
Open Scope N_scope.

Section cluster.
  Context {R : Type} `{RNG R}.
  Implicit Types (c : Cluster R) (pc : PartitionedCluster R).

(** Who is in the cluster, and whom each node counts among its peers: no call changes it. *)
Definition wiring c : list (N * list N) := map (λ n, (n.(Node.id), n.(peers))) c.(nodes).

Record cluster_ok (w : list (N * list N)) (k : N) c : Prop := {
  cl_wiring : wiring c = w;
  cl_nodes : Forall (node_ok k) c.(nodes);
  cl_queues : ∀ i m, m ∈ queue_of c.(queues) i → msg_ok k m;
}.

Lemma cluster_ok_mono w k k' c : k ≤ k' → cluster_ok w k c → cluster_ok w k' c.
Proof.
  intros Hk [Hw Hn Hq]. split; [done| |].
  - eapply Forall_impl; [done|]. intros n. by apply node_ok_mono.
  - intros i m Hm. apply (msg_ok_mono k); [done|by apply (Hq i)].
Qed.

Lemma route_ok w k c out :
  cluster_ok w k c → (∀ m, m ∈ out → msg_ok k m) → cluster_ok w k (route c out).
Proof.
  revert c. induction out as [|m out IH]; intros c Hc Hout; [done|]. cbn [route foldl].
  apply IH; [|intros m' ?; apply Hout; by right]. destruct Hc as [Hw Hn Hq]. split; [done..|].
  intros i m'. cbn. unfold queue_of at 1. rewrite lookup_insert. case_decide as E; cbn.
  - intros [Hm| ->%list_elem_of_singleton]%elem_of_app; [by apply (Hq (To m))|apply Hout; left].
  - apply Hq.
Qed.

Lemma put_wiring c pos (n n' : Node R) :
  c.(nodes) !! pos = Some n → n'.(Node.id) = n.(Node.id) → n'.(peers) = n.(peers) →
  wiring (put_node c pos n') = wiring c.
Proof.
  intros Hn Hi Hp. unfold wiring, put_node. cbn. rewrite list_fmap_insert, Hi, Hp.
  apply list_insert_id. by rewrite list_lookup_fmap, Hn.
Qed.

Lemma put_ok w k c pos n n' out :
  cluster_ok w k c → c.(nodes) !! pos = Some n → post k n n' out →
  cluster_ok w k (put_node c pos n').
Proof.
  intros [Hw Hn Hq] Hpos [Hi Hp Hok _].
  split; [by rewrite (put_wiring c pos n)| |done]. cbn. by apply Forall_insert.
Qed.

Lemma clear_ok w k c i :
  cluster_ok w k c → cluster_ok w k (c <| queues := <[i := []]> c.(queues) |>).
Proof.
  intros [Hw Hn Hq]. split; [done..|]. intros j m. cbn. unfold queue_of at 1.
  rewrite lookup_insert. case_decide; [by intros ?%not_elem_of_nil|apply Hq].
Qed.

(** ** The operations *)

Lemma tick_from_ok w k c pos j :
  (pos + j = length c.(nodes))%nat → k + 1 < u64_modulus →
  (∀ i n, (pos ≤ i)%nat → c.(nodes) !! i = Some n → node_ok k n) → cluster_ok w (k + 1) c →
  ∃ c', tick_from c pos j = Ret c' ∧ cluster_ok w (k + 1) c'.
Proof.
  intros Hlen Hk. revert c pos Hlen. induction j as [|j IH]; intros c pos Hlen Hrest Hc;
    cbn [tick_from]; [by exists c|].
  destruct (lookup_lt_is_Some_2 c.(nodes) pos) as [n Hn]; [lia|]. rewrite Hn.
  destruct (Tick_refines ∅ k n (Hrest pos n ltac:(lia) Hn) Hk) as (n' & out & -> & Hpost & _).
  cbn [mbind go_bind]. apply IH.
  - rewrite route_nodes. cbn. rewrite length_insert. lia.
  - intros i m Hi. rewrite route_nodes. cbn. rewrite list_lookup_insert_ne by lia.
    apply Hrest. lia.
  - apply route_ok; [by apply (put_ok w _ _ _ n _ out)|apply Hpost].
Qed.

Lemma TickAll_ok w k c :
  cluster_ok w k c → k + 1 < u64_modulus →
  ∃ c', TickAll c = Ret c' ∧ cluster_ok w (k + 1) c'.
Proof.
  intros Hc Hk. apply (tick_from_ok w k); [lia|done| |apply (cluster_ok_mono w k); [lia|done]].
  intros i n _ Hi. destruct Hc as [_ Hn _]. rewrite Forall_lookup in Hn. by apply (Hn i).
Qed.

(** A node handling one message, its replies routed. *)
Lemma step_ok w k c pos n m :
  cluster_ok w k c → k + 1 < u64_modulus → c.(nodes) !! pos = Some n → msg_ok k m →
  ∃ n' replies, Step n m = Ret (n', replies) ∧ node_ok k n' ∧
    (∀ m', m' ∈ replies → msg_ok k m') ∧ cluster_ok w k (put_node c pos n').
Proof.
  intros Hc Hk Hn Hm. pose proof Hc as [_ Hall _]. rewrite Forall_lookup in Hall.
  destruct (Step_refines ∅ k n m (Hall _ _ Hn) Hm Hk) as (n' & replies & -> & Hpost & _).
  exists n', replies. split_and!; [done|apply Hpost|apply Hpost|].
  by apply (put_ok w k c pos n n' replies).
Qed.

Lemma deliver_msgs_ok w k c pos msgs :
  cluster_ok w k c → k + 1 < u64_modulus → (pos < length c.(nodes))%nat →
  (∀ m, m ∈ msgs → msg_ok k m) →
  ∃ c', deliver_msgs c pos msgs = Ret c' ∧ cluster_ok w k c'.
Proof.
  intros Hc Hk. revert c Hc. induction msgs as [|m msgs IH]; intros c Hc Hpos Hms;
    cbn [deliver_msgs]; [by exists c|].
  destruct (lookup_lt_is_Some_2 c.(nodes) pos Hpos) as [n Hn]. rewrite Hn.
  destruct (step_ok w k c pos n m Hc Hk Hn) as (n' & replies & -> & Hok & Hout & Hput);
    [apply Hms; left|].
  cbn [mbind go_bind]. apply IH.
  - by apply route_ok.
  - rewrite route_nodes. cbn. by rewrite length_insert.
  - intros m' ?. apply Hms. by right.
Qed.

Lemma nodeByID_Some c i pos n :
  nodeByID c i = Some (pos, n) → c.(nodes) !! pos = Some n ∧ n.(Node.id) = i.
Proof. unfold nodeByID. intros (? & ? & _)%list_find_Some. done. Qed.

Lemma deliver_id_ok w k c i :
  cluster_ok w k c → k + 1 < u64_modulus → ∃ c', deliver_id c i = Ret c' ∧ cluster_ok w k c'.
Proof.
  intros Hc Hk. unfold deliver_id. destruct (queue_of (queues c) i) as [|m ms] eqn:E;
    [by exists c|].
  destruct (nodeByID c i) as [[pos n]|] eqn:En; [|eexists; split; [done|by apply clear_ok]].
  apply nodeByID_Some in En as [Hn _].
  destruct (deliver_msgs_ok w k c pos (m :: ms)) as (c' & -> & Hc'); [done|done| | |].
  - by eapply lookup_lt_Some.
  - intros m' Hm'. rewrite <- E in Hm'. by apply (cl_queues _ _ _ Hc i).
  - eexists. split; [done|]. by apply clear_ok.
Qed.

Lemma DeliverAll_ok w k c order :
  cluster_ok w k c → k + 1 < u64_modulus → ∃ c', DeliverAll c order = Ret c' ∧ cluster_ok w k c'.
Proof.
  intros Hc Hk. revert c Hc. induction order as [|i order IH]; intros c Hc; [by exists c|].
  cbn [DeliverAll]. destruct (deliver_id_ok w k c i Hc Hk) as (c' & -> & Hc').
  cbn [mbind go_bind]. by apply IH.
Qed.

(** [Leader] names a node of the cluster, so [Propose] finds it. *)
Lemma Leader_found c : Leader c ≠ 0 → ∃ pos n, nodeByID c (Leader c) = Some (pos, n).
Proof.
  unfold Leader. destruct (list_find _ (nodes c)) as [[pos n]|] eqn:E; [|done]. intros _.
  apply list_find_Some in E as (Hn & _ & _). unfold nodeByID.
  destruct (list_find_elem_of (λ n', Node.id n' = Node.id n) (nodes c) n) as [[p n'] Hf].
  - by eapply list_elem_of_lookup_2.
  - done.
  - rewrite Hf. by exists p, n'.
Qed.

Lemma Propose_ok w k c cmd :
  cluster_ok w k c → k + 3 < u64_modulus → is_u64 (lenN cmd) →
  ∃ c' err, Propose c cmd = Ret (c', err) ∧ cluster_ok w (k + 1) c'.
Proof.
  intros Hc Hk Hcmd. unfold Propose.
  assert (cluster_ok w (k + 1) c) as Hc1 by (apply (cluster_ok_mono w k); [lia|done]).
  destruct (N.eqb_spec (Leader c) 0) as [|Hl]; [by eexists _, _|].
  destruct (Leader_found c Hl) as (pos & n & E). rewrite E.
  apply nodeByID_Some in E as [Hn _]. pose proof (cl_nodes _ _ _ Hc) as Hall.
  rewrite Forall_lookup in Hall.
  destruct (Propose_refines ∅ k n cmd (Hall _ _ Hn) Hk Hcmd) as (n' & err & -> & Hpost & _).
  cbn [mbind go_bind]. pose proof (put_ok _ _ _ pos n n' _ Hc1 Hn Hpost) as Hput.
  destruct Hpost as [_ _ Hok _].
  destruct err; [by eexists _, _|].
  destruct (ReplicateNow_refines ∅ (k + 1) n' Hok) as (out & -> & Hout & _).
  cbn [mbind go_bind]. eexists _, _. split; [done|]. by apply route_ok.
Qed.

(** The same for the partitioned deliveries. *)
Lemma deliver_filtered_ok w k pc pos msgs :
  cluster_ok w k pc.(base) → k + 1 < u64_modulus → (pos < length pc.(base).(nodes))%nat →
  (∀ m, m ∈ msgs → msg_ok k m) →
  ∃ pc', deliver_filtered pc pos msgs = Ret pc' ∧ cluster_ok w k pc'.(base).
Proof.
  intros Hc Hk. revert pc Hc. induction msgs as [|m msgs IH]; intros pc Hc Hpos Hms;
    cbn [deliver_filtered]; [by exists pc|].
  assert (∀ m', m' ∈ msgs → msg_ok k m') as Hms' by (intros m' ?; apply Hms; by right).
  destruct (IsBlocked _ _ _); [by apply IH|].
  destruct (lookup_lt_is_Some_2 pc.(base).(nodes) pos Hpos) as [n Hn]. rewrite Hn.
  destruct (step_ok w k pc.(base) pos n m Hc Hk Hn) as (n' & replies & -> & Hok & Hout & Hput);
    [apply Hms; left|].
  cbn [mbind go_bind]. apply IH; [| |done].
  - apply route_ok; [done|]. intros m' [_ Hin]%list_elem_of_filter. by apply Hout.
  - cbn. rewrite route_nodes. cbn. by rewrite length_insert.
Qed.

Lemma deliver_filtered_id_ok w k pc i :
  cluster_ok w k pc.(base) → k + 1 < u64_modulus →
  ∃ pc', deliver_filtered_id pc i = Ret pc' ∧ cluster_ok w k pc'.(base).
Proof.
  intros Hc Hk. unfold deliver_filtered_id.
  destruct (queue_of (queues (base pc)) i) as [|m ms] eqn:E; [by exists pc|].
  destruct (nodeByID (base pc) i) as [[pos n]|] eqn:En;
    [|eexists; split; [done|by apply clear_ok]].
  apply nodeByID_Some in En as [Hn _].
  destruct (deliver_filtered_ok w k pc pos (m :: ms)) as (pc' & -> & Hc'); [done|done| | |].
  - by eapply lookup_lt_Some.
  - intros m' Hm'. rewrite <- E in Hm'. by apply (cl_queues _ _ _ Hc i).
  - eexists. split; [done|]. by apply clear_ok.
Qed.

Lemma DeliverAllFiltered_ok w k pc order :
  cluster_ok w k pc.(base) → k + 1 < u64_modulus →
  ∃ pc', DeliverAllFiltered pc order = Ret pc' ∧ cluster_ok w k pc'.(base).
Proof.
  intros Hc Hk. revert pc Hc. induction order as [|i order IH]; intros pc Hc; [by exists pc|].
  cbn [DeliverAllFiltered]. destruct (deliver_filtered_id_ok w k pc i Hc Hk) as (pc' & -> & Hc').
  cbn [mbind go_bind]. by apply IH.
Qed.

(** ** Runs of the API *)

(** The calls of the embedded cluster go to [base]. *)
Inductive Command :=
  | DoTickAll
  | DoDeliverAll (order : list N)
  | DoPropose (cmd : list byte)
  | DoDeliverAllFiltered (order : list N)
  | DoPartition (id : N)
  | DoHeal (id : N)
  | DoHealAll
  | DoCrash (id : N)
  | DoRestart (id : N).

(** [if n := c.Node(id); n != nil { n.f() }] *)
Definition with_node pc (i : N) (f : Node R → go (Node R)) : go (PartitionedCluster R) :=
  match nodeByID pc.(base) i with
  | None => Ret pc
  | Some (pos, n) => n ← f n; Ret (pc <| base := put_node pc.(base) pos n |>)
  end.

Definition exec_command pc (cmd : Command) : go (PartitionedCluster R) :=
  match cmd with
  | DoTickAll => c ← TickAll pc.(base); Ret (pc <| base := c |>)
  | DoDeliverAll order => c ← DeliverAll pc.(base) order; Ret (pc <| base := c |>)
  | DoPropose cmd => '(c, _) ← Propose pc.(base) cmd; Ret (pc <| base := c |>)
  | DoDeliverAllFiltered order => DeliverAllFiltered pc order
  | DoPartition i => Ret (Partition pc i)
  | DoHeal i => Ret (Heal pc i)
  | DoHealAll => Ret (HealAll pc)
  | DoCrash i => with_node pc i (λ n, Ret (Crash n).1)
  | DoRestart i => with_node pc i (λ n, '(n, _) ← Restart n; Ret n)
  end.

Fixpoint exec_commands pc (cmds : list Command) : go (PartitionedCluster R) :=
  match cmds with
  | [] => Ret pc
  | c :: cmds => pc ← exec_command pc c; exec_commands pc cmds
  end.

Definition command_ok (cmd : Command) : Prop :=
  match cmd with DoPropose cmd => is_u64 (lenN cmd) | _ => True end.

Lemma with_node_ok w k pc i f :
  cluster_ok w k pc.(base) →
  (∀ n, node_ok k n → ∃ n', f n = Ret n' ∧ post (k + 1) n n' []) →
  ∃ pc', with_node pc i f = Ret pc' ∧ cluster_ok w (k + 1) pc'.(base).
Proof.
  intros Hc Hf. unfold with_node.
  assert (cluster_ok w (k + 1) pc.(base)) as Hc1 by (apply (cluster_ok_mono w k); [lia|done]).
  destruct (nodeByID pc.(base) i) as [[pos n]|] eqn:E; [|by exists pc].
  apply nodeByID_Some in E as [Hn _]. pose proof (cl_nodes _ _ _ Hc) as Hall.
  rewrite Forall_lookup in Hall. destruct (Hf n) as (n' & -> & Hpost); [by apply (Hall pos)|].
  cbn [mbind go_bind]. eexists. split; [done|]. by apply (put_ok w _ _ pos n n' []).
Qed.

Lemma exec_command_ok w k pc cmd :
  cluster_ok w k pc.(base) → k + 3 < u64_modulus → command_ok cmd →
  ∃ pc', exec_command pc cmd = Ret pc' ∧ cluster_ok w (k + 1) pc'.(base).
Proof.
  intros Hc Hk Hcmd. assert (k + 1 < u64_modulus) as Hk1 by lia.
  assert (∀ c, cluster_ok w k c → cluster_ok w (k + 1) c) as Hup
    by (intros c; apply cluster_ok_mono; lia).
  destruct cmd as [|order|cmd|order|i|i| |i|i]; cbn [exec_command].
  - destruct (TickAll_ok w k _ Hc Hk1) as (c & -> & ?). by eexists.
  - destruct (DeliverAll_ok w k _ order Hc Hk1) as (c & -> & ?). eexists. split; [done|].
    by apply Hup.
  - destruct (Propose_ok w k _ cmd Hc Hk Hcmd) as (c & err & -> & ?). by eexists.
  - destruct (DeliverAllFiltered_ok w k pc order Hc Hk1) as (pc' & -> & ?). eexists.
    split; [done|]. by apply Hup.
  - eexists. split; [done|]. by apply Hup.
  - eexists. split; [done|]. by apply Hup.
  - eexists. split; [done|]. by apply Hup.
  - apply with_node_ok; [done|]. intros n Hn. exists (Crash n).1. split; [done|].
    apply (post_mono k); [lia|]. by apply (Crash_refines ∅).
  - apply with_node_ok; [done|]. intros n Hn.
    destruct (Restart_refines ∅ k n Hn Hk1) as (n' & err & -> & Hpost & _). exists n'.
    split; [done|]. apply (post_mono k); [lia|done].
Qed.

Lemma exec_commands_ok w k pc cmds :
  cluster_ok w k pc.(base) → k + lenN cmds + 3 ≤ u64_modulus → Forall command_ok cmds →
  ∃ pc', exec_commands pc cmds = Ret pc' ∧ cluster_ok w (k + lenN cmds) pc'.(base).
Proof.
  intros Hc Hk Hcmds. revert k pc Hc Hk. induction Hcmds as [|cmd cmds Hcmd _ IH]; intros k pc Hc Hk.
  - exists pc. split; [done|]. by rewrite N.add_0_r.
  - cbn [exec_commands length] in *.
    destruct (exec_command_ok w k pc cmd Hc) as (pc1 & -> & Hc1); [lia|done|].
    destruct (IH (k + 1) pc1 Hc1) as (pc2 & E & Hc2); [lia|]. exists pc2. split; [done|].
    by replace (k + N.of_nat (S (length cmds))) with (k + 1 + lenN cmds) by lia.
Qed.

(** How [New] wires [n] nodes: everybody is a peer of everybody, itself included. *)
Definition wired (n : nat) : list (N * list N) := map (λ i, (i, peer_ids n)) (peer_ids n).

Lemma New_cluster_ok NewSeededRNG n seed :
  N.of_nat n < u64_modulus → cluster_ok (wired n) 0 (Cluster.New NewSeededRNG n seed).
Proof.
  intros Hn. split.
  - unfold wiring, wired, Cluster.New, peer_ids. cbn. rewrite !map_map. apply map_ext. intros i.
    unfold Node.New. match goal with |- context [resetElectionTimer ?x] =>
      destruct (reset_eq x) as (t & r & ->) end. done.
  - cbn. rewrite Forall_forall. intros x (i & -> & Hi)%list_elem_of_fmap. apply elem_of_seq in Hi.
    unfold Node.New. match goal with |- context [resetElectionTimer ?x] =>
      destruct (reset_eq x) as (t & r & ->) end.
    split; cbn; try done; [apply New_wf| |unfold is_u64; lia].
    constructor; [|done]. by split_and!.
  - cbn. intros i m. unfold queue_of.
    destruct (list_to_map _ !! i) as [q|] eqn:E; [|by intros ?%not_elem_of_nil].
    apply elem_of_list_to_map_2, list_elem_of_fmap in E as (j & [= -> ->] & _).
    by intros ?%not_elem_of_nil.
Qed.

(** C10: cluster_never_panics.  Any sequence of fewer than 2^64 - 3 calls of the cluster API
    (ticks, deliveries in any order, proposals, partitions, healing, crashes and restarts of
    its nodes), on a cluster as [NewPartitioned] wires it, runs to its end, and every node's
    log is well formed then. *)
Theorem cluster_never_panics NewSeededRNG n seed cmds :
  N.of_nat n < u64_modulus → lenN cmds + 3 ≤ u64_modulus → Forall command_ok cmds →
  ∃ pc, exec_commands (NewPartitioned NewSeededRNG n seed) cmds = Ret pc ∧
    Forall (λ x, wf x.(raftLog) ∧ x.(currentTerm) ≤ lenN cmds) pc.(base).(nodes).
Proof.
  intros Hn Hk Hcmds.
  destruct (exec_commands_ok (wired n) 0 (NewPartitioned NewSeededRNG n seed) cmds)
    as (pc & Hr & Hc); [by apply New_cluster_ok|lia|done|].
  exists pc. split; [done|]. eapply Forall_impl; [apply (cl_nodes _ _ _ Hc)|].
  intros x Hx. split; apply Hx.
Qed.

(** ** Partitions *)

Lemma IsBlocked_block ps src dst a b c :
  IsBlocked (MkPartitioned (R:=R) c (block ps src dst)) a b = true ↔
  a = src ∧ b = dst ∨ IsBlocked (MkPartitioned (R:=R) c ps) a b = true.
Proof.
  unfold IsBlocked, block. cbn. rewrite lookup_insert.
  destruct (decide (src = a)) as [<-|Hne]; [|naive_solver].
  rewrite lookup_insert. destruct (decide (dst = b)) as [<-|Hne]; [naive_solver|].
  destruct (ps !! src); cbn; [naive_solver|]. rewrite lookup_empty. naive_solver.
Qed.

Lemma IsBlocked_ensure ps i a b c :
  IsBlocked (MkPartitioned (R:=R) c (ensure ps i)) a b = IsBlocked (MkPartitioned c ps) a b.
Proof.
  unfold IsBlocked, ensure. cbn. destruct (ps !! i) eqn:E; [done|].
  rewrite lookup_insert. destruct (decide (i = a)) as [<-|]; [|done]. by rewrite E.
Qed.

Lemma split_exists_cons {A} (P : A → Prop) x l :
  (∃ y, y ∈ x :: l ∧ P y) ↔ P x ∨ ∃ y, y ∈ l ∧ P y.
Proof.
  split.
  - intros (y & [->|Hy]%elem_of_cons & HP); [by left|right; by exists y].
  - intros [HP|(y & Hy & HP)]; [exists x|exists y]; (split; [by constructor|done]).
Qed.

(** C24: partition_isolates.  [Partition id] blocks both directions between [id] and every
    other node and nothing else; [Heal id] removes every block from or to [id] and no
    other; [HealAll] removes all. *)
Theorem partition_isolates pc i a b :
  (IsBlocked (Partition pc i) a b = true ↔
     IsBlocked pc a b = true ∨
     ∃ n, n ∈ pc.(base).(nodes) ∧ n.(Node.id) ≠ i ∧
       (a = i ∧ b = n.(Node.id) ∨ a = n.(Node.id) ∧ b = i)) ∧
  (IsBlocked (Heal pc i) a b = true ↔ IsBlocked pc a b = true ∧ a ≠ i ∧ b ≠ i) ∧
  IsBlocked (HealAll pc) a b = false.
Proof.
  split; [|split; [|done]].
  - unfold Partition.
    assert (∀ ns ps, IsBlocked (MkPartitioned pc.(base) (foldl (λ ps n,
      if negb (Node.id n =? i) then
        block (ensure (block ps i (Node.id n)) (Node.id n)) (Node.id n) i else ps) ps ns)) a b
      = true ↔ IsBlocked (MkPartitioned pc.(base) ps) a b = true ∨
        ∃ n : Node R, n ∈ ns ∧ n.(Node.id) ≠ i ∧
          (a = i ∧ b = n.(Node.id) ∨ a = n.(Node.id) ∧ b = i)) as Hall.
    { induction ns as [|n ns IH]; intros ps; cbn [foldl].
      - split; [by left|]. intros [?|(n & ?%not_elem_of_nil & _)]; done.
      - rewrite IH, split_exists_cons. destruct (N.eqb_spec (Node.id n) i) as [E|E]; cbn [negb].
        + split; [intros [?|?]; auto|]. intros [?|[[? _]|?]]; auto; done.
        + rewrite IsBlocked_block, IsBlocked_ensure, IsBlocked_block. tauto. }
    etrans; [apply (Hall (nodes (base pc)))|]. rewrite IsBlocked_ensure.
    by destruct pc.
  - unfold Heal, IsBlocked. cbn. rewrite lookup_fmap, lookup_delete.
    destruct (decide (i = a)) as [<-|Hne]; cbn; [naive_solver|].
    destruct (partitions pc !! a) as [m|]; cbn; [|naive_solver].
    rewrite lookup_delete. case_decide; naive_solver.
Qed.
End cluster.

#[local] Existing Instance constant_rng.

Definition ex_commands : list Command :=
  repeat DoTickAll 11 ++
  [DoDeliverAll [2; 1; 3]; DoDeliverAll [1; 2; 3]; DoPropose [x61]; DoPartition 1;
   DoCrash 2; DoDeliverAllFiltered [1; 2; 3]; DoHealAll; DoRestart 2; DoTickAll; DoDeliverAll [3; 1; 2]].

Lemma cluster_never_panics_witness :
  ∃ pc, exec_commands (NewPartitioned (λ z : Z, z) 3 1) ex_commands = Ret pc ∧
    Forall (λ x, wf x.(raftLog) ∧ x.(currentTerm) ≤ lenN ex_commands) pc.(base).(nodes).
Proof.
  apply (cluster_never_panics (λ z : Z, z) 3 1 ex_commands); [done|done|].
  by repeat constructor.
Defined.
