(* ===== verification/Wiring.v ===== *)
(** * What follows from the wiring of the simulated cluster

    [Cluster.New] makes every node a peer of itself.  So a leader sends its AppendEntries to
    itself too, and handling one of its own term makes it a follower: no leader outlives the
    round after an accepted proposal ([proposal_deposes_leader]). *)
From S2P Require Import Prelude Log LogPersist Message Node Cluster.
From S2P Require Import Spec NodeFacts Refine NodeSpec ClusterSpec.
From Stdlib Require Import Strings.Byte.
Open Scope N_scope.

(** ** Queues and positions *)

Section wiring.
  Context {R : Type} `{RNG R}.
  Implicit Types (c : Cluster R) (pc : PartitionedCluster R) (n : Node R) (m : Message).

Lemma queue_route c out j :
  queue_of (route c out).(queues) j =
    queue_of c.(queues) j ++ filter (λ m, m.(To) = j) out.
Proof.
  revert c. induction out as [|m out IH]; intros c; [by rewrite app_nil_r|].
  rewrite filter_cons. cbn [route foldl]. etrans; [apply IH|]. cbn [queues].
  unfold queue_of at 1. cbn. rewrite lookup_insert.
  destruct (decide (To m = j)) as [<-|Hne]; [|done]. cbn. by rewrite <- app_assoc.
Qed.

Lemma wiring_ids c : map fst (wiring c) = map Node.id c.(nodes).
Proof. unfold wiring. by rewrite map_map. Qed.

Lemma wiring_at c pos i ps :
  wiring c !! pos = Some (i, ps) →
  ∃ n, c.(nodes) !! pos = Some n ∧ n.(Node.id) = i ∧ n.(peers) = ps.
Proof.
  unfold wiring. rewrite list_lookup_fmap. destruct (nodes c !! pos) as [n|]; [|done].
  intros [= <- <-]. by exists n.
Qed.

(** With distinct ids, [nodeByID] finds the one position. *)
Lemma nodeByID_at c pos n :
  NoDup (map Node.id c.(nodes)) → c.(nodes) !! pos = Some n →
  nodeByID c n.(Node.id) = Some (pos, n).
Proof.
  intros Hnd Hn. apply list_find_Some. split_and!; [done|done|]. intros j y Hj Hlt Hy.
  assert (j = pos); [|lia]. apply (NoDup_lookup _ _ _ n.(Node.id) Hnd).
  - by rewrite list_lookup_fmap, Hj, <- Hy.
  - by rewrite list_lookup_fmap, Hn.
Qed.

Lemma wired_ids (k : nat) : NoDup (map fst (wired k)).
Proof.
  unfold wired. rewrite map_map. cbn. rewrite map_id. unfold peer_ids.
  apply NoDup_fmap_2_strong; [|apply NoDup_seq]. intros i j _ _ E. lia.
Qed.

(** ** A leader and its own AppendEntries *)

Definition reigns (T : N) n : Prop := n.(state) = StateLeader ∧ n.(currentTerm) = T.
Definition deposed n : Prop := n.(state) = StateFollower.
Definition demotes (T : N) m : Prop := m.(Type_) = MsgAppendEntries ∧ m.(Message.Term) = T.

Lemma handleRequestVote_role n m n' out :
  handleRequestVote n m = Ret (n', out) →
  n'.(state) = StateFollower ∨ n'.(state) = n.(state) ∧ n'.(currentTerm) = n.(currentTerm).
Proof.
  unfold handleRequestVote. destruct (_ <? _); [intros [= <- _]; by right|]. fold (bumped n m).
  assert (state (bumped n m) = StateFollower ∨
    state (bumped n m) = state n ∧ currentTerm (bumped n m) = currentTerm n) as Hb.
  { unfold bumped. destruct (_ <? _); [by left|by right]. }
  set (n1 := bumped n m) in *. clearbody n1. intros Hr. go_inv Hr. destruct a.
  - destruct (reset_eq (n1 <| votedFor := From m |>)) as (t & r & E). rewrite E in Hr.
    by injection Hr as <- _.
  - by injection Hr as <- _.
Qed.

Lemma advanceCommit_role idx n n' : advanceCommit_from n idx = Ret n' → n'.(state) = n.(state).
Proof.
  revert n n'. induction idx as [|idx IH]; intros n n' Hr; cbn [advanceCommit_from] in Hr.
  { by injection Hr as <-. }
  destruct (_ <=? _); [by injection Hr as <-|].
  destruct (TermAt _ _) as [t|e|]; [|by injection Hr as <-|done].
  destruct (negb _); [by apply IH|]. destruct (replicatedOnMajority _ _); [|by apply IH].
  go_inv Hr. destruct a as [l err]. by destruct err; injection Hr as <-.
Qed.

Lemma handleAppendEntriesResp_role n m n' out :
  handleAppendEntriesResp n m = Ret (n', out) →
  n'.(state) = StateFollower ∨ n'.(state) = n.(state) ∧ n'.(currentTerm) = n.(currentTerm).
Proof.
  unfold handleAppendEntriesResp. destruct (_ <? _).
  { intros [= <- _]. left. apply stepDown_keeps. }
  destruct (_ && _); [|intros [= <- _]; by right].
  destruct (Success m); [|destruct (_ <? _); intros [= <- _]; by right].
  intros Hr. go_inv Hr. injection Hr as <- _. unfold advanceCommit in Hret. go_inv Hret.
  destruct a0 as [li lt]. right. pose proof (advanceCommit_role _ _ _ Hret) as ->.
  by apply advanceCommit_from_keeps in Hret as [-> _].
Qed.

(** A follower stays one, whatever it handles: only a tick makes a candidate. *)
Lemma Step_deposed n m n' out : deposed n → Step n m = Ret (n', out) → deposed n'.
Proof.
  unfold deposed, Step. intros Hst. destruct (crashed n); [by intros [= <- _]|].
  destruct (Type_ m).
  - intros [?|[-> _]]%handleRequestVote_role; done.
  - unfold handleRequestVoteResp. destruct (_ <? _); [intros [= <- _]; apply stepDown_keeps|].
    rewrite bool_decide_eq_false_2, andb_false_r by congruence. by intros [= <- _].
  - intros Hr. destruct (N.lt_ge_cases (Message.Term m) (currentTerm n)) as [Hlt|Hge].
    + unfold handleAppendEntries in Hr. rewrite (proj2 (N.ltb_lt _ _)) in Hr by lia.
      by injection Hr as <- _.
    + by destruct (handleAppendEntries_role _ _ _ _ Hr Hge).
  - intros [?|[-> _]]%handleAppendEntriesResp_role; done.
  - by intros [= <- _].
Qed.

(** A leader goes on leading its term or becomes a follower, the latter for sure when it
    handles an AppendEntries of its term. *)
Lemma Step_reigns T n m n' out :
  n.(crashed) = false → reigns T n → Step n m = Ret (n', out) →
  deposed n' ∨ reigns T n' ∧ ¬ demotes T m.
Proof.
  unfold deposed, reigns, demotes, Step. intros -> [Hst Ht].
  assert (∀ n2 : Node R, n2 = n → state n2 = StateLeader ∧ currentTerm n2 = T) as Hsame
    by by intros ? ->.
  destruct (Type_ m).
  - intros [?|[-> ->]]%handleRequestVote_role; [by left|right; naive_solver].
  - unfold handleRequestVoteResp. destruct (_ <? _).
    { intros [= <- _]. left. apply stepDown_keeps. }
    rewrite bool_decide_eq_false_2, andb_false_r by congruence. intros [= <- _].
    right. naive_solver.
  - intros Hr. destruct (N.lt_ge_cases (Message.Term m) (currentTerm n)) as [Hlt|Hge].
    + unfold handleAppendEntries in Hr. rewrite (proj2 (N.ltb_lt _ _)) in Hr by lia.
      injection Hr as <- _. right. split; [done|]. intros [_ ?]. lia.
    + left. by destruct (handleAppendEntries_role _ _ _ _ Hr Hge).
  - intros [?|[-> ->]]%handleAppendEntriesResp_role; [by left|right; naive_solver].
  - intros [= <- _]. right. naive_solver.
Qed.

(** ** The same in a round of the cluster *)

Section reign.
  Context (w : list (N * list N)) (k : N) (pos : nat) (i : N) (ps : list N) (T : N).
  Hypotheses (Hnd : NoDup (map fst w)) (Hpos : w !! pos = Some (i, ps)) (Hk : k + 1 < u64_modulus).

Lemma at_pos c j pos' n :
  cluster_ok w k c → nodeByID c j = Some (pos', n) → pos' = pos ↔ j = i.
Proof.
  intros Hc [Hn Hid]%nodeByID_Some. pose proof (cl_wiring _ _ _ Hc) as Hw.
  assert (w !! pos' = Some (j, n.(peers))) as Hj.
  { rewrite <- Hw. unfold wiring. by rewrite list_lookup_fmap, Hn, <- Hid. }
  split; [intros ->; congruence|]. intros ->.
  apply (NoDup_lookup _ _ _ i Hnd); by rewrite list_lookup_fmap, ?Hj, ?Hpos.
Qed.

Definition gone c : Prop := ∃ n, c.(nodes) !! pos = Some n ∧ deposed n.

(** Not leading any more, or with its own AppendEntries waiting. *)
Definition doomed c : Prop := ∃ n, c.(nodes) !! pos = Some n ∧
  (deposed n ∨ reigns T n ∧ ∃ m, m ∈ queue_of c.(queues) i ∧ demotes T m).

Lemma deliver_self c msgs c' n :
  cluster_ok w k c → (∀ m, m ∈ msgs → msg_ok k m) → c.(nodes) !! pos = Some n →
  deposed n ∨ reigns T n ∧ (∃ m, m ∈ msgs ∧ demotes T m) →
  deliver_msgs c pos msgs = Ret c' → gone c'.
Proof.
  revert c n. induction msgs as [|m msgs IH]; intros c n Hc Hm Hn Hst Hr; cbn [deliver_msgs] in Hr.
  { injection Hr as <-. exists n. split; [done|].
    destruct Hst as [?|[_ (m & []%not_elem_of_nil & _)]]; done. }
  rewrite Hn in Hr. destruct (step_ok w k c pos n m Hc Hk Hn) as (n' & out & E & _ & Hout & Hput);
    [apply Hm; left|].
  rewrite E in Hr. cbn [mbind go_bind] in Hr. eapply IH; [| | | |exact Hr].
  - by apply route_ok.
  - intros m' ?. apply Hm. by right.
  - rewrite route_nodes. cbn. apply list_lookup_insert_eq. by eapply lookup_lt_Some.
  - destruct Hst as [Hst|[Hst (m' & Hin & Hdem)]]; [left; by eapply Step_deposed|].
    assert (crashed n = false) as Hcr.
    { destruct (crashed n) eqn:Hcr; [|done]. pose proof (cl_nodes _ _ _ Hc) as Hall.
      rewrite Forall_lookup in Hall. apply (nok_crashed _ _ (Hall _ _ Hn)) in Hcr.
      destruct Hst. congruence. }
    destruct (Step_reigns T n m n' out Hcr Hst E) as [?|[? Hno]]; [by left|].
    right. split; [done|]. apply elem_of_cons in Hin as [->|Hin]; [done|]. by exists m'.
Qed.

Lemma deliver_others c msgs c' pos' :
  pos' ≠ pos → deliver_msgs c pos' msgs = Ret c' →
  c'.(nodes) !! pos = c.(nodes) !! pos ∧
  ∀ m, m ∈ queue_of c.(queues) i → m ∈ queue_of c'.(queues) i.
Proof.
  intros Hne. revert c. induction msgs as [|m msgs IH]; intros c Hr; cbn [deliver_msgs] in Hr.
  { by injection Hr as <-. }
  destruct (nodes c !! pos') as [n|]; [|done]. go_inv Hr. destruct a as [n' out].
  destruct (IH _ Hr) as [-> Hq]. rewrite route_nodes. cbn. split.
  - by apply list_lookup_insert_ne.
  - intros m' Hm'. apply Hq. rewrite queue_route. apply elem_of_app. by left.
Qed.

Lemma deliver_id_doomed c j c' :
  cluster_ok w k c → deliver_id c j = Ret c' →
  (doomed c → if decide (j = i) then gone c' else doomed c') ∧ (gone c → gone c').
Proof.
  intros Hc Hr. unfold deliver_id in Hr.
  destruct (queue_of (queues c) j) as [|m ms] eqn:Eq.
  { injection Hr as <-. split; [|done]. intros (n & Hn & Hst). case_decide as Hj; [|by exists n].
    exists n. split; [done|]. destruct Hst as [?|[_ (m & Hin & _)]]; [done|].
    rewrite <- Hj, Eq in Hin. by apply not_elem_of_nil in Hin. }
  destruct (nodeByID c j) as [[pos' n']|] eqn:En.
  2: { injection Hr as <-. split; [|done].
    intros (n & Hn & Hst). pose proof (cl_wiring _ _ _ Hc) as Hw.
    destruct (decide (j = i)) as [->|Hj].
    - rewrite <- Hw in Hpos. destruct (wiring_at _ _ _ _ Hpos) as (n1 & Hn1 & <- & _).
      rewrite <- Hw, wiring_ids in Hnd. by rewrite (nodeByID_at c pos n1) in En.
    - exists n. split; [done|]. destruct Hst as [?|[? (m' & Hin & Hd)]]; [by left|right].
      split; [done|]. exists m'. split; [|done]. unfold queue_of. cbn.
      by rewrite lookup_insert_ne. }
  go_inv Hr. injection Hr as <-. pose proof (at_pos _ _ _ _ Hc En) as Hp.
  destruct (decide (j = i)) as [->|Hj].
  - assert (pos' = pos) as -> by by apply Hp. rewrite <- Eq in Hret.
    assert (∀ m, m ∈ queue_of (queues c) i → msg_ok k m) as Hms by apply (cl_queues _ _ _ Hc).
    split; intros (n & Hn & Hst); eapply (deliver_self c _ a n); eauto.
  - assert (pos' ≠ pos) as Hne by by intros E%Hp.
    destruct (deliver_others _ _ _ _ Hne Hret) as [En' Hq].
    split; intros (n & Hn & Hst); exists n; cbn; rewrite En'; split; try done.
    destruct Hst as [?|[? (m' & Hin & Hd)]]; [by left|right]. split; [done|]. exists m'.
    split; [|done]. unfold queue_of at 1. rewrite lookup_insert_ne by done. by apply Hq.
Qed.
Lemma DeliverAll_doomed c order c' :
  cluster_ok w k c → DeliverAll c order = Ret c' →
  (doomed c → i ∈ order → gone c') ∧ (gone c → gone c').
Proof.
  revert c. induction order as [|j order IH]; intros c Hc Hr; cbn [DeliverAll] in Hr.
  { injection Hr as <-. split; [|done]. by intros _ ?%not_elem_of_nil. }
  destruct (deliver_id_ok w k c j Hc Hk) as (c1 & E & Hc1). rewrite E in Hr. cbn [mbind go_bind] in Hr.
  destruct (deliver_id_doomed c j c1 Hc E) as [Hd Hg]. destruct (IH c1 Hc1 Hr) as [Hd1 Hg1].
  split; [|auto]. intros Hdoom Hin. specialize (Hd Hdoom).
  destruct (decide (j = i)) as [->|Hj]; [by apply Hg1|]. apply Hd1; [done|].
  by apply elem_of_cons in Hin as [->|Hin].
Qed.

(** Leading, with its own AppendEntries waiting. *)
Definition ready c : Prop := ∃ n, c.(nodes) !! pos = Some n ∧ reigns T n ∧
  ∃ m, m ∈ queue_of c.(queues) i ∧ demotes T m.

Lemma ready_doomed c : ready c → doomed c.
Proof. intros (n & Hn & ? & ?). exists n. auto. Qed.

Lemma Tick_reigns n n' out : reigns T n → Tick n = Ret (n', out) → reigns T n'.
Proof.
  unfold reigns, Tick. intros [Hst Ht]. destruct (crashed n); [by intros [= <- _]|].
  set (n1 := n <| electionElapsed := _ |>). cbn zeta. change (state n1) with (state n).
  rewrite Hst. destruct (_ <=? _)%Z; [|by intros [= <- _]].
  intros Hr. go_inv Hr. by injection Hr as <- _.
Qed.

Lemma tick_from_ready c p j c' : tick_from c p j = Ret c' → ready c → ready c'.
Proof.
  revert c p. induction j as [|j IH]; intros c p Hr Hc; cbn [tick_from] in Hr.
  { by injection Hr as <-. }
  destruct (nodes c !! p) as [n|] eqn:Hn; [|done]. go_inv Hr. destruct a as [n' out].
  apply (IH _ _ Hr). destruct Hc as (n0 & Hn0 & Hre & m & Hin & Hd).
  assert (m ∈ queue_of (queues (route (put_node c p n') out)) i) as Hin'.
  { rewrite queue_route. apply elem_of_app. by left. }
  destruct (decide (p = pos)) as [->|Hne].
  - rewrite Hn in Hn0. injection Hn0 as ->. exists n'. rewrite route_nodes. split.
    + cbn. apply list_lookup_insert_eq. by eapply lookup_lt_Some.
    + split; [by eapply Tick_reigns|by exists m].
  - exists n0. rewrite route_nodes. split.
    + cbn. by rewrite list_lookup_insert_ne.
    + split; [done|by exists m].
Qed.
End reign.

(** What a proposal that was accepted leaves behind. *)
Lemma go_map_out {A B} (g : A → go B) xs ys x :
  go_map g xs = Ret ys → x ∈ xs → ∃ y, g x = Ret y ∧ y ∈ ys.
Proof.
  revert ys. induction xs as [|x' xs IH]; intros ys Hm Hin; [by apply not_elem_of_nil in Hin|].
  cbn in Hm. go_inv Hm. go_inv Hm. injection Hm as <-.
  apply elem_of_cons in Hin as [->|Hin]; [exists a; split; [done|left]|].
  destruct (IH _ Hret0 Hin) as (y & ? & ?). exists y. split; [done|by right].
Qed.

Lemma broadcast_demotes n out i :
  broadcastAppendEntries n = Ret out → i ∈ n.(peers) →
  ∃ m, m ∈ out ∧ m.(To) = i ∧ demotes n.(currentTerm) m.
Proof.
  unfold broadcastAppendEntries. intros Hr Hi. go_inv Hr. destruct a as [li lt].
  destruct (go_map_out _ _ _ i Hr Hi) as (m & Hm & Hin). exists m. split; [done|].
  unfold appendEntriesFor in Hm. go_inv Hm. destruct a as [pi pt]. go_inv Hm.
  by injection Hm as <-.
Qed.

Lemma Propose_accepted n cmd n' :
  Node.Propose n cmd = Ret (n', None) →
  reigns n.(currentTerm) n' ∧ n'.(peers) = n.(peers) ∧ n'.(crashed) = false.
Proof.
  unfold Node.Propose. destruct (crashed n) eqn:Hcr; [done|].
  case_bool_decide as Hst; cbn [negb]; [|done]. intros Hr. go_inv Hr. destruct a as [li lt].
  go_inv Hr. destruct a as [l err]. destruct err; [done|]. by injection Hr as <-.
Qed.

Lemma Propose_ready c cmd c' pos n :
  Propose c cmd = Ret (c', None) → nodeByID c (Leader c) = Some (pos, n) →
  Leader c ∈ n.(peers) → ready pos (Leader c) n.(currentTerm) c'.
Proof.
  intros Hr Hn Hi. unfold Propose in Hr. destruct (_ =? 0); [done|]. rewrite Hn in Hr.
  go_inv Hr. destruct a as [n' err]. destruct err; [done|]. go_inv Hr. injection Hr as <-.
  destruct (Propose_accepted _ _ _ Hret) as (Hre & Hps & Hcr).
  unfold ReplicateNow in Hret0. destruct Hre as [Hst Ht].
  rewrite bool_decide_eq_true_2, Hcr in Hret0 by done. cbn [negb orb] in Hret0.
  destruct (broadcast_demotes n' a (Leader c) Hret0) as (m & Hm & Hto & Hd); [by rewrite Hps|].
  apply nodeByID_Some in Hn as [Hn _].
  exists n'. rewrite route_nodes. split; [cbn; apply list_lookup_insert_eq; by eapply lookup_lt_Some|].
  split; [done|]. exists m. rewrite queue_route. split; [|congruence].
  apply elem_of_app. right. by apply list_elem_of_filter.
Qed.

(** C26: proposal_deposes_leader.  No leader of the simulated cluster survives the round after
    a proposal it accepted.  In any state that calls of the API reach, from any seed, after a
    proposal that returns no error one [TickAll] and one [DeliverAll], in whatever order Go
    visits the queues, leave the node that was the leader a follower: the proposal was also
    sent to the leader itself, which takes it for the message of another leader. *)
Theorem proposal_deposes_leader NewSeededRNG size seed cmds pc cmd c1 :
  N.of_nat size < u64_modulus → lenN cmds + 5 ≤ u64_modulus → Forall command_ok cmds →
  is_u64 (lenN cmd) →
  exec_commands (NewPartitioned NewSeededRNG size seed) cmds = Ret pc →
  Propose pc.(base) cmd = Ret (c1, None) →
  ∃ c2, TickAll c1 = Ret c2 ∧ ∀ order, visit_order c2 order →
    ∃ c3 n, DeliverAll c2 order = Ret c3 ∧ Get.Node c3 (Leader pc.(base)) = Some n ∧
      n.(state) = StateFollower.
Proof.
  intros Hsize Hk Hcmds Hcmd Hr Hp.
  destruct (exec_commands_ok (wired size) 0 (NewPartitioned NewSeededRNG size seed) cmds)
    as (pc' & Hr' & Hc); [by apply New_cluster_ok|lia|done|].
  rewrite Hr in Hr'. injection Hr' as <-. rewrite N.add_0_l in Hc. set (k := lenN cmds) in *.
  destruct (Propose_ok _ k _ cmd Hc) as (c1' & err & Hp' & Hc1); [lia|done|].
  rewrite Hp in Hp'. injection Hp' as <- <-.
  destruct (TickAll_ok _ (k + 1) c1 Hc1) as (c2 & Ht & Hc2); [lia|]. exists c2. split; [done|].
  intros order [_ Hord].
  destruct (DeliverAll_ok _ (k + 1 + 1) c2 order Hc2) as (c3 & Hd & Hc3); [lia|].
  assert (Leader (base pc) ≠ 0) as Hl.
  { intros E. unfold Propose in Hp. by rewrite E in Hp. }
  destruct (Leader_found _ Hl) as (pos & n & Hn).
  pose proof (nodeByID_Some _ _ _ _ Hn) as [Hpos Hid]. set (i := Leader (base pc)) in *.
  assert (wired size !! pos = Some (i, n.(peers))) as Hw.
  { rewrite <- (cl_wiring _ _ _ Hc). unfold wiring. by rewrite list_lookup_fmap, Hpos, <- Hid. }
  assert (i ∈ n.(peers)) as Hself.
  { apply list_elem_of_lookup_2, list_elem_of_fmap in Hw as (j & [= -> ->] & ?). done. }
  pose proof (Propose_ready _ _ _ _ _ Hp Hn Hself) as Hready.
  apply (tick_from_ready pos i _ _ _ _ _ Ht) in Hready. fold i in Hready.
  assert (i ∈ order) as Hin.
  { apply Hord. destruct Hready as (_ & _ & _ & m & Hm & _). unfold queue_of in Hm.
    destruct (queues c2 !! i); [by eexists|by apply not_elem_of_nil in Hm]. }
  destruct (DeliverAll_doomed (wired size) (k + 1 + 1) pos i n.(peers) n.(currentTerm)
    (wired_ids size) Hw ltac:(lia) c2 order c3 Hc2 Hd) as [Hgone _].
  destruct (Hgone (ready_doomed _ _ _ _ Hready) Hin) as (n3 & Hn3 & Hst). exists c3, n3.
  split; [done|]. split; [|done]. rewrite <- (cl_wiring _ _ _ Hc3) in Hw.
  destruct (wiring_at _ _ _ _ Hw) as (n3' & Hn3' & Hid3 & _).
  rewrite Hn3 in Hn3'. injection Hn3' as <-. unfold Get.Node. rewrite <- Hid3.
  rewrite (nodeByID_at c3 pos n3); [done| |done].
  rewrite <- wiring_ids, (cl_wiring _ _ _ Hc3). apply wired_ids.
Qed.
End wiring.

#[local] Existing Instance constant_rng.

(** Three nodes, node 1 elected. *)
Definition elected_calls : list Command :=
  repeat DoTickAll 11 ++ [DoDeliverAll [2; 1; 3]; DoDeliverAll [1; 2; 3]].
Definition elected_cluster : PartitionedCluster Z :=
  match exec_commands (NewPartitioned (λ z : Z, z) 3 1) elected_calls with
  | Ret pc => pc
  | _ => NewPartitioned (λ z : Z, z) 3 1
  end.
Definition proposed_cluster : Cluster Z :=
  match Propose elected_cluster.(base) [x61] with Ret (c, _) => c | _ => elected_cluster.(base) end.

Lemma proposal_deposes_leader_witness :
  Leader elected_cluster.(base) = 1 ∧
  ∃ c2, TickAll proposed_cluster = Ret c2 ∧ ∀ order, visit_order c2 order →
    ∃ c3 n, DeliverAll c2 order = Ret c3 ∧
      Get.Node c3 (Leader elected_cluster.(base)) = Some n ∧ n.(state) = StateFollower.
Proof.
  split; [by vm_compute|].
  apply (proposal_deposes_leader (λ z : Z, z) 3 1 elected_calls elected_cluster [x61]
    proposed_cluster); [done|done|by repeat constructor|done|by vm_compute|by vm_compute].
Defined.
