(* ===== verification/SplitBrain.v ===== *)
(** * Two leaders of one term

    A node of [Cluster] is its own peer, so its vote for itself is counted twice, and two
    votes of four elect.  Whatever the seeds are, calls of the API lead four nodes to two
    leaders of term 1 ([cluster_two_leaders]): crashes and restarts line the election timers
    of nodes 1 and 3 up so that 3 times out one tick before 1; node 3 is elected with the vote
    of node 4 while 1 is cut off, and one tick later node 1 with the vote of node 2. *)
From S2P Require Import Prelude Log LogPersist Message Node Cluster.
From S2P Require Import Spec NodeFacts Refine NodeSpec ClusterSpec Wiring.
From Stdlib Require Import Strings.Byte.
Open Scope N_scope.

Section split_brain.
  Context {R : Type} `{LawfulRNG R}.
  Implicit Types (n : Node R) (m : Message) (c : Cluster R) (pc : PartitionedCluster R).

(** ** The roles the four nodes play *)

Definition four : list N := peer_ids 4.

(** The fields nothing here changes. *)
Record base_ok (i : N) n : Prop := {
  bo_id : n.(id) = i;
  bo_peers : n.(peers) = four;
  bo_log : n.(raftLog) = Log.New;
  bo_min : n.(electionTimeoutMin) = 10%Z;
  bo_max : n.(electionTimeoutMax) = 20%Z;
  bo_heartbeat : n.(heartbeatInterval) = 2%Z;
}.

Definition timer_in (e : Z) n : Prop :=
  n.(electionElapsed) = e ∧ (10 ≤ n.(electionTimeout) ≤ 20)%Z.

(** A node that was never involved in an election: running since [e] ticks, or crashed. *)
Record up (i : N) (e : Z) n : Prop := {
  up_base : base_ok i n;
  up_term : n.(currentTerm) = 0 ∧ n.(votedFor) = 0;
  up_state : n.(state) = StateFollower;
  up_running : n.(crashed) = false;
  up_timer : timer_in e n;
}.
Record down (i : N) n : Prop := {
  down_base : base_ok i n;
  down_term : n.(currentTerm) = 0 ∧ n.(votedFor) = 0;
  down_crashed : n.(crashed) = true;
}.

(** A follower that has voted for [x], a candidate and a leader, all of term 1. *)
Record voted (i x : N) (e : Z) n : Prop := {
  vo_base : base_ok i n;
  vo_term : n.(currentTerm) = 1 ∧ n.(votedFor) = x;
  vo_state : n.(state) = StateFollower;
  vo_running : n.(crashed) = false;
  vo_timer : timer_in e n;
}.
Record cand (i : N) n : Prop := {
  ca_base : base_ok i n;
  ca_term : n.(currentTerm) = 1 ∧ n.(votedFor) = i;
  ca_state : n.(state) = StateCandidate;
  ca_votes : n.(votesGranted) = {[i := true]};
  ca_running : n.(crashed) = false;
}.
Record lead (i : N) (h : Z) n : Prop := {
  le_base : base_ok i n;
  le_term : n.(currentTerm) = 1 ∧ n.(votedFor) = i;
  le_state : n.(state) = StateLeader;
  le_running : n.(crashed) = false;
  le_elapsed : n.(heartbeatElapsed) = h;
}.

Definition vote_request (i p : N) : Message := NewRequestVote i p 1 0 0.
Definition heartbeat (i p : N) : Message := NewAppendEntries i p 1 0 0 0 [].

Lemma reset_timer i n :
  base_ok i n → ∃ t r, resetElectionTimer n =
    n <| electionElapsed := 0%Z |> <| rng := r |> <| electionTimeout := t |> ∧
    (10 ≤ t ≤ 20)%Z.
Proof.
  intros [_ _ _ Hmin Hmax _]. destruct (reset_eq n) as (t & r & E).
  pose proof (reset_range n) as Hr. rewrite Hmin, Hmax, E in Hr. exists t, r.
  split; [done|]. by apply Hr.
Qed.

(** ** Starting, crashing, restarting *)

Lemma New_up i r : up i 0 (Node.New i four r).
Proof.
  unfold Node.New. match goal with |- context [resetElectionTimer ?x] =>
    destruct (reset_timer i x) as (t & r' & -> & Ht) end; [by split|].
  split; [by split|done..].
Qed.

Lemma Crash_down i e n : up i e n → down i (Crash n).1.
Proof. intros [[] ? ? Hcr _]. unfold Crash. rewrite Hcr. split; [by split|done..]. Qed.

Lemma Restart_up i n : down i n → ∃ n', Restart n = Ret (n', None) ∧ up i 0 n'.
Proof.
  intros [[Hid Hps Hlog Hmin Hmax Hhb] [Ht Hv] Hcr].
  assert (persisted n = Ret (MkPersistedState 0 0 [])) as Hp.
  { unfold persisted, AllEntries. by rewrite Hlog, Ht, Hv. }
  assert (Deserialize (Serialize (MkPersistedState 0 0 [])) = Ret (MkPersistedState 0 0 [])) as Hd
    by by vm_compute.
  assert (Append Log.New [] = Ret (Log.New, None)) as Ha by by vm_compute.
  unfold Restart. rewrite Hcr, Hp. cbn [negb mbind go_bind]. rewrite Hd.
  cbn [LogPersist.Entries raftLog set_field set_raftLog]. rewrite Ha. cbn [mbind go_bind].
  match goal with |- context [resetElectionTimer ?x] =>
    destruct (reset_timer i x) as (t & r' & -> & Hto) end; [by split|].
  eexists. split; [done|]. split; [by split|done..].
Qed.

(** ** Ticks *)

Lemma Tick_down i n : down i n → Tick n = Ret (n, []).
Proof. intros [_ _ Hcr]. unfold Tick. by rewrite Hcr. Qed.

Lemma small_i64 e : (0 ≤ e ≤ 20)%Z → is_i64 e.
Proof. unfold is_i64, i64_min, i64_max. lia. Qed.

(** [n] a tick later. *)
Definition older n : Node R := n <| electionElapsed := (n.(electionElapsed) + 1)%Z |>.

Lemma Tick_up i e n :
  up i e n → (0 ≤ e)%Z → (e + 1 < n.(electionTimeout))%Z →
  Tick n = Ret (older n, []) ∧ up i (e + 1) (older n).
Proof.
  intros [[] ? Hst Hcr [He Hto]] H0e Hlt. split.
  - apply Tick_waits; [done|by left|rewrite He; apply small_i64; lia|by rewrite He].
  - split; [by split|done..|]. split; [cbn; by rewrite He|done].
Qed.

Lemma Tick_voted i x e n :
  voted i x e n → (0 ≤ e < 9)%Z → Tick n = Ret (older n, []) ∧ voted i x (e + 1) (older n).
Proof.
  intros [[] ? Hst Hcr [He Hto]] H0e. split.
  - apply Tick_waits; [done|by left|rewrite He; apply small_i64; lia|rewrite He; lia].
  - split; [by split|done..|]. split; [cbn; by rewrite He|done].
Qed.

Lemma Tick_fires i e n :
  up i e n → (0 ≤ e)%Z → (e + 1 = n.(electionTimeout))%Z →
  ∃ n', Tick n = Ret (n', map (vote_request i) four) ∧ cand i n'.
Proof.
  intros [[Hid Hps Hlog Hmin Hmax Hhb] [Ht _] Hst Hcr [He Hto]] H0e Heq. unfold Tick. rewrite Hcr.
  rewrite wrap_i64_small by (apply small_i64; lia). cbn zeta.
  set (n1 := n <| electionElapsed := _ |>). change (state n1) with (state n). rewrite Hst.
  change (electionTimeout n1) with (electionTimeout n).
  rewrite (proj2 (Z.leb_le _ _)) by (cbn; lia).
  unfold startElection. match goal with |- context [resetElectionTimer ?x] =>
    destruct (reset_timer i x) as (t & r' & -> & _) end; [by split|].
  cbn -[Last u64_add]. rewrite Hlog, Ht. cbn. rewrite Hid, Hps. eexists. split; [done|].
  split; [by split|done..].
Qed.

Lemma Tick_lead i n :
  lead i 0 n → ∃ n', Tick n = Ret (n', []) ∧ lead i 1 n'.
Proof.
  intros [[Hid Hps Hlog Hmin Hmax Hhb] Ht Hst Hcr Hh]. unfold Tick. rewrite Hcr. cbn zeta.
  set (n1 := n <| electionElapsed := _ |>). change (state n1) with (state n). rewrite Hst.
  change (heartbeatElapsed n1) with (heartbeatElapsed n). rewrite Hh.
  set (n2 := n1 <| heartbeatElapsed := _ |>).
  change (heartbeatInterval n2) with (heartbeatInterval n). rewrite Hhb.
  change (heartbeatElapsed n2) with 1%Z. exists n2. split; [done|]. split; [by split|done..].
Qed.

(** ** Messages *)

Lemma becomeLeader_frame n n' out :
  becomeLeader n = Ret (n', out) →
  n'.(votedFor) = n.(votedFor) ∧ n'.(crashed) = n.(crashed) ∧
  n'.(electionTimeoutMin) = n.(electionTimeoutMin) ∧
  n'.(electionTimeoutMax) = n.(electionTimeoutMax) ∧
  n'.(heartbeatInterval) = n.(heartbeatInterval) ∧ n'.(heartbeatElapsed) = 0%Z.
Proof.
  unfold becomeLeader. match goal with |- context [resetElectionTimer ?x] =>
    destruct (reset_eq x) as (t & r & ->) end.
  cbv zeta. intros Hr. go_inv Hr. destruct a as [li lt]. go_inv Hr. injection Hr as <- _.
  match goal with |- context [foldl _ ?x ?ps] =>
    destruct (leader_loop_eq (li +u 1) ps x) as (ni & mi & E) end.
  by rewrite E.
Qed.

Lemma up_to_date_new n : n.(raftLog) = Log.New → isUpToDate n 0 0 = Ret true.
Proof. intros Hlog. unfold isUpToDate. by rewrite Hlog. Qed.

Lemma Step_up i x e n :
  up i e n → ∃ n', Step n (vote_request x i) = Ret (n', [NewRequestVoteResp i x 1 true]) ∧
    voted i x 0 n'.
Proof.
  intros [[Hid Hps Hlog Hmin Hmax Hhb] [Ht Hv] Hst Hcr _]. unfold Step. rewrite Hcr.
  cbn [vote_request NewRequestVote Type_]. unfold handleRequestVote.
  cbn [vote_request NewRequestVote Message.Term From LastLogIndex LastLogTerm]. rewrite Ht.
  cbn [N.ltb N.compare]. set (n1 := _ <| leaderID := 0 |>).
  change (votedFor n1) with 0. cbn [N.eqb orb]. rewrite up_to_date_new by done.
  cbn [mbind go_bind]. match goal with |- context [resetElectionTimer ?y] =>
    destruct (reset_timer i y) as (t & r' & -> & Hto) end; [by split|].
  eexists. split; [cbn; by rewrite Hid|]. split; [by split|done..].
Qed.

(** The request a candidate sent to itself. *)
Lemma Step_cand_own i n :
  cand i n → ∃ n', Step n (vote_request i i) = Ret (n', [NewRequestVoteResp i i 1 true]) ∧
    cand i n'.
Proof.
  intros [[Hid Hps Hlog Hmin Hmax Hhb] [Ht Hv] Hst Hvs Hcr]. unfold Step. rewrite Hcr.
  cbn [vote_request NewRequestVote Type_]. unfold handleRequestVote.
  cbn [vote_request NewRequestVote Message.Term From LastLogIndex LastLogTerm]. rewrite Ht.
  cbn [N.ltb N.compare Pos.compare Pos.compare_cont]. rewrite Hv, N.eqb_refl, orb_true_r.
  rewrite up_to_date_new by done. cbn [mbind go_bind].
  match goal with |- context [resetElectionTimer ?y] =>
    destruct (reset_timer i y) as (t & r' & -> & Hto) end; [by split|].
  eexists. split; [cbn; by rewrite Hid, Ht|]. split; [by split|done..].
Qed.

(** Two votes, counted as three. *)
Lemma Step_cand_wins i j n :
  cand i n → i ∈ four → j ∈ four → i ≠ j →
  ∃ n', Step n (NewRequestVoteResp j i 1 true) = Ret (n', map (heartbeat i) four) ∧ lead i 0 n'.
Proof.
  intros [[Hid Hps Hlog Hmin Hmax Hhb] [Ht Hv] Hst Hvs Hcr] Hi Hj Hij. unfold Step. rewrite Hcr.
  cbn [NewRequestVoteResp Type_]. unfold handleRequestVoteResp.
  cbn [NewRequestVoteResp Message.Term From Granted]. rewrite Ht, Hst.
  cbn [N.ltb N.compare Pos.compare Pos.compare_cont]. rewrite N.eqb_refl, bool_decide_eq_true_2 by done.
  cbn [andb]. rewrite Hvs. set (n1 := n <| votesGranted := _ |>).
  assert ((majority n1 <=? countVotes n1)%Z = true) as ->.
  { unfold majority, countVotes. change (peers n1) with (peers n). rewrite Hps.
    change (Node.id n1) with (Node.id n). rewrite Hid.
    change (votesGranted n1) with (<[j:=true]> ({[i := true]} : gmap N bool)).
    unfold four, peer_ids in *. cbn in Hi, Hj. rewrite !elem_of_cons, elem_of_nil in Hi, Hj.
    destruct Hi as [->|[->|[->|[->|[]]]]], Hj as [->|[->|[->|[->|[]]]]];
      try done; by vm_compute. }
  destruct (becomeLeader_exact n1) as (n' & E & Hst' & _ & Hid' & Ht' & Hlog' & Hps' & _);
    [change (raftLog n1) with (raftLog n); rewrite Hlog; apply New_wf|].
  exists n'. split.
  - rewrite E. change (raftLog n1) with (raftLog n). change (Node.id n1) with (Node.id n).
    change (peers n1) with (peers n). change (currentTerm n1) with (currentTerm n).
    by rewrite Hlog, Hid, Hps, Ht.
  - destruct (becomeLeader_frame _ _ _ E) as (Hv' & Hcr' & Hmin' & Hmax' & Hhb' & Hh').
    split; [|by rewrite Ht', Hv'|done|by rewrite Hcr'|done].
    split; [by rewrite Hid'|by rewrite Hps'|by rewrite Hlog'|by rewrite Hmin'|
      by rewrite Hmax'|by rewrite Hhb'].
Qed.

(** A second request of the same term is refused. *)
Lemma Step_refuses i n :
  n.(crashed) = false → n.(currentTerm) = 1 → n.(votedFor) ≠ 0 → n.(votedFor) ≠ i →
  Step n (vote_request i n.(Node.id)) = Ret (n, [NewRequestVoteResp n.(Node.id) i 1 false]).
Proof.
  intros Hcr Ht H0v Hi. unfold Step. rewrite Hcr. cbn [vote_request NewRequestVote Type_].
  unfold handleRequestVote. cbn [vote_request NewRequestVote Message.Term From]. rewrite Ht.
  cbn [N.ltb N.compare Pos.compare Pos.compare_cont].
  rewrite (proj2 (N.eqb_neq _ 0)), (proj2 (N.eqb_neq _ i)) by done. cbn [orb mbind go_bind].
  by rewrite Ht.
Qed.

Lemma Step_lead_vote i j g h n :
  lead i h n → Step n (NewRequestVoteResp j i 1 g) = Ret (n, []).
Proof.
  intros [_ [Ht _] Hst Hcr _]. unfold Step. rewrite Hcr. cbn [NewRequestVoteResp Type_].
  unfold handleRequestVoteResp. cbn [NewRequestVoteResp Message.Term]. rewrite Ht, Hst.
  cbn [N.ltb N.compare Pos.compare Pos.compare_cont].
  by rewrite bool_decide_eq_false_2, andb_false_r.
Qed.

Lemma Step_voted_heartbeat i x e n :
  voted i x e n →
  ∃ n', Step n (heartbeat x i) = Ret (n', [NewAppendEntriesResp i x 1 true 0]) ∧ voted i x 0 n'.
Proof.
  intros [[Hid Hps Hlog Hmin Hmax Hhb] [Ht Hv] Hst Hcr _]. unfold Step. rewrite Hcr.
  cbn [heartbeat NewAppendEntries Type_]. unfold handleAppendEntries.
  cbn [heartbeat NewAppendEntries Message.Term From PrevLogIndex PrevLogTerm Message.Entries
    LeaderCommit]. rewrite Ht, Hst. cbn [N.ltb N.compare Pos.compare Pos.compare_cont].
  rewrite bool_decide_eq_true_2 by done. cbn [negb orb].
  match goal with |- context [resetElectionTimer ?y] =>
    destruct (reset_timer i y) as (t & r' & -> & Hto) end; [by split|].
  cbn -[MatchesPrevLogTerm Last]. rewrite Hlog. cbn. rewrite Hid, Ht. eexists. split; [done|].
  split; [by split|done..].
Qed.

Lemma Step_down i n m : down i n → Step n m = Ret (n, []).
Proof. intros [_ _ Hcr]. unfold Step. by rewrite Hcr. Qed.

(** ** The state of the cluster, call by call *)

Record config pc (ns : list (Node R)) (q : N → list Message) (ps : gmap N (gmap N bool)) : Prop := {
  cf_nodes : pc.(base).(nodes) = ns;
  cf_ids : map Node.id ns = four;
  cf_queues : ∀ j, queue_of pc.(base).(queues) j = q j;
  cf_partitions : pc.(partitions) = ps;
}.

Definition added (q : N → list Message) (out : list Message) : N → list Message :=
  λ j, q j ++ filter (λ m, m.(To) = j) out.

Lemma put_ids ns pos n n' :
  ns !! pos = Some n → n'.(Node.id) = n.(Node.id) → map Node.id (<[pos:=n']> ns) = map Node.id ns.
Proof.
  intros Hn Hid. rewrite list_fmap_insert, Hid. apply list_insert_id.
  by rewrite list_lookup_fmap, Hn.
Qed.

Lemma config_find pc ns q ps pos n :
  config pc ns q ps → ns !! pos = Some n → nodeByID pc.(base) n.(Node.id) = Some (pos, n).
Proof.
  intros [Hn Hids _ _] Hpos. apply nodeByID_at; [|by rewrite Hn].
  rewrite Hn, Hids. by apply (bool_decide_unpack _).
Qed.

(** A call on one node. *)
Lemma config_node pc ns q ps pos i n n' f :
  config pc ns q ps → ns !! pos = Some n → n.(Node.id) = i → f n = Ret n' → n'.(Node.id) = i →
  ∃ pc', with_node pc i f = Ret pc' ∧ config pc' (<[pos:=n']> ns) q ps.
Proof.
  intros Hc Hpos <- Hf Hid. unfold with_node. rewrite (config_find _ _ _ _ _ _ Hc Hpos), Hf.
  cbn [mbind go_bind]. eexists. split; [done|]. destruct Hc as [Hn Hids Hq Hp].
  split; [cbn; by rewrite Hn|by rewrite (put_ids _ _ n)|done|done].
Qed.

Lemma tick_from_runs c pre ns rs :
  c.(nodes) = pre ++ ns → Forall2 (λ n r, Tick n = Ret r) ns rs →
  ∃ c', tick_from c (length pre) (length ns) = Ret c' ∧ c'.(nodes) = pre ++ map fst rs ∧
    ∀ j, queue_of c'.(queues) j = added (queue_of c.(queues)) (concat (map snd rs)) j.
Proof.
  intros Hc Hrs. revert c pre Hc. induction Hrs as [|n [n' out] ns rs Hn _ IH]; intros c pre Hc;
    cbn [tick_from length map concat].
  { exists c. split_and!; [done|done|]. intros j. unfold added. by rewrite app_nil_r. }
  rewrite Hc, list_lookup_middle, Hn by done. cbn [mbind go_bind].
  destruct (IH (route (put_node c (length pre) n') out) (pre ++ [n'])) as (c' & E & Hn' & Hq).
  { rewrite route_nodes. cbn. rewrite Hc, insert_app_r_alt, Nat.sub_diag by lia.
    by rewrite <- app_assoc. }
  exists c'. rewrite length_app, Nat.add_comm in E. split; [done|].
  rewrite Hn', <- app_assoc. split; [done|]. intros j. rewrite Hq. unfold added.
  rewrite queue_route. cbn. by rewrite filter_app, app_assoc.
Qed.

Lemma config_tick pc ns q ps rs :
  config pc ns q ps → Forall2 (λ n r, Tick n = Ret r) ns rs →
  map Node.id (map fst rs) = four →
  ∃ pc', exec_command pc DoTickAll = Ret pc' ∧
    config pc' (map fst rs) (added q (concat (map snd rs))) ps.
Proof.
  intros [Hn Hids Hq Hp] Hrs Hids'. cbn [exec_command]. unfold TickAll.
  destruct (tick_from_runs pc.(base) [] ns rs Hn Hrs) as (c' & E & Hn' & Hq').
  rewrite Hn. cbn [length] in E. rewrite E. cbn [mbind go_bind]. eexists. split; [done|].
  split; try done. intros j. cbn. rewrite Hq'. unfold added. by rewrite Hq.
Qed.

(** A node working through its queue, under the partition [ps]. *)
Definition blocked (ps : gmap N (gmap N bool)) m : bool :=
  IsBlocked (MkPartitioned (R:=R) (MkCluster [] ∅ 0) ps) m.(From) m.(To).

Inductive serves (ps : gmap N (gmap N bool)) n : list Message → Node R → list Message → Prop :=
  | serves_nil : serves ps n [] n []
  | serves_drop m ms n' out :
    blocked ps m = true → serves ps n ms n' out → serves ps n (m :: ms) n' out
  | serves_step m ms n1 o1 n' out :
    blocked ps m = false → Step n m = Ret (n1, o1) → serves ps n1 ms n' out →
    serves ps n (m :: ms) n' (filter (λ r, blocked ps r = false) o1 ++ out).

Lemma deliver_filtered_serves pc pos ms n n' out :
  pc.(base).(nodes) !! pos = Some n → serves pc.(partitions) n ms n' out →
  ∃ pc', deliver_filtered pc pos ms = Ret pc' ∧ pc'.(partitions) = pc.(partitions) ∧
    pc'.(base).(nodes) = <[pos:=n']> pc.(base).(nodes) ∧
    ∀ j, queue_of pc'.(base).(queues) j = added (queue_of pc.(base).(queues)) out j.
Proof.
  intros Hn Hs. remember (partitions pc) as ps eqn:Hps. revert pc Hn Hps.
  induction Hs as [n|n m ms n' out Hb Hs IH|n m ms n1 o1 n' out Hb Hst Hs IH];
    intros pc Hn ->; cbn [deliver_filtered].
  - exists pc. rewrite list_insert_id by done. split_and!; try done.
    intros j. unfold added. by rewrite app_nil_r.
  - change (IsBlocked pc (From m) (To m)) with (blocked (partitions pc) m). rewrite Hb.
    by apply IH.
  - change (IsBlocked pc (From m) (To m)) with (blocked (partitions pc) m).
    rewrite Hb, Hn, Hst. cbn [mbind go_bind].
    set (kept := filter _ o1). set (pc1 := pc <| base := _ |>).
    destruct (IH pc1) as (pc' & E & Hp & Hn' & Hq); [|done|].
    { cbn. rewrite route_nodes. apply list_lookup_insert_eq. by eapply lookup_lt_Some. }
    exists pc'. split; [done|]. split; [done|]. rewrite Hn'. cbn. rewrite route_nodes. cbn.
    rewrite list_insert_insert_eq. split; [done|]. intros j. rewrite Hq. unfold added. cbn.
    by rewrite queue_route, filter_app, app_assoc.
Qed.

(** Visiting the queue of one node. *)
Definition visited (q : N → list Message) (i : N) (out : list Message) : N → list Message :=
  λ j, if decide (j = i) then [] else added q out j.

Lemma config_visit pc ns q ps pos i n n' out :
  config pc ns q ps → ns !! pos = Some n → n.(Node.id) = i → serves ps n (q i) n' out →
  n'.(Node.id) = i →
  ∃ pc', deliver_filtered_id pc i = Ret pc' ∧ config pc' (<[pos:=n']> ns) (visited q i out) ps.
Proof.
  intros Hc Hpos <- Hs Hid. pose proof (config_find _ _ _ _ _ _ Hc Hpos) as Hf.
  destruct Hc as [Hn Hids Hq Hp]. unfold deliver_filtered_id. rewrite Hq, Hf.
  destruct (q n.(Node.id)) as [|m ms] eqn:E.
  { inversion Hs; subst. exists pc. split; [done|]. rewrite list_insert_id by done.
    split; try done. intros j. unfold visited, added. rewrite Hq, app_nil_r.
    by destruct (decide (j = _)) as [->|]. }
  rewrite <- Hp, <- Hn in *. destruct (deliver_filtered_serves pc pos _ n n' out Hpos Hs)
    as (pc' & -> & Hp' & Hn' & Hq').
  cbn [mbind go_bind]. eexists. split; [done|].
  split; [done|by rewrite (put_ids _ _ n)| |done].
  intros j. cbn. unfold queue_of at 1, visited. rewrite lookup_insert.
  destruct (decide (n.(Node.id) = j)) as [<-|Hne]; [by rewrite decide_True|].
  rewrite decide_False by done. fold (queue_of (queues (base pc')) j). rewrite Hq'.
  unfold added. by rewrite Hq.
Qed.

(** What [Partition] blocks, computed from the ids. *)
Definition fence (i : N) (ids : list N) (ps : gmap N (gmap N bool)) : gmap N (gmap N bool) :=
  foldl (λ ps j, if negb (j =? i) then block (ensure (block ps i j) j) j i else ps)
    (ensure ps i) ids.

Lemma config_partition pc ns q ps i :
  config pc ns q ps → config (Partition pc i) ns q (fence i four ps).
Proof.
  intros [Hn Hids Hq Hp]. split; try done. rewrite <- Hids. unfold Partition. cbn. rewrite Hn, Hp.
  unfold fence. generalize (ensure ps i). clear. induction ns as [|n ns IH]; [done|].
  intros ps. cbn [foldl map]. apply IH.
Qed.

Lemma config_heal pc ns q ps : config pc ns q ps → config (HealAll pc) ns q ∅.
Proof. by intros []. Qed.

Lemma exec_commands_app pc cmds1 cmds2 pc' :
  exec_commands pc cmds1 = Ret pc' →
  exec_commands pc (cmds1 ++ cmds2) = exec_commands pc' cmds2.
Proof.
  revert pc. induction cmds1 as [|cmd cmds IH]; intros pc Hr; cbn in Hr |- *.
  - by injection Hr as ->.
  - go_inv Hr. rewrite Hret. by apply IH.
Qed.

Lemma config_ext pc ns q q' ps : config pc ns q ps → (∀ j, q j = q' j) → config pc ns q' ps.
Proof. intros [? ? Hq ?] He. split; try done. intros j. by rewrite Hq. Qed.

(** ** Lining the timers up *)

Definition silent : N → list Message := λ _, [].

(** [k] ticks too early for an election. *)
Definition waited (k : nat) n : Node R := Nat.iter k (λ n, if n.(crashed) then n else older n) n.

Definition waits (k : nat) n : Prop :=
  (∃ i, down i n) ∨
  ∃ i e, up i e n ∧ (0 ≤ e)%Z ∧ (e + Z.of_nat k < n.(electionTimeout))%Z.

Lemma waited_r k n :
  waited (S k) n = if (waited k n).(crashed) then waited k n else older (waited k n).
Proof. done. Qed.

Lemma waited_down k i n : down i n → waited k n = n.
Proof.
  intros [_ _ Hcr]. induction k as [|k IH]; [done|]. by rewrite waited_r, IH, Hcr.
Qed.

Lemma waited_up k i e n :
  up i e n → (0 ≤ e)%Z → (e + Z.of_nat k < n.(electionTimeout))%Z →
  up i (e + Z.of_nat k) (waited k n) ∧ (waited k n).(electionTimeout) = n.(electionTimeout).
Proof.
  intros Hu He. induction k as [|k IH]; intros Hk; [by rewrite Z.add_0_r|].
  destruct IH as [Hu' Ht]; [lia|]. rewrite waited_r, (up_running _ _ _ Hu'). split; [|done].
  destruct (Tick_up _ _ _ Hu') as [_ Hu'']; [lia|rewrite Ht; lia|].
  by replace (e + Z.of_nat (S k))%Z with (e + Z.of_nat k + 1)%Z by lia.
Qed.

Lemma waits_tick k n :
  waits (S k) n → Tick n = Ret (waited 1 n, []) ∧ waits k (waited 1 n) ∧
    (waited 1 n).(Node.id) = n.(Node.id).
Proof.
  intros [[i Hd]|(i & e & Hu & He & Hk)].
  - rewrite (waited_down 1 i) by done. split; [by apply (Tick_down i)|]. split; [|done].
    left. by exists i.
  - destruct (Tick_up _ _ _ Hu He) as [Ht Hu']; [lia|].
    assert (waited 1 n = older n) as -> by (cbn; by rewrite (up_running _ _ _ Hu)).
    split; [done|]. split; [|done]. right. exists i, (e + 1)%Z. split; [done|].
    split; [lia|]. cbn. lia.
Qed.

Lemma waited_S k n : waited (S k) n = waited k (waited 1 n).
Proof. unfold waited. by rewrite Nat.iter_succ_r. Qed.

Lemma config_wait k pc ns ps :
  config pc ns silent ps → Forall (waits k) ns →
  ∃ pc', exec_commands pc (repeat DoTickAll k) = Ret pc' ∧
    config pc' (map (waited k) ns) silent ps.
Proof.
  revert pc ns. induction k as [|k IH]; intros pc ns Hc Hw; cbn [repeat exec_commands].
  { exists pc. split; [done|]. by rewrite map_id. }
  destruct (config_tick pc ns silent ps (map (λ n, (waited 1 n, [])) ns) Hc) as (pc1 & E & Hc1).
  - apply Forall2_fmap_r. apply Forall_Forall2_diag. eapply Forall_impl; [exact Hw|].
    intros n Hn. by apply (waits_tick k).
  - rewrite map_map. rewrite <- (cf_ids _ _ _ _ Hc), map_map. apply map_ext_elem. intros n Hn.
    rewrite Forall_forall in Hw. by apply (waits_tick k n), Hw.
  - rewrite E. cbn [mbind go_bind]. rewrite !map_map in Hc1. cbn in Hc1.
    destruct (IH pc1 (map (waited 1) ns)) as (pc' & E' & Hc').
    + apply (config_ext _ _ _ _ _ Hc1). intros j. unfold added, silent.
      assert (∀ l : list (Node R), concat (map (λ _, []) l) = ([] : list Message)) as ->; [|done].
      intros l. by induction l.
    + apply Forall_fmap. eapply Forall_impl; [exact Hw|]. intros n Hn. by apply (waits_tick k).
    + exists pc'. split; [done|]. rewrite map_map in Hc'.
      erewrite map_ext; [exact Hc'|]. intros n. apply waited_S.
Qed.

Lemma config_crash pc ns q ps pos i e n :
  config pc ns q ps → ns !! pos = Some n → up i e n →
  ∃ pc', exec_command pc (DoCrash i) = Ret pc' ∧
    config pc' (<[pos:=(Crash n).1]> ns) q ps.
Proof.
  intros Hc Hpos Hu. eapply config_node; [done|done|apply Hu|done|]. apply (Crash_down _ _ _ Hu).
Qed.

Lemma config_restart pc ns q ps pos i n n' :
  config pc ns q ps → ns !! pos = Some n → down i n →
  Restart n = Ret (n', None) → up i 0 n' →
  ∃ pc', exec_command pc (DoRestart i) = Ret pc' ∧ config pc' (<[pos:=n']> ns) q ps.
Proof.
  intros Hc Hpos Hd Hr Hu. eapply config_node; [done|done|apply Hd|by rewrite Hr|apply Hu].
Qed.

Lemma config_New (NewSeededRNG : Z → R) seed :
  ∃ n1 n2 n3 n4, config (NewPartitioned NewSeededRNG 4 seed) [n1; n2; n3; n4] silent ∅ ∧
    up 1 0 n1 ∧ up 2 0 n2 ∧ up 3 0 n3 ∧ up 4 0 n4.
Proof.
  set (r := λ i : nat, NewSeededRNG (wrap_i64 (seed + Z.of_nat i))).
  exists (Node.New 1 four (r 0%nat)), (Node.New 2 four (r 1%nat)), (Node.New 3 four (r 2%nat)),
    (Node.New 4 four (r 3%nat)).
  split; [|split_and!; apply New_up]. split; [done| | |done].
  - cbn [map]. by rewrite !(λ i r, bo_id _ _ (up_base _ _ _ (New_up i r))).
  - intros j. unfold queue_of, silent. cbn -[insert].
    rewrite !lookup_insert, lookup_empty. by repeat case_decide.
Qed.

(** Everybody crashed. *)
Lemma all_down (NewSeededRNG : Z → R) seed :
  ∃ pc n1 n2 n3 n4, exec_commands (NewPartitioned NewSeededRNG 4 seed)
      [DoCrash 1; DoCrash 2; DoCrash 3; DoCrash 4] = Ret pc ∧
    config pc [n1; n2; n3; n4] silent ∅ ∧ down 1 n1 ∧ down 2 n2 ∧ down 3 n3 ∧ down 4 n4.
Proof.
  destruct (config_New NewSeededRNG seed) as (n1 & n2 & n3 & n4 & Hc & H1 & H2 & H3 & H4).
  destruct (config_crash _ _ _ _ 0 _ _ _ Hc eq_refl H1) as (pc1 & E1 & Hc1). cbn in Hc1.
  destruct (config_crash _ _ _ _ 1 _ _ _ Hc1 eq_refl H2) as (pc2 & E2 & Hc2). cbn in Hc2.
  destruct (config_crash _ _ _ _ 2 _ _ _ Hc2 eq_refl H3) as (pc3 & E3 & Hc3). cbn in Hc3.
  destruct (config_crash _ _ _ _ 3 _ _ _ Hc3 eq_refl H4) as (pc4 & E4 & Hc4). cbn in Hc4.
  eexists pc4, _, _, _, _. split.
  { cbn [exec_commands]. rewrite E1. cbn [mbind go_bind]. rewrite E2. cbn [mbind go_bind].
    rewrite E3. cbn [mbind go_bind]. by rewrite E4. }
  split; [exact Hc4|]. split_and!; by eapply Crash_down.
Qed.

(** Node 3 one tick from its timeout, node 1 two ticks, 2 and 4 down. *)
Definition lined_up n1 n2 n3 n4 : Prop :=
  (∃ e, up 1 e n1 ∧ (0 ≤ e)%Z ∧ (e + 2 = n1.(electionTimeout))%Z) ∧ down 2 n2 ∧
  (∃ e, up 3 e n3 ∧ (0 ≤ e)%Z ∧ (e + 1 = n3.(electionTimeout))%Z) ∧ down 4 n4.

(** Restarting one of the nodes 1 and 3, [a] ticks, restarting the other, [b] ticks. *)
Definition line_up_calls (i : N) (a : nat) (j : N) (b : nat) : list Command :=
  (DoRestart i :: repeat DoTickAll a) ++ DoRestart j :: repeat DoTickAll b.

Lemma restart_wait pc ns pos i n u a :
  config pc ns silent ∅ → ns !! pos = Some n → down i n → Restart n = Ret (u, None) →
  up i 0 u → (Z.of_nat a < u.(electionTimeout))%Z → Forall (waits a) ns →
  ∃ pc', exec_commands pc (DoRestart i :: repeat DoTickAll a) = Ret pc' ∧
    config pc' (map (waited a) (<[pos:=u]> ns)) silent ∅.
Proof.
  intros Hc Hpos Hd Hr Hu Ha Hw.
  destruct (config_restart _ _ _ _ pos _ _ _ Hc Hpos Hd Hr Hu) as (pc1 & E1 & Hc1).
  destruct (config_wait a _ _ _ Hc1) as (pc2 & E2 & Hc2).
  { apply Forall_insert; [done|]. right. exists i, 0%Z. split; [done|lia]. }
  exists pc2. split; [|done]. cbn [exec_commands]. by rewrite E1.
Qed.

Ltac waits_tac Hd :=
  rewrite !Forall_cons, Forall_nil; split_and!; try done; try (by eapply Hd).

Lemma line_up pc n1 n2 n3 n4 :
  config pc [n1; n2; n3; n4] silent ∅ → down 1 n1 → down 2 n2 → down 3 n3 → down 4 n4 →
  ∃ i a j b pc' n1' n3', exec_commands pc (line_up_calls i a j b) = Ret pc' ∧
    config pc' [n1'; n2; n3'; n4] silent ∅ ∧ lined_up n1' n2 n3' n4.
Proof.
  intros Hc H1 H2 H3 H4. destruct (Restart_up 1 n1 H1) as (u1 & R1 & U1).
  destruct (Restart_up 3 n3 H3) as (u3 & R3 & U3).
  destruct (up_timer _ _ _ U1) as [_ T1]. destruct (up_timer _ _ _ U3) as [_ T3].
  assert (∀ k i n, down i n → waits k n) as Hd by (intros k i n ?; left; by exists i).
  assert (∀ i a j b pc1 pc2, exec_commands pc (DoRestart i :: repeat DoTickAll a) = Ret pc1 →
    exec_commands pc1 (DoRestart j :: repeat DoTickAll b) = Ret pc2 →
    exec_commands pc (line_up_calls i a j b) = Ret pc2) as Hcalls.
  { intros * E1 E2. unfold line_up_calls. by rewrite (exec_commands_app _ _ _ _ E1). }
  set (t1 := electionTimeout u1) in *. set (t3 := electionTimeout u3) in *.
  destruct (Z.le_gt_cases t1 (t3 + 1)) as [Hle|Hgt].
  - set (a := Z.to_nat (t3 + 1 - t1)). set (b := Z.to_nat (t1 - 2)). exists 3, a, 1, b.
    destruct (waited_up a _ _ _ U3) as [U3' T3']; [lia|lia|].
    destruct (waited_up b _ _ _ U3') as [U3'' T3'']; [lia|lia|].
    destruct (waited_up b _ _ _ U1) as [U1' T1']; [lia|lia|].
    destruct (restart_wait _ _ 2 3 _ _ a Hc eq_refl H3 R3 U3) as (pc1 & E1 & Hc1);
      [lia|waits_tac Hd|].
    cbn [insert list_insert map] in Hc1. rewrite !(waited_down a _ _ H1), (waited_down a _ _ H2),
      (waited_down a _ _ H4) in Hc1.
    destruct (restart_wait _ _ 0 1 _ _ b Hc1 eq_refl H1 R1 U1) as (pc2 & E2 & Hc2); [lia| |].
    { waits_tac Hd. right. eexists 3, _. split; [exact U3'|lia]. }
    cbn [insert list_insert map] in Hc2. rewrite (waited_down b _ _ H2), (waited_down b _ _ H4) in Hc2.
    eexists pc2, _, _. split; [by eapply Hcalls|]. split; [exact Hc2|split_and!; [|done| |done]].
    + eexists. split; [exact U1'|]. lia.
    + eexists. split; [exact U3''|]. lia.
  - set (a := Z.to_nat (t1 - 1 - t3)). set (b := Z.to_nat (t3 - 1)). exists 1, a, 3, b.
    destruct (waited_up a _ _ _ U1) as [U1' T1']; [lia|lia|].
    destruct (waited_up b _ _ _ U1') as [U1'' T1'']; [lia|lia|].
    destruct (waited_up b _ _ _ U3) as [U3' T3']; [lia|lia|].
    destruct (restart_wait _ _ 0 1 _ _ a Hc eq_refl H1 R1 U1) as (pc1 & E1 & Hc1);
      [lia|waits_tac Hd|].
    cbn [insert list_insert map] in Hc1. rewrite (waited_down a _ _ H2), (waited_down a _ _ H3),
      (waited_down a _ _ H4) in Hc1.
    destruct (restart_wait _ _ 2 3 _ _ b Hc1 eq_refl H3 R3 U3) as (pc2 & E2 & Hc2); [lia| |].
    { waits_tac Hd. right. eexists 1, _. split; [exact U1'|lia]. }
    cbn [insert list_insert map] in Hc2. rewrite (waited_down b _ _ H2), (waited_down b _ _ H4) in Hc2.
    eexists pc2, _, _. split; [by eapply Hcalls|]. split; [exact Hc2|split_and!; [|done| |done]].
    + eexists. split; [exact U1''|]. lia.
    + eexists. split; [exact U3'|]. lia.
Qed.

(** ** The first election *)

Definition first_calls : list Command :=
  [DoTickAll; DoRestart 4; DoPartition 1; DoDeliverAllFiltered [4; 3; 1; 2]; DoHealAll].

(** Node 3 leads; its message to node 4 is waiting, everything else was handled or dropped. *)
Definition first_elected n1 n2 n3 n4 (q : N → list Message) : Prop :=
  (∃ e, up 1 e n1 ∧ (0 ≤ e)%Z ∧ (e + 1 = n1.(electionTimeout))%Z) ∧ down 2 n2 ∧
  lead 3 0 n3 ∧ voted 4 3 0 n4 ∧ q 1 = [] ∧ q 2 = [] ∧ q 3 = [] ∧ q 4 = [heartbeat 3 4].

Definition cut : gmap N (gmap N bool) := fence 1 four ∅.

Lemma role_ids n1 n2 n3 n4 :
  base_ok 1 n1 → base_ok 2 n2 → base_ok 3 n3 → base_ok 4 n4 →
  map Node.id [n1; n2; n3; n4] = four.
Proof.
  intros H1 H2 H3 H4. cbn [map].
  by rewrite (bo_id _ _ H1), (bo_id _ _ H2), (bo_id _ _ H3), (bo_id _ _ H4).
Qed.

Lemma serves_as ps n ms' ms out' out n' :
  ms = ms' → serves ps n ms' n' out' → out = out' → serves ps n ms n' out.
Proof. by intros -> ? ->. Qed.

(** One message handled, with the equation [E] of [Step]. *)
Ltac serve_one E :=
  eapply serves_step; [by vm_compute|exact E|]; try apply serves_nil.

Lemma deliver_cons pc pc' i order :
  deliver_filtered_id pc i = Ret pc' →
  DeliverAllFiltered pc (i :: order) = DeliverAllFiltered pc' order.
Proof. intros E. cbn [DeliverAllFiltered]. by rewrite E. Qed.

Lemma first_election pc n1 n2 n3 n4 :
  config pc [n1; n2; n3; n4] silent ∅ → lined_up n1 n2 n3 n4 →
  ∃ pc' n1' n3' n4' q, exec_commands pc first_calls = Ret pc' ∧
    config pc' [n1'; n2; n3'; n4'] q ∅ ∧ first_elected n1' n2 n3' n4' q.
Proof.
  intros Hc ((e1 & U1 & He1 & T1) & D2 & (e3 & U3 & He3 & T3) & D4).
  destruct (Tick_up _ _ _ U1 He1) as [K1 U1']; [lia|].
  destruct (Tick_fires _ _ _ U3 He3 T3) as (m3 & K3 & C3).
  destruct (Restart_up _ _ D4) as (m4 & R4 & U4).
  destruct (Step_up 4 3 0 m4 U4) as (v4 & S4 & V4).
  destruct (Step_cand_own 3 m3 C3) as (c3 & S3 & C3').
  destruct (Step_cand_wins 3 4 c3 C3') as (l3 & W3 & L3);
    [by apply (bool_decide_unpack _)|by apply (bool_decide_unpack _)|done|].
  (* the calls *)
  destruct (config_tick _ _ _ _ [(older n1, []); (n2, []); (m3, map (vote_request 3) four);
    (n4, [])] Hc) as (pc1 & E1 & Hc1).
  { repeat constructor; [done|by eapply Tick_down|done|by eapply Tick_down]. }
  { apply role_ids; [apply U1'|apply D2|apply C3|apply D4]. }
  cbn [map fst snd] in Hc1.
  destruct (config_restart _ _ _ _ 3 _ _ _ Hc1 eq_refl D4 R4 U4) as (pc2 & E2 & Hc2).
  cbn [insert list_insert] in Hc2. apply (config_partition _ _ _ _ 1) in Hc2 as Hc3.
  fold cut in Hc3.
  destruct (config_visit _ _ _ _ 3 4 m4 v4 [NewRequestVoteResp 4 3 1 true] Hc3) as (pc4 & E4 & Hc4);
    [done|apply U4| |apply V4|].
  { eapply (serves_as _ _ [vote_request 3 4]);
      [by vm_compute|serve_one S4|by vm_compute]. }
  destruct (config_visit _ _ _ _ 2 3 m3 l3
    [NewRequestVoteResp 3 3 1 true; heartbeat 3 2; heartbeat 3 3; heartbeat 3 4] Hc4)
    as (pc5 & E5 & Hc5); [done|apply C3| |apply L3|].
  { eapply (serves_as _ _ [vote_request 3 3; NewRequestVoteResp 4 3 1 true]);
      [by vm_compute|serve_one S3; serve_one W3|by vm_compute]. }
  destruct (config_visit _ _ _ _ 0 1 (older n1) (older n1) [] Hc5) as (pc6 & E6 & Hc6);
    [done|apply U1'| |apply U1'|].
  { eapply (serves_as _ _ [vote_request 3 1]);
      [by vm_compute|apply serves_drop; [by vm_compute|apply serves_nil]|by vm_compute]. }
  destruct (config_visit _ _ _ _ 1 2 n2 n2 [] Hc6) as (pc7 & E7 & Hc7);
    [done|apply D2| |apply D2|].
  { eapply (serves_as _ _ [vote_request 3 2; heartbeat 3 2]);
      [by vm_compute|serve_one (Step_down 2 n2 (vote_request 3 2) D2); serve_one (Step_down 2 n2 (heartbeat 3 2) D2)|by vm_compute]. }
  cbn [insert list_insert] in Hc7. apply config_heal in Hc7.
  eexists _, _, _, _, _. split; [|split; [exact Hc7|]].
  - unfold first_calls. cbn [exec_commands]. rewrite E1. cbn [mbind go_bind].
    rewrite E2. cbn [mbind go_bind exec_command].
    rewrite (deliver_cons _ _ _ _ E4), (deliver_cons _ _ _ _ E5), (deliver_cons _ _ _ _ E6),
      (deliver_cons _ _ _ _ E7). done.
  - split; [|split_and!; [done|done|done|by vm_compute..]].
    exists (e1 + 1)%Z. split; [exact U1'|]. cbn. lia.
Qed.

(** ** The second election *)

Definition second_calls : list Command :=
  [DoRestart 2; DoTickAll; DoDeliverAllFiltered [2; 3; 4; 1]].

Lemma second_election pc n1 n2 n3 n4 q :
  config pc [n1; n2; n3; n4] q ∅ → first_elected n1 n2 n3 n4 q →
  ∃ pc' n1' n2' n3' n4' q' h, exec_commands pc second_calls = Ret pc' ∧
    config pc' [n1'; n2'; n3'; n4'] q' ∅ ∧ lead 1 0 n1' ∧ lead 3 h n3'.
Proof.
  intros Hc ((e1 & U1 & He1 & T1) & D2 & L3 & V4 & Q1 & Q2 & Q3 & Q4).
  destruct (Restart_up _ _ D2) as (m2 & R2 & U2).
  destruct (up_timer _ _ _ U2) as [_ T2].
  destruct (Tick_fires _ _ _ U1 He1 T1) as (m1 & K1 & C1).
  destruct (Tick_up _ _ _ U2) as [K2 U2']; [lia|lia|].
  destruct (Tick_lead _ _ L3) as (l3 & K3 & L3').
  destruct (Tick_voted _ _ _ _ V4) as [K4 V4']; [lia|].
  destruct (Step_up 2 1 _ _ U2') as (v2 & S2 & V2).
  destruct (Step_voted_heartbeat _ _ _ _ V4') as (v4 & S4 & V4'').
  destruct (Step_cand_own 1 m1 C1) as (c1 & S1 & C1').
  destruct (Step_cand_wins 1 2 c1 C1') as (l1 & W1 & L1);
    [by apply (bool_decide_unpack _)|by apply (bool_decide_unpack _)|done|].
  assert (Step l3 (vote_request 1 3) = Ret (l3, [NewRequestVoteResp 3 1 1 false])) as S3.
  { destruct L3' as [[Hid _ _ _ _ _] [Ht Hv] _ Hcr _]. pose proof (Step_refuses 1 l3 Hcr Ht) as Hs.
    rewrite Hid in Hs. apply Hs; by rewrite Hv. }
  assert (Step v4 (vote_request 1 4) = Ret (v4, [NewRequestVoteResp 4 1 1 false])) as S4'.
  { destruct V4'' as [[Hid _ _ _ _ _] [Ht Hv] _ Hcr _]. pose proof (Step_refuses 1 v4 Hcr Ht) as Hs.
    rewrite Hid in Hs. apply Hs; by rewrite Hv. }
  (* the calls *)
  destruct (config_restart _ _ _ _ 1 _ _ _ Hc eq_refl D2 R2 U2) as (pc1 & E1 & Hc1).
  cbn [insert list_insert] in Hc1.
  destruct (config_tick _ _ _ _ [(m1, map (vote_request 1) four); (older m2, []); (l3, []);
    (older n4, [])] Hc1) as (pc2 & E2 & Hc2); [by repeat constructor| |].
  { apply role_ids; [apply C1|apply U2'|apply L3'|apply V4']. }
  cbn [map fst snd] in Hc2.
  apply (config_ext _ _ _ (added (λ j, if decide (j = 4) then [heartbeat 3 4] else q j)
    (map (vote_request 1) four))) in Hc2.
  2: { intros j. unfold added. by case_decide as Hj; [rewrite Hj, Q4|]. }
  destruct (config_visit _ _ _ _ 1 2 (older m2) v2 [NewRequestVoteResp 2 1 1 true] Hc2)
    as (pc3 & E3 & Hc3); [done|apply U2'| |apply V2|].
  { eapply (serves_as _ _ [vote_request 1 2]);
      [unfold added; by rewrite decide_False, Q2|serve_one S2|by vm_compute]. }
  destruct (config_visit _ _ _ _ 2 3 l3 l3 [NewRequestVoteResp 3 1 1 false] Hc3)
    as (pc4 & E4 & Hc4); [done|apply L3'| |apply L3'|].
  { eapply (serves_as _ _ [vote_request 1 3]);
      [unfold visited, added; by rewrite !decide_False, Q3|serve_one S3|by vm_compute]. }
  destruct (config_visit _ _ _ _ 3 4 (older n4) v4
    [NewAppendEntriesResp 4 3 1 true 0; NewRequestVoteResp 4 1 1 false] Hc4)
    as (pc5 & E5 & Hc5); [done|apply V4'| |apply V4''|].
  { eapply (serves_as _ _ [heartbeat 3 4; vote_request 1 4]);
      [by vm_compute|serve_one S4; serve_one S4'|by vm_compute]. }
  eassert (Step l1 (NewRequestVoteResp 3 1 1 false) = _) as W3 by by eapply Step_lead_vote.
  eassert (Step l1 (NewRequestVoteResp 4 1 1 false) = _) as W4 by by eapply Step_lead_vote.
  destruct (config_visit _ _ _ _ 0 1 m1 l1
    (NewRequestVoteResp 1 1 1 true :: map (heartbeat 1) four) Hc5)
    as (pc6 & E6 & Hc6); [done|apply C1| |apply L1|].
  { eapply (serves_as _ _ [vote_request 1 1; NewRequestVoteResp 2 1 1 true;
      NewRequestVoteResp 3 1 1 false; NewRequestVoteResp 4 1 1 false]).
    - unfold visited, added. by rewrite !decide_False, Q1.
    - serve_one S1. serve_one W1. serve_one W3. serve_one W4.
    - by vm_compute. }
  cbn [insert list_insert] in Hc6. eexists _, _, _, _, _, _, _.
  split; [|split; [exact Hc6|split; [exact L1|exact L3']]].
  unfold second_calls. cbn [exec_commands]. rewrite E1. cbn [mbind go_bind].
  rewrite E2. cbn [mbind go_bind exec_command].
  rewrite (deliver_cons _ _ _ _ E3), (deliver_cons _ _ _ _ E4), (deliver_cons _ _ _ _ E5),
    (deliver_cons _ _ _ _ E6). done.
Qed.

(** ** The theorem *)

(** The deliveries visit every queue exactly once: [New] gives each of the four nodes one,
    and messages are addressed to nodes only. *)
Definition order_ok (cmd : Command) : Prop :=
  match cmd with
  | DoDeliverAll order | DoDeliverAllFiltered order => order ≡ₚ four
  | _ => True
  end.

(** C12: cluster_two_leaders.  Election safety fails for the wiring of [Cluster], whatever the
    seeds: for every seeded source and every seed, calls of the API on a cluster of four
    (ticks, one partition, crashes and restarts, deliveries in possible orders) lead to a
    state in which nodes 1 and 3 both lead term 1.  A node's vote for itself is counted
    twice, so two votes of four elect. *)
Theorem cluster_two_leaders (NewSeededRNG : Z → R) seed :
  ∃ cmds pc n1 n3, Forall order_ok cmds ∧
    exec_commands (NewPartitioned NewSeededRNG 4 seed) cmds = Ret pc ∧
    Get.Node pc.(base) 1 = Some n1 ∧ Get.Node pc.(base) 3 = Some n3 ∧
    n1.(state) = StateLeader ∧ n3.(state) = StateLeader ∧
    n1.(currentTerm) = 1 ∧ n3.(currentTerm) = 1.
Proof.
  destruct (all_down NewSeededRNG seed) as (pc1 & n1 & n2 & n3 & n4 & E1 & Hc1 & H1 & H2 & H3 & H4).
  destruct (line_up _ _ _ _ _ Hc1 H1 H2 H3 H4) as (i & a & j & b & pc2 & u1 & u3 & E2 & Hc2 & Hl).
  destruct (first_election _ _ _ _ _ Hc2 Hl) as (pc3 & p1 & p3 & p4 & q & E3 & Hc3 & Hf).
  destruct (second_election _ _ _ _ _ _ Hc3 Hf)
    as (pc4 & w1 & w2 & w3 & w4 & q' & h & E4 & Hc4 & L1 & L3).
  exists ([DoCrash 1; DoCrash 2; DoCrash 3; DoCrash 4] ++ line_up_calls i a j b ++
    first_calls ++ second_calls), pc4, w1, w3.
  split; [|split; [|split; [|split]]].
  - assert (∀ k, Forall order_ok (repeat DoTickAll k)) as Hrep
      by (intros k; induction k; by constructor).
    unfold line_up_calls, first_calls, second_calls.
    rewrite !Forall_app, !Forall_cons. split_and!; try done; try apply Hrep;
      by apply (bool_decide_unpack _).
  - by rewrite (exec_commands_app _ _ _ _ E1), (exec_commands_app _ _ _ _ E2),
      (exec_commands_app _ _ _ _ E3).
  - unfold Get.Node. rewrite <- (bo_id _ _ (le_base _ _ _ L1)).
    by rewrite (config_find _ _ _ _ 0 w1 Hc4).
  - unfold Get.Node. rewrite <- (bo_id _ _ (le_base _ _ _ L3)).
    by rewrite (config_find _ _ _ _ 2 w3 Hc4).
  - destruct L1 as [_ [? _] ? _ _], L3 as [_ [? _] ? _ _]. done.
Qed.
End split_brain.

(** With the constant source every timeout is the same. *)
Lemma cluster_two_leaders_witness :
  ∃ cmds pc n1 n3, Forall order_ok cmds ∧
    exec_commands (H:=constant_rng) (NewPartitioned (H:=constant_rng) (λ z : Z, z) 4 1) cmds = Ret pc ∧
    Get.Node pc.(base) 1 = Some n1 ∧ Get.Node pc.(base) 3 = Some n3 ∧
    n1.(state) = StateLeader ∧ n3.(state) = StateLeader ∧
    n1.(currentTerm) = 1 ∧ n3.(currentTerm) = 1.
Proof.
  exact (@cluster_two_leaders Z constant_rng constant_rng_lawful (λ z : Z, z) 1%Z).
Defined.
