(* ===== verification/Timer.v ===== *)
(** * The logical countdown timer (internal/node/timer.go)

    A timer counts ticks since its last reset.  [Tick] returns the timer and whether it
    fired. *)
From S2P Require Import Prelude.
Open Scope Z_scope.

Record Timer := MkTimer { deadline : Z; elapsed : Z; active : bool }.

#[export] Instance set_deadline : Setter deadline := λ v t, MkTimer v (elapsed t) (active t).
#[export] Instance set_elapsed : Setter elapsed := λ v t, MkTimer (deadline t) v (active t).
#[export] Instance set_active : Setter active := λ v t, MkTimer (deadline t) (elapsed t) v.

Definition NewTimer (d : Z) : Timer := MkTimer d 0 true.

Definition Tick (t : Timer) : Timer * bool :=
  if negb t.(active) then (t, false)
  else
    let t := t <| elapsed := wrap_i64 (t.(elapsed) + 1) |> in
    (t, t.(deadline) <=? t.(elapsed)).

Definition Reset (t : Timer) (d : Z) : Timer :=
  t <| deadline := d |> <| elapsed := 0 |> <| active := true |>.

Definition Stop (t : Timer) : Timer := t <| active := false |>.

Definition IsActive (t : Timer) : bool := t.(active).
Definition Elapsed (t : Timer) : Z := t.(elapsed).
Definition Remaining (t : Timer) : Z :=
  let r := wrap_i64 (t.(deadline) - t.(elapsed)) in if r <? 0 then 0 else r.
Definition Fired (t : Timer) : bool := t.(active) && (t.(deadline) <=? t.(elapsed)).

(** [k] ticks: the timer and what each tick returned. *)
Fixpoint tick_many (k : nat) (t : Timer) : Timer * list bool :=
  match k with
  | O => (t, [])
  | S k => let '(t, b) := Tick t in let '(t, bs) := tick_many k t in (t, b :: bs)
  end.

Lemma tick_many_active k t :
  t.(active) = true → 0 ≤ t.(elapsed) → t.(elapsed) + Z.of_nat k ≤ i64_max →
  tick_many k t =
    (t <| elapsed := t.(elapsed) + Z.of_nat k |>,
     map (λ i, t.(deadline) <=? t.(elapsed) + Z.of_nat (S i)) (seq 0 k)).
Proof.
  revert t. induction k as [|k IH]; intros t Ha He Hk.
  { cbn. rewrite Z.add_0_r. by destruct t. }
  cbn [tick_many]. unfold Tick. rewrite Ha. cbn [negb].
  rewrite wrap_i64_small by (unfold is_i64, i64_min, i64_max in *; lia).
  rewrite IH by (cbn; done || lia). cbn [deadline elapsed set_field set_elapsed].
  f_equal.
  - unfold set_field, set_elapsed. cbn. f_equal. lia.
  - cbn [seq map]. f_equal. rewrite <- seq_shift, map_map. apply map_ext. intros i. f_equal. lia.
Qed.

(** timer_fires_at_deadline.  A timer started (or reset) with a positive deadline reports
    false for [deadline - 1] ticks and true from the next one on; [Remaining] counts down to
    zero, and [Fired] agrees with what [Tick] last returned. *)
Theorem timer_fires_at_deadline (t : Timer) (d : Z) (k : nat) :
  0 < d ≤ i64_max → Z.of_nat k ≤ i64_max →
  let '(t', bs) := tick_many k (Reset t d) in
  (∀ i, (i < k)%nat → bs !! i = Some (d <=? Z.of_nat (S i))) ∧
  Elapsed t' = Z.of_nat k ∧ Remaining t' = Z.max 0 (d - Z.of_nat k) ∧
  Fired t' = (d <=? Z.of_nat k).
Proof.
  intros Hd Hk. rewrite (tick_many_active k (Reset t d) eq_refl)
    by (change (elapsed (Reset t d)) with 0; lia). cbn.
  split; [|split; [done|split; [|done]]].
  - intros i Hi. rewrite list_lookup_fmap, lookup_seq_lt by done. done.
  - unfold Remaining. cbn. unfold i64_max in *.
    rewrite wrap_i64_small by (unfold is_i64, i64_min, i64_max; lia).
    destruct (Z.ltb_spec (d - (0 + Z.of_nat k)) 0); lia.
Qed.

Lemma timer_fires_at_deadline_witness :
  let '(t', bs) := tick_many 4 (Reset (NewTimer 7) 3) in
  (∀ i, (i < 4)%nat → bs !! i = Some (3 <=? Z.of_nat (S i))) ∧
  Elapsed t' = 4 ∧ Remaining t' = Z.max 0 (3 - 4) ∧ Fired t' = (3 <=? 4).
Proof. by apply (timer_fires_at_deadline (NewTimer 7) 3 4). Defined.

(** timer_stopped.  A stopped timer never fires until it is reset. *)
Theorem timer_stopped (t : Timer) (k : nat) :
  tick_many k (Stop t) = (Stop t, replicate k false) ∧ Fired (Stop t) = false.
Proof.
  split; [|done]. induction k as [|k IH]; [done|]. cbn [tick_many].
  change (Tick (Stop t)) with (Stop t, false). cbn zeta beta iota. by rewrite IH.
Qed.
