(* ===== verification/Peers.v ===== *)
(** * Per-follower replication progress (internal/node/peers.go)

    [PeerTracker] as a finite map; Go visits it in any order, and every method that lists
    it sorts the result, so the order of [map_to_list] does not matter ([sort_unique]).
    Proved here: what the updates do, that [QuorumMatch] is the highest index on a majority,
    and that it agrees with the leader's own commit rule. *)
From S2P Require Import Prelude Sort Log Message Node Refine NodeSpec.
Open Scope N_scope.

Record PeerState := MkPeer { ID : N; NextIndex : N; MatchIndex : N }.
Abbreviation PeerTracker := (gmap N PeerState).

#[export] Instance set_NextIndex : Setter NextIndex := λ v p, MkPeer (ID p) v (MatchIndex p).
#[export] Instance set_MatchIndex : Setter MatchIndex := λ v p, MkPeer (ID p) (NextIndex p) v.

Definition NewPeerTracker (ids : list N) (lastIndex : N) : PeerTracker :=
  foldl (λ pt id, <[id := MkPeer id (lastIndex +u 1) 0]> pt) ∅ ids.

Definition Get (pt : PeerTracker) (id : N) : option PeerState := pt !! id.

Definition UpdateMatch (pt : PeerTracker) (id matchIndex : N) : PeerTracker :=
  match pt !! id with
  | Some p =>
    let p := p <| MatchIndex := matchIndex |> in
    let p := if p.(NextIndex) <? matchIndex +u 1
             then p <| NextIndex := matchIndex +u 1 |> else p in
    <[id := p]> pt
  | None => pt
  end.

Definition DecrementNext (pt : PeerTracker) (id : N) : PeerTracker :=
  match pt !! id with
  | Some p => if 1 <? p.(NextIndex)
              then <[id := p <| NextIndex := p.(NextIndex) -u 1 |>]> pt else pt
  | None => pt
  end.

Definition MatchIndexes (pt : PeerTracker) : list N :=
  sort_Slice (map (λ kv, kv.2.(MatchIndex)) (map_to_list pt)).

Definition QuorumMatch (pt : PeerTracker) (leaderMatch : N) : go N :=
  let matches := MatchIndexes pt in
  let matches := sort_Slice (matches ++ [leaderMatch]) in
  let n := Z.of_nat (length matches) in
  let i := (n - n / 2 - 1)%Z in
  if (i <? 0)%Z then Panic else index matches (Z.to_N i).

Definition IDs (pt : PeerTracker) : list N := sort_Slice (map fst (map_to_list pt)).
Definition PT_Len (pt : PeerTracker) : Z := Z.of_nat (size pt).

(** ** Counting in a sorted list *)

(** In a sorted list at least [length - k] elements are above the [k]-th, and at most
    [length - k - 1] are above anything larger. *)
Lemma sorted_count (s : list N) (k : nat) (q : N) :
  StronglySorted N.le s → s !! k = Some q →
  (length s - k ≤ length (filter (λ x, (q ≤ x)%N) s))%nat ∧
  ∀ q', q < q' → (length (filter (λ x, (q' ≤ x)%N) s) ≤ length s - k - 1)%nat.
Proof.
  intros Hs. revert k. induction Hs as [|x s Hs IH Hall]; intros k Hk; [done|].
  destruct k as [|k]; cbn [lookup list_lookup] in Hk.
  - injection Hk as ->. split.
    + assert (filter (λ y, q ≤ y) (q :: s) = q :: s) as ->; [|cbn; lia].
      apply filter_id. constructor; [lia|done].
    + intros q' Hq'. rewrite filter_cons, decide_False by lia. cbn [length].
      pose proof (length_filter (λ y, q' ≤ y) s). lia.
  - destruct (IH k Hk) as [Hlo Hhi].
    assert (x ≤ q) as Hxq.
    { rewrite Forall_forall in Hall. apply Hall. by eapply list_elem_of_lookup_2. }
    split.
    + rewrite filter_cons. case_decide; cbn [length]; lia.
    + intros q' Hq'. rewrite filter_cons, decide_False by lia. cbn [length].
      specialize (Hhi q' Hq'). lia.
Qed.

(** The largest value that a majority of [ms] reaches. *)
Definition on_majority (ms : list N) (q : N) : Prop :=
  (length ms < 2 * length (filter (λ x, (q ≤ x)%N) ms))%nat.

Lemma sorted_quorum s k q :
  StronglySorted N.le s → k = (length s - length s / 2 - 1)%nat → s !! k = Some q →
  on_majority s q ∧ ∀ q', on_majority s q' → q' ≤ q.
Proof.
  intros Hs -> Hq. destruct (sorted_count s _ q Hs Hq) as [Hlo Hhi].
  pose proof (lookup_lt_Some _ _ _ Hq). pose proof (Nat.div_mod (length s) 2).
  pose proof (Nat.mod_upper_bound (length s) 2). unfold on_majority. split; [lia|].
  intros q' Hm. destruct (N.le_gt_cases q' q) as [|Hgt]; [done|].
  specialize (Hhi q' Hgt). lia.
Qed.

Lemma on_majority_perm ms ms' q : ms ≡ₚ ms' → on_majority ms q → on_majority ms' q.
Proof. unfold on_majority. intros Hp. by rewrite Hp. Qed.

(** All match indexes, the leader's included. *)
Definition all_matches (pt : PeerTracker) (leaderMatch : N) : list N :=
  leaderMatch :: map (λ kv, kv.2.(MatchIndex)) (map_to_list pt).

Lemma QuorumMatch_exists pt lm :
  ∃ q, QuorumMatch pt lm = Ret q ∧ on_majority (all_matches pt lm) q ∧
    ∀ q', on_majority (all_matches pt lm) q' → q' ≤ q.
Proof.
  unfold QuorumMatch. set (s := sort_Slice _).
  assert (s ≡ₚ all_matches pt lm) as Hp.
  { unfold s, all_matches, MatchIndexes. rewrite sort_Slice_perm, sort_Slice_perm.
    by rewrite Permutation_app_comm. }
  assert (StronglySorted N.le s) as Hs by apply sort_Slice_sorted. clearbody s.
  assert (0 < length s)%nat as Hlen by (rewrite Hp; cbn; lia).
  set (k := (length s - length s / 2 - 1)%nat).
  pose proof (Nat.div_mod (length s) 2). pose proof (Nat.mod_upper_bound (length s) 2).
  assert ((Z.of_nat (length s) - Z.of_nat (length s) / 2 - 1)%Z = Z.of_nat k) as Hk.
  { unfold k. rewrite <- (Nat2Z.inj_div _ 2). lia. }
  rewrite Hk, (proj2 (Z.ltb_ge _ _)) by lia.
  destruct (lookup_lt_is_Some_2 s k) as [q Hq]; [unfold k; lia|].
  replace (Z.to_N (Z.of_nat k)) with (N.of_nat k) by lia.
  rewrite (index_Some _ _ _ Hq). exists q. split; [done|].
  destruct (sorted_quorum s k q Hs eq_refl Hq) as [Hq1 Hq2]. split.
  - by apply (on_majority_perm s).
  - intros q' Hq'. apply Hq2. by apply (on_majority_perm (all_matches pt lm)).
Qed.

(** ** What the tracker guarantees *)

(** C27: QuorumMatch_is_highest.  [QuorumMatch] returns (it never indexes out of range) the
    highest index that more than half of the leader and its peers have reached. *)
Theorem QuorumMatch_is_highest pt lm :
  ∃ q, QuorumMatch pt lm = Ret q ∧ on_majority (all_matches pt lm) q ∧
    ∀ q', on_majority (all_matches pt lm) q' → q' ≤ q.
Proof. apply QuorumMatch_exists. Qed.

Lemma tracked_count (f : N → N) (ps : list N) (pt : PeerTracker) (i : N) :
  NoDup ps → (∀ p, p ∈ ps ↔ is_Some (pt !! p)) →
  (∀ p s, pt !! p = Some s → s.(MatchIndex) = f p) →
  map (λ kv, kv.2.(MatchIndex)) (map_to_list pt) ≡ₚ map f ps.
Proof.
  intros Hnd Hdom Hf.
  assert (map fst (map_to_list pt) ≡ₚ ps) as Hps.
  { apply NoDup_Permutation; [apply NoDup_fst_map_to_list|done|]. intros p.
    rewrite Hdom, list_elem_of_fmap. split.
    - intros ([q s] & -> & Hin). apply elem_of_map_to_list in Hin. by eexists.
    - intros [s Hs]. exists (p, s). split; [done|]. by apply elem_of_map_to_list. }
  rewrite <- Hps, map_map. erewrite map_ext_elem; [done|]. intros [p s] Hin.
  apply elem_of_map_to_list in Hin. by apply Hf.
Qed.

Lemma length_filter_map {A B} (f : A → B) (P : B → Prop) `{∀ x, Decision (P x)} l :
  length (filter P (map f l)) = length (filter (λ x, P (f x)) l).
Proof.
  induction l as [|x l IH]; [done|]. cbn [map]. rewrite !filter_cons.
  case_decide; cbn [length]; by rewrite IH.
Qed.

Lemma on_majority_down ms q q' : q' ≤ q → on_majority ms q → on_majority ms q'.
Proof.
  unfold on_majority. intros Hle Hm.
  assert (length (filter (λ x, (q ≤ x)%N) ms) ≤ length (filter (λ x, (q' ≤ x)%N) ms))%nat; [|lia].
  clear Hm. induction ms as [|x ms IH]; [done|]. rewrite !filter_cons.
  destruct (decide (q ≤ x)), (decide (q' ≤ x)); cbn [length]; lia.
Qed.

(** C28: QuorumMatch_agrees_with_leader.  For a tracker that mirrors a leader's [matchIndex],
    the tracker's quorum index and the leader's own rule agree: an index the leader holds
    is on a majority by [replicatedOnMajority] exactly when [QuorumMatch] reaches it. *)
Theorem QuorumMatch_agrees_with_leader {R} `{RNG R} (n : Node R) pt lm i :
  NoDup n.(peers) → (∀ p, p ∈ n.(peers) ↔ is_Some (pt !! p)) →
  (∀ p s, pt !! p = Some s → s.(MatchIndex) = get_index n.(matchIndex) p) → i ≤ lm →
  (replicatedOnMajority n i = true ↔ ∃ q, QuorumMatch pt lm = Ret q ∧ i ≤ q).
Proof.
  intros Hnd Hdom Hf Hi. rewrite replicatedOnMajority_spec.
  destruct (QuorumMatch_exists pt lm) as (q & Hq & Hmaj & Hmax).
  trans (on_majority (all_matches pt lm) i).
  - unfold on_majority, all_matches. rewrite filter_cons, decide_True by done.
    rewrite (tracked_count (get_index (matchIndex n)) (peers n)) by done.
    cbn [length]. rewrite length_filter_map, length_map. unfold majority.
    pose proof (Z.mul_succ_div_gt (Z.of_nat (length (peers n)) + 1) 2).
    pose proof (Z.mul_div_le (Z.of_nat (length (peers n)) + 1) 2). lia.
  - split.
    + intros Hm. exists q. split; [done|]. by apply Hmax.
    + intros (q' & Hq' & Hle). rewrite Hq in Hq'. injection Hq' as <-.
      by apply (on_majority_down _ q).
Qed.

(** tracker_updates.  A match report sets the peer's match index and never lowers its
    next index below it; a rejection lowers the next index by one, never below 1; reports
    about unknown peers and all other peers are unaffected. *)
Theorem tracker_updates pt p s i :
  Get pt p = Some s → i + 1 < u64_modulus → is_u64 s.(NextIndex) →
  Get (UpdateMatch pt p i) p =
    Some (MkPeer s.(ID) (N.max s.(NextIndex) (i + 1)) i) ∧
  Get (DecrementNext pt p) p =
    Some (MkPeer s.(ID) (if 1 <? s.(NextIndex) then s.(NextIndex) - 1 else s.(NextIndex))
            s.(MatchIndex)) ∧
  (∀ p', p' ≠ p → Get (UpdateMatch pt p i) p' = Get pt p' ∧
                   Get (DecrementNext pt p) p' = Get pt p') ∧
  (∀ p', Get pt p' = None → UpdateMatch pt p' i = pt ∧ DecrementNext pt p' = pt).
Proof.
  unfold Get, UpdateMatch, DecrementNext. intros Hs Hi Hn. rewrite Hs.
  rewrite (u64_add_small i 1) by done. cbv beta iota zeta. split_and!.
  - rewrite lookup_insert_eq. cbn. destruct (N.ltb_spec (NextIndex s) (i + 1)); cbn.
    + by rewrite N.max_r by lia.
    + rewrite N.max_l by lia. by destruct s.
  - destruct (N.ltb_spec 1 (NextIndex s)).
    + rewrite lookup_insert_eq, u64_sub_small by (done || lia). done.
    + rewrite Hs. by destruct s.
  - intros p' Hne. split; [by rewrite lookup_insert_ne|].
    destruct (1 <? NextIndex s); [by rewrite lookup_insert_ne|done].
  - intros p' ->. done.
Qed.

(** ** A concrete tracker: two peers, at 5 and 2 *)

#[local] Existing Instance constant_rng.

Definition ex_tracker : PeerTracker := UpdateMatch (UpdateMatch (NewPeerTracker [2; 3] 0) 2 5) 3 2.
Definition ex_leader : Node Z :=
  busy <| matchIndex := {[2 := 5; 3 := 2]} |>.

Lemma QuorumMatch_agrees_with_leader_witness :
  QuorumMatch ex_tracker 6 = Ret 5 ∧
  (replicatedOnMajority ex_leader 5 = true ↔ ∃ q, QuorumMatch ex_tracker 6 = Ret q ∧ 5 ≤ q).
Proof.
  split; [by vm_compute|]. apply (QuorumMatch_agrees_with_leader ex_leader ex_tracker 6 5).
  - by apply (bool_decide_unpack _).
  - intros p. change (peers ex_leader) with [2; 3].
    change ex_tracker with
      (<[3 := MkPeer 3 3 2]> (<[2 := MkPeer 2 6 5]> (∅ : gmap N PeerState))).
    rewrite !elem_of_cons, !lookup_insert_is_Some, lookup_empty.
    pose proof (not_elem_of_nil p). destruct (decide (2 = p)), (decide (3 = p)); naive_solver.
  - intros p s. change ex_tracker with
      (<[3 := MkPeer 3 3 2]> (<[2 := MkPeer 2 6 5]> (∅ : gmap N PeerState))).
    rewrite !lookup_insert, lookup_empty.
    intros Hs. repeat case_decide; simplify_eq; by vm_compute.
  - done.
Defined.

Lemma tracker_updates_witness :
  Get (UpdateMatch ex_tracker 3 4) 3 = Some (MkPeer 3 (N.max 3 (4 + 1)) 4) ∧
  Get (DecrementNext ex_tracker 3) 3 = Some (MkPeer 3 (3 - 1) 2) ∧
  (∀ p', p' ≠ 3 → Get (UpdateMatch ex_tracker 3 4) p' = Get ex_tracker p' ∧
                   Get (DecrementNext ex_tracker 3) p' = Get ex_tracker p') ∧
  (∀ p', Get ex_tracker p' = None →
     UpdateMatch ex_tracker p' 4 = ex_tracker ∧ DecrementNext ex_tracker p' = ex_tracker).
Proof. by apply (tracker_updates ex_tracker 3 (MkPeer 3 3 2) 4). Defined.
