(* ===== verification/Membership.v ===== *)
(** * Cluster membership (internal/membership/membership.go)

    A [Config] is its sorted peer list.  [config_ok] is what [NewConfig] establishes on
    distinct ids.  Proved here: membership after adding and removing, that the invariant is
    kept, and the two facts configurations exist for: quorums of one configuration
    intersect, and so do quorums of two configurations that differ by one peer. *)
From S2P Require Import Prelude Sort Log Message Node Refine.
Open Scope N_scope.

Record Config := MkConfig { Peers : list N }.

Definition NewConfig (peers : list N) : Config := MkConfig (sort_Slice peers).

Fixpoint contains (ps : list N) (id : N) : bool :=
  match ps with
  | [] => false
  | p :: ps => if p =? id then true else contains ps id
  end.
Definition Contains (c : Config) (id : N) : bool := contains c.(Peers) id.

Definition Size (c : Config) : Z := Z.of_nat (length c.(Peers)).

Definition Quorum (c : Config) : Z := (Z.of_nat (length c.(Peers)) / 2 + 1)%Z.

(** The loop that keeps the peers different from [id]. *)
Fixpoint without (ps : list N) (id : N) : list N :=
  match ps with
  | [] => []
  | p :: ps => if negb (p =? id) then p :: without ps id else without ps id
  end.

Definition OtherPeers (c : Config) (id : N) : list N := without c.(Peers) id.

Definition AddPeer (c : Config) (id : N) : Config :=
  if Contains c id then c else NewConfig (c.(Peers) ++ [id]).

Definition RemovePeer (c : Config) (id : N) : Config := NewConfig (without c.(Peers) id).

(** The index loop of [Equal] on lists of equal length. *)
Fixpoint equal_peers (ps qs : list N) : bool :=
  match ps, qs with
  | p :: ps, q :: qs => if negb (p =? q) then false else equal_peers ps qs
  | _, _ => true
  end.

Definition Equal (c other : Config) : bool :=
  if negb (length c.(Peers) =? length other.(Peers))%nat then false
  else equal_peers c.(Peers) other.(Peers).

Definition IsMajority (c : Config) (count : Z) : bool := (Quorum c <=? count)%Z.

(** ** The invariant *)

Record config_ok (c : Config) : Prop := {
  cfg_sorted : StronglySorted N.le c.(Peers);
  cfg_nodup : NoDup c.(Peers);
}.

Lemma contains_elem ps id : contains ps id = true ↔ id ∈ ps.
Proof.
  induction ps as [|p ps IH]; cbn [contains]; [split; [done|by intros ?%not_elem_of_nil]|].
  rewrite elem_of_cons. destruct (N.eqb_spec p id); [naive_solver|rewrite IH; naive_solver].
Qed.

Lemma without_filter ps id : without ps id = filter (λ p, p ≠ id) ps.
Proof.
  induction ps as [|p ps IH]; [done|]. cbn [without]. rewrite filter_cons, IH.
  destruct (N.eqb_spec p id); cbn [negb]; by case_decide.
Qed.

Lemma NewConfig_ok ps : NoDup ps → config_ok (NewConfig ps).
Proof. intros Hnd. split; cbn; [apply sort_Slice_sorted|by rewrite sort_Slice_perm]. Qed.

Lemma AddPeer_ok c id : config_ok c → config_ok (AddPeer c id).
Proof.
  intros Hc. unfold AddPeer. destruct (Contains c id) eqn:E; [done|]. apply NewConfig_ok.
  apply NoDup_app. split; [apply Hc|]. split; [|apply NoDup_singleton].
  intros p Hp ->%list_elem_of_singleton. apply contains_elem in Hp.
  unfold Contains in E. congruence.
Qed.

Lemma RemovePeer_ok c id : config_ok c → config_ok (RemovePeer c id).
Proof.
  intros Hc. apply NewConfig_ok. rewrite without_filter. apply NoDup_filter, Hc.
Qed.

Lemma NewConfig_elem ps id : Contains (NewConfig ps) id = true ↔ id ∈ ps.
Proof. unfold Contains. rewrite contains_elem. cbn. by rewrite sort_Slice_perm. Qed.

Lemma AddPeer_elem c id x :
  Contains (AddPeer c id) x = true ↔ x = id ∨ Contains c x = true.
Proof.
  unfold AddPeer. destruct (Contains c id) eqn:E; [naive_solver|].
  rewrite NewConfig_elem, elem_of_app, list_elem_of_singleton.
  unfold Contains. rewrite contains_elem. tauto.
Qed.

Lemma RemovePeer_elem c id x :
  Contains (RemovePeer c id) x = true ↔ x ≠ id ∧ Contains c x = true.
Proof.
  unfold RemovePeer. rewrite NewConfig_elem, without_filter, list_elem_of_filter.
  unfold Contains. by rewrite contains_elem.
Qed.

Lemma equal_peers_eq ps qs :
  length ps = length qs → equal_peers ps qs = true ↔ ps = qs.
Proof.
  revert qs. induction ps as [|p ps IH]; intros [|q qs] Hl; try done. cbn [equal_peers].
  injection Hl as Hl. destruct (N.eqb_spec p q) as [->|]; cbn [negb]; [|naive_solver].
  rewrite (IH _ Hl). naive_solver.
Qed.

(** ** Quorums *)

Definition peer_set (c : Config) : gset N := list_to_set c.(Peers).

(** The voters [Q] of configuration [c] are enough. *)
Definition is_quorum (c : Config) (Q : gset N) : Prop :=
  Q ⊆ peer_set c ∧ IsMajority c (Z.of_nat (size Q)) = true.

Lemma size_peer_set c : config_ok c → size (peer_set c) = length c.(Peers).
Proof. intros Hc. apply size_list_to_set, Hc. Qed.

Lemma quorums_meet (S Q1 Q2 : gset N) :
  Q1 ⊆ S → Q2 ⊆ S → (size S < size Q1 + size Q2)%nat → ∃ v, v ∈ Q1 ∧ v ∈ Q2.
Proof.
  intros H1 H2 Hlt. destruct (decide (Q1 ∩ Q2 = ∅)) as [E|E].
  - exfalso. assert (size (Q1 ∪ Q2) ≤ size S)%nat by (apply subseteq_size; set_solver).
    rewrite size_union in * by set_solver. lia.
  - apply set_choose_L in E as [v Hv]. exists v. set_solver.
Qed.

Lemma quorum_size c Q :
  is_quorum c Q → (length c.(Peers) < 2 * size Q)%nat.
Proof.
  intros [_ Hm]. unfold IsMajority, Quorum in Hm. apply Z.leb_le in Hm.
  pose proof (Z.mul_succ_div_gt (Z.of_nat (length (Peers c))) 2). lia.
Qed.

Lemma AddPeer_peer_set c id : peer_set (AddPeer c id) = {[id]} ∪ peer_set c.
Proof.
  apply set_eq. intros x. unfold peer_set.
  rewrite elem_of_union, elem_of_singleton, !elem_of_list_to_set, <- !contains_elem.
  apply AddPeer_elem.
Qed.

Lemma AddPeer_length c id :
  (length (AddPeer c id).(Peers) ≤ S (length c.(Peers)))%nat.
Proof.
  unfold AddPeer. destruct (Contains c id); [lia|]. cbn. rewrite sort_Slice_perm, length_app. cbn. lia.
Qed.

(** config_add_remove.  [AddPeer] and [RemovePeer] change membership by exactly one id and
    keep configurations sorted and free of duplicates; [Equal] is equality, so removing a
    peer that was just added gives the same configuration back. *)
Theorem config_add_remove c id x :
  config_ok c →
  config_ok (AddPeer c id) ∧ config_ok (RemovePeer c id) ∧
  (Contains (AddPeer c id) x = true ↔ x = id ∨ Contains c x = true) ∧
  (Contains (RemovePeer c id) x = true ↔ x ≠ id ∧ Contains c x = true) ∧
  (Contains c id = false → Equal (RemovePeer (AddPeer c id) id) c = true).
Proof.
  intros Hc. split; [by apply AddPeer_ok|]. split; [by apply RemovePeer_ok|].
  split; [apply AddPeer_elem|]. split; [apply RemovePeer_elem|]. intros Hnin.
  assert ((RemovePeer (AddPeer c id) id).(Peers) = c.(Peers)) as E.
  { symmetry. cbn. rewrite without_filter. apply sort_unique; [apply Hc|].
    apply NoDup_Permutation; [apply Hc|apply NoDup_filter, AddPeer_ok, Hc|].
    intros y. rewrite list_elem_of_filter, <- !contains_elem.
    change (contains (Peers (AddPeer c id)) y) with (Contains (AddPeer c id) y).
    rewrite AddPeer_elem. unfold Contains in *. split; [|naive_solver].
    intros Hy. split; [|by right]. intros ->. congruence. }
  unfold Equal. rewrite E, Nat.eqb_refl. cbn [negb]. by apply equal_peers_eq.
Qed.

(** C29: config_quorums_intersect.  Two majorities of one configuration share a member, and so
    do a majority of a configuration and a majority of the configuration with one peer more
    (the single-server membership change). *)
Theorem config_quorums_intersect c id Q1 Q2 :
  config_ok c → is_quorum c Q1 → is_quorum c Q2 ∨ is_quorum (AddPeer c id) Q2 →
  ∃ v, v ∈ Q1 ∧ v ∈ Q2.
Proof.
  intros Hc H1 H2. pose proof (quorum_size _ _ H1) as Hs1.
  pose proof (size_peer_set _ Hc) as Hsz. destruct H1 as [Hsub1 _].
  destruct H2 as [H2|H2]; pose proof (quorum_size _ _ H2) as Hs2; destruct H2 as [Hsub2 _].
  - apply (quorums_meet (peer_set c)); [done|done|lia].
  - pose proof (size_peer_set _ (AddPeer_ok _ id Hc)) as Hsz'.
    pose proof (AddPeer_length c id) as Hl.
    apply (quorums_meet (peer_set (AddPeer c id))); [|done|].
    + rewrite AddPeer_peer_set. set_solver.
    + destruct (decide (length (Peers (AddPeer c id)) = length (Peers c))); [lia|].
      unfold AddPeer in *. destruct (Contains c id); [done|]. lia.
Qed.

(** config_matches_node.  A node of the configuration whose peers are [OtherPeers] uses
    the same majority as the configuration. *)
Theorem config_matches_node {R} (n : Node R) c :
  config_ok c → n.(id) ∈ c.(Peers) → n.(peers) = OtherPeers c n.(id) →
  majority n = Quorum c ∧ peers_ok (peer_set c) n.
Proof.
  intros [_ Hnd] Hin Hps. unfold OtherPeers in Hps. rewrite without_filter in Hps.
  assert (n.(id) :: n.(peers) ≡ₚ c.(Peers)) as Hp.
  { apply NoDup_Permutation; [|done|].
    - constructor; [|rewrite Hps; by apply NoDup_filter].
      rewrite Hps, list_elem_of_filter. naive_solver.
    - intros x. rewrite Hps, elem_of_cons, list_elem_of_filter.
      destruct (decide (x = id n)) as [->|]; naive_solver. }
  split.
  - unfold majority, Quorum. rewrite <- Hp. cbn [length]. do 2 f_equal. lia.
  - assert (NoDup (id n :: peers n)) as Hnd' by by rewrite Hp.
    apply NoDup_cons in Hnd' as [? ?]. split; try done.
    + unfold peer_set. by rewrite elem_of_list_to_set.
    + unfold peer_set. apply set_eq. intros x. rewrite !elem_of_list_to_set. by rewrite Hp.
Qed.

(** ** Concrete configurations *)

Definition ex_config : Config := NewConfig [3; 1; 2].

Lemma ex_config_ok : config_ok ex_config.
Proof. apply NewConfig_ok. by apply (bool_decide_unpack _). Qed.

Lemma config_add_remove_witness :
  config_ok (AddPeer ex_config 4) ∧ config_ok (RemovePeer ex_config 4) ∧
  (Contains (AddPeer ex_config 4) 2 = true ↔ 2 = 4 ∨ Contains ex_config 2 = true) ∧
  (Contains (RemovePeer ex_config 4) 2 = true ↔ 2 ≠ 4 ∧ Contains ex_config 2 = true) ∧
  (Contains ex_config 4 = false → Equal (RemovePeer (AddPeer ex_config 4) 4) ex_config = true).
Proof. apply (config_add_remove ex_config 4 2 ex_config_ok). Defined.

Lemma config_quorums_intersect_witness :
  ∃ v : N, v ∈ ({[1; 2]} : gset N) ∧ v ∈ ({[2; 3; 4]} : gset N).
Proof.
  apply (config_quorums_intersect ex_config 4 {[1; 2]} {[2; 3; 4]} ex_config_ok).
  - split; [by apply (bool_decide_unpack _)|by vm_compute].
  - right. split; [by apply (bool_decide_unpack _)|by vm_compute].
Defined.

Lemma config_matches_node_witness :
  let n := @Node.New Z constant_rng 1 [2; 3] 0%Z in
  majority n = Quorum ex_config ∧ peers_ok (peer_set ex_config) n.
Proof.
  apply (config_matches_node (@Node.New Z constant_rng 1 [2; 3] 0%Z) ex_config ex_config_ok).
  - by apply (bool_decide_unpack _).
  - by vm_compute.
Defined.
