(* ===== verification/Codec.v ===== *)
(** * Binary encoding of log entries (internal/codec/codec.go)

    Writers take an [io.Writer] (the class [Writer]) and stop at its first error; readers
    are parsers over the stream.  The two instances of [Bytes.Codec] at the end state the
    contract: what is written is read back, and only what can be written is read. *)
From S2P Require Import Prelude Bytes Log.
From Stdlib Require Import Strings.Byte.
Open Scope N_scope.

Definition ErrFormat : error := NewError "codec: format error".

(** [uint32(x)] *)
Definition uint32 (x : N) : N := x mod 4294967296.

Section write.
  Context {W : Type} `{Writer W}.

Definition writeU64 (v : N) (w : W) : W * option error := Write w (be_bytes 8 v).
Definition writeU32 (v : N) (w : W) : W * option error := Write w (be_bytes 4 v).

Definition WriteEntry (e : Entry) : W → W * option error :=
  writeU64 e.(Term) >>>
  writeU64 e.(Index) >>>
  writeU32 (uint32 (lenN e.(Command))) >>>
  (λ w, if (0 <? length e.(Command))%nat then Write w e.(Command) else (w, None)).

Definition WriteEntries (es : list Entry) : W → W * option error :=
  writeU32 (uint32 (lenN es)) >>> write_all WriteEntry es.
End write.

Definition readU64 : Parser N := get_be 8.
Definition readU32 : Parser N := get_be 4.

Definition ReadEntry : Parser Entry :=
  term ← readU64;
  idx ← readU64;
  cmdLen ← readU32;
  if 16777216 <? cmdLen then parse_throw ErrFormat
  else
    cmd ← (if 0 <? cmdLen then ReadFull cmdLen else mret []);
    mret (MkEntry term idx cmd).

Definition ReadEntries : Parser (list Entry) :=
  count ← readU32;
  if 1048576 <? count then parse_throw ErrFormat
  else get_list ReadEntry (N.to_nat count).

(** ** The formats *)

Definition entry_bytes (e : Entry) : list byte :=
  be_bytes 8 e.(Term) ++ be_bytes 8 e.(Index) ++ be_bytes 4 (uint32 (lenN e.(Command))) ++
  e.(Command).

Definition entries_bytes (es : list Entry) : list byte :=
  be_bytes 4 (uint32 (lenN es)) ++ concat (map entry_bytes es).

(** What the reader accepts. *)
Definition entry_readable (e : Entry) : Prop :=
  is_u64 e.(Term) ∧ is_u64 e.(Index) ∧ lenN e.(Command) ≤ 16777216.

Definition entries_readable (es : list Entry) : Prop :=
  lenN es ≤ 1048576 ∧ Forall entry_readable es.

#[export] Instance entry_readable_dec e : Decision (entry_readable e) := _.
#[export] Instance entries_readable_dec es : Decision (entries_readable es) := _.

Lemma uint32_small n : n < 4294967296 → uint32 n = n.
Proof. apply N.mod_small. Qed.

Lemma codec_cmd_put (cmd rest : list byte) :
  (if 0 <? lenN cmd then ReadFull (lenN cmd) else mret []) (cmd ++ rest) = Ret (cmd, rest).
Proof.
  destruct cmd as [|b cmd]; [done|]. rewrite (proj2 (N.ltb_lt _ _)) by (cbn [length]; lia).
  by apply ReadFull_app.
Qed.

Lemma codec_cmd_inv n r (cmd rest : list byte) :
  (if 0 <? n then ReadFull n else mret []) r = Ret (cmd, rest) →
  r = cmd ++ rest ∧ lenN cmd = n.
Proof.
  destruct (N.ltb_spec 0 n) as [|Hn]; [apply ReadFull_inv|].
  intros [= <- <-]. split; [done|]. cbn. lia.
Qed.

Lemma ReadEntry_put e rest :
  entry_readable e → ReadEntry (entry_bytes e ++ rest) = Ret (e, rest).
Proof.
  intros (Ht & Hi & Hc). unfold ReadEntry, entry_bytes, readU64, readU32.
  rewrite uint32_small by lia. rewrite <- !app_assoc.
  rewrite bind_parser, get_be8_put by done. rewrite bind_parser, get_be8_put by done.
  rewrite bind_parser, get_be4_put by lia.
  rewrite (proj2 (N.ltb_ge _ _)) by lia. rewrite bind_parser, codec_cmd_put. by destruct e.
Qed.

Lemma ReadEntry_inv r e rest :
  ReadEntry r = Ret (e, rest) → r = entry_bytes e ++ rest ∧ entry_readable e.
Proof.
  intros H. unfold ReadEntry in H.
  apply bind_parser_Ret in H as (term & r1 & H1 & H).
  apply bind_parser_Ret in H as (idx & r2 & H2 & H).
  apply bind_parser_Ret in H as (n & r3 & H3 & H).
  apply get_be8_inv in H1 as [-> Ht], H2 as [-> Hi]. apply get_be4_inv in H3 as [-> Hn].
  destruct (N.ltb_spec 16777216 n) as [|Hle]; [done|].
  apply bind_parser_Ret in H as (cmd & r4 & H4 & H). injection H as <- <-.
  apply codec_cmd_inv in H4 as [-> <-]. unfold entry_bytes, entry_readable.
  cbn [Term Index Command].
  rewrite uint32_small by lia. split; [by rewrite <- !app_assoc|done].
Qed.

#[export] Program Instance entry_codec : Codec Entry := {|
  put := entry_bytes; get := ReadEntry; codec_ok := entry_readable
|}.
Next Obligation. apply ReadEntry_put. Qed.
Next Obligation. intros. by apply ReadEntry_inv. Qed.

#[export] Program Instance entries_codec : Codec (list Entry) := {|
  put := entries_bytes; get := ReadEntries; codec_ok := entries_readable
|}.
Next Obligation.
  intros es rest [Hn Hes]. unfold ReadEntries, entries_bytes, readU32.
  rewrite uint32_small by lia. rewrite <- app_assoc, bind_parser, get_be4_put by lia.
  rewrite (proj2 (N.ltb_ge _ _)) by lia. rewrite Nat2N.id. exact (get_list_put (A:=Entry) es rest Hes).
Qed.
Next Obligation.
  intros r es rest H. unfold ReadEntries in H.
  apply bind_parser_Ret in H as (n & r1 & H1 & H). apply get_be4_inv in H1 as [-> Hn].
  destruct (N.ltb_spec 1048576 n) as [|Hle]; [done|].
  destruct (@get_list_inv Entry entry_codec _ _ _ _ H) as (-> & Hlen & Hes). unfold entries_bytes, entries_readable.
  assert (lenN es = n) as -> by lia. rewrite uint32_small by lia.
  by rewrite <- app_assoc.
Qed.

(** ** What writing produces *)

Section written.
  Context {W : Type} `{LawfulWriter W}.

Lemma WriteEntry_writes e : writes (WriteEntry e) (entry_bytes e).
Proof.
  unfold WriteEntry, entry_bytes.
  apply writes_seq; [apply writes_Write|]. apply writes_seq; [apply writes_Write|].
  apply writes_seq; [apply writes_Write|].
  destruct (Command e) as [|b cmd]; [apply writes_nothing|apply writes_Write].
Qed.

Lemma WriteEntries_writes es : writes (WriteEntries es) (entries_bytes es).
Proof.
  apply writes_seq; [apply writes_Write|]. apply writes_list. intros e _.
  apply WriteEntry_writes.
Qed.

(** C34: codec_round_trip.  If [WriteEntries] to any writer reports success, then reading what
    was appended gives back the same entries and leaves what follows, provided the sizes
    are within the reader's limits (2^20 entries, 2^24 bytes per command). *)
Theorem codec_round_trip es w w' rest :
  entries_readable es → WriteEntries es w = (w', None) →
  ∃ bs, content w' = content w ++ bs ∧ ReadEntries (bs ++ rest) = Ret (es, rest).
Proof.
  intros Hok Hw. exists (entries_bytes es).
  split; [by apply WriteEntries_writes|exact (@get_put _ entries_codec es rest Hok)].
Qed.
End written.

(** codec_reads_only_encodings.  Conversely [ReadEntries] succeeds only on the encoding
    of readable entries; so the encoding is unambiguous. *)
Theorem codec_reads_only_encodings r es rest :
  ReadEntries r = Ret (es, rest) ↔ r = entries_bytes es ++ rest ∧ entries_readable es.
Proof.
  split; [exact (@get_inv _ entries_codec r es rest)|]. intros [-> Hok].
  exact (@get_put _ entries_codec es rest Hok).
Qed.

(** codec_oversized_command.  The writer has no size limit: a command above 2^24 bytes
    (below 2^32) is written without error and then refused by the reader. *)
Theorem codec_oversized_command e rest :
  is_u64 e.(Term) → is_u64 e.(Index) → 16777216 < lenN e.(Command) < 4294967296 →
  WriteEntry e [] = (entry_bytes e, None) ∧
  ReadEntry (entry_bytes e ++ rest) = Throw ErrFormat.
Proof.
  intros Ht Hi Hc. split.
  - unfold WriteEntry, and_then, writeU64, writeU32, Write, buffer_writer, entry_bytes.
    cbn [app]. rewrite <- !app_assoc. destruct (Command e); [cbn in Hc; lia|done].
  - unfold ReadEntry, entry_bytes, readU64, readU32.
    rewrite uint32_small by lia. rewrite <- !app_assoc.
    rewrite bind_parser, get_be8_put by done. rewrite bind_parser, get_be8_put by done.
    rewrite bind_parser, get_be4_put by lia. by rewrite (proj2 (N.ltb_lt _ _)) by lia.
Qed.

Definition ex_entries : list Entry := [MkEntry 1 1 [x61]; MkEntry 2 2 []].

Lemma codec_round_trip_witness :
  ∃ bs, content (entries_bytes ex_entries) = content [] ++ bs ∧
    ReadEntries (bs ++ [x00]) = Ret (ex_entries, [x00]).
Proof.
  apply (codec_round_trip (W:=list byte) ex_entries [] (entries_bytes ex_entries) [x00]).
  - by apply (bool_decide_unpack _).
  - by vm_compute.
Defined.

Definition big_entry : Entry := MkEntry 1 1 (replicate (N.to_nat 16777217) x00).

Lemma codec_oversized_command_witness :
  WriteEntry big_entry [] = (entry_bytes big_entry, None) ∧
  ReadEntry (entry_bytes big_entry ++ []) = Throw ErrFormat.
Proof.
  apply (codec_oversized_command big_entry []); [done|done|].
  unfold big_entry. cbn [Command]. rewrite length_replicate, N2Nat.id. done.
Defined.
