(* ===== verification/Disk.v ===== *)
(** * The file operations the program uses (packages os and path/filepath)

    A disk has the contents of its files, the paths that cannot be opened, the free space,
    and what the next [Sync] returns.  [os_Create] truncates an existing file, a [Write]
    past the free space writes what fits and fails, opening a missing file gives an error
    that [os_IsNotExist] recognises.  [file_writer] makes an open file an [io.Writer], and
    [file_lawful] is the promise its clients use; [streams] describes a writer that stops at
    the first failed [Write], and [create_write_full] what it leaves on a full disk.  [Join] is [filepath.Join] on Unix. *)
From S2P Require Import Prelude Bytes.
From Stdlib Require Import Strings.Byte.
Open Scope N_scope.

Record Disk := MkDisk {
  files : gmap string (list byte);
  denied : list string;
  free : N;
  sync_error : option error;
}.

#[export] Instance set_files : Setter files :=
  λ v d, MkDisk v (denied d) (free d) (sync_error d).
#[export] Instance set_sync_error : Setter sync_error :=
  λ v d, MkDisk (files d) (denied d) (free d) v.
#[export] Instance set_free : Setter free :=
  λ v d, MkDisk (files d) (denied d) v (sync_error d).

Definition ErrNotExist : error := NewError "file does not exist".
Definition ErrPermission : error := NewError "permission denied".
Definition ErrNoSpace : error := NewError "no space left on device".

Definition os_IsNotExist (e : error) : bool := bool_decide (e = ErrNotExist).

Definition file_at (d : Disk) (path : string) : list byte := default [] (d.(files) !! path).

Definition os_Create (path : string) (d : Disk) : Disk * option error :=
  if bool_decide (path ∈ d.(denied)) then (d, Some ErrPermission)
  else (d <| free := d.(free) + lenN (file_at d path) |>
          <| files := <[path := []]> d.(files) |>, None).

Definition os_Open (path : string) (d : Disk) : go (list byte) :=
  if bool_decide (path ∈ d.(denied)) then Throw ErrPermission
  else match d.(files) !! path with Some bs => Ret bs | None => Throw ErrNotExist end.

Definition os_Stat (path : string) (d : Disk) : option error :=
  match d.(files) !! path with Some _ => None | None => Some ErrNotExist end.

Definition file_Sync (d : Disk) : Disk * option error := (d, d.(sync_error)).

(** An open file: [Write] appends to it. *)
Definition file_Write (path : string) (d : Disk) (bs : list byte) : Disk * option error :=
  let n := N.min (lenN bs) d.(free) in
  let d' := d <| free := d.(free) - n |>
              <| files := <[path := file_at d path ++ take (N.to_nat n) bs]> d.(files) |> in
  (d', if lenN bs <=? d.(free) then None else Some ErrNoSpace).

(** os.WriteFile: create or truncate, write; no sync.  os.ReadFile is [os_Open]. *)
Definition os_WriteFile (path : string) (bs : list byte) (d : Disk) : Disk * option error :=
  (os_Create path >>> λ d, file_Write path d bs) d.

(** *** Paths *)

(** The text between slashes; [cur] is the current component, reversed. *)
Fixpoint components (cur : list byte) (bs : list byte) : list (list byte) :=
  match bs with
  | [] => [reverse cur]
  | b :: bs => if bool_decide (b = x2f) then reverse cur :: components [] bs
               else components (b :: cur) bs
  end.

(** One component of [filepath.Clean], on the stack of the components kept so far. *)
Definition clean_step (rooted : bool) (st : list (list byte)) (c : list byte) : list (list byte) :=
  if bool_decide (c = [] ∨ c = [x2e]) then st
  else if bool_decide (c = [x2e; x2e]) then
    match st with
    | [] => if rooted then [] else [c]
    | top :: rest => if bool_decide (top = [x2e; x2e]) then c :: st else rest
    end
  else c :: st.

Fixpoint slashes (cs : list (list byte)) : list byte :=
  match cs with
  | [] => []
  | [c] => c
  | c :: cs => c ++ x2f :: slashes cs
  end.

Definition Clean (path : list byte) : list byte :=
  let rooted := bool_decide (head path = Some x2f) in
  let body := slashes (reverse (foldl (clean_step rooted) [] (components [] path))) in
  if rooted then x2f :: body else match body with [] => [x2e] | _ => body end.

Definition Join (dir name : string) : string :=
  let (d, n) := (String.list_byte_of_string dir, String.list_byte_of_string name) in
  String.string_of_list_byte
    match d, n with
    | [], [] => []
    | [], _ => Clean n
    | _, _ => Clean (d ++ x2f :: n)
    end.

Example join_examples :
  map (λ d, Join d "c.json") ["/var//raft/"; "a/./b/../"; ""; "../x/.."; "/.."]%string =
    ["/var/raft/c.json"; "a/c.json"; "c.json"; "../c.json"; "/c.json"]%string.
Proof. by vm_compute. Qed.

Section file.
  Context (path : string).

Definition file_writer : Writer Disk := file_Write path.

#[local] Existing Instance file_writer.

#[export] Program Instance file_lawful : @LawfulWriter Disk file_writer := {|
  content := λ d, file_at d path
|}.
Next Obligation.
  intros d bs d' Hw. unfold Write, file_writer, file_Write in Hw.
  destruct (N.leb_spec (lenN bs) (free d)) as [Hle|]; [|done]. injection Hw as <-.
  unfold file_at. cbn. rewrite lookup_insert_eq, N.min_l, Nat2N.id, take_ge by lia. done.
Qed.

(** What operations on one open file cannot do: touch another file, change permissions, or
    remove the file. *)
Record file_op (m : Disk → Disk * option error) : Prop := {
  op_others : ∀ d p, p ≠ path → (m d).1.(files) !! p = d.(files) !! p;
  op_denied : ∀ d, (m d).1.(denied) = d.(denied);
  op_exists : ∀ d, is_Some (d.(files) !! path) → is_Some ((m d).1.(files) !! path);
}.

Lemma file_op_Write bs : file_op (λ d, Write d bs).
Proof.
  split; [|done|]; intros d; cbn.
  - intros p Hp. by rewrite lookup_insert_ne.
  - intros _. rewrite lookup_insert_eq. by eexists.
Qed.

Lemma file_op_nothing : file_op (λ d, (d, None)).
Proof. done. Qed.

Lemma file_op_Sync : file_op file_Sync.
Proof. done. Qed.

Lemma file_op_seq m k : file_op m → file_op k → file_op (m >>> k).
Proof.
  intros [H1 H2 H3] [K1 K2 K3]. split; intros d; unfold and_then.
  - intros p Hp. specialize (H1 d p Hp). destruct (m d) as [d1 [e|]]; [done|].
    rewrite K1 by done. done.
  - specialize (H2 d). destruct (m d) as [d1 [e|]]; [done|]. rewrite K2. done.
  - intros He. specialize (H3 d He). destruct (m d) as [d1 [e|]]; [done|]. by apply K3.
Qed.

Lemma file_op_list {A} (f : A → Disk → Disk * option error) xs :
  (∀ x, file_op (f x)) → file_op (write_all f xs).
Proof.
  intros Hf. induction xs as [|x xs IH]; [apply file_op_nothing|]. by apply file_op_seq.
Qed.

(** Creating a file, writing [bs] and syncing: if all of it succeeds, opening the file
    gives back exactly [bs]; whatever happens, no other file changes. *)
Lemma create_write_sync m bs d d' :
  file_op m → writes m bs → (os_Create path >>> m >>> file_Sync) d = (d', None) →
  os_Open path d' = Ret bs.
Proof.
  intros [_ Hden Hex] Hw Hr. unfold and_then in Hr.
  unfold os_Create in Hr. case_bool_decide as Hp; [done|].
  set (d1 := _ <| files := _ |>) in Hr.
  assert (is_Some (files d1 !! path)) as H1 by (cbn; rewrite lookup_insert_eq; by eexists).
  specialize (Hden d1). specialize (Hex d1 H1).
  destruct (m d1) as [d2 [e|]] eqn:E; [done|]. injection Hr as <- _. cbn in Hden, Hex.
  pose proof (Hw _ _ E) as Hc. cbn in Hc. unfold file_at in Hc. destruct Hex as [c Hex].
  unfold os_Open. rewrite Hden, bool_decide_eq_false_2, Hex by done. f_equal.
  rewrite Hex in Hc. cbn in Hc. by rewrite lookup_insert_eq in Hc.
Qed.

(** [os.WriteFile] followed by [os.ReadFile]. *)
Lemma WriteFile_opens bs d d' :
  os_WriteFile path bs d = (d', None) →
  os_Open path d' = Ret bs ∧ ∀ p, p ≠ path → d'.(files) !! p = d.(files) !! p.
Proof.
  unfold os_WriteFile, and_then, os_Create. case_bool_decide as Hp; [done|].
  unfold file_Write, file_at. cbn. rewrite !lookup_insert_eq, insert_insert_eq. cbn [default from_option id app].
  destruct (_ <=? _) eqn:Hle; [|done]. apply N.leb_le in Hle.
  rewrite N.min_l, Nat2N.id, take_ge by lia. intros [= <-]. split.
  - unfold os_Open. cbn. by rewrite bool_decide_eq_false_2, lookup_insert_eq.
  - intros p Hne. cbn. by rewrite lookup_insert_ne.
Qed.

Lemma create_op m d : file_op m →
  ∀ p, p ≠ path → ((os_Create path >>> m >>> file_Sync) d).1.(files) !! p = d.(files) !! p.
Proof.
  intros Hm p Hp. unfold and_then at 1, os_Create. case_bool_decide; [done|].
  rewrite (op_others _ (file_op_seq _ _ Hm file_op_Sync)) by done. cbn.
  by rewrite lookup_insert_ne.
Qed.

(** *** Writing past the end of the disk

    On an existing file, [m] is one [Write] of [bs], in as many calls as it likes: what does
    not fit is cut off and reported. *)
Definition streams (m : Disk → Disk * option error) (bs : list byte) : Prop :=
  ∀ d, is_Some (d.(files) !! path) → m d = file_Write path d bs.

Lemma file_Write_nothing d : is_Some (d.(files) !! path) → file_Write path d [] = (d, None).
Proof.
  intros [c Hc]. unfold file_Write, file_at. rewrite (N.min_l (lenN [])), (proj2 (N.leb_le _ _))
    by (cbn; lia). rewrite Hc, take_nil, app_nil_r.
  destruct d as [fs dn fr se]. cbn in *. by rewrite N.sub_0_r, insert_id.
Qed.

Lemma file_Write_app d bs1 bs2 :
  file_Write path d (bs1 ++ bs2) =
    ((λ d, file_Write path d bs1) >>> λ d, file_Write path d bs2) d.
Proof.
  unfold and_then. unfold file_Write at 1 2. rewrite length_app.
  destruct (N.leb_spec (lenN bs1) (free d)) as [H1|H1].
  - rewrite (N.min_l (lenN bs1)) by done. unfold file_Write, file_at. cbn.
    rewrite lookup_insert_eq, insert_insert_eq. cbn. rewrite Nat2N.id, (take_ge bs1) by lia.
    rewrite <- app_assoc. rewrite take_app, take_ge by lia. f_equal.
    + replace (N.to_nat (N.of_nat (length bs1 + length bs2) `min` free d) - length bs1)%nat
        with (N.to_nat (lenN bs2 `min` (free d - lenN bs1))) by lia.
      by replace (free d - N.of_nat (length bs1 + length bs2) `min` free d)
        with (free d - lenN bs1 - lenN bs2 `min` (free d - lenN bs1)) by lia.
    + destruct (N.leb_spec (N.of_nat (length bs1 + length bs2)) (free d)),
        (N.leb_spec (lenN bs2) (free d - lenN bs1)); lia || done.
  - rewrite (proj2 (N.leb_gt _ _)) by lia.
    rewrite !N.min_r by lia. by rewrite take_app_le by lia.
Qed.

Lemma streams_Write bs : streams (λ d, Write d bs) bs.
Proof. by intros d _. Qed.

Lemma streams_nothing : streams (λ d, (d, None)) [].
Proof. intros d Hd. by rewrite file_Write_nothing. Qed.

Lemma streams_seq m k bs1 bs2 : streams m bs1 → streams k bs2 → streams (m >>> k) (bs1 ++ bs2).
Proof.
  intros Hm Hk d Hd. rewrite file_Write_app. unfold and_then. rewrite (Hm d Hd).
  pose proof (op_exists _ (file_op_Write bs1) d Hd) as He. unfold Write, file_writer in He.
  destruct (file_Write path d bs1) as [d1 [e|]]; [done|]. by apply Hk.
Qed.

Lemma streams_list {A} (f : A → Disk → Disk * option error) (p : A → list byte) xs :
  (∀ x, streams (f x) (p x)) → streams (write_all f xs) (concat (map p xs)).
Proof.
  intros Hf. induction xs as [|x xs IH]; [apply streams_nothing|]. by apply streams_seq.
Qed.

(** Creating a file and streaming more than fits: the error, and the part that fits in
    place of whatever the file held. *)
Definition space_for (d : Disk) : N := d.(free) + lenN (file_at d path).

Lemma create_write_full m bs d :
  streams m bs → path ∉ d.(denied) → space_for d < lenN bs →
  ∃ d', (os_Create path >>> m >>> file_Sync) d = (d', Some ErrNoSpace) ∧
    d'.(files) = <[path := take (N.to_nat (space_for d)) bs]> d.(files) ∧
    d'.(denied) = d.(denied).
Proof.
  intros Hm Hp Hlt. unfold and_then, os_Create. rewrite bool_decide_eq_false_2 by done.
  rewrite Hm by (cbn; rewrite lookup_insert_eq; by eexists).
  unfold file_Write. cbn. fold (space_for d). rewrite (proj2 (N.leb_gt _ _)), N.min_r by lia.
  eexists. split; [done|]. split; [|done]. cbn. unfold file_at. cbn.
  by rewrite lookup_insert_eq, insert_insert_eq.
Qed.
End file.
