(* ===== verification/Persist.v ===== *)
(** * The durable state file (internal/persist/persist.go)

    [Save] and [Load] of [State] on the disk of [Disk].  The write functions work for any
    [io.Writer]; [Save] runs them on the created file.  [make([]log.Entry, count)] needs no
    bound beyond the one the code checks: [2^24] entries of 40 bytes fit.  [writeState]
    streams the encoding ([writeState_streams]), so a disk that fills up keeps a prefix of
    it, and the truncated parsers say what [Load] makes of one. *)
From S2P Require Import Prelude Bytes Log Disk.
From Stdlib Require Import Strings.Byte.
Open Scope N_scope.

Definition ErrCorrupt : error := NewError "persist: corrupt state file".
Definition magic : list byte := [x52; x46; x53; x31].   (* RFS1 *)

Record State := MkState { CurrentTerm : N; VotedFor : N; Entries : list Entry }.

#[export] Instance State_eq_dec : EqDecision State.
Proof. solve_decision. Defined.

(** ** Save *)

Section write.
  Context {W : Type} `{Writer W}.

Definition writeUint64 (v : N) (w : W) : W * option error := Write w (be_bytes 8 v).

Definition writeEntry (e : Entry) : W → W * option error :=
  writeUint64 e.(Term) >>>
  writeUint64 e.(Index) >>>
  writeUint64 (lenN e.(Command)) >>>
  (λ w, if (0 <? length e.(Command))%nat then Write w e.(Command) else (w, None)).

(** The writes of [Save], between creating the file and [Sync]. *)
Definition writeState (s : State) : W → W * option error :=
  (λ w, Write w magic) >>>
  writeUint64 s.(CurrentTerm) >>>
  writeUint64 s.(VotedFor) >>>
  writeUint64 (lenN s.(Entries)) >>>
  write_all writeEntry s.(Entries).
End write.

Definition Save (path : string) (s : State) : Disk → Disk * option error :=
  os_Create path >>> writeState (H:=file_writer path) s >>> file_Sync.

(** ** Load *)

Definition readUint64 : Parser N := get_be 8.

Definition errAbsurdLength : error := WrapError ErrCorrupt ": absurd command length".

Definition readEntry : Parser Entry :=
  term ← readUint64;
  idx ← readUint64;
  cmdLen ← readUint64;
  if 16777216 <? cmdLen then parse_throw errAbsurdLength
  else
    cmd ← (if 0 <? cmdLen then ReadFull cmdLen else mret []);
    mret (MkEntry term idx cmd).

Definition readMagic : Parser () := λ r,
  match ReadFull 4 r with
  | Ret (m, r') => if bool_decide (m = magic) then Ret (tt, r')
                   else Throw (WrapError ErrCorrupt ": bad magic")
  | Throw err => Throw (WrapError ErrCorrupt (": read magic: " +:+ error_text err))
  | Panic => Panic
  end.

Definition errAbsurdCount : error := WrapError ErrCorrupt ": absurd entry count".

Definition readState : Parser State :=
  _ ← readMagic;
  term ← readUint64;
  votedFor ← readUint64;
  count ← readUint64;
  if 16777216 <? count then parse_throw errAbsurdCount
  else
    es ← get_list readEntry (N.to_nat count);
    mret (MkState term votedFor es).

Definition Load (path : string) (d : Disk) : go State :=
  match os_Open path d with
  | Throw err => if os_IsNotExist err then Ret (MkState 0 0 []) else Throw err
  | Panic => Panic
  | Ret bs => '(s, _) ← readState bs; Ret s
  end.

Definition Exists (path : string) (d : Disk) : bool :=
  match os_Stat path d with None => true | Some _ => false end.

(** ** The format *)

Definition entry_bytes (e : Entry) : list byte :=
  be_bytes 8 e.(Term) ++ be_bytes 8 e.(Index) ++ be_bytes 8 (lenN e.(Command)) ++ e.(Command).

Definition state_bytes (s : State) : list byte :=
  magic ++ be_bytes 8 s.(CurrentTerm) ++ be_bytes 8 s.(VotedFor) ++
  be_bytes 8 (lenN s.(Entries)) ++ concat (map entry_bytes s.(Entries)).

Definition entry_savable (e : Entry) : Prop :=
  is_u64 e.(Term) ∧ is_u64 e.(Index) ∧ lenN e.(Command) ≤ 16777216.

Definition state_savable (s : State) : Prop :=
  is_u64 s.(CurrentTerm) ∧ is_u64 s.(VotedFor) ∧ lenN s.(Entries) ≤ 16777216 ∧
  Forall entry_savable s.(Entries).

#[export] Instance entry_savable_dec e : Decision (entry_savable e) := _.
#[export] Instance state_savable_dec s : Decision (state_savable s) := _.

Lemma small_u64 n : n ≤ 16777216 → is_u64 n.
Proof. unfold is_u64, u64_modulus. lia. Qed.

Lemma persist_cmd_put (cmd rest : list byte) :
  (if 0 <? lenN cmd then ReadFull (lenN cmd) else mret []) (cmd ++ rest) = Ret (cmd, rest).
Proof.
  destruct cmd as [|b cmd]; [done|]. rewrite (proj2 (N.ltb_lt _ _)) by (cbn [length]; lia).
  by apply ReadFull_app.
Qed.

Lemma persist_cmd_inv n r (cmd rest : list byte) :
  (if 0 <? n then ReadFull n else mret []) r = Ret (cmd, rest) →
  r = cmd ++ rest ∧ lenN cmd = n.
Proof.
  destruct (N.ltb_spec 0 n) as [|Hn]; [apply ReadFull_inv|].
  intros [= <- <-]. split; [done|]. cbn. lia.
Qed.

#[export] Program Instance persist_entry_codec : Codec Entry := {|
  put := entry_bytes; get := readEntry; codec_ok := entry_savable
|}.
Next Obligation.
  intros e rest (Ht & Hi & Hc). unfold readEntry, entry_bytes, readUint64.
  rewrite <- !app_assoc. rewrite bind_parser, get_be8_put by done.
  rewrite bind_parser, get_be8_put by done.
  rewrite bind_parser, get_be8_put by (by apply small_u64).
  rewrite (proj2 (N.ltb_ge _ _)) by lia. rewrite bind_parser, persist_cmd_put. by destruct e.
Qed.
Next Obligation.
  intros r e rest H. unfold readEntry in H.
  apply bind_parser_Ret in H as (term & r1 & H1 & H).
  apply bind_parser_Ret in H as (idx & r2 & H2 & H).
  apply bind_parser_Ret in H as (n & r3 & H3 & H).
  apply get_be8_inv in H1 as [-> Ht], H2 as [-> Hi], H3 as [-> Hn].
  destruct (N.ltb_spec 16777216 n) as [|Hle]; [done|].
  apply bind_parser_Ret in H as (cmd & r4 & H4 & H). injection H as <- <-.
  apply persist_cmd_inv in H4 as [-> <-]. unfold entry_bytes, entry_savable.
  cbn [Term Index Command]. by rewrite <- !app_assoc.
Qed.

Lemma persist_magic_put rest : readMagic (magic ++ rest) = Ret (tt, rest).
Proof. unfold readMagic. by rewrite (ReadFull_app 4 magic). Qed.

Lemma persist_magic_inv r u rest : readMagic r = Ret (u, rest) → r = magic ++ rest.
Proof.
  unfold readMagic. destruct (ReadFull 4 r) as [[m r']| |] eqn:E; [|done|done].
  case_bool_decide as Hm; [|done]. intros [= _ <-].
  apply ReadFull_inv in E as [-> _]. by rewrite Hm.
Qed.

#[export] Program Instance state_codec : Codec State := {|
  put := state_bytes; get := readState; codec_ok := state_savable
|}.
Next Obligation.
  intros s rest (Ht & Hv & Hn & Hes). unfold readState, state_bytes, readUint64.
  rewrite <- !app_assoc. rewrite bind_parser, persist_magic_put.
  rewrite bind_parser, get_be8_put by done. rewrite bind_parser, get_be8_put by done.
  rewrite bind_parser, get_be8_put by (by apply small_u64).
  rewrite (proj2 (N.ltb_ge _ _)) by lia. rewrite Nat2N.id, bind_parser.
  pose proof (@get_list_put Entry persist_entry_codec (Entries s) rest Hes) as Hg.
  unfold put_list in Hg. cbn [get put persist_entry_codec] in Hg. rewrite Hg. by destruct s.
Qed.
Next Obligation.
  intros r s rest H. unfold readState in H.
  apply bind_parser_Ret in H as (u & r1 & H1 & H). apply persist_magic_inv in H1 as ->.
  apply bind_parser_Ret in H as (term & r2 & H2 & H).
  apply bind_parser_Ret in H as (vote & r3 & H3 & H).
  apply bind_parser_Ret in H as (n & r4 & H4 & H).
  apply get_be8_inv in H2 as [-> Ht], H3 as [-> Hv], H4 as [-> Hn].
  destruct (N.ltb_spec 16777216 n) as [|Hle]; [done|].
  apply bind_parser_Ret in H as (es & r5 & H5 & H). injection H as <- <-.
  destruct (@get_list_inv Entry persist_entry_codec _ _ _ _ H5) as (-> & Hlen & Hes).
  unfold state_bytes, state_savable. cbn [CurrentTerm VotedFor Entries].
  assert (lenN es = n) as -> by lia. by rewrite <- !app_assoc.
Qed.

(** ** What is written *)

Section written.
  Context {W : Type} `{LawfulWriter W}.

Lemma writeEntry_writes e : writes (writeEntry e) (entry_bytes e).
Proof.
  unfold writeEntry, entry_bytes.
  apply writes_seq; [apply writes_Write|]. apply writes_seq; [apply writes_Write|].
  apply writes_seq; [apply writes_Write|].
  destruct (Command e) as [|b cmd]; [apply writes_nothing|apply writes_Write].
Qed.

Lemma writeState_writes s : writes (writeState s) (state_bytes s).
Proof.
  unfold writeState, state_bytes.
  repeat (apply writes_seq; [apply writes_Write|]). apply writes_list. intros e _.
  apply writeEntry_writes.
Qed.
End written.

Lemma writeState_op path s : file_op path (writeState (H:=file_writer path) s).
Proof.
  unfold writeState, writeUint64. repeat (apply file_op_seq; [apply file_op_Write|]).
  apply file_op_list. intros e. unfold writeEntry, writeUint64.
  repeat (apply file_op_seq; [apply file_op_Write|]).
  destruct (0 <? _)%nat; [apply file_op_Write|apply file_op_nothing].
Qed.

Lemma Save_opens path s d d' :
  Save path s d = (d', None) → os_Open path d' = Ret (state_bytes s).
Proof.
  apply create_write_sync; [apply writeState_op|]. apply writeState_writes.
Qed.

Lemma safe_readMagic : safe readMagic.
Proof.
  intros r. unfold readMagic. pose proof (ReadFull_no_panic 4 r).
  destruct (ReadFull 4 r) as [[m r1]| |]; [|done|done]. by case_bool_decide.
Qed.

Lemma safe_readState : safe readState.
Proof.
  pose proof safe_readMagic. unfold readState, readEntry, readUint64. safe_tac.
Qed.

(** ** What Save and Load guarantee *)

(** C30: persist_round_trip.  If [Save] reports success, [Load] of the same path gives back
    the state, and no other file changed, as long as the state is within the limits [Load]
    enforces (2^24 entries, 2^24 bytes per command). *)
Theorem persist_round_trip path s d d' :
  state_savable s → Save path s d = (d', None) →
  Load path d' = Ret s ∧ ∀ p, p ≠ path → d'.(files) !! p = d.(files) !! p.
Proof.
  intros Hs Hsave. split.
  - unfold Load. rewrite (Save_opens _ _ _ _ Hsave).
    pose proof (@get_put _ state_codec s [] Hs) as Hg.
    cbn [get put state_codec] in Hg. rewrite app_nil_r in Hg. by rewrite Hg.
  - intros p Hp. pose proof (create_op path _ d (writeState_op path s) p Hp) as Hc.
    unfold Save in Hsave. by rewrite Hsave in Hc.
Qed.

(** persist_Load_total.  [Load] never panics; without a file it gives the zero state; and
    from a file it returns a state exactly when the file starts with the encoding of one
    within the limits. *)
Theorem persist_Load_total path d s :
  Load path d ≠ Panic ∧
  (path ∉ d.(denied) →
   (d.(files) !! path = None → Load path d = Ret (MkState 0 0 [])) ∧
   ∀ bs, d.(files) !! path = Some bs →
     (Load path d = Ret s ↔ ∃ rest, bs = state_bytes s ++ rest ∧ state_savable s)).
Proof.
  unfold Load, os_Open. case_bool_decide as Hp; [split; [done|intros; done]|].
  destruct (files d !! path) as [bs|]; [|by split].
  split.
  - cbn. pose proof (safe_readState bs). by destruct (readState bs) as [[? ?]| |].
  - intros _. split; [done|]. intros bs' [= <-]. split.
    + intros Hr. go_inv Hr. destruct a as [s' rest]. injection Hr as ->.
      exists rest. exact (@get_inv _ state_codec bs s rest Hret).
    + intros (rest & -> & Hs). pose proof (@get_put _ state_codec s rest Hs) as Hg.
      cbn [get put state_codec] in Hg. by rewrite Hg.
Qed.

Lemma truncated_entry e : entry_savable e → truncated readEntry (entry_bytes e).
Proof.
  intros (Ht & Hi & Hc). unfold readEntry, entry_bytes, readUint64.
  apply (truncated_bind _ _ _ _ e.(Term));
    [apply truncated_get_be|intros; by apply get_be8_put|].
  apply (truncated_bind _ _ _ _ e.(Index));
    [apply truncated_get_be|intros; by apply get_be8_put|].
  apply (truncated_bind _ _ _ _ (lenN e.(Command)));
    [apply truncated_get_be|intros; by apply get_be8_put, small_u64|].
  rewrite (proj2 (N.ltb_ge _ _)) by lia. apply truncated_map.
  destruct e.(Command) as [|b cmd]; [apply truncated_nothing|].
  rewrite (proj2 (N.ltb_lt _ _)) by (cbn [length]; lia). by apply truncated_ReadFull.
Qed.

(** What follows the magic, cut off. *)
Lemma truncated_state s k :
  state_savable s → (4 ≤ k < length (state_bytes s))%nat →
  ∃ e, readState (take k (state_bytes s)) = Throw e ∧ eof e.
Proof.
  intros (Ht & Hv & Hn & Hes) Hk. unfold readState, state_bytes, readUint64 in *.
  rewrite take_app, take_ge by (cbn; lia). rewrite bind_parser, persist_magic_put.
  match goal with |- ∃ e, ?p (take ?j ?bs) = _ ∧ _ =>
    assert (truncated p bs) as Hp; [|apply Hp; rewrite length_app in Hk; cbn in Hk |- *; lia] end.
  apply (truncated_bind _ _ _ _ s.(CurrentTerm));
    [apply truncated_get_be|intros; by apply get_be8_put|].
  apply (truncated_bind _ _ _ _ s.(VotedFor));
    [apply truncated_get_be|intros; by apply get_be8_put|].
  apply (truncated_bind _ _ _ _ (lenN s.(Entries)));
    [apply truncated_get_be|intros; by apply get_be8_put, small_u64|].
  rewrite (proj2 (N.ltb_ge _ _)), Nat2N.id by lia. apply truncated_map.
  apply (@truncated_list Entry persist_entry_codec); [apply truncated_entry|done].
Qed.

(** The magic itself, cut off. *)
Lemma truncated_magic k bs :
  (k < 4)%nat → ∃ e, readState (take k (magic ++ bs)) = Throw e ∧ errors_Is e ErrCorrupt = true.
Proof.
  intros Hk. rewrite take_app_le by (cbn; lia). unfold readState. rewrite bind_parser.
  do 4 (destruct k as [|k]; [eexists; split; by vm_compute|]). lia.
Qed.

Lemma writeState_streams path s :
  streams path (writeState (H:=file_writer path) s) (state_bytes s).
Proof.
  unfold writeState, state_bytes, writeUint64.
  repeat (apply streams_seq; [apply streams_Write|]). apply streams_list. intros e.
  unfold writeEntry, entry_bytes, writeUint64.
  repeat (apply streams_seq; [apply streams_Write|]).
  destruct (Command e) as [|b cmd]; [apply streams_nothing|apply streams_Write].
Qed.

(** C31: persist_failed_save_destroys.  [Save] truncates the old file first.  Whenever the new
    state does not fit in the free space and the space of the old file, [Save] reports it and
    leaves the part that fits in place of the old state; no other file changes.  [Load]
    afterwards fails: it finds neither the old state, nor the new one, nor a missing file.
    Its error is [ErrCorrupt] only if not even the four bytes of the magic fit. *)
Theorem persist_failed_save_destroys path new d :
  path ∉ d.(denied) → state_savable new → space_for path d < lenN (state_bytes new) →
  ∃ d' err, Save path new d = (d', Some ErrNoSpace) ∧
    d'.(files) = <[path := take (N.to_nat (space_for path d)) (state_bytes new)]> d.(files) ∧
    Load path d' = Throw err ∧
    errors_Is err ErrCorrupt = bool_decide (space_for path d < 4).
Proof.
  intros Hp Hs Hlt.
  destruct (create_write_full path _ _ d (writeState_streams path new) Hp Hlt)
    as (d' & E & Hf & Hd).
  assert (∃ err, readState (take (N.to_nat (space_for path d)) (state_bytes new)) = Throw err ∧
    errors_Is err ErrCorrupt = bool_decide (space_for path d < 4)) as (err & Hr & Herr).
  { case_bool_decide as H4.
    - apply truncated_magic. lia.
    - destruct (truncated_state new (N.to_nat (space_for path d)) Hs) as (e & ? & He); [lia|].
      exists e. split; [done|]. by destruct He as [-> | ->]. }
  exists d', err. split; [done|]. split; [done|]. split; [|done].
  unfold Load, os_Open. rewrite Hd, bool_decide_eq_false_2 by done.
  rewrite Hf, lookup_insert_eq. cbv iota. by rewrite Hr.
Qed.

Definition ex_pstate : State := MkState 3 2 [MkEntry 1 1 [x61]; MkEntry 3 2 []].
Definition ex_disk : Disk := MkDisk ∅ [] 1000 None.

Lemma persist_round_trip_witness :
  Load "state" (Save "state" ex_pstate ex_disk).1 = Ret ex_pstate ∧
  ∀ p, p ≠ "state" → (Save "state" ex_pstate ex_disk).1.(files) !! p = ex_disk.(files) !! p.
Proof.
  apply (persist_round_trip "state" ex_pstate ex_disk).
  - by apply (bool_decide_unpack _).
  - by vm_compute.
Defined.

(** A disk with ten free bytes that holds an empty state of term 3. *)
Definition old_pstate : State := MkState 3 1 [].
Definition full_disk : Disk := MkDisk {["state" := state_bytes old_pstate]} [] 10 None.

Lemma persist_failed_save_destroys_witness :
  Load "state" full_disk = Ret old_pstate ∧
  ∃ d' err, Save "state" ex_pstate full_disk = (d', Some ErrNoSpace) ∧
    Load "state" d' = Throw err ∧ errors_Is err ErrCorrupt = false.
Proof.
  split; [by vm_compute|].
  destruct (persist_failed_save_destroys "state" ex_pstate full_disk)
    as (d' & err & Hs & _ & Hl & He).
  - by apply not_elem_of_nil.
  - by apply (bool_decide_unpack _).
  - by vm_compute.
  - exists d', err. split; [exact Hs|]. split; [exact Hl|exact He].
Defined.
