(* ===== verification/Snapshot.v ===== *)
(** * Snapshot files (internal/snapshot/snapshot.go)

    [Save] and [Load] of [Snapshot] on the disk of [Disk].  [Load] allocates the peer slice
    before it has read the peers and without a bound, so a corrupt count panics; the data
    length is bounded by [2^30]. *)
From S2P Require Import Prelude Bytes Log Disk.
From Stdlib Require Import Strings.Byte.
Open Scope N_scope.

Definition ErrCorrupt : error := NewError "snapshot: corrupt".
Definition magic : list byte := [x53; x4e; x41; x50].   (* SNAP *)

Record Metadata := MkMeta { LastIndex : N; LastTerm : N; Peers : list N }.
Record Snapshot := MkSnapshot { Meta : Metadata; Data : list byte }.

#[export] Instance Metadata_eq_dec : EqDecision Metadata.
Proof. solve_decision. Defined.
#[export] Instance Snapshot_eq_dec : EqDecision Snapshot.
Proof. solve_decision. Defined.

(** ** Save *)

Section write.
  Context {W : Type} `{Writer W}.

Definition writeU64 (v : N) (w : W) : W * option error := Write w (be_bytes 8 v).

Definition writeSnapshot (snap : Snapshot) : W → W * option error :=
  (λ w, Write w magic) >>>
  writeU64 snap.(Meta).(LastIndex) >>>
  writeU64 snap.(Meta).(LastTerm) >>>
  writeU64 (lenN snap.(Meta).(Peers)) >>>
  write_all writeU64 snap.(Meta).(Peers) >>>
  writeU64 (lenN snap.(Data)) >>>
  (λ w, Write w snap.(Data)).
End write.

Definition Save (path : string) (snap : Snapshot) : Disk → Disk * option error :=
  os_Create path >>> writeSnapshot (H:=file_writer path) snap >>> file_Sync.

(** ** Load *)

Definition readU64 : Parser N := get_be 8.

Definition readMagic : Parser () := λ r,
  match ReadFull 4 r with
  | Ret (m, r') => if bool_decide (m = magic) then Ret (tt, r')
                   else Throw (WrapError ErrCorrupt ": bad magic")
  | Throw err => Throw (WrapError ErrCorrupt (": magic: " +:+ error_text err))
  | Panic => Panic
  end.

Definition errAbsurdData : error := WrapError ErrCorrupt ": absurd data length".

Definition readSnapshot : Parser Snapshot :=
  _ ← readMagic;
  lastIndex ← readU64;
  lastTerm ← readU64;
  peerCount ← readU64;
  if negb (make_ok 8 peerCount) then parse_panic
  else
    peers ← get_list readU64 (N.to_nat peerCount);
    dataLen ← readU64;
    if 1073741824 <? dataLen then parse_throw errAbsurdData
    else
      data ← ReadFull dataLen;
      mret (MkSnapshot (MkMeta lastIndex lastTerm peers) data).

(** A missing file is [nil, nil]. *)
Definition Load (path : string) (d : Disk) : go (option Snapshot) :=
  match os_Open path d with
  | Throw err => if os_IsNotExist err then Ret None else Throw err
  | Panic => Panic
  | Ret bs => '(s, _) ← readSnapshot bs; Ret (Some s)
  end.

(** ** The format *)

Definition snapshot_bytes (s : Snapshot) : list byte :=
  magic ++ be_bytes 8 s.(Meta).(LastIndex) ++ be_bytes 8 s.(Meta).(LastTerm) ++
  be_bytes 8 (lenN s.(Meta).(Peers)) ++ concat (map (be_bytes 8) s.(Meta).(Peers)) ++
  be_bytes 8 (lenN s.(Data)) ++ s.(Data).

Definition snapshot_savable (s : Snapshot) : Prop :=
  is_u64 s.(Meta).(LastIndex) ∧ is_u64 s.(Meta).(LastTerm) ∧
  make_ok 8 (lenN s.(Meta).(Peers)) = true ∧ Forall is_u64 s.(Meta).(Peers) ∧
  lenN s.(Data) ≤ 1073741824.

#[export] Instance snapshot_savable_dec s : Decision (snapshot_savable s) := _.

Lemma snapshot_u64_put v rest : is_u64 v → readU64 (be_bytes 8 v ++ rest) = Ret (v, rest).
Proof. apply get_be8_put. Qed.

#[export] Program Instance u64_codec : Codec N := {|
  put := be_bytes 8; get := readU64; codec_ok := is_u64
|}.
Next Obligation. apply get_be8_put. Qed.
Next Obligation. intros. by apply get_be8_inv. Qed.

Lemma snapshot_magic_put rest : readMagic (magic ++ rest) = Ret (tt, rest).
Proof. unfold readMagic. by rewrite (ReadFull_app 4 magic). Qed.

Lemma snapshot_magic_inv r u rest : readMagic r = Ret (u, rest) → r = magic ++ rest.
Proof.
  unfold readMagic. destruct (ReadFull 4 r) as [[m r']| |] eqn:E; [|done|done].
  case_bool_decide as Hm; [|done]. intros [= _ <-].
  apply ReadFull_inv in E as [-> _]. by rewrite Hm.
Qed.

Lemma make_ok_u64 n : make_ok 8 n = true → is_u64 n.
Proof. unfold make_ok, max_alloc, is_u64, u64_modulus. rewrite N.leb_le. lia. Qed.

Lemma data_u64 n : n ≤ 1073741824 → is_u64 n.
Proof. unfold is_u64, u64_modulus. lia. Qed.

#[export] Program Instance snapshot_codec : Codec Snapshot := {|
  put := snapshot_bytes; get := readSnapshot; codec_ok := snapshot_savable
|}.
Next Obligation.
  intros s rest (Hi & Ht & Hm & Hps & Hd). unfold readSnapshot, snapshot_bytes.
  rewrite <- !app_assoc. rewrite bind_parser, snapshot_magic_put.
  rewrite bind_parser, snapshot_u64_put by done. rewrite bind_parser, snapshot_u64_put by done.
  rewrite bind_parser, snapshot_u64_put by (by apply make_ok_u64).
  rewrite Hm. cbn [negb]. rewrite Nat2N.id, bind_parser.
  pose proof (@get_list_put N u64_codec (Peers (Meta s))
    (be_bytes 8 (lenN (Data s)) ++ Data s ++ rest) Hps) as Hg.
  unfold put_list in Hg. cbn [get put u64_codec] in Hg. rewrite Hg.
  rewrite bind_parser, snapshot_u64_put by (by apply data_u64).
  rewrite (proj2 (N.ltb_ge _ _)) by lia. rewrite bind_parser, ReadFull_app by done.
  by destruct s as [[] ?].
Qed.
Next Obligation.
  intros r s rest H. unfold readSnapshot in H.
  apply bind_parser_Ret in H as (u & r1 & H1 & H). apply snapshot_magic_inv in H1 as ->.
  apply bind_parser_Ret in H as (li & r2 & H2 & H).
  apply bind_parser_Ret in H as (lt & r3 & H3 & H).
  apply bind_parser_Ret in H as (n & r4 & H4 & H).
  apply get_be8_inv in H2 as [-> Hi], H3 as [-> Ht], H4 as [-> Hn].
  destruct (make_ok 8 n) eqn:Hm; [|done]. cbn [negb] in H.
  apply bind_parser_Ret in H as (ps & r5 & H5 & H).
  destruct (@get_list_inv N u64_codec _ _ _ _ H5) as (-> & Hlen & Hps).
  apply bind_parser_Ret in H as (dl & r6 & H6 & H). apply get_be8_inv in H6 as [-> Hdl].
  destruct (N.ltb_spec 1073741824 dl) as [|Hle]; [done|].
  apply bind_parser_Ret in H as (data & r7 & H7 & H). injection H as <- <-.
  apply ReadFull_inv in H7 as [-> <-].
  unfold snapshot_bytes, snapshot_savable. cbn [Meta Data LastIndex LastTerm Peers].
  assert (lenN ps = n) as -> by lia. split; [by rewrite <- !app_assoc|done].
Qed.

(** ** What is written *)

Lemma writeSnapshot_writes {W} `{LawfulWriter W} s : writes (writeSnapshot s) (snapshot_bytes s).
Proof.
  unfold writeSnapshot, snapshot_bytes.
  repeat (apply writes_seq; [apply writes_Write|]).
  apply writes_seq; [|apply writes_seq; apply writes_Write].
  apply writes_list. intros p _. apply writes_Write.
Qed.

Lemma writeSnapshot_op path s : file_op path (writeSnapshot (H:=file_writer path) s).
Proof.
  unfold writeSnapshot, writeU64. repeat (apply file_op_seq; [apply file_op_Write|]).
  apply file_op_seq; [|apply file_op_seq; apply file_op_Write].
  apply file_op_list. intros p. apply file_op_Write.
Qed.

(** snapshot_round_trip.  If [Save] reports success, [Load] of the same path gives back
    the snapshot (metadata, peers and data) and no other file changed, as long as the data
    is at most 2^30 bytes. *)
Theorem snapshot_round_trip path s d d' :
  snapshot_savable s → Save path s d = (d', None) →
  Load path d' = Ret (Some s) ∧ ∀ p, p ≠ path → d'.(files) !! p = d.(files) !! p.
Proof.
  intros Hs Hsave. split.
  - unfold Load. rewrite (create_write_sync path _ (snapshot_bytes s) _ _
      (writeSnapshot_op path s) (writeSnapshot_writes s) Hsave).
    pose proof (@get_put _ snapshot_codec s [] Hs) as Hg.
    cbn [get put snapshot_codec] in Hg. rewrite app_nil_r in Hg. by rewrite Hg.
  - intros p Hp. pose proof (create_op path _ d (writeSnapshot_op path s) p Hp) as Hc.
    unfold Save in Hsave. by rewrite Hsave in Hc.
Qed.

(** C32: snapshot_Load_exact.  What [Load] returns from a file is the snapshot whose encoding
    the file starts with, and every such file loads. *)
Theorem snapshot_Load_exact path d bs s :
  path ∉ d.(denied) → d.(files) !! path = Some bs →
  (Load path d = Ret (Some s) ↔ ∃ rest, bs = snapshot_bytes s ++ rest ∧ snapshot_savable s).
Proof.
  intros Hp Hbs. unfold Load, os_Open. rewrite bool_decide_eq_false_2, Hbs by done. split.
  - intros Hr. go_inv Hr. destruct a as [s' rest]. injection Hr as ->.
    exists rest. exact (@get_inv _ snapshot_codec bs s rest Hret).
  - intros (rest & -> & Hs). pose proof (@get_put _ snapshot_codec s rest Hs) as Hg.
    cbn [get put snapshot_codec] in Hg. by rewrite Hg.
Qed.

(** C33: snapshot_corrupt_count_panics.  A 28-byte file with a huge peer count makes [Load]
    panic instead of reporting [ErrCorrupt]. *)
Theorem snapshot_corrupt_count_panics d path lastIndex lastTerm count :
  is_u64 lastIndex → is_u64 lastTerm → max_alloc / 8 < count → is_u64 count →
  path ∉ d.(denied) →
  d.(files) !! path =
    Some (magic ++ be_bytes 8 lastIndex ++ be_bytes 8 lastTerm ++ be_bytes 8 count ++ []) →
  Load path d = Panic.
Proof.
  intros Hi Ht Hc Hcu Hp Hf. unfold Load, os_Open. rewrite bool_decide_eq_false_2, Hf by done.
  assert (readSnapshot (magic ++ be_bytes 8 lastIndex ++ be_bytes 8 lastTerm ++
    be_bytes 8 count ++ []) = Panic) as ->; [|done].
  unfold readSnapshot. rewrite bind_parser, snapshot_magic_put.
  rewrite bind_parser, snapshot_u64_put by done. rewrite bind_parser, snapshot_u64_put by done.
  rewrite bind_parser, snapshot_u64_put by done.
  assert (make_ok 8 count = false) as ->; [|done].
  unfold make_ok, max_alloc in *. apply N.leb_gt.
  change (281474976710656 / 8) with 35184372088832 in Hc. lia.
Qed.

Definition ex_snapshot : Snapshot := MkSnapshot (MkMeta 7 2 [1; 2; 3]) [x61; x62].
Definition ex_snap_disk : Disk := MkDisk ∅ [] 1000 None.

Lemma snapshot_round_trip_witness :
  Load "snap" (Save "snap" ex_snapshot ex_snap_disk).1 = Ret (Some ex_snapshot) ∧
  ∀ p, p ≠ "snap" →
    (Save "snap" ex_snapshot ex_snap_disk).1.(files) !! p = ex_snap_disk.(files) !! p.
Proof.
  apply (snapshot_round_trip "snap" ex_snapshot ex_snap_disk).
  - by apply (bool_decide_unpack _).
  - by vm_compute.
Defined.

Definition ex_snap_file : Disk :=
  MkDisk {["snap" := snapshot_bytes ex_snapshot ++ [x00]]} [] 0 None.

Lemma snapshot_Load_exact_witness :
  Load "snap" ex_snap_file = Ret (Some ex_snapshot) ↔
  ∃ rest, snapshot_bytes ex_snapshot ++ [x00] = snapshot_bytes ex_snapshot ++ rest ∧
    snapshot_savable ex_snapshot.
Proof.
  apply (snapshot_Load_exact "snap" ex_snap_file); [by apply (bool_decide_unpack _)|done].
Defined.

Lemma snapshot_corrupt_count_panics_witness :
  Load "snap" (MkDisk {["snap" := magic ++ be_bytes 8 1 ++ be_bytes 8 1 ++
    be_bytes 8 18446744073709551615 ++ []]} [] 0 None) = Panic.
Proof.
  apply (snapshot_corrupt_count_panics _ "snap" 1 1 18446744073709551615); try done.
  by apply (bool_decide_unpack _).
Defined.
