(* ===== verification/Transport.v ===== *)
(** * The in-memory transport (internal/transport/transport.go)

    The interface [Transport] with its contract [LawfulTransport], and its implementation
    [InMemory].  Every method takes the mutex for its whole body, so a concurrent execution
    is a sequence of atomic calls: [run] executes such a sequence, whatever goroutines the
    calls came from.  Proved here, against the contract: delivery is FIFO and exactly once
    per mailbox, and [Close] is final; and of [InMemory]: that it meets the contract, what
    [Reset] and [Drop] do, and how the unknown-peer check can be switched off by reading
    from an unknown id. *)
From S2P Require Import Prelude Log Message.
Open Scope N_scope.

Definition ErrClosed : error := NewError "transport: closed".
Definition ErrUnknownPeer : error := NewError "transport: unknown peer".

Record InMemory := MkInMemory { mailbox : gmap N (list Message); closed : bool }.
#[export] Instance set_mailbox : Setter mailbox := λ v t, MkInMemory v (closed t).
#[export] Instance set_closed : Setter closed := λ v t, MkInMemory (mailbox t) v.

Definition NewInMemory (peers : list N) : InMemory :=
  MkInMemory (foldl (λ mb id, <[id := []]> mb) ∅ peers) false.

(** [t.mailbox[id]]: nil for a missing key. *)
Definition box (t : InMemory) (id : N) : list Message := default [] (t.(mailbox) !! id).

Definition Send (t : InMemory) (msg : Message) : InMemory * option error :=
  if t.(closed) then (t, Some ErrClosed)
  else match t.(mailbox) !! msg.(To) with
       | None => (t, Some ErrUnknownPeer)
       | Some msgs => (t <| mailbox := <[msg.(To) := msgs ++ [msg]]> t.(mailbox) |>, None)
       end.

Definition Receive (t : InMemory) (id : N) : InMemory * (list Message * option error) :=
  if t.(closed) then (t, ([], Some ErrClosed))
  else (t <| mailbox := <[id := []]> t.(mailbox) |>, (box t id, None)).

Definition Close (t : InMemory) : InMemory * option error := (t <| closed := true |>, None).

Definition PendingCount (t : InMemory) (id : N) : Z := Z.of_nat (length (box t id)).

Definition TotalPending (t : InMemory) : Z :=
  map_fold (λ _ msgs total, (total + Z.of_nat (length msgs))%Z) 0%Z t.(mailbox).

Definition Reset (t : InMemory) : InMemory :=
  t <| mailbox := (λ _, []) <$> t.(mailbox) |>.

Definition Drop (t : InMemory) (id : N) : InMemory :=
  t <| mailbox := <[id := []]> t.(mailbox) |>.

(** ** The interface

    A [Transport] is what a caller may use of an implementation.  The contract is stated
    with two observations: the messages [queued] for a peer, and whether it [is_closed]. *)

Class Transport (T : Type) := {
  transport_Send : T → Message → T * option error;
  transport_Receive : T → N → T * (list Message * option error);
  transport_Close : T → T * option error }.

Class LawfulTransport (T : Type) `{Transport T} := {
  queued : T → N → list Message;
  is_closed : T → bool;
  law_Send t m :
    match transport_Send t m with
    | (t', None) => is_closed t = false ∧ is_closed t' = false ∧
        ∀ id, queued t' id = queued t id ++ (if decide (m.(To) = id) then [m] else [])
    | (t', Some _) => t' = t
    end;
  law_Receive t id :
    match transport_Receive t id with
    | (t', (msgs, None)) => is_closed t = false ∧ is_closed t' = false ∧
        msgs = queued t id ∧
        ∀ id', queued t' id' = if decide (id = id') then [] else queued t id'
    | (t', (msgs, Some _)) => t' = t ∧ msgs = []
    end;
  law_Close t :
    is_closed (transport_Close t).1 = true ∧
    ∀ id, queued (transport_Close t).1 id = queued t id;
  law_closed t m id : is_closed t = true →
    transport_Send t m = (t, Some ErrClosed) ∧
    transport_Receive t id = (t, ([], Some ErrClosed)) }.

#[export] Instance InMemory_Transport : Transport InMemory :=
  {| transport_Send := Send; transport_Receive := Receive; transport_Close := Close |}.

#[export, refine] Instance InMemory_Lawful : LawfulTransport InMemory :=
  {| queued := box; is_closed := closed |}.
Proof.
  - intros t m. cbn. unfold Send. destruct (closed t) eqn:Hc; [done|].
    destruct (mailbox t !! To m) as [msgs|] eqn:E; [|done].
    split_and!; [done | done |]. intros id. unfold box. cbn. rewrite lookup_insert.
    destruct (decide (To m = id)) as [<-|Hne]; [by rewrite E | by rewrite app_nil_r].
  - intros t id. cbn. unfold Receive. destruct (closed t) eqn:Hc; [done|].
    split_and!; [done | done | done |]. intros id'. unfold box. cbn. rewrite lookup_insert.
    by case_decide.
  - done.
  - intros t m id Hc. cbn. unfold Send, Receive. by rewrite Hc.
Defined.

(** ** Sequences of atomic calls *)

Inductive Call :=
  | CSend (msg : Message)
  | CReceive (id : N)
  | CClose.

(** The calls' effects: accepted messages (successful sends, in order) and, per receive,
    the id and what it returned. *)
Record Trace := MkTrace { accepted : list Message; received : list (N * list Message) }.

Definition sent_to (id : N) (tr : Trace) : list Message :=
  filter (λ m, m.(To) = id) tr.(accepted).
Definition got (id : N) (tr : Trace) : list Message :=
  concat (map snd (filter (λ r, r.1 = id) tr.(received))).

Lemma got_snoc id ms r i msgs :
  got id (MkTrace ms (r ++ [(i, msgs)])) =
  got id (MkTrace ms r) ++ (if decide (i = id) then msgs else []).
Proof.
  unfold got. cbn. rewrite filter_app, filter_cons, filter_nil. cbn.
  case_decide; rewrite map_app, concat_app; cbn; by rewrite ?app_nil_r.
Qed.

Section Client.
Context {T : Type} `{LawfulTransport T}.

Definition call (t : T) (tr : Trace) (c : Call) : T * Trace :=
  match c with
  | CSend m =>
    match transport_Send t m with
    | (t, None) => (t, MkTrace (tr.(accepted) ++ [m]) tr.(received))
    | (t, Some _) => (t, tr)
    end
  | CReceive id =>
    match transport_Receive t id with
    | (t, (msgs, None)) => (t, MkTrace tr.(accepted) (tr.(received) ++ [(id, msgs)]))
    | (t, (_, Some _)) => (t, tr)
    end
  | CClose => ((transport_Close t).1, tr)
  end.

Fixpoint run (t : T) (tr : Trace) (cs : list Call) : T * Trace :=
  match cs with
  | [] => (t, tr)
  | c :: cs => let '(t, tr) := call t tr c in run t tr cs
  end.

Lemma call_fifo t tr c id :
  sent_to id tr = got id tr ++ queued t id →
  let '(t', tr') := call t tr c in sent_to id tr' = got id tr' ++ queued t' id.
Proof.
  intros Hinv. destruct c as [m|i|]; cbn [call].
  - pose proof (law_Send t m) as Hl.
    destruct (transport_Send t m) as [t' [e|]]; [by subst|]. destruct Hl as (_ & _ & ->).
    unfold sent_to in *. cbn. rewrite filter_app, filter_cons, filter_nil, Hinv.
    by case_decide; rewrite ?app_assoc.
  - pose proof (law_Receive t i) as Hl.
    destruct (transport_Receive t i) as [t' [msgs [e|]]]; [by destruct Hl; subst|].
    destruct Hl as (_ & _ & -> & ->). destruct tr as [acc rcv]. cbn [accepted received].
    rewrite got_snoc. destruct (decide (i = id)) as [->|]; [by rewrite app_nil_r|].
    by rewrite app_nil_r.
  - destruct (law_Close t) as [_ Hq]. by rewrite Hq.
Qed.

Lemma run_fifo t tr cs id :
  sent_to id tr = got id tr ++ queued t id →
  let '(t', tr') := run t tr cs in sent_to id tr' = got id tr' ++ queued t' id.
Proof.
  revert t tr. induction cs as [|c cs IH]; intros t tr Hinv; [done|]. cbn [run].
  pose proof (call_fifo t tr c id Hinv) as Hstep. destruct (call t tr c) as [t' tr'].
  by apply IH.
Qed.

Lemma run_closed t tr cs :
  is_closed t = true → let '(t', tr') := run t tr cs in tr' = tr ∧ is_closed t' = true.
Proof.
  revert t. induction cs as [|c cs IH]; intros t Hc; cbn [run]; [done|].
  assert (∃ t2, call t tr c = (t2, tr) ∧ is_closed t2 = true) as (t2 & -> & Hc2);
    [|by apply IH].
  destruct c as [m|i|]; cbn [call].
  - destruct (law_closed t m 0 Hc) as [-> _]. by exists t.
  - destruct (law_closed t (NewRequestVote 0 0 0 0 0) i Hc) as [_ ->]. by exists t.
  - eexists. split; [done|]. apply law_Close.
Qed.

End Client.

(** C35: transport_fifo.  For every interleaving of sends, receives and closes, what the
    receives of a peer have returned so far, followed by what is still in its mailbox, is
    exactly the sequence of messages accepted for that peer: nothing is lost, duplicated or
    reordered. *)
Theorem transport_fifo peers cs id :
  let '(t, tr) := run (NewInMemory peers) (MkTrace [] []) cs in
  sent_to id tr = got id tr ++ box t id.
Proof.
  refine (run_fifo (NewInMemory peers) (MkTrace [] []) cs id _).
  cbn. unfold box, NewInMemory. cbn. assert (∀ mb : gmap N (list Message), default [] (mb !! id) = [] →
    default [] (foldl (λ mb i, <[i := []]> mb) mb peers !! id) = []) as Hall; [|by rewrite Hall].
  induction peers as [|p ps IH]; intros mb Hmb; [done|]. cbn [foldl]. apply IH.
  rewrite lookup_insert. by case_decide.
Qed.

(** transport_closed.  After [Close], whatever else is called, every send and receive
    fails with [ErrClosed] and delivers nothing. *)
Theorem transport_closed (t : InMemory) tr cs m id :
  let '(t', tr') := run (Close t).1 tr cs in
  tr' = tr ∧ Send t' m = (t', Some ErrClosed) ∧ Receive t' id = (t', ([], Some ErrClosed)).
Proof.
  pose proof (run_closed (Close t).1 tr cs eq_refl) as Hrun.
  destruct (run (Close t).1 tr cs) as [t' tr']. destruct Hrun as [-> Hc].
  split; [done|]. exact (law_closed t' m id Hc).
Qed.

(** transport_discards.  [Drop] and [Reset] empty one mailbox, or all of them, and leave
    the transport open or closed as it was. *)
Theorem transport_discards t id id' :
  box (Drop t id) id' = (if decide (id = id') then [] else box t id') ∧
  box (Reset t) id' = [] ∧ (Drop t id).(closed) = t.(closed) ∧ (Reset t).(closed) = t.(closed).
Proof.
  unfold Drop, Reset, box. cbn. rewrite lookup_insert, lookup_fmap.
  split_and!; [by case_decide | by destruct (mailbox t !! id') | done | done].
Qed.

(** transport_unknown_peer.  A message for an id without a mailbox is refused and changes
    nothing; but a single [Receive] (or [Drop]) for that id creates the mailbox, after
    which messages for the unknown peer are accepted. *)
Theorem transport_unknown_peer t m :
  t.(closed) = false → t.(mailbox) !! m.(To) = None →
  Send t m = (t, Some ErrUnknownPeer) ∧
  (Send (Receive t m.(To)).1 m).2 = None ∧ (Send (Drop t m.(To)) m).2 = None.
Proof.
  intros Hc Hm. unfold Send, Receive, Drop. rewrite Hc, Hm. cbn. rewrite Hc.
  by rewrite !lookup_insert_eq.
Qed.

Lemma transport_unknown_peer_witness :
  let t := NewInMemory [1; 2] in
  let m := NewRequestVote 1 9 1 0 0 in
  Send t m = (t, Some ErrUnknownPeer) ∧
  (Send (Receive t 9).1 m).2 = None ∧ (Send (Drop t 9) m).2 = None.
Proof. by apply (transport_unknown_peer (NewInMemory [1; 2]) (NewRequestVote 1 9 1 0 0)). Defined.
