(* ===== verification/Strconv.v ===== *)
(** * Numbers and text (package strconv)

    [strconv.ParseInt(_, 10, 64)] with its overflow checks in the order of the standard
    library, and the decimal formatting [encoding/json] uses for integers.  [Decimal] is the
    specification: which byte strings are numbers, and which number they are. *)
From S2P Require Import Prelude.
From Stdlib Require Import Strings.Byte.
Open Scope Z_scope.

Definition text (s : string) : list byte := String.list_byte_of_string s.

(** ** strconv.ParseInt(s, 10, 64) *)

Definition ErrSyntax : error := NewError "invalid syntax".
Definition ErrRange : error := NewError "value out of range".

(** The digit loop of [ParseUint], with its overflow checks in the same order. *)
Fixpoint parse_digits (n : N) (bs : list byte) : go N :=
  match bs with
  | [] => Ret n
  | b :: bs =>
    let c := Byte.to_N b in
    if negb ((48 <=? c) && (c <=? 57))%N then Throw ErrSyntax
    else if (1844674407370955162 <=? n)%N then Throw ErrRange    (* n * 10 overflows *)
    else
      let n1 := (n * 10 + (c - 48))%N in
      if (u64_modulus <=? n1)%N then Throw ErrRange
      else parse_digits n1 bs
  end.

Definition ParseUint (bs : list byte) : go N :=
  match bs with [] => Throw ErrSyntax | _ => parse_digits 0 bs end.

Definition ParseInt (bs : list byte) : go Z :=
  match bs with
  | [] => Throw ErrSyntax
  | b :: tl =>
    let '(neg, ds) := if bool_decide (b = x2b) then (false, tl)
                      else if bool_decide (b = x2d) then (true, tl) else (false, bs) in
    match ParseUint ds with
    | Ret un =>
      if negb neg && (9223372036854775808 <=? un)%N then Throw ErrRange
      else if neg && (9223372036854775808 <? un)%N then Throw ErrRange
      else Ret (if neg then - Z.of_N un else Z.of_N un)
    | Throw e => Throw e
    | Panic => Panic
    end
  end.

(** The digits of [n]; 20 of them are enough for 64 bits. *)
Definition digit (n : N) : byte := default x00 (Byte.of_N (48 + n)).
Fixpoint fmt_digits (fuel : nat) (n : N) : list byte :=
  match fuel with
  | O => []
  | S fuel => if (n <? 10)%N then [digit n]
              else fmt_digits fuel (n / 10) ++ [digit (n mod 10)]
  end.
Definition FormatInt (z : Z) : list byte :=
  if z <? 0 then x2d :: fmt_digits 20 (Z.to_N (- z)) else fmt_digits 20 (Z.to_N z).

(** ** Decimal numbers *)

Definition is_digit (b : byte) : Prop := (48 ≤ Byte.to_N b ≤ 57)%N.
#[export] Instance is_digit_dec b : Decision (is_digit b) := _.

(** The value of a digit string read from the left, starting from [n]. *)
Definition horner (n : N) (ds : list byte) : N :=
  foldl (λ n b, (n * 10 + (Byte.to_N b - 48))%N) n ds.

Lemma horner_ge n ds : (n ≤ horner n ds)%N.
Proof.
  revert n. induction ds as [|b ds IH]; intros n; cbn; [lia|].
  etrans; [|apply IH]. lia.
Qed.

Lemma parse_digits_ok n ds :
  Forall is_digit ds → (horner n ds < u64_modulus)%N → parse_digits n ds = Ret (horner n ds).
Proof.
  intros Hds. revert n. induction Hds as [|b ds Hb _ IH]; intros n Hn; [done|].
  change (horner n (b :: ds)) with (horner (n * 10 + (Byte.to_N b - 48)) ds) in *.
  cbn [parse_digits]. unfold is_digit in Hb.
  rewrite (proj2 (N.leb_le 48 _)), (proj2 (N.leb_le _ 57)) by lia. cbn [andb negb].
  pose proof (horner_ge (n * 10 + (Byte.to_N b - 48)) ds) as Hge. unfold u64_modulus in *.
  rewrite (proj2 (N.leb_gt _ n)) by lia. rewrite (proj2 (N.leb_gt _ _)) by lia.
  by apply IH.
Qed.

Lemma parse_digits_inv n ds v :
  parse_digits n ds = Ret v → Forall is_digit ds ∧ v = horner n ds.
Proof.
  revert n. induction ds as [|b ds IH]; intros n Hr; cbn [parse_digits] in Hr.
  { by injection Hr as <-. }
  destruct (N.leb_spec 48 (Byte.to_N b)), (N.leb_spec (Byte.to_N b) 57); cbn [andb negb] in Hr;
    try done.
  destruct (_ <=? n)%N; [done|]. destruct (_ <=? _)%N; [done|].
  destruct (IH _ Hr) as [? ->]. split; [by constructor|done].
Qed.

(** A number in the accepted syntax: optional sign, at least one digit. *)
Inductive Decimal : list byte → Z → Prop :=
  | Dec_plain ds : ds ≠ [] → Forall is_digit ds → Decimal ds (Z.of_N (horner 0 ds))
  | Dec_plus ds : ds ≠ [] → Forall is_digit ds → Decimal (x2b :: ds) (Z.of_N (horner 0 ds))
  | Dec_minus ds : ds ≠ [] → Forall is_digit ds → Decimal (x2d :: ds) (- Z.of_N (horner 0 ds)).

Lemma ParseUint_ok ds :
  ds ≠ [] → Forall is_digit ds → (horner 0 ds < u64_modulus)%N →
  ParseUint ds = Ret (horner 0 ds).
Proof. intros Hne Hds Hn. destruct ds; [done|]. by apply parse_digits_ok. Qed.

Lemma ParseUint_inv ds v :
  ParseUint ds = Ret v → ds ≠ [] ∧ Forall is_digit ds ∧ v = horner 0 ds.
Proof. destruct ds as [|b ds]; [done|]. intros Hr%parse_digits_inv. done. Qed.

Lemma digit_not_sign b : is_digit b → b ≠ x2b ∧ b ≠ x2d.
Proof. intros Hb. split; intros ->; unfold is_digit in Hb; vm_compute in Hb; naive_solver. Qed.

Lemma ParseInt_inv bs z : ParseInt bs = Ret z → Decimal bs z ∧ is_i64 z.
Proof.
  unfold is_i64, i64_min, i64_max.
  intros Hr. destruct bs as [|b tl]; [done|]. unfold ParseInt in Hr.
  case_bool_decide as Hp; [subst b|case_bool_decide as Hm; [subst b|]];
    destruct (ParseUint _) as [un| |] eqn:E in Hr; try done;
    apply ParseUint_inv in E as (Hne & Hds & ->);
    cbn [negb andb] in Hr;
    [destruct (N.leb_spec 9223372036854775808 (horner 0 tl)); [done|]
    |destruct (N.ltb_spec 9223372036854775808 (horner 0 tl)); [done|]
    |destruct (N.leb_spec 9223372036854775808 (horner 0 (b :: tl))); [done|]];
    injection Hr as <-;
    try change (horner (0 * 10 + (Byte.to_N b - 48))%N tl) with (horner 0 (b :: tl));
    (split; [first [by apply Dec_minus|by apply Dec_plus|by apply Dec_plain]|lia]).
Qed.

Lemma ParseInt_ok bs z : Decimal bs z → is_i64 z → ParseInt bs = Ret z.
Proof.
  unfold is_i64, i64_min, i64_max.
  intros Hd Hz. destruct Hd as [ds Hne Hds|ds Hne Hds|ds Hne Hds]; unfold ParseInt.
  + destruct ds as [|b ds]; [done|].
    destruct (digit_not_sign b) as [? ?]; [by inversion Hds|].
    rewrite !bool_decide_eq_false_2 by done.
    rewrite ParseUint_ok by (done || (unfold u64_modulus; lia)). cbn [negb andb].
    by rewrite (proj2 (N.leb_gt _ _)) by lia.
  + rewrite bool_decide_eq_true_2 by done.
    rewrite ParseUint_ok by (done || (unfold u64_modulus; lia)). cbn [negb andb].
    by rewrite (proj2 (N.leb_gt _ _)) by lia.
  + rewrite bool_decide_eq_false_2, bool_decide_eq_true_2 by done.
    rewrite ParseUint_ok by (done || (unfold u64_modulus; lia)). cbn [negb andb].
    by rewrite (proj2 (N.ltb_ge _ _)) by lia.
Qed.

(** ParseInt_exact.  [ParseInt] accepts exactly the decimal numbers (optional sign, one
    or more digits) whose value fits in 64 signed bits, and returns that value. *)
Theorem ParseInt_exact bs z :
  ParseInt bs = Ret z ↔ Decimal bs z ∧ is_i64 z.
Proof.
  split.
  - apply ParseInt_inv.
  - intros [? ?]. by apply ParseInt_ok.
Qed.

(** ** Formatting *)

Lemma digit_spec n : (n < 10)%N → is_digit (digit n) ∧ Byte.to_N (digit n) = (48 + n)%N.
Proof.
  intros Hn. unfold digit, is_digit. destruct (Byte.of_N (48 + n)) as [b|] eqn:E; cbn.
  - apply Byte.to_of_N in E. lia.
  - apply Byte.of_N_None_iff in E. lia.
Qed.

Lemma horner_snoc n ds b : horner n (ds ++ [b]) = (horner n ds * 10 + (Byte.to_N b - 48))%N.
Proof. unfold horner. by rewrite foldl_app. Qed.

Lemma fmt_digits_spec fuel n :
  (n < 10 ^ N.of_nat fuel)%N → (0 < fuel)%nat →
  fmt_digits fuel n ≠ [] ∧ Forall is_digit (fmt_digits fuel n) ∧ horner 0 (fmt_digits fuel n) = n.
Proof.
  revert n. induction fuel as [|fuel IH]; intros n Hn Hf; [lia|]. cbn [fmt_digits].
  destruct (N.ltb_spec n 10) as [Hlt|Hge].
  - destruct (digit_spec n Hlt) as [Hd Hv]. split; [done|]. split; [by constructor|].
    cbn. rewrite Hv. lia.
  - rewrite Nat2N.inj_succ, N.pow_succ_r' in Hn.
    assert (n / 10 < 10 ^ N.of_nat fuel)%N by (apply N.Div0.div_lt_upper_bound; lia).
    destruct fuel as [|fuel]; [change (10 ^ N.of_nat 0)%N with 1%N in Hn; lia|].
    destruct (IH (n / 10)%N) as (Hne & Hds & Hv); [done|lia|].
    destruct (digit_spec (n mod 10)) as [Hd Hvd]; [by apply N.mod_lt|].
    split; [by destruct (fmt_digits _ _)|]. split; [apply Forall_app; split; [done|by constructor]|].
    rewrite horner_snoc, Hv, Hvd. clear -Hge. pose proof (N.div_mod n 10 ltac:(done)). revert H. generalize (n / 10)%N (n mod 10)%N. lia.
Qed.

Lemma FormatInt_Decimal z : is_i64 z → Decimal (FormatInt z) z.
Proof.
  unfold is_i64, i64_min, i64_max. intros Hz. unfold FormatInt.
  destruct (Z.ltb_spec z 0).
  - destruct (fmt_digits_spec 20 (Z.to_N (- z))) as (? & ? & Hv); [cbn; lia|lia|].
    replace z with (- Z.of_N (horner 0 (fmt_digits 20 (Z.to_N (- z))))) at 2 by (rewrite Hv; lia).
    by apply Dec_minus.
  - destruct (fmt_digits_spec 20 (Z.to_N z)) as (? & ? & Hv); [cbn; lia|lia|].
    replace z with (Z.of_N (horner 0 (fmt_digits 20 (Z.to_N z)))) at 2 by (rewrite Hv; lia).
    by apply Dec_plain.
Qed.

Lemma ParseInt_FormatInt z : is_i64 z → ParseInt (FormatInt z) = Ret z.
Proof. intros Hz. apply ParseInt_ok; [by apply FormatInt_Decimal|done]. Qed.

Lemma ParseInt_exact_witness : ParseInt (text "-42") = Ret (-42).
Proof.
  apply ParseInt_exact. split; [|done]. apply (Dec_minus (text "42")); [done|].
  by apply (bool_decide_unpack _).
Defined.

