(* ===== verification/Utf8.v ===== *)
(** * Runes (package unicode/utf8)

    [DecodeRune] and [EncodeRune] on bytes, as encoding/json uses them: an invalid sequence
    decodes to U+FFFD and consumes one byte.  [loop] is the shape of the loops that walk
    over a text a rune (or an escape) at a time.  [sanitize] replaces every invalid byte by
    U+FFFD; it changes nothing exactly on valid UTF-8. *)
From S2P Require Import Prelude Bytes.
From Stdlib Require Import Strings.Byte.
Open Scope N_scope.

Definition RuneError : N := 65533.

(** A Unicode scalar value: a code point that is not a surrogate. *)
Definition scalar (r : N) : Prop := r < 55296 ∨ 57344 ≤ r < 1114112.
#[export] Instance scalar_dec r : Decision (scalar r) := _.

Definition surrogate (r : N) : bool := (55296 <=? r) && (r <? 57344).

Definition EncodeRune (r : N) : list byte :=
  let r := if decide (scalar r) then r else RuneError in
  if r <? 128 then [byte_of_N r]
  else if r <? 2048 then [byte_of_N (192 + r / 64); byte_of_N (128 + r mod 64)]
  else if r <? 65536 then
    [byte_of_N (224 + r / 4096); byte_of_N (128 + r / 64 mod 64); byte_of_N (128 + r mod 64)]
  else
    [byte_of_N (240 + r / 262144); byte_of_N (128 + r / 4096 mod 64);
     byte_of_N (128 + r / 64 mod 64); byte_of_N (128 + r mod 64)].

(** The length announced by a leading byte above 127, and the range of the second byte. *)
Definition lead (b : N) : option (nat * N * N) :=
  if (194 <=? b) && (b <=? 223) then Some (2%nat, 128, 191)
  else if b =? 224 then Some (3%nat, 160, 191)
  else if b =? 237 then Some (3%nat, 128, 159)
  else if (225 <=? b) && (b <=? 239) then Some (3%nat, 128, 191)
  else if b =? 240 then Some (4%nat, 144, 191)
  else if b =? 244 then Some (4%nat, 128, 143)
  else if (241 <=? b) && (b <=? 243) then Some (4%nat, 128, 191)
  else None.

Definition within (lo hi b : N) : bool := (lo <=? b) && (b <=? hi).

(** The rune at the front and the number of bytes it takes. *)
Definition DecodeRune (bs : list byte) : N * nat :=
  match map Byte.to_N bs with
  | [] => (RuneError, 0%nat)
  | b0 :: t =>
    if b0 <? 128 then (b0, 1%nat)
    else
      match lead b0, t with
      | Some (2%nat, lo, hi), b1 :: _ =>
        if within lo hi b1 then ((b0 - 192) * 64 + (b1 - 128), 2%nat) else (RuneError, 1%nat)
      | Some (3%nat, lo, hi), b1 :: b2 :: _ =>
        if within lo hi b1 && within 128 191 b2
        then ((b0 - 224) * 4096 + (b1 - 128) * 64 + (b2 - 128), 3%nat)
        else (RuneError, 1%nat)
      | Some (4%nat, lo, hi), b1 :: b2 :: b3 :: _ =>
        if within lo hi b1 && within 128 191 b2 && within 128 191 b3
        then ((b0 - 240) * 262144 + (b1 - 128) * 4096 + (b2 - 128) * 64 + (b3 - 128), 4%nat)
        else (RuneError, 1%nat)
      | _, _ => (RuneError, 1%nat)
      end
  end.

(** A loop that consumes [bs]: [f] gives the output of one iteration and the number of
    bytes it consumed.  One iteration per byte is enough ([loop_step]). *)
Fixpoint loop_fuel {A} (f : list byte → list A * nat) (fuel : nat) (bs : list byte) : list A :=
  match fuel, bs with
  | O, _ | _, [] => []
  | S fuel, _ => let '(out, k) := f bs in out ++ loop_fuel f fuel (drop k bs)
  end.
Definition loop {A} (f : list byte → list A * nat) (bs : list byte) : list A :=
  loop_fuel f (length bs) bs.

Definition sanitize (bs : list byte) : list byte :=
  loop (λ bs, let '(r, k) := DecodeRune bs in (EncodeRune r, k)) bs.

(** Valid UTF-8 is a sequence of encoded scalar values. *)
Definition utf8 (bs : list byte) : Prop :=
  ∃ rs, Forall scalar rs ∧ bs = concat (map EncodeRune rs).

(** ** Loops *)

Lemma loop_fuel_enough {A} (f : list byte → list A * nat) fuel bs :
  (∀ bs, bs ≠ [] → (1 ≤ (f bs).2)%nat) → (length bs ≤ fuel)%nat →
  loop_fuel f fuel bs = loop f bs.
Proof.
  intros Hf. unfold loop. remember (length bs) as n eqn:Hn. revert fuel bs Hn.
  induction (lt_wf n) as [n _ IH]. intros fuel bs -> Hle.
  destruct bs as [|b bs]; [by destruct fuel|].
  destruct fuel as [|fuel]; [cbn in Hle; lia|]. cbn [length loop_fuel].
  specialize (Hf (b :: bs) ltac:(done)). destruct (f (b :: bs)) as [out k]. cbn in Hf, Hle. f_equal.
  assert (length (drop k (b :: bs)) ≤ length bs)%nat by (rewrite length_drop; cbn; lia).
  etrans; [eapply (IH (length (drop k (b :: bs)))); [cbn in *; lia|done|lia]|].
  symmetry. eapply IH; [cbn in *; lia|done|done].
Qed.

Lemma loop_step {A} (f : list byte → list A * nat) bs :
  (∀ bs, bs ≠ [] → (1 ≤ (f bs).2)%nat) → bs ≠ [] →
  loop f bs = (f bs).1 ++ loop f (drop (f bs).2 bs).
Proof.
  intros Hf Hne. destruct bs as [|b bs]; [done|]. unfold loop at 1. cbn [length loop_fuel].
  pose proof (Hf (b :: bs) Hne) as Hk. destruct (f (b :: bs)) as [out k]. cbn [fst snd] in *.
  f_equal. apply loop_fuel_enough; [done|]. rewrite length_drop. cbn. lia.
Qed.

(** ** Encoding and decoding *)

Ltac rune_lia := zify; Z.to_euclidean_division_equations; lia.

Lemma to_N_small n : n < 256 → Byte.to_N (byte_of_N n) = n.
Proof. intros Hn. rewrite byte_to_N_of_N. by apply N.mod_small. Qed.

Lemma EncodeRune_length r : (1 ≤ length (EncodeRune r))%nat.
Proof. unfold EncodeRune. repeat case_match; cbn; lia. Qed.

Lemma EncodeRune_scalar r : scalar r → EncodeRune r =
  if r <? 128 then [byte_of_N r]
  else if r <? 2048 then [byte_of_N (192 + r / 64); byte_of_N (128 + r mod 64)]
  else if r <? 65536 then
    [byte_of_N (224 + r / 4096); byte_of_N (128 + r / 64 mod 64); byte_of_N (128 + r mod 64)]
  else
    [byte_of_N (240 + r / 262144); byte_of_N (128 + r / 4096 mod 64);
     byte_of_N (128 + r / 64 mod 64); byte_of_N (128 + r mod 64)].
Proof. intros Hr. unfold EncodeRune. by rewrite decide_True. Qed.

Lemma lead2 b : 194 ≤ b ≤ 223 → lead b = Some (2%nat, 128, 191).
Proof. intros Hb. unfold lead. by rewrite (proj2 (N.leb_le _ _)), (proj2 (N.leb_le _ _)) by lia. Qed.

(** Decides the comparisons in the goal, one after the other. *)
Ltac cmp_step :=
  match goal with
  | |- context [?a <=? ?b] => destruct (N.leb_spec a b); cbn [andb orb negb]
  | |- context [?a =? ?b] => destruct (N.eqb_spec a b); cbn [andb orb negb]
  | |- context [?a <? ?b] => destruct (N.ltb_spec a b); cbn [andb orb negb]
  end.
Ltac cmp_tac := repeat (cmp_step; try (exfalso; lia)).

(** The payloads of an encoding of three or four bytes. *)
Definition payload3 (a b c : N) : Prop :=
  a < 16 ∧ b < 64 ∧ c < 64 ∧ (a = 0 → 32 ≤ b) ∧ (a = 13 → b < 32).
Definition payload4 (a b c d : N) : Prop :=
  a < 5 ∧ b < 64 ∧ c < 64 ∧ d < 64 ∧ (a = 0 → 16 ≤ b) ∧ (a = 4 → b < 16).

Lemma decode1 n rest : n < 128 → DecodeRune (byte_of_N n :: rest) = (n, 1%nat).
Proof.
  intros Hn. unfold DecodeRune. cbn [map]. rewrite to_N_small by lia.
  by rewrite (proj2 (N.ltb_lt _ _)).
Qed.

Lemma decode2 a b rest : 2 ≤ a < 32 → b < 64 →
  DecodeRune (byte_of_N (192 + a) :: byte_of_N (128 + b) :: rest) = (a * 64 + b, 2%nat).
Proof.
  intros Ha Hb. unfold DecodeRune. cbn [map]. rewrite !to_N_small by lia.
  rewrite lead2 by lia. unfold within. cmp_tac. f_equal. lia.
Qed.

Lemma decode3 a b c rest : payload3 a b c →
  DecodeRune (byte_of_N (224 + a) :: byte_of_N (128 + b) :: byte_of_N (128 + c) :: rest) =
    (a * 4096 + b * 64 + c, 3%nat).
Proof.
  intros (Ha & Hb & Hc & Ha0 & Ha13). unfold DecodeRune. cbn [map].
  rewrite !to_N_small by lia. unfold lead, within. cmp_tac; f_equal; lia.
Qed.

Lemma decode4 a b c d rest : payload4 a b c d →
  DecodeRune (byte_of_N (240 + a) :: byte_of_N (128 + b) :: byte_of_N (128 + c) ::
              byte_of_N (128 + d) :: rest) =
    (a * 262144 + b * 4096 + c * 64 + d, 4%nat).
Proof.
  intros (Ha & Hb & Hc & Hd & Ha0 & Ha4). unfold DecodeRune. cbn [map].
  rewrite !to_N_small by lia. unfold lead, within. cmp_tac; f_equal; lia.
Qed.

(** The encodings in terms of their payloads. *)
Variant Encoding : N → list byte → Prop :=
  | Enc1 n : n < 128 → Encoding n [byte_of_N n]
  | Enc2 a b : 2 ≤ a < 32 → b < 64 →
      Encoding (a * 64 + b) [byte_of_N (192 + a); byte_of_N (128 + b)]
  | Enc3 a b c : payload3 a b c →
      Encoding (a * 4096 + b * 64 + c)
        [byte_of_N (224 + a); byte_of_N (128 + b); byte_of_N (128 + c)]
  | Enc4 a b c d : payload4 a b c d →
      Encoding (a * 262144 + b * 4096 + c * 64 + d)
        [byte_of_N (240 + a); byte_of_N (128 + b); byte_of_N (128 + c); byte_of_N (128 + d)].

Lemma Encoding_decode r bs rest : Encoding r bs → DecodeRune (bs ++ rest) = (r, length bs).
Proof.
  intros [n Hn|a b Ha Hb|a b c Hp|a b c d Hp]; cbn [app length];
    [by apply decode1|by apply decode2|by apply decode3|by apply decode4].
Qed.

Lemma Encoding_scalar r bs : Encoding r bs → scalar r.
Proof.
  unfold scalar. intros [n Hn|a b Ha Hb|a b c (?&?&?&?&?)|a b c d (?&?&?&?&?&?)]; [lia|lia| |].
  - destruct (decide (a < 13)); [lia|]. destruct (decide (a = 13)); lia.
  - destruct (decide (a = 4)); lia.
Qed.

Lemma EncodeRune_Encoding r : scalar r → Encoding r (EncodeRune r).
Proof.
  intros Hr. rewrite EncodeRune_scalar by done. unfold scalar in Hr.
  destruct (N.ltb_spec r 128); [by constructor|].
  destruct (N.ltb_spec r 2048); [|destruct (N.ltb_spec r 65536)].
  - replace r with (r / 64 * 64 + r mod 64) at 1 by rune_lia.
    apply (Enc2 (r / 64) (r mod 64)); rune_lia.
  - replace r with (r / 4096 * 4096 + r / 64 mod 64 * 64 + r mod 64) at 1 by rune_lia.
    apply Enc3. unfold payload3. rune_lia.
  - replace r with (r / 262144 * 262144 + r / 4096 mod 64 * 4096 + r / 64 mod 64 * 64 + r mod 64)
      at 1 by rune_lia.
    apply Enc4. unfold payload4. rune_lia.
Qed.

Lemma Encoding_unique r bs : Encoding r bs → bs = EncodeRune r.
Proof.
  intros HE. pose proof (EncodeRune_Encoding r (Encoding_scalar _ _ HE)) as HE'.
  rewrite (EncodeRune_scalar _ (Encoding_scalar _ _ HE)).
  destruct HE as [n Hn|a b Ha Hb|a b c (?&?&?&?&?)|a b c d (?&?&?&?&?&?)].
  - by rewrite (proj2 (N.ltb_lt _ _)).
  - cmp_tac. repeat f_equal; rune_lia.
  - assert (2048 ≤ a * 4096 + b * 64 + c) by (destruct (decide (a = 0)); lia).
    cmp_tac. repeat f_equal; rune_lia.
  - assert (65536 ≤ a * 262144 + b * 4096 + c * 64 + d) by (destruct (decide (a = 0)); lia).
    cmp_tac. repeat f_equal; rune_lia.
Qed.

Lemma decode_encode r rest :
  scalar r → DecodeRune (EncodeRune r ++ rest) = (r, length (EncodeRune r)).
Proof. intros Hr. by apply Encoding_decode, EncodeRune_Encoding. Qed.

Lemma byte_payload base b : base ≤ Byte.to_N b → b = byte_of_N (base + (Byte.to_N b - base)).
Proof.
  intros Hb. replace (base + (Byte.to_N b - base)) with (Byte.to_N b) by lia.
  by rewrite byte_of_N_to_N.
Qed.

Lemma lead_inv n k lo hi : lead n = Some (k, lo, hi) →
  k = 2%nat ∧ 194 ≤ n ≤ 223 ∧ lo = 128 ∧ hi = 191 ∨
  k = 3%nat ∧ 224 ≤ n ≤ 239 ∧ lo = (if n =? 224 then 160 else 128) ∧
    hi = (if n =? 237 then 159 else 191) ∨
  k = 4%nat ∧ 240 ≤ n ≤ 244 ∧ lo = (if n =? 240 then 144 else 128) ∧
    hi = (if n =? 244 then 143 else 191).
Proof.
  unfold lead. cmp_tac; intros [= <- <- <-]; subst; try lia;
    first [left; by split_and!|right; left; split_and!; (done || lia)|
           right; right; split_and!; (done || lia)].
Qed.

(** What is decoded was encoded, or it is the replacement of one invalid byte. *)
Lemma decode_inv bs : bs ≠ [] →
  DecodeRune bs = (RuneError, 1%nat) ∨ ∃ r enc rest, bs = enc ++ rest ∧ Encoding r enc.
Proof.
  destruct bs as [|b0 t]; [done|]. intros _. unfold DecodeRune. cbn [map].
  destruct (N.ltb_spec (Byte.to_N b0) 128) as [H0|H0].
  { right. exists (Byte.to_N b0), [byte_of_N (Byte.to_N b0)], t.
    split; [by rewrite byte_of_N_to_N|by constructor]. }
  destruct (lead (Byte.to_N b0)) as [[[k lo] hi]|] eqn:Hl; [|by left].
  apply lead_inv in Hl as [(-> & Hb & -> & ->)|[(-> & Hb & -> & ->)|(-> & Hb & -> & ->)]].
  - destruct t as [|b1 t]; [by left|]. cbn [map]. unfold within.
    destruct (N.leb_spec 128 (Byte.to_N b1)), (N.leb_spec (Byte.to_N b1) 191); cbn [andb];
      try (by left). right. enough (∃ r, Encoding r [b0; b1]) as [r Hr] by (by exists r, [b0; b1], t).
    rewrite (byte_payload 192 b0), (byte_payload 128 b1) by lia.
    eexists. apply Enc2; lia.
  - destruct t as [|b1 [|b2 t]]; [by left..|]. cbn [map]. unfold within.
    destruct (_ <=? Byte.to_N b1) eqn:E1; [|by left].
    destruct (Byte.to_N b1 <=? _) eqn:E2; [|by left].
    destruct (N.leb_spec 128 (Byte.to_N b2)), (N.leb_spec (Byte.to_N b2) 191); cbn [andb];
      try (by left). right. enough (∃ r, Encoding r [b0; b1; b2]) as [r Hr] by (by exists r, [b0; b1; b2], t).
    apply N.leb_le in E1, E2.
    rewrite (byte_payload 224 b0), (byte_payload 128 b1), (byte_payload 128 b2)
      by (repeat case_match; lia).
    eexists. apply Enc3. unfold payload3.
    destruct (N.eqb_spec (Byte.to_N b0) 224), (N.eqb_spec (Byte.to_N b0) 237); lia.
  - destruct t as [|b1 [|b2 [|b3 t]]]; [by left..|]. cbn [map]. unfold within.
    destruct (_ <=? Byte.to_N b1) eqn:E1; [|by left].
    destruct (Byte.to_N b1 <=? _) eqn:E2; [|by left].
    destruct (N.leb_spec 128 (Byte.to_N b2)), (N.leb_spec (Byte.to_N b2) 191),
      (N.leb_spec 128 (Byte.to_N b3)), (N.leb_spec (Byte.to_N b3) 191); cbn [andb];
      try (by left). right. enough (∃ r, Encoding r [b0; b1; b2; b3]) as [r Hr] by (by exists r, [b0; b1; b2; b3], t).
    apply N.leb_le in E1, E2.
    rewrite (byte_payload 240 b0), (byte_payload 128 b1), (byte_payload 128 b2),
      (byte_payload 128 b3) by (repeat case_match; lia).
    eexists. apply Enc4. unfold payload4.
    destruct (N.eqb_spec (Byte.to_N b0) 240), (N.eqb_spec (Byte.to_N b0) 244); lia.
Qed.

(** Induction over a text, an encoded rune or an invalid byte at a time. *)
Lemma rune_ind (P : list byte → Prop) :
  P [] →
  (∀ r rest, scalar r → P rest → P (EncodeRune r ++ rest)) →
  (∀ b rest, DecodeRune (b :: rest) = (RuneError, 1%nat) → P rest → P (b :: rest)) →
  ∀ bs, P bs.
Proof.
  intros Hnil Hrune Hbad bs. remember (length bs) as n eqn:Hn. revert bs Hn.
  induction (lt_wf n) as [n _ IH]. intros bs ->.
  destruct bs as [|b bs]; [done|].
  destruct (decode_inv (b :: bs)) as [Hd|(r & enc & rest & E & HE)]; [done| |].
  - apply Hbad; [done|]. eapply (IH (length bs)); [cbn; lia|done].
  - pose proof (Encoding_unique _ _ HE) as ->. rewrite E.
    apply Hrune; [by apply (Encoding_scalar _ _ HE)|].
    pose proof (EncodeRune_length r). apply (f_equal length) in E.
    rewrite length_app in E. eapply (IH (length rest)); [lia|done].
Qed.

Lemma decode_consumes bs : bs ≠ [] → (1 ≤ (DecodeRune bs).2)%nat.
Proof.
  intros Hne. destruct (decode_inv bs Hne) as [->|(r & enc & rest & -> & HE)]; [cbn; lia|].
  rewrite (Encoding_decode _ _ _ HE), (Encoding_unique _ _ HE). apply EncodeRune_length.
Qed.

Lemma EncodeRune_nonempty r rest : EncodeRune r ++ rest ≠ [].
Proof. pose proof (EncodeRune_length r). destruct (EncodeRune r); [cbn in *; lia|done]. Qed.

Lemma sanitize_step bs : bs ≠ [] →
  sanitize bs = EncodeRune (DecodeRune bs).1 ++ sanitize (drop (DecodeRune bs).2 bs).
Proof.
  intros Hne. unfold sanitize. rewrite loop_step; [by destruct (DecodeRune bs)| |done].
  intros bs' Hne'. pose proof (decode_consumes bs' Hne'). by destruct (DecodeRune bs').
Qed.

Lemma sanitize_rune r rest :
  scalar r → sanitize (EncodeRune r ++ rest) = EncodeRune r ++ sanitize rest.
Proof.
  intros Hr. rewrite sanitize_step by apply EncodeRune_nonempty.
  rewrite decode_encode by done. cbn [fst snd]. by rewrite drop_app_length.
Qed.

Lemma sanitize_bad b rest :
  DecodeRune (b :: rest) = (RuneError, 1%nat) →
  sanitize (b :: rest) = EncodeRune RuneError ++ sanitize rest.
Proof. intros Hd. by rewrite sanitize_step, Hd. Qed.

Lemma utf8_rune r rest : scalar r → utf8 rest → utf8 (EncodeRune r ++ rest).
Proof. intros Hr (rs & Hrs & ->). exists (r :: rs). split; [by constructor|done]. Qed.

Lemma sanitize_utf8 bs : utf8 (sanitize bs).
Proof.
  induction bs as [|r rest Hr IH|b rest Hd IH] using rune_ind.
  - by exists [].
  - rewrite sanitize_rune by done. by apply utf8_rune.
  - rewrite sanitize_bad by done. apply utf8_rune; [|done]. by right.
Qed.

Lemma sanitize_id bs : sanitize bs = bs ↔ utf8 bs.
Proof.
  split; [intros <-; apply sanitize_utf8|]. intros (rs & Hrs & ->).
  induction Hrs as [|r rs Hr _ IH]; [done|]. cbn [map concat].
  by rewrite sanitize_rune, IH.
Qed.

#[export] Instance utf8_dec bs : Decision (utf8 bs).
Proof.
  destruct (decide (sanitize bs = bs)) as [E|E]; rewrite sanitize_id in E; [by left|by right].
Defined.

(** ASCII text is valid. *)
Lemma utf8_ascii bs : Forall (λ b, Byte.to_N b < 128) bs → utf8 bs.
Proof.
  induction 1 as [|b bs Hb _ IH]; [by exists []|].
  replace (b :: bs) with (EncodeRune (Byte.to_N b) ++ bs); [apply utf8_rune; [left; lia|done]|].
  rewrite EncodeRune_scalar by (left; lia). rewrite (proj2 (N.ltb_lt _ _)) by done.
  cbn. by rewrite byte_of_N_to_N.
Qed.
