(* ===== verification/Json.v ===== *)
(** * JSON text (package encoding/json)

    What the key-value store and the configuration use of [json.Marshal], [MarshalIndent]
    and [Unmarshal]: strings are quoted with the HTML-safe escapes and invalid UTF-8
    replaced; [Unmarshal] first checks the whole text, so it is a syntax check that builds a
    tree ([parse]), followed by a conversion of the tree that each client writes for its
    type.  A syntax or type error is [ErrJSON]: nothing in the repository looks at its text.
    [quote_round_trip] is the link between the two directions. *)
From S2P Require Import Prelude Bytes Utf8 Strconv.
From Stdlib Require Import Strings.Byte.
Open Scope N_scope.

Definition ErrJSON : error := NewError "json".

(** Object members are in the order of the text; strings are unquoted.  No proof here is an
    induction over the tree. *)
Unset Elimination Schemes.
Inductive json :=
  | JNull
  | JBool (b : bool)
  | JNumber (lit : list byte)
  | JString (s : list byte)
  | JArray (vs : list json)
  | JObject (ms : list (list byte * json)).
Set Elimination Schemes.

(** ** Quoting *)

Definition hex (n : N) : byte := byte_of_N (if n <? 10 then 48 + n else 87 + n).

Definition escape_byte (b : byte) : list byte :=
  let n := Byte.to_N b in
  if (n =? 92) || (n =? 34) then [x5c; b]
  else if n =? 10 then text "\n"
  else if n =? 13 then text "\r"
  else if n =? 9 then text "\t"
  else if (n <? 32) || (n =? 60) || (n =? 62) || (n =? 38) then
    text "\u00" ++ [hex (n / 16); hex (n mod 16)]
  else [b].

(** One iteration of [appendString]. *)
Definition escape_step (bs : list byte) : list byte * nat :=
  match bs with
  | [] => ([], 0%nat)
  | b :: _ =>
    if Byte.to_N b <? 128 then (escape_byte b, 1%nat)
    else
      let '(r, k) := DecodeRune bs in
      if (r =? RuneError) && (k =? 1)%nat then (text "\ufffd", 1%nat)
      else if (r =? 8232) || (r =? 8233) then (text "\u202" ++ [hex (r mod 16)], k)
      else (take k bs, k)
  end.

Definition escape (s : list byte) : list byte := loop escape_step s.
Definition quote (s : list byte) : list byte := x22 :: escape s ++ [x22].

(** ** Strings *)

Definition hex_value (b : byte) : option N :=
  let n := Byte.to_N b in
  if (48 <=? n) && (n <=? 57) then Some (n - 48)
  else if (97 <=? n) && (n <=? 102) then Some (n - 87)
  else if (65 <=? n) && (n <=? 70) then Some (n - 55)
  else None.

(** The four digits of a [\uXXXX] escape at the front. *)
Definition getu4 (bs : list byte) : option N :=
  match bs with
  | e :: u :: a :: b :: c :: d :: _ =>
    if bool_decide (e = x5c ∧ u = x75) then
      a ← hex_value a; b ← hex_value b; c ← hex_value c; d ← hex_value d;
      Some (a * 4096 + b * 256 + c * 16 + d)
    else None
  | _ => None
  end.

(** utf16.DecodeRune *)
Definition combine (r1 r2 : N) : N :=
  if (55296 <=? r1) && (r1 <? 56320) && (56320 <=? r2) && (r2 <? 57344)
  then (r1 - 55296) * 1024 + (r2 - 56320) + 65536 else RuneError.

(** A [\uXXXX] escape, or two of them that form a surrogate pair. *)
Definition unicode_escape (bs : list byte) : go (list byte * nat) :=
  match getu4 bs with
  | None => Throw ErrJSON
  | Some rr =>
    if surrogate rr then
      let dec := match getu4 (drop 6 bs) with Some rr1 => combine rr rr1 | None => RuneError end in
      if dec =? RuneError then Ret (EncodeRune RuneError, 6%nat) else Ret (EncodeRune dec, 12%nat)
    else Ret (EncodeRune rr, 6%nat)
  end.

(** The one-letter escapes. *)
Definition simple_escape (e : byte) : option byte :=
  match e with
  | x22 | x5c | x2f => Some e
  | x62 => Some x08
  | x66 => Some x0c
  | x6e => Some x0a
  | x72 => Some x0d
  | x74 => Some x09
  | _ => None
  end.

(** One character of a string literal and the bytes it takes. *)
Definition next_char (bs : list byte) : go (list byte * nat) :=
  match bs with
  | [] => Throw ErrJSON
  | b :: tl =>
    if bool_decide (b = x5c) then
      match tl with
      | [] => Throw ErrJSON
      | e :: _ =>
        if bool_decide (e = x75) then unicode_escape bs
        else match simple_escape e with
             | Some c => Ret ([c], 2%nat)
             | None => Throw ErrJSON
             end
      end
    else if Byte.to_N b <? 32 then Throw ErrJSON
    else if Byte.to_N b <? 128 then Ret ([b], 1%nat)
    else let '(r, k) := DecodeRune bs in Ret (EncodeRune r, k)
  end.

(** The rest of a string literal after its opening quote; one iteration per byte is enough. *)
Fixpoint string_body (fuel : nat) (bs : list byte) : go (list byte * list byte) :=
  match fuel, bs with
  | O, _ | _, [] => Throw ErrJSON
  | S fuel, b :: tl =>
    if bool_decide (b = x22) then Ret ([], tl)
    else
      '(out, k) ← next_char bs;
      '(s, rest) ← string_body fuel (drop k bs);
      Ret (out ++ s, rest)
  end.

(** ** Numbers *)

Fixpoint span_digits (bs : list byte) : list byte * list byte :=
  match bs with
  | b :: tl =>
    if decide (is_digit b) then let '(ds, rest) := span_digits tl in (b :: ds, rest) else ([], bs)
  | [] => ([], [])
  end.

Definition digits1 (bs : list byte) : go (list byte * list byte) :=
  match span_digits bs with
  | ([], _) => Throw ErrJSON
  | (ds, rest) => Ret (ds, rest)
  end.

(** The text after a given byte, if it starts with that byte. *)
Definition after (b : byte) (bs : list byte) : option (list byte) :=
  match bs with
  | c :: tl => if bool_decide (c = b) then Some tl else None
  | [] => None
  end.

Definition int_part (bs : list byte) : go (list byte * list byte) :=
  match after x30 bs with
  | Some tl => Ret ([x30], tl)
  | None => digits1 bs
  end.

Definition fraction (bs : list byte) : go (list byte * list byte) :=
  match after x2e bs with
  | Some tl => '(ds, rest) ← digits1 tl; Ret (x2e :: ds, rest)
  | None => Ret ([], bs)
  end.

Definition exponent (bs : list byte) : go (list byte * list byte) :=
  match bs with
  | e :: tl =>
    if bool_decide (e = x65 ∨ e = x45) then
      let '(sg, tl) :=
        match tl with
        | s :: tl' => if bool_decide (s = x2b ∨ s = x2d) then ([s], tl') else ([], tl)
        | [] => ([], tl)
        end in
      '(ds, rest) ← digits1 tl;
      Ret (e :: sg ++ ds, rest)
    else Ret ([], bs)
  | [] => Ret ([], bs)
  end.

Definition number (bs : list byte) : go (list byte * list byte) :=
  let '(sg, bs) := match after x2d bs with Some tl => ([x2d], tl) | None => ([], bs) end in
  '(i, bs) ← int_part bs;
  '(f, bs) ← fraction bs;
  '(e, bs) ← exponent bs;
  Ret (sg ++ i ++ f ++ e, bs).

(** ** Values *)

Definition white (b : byte) : bool :=
  match b with x20 | x09 | x0a | x0d => true | _ => false end.
Fixpoint skip_ws (bs : list byte) : list byte :=
  match bs with
  | b :: tl => if white b then skip_ws tl else bs
  | [] => []
  end.

(** [true], [false] and [null]. *)
Fixpoint after_word (w bs : list byte) : option (list byte) :=
  match w with
  | [] => Some bs
  | b :: w => bs ← after b bs; after_word w bs
  end.
Definition literal (bs : list byte) : option (json * list byte) :=
  match after_word (text "true") bs with
  | Some r => Some (JBool true, r)
  | None =>
    match after_word (text "false") bs with
    | Some r => Some (JBool false, r)
    | None => r ← after_word (text "null") bs; Some (JNull, r)
    end
  end.

Definition string_literal (bs : list byte) : go (list byte * list byte) :=
  match after x22 bs with
  | Some tl => string_body (length tl) tl
  | None => Throw ErrJSON
  end.

Definition scalar_value (bs : list byte) : go (json * list byte) :=
  match literal bs with
  | Some (v, r) => Ret (v, r)
  | None =>
    match after x22 bs with
    | Some _ => '(s, r) ← string_literal bs; Ret (JString s, r)
    | None => '(lit, r) ← number bs; Ret (JNumber lit, r)
    end
  end.

Definition expect (b : byte) (bs : list byte) : go (list byte) :=
  match after b (skip_ws bs) with Some r => Ret r | None => Throw ErrJSON end.

(** One or more [item]s separated by commas, up to the byte [close]; [fuel] bounds their
    number. *)
Fixpoint items {A} (item : list byte → go (A * list byte)) (close : byte) (fuel : nat)
    (bs : list byte) : go (list A * list byte) :=
  match fuel with
  | O => Throw ErrJSON
  | S fuel =>
    '(x, r) ← item bs;
    match after x2c (skip_ws r) with
    | Some r => '(xs, r) ← items item close fuel r; Ret (x :: xs, r)
    | None => r ← expect close r; Ret ([x], r)
    end
  end.

(** After the opening brace or bracket: nothing, or [items]. *)
Definition container {A} (item : list byte → go (A * list byte)) (close : byte)
    (bs : list byte) : go (list A * list byte) :=
  match after close (skip_ws bs) with
  | Some r => Ret ([], r)
  | None => items item close (length bs) bs
  end.

Definition member (value : list byte → go (json * list byte)) (bs : list byte) :
    go ((list byte * json) * list byte) :=
  '(k, r) ← string_literal (skip_ws bs);
  r ← expect x3a r;
  '(v, r) ← value r;
  Ret ((k, v), r).

(** [depth] is how many more objects and arrays may be opened. *)
Fixpoint value (depth : nat) (bs : list byte) : go (json * list byte) :=
  let bs := skip_ws bs in
  match after x7b bs, after x5b bs, depth with
  | None, None, _ => scalar_value bs
  | _, _, O => Throw ErrJSON
  | Some tl, _, S depth =>
    '(ms, r) ← container (member (value depth)) x7d tl; Ret (JObject ms, r)
  | None, Some tl, S depth =>
    '(vs, r) ← container (value depth) x5d tl; Ret (JArray vs, r)
  end.

Definition maxNestingDepth : nat := N.to_nat 10000.

(** The syntax check of [Unmarshal], with the tree it is a check for. *)
Definition parse (bs : list byte) : go json :=
  '(v, r) ← value maxNestingDepth bs;
  match skip_ws r with [] => Ret v | _ => Throw ErrJSON end.

(** Text written with single quotes for double ones. *)
Definition json_text (s : string) : list byte :=
  map (λ b, if bool_decide (b = x27) then x22 else b) (text s).

Example parse_values :
  parse (json_text "{ 'a' : [ 1, -2.50e+3 ,true] , '\u0062\n\ud83d\ude00\ud800':null }  ") =
    Ret (JObject
      [(text "a", JArray [JNumber (text "1"); JNumber (text "-2.50e+3"); JBool true]);
       (x62 :: x0a :: EncodeRune 128512 ++ EncodeRune RuneError, JNull)]).
Proof. by vm_compute. Qed.

Example parse_rejects : Forall (λ s, parse (json_text s) = Throw ErrJSON)
  ["{'a':1,}"; "[1 2]"; "01"; "'\x'"; "'"; "{'a'}"; ""; "null null"; "-"; "1."; "tru"]%string.
Proof. by repeat constructor. Qed.

(** ** Quoting and unquoting *)

(** Quoting one ASCII byte, and reading it back. *)
Lemma escape_byte_char b rest : Byte.to_N b < 128 →
  next_char (escape_byte b ++ rest) = Ret ([b], length (escape_byte b)) ∧
  head (escape_byte b) ≠ Some x22.
Proof.
  intros Hb. destruct b; first [by (vm_compute in Hb)|split; [by vm_compute|done]].
Qed.

(** What [escape_step] makes of a rune: a chunk that reads back as the rune. *)
Definition reads_back (chunk out : list byte) : Prop :=
  chunk ≠ [] ∧ head chunk ≠ Some x22 ∧
  ∀ rest, next_char (chunk ++ rest) = Ret (out, length chunk).

Lemma EncodeRune_head r b tl : scalar r → EncodeRune r = b :: tl →
  128 ≤ r → 128 ≤ Byte.to_N b.
Proof.
  intros Hr E Hge. rewrite EncodeRune_scalar in E by done.
  rewrite (proj2 (N.ltb_ge _ _)) in E by done. unfold scalar in Hr.
  destruct (N.ltb_spec r 2048); [|destruct (N.ltb_spec r 65536)]; injection E as <- _;
    rewrite byte_to_N_of_N; rune_lia.
Qed.

Lemma next_char_rune r rest : scalar r → 128 ≤ r →
  next_char (EncodeRune r ++ rest) = Ret (EncodeRune r, length (EncodeRune r)).
Proof.
  intros Hr Hge. pose proof (decode_encode r rest Hr) as Hd.
  destruct (EncodeRune r) as [|b tl] eqn:E; [by pose proof (EncodeRune_nonempty r []) as Hn;
    rewrite E in Hn|].
  pose proof (EncodeRune_head _ _ _ Hr E Hge) as Hb. cbn [app] in *. unfold next_char.
  rewrite bool_decide_eq_false_2 by (intros ->; by vm_compute in Hb).
  rewrite (proj2 (N.ltb_ge _ 32)), (proj2 (N.ltb_ge _ 128)), Hd by lia. by rewrite E.
Qed.

Lemma escape_rune r : scalar r →
  ∃ chunk, reads_back chunk (EncodeRune r) ∧
    ∀ rest, escape_step (EncodeRune r ++ rest) = (chunk, length (EncodeRune r)).
Proof.
  intros Hr. destruct (N.ltb_spec r 128) as [Hlt|Hge].
  - assert (EncodeRune r = [byte_of_N r]) as ->.
    { rewrite EncodeRune_scalar by done. by rewrite (proj2 (N.ltb_lt _ _)). }
    assert (Byte.to_N (byte_of_N r) < 128) as Hb by (by rewrite to_N_small by lia).
    exists (escape_byte (byte_of_N r)). split.
    + split; [|split].
      * intros E. destruct (escape_byte_char _ [] Hb) as [Hn _]. by rewrite E in Hn.
      * apply (escape_byte_char _ [] Hb).
      * intros rest. by apply escape_byte_char.
    + intros rest. cbn [app escape_step]. by rewrite (proj2 (N.ltb_lt _ _)).
  - destruct (EncodeRune r) as [|b tl] eqn:E; [by pose proof (EncodeRune_nonempty r []) as Hn;
      rewrite E in Hn|].
    pose proof (EncodeRune_head _ _ _ Hr E Hge) as Hb.
    destruct ((r =? 8232) || (r =? 8233)) eqn:Hsep.
    + exists (text "\u202" ++ [hex (r mod 16)]). rewrite <- E. split.
      * apply orb_true_iff in Hsep as [->%N.eqb_eq| ->%N.eqb_eq]; done.
      * intros rest. pose proof (decode_encode r rest Hr) as Hd. rewrite E in *.
        cbn [app escape_step] in *. rewrite (proj2 (N.ltb_ge _ _)), Hd by done.
        rewrite Hsep. destruct (N.eqb_spec r RuneError) as [->|]; [done|]. done.
    + exists (EncodeRune r). rewrite <- E. split; [split; [|split]|].
      * intros En. by rewrite E in En.
      * rewrite E. intros [= ->]. by vm_compute in Hb.
      * intros rest. by apply next_char_rune.
      * intros rest. pose proof (decode_encode r rest Hr) as Hd. rewrite E in *.
        cbn [app escape_step] in *. rewrite (proj2 (N.ltb_ge _ _)), Hd by done.
        rewrite Hsep. cbn [length]. destruct (N.eqb_spec r RuneError) as [Hre|]; cbn [andb].
        -- subst r. vm_compute in E. by injection E as <- <-.
        -- by rewrite (take_app_length (b :: tl) rest : take (S (length tl)) (b :: tl ++ rest) = _).
Qed.

Lemma escape_bad b rest : DecodeRune (b :: rest) = (RuneError, 1%nat) →
  escape_step (b :: rest) = (text "\ufffd", 1%nat).
Proof.
  intros Hd. cbn [escape_step]. rewrite Hd. cbn [andb N.eqb Nat.eqb].
  destruct (N.ltb_spec (Byte.to_N b) 128) as [Hb|_]; [|done].
  pose proof (decode1 (Byte.to_N b) rest Hb) as Hd'. rewrite byte_of_N_to_N, Hd in Hd'.
  injection Hd' as Hd'. rewrite <- Hd' in Hb. by vm_compute in Hb.
Qed.

Lemma escape_consumes bs : bs ≠ [] → (1 ≤ (escape_step bs).2)%nat.
Proof.
  intros Hne. pose proof (decode_consumes bs Hne). destruct bs as [|b bs]; [done|].
  cbn [escape_step]. destruct (_ <? 128); [done|]. destruct (DecodeRune _) as [r k].
  by repeat case_match.
Qed.

Lemma escape_cons bs chunk k : bs ≠ [] → escape_step bs = (chunk, k) →
  escape bs = chunk ++ escape (drop k bs).
Proof.
  intros Hne E. unfold escape. rewrite loop_step by (done || apply escape_consumes).
  by rewrite E.
Qed.

(** The text of a string literal after its opening quote. *)
Definition closes (s out : list byte) : Prop :=
  ∀ fuel rest, (length (s ++ x22 :: rest) ≤ fuel)%nat →
    string_body fuel (s ++ x22 :: rest) = Ret (out, rest).

Lemma closes_nil : closes [] [].
Proof. intros [|fuel] rest Hf; [cbn in Hf; lia|done]. Qed.

Lemma closes_cons chunk out s outs :
  reads_back chunk out → closes s outs → closes (chunk ++ s) (out ++ outs).
Proof.
  intros (Hne & Hq & Hnext) Hs fuel rest Hf. rewrite <- app_assoc in *.
  destruct chunk as [|b chunk]; [done|]. destruct fuel as [|fuel]; [cbn in Hf; lia|].
  cbn [app string_body]. rewrite bool_decide_eq_false_2 by (intros ->; done).
  change (b :: chunk ++ s ++ x22 :: rest) with ((b :: chunk) ++ s ++ x22 :: rest).
  rewrite Hnext. cbn [mbind go_bind]. rewrite drop_app_length, Hs; [done|].
  cbn in Hf. rewrite length_app in Hf. lia.
Qed.

Lemma escape_closes s : closes (escape s) (sanitize s).
Proof.
  induction s as [|r rest Hr IH|b rest Hd IH] using rune_ind.
  - apply closes_nil.
  - destruct (escape_rune r Hr) as (chunk & Hback & Hstep).
    rewrite (escape_cons _ _ _ (EncodeRune_nonempty _ _) (Hstep rest)).
    rewrite drop_app_length, sanitize_rune by done. by apply closes_cons.
  - rewrite (escape_cons (b :: rest) _ _ ltac:(done) (escape_bad _ _ Hd)), sanitize_bad by done.
    apply closes_cons; [|done]. split; [done|]. split; [done|]. by vm_compute.
Qed.

(** A quoted string followed by anything reads back as the string with its invalid bytes
    replaced: the string itself when it is valid UTF-8. *)
Lemma quote_literal s rest : string_literal (quote s ++ rest) = Ret (sanitize s, rest).
Proof.
  unfold string_literal, quote. cbn [app after]. rewrite bool_decide_eq_true_2 by done.
  rewrite <- app_assoc. cbn [app]. by apply escape_closes.
Qed.

Lemma quote_value d s rest : value d (quote s ++ rest) = Ret (JString (sanitize s), rest).
Proof.
  assert (scalar_value (quote s ++ rest) = Ret (JString (sanitize s), rest)) as Hv.
  { unfold scalar_value. rewrite quote_literal. done. }
  by destruct d.
Qed.

(** ** Building and reading containers *)

(** The separator between members and elements. *)
Fixpoint commas (ts : list (list byte)) : list byte :=
  match ts with
  | [] => []
  | [t] => t
  | t :: ts => t ++ x2c :: commas ts
  end.

(** What may follow a value: nothing, white space, a comma or a closing bracket. *)
Definition stops (rest : list byte) : Prop :=
  match rest with
  | [] => True
  | b :: _ => white b = true ∨ b ∈ [x2c; x5d; x7d]
  end.

Definition reads {A} (item : list byte → go (A * list byte)) (t : list byte) (x : A) : Prop :=
  ∀ rest, stops rest → item (t ++ rest) = Ret (x, rest).

Lemma after_eq b rest : after b (b :: rest) = Some rest.
Proof. cbn. by rewrite bool_decide_eq_true_2. Qed.

Lemma after_ne b c rest : c ≠ b → after b (c :: rest) = None.
Proof. intros Hne. cbn. by rewrite bool_decide_eq_false_2. Qed.

Lemma skip_ws_app ws bs : Forall (λ b, white b = true) ws → skip_ws (ws ++ bs) = skip_ws bs.
Proof. induction 1 as [|b ws Hb _ IH]; [done|]. cbn. by rewrite Hb. Qed.

Lemma skip_ws_not b bs : white b = false → skip_ws (b :: bs) = b :: bs.
Proof. intros Hb. cbn. by rewrite Hb. Qed.

Lemma expect_eq b rest : white b = false → expect b (b :: rest) = Ret rest.
Proof. intros Hb. unfold expect. by rewrite skip_ws_not, after_eq. Qed.

Lemma stops_close ws close rest :
  Forall (λ b, white b = true) ws → close = x5d ∨ close = x7d → stops (ws ++ close :: rest).
Proof.
  intros Hws Hc. destruct Hws as [|b ws Hb _]; cbn; [right|by left].
  destruct Hc as [->| ->]; set_solver.
Qed.

Lemma items_read {A} (item : list byte → go (A * list byte)) close ts xs fuel ws rest :
  Forall2 (reads item) ts xs → ts ≠ [] → (length ts ≤ fuel)%nat →
  close = x5d ∨ close = x7d → Forall (λ b, white b = true) ws →
  items item close fuel (commas ts ++ ws ++ close :: rest) = Ret (xs, rest).
Proof.
  intros Hts Hne Hf Hc Hws. assert (white close = false) as Hwc by (by destruct Hc as [->| ->]).
  revert fuel Hf. induction Hts as [|t x ts xs Ht Hts IH]; intros fuel Hf; [done|].
  destruct fuel as [|fuel]; [cbn in Hf; lia|]. destruct ts as [|t' ts].
  - inversion Hts; subst xs. cbn [commas items].
    rewrite (Ht _ (stops_close _ _ _ Hws Hc)). cbn [mbind go_bind].
    rewrite skip_ws_app, skip_ws_not, after_ne by (done || by destruct Hc as [->| ->]).
    unfold expect. by rewrite skip_ws_app, skip_ws_not, after_eq.
  - change (commas (t :: t' :: ts)) with (t ++ x2c :: commas (t' :: ts)).
    cbn [items]. rewrite <- app_assoc. rewrite Ht by (right; set_solver).
    cbn [mbind go_bind app]. rewrite skip_ws_not, after_eq by done.
    by rewrite IH by (done || (cbn in Hf |- *; lia)).
Qed.

(** An object: a brace, members separated by commas, white space, a brace. *)
Definition object_text (ts : list (list byte)) (ws : list byte) : list byte :=
  x7b :: commas ts ++ ws ++ [x7d].

Lemma length_commas ts : Forall (λ t, t ≠ []) ts → (length ts ≤ length (commas ts))%nat.
Proof.
  induction 1 as [|t ts Ht _ IH]; [done|]. destruct ts as [|t' ts].
  - destruct t; [done|]. cbn. lia.
  - change (commas (t :: t' :: ts)) with (t ++ x2c :: commas (t' :: ts)).
    rewrite length_app. cbn [length] in *. lia.
Qed.

Lemma object_value d ts xs ws rest :
  Forall2 (reads (member (value d))) ts xs →
  Forall (λ t, t ≠ [] ∧ ∀ rest, after x7d (skip_ws (t ++ rest)) = None) ts →
  Forall (λ b, white b = true) ws →
  value (S d) (object_text ts ws ++ rest) = Ret (JObject xs, rest).
Proof.
  intros Hts Hsafe Hws. unfold object_text. cbn [app value].
  rewrite skip_ws_not, after_eq by done. unfold container.
  rewrite <- !app_assoc. cbn [app]. destruct ts as [|t ts].
  - inversion Hts; subst. cbn [commas app].
    rewrite skip_ws_app, skip_ws_not, after_eq by done. done.
  - assert (after x7d (skip_ws (commas (t :: ts) ++ ws ++ x7d :: rest)) = None) as ->.
    { apply Forall_cons in Hsafe as [[_ Hs] _]. destruct ts; [apply Hs|].
      change (commas (t :: l :: ts)) with (t ++ x2c :: commas (l :: ts)).
      rewrite <- app_assoc. apply Hs. }
    rewrite (items_read _ _ _ xs); [done|done|done| |by right|done].
    rewrite length_app. etrans; [apply length_commas|lia].
    eapply Forall_impl; [done|]. by intros ? [? _].
Qed.

Lemma parse_value_text bs v :
  (∀ d, value (S d) bs = Ret (v, [])) → parse bs = Ret v.
Proof.
  intros Hv. unfold parse. assert (∃ d, maxNestingDepth = S d) as [d ->].
  { exists (Nat.pred maxNestingDepth). unfold maxNestingDepth. lia. }
  by rewrite Hv.
Qed.

(** A member with a quoted name. *)
Lemma member_reads v ws k gap t x :
  Forall (λ b, white b = true) ws → Forall (λ b, white b = true) gap → reads v t x →
  (∀ bs, v (gap ++ bs) = v bs) →
  reads (member v) (ws ++ quote k ++ x3a :: gap ++ t) (sanitize k, x).
Proof.
  intros Hws Hgap Ht Hv rest Hs. unfold member.
  rewrite <- !app_assoc. cbn [app]. rewrite <- !app_assoc.
  rewrite skip_ws_app by done. change (skip_ws (quote k ++ ?r)) with (quote k ++ r).
  rewrite quote_literal. cbn [mbind go_bind].
  rewrite expect_eq by done. cbn [mbind go_bind]. rewrite Hv, Ht by done. done.
Qed.

(** ** Integers *)

Lemma digit_facts b : is_digit b → white b = false ∧
  Forall (λ c, b ≠ c) [x22; x7b; x5b; x2d; x74; x66; x6e].
Proof.
  intros Hb. split.
  - destruct b; first [done|exfalso; unfold is_digit in Hb; vm_compute in Hb; naive_solver].
  - repeat constructor; intros ->; unfold is_digit in Hb; vm_compute in Hb; naive_solver.
Qed.

Lemma stops_not_digit rest b tl : stops rest → rest = b :: tl → ¬ is_digit b ∧
  b ≠ x2e ∧ b ≠ x65 ∧ b ≠ x45.
Proof.
  intros Hs ->. destruct Hs as [Hw|Hin].
  - split; [intros [Hd _]%digit_facts; congruence|]. by split_and!; intros ->.
  - rewrite !elem_of_cons, elem_of_nil in Hin.
    destruct Hin as [->|[->|[->|[]]]]; (split_and!; [|done..]); intros Hd;
      unfold is_digit in Hd; vm_compute in Hd; naive_solver.
Qed.

Lemma span_digits_app ds rest :
  Forall is_digit ds → stops rest → span_digits (ds ++ rest) = (ds, rest).
Proof.
  intros Hds Hs. induction Hds as [|b ds Hb _ IH]; cbn [app span_digits].
  - destruct rest as [|b tl]; [done|]. cbn.
    rewrite decide_False by (by apply (stops_not_digit _ _ _ Hs eq_refl)). done.
  - by rewrite decide_True, IH by done.
Qed.

Lemma fmt_digits_head fuel n : n ≠ 0 → n < 10 ^ N.of_nat fuel →
  head (fmt_digits fuel n) ≠ Some x30.
Proof.
  revert n. induction fuel as [|fuel IH]; intros n Hn Hlt; [cbn in *; lia|]. cbn [fmt_digits].
  destruct (N.ltb_spec n 10) as [Hs|Hge].
  - destruct (digit_spec n Hs) as [_ Hd]. intros [= E]. rewrite E in Hd. cbn in Hd. lia.
  - rewrite Nat2N.inj_succ, N.pow_succ_r' in Hlt.
    assert (n / 10 < 10 ^ N.of_nat fuel) as Hlt' by (apply N.Div0.div_lt_upper_bound; lia).
    assert (n / 10 ≠ 0) as Hne by (clear -Hge; rune_lia).
    specialize (IH _ Hne Hlt').
    destruct fuel as [|fuel]; [cbn in Hlt'; lia|].
    destruct (fmt_digits_spec (S fuel) (n / 10)) as (Hnil & _); [done|lia|].
    by destruct (fmt_digits (S fuel) (n / 10)).
Qed.

(** An unsigned decimal is the integer part of a number. *)
Lemma int_part_digits n rest : n < 10 ^ 20 → stops rest →
  int_part (fmt_digits 20 n ++ rest) = Ret (fmt_digits 20 n, rest).
Proof.
  intros Hn Hs. unfold int_part. destruct (decide (n = 0)) as [->|Hne]; [done|].
  destruct (fmt_digits_spec 20 n) as (Hnil & Hds & _); [done|lia|].
  pose proof (fmt_digits_head 20 n Hne Hn) as Hh.
  destruct (fmt_digits 20 n) as [|b ds] eqn:E; [done|].
  cbn [app]. rewrite after_ne by (intros ->; done). unfold digits1.
  change (b :: ds ++ rest) with ((b :: ds) ++ rest). by rewrite span_digits_app.
Qed.

Lemma number_tail rest : stops rest → fraction rest = Ret ([], rest) ∧ exponent rest = Ret ([], rest).
Proof.
  intros Hs. destruct rest as [|b tl]; [done|].
  destruct (stops_not_digit _ _ _ Hs eq_refl) as (_ & Hdot & He & HE).
  unfold fraction, exponent. rewrite after_ne by done.
  rewrite bool_decide_eq_false_2 by naive_solver. done.
Qed.

Lemma number_FormatInt z rest : is_i64 z → stops rest →
  number (FormatInt z ++ rest) = Ret (FormatInt z, rest).
Proof.
  unfold is_i64, i64_min, i64_max. intros Hz Hs. destruct (number_tail _ Hs) as [Hf He].
  assert (∀ sg n, n < 10 ^ 20 →
    ('(i, bs) ← int_part (fmt_digits 20 n ++ rest);
     '(f, bs) ← fraction bs; '(e, bs) ← exponent bs; Ret (sg ++ i ++ f ++ e, bs)) =
    Ret (sg ++ fmt_digits 20 n, rest)) as Hgo.
  { intros sg n Hn. rewrite int_part_digits by done. cbn [mbind go_bind].
    rewrite Hf. cbn [mbind go_bind]. rewrite He. cbn. by rewrite app_nil_r. }
  unfold number, FormatInt. destruct (Z.ltb_spec z 0).
  - cbn [app]. rewrite after_eq. apply (Hgo [x2d]). lia.
  - assert (after x2d (fmt_digits 20 (Z.to_N z) ++ rest) = None) as ->; [|apply (Hgo []); lia].
    destruct (fmt_digits_spec 20 (Z.to_N z)) as (Hnil & Hds & _); [cbn; lia|lia|].
    destruct (fmt_digits 20 (Z.to_N z)) as [|b ds]; [done|]. cbn [app]. apply after_ne.
    apply Forall_cons in Hds as [Hb _]. intros ->. by destruct (digit_not_sign x2d Hb).
Qed.

Lemma FormatInt_head z : is_i64 z → ∃ b tl, FormatInt z = b :: tl ∧ (b = x2d ∨ is_digit b).
Proof.
  unfold is_i64, i64_min, i64_max, FormatInt. intros Hz.
  destruct (Z.ltb_spec z 0); [by eexists _, _; auto|].
  destruct (fmt_digits_spec 20 (Z.to_N z)) as (Hnil & Hds & _); [cbn; lia|lia|].
  destruct (fmt_digits 20 (Z.to_N z)) as [|b ds]; [done|].
  apply Forall_cons in Hds as [Hb _]. eauto.
Qed.

Lemma value_FormatInt d z : is_i64 z → reads (value d) (FormatInt z) (JNumber (FormatInt z)).
Proof.
  intros Hz rest Hs. pose proof (number_FormatInt z rest Hz Hs) as Hn.
  destruct (FormatInt_head z Hz) as (b & tl & E & Hb). rewrite E in *. cbn [app] in *.
  assert (white b = false ∧ Forall (λ c, b ≠ c) [x22; x7b; x5b; x74; x66; x6e]) as [Hw Hc].
  { destruct Hb as [->|Hb]; [split; [done|by repeat constructor]|].
    destruct (digit_facts b Hb) as [Hw Hall]. split; [done|].
    rewrite Forall_forall in *. intros c Hin. apply Hall. set_solver. }
  repeat (apply Forall_cons in Hc as [? Hc]).
  assert (scalar_value (b :: tl ++ rest) = Ret (JNumber (b :: tl), rest)) as Hsv.
  { unfold scalar_value. assert (literal (b :: tl ++ rest) = None) as ->.
    { unfold literal. cbn [text String.list_byte_of_string after_word].
      unfold text. cbn. by rewrite !bool_decide_eq_false_2. }
    rewrite after_ne by done. by rewrite Hn. }
  destruct d as [|d]; cbn [value]; rewrite skip_ws_not by done;
    rewrite !after_ne by done; done.
Qed.

(** ** The fuel never runs out

    Each loop gets one unit of fuel per byte of its input, and every iteration consumes at
    least one byte: more fuel changes nothing. *)

Lemma next_char_consumes bs out k : next_char bs = Ret (out, k) → (1 ≤ k)%nat.
Proof.
  destruct bs as [|b tl]; [done|]. unfold next_char. case_bool_decide.
  - destruct tl as [|e tl]; [done|]. case_bool_decide.
    + unfold unicode_escape. repeat case_match; intros [= <- <-]; lia.
    + destruct (simple_escape e); [|done]. intros [= <- <-]. lia.
  - destruct (_ <? 32); [done|]. destruct (_ <? 128); [intros [= <- <-]; lia|].
    pose proof (decode_consumes (b :: tl)). destruct (DecodeRune _) as [r k'].
    intros [= <- <-]. naive_solver.
Qed.

Lemma string_body_fuel fuel bs :
  (length bs ≤ fuel)%nat → string_body fuel bs = string_body (length bs) bs.
Proof.
  remember (length bs) as n eqn:Hn. revert fuel bs Hn.
  induction (lt_wf n) as [n _ IH]. intros fuel bs -> Hle.
  destruct bs as [|b bs]; [by destruct fuel|]. destruct fuel as [|fuel]; [cbn in Hle; lia|].
  cbn [length string_body]. case_bool_decide; [done|].
  destruct (next_char (b :: bs)) as [[out k]| |] eqn:E; [|done..]. cbn [mbind go_bind].
  apply next_char_consumes in E. cbn in Hle.
  assert (length (drop k (b :: bs)) ≤ length bs)%nat by (rewrite length_drop; cbn; lia).
  rewrite (IH (length (drop k (b :: bs)))) by first [done|cbn in *; lia]. symmetry.
  by rewrite (IH (length (drop k (b :: bs)))) by first [done|cbn in *; lia].
Qed.

Lemma after_length b bs r : after b bs = Some r → length bs = S (length r).
Proof. destruct bs; [done|]. cbn. case_bool_decide; [|done]. by intros [= ->]. Qed.

Lemma skip_ws_length bs : (length (skip_ws bs) ≤ length bs)%nat.
Proof. induction bs as [|b bs IH]; [done|]. cbn. destruct (white b); cbn; lia. Qed.

Lemma items_fuel {A} (item : list byte → go (A * list byte)) close fuel bs :
  (∀ bs x r, item bs = Ret (x, r) → (length r < length bs)%nat) →
  item [] = Throw ErrJSON →
  (length bs ≤ fuel)%nat → items item close fuel bs = items item close (length bs) bs.
Proof.
  intros Hitem Hnil. remember (length bs) as n eqn:Hn. revert fuel bs Hn.
  induction (lt_wf n) as [n _ IH]. intros fuel bs -> Hle.
  destruct bs as [|b bs].
  { destruct fuel; [done|]. cbn. by rewrite Hnil. }
  destruct fuel as [|fuel]; [cbn in Hle; lia|]. cbn [length items].
  destruct (item (b :: bs)) as [[x r]| |] eqn:E; [|done..]. cbn [mbind go_bind].
  apply Hitem in E. pose proof (skip_ws_length r).
  destruct (after x2c (skip_ws r)) as [r'|] eqn:Ha; [|done].
  apply after_length in Ha. cbn in E, Hle.
  rewrite (IH (length r')) by first [done|cbn in *; lia]. symmetry.
  by rewrite (IH (length r')) by first [done|cbn in *; lia].
Qed.

Lemma string_body_consumes fuel bs s r :
  string_body fuel bs = Ret (s, r) → (length r < length bs)%nat.
Proof.
  revert bs s r. induction fuel as [|fuel IH]; intros bs s r Hb; [done|].
  destruct bs as [|b bs]; [done|]. cbn [string_body] in Hb. case_bool_decide.
  - injection Hb as <- <-. cbn. lia.
  - go_inv Hb. destruct a as [out k]. go_inv Hb. destruct a as [s' r']. injection Hb as <- <-.
    apply next_char_consumes in Hret. apply IH in Hret0. rewrite length_drop in Hret0.
    cbn in *. lia.
Qed.

Lemma span_digits_length bs ds r : span_digits bs = (ds, r) → length bs = (length ds + length r)%nat.
Proof.
  revert ds r. induction bs as [|b bs IH]; intros ds r Hs; cbn in Hs; [by injection Hs as <- <-|].
  case_decide; [|by injection Hs as <- <-].
  destruct (span_digits bs) as [ds' r'] eqn:E. injection Hs as <- <-. cbn.
  by rewrite (IH _ _ eq_refl).
Qed.

Lemma digits1_consumes bs ds r : digits1 bs = Ret (ds, r) → (length r < length bs)%nat.
Proof.
  unfold digits1. destruct (span_digits bs) as [[|d ds'] r'] eqn:E; [done|]. intros [= <- <-].
  apply span_digits_length in E. cbn in E. lia.
Qed.

Lemma int_part_consumes bs ds r : int_part bs = Ret (ds, r) → (length r < length bs)%nat.
Proof.
  unfold int_part. destruct (after _ _) as [tl|] eqn:E; [|apply digits1_consumes].
  intros [= <- <-]. apply after_length in E. lia.
Qed.

Lemma fraction_consumes bs ds r : fraction bs = Ret (ds, r) → (length r ≤ length bs)%nat.
Proof.
  unfold fraction. destruct (after _ _) as [tl|] eqn:E; [|intros [= <- <-]; lia].
  intros Hf. go_inv Hf. destruct a. injection Hf as <- <-. apply digits1_consumes in Hret.
  apply after_length in E. lia.
Qed.

Lemma exponent_consumes bs ds r : exponent bs = Ret (ds, r) → (length r ≤ length bs)%nat.
Proof.
  unfold exponent. destruct bs as [|e tl]; [intros [= <- <-]; done|].
  case_bool_decide; [|intros [= <- <-]; done].
  destruct (match tl with [] => _ | _ => _ end) as [sg tl'] eqn:E.
  intros Hf. go_inv Hf. destruct a. injection Hf as <- <-. apply digits1_consumes in Hret.
  assert (length tl' ≤ length tl)%nat; [|cbn; lia].
  destruct tl; [by injection E as <- <-|]. case_bool_decide; injection E as <- <-; cbn; lia.
Qed.

Lemma number_consumes bs lit r : number bs = Ret (lit, r) → (length r < length bs)%nat.
Proof.
  unfold number. destruct (match after x2d bs with Some _ => _ | None => _ end) as [sg bs'] eqn:E.
  assert (length bs' ≤ length bs)%nat.
  { destruct (after x2d bs) as [tl|] eqn:Ha; injection E as <- <-; [|done].
    apply after_length in Ha. lia. }
  intros Hn. go_inv Hn. destruct a as [i r1]. go_inv Hn. destruct a as [f r2].
  go_inv Hn. destruct a as [e r3]. injection Hn as <- <-.
  apply int_part_consumes in Hret. apply fraction_consumes in Hret0.
  apply exponent_consumes in Hret1. lia.
Qed.

Lemma after_word_consumes w bs r :
  w ≠ [] → after_word w bs = Some r → (length r < length bs)%nat.
Proof.
  revert bs. induction w as [|b w IH]; intros bs Hne Hw; [done|]. cbn in Hw.
  destruct (after b bs) as [tl|] eqn:E; [|done]. cbn in Hw. apply after_length in E.
  destruct w; [injection Hw as <-; lia|]. apply IH in Hw; [lia|done].
Qed.

Lemma string_literal_consumes bs s r : string_literal bs = Ret (s, r) → (length r < length bs)%nat.
Proof.
  unfold string_literal. destruct (after _ _) as [tl|] eqn:E; [|done].
  intros Hs%string_body_consumes. apply after_length in E. lia.
Qed.

Lemma scalar_value_consumes bs v r : scalar_value bs = Ret (v, r) → (length r < length bs)%nat.
Proof.
  unfold scalar_value. destruct (literal bs) as [[v' r']|] eqn:E.
  - intros [= <- <-]. unfold literal in E.
    destruct (after_word (text "true") bs) eqn:E1.
    { injection E as <- <-. by apply after_word_consumes in E1. }
    destruct (after_word (text "false") bs) eqn:E2.
    { injection E as <- <-. by apply after_word_consumes in E2. }
    destruct (after_word (text "null") bs) eqn:E3; [|done].
    injection E as <- <-. by apply after_word_consumes in E3.
  - destruct (after x22 bs).
    + intros Hs. go_inv Hs. destruct a. injection Hs as <- <-. by apply string_literal_consumes in Hret.
    + intros Hs. go_inv Hs. destruct a. injection Hs as <- <-. by apply number_consumes in Hret.
Qed.

Lemma expect_consumes b bs r : expect b bs = Ret r → (length r < length bs)%nat.
Proof.
  unfold expect. destruct (after _ _) as [tl|] eqn:E; [|done]. intros [= <-].
  apply after_length in E. pose proof (skip_ws_length bs). lia.
Qed.

Lemma items_consumes {A} (item : list byte → go (A * list byte)) close fuel bs xs r :
  (∀ bs x r, item bs = Ret (x, r) → (length r < length bs)%nat) →
  items item close fuel bs = Ret (xs, r) → (length r < length bs)%nat.
Proof.
  intros Hitem. revert bs xs r. induction fuel as [|fuel IH]; intros bs xs r Hr; [done|].
  cbn [items] in Hr. go_inv Hr. destruct a as [x r1]. apply Hitem in Hret.
  pose proof (skip_ws_length r1). destruct (after x2c _) as [r2|] eqn:E.
  - go_inv Hr. destruct a as [xs' r3]. injection Hr as <- <-. apply after_length in E.
    apply IH in Hret0. lia.
  - go_inv Hr. injection Hr as <- <-. apply expect_consumes in Hret0. lia.
Qed.

Lemma container_consumes {A} (item : list byte → go (A * list byte)) close bs xs r :
  (∀ bs x r, item bs = Ret (x, r) → (length r < length bs)%nat) →
  container item close bs = Ret (xs, r) → (length r < length bs)%nat.
Proof.
  intros Hitem. unfold container. destruct (after _ _) as [tl|] eqn:E.
  - intros [= <- <-]. apply after_length in E. pose proof (skip_ws_length bs). lia.
  - by apply items_consumes.
Qed.

Lemma member_consumes v bs x r :
  (∀ bs x r, v bs = Ret (x, r) → (length r < length bs)%nat) →
  member v bs = Ret (x, r) → (length r < length bs)%nat.
Proof.
  intros Hv Hm. unfold member in Hm. go_inv Hm. destruct a as [k r1]. go_inv Hm. go_inv Hm.
  destruct a0 as [w r2]. injection Hm as <- <-. apply string_literal_consumes in Hret.
  apply expect_consumes in Hret0. apply Hv in Hret1. pose proof (skip_ws_length bs). lia.
Qed.

(** A value takes at least one byte, so [items_fuel] applies to members and elements. *)
Lemma value_consumes depth bs v r : value depth bs = Ret (v, r) → (length r < length bs)%nat.
Proof.
  revert bs v r. induction depth as [|depth IH]; intros bs v r Hv; cbn [value] in Hv;
    pose proof (skip_ws_length bs);
    destruct (after x7b _) as [tl|] eqn:E1; try done;
    try (apply after_length in E1; go_inv Hv; destruct a as [ms r']; injection Hv as <- <-;
         apply container_consumes in Hret; [lia|intros ???; by apply member_consumes]);
    destruct (after x5b _) as [tl|] eqn:E2; try done;
    try (apply after_length in E2; go_inv Hv; destruct a as [vs r']; injection Hv as <- <-;
         apply container_consumes in Hret; [lia|done]);
    apply scalar_value_consumes in Hv; lia.
Qed.
