(* ===== verification/KV.v ===== *)
(** * The key-value state machine (internal/statemachine/kv.go)

    [Apply] on commands as bytes, with [strings.SplitN(_, " ", 3)]; the map is an [option]
    because [Restore] can leave it nil, where a set panics and everything else behaves as
    on an empty map.  The mutex makes every method atomic.  [Snapshot] and [Restore] go
    through [Json].  Proved here: [Apply] refines map updates ([KVOp]) for encoded commands,
    a bad command changes nothing, the snapshot round trip for valid UTF-8 and what happens
    without it, and which data [Restore] accepts. *)
From S2P Require Import Prelude Strconv Utf8 Json.
From stdpp Require Import sorting.
From Stdlib Require Import Strings.Byte Strings.Ascii.
Open Scope N_scope.

Definition ErrBadCommand : error := NewError "statemachine: bad command".

Record KV := MkKV { data : option (gmap string string); applied : N }.
#[export] Instance set_data : Setter data := λ v kv, MkKV v (applied kv).
#[export] Instance set_applied : Setter applied := λ v kv, MkKV (data kv) v.

Definition NewKV : KV := MkKV (Some ∅) 0.

(** [kv.data] read as a map: a nil map has no keys. *)
Definition entries_of (kv : KV) : gmap string string := default ∅ kv.(data).

Definition space : Ascii.ascii := " "%char.

(** The text before and after the first space. *)
Fixpoint cut (s : string) : option (string * string) :=
  match s with
  | EmptyString => None
  | String c s =>
    if bool_decide (c = space) then Some (""%string, s)
    else match cut s with
         | Some (a, b) => Some (String c a, b)
         | None => None
         end
  end.

(** [strings.SplitN(s, " ", n)] for a positive [n]: at most [n - 1] cuts. *)
Fixpoint split_cuts (cuts : nat) (s : string) : list string :=
  match cuts with
  | O => [s]
  | S cuts =>
    match cut s with
    | None => [s]
    | Some (a, b) => a :: split_cuts cuts b
    end
  end.
Definition SplitN (s : string) (n : nat) : list string := split_cuts (n - 1) s.

Definition Apply (kv : KV) (idx : N) (command : list byte) : go (KV * option error) :=
  let parts := SplitN (String.string_of_list_byte command) 3 in
  match parts with
  | p0 :: p1 :: rest =>
    if bool_decide (p0 = "set"%string) then
      match rest with
      | [] => Ret (kv, Some ErrBadCommand)
      | p2 :: _ =>
        match kv.(data) with
        | None => Panic
        | Some m => Ret (kv <| data := Some (<[p1 := p2]> m) |> <| applied := idx |>, None)
        end
      end
    else if bool_decide (p0 = "delete"%string) then
      Ret (kv <| data := delete p1 <$> kv.(data) |> <| applied := idx |>, None)
    else Ret (kv, Some ErrBadCommand)
  | _ => Ret (kv, Some ErrBadCommand)
  end.

Definition Get (kv : KV) (key : string) : string * bool :=
  match entries_of kv !! key with Some v => (v, true) | None => (""%string, false) end.

Definition Keys (kv : KV) : list string :=
  merge_sort String.le (map fst (map_to_list (entries_of kv))).

Definition KV_Len (kv : KV) : Z := Z.of_nat (base.size (entries_of kv)).
Definition LastApplied (kv : KV) : N := kv.(applied).
Definition Clear (kv : KV) : KV := MkKV (Some ∅) 0.

(** ** The specification: map updates *)

Inductive KVOp :=
  | OpSet (k v : string)
  | OpDelete (k : string).

Definition run_op (m : gmap string string) (op : KVOp) : gmap string string :=
  match op with OpSet k v => <[k := v]> m | OpDelete k => delete k m end.

(** The command text of an operation, as documented at [Apply]. *)
Definition command_of (op : KVOp) : list byte :=
  String.list_byte_of_string
    match op with
    | OpSet k v => "set " +:+ k +:+ " " +:+ v
    | OpDelete k => "delete " +:+ k
    end.

Definition no_space (s : string) : Prop := cut s = None.
Definition op_ok (op : KVOp) : Prop :=
  match op with OpSet k _ => no_space k | OpDelete k => no_space k end.

#[export] Instance op_ok_dec op : Decision (op_ok op).
Proof. destruct op; unfold op_ok, no_space; apply _. Defined.

Lemma cut_app k v : no_space k → cut (k +:+ " " +:+ v) = Some (k, v).
Proof.
  unfold no_space. induction k as [|c k IH]; intros Hk; [done|].
  change (String c k +:+ " " +:+ v) with (String c (k +:+ " " +:+ v)).
  cbn [cut] in Hk |- *. case_bool_decide; [done|].
  destruct (cut k) as [[? ?]|]; [done|]. by rewrite (IH eq_refl).
Qed.

Lemma SplitN_set k v :
  no_space k → SplitN ("set " +:+ k +:+ " " +:+ v) 3 = ["set"; k; v]%string.
Proof.
  intros Hk. unfold SplitN. cbn [Nat.sub split_cuts].
  change ("set " +:+ k +:+ " " +:+ v) with ("set" +:+ " " +:+ (k +:+ " " +:+ v)).
  rewrite cut_app by done. cbv beta iota. by rewrite cut_app.
Qed.

Lemma SplitN_delete k : no_space k → SplitN ("delete " +:+ k) 3 = ["delete"; k]%string.
Proof.
  intros Hk. unfold SplitN. cbn [Nat.sub split_cuts].
  change ("delete " +:+ k) with ("delete" +:+ " " +:+ k).
  rewrite cut_app by done. cbv beta iota. unfold no_space in Hk. by rewrite Hk.
Qed.

Lemma Apply_op kv m i op :
  kv.(data) = Some m → op_ok op →
  Apply kv i (command_of op) = Ret (MkKV (Some (run_op m op)) i, None).
Proof.
  intros Hd Hop. unfold Apply, command_of. rewrite String.string_of_list_byte_of_string.
  destruct op as [k v|k]; cbn [op_ok] in Hop.
  - rewrite SplitN_set by done. by rewrite Hd.
  - rewrite SplitN_delete by done. by rewrite Hd.
Qed.

(** Applying a list of commands at indices [i, i + 1, ...], errors ignored. *)
Fixpoint apply_all (kv : KV) (i : N) (cmds : list (list byte)) : go KV :=
  match cmds with
  | [] => Ret kv
  | c :: cmds => '(kv, _) ← Apply kv i c; apply_all kv (i + 1) cmds
  end.

(** C36: kv_refines_map.  Applying the encoded commands of any operations (keys without
    spaces, values arbitrary) to a fresh store performs exactly these map updates, and
    [Get] afterwards reads the resulting map. *)
Theorem kv_refines_map ops i k :
  Forall op_ok ops → ∃ kv, apply_all NewKV i (map command_of ops) = Ret kv ∧
    kv.(data) = Some (foldl run_op ∅ ops) ∧
    Get kv k = (default ""%string (foldl run_op ∅ ops !! k),
                bool_decide (is_Some (foldl run_op ∅ ops !! k))).
Proof.
  intros Hops.
  assert (∀ kv m, kv.(data) = Some m → ∃ kv', apply_all kv i (map command_of ops) = Ret kv' ∧
    kv'.(data) = Some (foldl run_op m ops)) as Hall.
  { clear k. revert i. induction Hops as [|op ops Hop _ IH]; intros i kv m Hd; [by exists kv|].
    cbn [map apply_all foldl]. rewrite (Apply_op kv m) by done. cbn [mbind go_bind].
    by apply IH. }
  destruct (Hall NewKV ∅ eq_refl) as (kv & Hr & Hd). exists kv. split; [done|].
  split; [done|]. unfold Get, entries_of. rewrite Hd. cbn.
  by destruct (foldl run_op ∅ ops !! k).
Qed.

(** kv_bad_command.  When [Apply] fails, the error is [ErrBadCommand] and the store,
    [applied] included, is unchanged; and it never fails on the text of a set or delete
    whose key has no space. *)
Theorem kv_bad_command kv i command kv' err :
  Apply kv i command = Ret (kv', Some err) →
  kv' = kv ∧ err = ErrBadCommand ∧
  (∀ op, op_ok op → command ≠ command_of op).
Proof.
  intros Hr. split; [|split].
  - unfold Apply in Hr. by repeat case_match; simplify_eq.
  - unfold Apply in Hr. by repeat case_match; simplify_eq.
  - intros op Hop ->. destruct (data kv) as [m|] eqn:Hd.
    + by rewrite (Apply_op kv m) in Hr.
    + unfold Apply, command_of in Hr. rewrite String.string_of_list_byte_of_string in Hr.
      destruct op as [k v|k]; cbn [op_ok] in Hop.
      * rewrite SplitN_set in Hr by done. by rewrite Hd in Hr.
      * by rewrite SplitN_delete in Hr by done.
Qed.

(** kv_keys_sorted.  [Keys] lists every key of the store once, in byte order. *)
Theorem kv_keys_sorted kv :
  StronglySorted String.le (Keys kv) ∧ NoDup (Keys kv) ∧
  (∀ k, k ∈ Keys kv ↔ (Get kv k).2 = true) ∧ KV_Len kv = Z.of_nat (length (Keys kv)).
Proof.
  unfold Keys. split; [apply (StronglySorted_merge_sort String.le)|].
  rewrite merge_sort_Permutation. split; [apply NoDup_fst_map_to_list|]. split.
  - intros k. rewrite merge_sort_Permutation, list_elem_of_fmap. unfold Get. split.
    + intros ([k' v] & -> & Hin%elem_of_map_to_list). cbn. by rewrite Hin.
    + destruct (entries_of kv !! k) as [v|] eqn:E; [|done]. intros _.
      exists (k, v). split; [done|]. by apply elem_of_map_to_list.
  - unfold KV_Len. rewrite length_map. f_equal. by rewrite length_map_to_list.
Qed.

(** ** Snapshot and Restore *)

Definition str (s : string) : list byte := String.list_byte_of_string s.

(** One member of the JSON object of a map. *)
Definition member_text (m : gmap string string) (k : string) : list byte :=
  quote (str k) ++ x3a :: quote (str (default ""%string (m !! k))).

(** [json.Marshal(kv.data)]: keys in byte order; it cannot fail on a map of strings. *)
Definition Snapshot (kv : KV) : list byte * option error :=
  (match kv.(data) with
   | None => text "null"
   | Some m => object_text (map (member_text m) (Keys kv)) []
   end, None).

(** One member decoded into a [map[string]string]; the flag remembers a type error, after
    which [Unmarshal] goes on and reports it at the end.  A null leaves the zero value. *)
Definition store_member (acc : gmap string string * bool) (kv : list byte * json) :
    gmap string string * bool :=
  let '(m, bad) := acc in
  let k := String.string_of_list_byte kv.1 in
  match kv.2 with
  | JString s => (<[k := String.string_of_list_byte s]> m, bad)
  | JNull => (<[k := ""%string]> m, bad)
  | _ => (<[k := ""%string]> m, true)
  end.

(** [json.Unmarshal(data, &m)] for a fresh map [m]. *)
Definition unmarshal_map (bs : list byte) : go (option (gmap string string)) :=
  v ← parse bs;
  match v with
  | JNull => Ret None
  | JObject ms =>
    let '(m, bad) := foldl store_member (∅, false) ms in
    if bad : bool then Throw ErrJSON else Ret (Some m)
  | _ => Throw ErrJSON
  end.

Definition Restore (kv : KV) (bs : list byte) : go (KV * option error) :=
  match unmarshal_map bs with
  | Ret m => Ret (kv <| data := m |>, None)
  | Throw err => Ret (kv, Some err)
  | Panic => Panic
  end.

Lemma member_text_reads d m k :
  reads (member (value d)) (member_text m k)
    (sanitize (str k), JString (sanitize (str (default ""%string (m !! k))))).
Proof.
  apply (member_reads (value d) [] (str k) [] (quote _)); try done.
  intros rest _. apply quote_value.
Qed.

(** What [Unmarshal] sees in a snapshot: the members in key order, with the bytes that are
    not UTF-8 replaced. *)
Lemma parse_snapshot kv m : kv.(data) = Some m →
  parse (Snapshot kv).1 = Ret (JObject (map (λ k, (sanitize (str k),
    JString (sanitize (str (default ""%string (m !! k)))))) (Keys kv))).
Proof.
  intros Hd. apply parse_value_text. intros d. unfold Snapshot. rewrite Hd. cbn [fst].
  rewrite <- (app_nil_r (object_text _ _)). apply object_value; [| |done].
  - induction (Keys kv) as [|k ks IH]; cbn [map]; constructor; [apply member_text_reads|done].
  - apply Forall_map, Forall_true. intros k. split; [done|]. intros rest. done.
Qed.

Lemma foldl_store ks (f g : string → list byte) m0 :
  foldl store_member (m0, false) (map (λ k, (f k, JString (g k))) ks) =
  (foldl (λ m k, <[String.string_of_list_byte (f k) := String.string_of_list_byte (g k)]> m)
     m0 ks, false).
Proof. revert m0. induction ks as [|k ks IH]; intros m0; [done|]. apply IH. Qed.

(** Inserting values under a list of keys, in any order. *)
Lemma lookup_foldl_insert (f : string → string) ks (m0 : gmap string string) i :
  foldl (λ m k, <[k := f k]> m) m0 ks !! i = if decide (i ∈ ks) then Some (f i) else m0 !! i.
Proof.
  revert m0. induction ks as [|k ks IH]; intros m0; cbn [foldl].
  - rewrite decide_False; [done|]. apply not_elem_of_nil.
  - rewrite IH. destruct (decide (i ∈ ks)) as [Hin|Hnin].
    + rewrite decide_True; [done|by right].
    + destruct (decide (i = k)) as [->|Hne].
      * rewrite lookup_insert_eq, decide_True; [done|by left].
      * rewrite lookup_insert_ne, decide_False by (done || set_solver). done.
Qed.

Lemma elem_of_Keys kv k : k ∈ Keys kv ↔ is_Some (entries_of kv !! k).
Proof.
  unfold Keys. rewrite merge_sort_Permutation, list_elem_of_fmap. split.
  - intros ([k' v] & -> & Hin%elem_of_map_to_list). by exists v.
  - intros [v Hv]. exists (k, v). split; [done|]. by apply elem_of_map_to_list.
Qed.

Definition valid_text (m : gmap string string) : Prop :=
  map_Forall (λ k v, utf8 (str k) ∧ utf8 (str v)) m.

(** C37: kv_snapshot_round_trip.  Restoring a snapshot into any store gives back exactly the
    snapshotted map, provided its keys and values are valid UTF-8 (spaces, quotes, control
    characters and HTML are no problem); [applied] is that of the restored store. *)
Theorem kv_snapshot_round_trip kv kv' m :
  kv.(data) = Some m → valid_text m →
  ∃ bs, Snapshot kv = (bs, None) ∧ Restore kv' bs = Ret (MkKV (Some m) kv'.(applied), None).
Proof.
  intros Hd Hv. eexists. split; [by rewrite (surjective_pairing (Snapshot kv))|].
  unfold Restore, unmarshal_map. rewrite (parse_snapshot kv m Hd). cbn [mbind go_bind].
  rewrite foldl_store. cbv beta iota zeta. unfold set_field, set_data. do 4 f_equal.
  assert (∀ k, k ∈ Keys kv → is_Some (m !! k)) as Hks.
  { intros k Hk%elem_of_Keys. unfold entries_of in Hk. by rewrite Hd in Hk. }
  transitivity (foldl (λ (acc : gmap string string) k, <[k := default ""%string (m !! k)]> acc)
    ∅ (Keys kv)).
  - clear -Hks Hv. generalize (∅ : gmap string string). induction (Keys kv) as [|k ks IH];
      intros m0; [done|]. cbn [foldl]. destruct (Hks k) as [v E]; [by left|].
    destruct (Hv _ _ E) as [Hk Hvv]. rewrite E. cbn [from_option id].
    rewrite (proj2 (sanitize_id _) Hk), (proj2 (sanitize_id _) Hvv).
    unfold str. rewrite !String.string_of_list_byte_of_string. apply IH.
    intros; apply Hks; by right.
  - apply map_eq. intros i. rewrite lookup_foldl_insert.
    destruct (m !! i) as [v|] eqn:E; case_decide as Hin; rewrite elem_of_Keys in Hin;
      unfold entries_of in Hin; rewrite Hd in Hin; cbn in Hin; rewrite E in Hin; first [done|by destruct Hin; eexists|by destruct Hin].
Qed.

(** kv_snapshot_loses_bytes.  A value that is not UTF-8 does not survive a snapshot: every
    invalid byte comes back as U+FFFD; and two keys that differ only in such bytes become
    one. *)
Theorem kv_snapshot_loses_bytes :
  ∃ kv kv', apply_all NewKV 1 [text "set a" ++ [x20; xff]; text "set " ++ [xfe; x20; x31];
                               text "set " ++ [xff; x20; x32]] = Ret kv ∧
    Restore NewKV (Snapshot kv).1 = Ret (kv', None) ∧
    str (Get kv "a").1 = [xff] ∧ str (Get kv' "a").1 = [xef; xbf; xbd] ∧
    KV_Len kv = 3%Z ∧ KV_Len kv' = 2%Z.
Proof. do 2 eexists. split; [by vm_compute|]. split; [by vm_compute|]. by vm_compute. Qed.

Definition stringy (ms : list (list byte * json)) : Prop :=
  Forall (λ kv, kv.2 = JNull ∨ ∃ s, kv.2 = JString s) ms.

Lemma store_member_flag m ms bad :
  (foldl store_member (m, bad) ms).2 = false ↔ bad = false ∧ stringy ms.
Proof.
  unfold stringy. revert m bad. induction ms as [|[k v] ms IH]; intros m bad; cbn [foldl].
  - split; [intros Hb; split; [done|constructor]|by intros [? _]].
  - rewrite Forall_cons. cbn [store_member snd fst].
    destruct v; rewrite IH; naive_solver.
Qed.

(** kv_restore_exact.  [Restore] fails, leaving the store untouched, unless the data is the
    JSON text [null] or an object whose members are all strings or null; it never touches
    [applied]. *)
Theorem kv_restore_exact kv bs kv' err :
  Restore kv bs = Ret (kv', err) →
  kv'.(applied) = kv.(applied) ∧ (err ≠ None → kv' = kv) ∧
  (err = None ↔ parse bs = Ret JNull ∧ kv'.(data) = None ∨
     ∃ ms, parse bs = Ret (JObject ms) ∧ stringy ms ∧
       kv'.(data) = Some (foldl store_member (∅, false) ms).1).
Proof.
  unfold Restore, unmarshal_map. destruct (parse bs) as [v|e|]; cbn [mbind go_bind]; [| |done].
  2: { intros [= <- <-]. split_and!; [done..|naive_solver]. }
  destruct v as [| | | | |ms];
    try (intros [= <- <-]; split_and!; [done..|naive_solver]).
  pose proof (store_member_flag ∅ ms false) as Hflag.
  destruct (foldl store_member (∅, false) ms) as [m [|]] eqn:E; cbn [snd] in Hflag;
    intros [= <- <-]; split_and!; try done.
  - split; [done|]. intros [[? _]|(ms' & [= <-] & Hs & _)]; [done|]. naive_solver.
  - split; [|done]. intros _. right. exists ms. rewrite E. naive_solver.
Qed.

(** kv_restore_null.  After restoring the JSON text [null], which the snapshot of a nil map
    is, the map is nil and the next set panics. *)
Theorem kv_restore_null kv i k v :
  no_space k → ∃ kv', Restore kv (text "null") = Ret (kv', None) ∧
    Apply kv' i (command_of (OpSet k v)) = Panic ∧ Snapshot kv' = (text "null", None).
Proof.
  intros Hk. exists (kv <| data := None |>). split.
  - unfold Restore. replace (unmarshal_map (text "null")) with (Ret (A:=option (gmap string string)) None)
      by (by vm_compute). done.
  - split; [|done]. unfold Apply, command_of. rewrite String.string_of_list_byte_of_string.
    by rewrite SplitN_set.
Qed.

Definition ex_ops : list KVOp := [OpSet "a" "x y"; OpSet "b" ""; OpDelete "a"; OpSet "b" "z"].

Lemma kv_refines_map_witness :
  ∃ kv, apply_all NewKV 1 (map command_of ex_ops) = Ret kv ∧
    kv.(data) = Some (foldl run_op ∅ ex_ops) ∧
    Get kv "b" = (default ""%string (foldl run_op ∅ ex_ops !! "b"%string),
                  bool_decide (is_Some (foldl run_op ∅ ex_ops !! "b"%string))).
Proof. apply (kv_refines_map ex_ops 1 "b"). by apply (bool_decide_unpack _). Defined.

Lemma kv_bad_command_witness :
  NewKV = NewKV ∧ ErrBadCommand = ErrBadCommand ∧
  (∀ op, op_ok op → String.list_byte_of_string "set a" ≠ command_of op).
Proof. by apply (kv_bad_command NewKV 1 (String.list_byte_of_string "set a")). Defined.

Definition ex_kv : KV :=
  MkKV (Some {[ "a b"%string := "<x> & \y"%string; ""%string := ""%string ]}) 7.

Lemma kv_snapshot_round_trip_witness :
  ∃ bs, Snapshot ex_kv = (bs, None) ∧
    Restore NewKV bs = Ret (MkKV ex_kv.(data) NewKV.(applied), None).
Proof.
  apply (kv_snapshot_round_trip ex_kv NewKV _ eq_refl).
  unfold valid_text. apply (bool_decide_unpack _). vm_compute. exact I.
Defined.

Lemma kv_restore_exact_witness :
  let r := foldl store_member (∅, false) [(text "k", JString (text "v")); (text "z", JNull)] in
  (MkKV (Some r.1) 0).(applied) = NewKV.(applied) ∧
  (None (A:=error) ≠ None → MkKV (Some r.1) 0 = NewKV).
Proof.
  pose proof (kv_restore_exact NewKV (json_text "{ 'k' : 'v', 'z':null}")
    (MkKV (Some (foldl store_member (∅, false)
      [(text "k", JString (text "v")); (text "z", JNull)]).1) 0) None) as Hw.
  destruct Hw as (Ha & Hn & _); [by vm_compute|]. by split.
Defined.

Lemma kv_restore_null_witness :
  ∃ kv', Restore NewKV (text "null") = Ret (kv', None) ∧
    Apply kv' 1 (command_of (OpSet "k" "v")) = Panic ∧ Snapshot kv' = (text "null", None).
Proof. by apply (kv_restore_null NewKV 1 "k" "v"). Defined.
