(* ===== verification/Counter.v ===== *)
(** * The counter state machine (internal/statemachine/counter.go)

    Commands are bytes.  [strings.TrimSpace] and [strings.Fields] (Unicode white space in
    UTF-8) are written out as the standard library defines them, [ParseInt] is in [Strconv];
    the counter is an [int64] and wraps.  Proved here: [Apply] keeps the counter on errors
    and within 64 bits, and the snapshot round trip. *)
From S2P Require Import Prelude Bytes Strconv.
From Stdlib Require Import Strings.Byte.
Open Scope Z_scope.

(** ** White space *)

(** A text as white-space sequences and other bytes.  [unicode.IsSpace]: U+0009..U+000D,
    U+0020, U+0085, U+00A0, U+1680, U+2000..U+200A, U+2028, U+2029, U+202F, U+205F,
    U+3000.  Their encodings start with a byte that cannot occur inside another rune, so
    looking for them from the left agrees with decoding, also on invalid UTF-8. *)
Inductive Token :=
  | Space (bs : list byte)
  | Char (b : byte).

Definition ascii_space (b : byte) : bool :=
  let n := Byte.to_N b in ((9 <=? n) && (n <=? 13) || (n =? 32))%N.

Definition space2 (b1 b2 : byte) : bool :=
  ((Byte.to_N b1 =? 194) && ((Byte.to_N b2 =? 133) || (Byte.to_N b2 =? 160)))%N.

Definition space3 (b1 b2 b3 : byte) : bool :=
  let '(n1, n2, n3) := (Byte.to_N b1, Byte.to_N b2, Byte.to_N b3) in
  ((n1 =? 225) && (n2 =? 154) && (n3 =? 128)
   || (n1 =? 226) && (n2 =? 128) &&
      ((128 <=? n3) && (n3 <=? 138) || (n3 =? 168) || (n3 =? 169) || (n3 =? 175))
   || (n1 =? 226) && (n2 =? 129) && (n3 =? 159)
   || (n1 =? 227) && (n2 =? 128) && (n3 =? 128))%N.

Fixpoint tokens (bs : list byte) : list Token :=
  match bs with
  | [] => []
  | b1 :: tl1 =>
    if ascii_space b1 then Space [b1] :: tokens tl1
    else
      match tl1 with
      | b2 :: tl2 =>
        if space2 b1 b2 then Space [b1; b2] :: tokens tl2
        else
          match tl2 with
          | b3 :: tl3 => if space3 b1 b2 b3 then Space [b1; b2; b3] :: tokens tl3
                         else Char b1 :: tokens tl1
          | [] => Char b1 :: tokens tl1
          end
      | [] => Char b1 :: tokens tl1
      end
  end.

Definition untoken (t : Token) : list byte := match t with Space bs => bs | Char b => [b] end.

Fixpoint drop_spaces (ts : list Token) : list Token :=
  match ts with Space _ :: ts => drop_spaces ts | _ => ts end.

Definition TrimSpace (bs : list byte) : list byte :=
  concat (map untoken (reverse (drop_spaces (reverse (drop_spaces (tokens bs)))))).

(** The maximal runs without white space; [cur] is the current run. *)
Fixpoint fields_of (cur : list byte) (ts : list Token) : list (list byte) :=
  match ts with
  | [] => match cur with [] => [] | _ => [cur] end
  | Space _ :: ts => match cur with [] => fields_of [] ts | _ => cur :: fields_of [] ts end
  | Char b :: ts => fields_of (cur ++ [b]) ts
  end.
Definition Fields (bs : list byte) : list (list byte) := fields_of [] (tokens bs).

(** ** The counter *)

Record Counter := MkCounter { value : Z; applied : N }.
#[export] Instance set_value : Setter value := λ v c, MkCounter v (applied c).
#[export] Instance set_applied : Setter applied := λ v c, MkCounter (value c) v.

Definition NewCounter : Counter := MkCounter 0 0.

Definition errEmpty : error := NewError "counter: empty command".
Definition errUnknown : error := NewError "counter: unknown command".
Definition errShort : error := NewError "counter: short snapshot".

Definition Apply (c : Counter) (idx : N) (command : list byte) : go (Counter * option error) :=
  match Fields (TrimSpace command) with
  | [] => Ret (c, Some errEmpty)
  | p0 :: rest =>
    if bool_decide (p0 = text "incr") then
      match (match rest with [] => Ret 1 | p1 :: _ => ParseInt p1 end) with
      | Ret delta =>
        Ret (c <| value := wrap_i64 (c.(value) + delta) |> <| applied := idx |>, None)
      | Throw err => Ret (c, Some err)
      | Panic => Panic
      end
    else if bool_decide (p0 = text "reset") then
      Ret (c <| value := 0 |> <| applied := idx |>, None)
    else Ret (c, Some errUnknown)
  end.

Definition Value (c : Counter) : Z := c.(value).
Definition LastApplied (c : Counter) : N := c.(applied).

Definition Snapshot (c : Counter) : list byte := be_bytes 8 (u64_of_i64 c.(value)).

Definition Restore (c : Counter) (data : list byte) : Counter * option error :=
  if (length data <? 8)%nat then (c, Some errShort)
  else (c <| value := i64_of_u64 (be_value (take 8 data)) |>, None).

(** counter_snapshot.  Restoring a snapshot of any 64-bit value, negative ones included,
    into any counter gives that value back; shorter data is refused without effect.
    [applied] is not part of the snapshot. *)
Theorem counter_snapshot c c' rest data :
  is_i64 c.(value) →
  Restore c' (Snapshot c ++ rest) = (MkCounter c.(value) c'.(applied), None) ∧
  ((length data < 8)%nat → Restore c' data = (c', Some errShort)).
Proof.
  intros Hv. split.
  - unfold Restore, Snapshot. pose proof (length_be_bytes 8 (u64_of_i64 (value c))) as Hl.
    rewrite (proj2 (Nat.ltb_ge _ _)) by (rewrite length_app; lia).
    rewrite take_app_length' by done. rewrite be_value_bytes.
    2: { rewrite pow_256_8. unfold u64_of_i64, u64_modulus.
         pose proof (Z.mod_pos_bound (value c) 18446744073709551616). lia. }
    do 2 f_equal. unfold i64_of_u64, u64_of_i64, is_i64, i64_min, i64_max, wrap_i64 in *.
    unfold set_field, set_value. f_equal. rewrite Z2N.id by (apply Z.mod_pos_bound; lia).
    rewrite Zplus_mod_idemp_l, Z.mod_small; lia.
  - intros Hl. unfold Restore. by rewrite (proj2 (Nat.ltb_lt _ _)) by done.
Qed.

(** counter_errors_keep.  A failing [Apply] leaves the counter unchanged, and [Apply]
    never panics, whatever the bytes of the command. *)
Theorem counter_errors_keep c i command :
  ∃ c' err, Apply c i command = Ret (c', err) ∧
    (err ≠ None → c' = c) ∧ (err = None → c'.(applied) = i) ∧
    (is_i64 c.(value) → is_i64 c'.(value)).
Proof.
  unfold Apply. destruct (Fields _) as [|p0 rest]; [by eexists _, _|].
  case_bool_decide.
  - assert (∀ bs, ParseInt bs ≠ Panic) as Hp.
    { assert (∀ ds n, parse_digits n ds ≠ Panic) as Hd.
      { induction ds as [|b ds IH]; intros n; [done|]. cbn. by repeat case_match. }
      intros [|b tl]; [done|]. unfold ParseInt.
      destruct (if bool_decide (b = x2b) then _ else _) as [neg ds].
      destruct (ParseUint ds) eqn:E; [by repeat case_match|done|].
      destruct ds; [done|]. by apply Hd in E. }
    destruct (match rest with [] => Ret 1 | p1 :: _ => ParseInt p1 end) as [delta|e|] eqn:E.
    + eexists _, _. split; [done|]. split; [done|]. split; [done|]. intros _.
      apply wrap_i64_is_i64.
    + by eexists _, _.
    + destruct rest; [done|]. by apply Hp in E.
  - case_bool_decide; by eexists _, _.
Qed.

Lemma counter_snapshot_witness :
  Restore (MkCounter 9 5) (Snapshot (MkCounter (-3) 7) ++ [x00]) = (MkCounter (-3) 5, None) ∧
  ((length [x00] < 8)%nat → Restore (MkCounter 9 5) [x00] = (MkCounter 9 5, Some errShort)).
Proof. by apply (counter_snapshot (MkCounter (-3) 7) (MkCounter 9 5) [x00] [x00]). Defined.

(** Commands as the documentation writes them. *)
Example counter_incr : Apply (MkCounter 5 1) 2 (text " incr  -7 ") = Ret (MkCounter (-2) 2, None).
Proof. by vm_compute. Qed.
Example counter_wraps :
  Apply (MkCounter 9223372036854775807 1) 2 (text "incr") =
    Ret (MkCounter (-9223372036854775808) 2, None).
Proof. by vm_compute. Qed.
