(* ===== verification/Config.v ===== *)
(** * Raft parameters (internal/config/config.go)

    [Default], [Validate], and the JSON file written by [Save] and read by [Load].  The
    struct tags are the table [fields]; a member of the file sets the field whose name it
    has up to case folding, other members are ignored, and a missing field stays zero.
    Proved here: what [Validate] accepts, the round trip through the file, and that [Load]
    returns only valid configurations. *)
From S2P Require Import Prelude Bytes Utf8 Strconv Json Disk.
From Stdlib Require Import Strings.Byte.
Open Scope Z_scope.

Definition ErrInvalid : error := NewError "config: invalid".

Record Config := MkConfig {
  ElectionTimeoutMin : Z;
  ElectionTimeoutMax : Z;
  HeartbeatInterval : Z;
  MaxEntriesPerAppend : Z;
  SnapshotThreshold : Z;
}.

Definition Default : Config :=
  {| ElectionTimeoutMin := 10; ElectionTimeoutMax := 20; HeartbeatInterval := 3;
     MaxEntriesPerAppend := 100; SnapshotThreshold := 1000 |}.

Definition invalid (what : string) : option error :=
  Some (WrapError ErrInvalid (": " +:+ what)).

Definition Validate (c : Config) : option error :=
  if c.(ElectionTimeoutMin) <=? 0 then invalid "election_timeout_min must be positive"
  else if c.(ElectionTimeoutMax) <? c.(ElectionTimeoutMin) then
    invalid "election_timeout_max < min"
  else if c.(HeartbeatInterval) <=? 0 then invalid "heartbeat_interval must be positive"
  else if c.(ElectionTimeoutMin) <=? c.(HeartbeatInterval) then
    invalid "heartbeat must be less than election timeout"
  else if c.(MaxEntriesPerAppend) <=? 0 then invalid "max_entries_per_append must be positive"
  else if c.(SnapshotThreshold) <=? 0 then invalid "snapshot_threshold must be positive"
  else None.

(** Validate_exact.  [Validate] accepts exactly the configurations with
    0 < heartbeat < election minimum <= election maximum and positive limits; every error
    is an [ErrInvalid]; the defaults are accepted. *)
Theorem Validate_exact c :
  (Validate c = None ↔
     0 < c.(HeartbeatInterval) < c.(ElectionTimeoutMin) ∧
     c.(ElectionTimeoutMin) ≤ c.(ElectionTimeoutMax) ∧
     0 < c.(MaxEntriesPerAppend) ∧ 0 < c.(SnapshotThreshold)) ∧
  (∀ err, Validate c = Some err → errors_Is err ErrInvalid = true) ∧
  Validate Default = None.
Proof.
  unfold Validate. split; [|split; [|done]].
  - repeat (match goal with |- context [if ?b then _ else _] =>
      let E := fresh in destruct b eqn:E;
      rewrite ?Z.leb_le, ?Z.ltb_lt, ?Z.leb_gt, ?Z.ltb_ge in E end;
      [split; [done|lia]|]).
    split; [lia|done].
  - intros err. repeat (case_match; [by intros [= <-]|]). done.
Qed.

(** ** The file *)

#[export] Instance set_ElectionTimeoutMin : Setter ElectionTimeoutMin := λ v c, MkConfig v
  (ElectionTimeoutMax c) (HeartbeatInterval c) (MaxEntriesPerAppend c) (SnapshotThreshold c).
#[export] Instance set_ElectionTimeoutMax : Setter ElectionTimeoutMax := λ v c, MkConfig
  (ElectionTimeoutMin c) v (HeartbeatInterval c) (MaxEntriesPerAppend c) (SnapshotThreshold c).
#[export] Instance set_HeartbeatInterval : Setter HeartbeatInterval := λ v c, MkConfig
  (ElectionTimeoutMin c) (ElectionTimeoutMax c) v (MaxEntriesPerAppend c) (SnapshotThreshold c).
#[export] Instance set_MaxEntriesPerAppend : Setter MaxEntriesPerAppend := λ v c, MkConfig
  (ElectionTimeoutMin c) (ElectionTimeoutMax c) (HeartbeatInterval c) v (SnapshotThreshold c).
#[export] Instance set_SnapshotThreshold : Setter SnapshotThreshold := λ v c, MkConfig
  (ElectionTimeoutMin c) (ElectionTimeoutMax c) (HeartbeatInterval c) (MaxEntriesPerAppend c) v.

(** A field of the struct with its tag. *)
Record Field := MkField {
  tag : list byte;
  read_field : Config → Z;
  write_field : Z → Config → Config;
}.

Definition fields : list Field :=
  [MkField (text "election_timeout_min") ElectionTimeoutMin (set_field ElectionTimeoutMin);
   MkField (text "election_timeout_max") ElectionTimeoutMax (set_field ElectionTimeoutMax);
   MkField (text "heartbeat_interval") HeartbeatInterval (set_field HeartbeatInterval);
   MkField (text "max_entries_per_append") MaxEntriesPerAppend (set_field MaxEntriesPerAppend);
   MkField (text "snapshot_threshold") SnapshotThreshold (set_field SnapshotThreshold)].

(** [json.MarshalIndent] with two spaces and no prefix: it cannot fail on a struct of integers. *)
Definition indent : list byte := x0a :: text "  ".
Definition field_text (c : Config) (f : Field) : list byte :=
  indent ++ quote f.(tag) ++ x3a :: [x20] ++ FormatInt (f.(read_field) c).
Definition MarshalIndent (c : Config) : list byte := object_text (map (field_text c) fields) [x0a].

Definition config_path (dir : string) : string := Join dir "config.json".

Definition Save (c : Config) (dir : string) (d : Disk) : Disk * option error :=
  os_WriteFile (config_path dir) (MarshalIndent c) d.

(** Case folding of a rune, as far as it can lead to ASCII: the letters, the long s
    (U+017F) and the Kelvin sign (U+212A). *)
Definition fold_rune (r : N) : N :=
  (if (97 <=? r) && (r <=? 122) then r - 32
   else if r =? 383 then 83 else if r =? 8490 then 75 else r)%N.
Definition fold_name (bs : list byte) : list N :=
  loop (λ bs, let '(r, k) := DecodeRune bs in ([fold_rune r], k)) bs.

Definition lookup_field (name : list byte) : option Field :=
  head (filter (λ f, fold_name f.(tag) = fold_name name) fields).

(** One member decoded into the struct; the flag remembers a type error. *)
Definition store_field (acc : Config * bool) (kv : list byte * json) : Config * bool :=
  let '(c, bad) := acc in
  match lookup_field kv.1 with
  | None => acc
  | Some f =>
    match kv.2 with
    | JNull => acc
    | JNumber lit =>
      match ParseInt lit with Ret z => (f.(write_field) z c, bad) | _ => (c, true) end
    | _ => (c, true)
    end
  end.

Definition zero_config : Config := MkConfig 0 0 0 0 0.

(** [json.Unmarshal(data, &c)] for a zero [c]. *)
Definition unmarshal_config (bs : list byte) : go Config :=
  v ← parse bs;
  match v with
  | JNull => Ret zero_config
  | JObject ms =>
    let '(c, bad) := foldl store_field (zero_config, false) ms in
    if bad : bool then Throw ErrJSON else Ret c
  | _ => Throw ErrJSON
  end.

Definition Load (dir : string) (d : Disk) : go Config :=
  match os_Open (config_path dir) d with
  | Panic => Panic
  | Throw err => if os_IsNotExist err then Ret Default else Throw err
  | Ret bs =>
    c ← unmarshal_config bs;
    match Validate c with Some err => Throw err | None => Ret c end
  end.

(** The fields are Go [int]s. *)
Definition in_range (c : Config) : Prop := Forall (λ f, is_i64 (f.(read_field) c)) fields.

Lemma field_reads dep c f : is_i64 (f.(read_field) c) →
  reads (member (value dep)) (field_text c f)
    (sanitize f.(tag), JNumber (FormatInt (f.(read_field) c))).
Proof.
  intros Hz. apply (member_reads (value dep) indent f.(tag) [x20]); [by repeat constructor..| |].
  - by apply value_FormatInt.
  - intros bs. by destruct dep.
Qed.

Lemma parse_MarshalIndent c : in_range c →
  parse (MarshalIndent c) =
    Ret (JObject (map (λ f, (sanitize f.(tag), JNumber (FormatInt (f.(read_field) c)))) fields)).
Proof.
  intros Hr. apply parse_value_text. intros dep. unfold MarshalIndent.
  rewrite <- (app_nil_r (object_text _ _)). apply object_value; [| |by repeat constructor].
  - unfold in_range in Hr. induction Hr as [|f fs Hf _ IH]; cbn [map]; constructor; [|done].
    by apply field_reads.
  - apply Forall_map, Forall_true. intros f. split; [done|]. intros rest. done.
Qed.

Lemma lookup_field_tag f : f ∈ fields → lookup_field (sanitize f.(tag)) = Some f.
Proof.
  unfold fields. rewrite !elem_of_cons, elem_of_nil.
  intros [->|[->|[->|[->|[->|[]]]]]]; by vm_compute.
Qed.

Lemma foldl_store_fields c fs acc bad :
  in_range c → (∀ f, f ∈ fs → f ∈ fields) →
  foldl store_field (acc, bad)
    (map (λ f, (sanitize f.(tag), JNumber (FormatInt (f.(read_field) c)))) fs) =
  (foldl (λ acc f, f.(write_field) (f.(read_field) c) acc) acc fs, bad).
Proof.
  intros Hr. unfold in_range in Hr. rewrite Forall_forall in Hr. revert acc.
  induction fs as [|f fs IH]; intros acc Hfs; [done|]. cbn [map foldl store_field fst snd].
  rewrite lookup_field_tag by (apply Hfs; by left).
  rewrite ParseInt_FormatInt by (apply Hr, Hfs; by left).
  apply IH. intros f' Hf'. apply Hfs. by right.
Qed.

Lemma unmarshal_MarshalIndent c : in_range c → unmarshal_config (MarshalIndent c) = Ret c.
Proof.
  intros Hr. unfold unmarshal_config. rewrite parse_MarshalIndent by done.
  cbn [mbind go_bind]. rewrite foldl_store_fields by done. by destruct c.
Qed.

(** C38: config_round_trip.  After a successful [Save], [Load] of the same directory gives back
    the configuration if it is valid and reports what is wrong with it if it is not ([Save]
    does not check); no other file changes. *)
Theorem config_round_trip c dir d d' :
  in_range c → Save c dir d = (d', None) →
  Load dir d' = match Validate c with Some err => Throw err | None => Ret c end ∧
  ∀ p, p ≠ config_path dir → d'.(files) !! p = d.(files) !! p.
Proof.
  intros Hr Hs. apply WriteFile_opens in Hs as [Ho Hothers]. split; [|done].
  unfold Load. by rewrite Ho, unmarshal_MarshalIndent.
Qed.

(** config_Load_valid.  [Load] never panics and returns only valid configurations: the
    defaults when there is no file. *)
Theorem config_Load_valid dir d :
  (∀ c, Load dir d = Ret c → Validate c = None) ∧
  (config_path dir ∉ d.(denied) → d.(files) !! config_path dir = None → Load dir d = Ret Default).
Proof.
  split.
  - intros c. unfold Load. destruct (os_Open _ _) as [bs|e|]; [|by case_match; [intros [= <-]|]|done].
    intros Hl. go_inv Hl. destruct (Validate a) eqn:E; [done|]. by injection Hl as <-.
  - intros Hd Hf. unfold Load, os_Open. by rewrite bool_decide_eq_false_2, Hf.
Qed.

Definition empty_disk : Disk := MkDisk ∅ [] 4096 None.

Lemma config_round_trip_witness :
  Load "conf/" (Save Default "conf/" empty_disk).1 = Ret Default ∧
  ∀ p, p ≠ config_path "conf/" →
    (Save Default "conf/" empty_disk).1.(files) !! p = empty_disk.(files) !! p.
Proof.
  apply (config_round_trip Default "conf/" empty_disk); [|by vm_compute].
  by repeat (constructor; [done|]).
Defined.

Lemma config_Load_valid_witness : Load "x" empty_disk = Ret Default.
Proof.
  destruct (config_Load_valid "x" empty_disk) as [_ Hl].
  apply Hl; [apply not_elem_of_nil|done].
Defined.

(** Names are matched up to case, the last member wins, and a file that leaves a field out
    is refused, because the field is zero and not the default. *)
Example config_case :
  unmarshal_config (json_text "{'Heartbeat_Interval': 4, 'other': [1], 'heartbeat_interval': 5}")
    = Ret (zero_config <| HeartbeatInterval := 5 |>).
Proof. by vm_compute. Qed.
