(* ===== verification/Anomalies.v ===== *)
(** * Executions that break what the program promises

    The first is an execution of [Node]s as they are meant to be deployed (the setting of
    [Network]) in which a committed entry is lost; the others are about the wiring of
    [Cluster], whose nodes count themselves among their peers: a cluster of one node never
    elects, whatever the seed, and small computed runs show what the order of delivery, a
    heartbeat to oneself and a candidate's forgotten vote do. *)
From S2P Require Import Prelude Log LogPersist Message Node Cluster.
From S2P Require Import Spec NodeFacts Refine Network Commit NodeSpec.
From Stdlib Require Import Strings.Byte.
Open Scope N_scope.

#[local] Existing Instance constant_rng.

(** ** Two nodes commit different commands at the same index

    Node 1 is elected in term 1 (with 3) and stores [x] without replicating it.  Node 2 is
    elected in term 2 (with 3); node 1 answers its first two heartbeats with its own last
    index, 1.  Node 2 stores [y] at index 1 and, on the second answer, counts node 1 as
    holding it: [y] is committed, on node 2 only.  Node 1 is then elected in term 3 (with
    3, whose log is empty) and replicates and commits [x] and [z]. *)

Definition x_entry : Entry := MkEntry 1 1 [x78].
Definition y_entry : Entry := MkEntry 2 1 [x79].
Definition z_entry : Entry := MkEntry 3 2 [x7a].

Definition bad_schedule : list Action :=
  repeat (ATick 1) 10 ++
  [ADeliver (NewRequestVote 1 3 1 0 0); ADeliver (NewRequestVoteResp 3 1 1 true);
   APropose 1 [x78]] ++
  repeat (ATick 2) 20 ++
  [ADeliver (NewRequestVote 2 3 2 0 0); ADeliver (NewRequestVoteResp 3 2 2 true);
   ADeliver (NewAppendEntries 2 1 2 0 0 0 []); ADeliver (NewAppendEntries 2 1 2 0 0 0 []);
   ADeliver (NewAppendEntriesResp 1 2 2 true 1); APropose 2 [x79];
   ADeliver (NewAppendEntriesResp 1 2 2 true 1)] ++
  repeat (ATick 1) 10 ++
  [ADeliver (NewRequestVote 1 3 3 1 1); ADeliver (NewRequestVoteResp 3 1 3 true);
   ADeliver (NewAppendEntries 1 3 3 1 1 0 []); ADeliver (NewAppendEntriesResp 3 1 3 false 0);
   APropose 1 [x7a]; AReplicate 1;
   ADeliver (NewAppendEntries 1 3 3 0 0 0 [x_entry; z_entry]);
   ADeliver (NewAppendEntriesResp 3 1 3 true 2)].

Definition no_crash (a : Action) : Prop :=
  match a with ACrash _ | ARestart _ => False | _ => True end.

Definition bad_net : Net Z := Eval vm_compute in
  match exec_all (start [1; 2; 3] (λ _, 0%Z)) bad_schedule with
  | Ret nt => nt
  | _ => MkNet ∅ []
  end.

(** ** The wiring of [Cluster]

    [Cluster.New] passes every id, the node's own included, as [peers]. *)

(** One round of a driver: tick every node, then deliver every queue in the given order. *)
Fixpoint rounds {R} `{RNG R} (k : nat) (order : list N) (c : Cluster R) : go (Cluster R) :=
  match k with
  | O => Ret c
  | S k => c ← TickAll c; c ← DeliverAll c order; rounds k order c
  end.

Definition leader_after (r : go (Cluster Z)) : option N :=
  match r with Ret c => Some (Leader c) | _ => None end.

(** ** A cluster of one *)

Section single.
  Context {R : Type} `{RNG R}.

(** The only node: running, not a leader, with itself as its peer. *)
Record lonely (n : Node R) : Prop := {
  lone_log : wf n.(raftLog);
  lone_id : n.(id) = 1;
  lone_peers : n.(peers) = [1];
  lone_state : n.(state) = StateFollower ∨ n.(state) = StateCandidate;
}.

Definition self_request (m : Message) : Prop := m.(Type_) = MsgRequestVote ∧ m.(To) = 1.

Lemma Tick_lonely n :
  lonely n → ∃ n' out, Tick n = Ret (n', out) ∧ lonely n' ∧ Forall self_request out.
Proof.
  intros [Hwf Hid Hps Hst]. unfold Tick.
  destruct (crashed n); [exists n, []; split_and!; done|].
  set (n1 := n <| electionElapsed := _ |>).
  assert (lonely n1) as Hn1 by by split.
  assert (∃ n' out, startElection n1 = Ret (n', out) ∧ lonely n' ∧ Forall self_request out)
    as Hel.
  { unfold startElection. match goal with |- context [resetElectionTimer ?x] =>
      destruct (reset_eq x) as (t & r & ->) end.
    cbn -[Last u64_add]. rewrite (Last_wf _ Hwf). eexists _, _. split; [done|]. split.
    - split; try done. by right.
    - rewrite Hps. by repeat constructor. }
  change (state n1) with (state n). destruct Hst as [-> | ->];
    (destruct (_ <=? _)%Z; [done|]); exists n1, []; by split_and!.
Qed.

Lemma Step_lonely n m :
  lonely n → m.(Type_) = MsgRequestVote →
  ∃ n' out, Step n m = Ret (n', out) ∧ lonely n'.
Proof.
  intros [Hwf Hid Hps Hst] Hty. unfold Step. destruct (crashed n); [by exists n, []|].
  rewrite Hty. unfold handleRequestVote. destruct (_ <? _); [by eexists _, _|].
  fold (bumped n m). assert (lonely (bumped n m)) as Hb.
  { unfold bumped. destruct (_ <? _); [|done]. split; try done. by left. }
  set (n1 := bumped n m) in *. clearbody n1.
  destruct (isUpToDate_spec n1 (LastLogIndex m) (LastLogTerm m)) as (b & E & _); [apply Hb|].
  rewrite E. assert ((if (votedFor n1 =? 0) || (votedFor n1 =? From m) then Ret b else Ret false)
    = Ret (((votedFor n1 =? 0) || (votedFor n1 =? From m)) && b)) as -> by by destruct (_ || _).
  cbn [mbind go_bind]. destruct (_ && b).
  - destruct (reset_eq (n1 <| votedFor := From m |>)) as (t & r & ->).
    eexists _, _. split; [done|]. destruct Hb. by split.
  - by eexists _, _.
Qed.

(** The states between two rounds, and after the ticks of a round. *)
Definition lonely_cluster (P : Message → Prop) (c : Cluster R) : Prop :=
  ∃ n, c.(nodes) = [n] ∧ lonely n ∧ Forall P (queue_of c.(queues) 1).

Lemma route_lonely c out :
  lonely_cluster self_request c → Forall self_request out →
  lonely_cluster self_request (route c out).
Proof.
  intros Hc Hout. revert c Hc. induction Hout as [|m out [Hty Hto] _ IH]; intros c Hc; [done|].
  cbn [route foldl]. apply IH. destruct Hc as (n & Hn & Hl & Hq).
  exists n. split; [done|]. split; [done|]. cbn. unfold queue_of. rewrite Hto, lookup_insert_eq.
  cbn. apply Forall_app. split; [done|]. by repeat constructor.
Qed.

Lemma TickAll_lonely c :
  lonely_cluster self_request c →
  ∃ c', TickAll c = Ret c' ∧ lonely_cluster self_request c'.
Proof.
  intros (n & Hn & Hl & Hq). unfold TickAll. rewrite Hn. cbn [length tick_from].
  rewrite Hn. cbn [lookup list_lookup].
  destruct (Tick_lonely n Hl) as (n' & out & -> & Hl' & Hout). cbn [mbind go_bind].
  eexists. split; [done|]. apply route_lonely; [|done].
  exists n'. unfold put_node. cbn. by rewrite Hn.
Qed.

Lemma deliver_lonely c msgs :
  (∃ n, c.(nodes) = [n] ∧ lonely n) → Forall self_request msgs →
  ∃ c', deliver_msgs c 0 msgs = Ret c' ∧ ∃ n, c'.(nodes) = [n] ∧ lonely n.
Proof.
  intros Hc Hm. revert c Hc. induction Hm as [|m msgs [Hty _] _ IH]; intros c (n & Hn & Hl).
  { exists c. split; [done|]. by exists n. }
  cbn [deliver_msgs]. rewrite Hn. cbn [lookup list_lookup].
  destruct (Step_lonely n m Hl Hty) as (n' & out & -> & Hl'). cbn [mbind go_bind].
  apply IH. exists n'. rewrite route_nodes. unfold put_node. cbn. by rewrite Hn.
Qed.

Lemma DeliverAll_lonely c :
  lonely_cluster self_request c →
  ∃ c', DeliverAll c [1] = Ret c' ∧ lonely_cluster self_request c'.
Proof.
  intros (n & Hn & Hl & Hq). cbn [DeliverAll]. unfold deliver_id.
  destruct (queue_of (queues c) 1) as [|m ms] eqn:E.
  { exists c. split; [done|]. exists n. by rewrite E. }
  assert (nodeByID c 1 = Some (0%nat, n)) as ->.
  { unfold nodeByID. rewrite Hn. cbn. by rewrite decide_True by apply (lone_id _ Hl). }
  destruct (deliver_lonely c (m :: ms)) as (c' & -> & n' & Hn' & Hl'); [by exists n|done|].
  cbn [mbind go_bind]. eexists. split; [done|]. exists n'. split; [done|]. split; [done|].
  cbn. unfold queue_of. rewrite lookup_insert_eq. done.
Qed.

Lemma New_lonely (NewSeededRNG : Z → R) seed :
  lonely_cluster self_request (Cluster.New NewSeededRNG 1 seed).
Proof.
  unfold Cluster.New. cbn. eexists. split; [done|]. split; [|done]. unfold Node.New.
  match goal with |- context [resetElectionTimer ?x] =>
    destruct (reset_eq x) as (t & r & ->) end.
  split; cbn; try done; [apply New_wf|by left].
Qed.

Lemma Leader_lonely (c : Cluster R) : lonely_cluster self_request c → Leader c = 0.
Proof.
  intros (n & Hn & [_ _ _ Hst] & _). unfold Leader. rewrite Hn. cbn.
  rewrite decide_False; [done|]. destruct Hst as [-> | ->]; done.
Qed.
End single.

(** ** What the executions show *)

(** C9: commit_safety_violated.  State-machine safety does not hold, even with correct peer
    lists and without any crash: a reachable state in which two nodes have committed
    different commands at index 1.  The cause is that a follower reports its own last index
    as [MatchIndex], replicated by this leader or not: the execution is not honest in the
    sense of [honest_run], and [network_commit_safety] says that no honest one does this. *)
Theorem commit_safety_violated :
  ∃ (acts : list Action) (nt : Net Z) n1 n2 e1 e2,
    Forall action_ok acts ∧ Forall no_crash acts ∧
    exec_all (start [1; 2; 3] (λ _, 0%Z)) acts = Ret nt ∧
    honest_run (start [1; 2; 3] (λ _, 0%Z)) acts = false ∧
    net_nodes nt !! 1 = Some n1 ∧ net_nodes nt !! 2 = Some n2 ∧
    Node.CommittedEntries n1 = Ret e1 ∧ Node.CommittedEntries n2 = Ret e2 ∧
    Command <$> e1 !! 0%nat = Some [x78] ∧ Command <$> e2 !! 0%nat = Some [x79].
Proof.
  exists bad_schedule, bad_net, (node_at bad_net 1), (node_at bad_net 2),
    [x_entry; z_entry], [y_entry].
  split; [by apply (bool_decide_unpack _)|]. split; [by repeat constructor|].
  split_and!; by vm_compute.
Qed.

(** own_heartbeat_demotes.  A leader among its own peers does not survive its own
    heartbeat: handling an AppendEntries of its own term, it becomes a follower. *)
Theorem own_heartbeat_demotes {R} `{RNG R} (n n' : Node R) m out :
  n.(crashed) = false → n.(state) = StateLeader →
  m.(Type_) = MsgAppendEntries → m.(From) = n.(id) → m.(Message.Term) = n.(currentTerm) →
  Step n m = Ret (n', out) → n'.(state) = StateFollower ∧ n'.(currentTerm) = n.(currentTerm).
Proof.
  intros Hcr Hst Hty _ Ht Hr. unfold Step in Hr. rewrite Hcr, Hty in Hr.
  destruct (handleAppendEntries_role _ _ _ _ Hr) as [? ?]; [lia|]. split; [done|lia].
Qed.

Lemma own_heartbeat_demotes_witness :
  let n' := node_of (Step busy (NewAppendEntries 1 1 1 0 0 0 [])) in
  n'.(state) = StateFollower ∧ n'.(currentTerm) = busy.(currentTerm).
Proof.
  eapply (own_heartbeat_demotes busy _ (NewAppendEntries 1 1 1 0 0 0 [])); by vm_compute.
Defined.

(** candidate_forgets_vote.  A candidate that recognises the leader of its own term forgets
    that it voted for itself: afterwards it grants a third node its vote of the same term.
    (Election safety survives, because that term already has its leader.) *)
Theorem candidate_forgets_vote :
  candidate.(votedFor) = 1 ∧ candidate.(currentTerm) = 1 ∧
  ∃ n1 out n2, Step candidate (NewAppendEntries 2 1 1 0 0 0 []) = Ret (n1, out) ∧
    n1.(votedFor) = 0 ∧
    Step n1 (NewRequestVote 3 1 1 0 0) = Ret (n2, [NewRequestVoteResp 1 3 1 true]) ∧
    n2.(votedFor) = 3 ∧ n2.(currentTerm) = 1.
Proof. do 2 (split; [done|]). do 3 eexists. split; [by vm_compute|]. by vm_compute. Qed.

(** C25: single_node_never_elects.  A cluster of one node never has a leader, however many
    rounds it runs. *)
Theorem single_node_never_elects {R} `{RNG R} (NewSeededRNG : Z → R) seed k :
  ∃ c, rounds k [1] (Cluster.New NewSeededRNG 1 seed) = Ret c ∧ Leader c = 0.
Proof.
  assert (∀ c, lonely_cluster self_request c →
    ∃ c', rounds k [1] c = Ret c' ∧ lonely_cluster self_request c') as Hrounds.
  { induction k as [|k IH]; intros c Hc; [by exists c|]. cbn [rounds].
    destruct (TickAll_lonely c Hc) as (c1 & -> & Hc1). cbn [mbind go_bind].
    destruct (DeliverAll_lonely c1 Hc1) as (c2 & -> & Hc2). cbn [mbind go_bind]. by apply IH. }
  destruct (Hrounds _ (New_lonely NewSeededRNG seed)) as (c & -> & Hc).
  exists c. split; [done|]. by apply Leader_lonely.
Qed.

(** delivery_order_matters.  [DeliverAll] depends on the order in which Go visits the
    queues: after the same 13 rounds of the same three seeded nodes, one order leaves node
    1 as leader and another leaves none. *)
Theorem delivery_order_matters :
  let c0 := Cluster.New (λ z : Z, z) 3 1 in
  visit_order c0 [1; 2; 3] ∧ visit_order c0 [3; 2; 1] ∧
  leader_after (rounds 13 [1; 2; 3] c0) = Some 1 ∧
  leader_after (rounds 13 [3; 2; 1] c0) = Some 0.
Proof.
  assert (∀ l : list N, l ≡ₚ [1; 2; 3] → visit_order (Cluster.New (λ z : Z, z) 3 1) l) as Hord.
  { intros l Hl. split.
    - rewrite Hl. by apply (bool_decide_unpack _).
    - intros i. rewrite Hl. cbn. rewrite !elem_of_cons, !lookup_insert_is_Some, lookup_empty.
      pose proof (not_elem_of_nil i). destruct (decide (1 = i)), (decide (2 = i)), (decide (3 = i));
        naive_solver. }
  split_and!; [by apply Hord| |by vm_compute..].
  apply Hord. by apply (bool_decide_unpack _).
Qed.
