(* ===== verification/Driver.v ===== *)
(** * The demonstration program (main.go)

    [main] after flag parsing: elect a leader, propose commands, print the committed log.
    The order in which each [DeliverAll] visits the queues comes from [orders], indexed by
    the number of rounds so far; the random sources come from [NewSeededRNG].
    With one node the program never elects; a run with three nodes commits nothing. *)
From S2P Require Import Prelude Log Message Node Cluster Anomalies.
From Stdlib Require Import Strings.Byte.
Open Scope N_scope.

(** What the program printed and its exit code. *)
Record Output := MkOutput { stdout : list string; stderr : list string; exit_code : Z }.

Section driver.
  Context {R : Type} `{RNG R} (NewSeededRNG : Z → R) (orders : nat → list N).

(** The cluster and the number of [DeliverAll] calls made. *)
Definition Run : Type := Cluster R * nat.

Definition round (s : Run) : go Run :=
  let '(c, t) := s in
  c ← TickAll c; c ← DeliverAll c (orders t); Ret (c, S t).

(** [for i := 0; i < k; i++ { round; if c.Leader() > 0 { break } }] *)
Fixpoint elect (k : nat) (s : Run) : go Run :=
  match k with
  | O => Ret s
  | S k => s ← round s; if 0 <? Leader s.1 then Ret s else elect k s
  end.

Fixpoint drive (k : nat) (s : Run) : go Run :=
  match k with O => Ret s | S k => s ← round s; drive k s end.

(** [fmt.Sprintf("set key%d value%d", i, i)] *)
Definition command (i : N) : list byte :=
  String.list_byte_of_string ("set key" +:+ pretty i +:+ " value" +:+ pretty i).

(** The proposal loop, [k] iterations from [i]; the failures go to stderr. *)
Fixpoint propose_all (k : nat) (i : N) (s : Run) : go (Run * list string) :=
  match k with
  | O => Ret (s, [])
  | S k =>
    '(c, err) ← Cluster.Propose s.1 (command i);
    match err with
    | Some err =>
      '(s, errs) ← propose_all k (i + 1) (c, s.2);
      Ret (s, ("propose failed: " +:+ error_text err) :: errs)
    | None => s ← drive 50 (c, s.2); propose_all k (i + 1) s
    end
  end.

Definition entry_line (e : Entry) : string :=
  "  [term=" +:+ pretty e.(Log.Term) +:+ " idx=" +:+ pretty e.(Log.Index) +:+ "] " +:+
  String.string_of_list_byte e.(Command).

Definition main (nodes proposals : nat) (seed : Z) : go Output :=
  if (nodes <? 1)%nat then Ret (MkOutput [] ["error: need at least 1 node"%string] 1)
  else
    s ← elect 200 (Cluster.New NewSeededRNG nodes seed, O);
    if Leader s.1 =? 0 then
      Ret (MkOutput [] ["error: no leader elected after 200 ticks"%string] 1)
    else
      let elected := "Leader elected: node " +:+ pretty (Leader s.1) in
      '(s, errs) ← propose_all proposals 1 s;
      es ← Cluster.CommittedEntries s.1 (Leader s.1);
      Ret (MkOutput
        ([elected; "" : string; "Committed log (node " +:+ pretty (Leader s.1) +:+ "):"] ++
         map entry_line es ++
         ["" : string; "Total committed: " +:+ pretty (lenN es) +:+ " entries"])
        errs 0).

(** ** A single node *)

Lemma elect_lonely k c t :
  (∀ i, orders i = [1]) → lonely_cluster self_request c →
  ∃ c' t', elect k (c, t) = Ret (c', t') ∧ lonely_cluster self_request c'.
Proof.
  intros Hord. revert c t. induction k as [|k IH]; intros c t Hc; [by exists c, t|].
  cbn [elect]. unfold round. destruct (TickAll_lonely c Hc) as (c1 & -> & Hc1).
  cbn [mbind go_bind]. rewrite Hord.
  destruct (DeliverAll_lonely c1 Hc1) as (c2 & -> & Hc2). cbn [mbind go_bind fst].
  rewrite (Leader_lonely c2 Hc2). cbn. by apply IH.
Qed.
End driver.

(** main_one_node_fails.  Run with one node, the program never gets past the election: it
    exits with code 1 after 200 rounds, for every seed. *)
Theorem main_one_node_fails {R} `{RNG R} (NewSeededRNG : Z → R) proposals seed :
  main NewSeededRNG (λ _, [1]) 1 proposals seed =
    Ret (MkOutput [] ["error: no leader elected after 200 ticks"%string] 1).
Proof.
  unfold main. cbn [Nat.ltb Nat.leb].
  destruct (elect_lonely (λ _, [1]) 200 (Cluster.New NewSeededRNG 1 seed) 0)
    as (c & t & -> & Hc); [done|apply New_lonely|].
  cbn [mbind go_bind fst]. by rewrite (Leader_lonely c Hc).
Qed.

(** A run with three nodes: the first proposal is accepted and never commits, because its own
    replication deposes the leader; the second one finds no leader. *)
Example main_three_nodes_lose_commands :
  main (H:=constant_rng) (λ z : Z, z) (λ _, [1; 2; 3]) 3 2 1 =
    Ret (MkOutput ["Leader elected: node 1"; "" : string; "Committed log (node 0):"; "" : string;
                   "Total committed: 0 entries"]%string
                  ["propose failed: node: not leader"%string] 0).
Proof. by vm_compute. Qed.
